(* ===== verification/_CoqProject ===== *)
-Q . S2P
Prelude.v
Events.v
MixedRadix.v
Mesh.v
Shape.v
Processor.v
TileIndex.v
Tiles.v
ScatterGather.v
Broadcast.v
ReshardConfig.v
Handles.v
Promises.v
Contexts.v
Vectors.v
TaskArguments.v
Tasks.v
TaskSpecs.v
TaskOrder.v
TaskProps.v
TaskProgress.v
Lifetimes.v
Startup.v
Shutdown.v
Profiling.v
Program.v
Streams.v
InstanceCache.v
Arrays.v
Hashing.v
Printing.v
ReshardManager.v
Rendezvous.v
Pairing.v
PairingSteps.v
Matching.v
Reshard.v
ReshardPlan.v
ReshardFollows.v
PlanPattern.v
PlanMatch.v
PlanCompletes.v
Contents.v
Collective.v
Progress.v
