(* ===== verification/Prelude.v ===== *)
(** * Verification of zuku

    zuku is a C++ library of futures over the Realm runtime.  A program keeps its
    data in handles ([Store], [Future], [View]) and defers functions on them; the
    handles carry the Realm events that order the resulting tasks.  On top of this
    the library has arrays that are sharded over the processors of a machine, and
    moves an array from one sharding to another ("reshard") by copies between
    tiles, agreed on by one manager per process.  All paths below are under
    src/src/zuku/.

    ** Parts, and where they are modelled

    - [Prelude]: outcomes of C++ functions (return, throw, undefined behaviour),
      stateful operations, machine integers, loops; automation and list lemmas.
    - [Events]: Realm's events and the part of the runtime's state that the code
      changes (user events, triggers, deferred releases, pending operations).
    - [Mesh] (mesh.h), [Shape] (shape.h), [Processor] (processor.h, processor.cc):
      device lists, shapes and shardings with their well-formedness, the numbering
      of the processors of all processes.
    - [MixedRadix], [TileIndex], [Tiles] (tiled_array.cc, realm_variants.h): shard
      numbers, tile indices with permutations and replicas, bounds of tiles.
    - [Handles] (store.h, future.h): the three handles, every member function.
    - [Promises] (promise.h, future.h from line 324, token.h): how the results of a
      task reach the futures that were given out before it ran.
    - [Contexts] (defer.h, [Context]): what [on], [after], [across], ... collect.
    - [TaskArguments] (store.h from line 272, future.h from line 464,
      resolve_dependency.h): what a task stores for an argument, what it waits for,
      what the function gets.
    - [Tasks] (task.h, task.cc, task_base.h, defer.h, token.h, barrier.h): task ids,
      the constructor of [Task], [_defer], bulk operations, running and deleting.
      [TaskSpecs] takes [_defer] apart once, [TaskOrder] proves that conflicting
      tasks are ordered, [TaskProgress] that they all run, [Lifetimes] that task
      objects are deleted once, and [TaskProps] has the other theorems about tasks.
      [Vectors] (vector.h) are the vectors of references that a function can take,
      with their iterators.
    - [InstanceCache] (instance_cache.h), [Arrays] (tiled_array.h, tiled_array.cc):
      allocation of the tile of an array with the tile cache and its retry, ids and
      counts of arrays, moves between memories.
    - [ScatterGather], [Broadcast], [ReshardConfig] (reshard_scatter_gather.cc,
      reshard_broadcast.cc, reshard.cc, reshard_gather_shards.cc,
      reshard_scatter_shards.cc): which pattern moves an array, and what every
      processor sends and receives in it.
    - [ReshardManager] (reshard_manager.h, reshard_manager.cc): the managers of all
      processes, their barriers and the messages in flight.  [Rendezvous] states
      what the protocol promises over schedules, [Pairing] its invariant,
      [PairingSteps] and [Matching] the proof.
    - [Reshard] (reshard.cc and the five pattern files): what a processor does to
      reshard an array, over the interface [Manager] of the manager.  [ReshardPlan]
      is the abstract specification, [ReshardFollows] the refinement.
    - [Startup] (init.h, init.cc, part of profile.cc): [Init] as a sequence of calls
      of Realm, each of which can be refused; the verdict of an allocation.
      [Shutdown] (init.cc, future.h, task.cc, profile.cc, defer.h): the pending
      operations, and [Stop], as atomic steps of threads in any order.  [Program]
      (defer.h, [program]) composes [Init], the deferred function and the end.
    - [Profiling] (profile.h, profile.cc, task.h, task.cc): the regions and marks
      that NVTX is told of, as interleaved steps of callers and tasks.
    - [Streams] (stream.h, stream.cc): what a task's stream asks of the CUDA driver.
      [Hashing] (hash.h and the specialisations of [std::hash]).  [Printing]: every
      operator [<<], [ShortString] and the message of [AllocationFailure].
    - [PlanPattern], [PlanMatch], [PlanCompletes]: the plans of all processors of a
      reshard, as tables of who sends what to whom; that they fit together for
      every pair of shardings that [fits]; and what the plans and the managers
      achieve together.  [Contents] performs the copies: what the tiles hold then.
      [Collective] lets every processor run [Reshard] itself, interleaved, and
      [Progress] shows that they never wait for each other in a circle.

    A member function is a definition that returns the new object; where objects
    are shared (promises and futures, tiles, tasks) they are indices into a heap.
    The state of a component is a record: [ProcState], [World] (arrays), [Comm]
    (managers), [Heap] (promises), [Objects] (handles), [System] (tasks), [Frame]
    (a reshard), [Boot] (the start), [Shutdown.State] (the threads that release),
    [Profiling.Regions], [Program.Process], [Contents.Memory] (instances and points).

    ** What the theorems show

    - Shards and tiles: tile indices are a bijection, tiles partition the array once
      per replica, sizes are conserved, without overflow.
    - Processors: the numbering is the same in every process and consistent with the
      local one; what [GetAttachedHost] returns.
    - Handles: a store never lets conflicting accesses overlap, for any sequence of
      requests; a view and an open-ended child release what they hold exactly once.
    - Tasks: the task of a later conflicting access starts only when the earlier
      access is over, for any program, and a stream-ordered task only when the
      earlier one has given up the stream ([tasks_conflicts_ordered]), and the tasks never
      wait for each other in a circle ([tasks_all_run]); a task starts
      exactly when its context's event and its arguments are ready; its token covers
      its completion and its futures; task ids are unique; running a task releases
      what it still owns; a task object is deleted once, after its last use, in any
      order of execution ([tasks_deleted_once]); what is stored for an argument can
      be resolved.
    - Promises: results reach the futures made for them; reading a future ends.
    - Arrays: creation allocates the tile of the shard or reports the failure; the
      processes of an SPMD program agree on the ids of arrays.
    - Reshard patterns: both sides of a scatter-gather agree and cover the target;
      the edges of a broadcast agree, and when it reaches everybody, for the shards that
      the processors really hold; the slices of a gather partition the array.
    - Reshards: [Reshard] makes exactly the calls of its plan, tells the manager to
      wait for the right events, and leaves the two stores waiting for the answers (a
      refinement, for any manager, [reshard_follows_plan]); the managers pair the
      [i]-th send of a reshard with its [i]-th receive, for every schedule.
    - All processors: for the pairs of shardings in [PlanMatch.fits] every planned
      send has its receive and the receives tile every target tile
      ([plans_match], [reshard_delivers]), so with the managers the data arrives
      ([reshard_completes]).  When every processor runs [Reshard] on its stores and
      Realm performs the copies in any order that their events allow, the tile of a
      target store holds the array once the store's precondition has triggered
      ([reshard_fills_targets]); and when Realm has nothing left to do every call of
      the reshard is over and all the stores are ready ([reshard_never_stuck]).
    - Start and end: [Init] follows the plan of its configuration up to the first
      refusal ([init_follows_plan]); [Stop] goes on exactly when no release is under
      way ([stop_waits_for_releases]), and the releases end
      ([pending_operations_end]); [deferred_release_steps] shows that the one-step
      release of [Events] is what the threads do.  A whole program stops only
      when its function has run and its results are there ([program_runs_main]); the
      regions that NVTX is told of are opened and closed in pairs ([profile_ranges_paired]).
    - Maps: a search by hash finds what the model finds ([hash_maps_faithful], a lemma).
      Output: a value can be told from its text ([output_tells_values]).
    - Where the code does not do what it means to, a theorem shows a concrete or
      general failure: open-ended children and tokens, nested futures, permutations
      in [ComputeTileShard], incomplete broadcast trees, broadcasts with more roots
      than trees, messages out of order, releases after [Stop] polled, and others
      listed with the findings.

    ** What is assumed

    Realm is not part of the repository.  [RealmEvents], [RealmOps] and [RealmTasks]
    name its events; [RealmRuntime] its answers at the start, [CudaDriver] those of
    the CUDA driver, [StdHash] the hash of integers; NVTX and the text of a
    rectangle are classes in [Profiling] and [Printing].  [Moment] states what a merged
    event is, [possible] that a user event triggers only as it was told, and
    [settled_state] and [prompt] that nothing is left to do; that a
    task completes only after the event it was spawned on, and gives up a stream
    only after it was given it, is a hypothesis of the theorem that needs it
    ([TaskOrder.well_behaved]).  In [Contents] copies are performed one after the
    other; [respects] says that each comes after the event it waits for.  In
    [Collective] the runs of the processors meet only in the calls of the managers.
    [RealmMachine] with [MachineLaws] is the machine, [RealmMemory] the allocator
    (it may fail), [RealmLimits] the dimensions Realm was built with, [BuildFlags]
    the build option of the tile cache.  Every assumption has a concrete instance in
    a witness.  The functions a program defers are arbitrary ([Lambda]; where their
    effect matters a theorem says what they leave alone), and so is
    what the move constructor of a value leaves behind.

    Functions with loops take fuel where the recursion is not structural:
    [Broadcast.loop_fuel] is 64, one more than the number of times an [int64_t] can
    be halved or doubled, and the theorems show that the configurations are computed
    without running out; the iteration of a device list takes its length; a chain of
    futures has length at most two ([get_value_terminates]).

    C++ leaves the order in which the elements of a tuple are made open; the model
    takes them from left to right, which only decides the numbers of new objects and
    the order of accesses of one task to one handle.  Operations that the manager
    does under its lock are one step.  Moves and sends record their calls of
    [ProfileRegion] ([w_regions]); [Profiling] and [Shutdown] have what the calls do.
    The counter of task ids is unbounded: a program has finitely many of them.  The specialisations of templates that do not
    compile when they are used are [IllFormed] in the model, or left out.

    ** Not modelled

    Logging; the pointers into instances and what functions compute on them; the
    hashes for Abseil; link_promise.h, which nothing uses and whose templates call
    member functions that futures do not have; type_traits.h, which has no run-time
    behaviour (the cases it distinguishes are in the definitions that use it).

    ** What could be added

    The theorems about the order of tasks assume of a running function what its code
    decides: that it gives up its stream and the handles it was given only after it
    started ([TaskOrder.well_behaved]), and in the end ([TaskProgress.tasks_all_run]).
    For functions that do nothing but what [Invoke] and the destructors of the stored
    arguments do, these could be derived; the code lets a control event be shared, so
    that nobody else triggers it would remain an assumption. *)
From stdpp Require Import base tactics list list_numbers numbers strings option sets gmap.
From Stdlib Require Import ZArith Lia.

Declare Scope zuku_scope.
Delimit Scope zuku_scope with zuku.
Open Scope Z_scope.

(** ** Outcomes

    A C++ function of the repository can return, throw, or run into behaviour
    the language leaves undefined.  Every definition that can do more than
    return computes in this monad, so that a theorem of the form
    [f x = Ret y] also shows the absence of exceptions and of undefined
    behaviour. *)

(** What is thrown: the repository throws [std::runtime_error] with a message
    and its subclass [AllocationFailure]; standard containers throw
    [std::length_error]. *)
Inductive exn : Type :=
| RuntimeError (msg : string)
| AllocationFailureExn
| LengthError
| BadVariantAccess
| BadOptionalAccess
| Aborted.           (* std::abort, which ends the process *)

(** The undefined behaviours that the modelled code can reach. *)
Inductive ub : Type :=
| IntOverflow        (* signed overflow *)
| DivByZero          (* integer division or remainder by zero *)
| OutOfRange         (* operator[] of a vector, array or point out of range *)
| NullOptional       (* * or -> of an empty std::optional or a null pointer *)
| AssertFailed       (* a failed assert *)
| Indeterminate      (* use of an indeterminate (uninitialised) value *)
| IllFormed.         (* an instantiation of a template that does not compile *)

Inductive outcome (A : Type) : Type :=
| Ret (a : A)
| Throw (e : exn)
| Undef (u : ub)
| NoFuel.            (* a loop of the model ran out of fuel *)
Arguments Ret {A} a.
Arguments Throw {A} e.
Arguments Undef {A} u.
Arguments NoFuel {A}.

#[export] Instance outcome_ret : MRet outcome := @Ret.
#[export] Instance outcome_bind : MBind outcome :=
  fun A B f m =>
    match m with
    | Ret a => f a
    | Throw e => Throw e
    | Undef u => Undef u
    | NoFuel => NoFuel
    end.

#[export] Instance exn_eq_dec : EqDecision exn.
Proof. solve_decision. Defined.
#[export] Instance ub_eq_dec : EqDecision ub.
Proof. solve_decision. Defined.
#[export] Instance outcome_eq_dec {A} `{EqDecision A} : EqDecision (outcome A).
Proof. solve_decision. Defined.

Lemma bind_ret_inv {A B} (m : outcome A) (k : A -> outcome B) y :
  m ≫= k = Ret y -> exists x, m = Ret x /\ k x = Ret y.
Proof. destruct m; cbn; try done. intros E. by exists a. Qed.

(** [for (x : l) b = f(b, x)]: a loop over a list with an accumulator. *)
Fixpoint foldM {A B} (f : B -> A -> outcome B) (b : B) (l : list A) : outcome B :=
  match l with
  | [] => mret b
  | x :: l' => b' ← f b x; foldM f b' l'
  end.

(** [std::vector] built by pushing the result of [f] for every element. *)
Fixpoint mapO {A B} (f : A -> outcome B) (l : list A) : outcome (list B) :=
  match l with
  | [] => mret []
  | x :: l' => y ← f x; ys ← mapO f l'; mret (y :: ys)
  end.

(** [*opt] and [opt.value()] on an optional. *)
Definition deref {A} (o : option A) : outcome A :=
  match o with Some a => mret a | None => Undef NullOptional end.

(** [a && b], which only evaluates [b] when [a] holds. *)
Definition andM (a b : outcome bool) : outcome bool :=
  x ← a; if (x : bool) then b else mret false.

Definition assertM (b : bool) : outcome unit :=
  if b then mret tt else Undef AssertFailed.

(** [v[i]] and [v[i] = x] on a vector, with an index of type [int64_t]. *)
Definition vec_get {A} (l : list A) (i : Z) : outcome A :=
  if decide (0 <= i) then
    match l !! Z.to_nat i with Some a => mret a | None => Undef OutOfRange end
  else Undef OutOfRange.

Definition vec_set {A} (l : list A) (i : Z) (x : A) : outcome (list A) :=
  if decide (0 <= i < Z.of_nat (length l)) then mret (<[Z.to_nat i := x]> l)
  else Undef OutOfRange.

(** ** Stateful operations

    An operation on a state [S] that can throw: what it did to the state before
    it threw is kept, as in the code. *)
Definition SM (S A : Type) : Type := S -> outcome A * S.

#[export] Instance sm_ret {S} : MRet (SM S) := fun A a s => (Ret a, s).
#[export] Instance sm_bind {S} : MBind (SM S) :=
  fun A B f m s =>
    match m s with
    | (Ret a, s) => f a s
    | (Throw e, s) => (Throw e, s)
    | (Undef u, s) => (Undef u, s)
    | (NoFuel, s) => (NoFuel, s)
    end.

Definition sm_get {S} : SM S S := fun s => (Ret s, s).
Definition sm_modify {S} (f : S -> S) : SM S unit := fun s => (Ret tt, f s).
Definition sm_lift {S A} (o : outcome A) : SM S A := fun s => (o, s).

(** A list built by operations that are executed from left to right. *)
Fixpoint mapS {S A B} (f : A -> SM S B) (l : list A) : SM S (list B) :=
  match l with
  | [] => mret []
  | x :: l' => y ← f x; ys ← mapS f l'; mret (y :: ys)
  end.

(** An operation on the second part of a state. *)
Definition sm_snd {C S A} (m : SM S A) : SM (C * S) A :=
  fun '(c, s) => let '(o, s) := m s in (o, (c, s)).

Lemma sm_get_bind {S A} (f : S -> SM S A) s : (sm_get ≫= f) s = f s s.
Proof. done. Qed.

Lemma sm_bind_unfold {S A B} (m : SM S A) (f : A -> SM S B) s :
  (m ≫= f) s = match m s with
               | (Ret a, s) => f a s
               | (Throw e, s) => (Throw e, s)
               | (Undef u, s) => (Undef u, s)
               | (NoFuel, s) => (NoFuel, s)
               end.
Proof. done. Qed.

(** An operation that returns is followed by the rest. *)
Lemma sm_bind_ret {S A B} (m : SM S A) (f : A -> SM S B) s a s' :
  m s = (Ret a, s') -> (m ≫= f) s = f a s'.
Proof. intros E. unfold mbind, sm_bind. by rewrite E. Qed.

(** An operation that returned was made of operations that returned. *)
Lemma sm_bind_inv {S A B} (m : SM S A) (f : A -> SM S B) s b s' :
  (m ≫= f) s = (Ret b, s') -> exists a s1, m s = (Ret a, s1) /\ f a s1 = (Ret b, s').
Proof. unfold mbind, sm_bind. destruct (m s) as [[a|e|u|] s1]; try done. eauto. Qed.

(** A list of operations respects what every operation respects. *)
Lemma mapS_preserves {S A B} (R : S -> S -> Prop) `{!PreOrder R} (f : A -> SM S B) l :
  (forall x s y s', x ∈ l -> f x s = (Ret y, s') -> R s s') ->
  forall s ys s', mapS f l s = (Ret ys, s') -> R s s'.
Proof.
  induction l as [|x l IH]; intros Hf s ys s' E; cbn [mapS] in E.
  - by injection E as _ <-.
  - apply sm_bind_inv in E as (y & s1 & E1 & E). apply sm_bind_inv in E as (ys1 & s2 & E2 & E).
    injection E as _ <-. transitivity s1; [eapply Hf; [apply list_elem_of_here|done]|].
    eapply IH; [|done]. intros; eapply Hf; [by apply list_elem_of_further|done].
Qed.

Lemma sm_bind_throw {S A B} (m : SM S A) (f : A -> SM S B) s e s' :
  m s = (Throw e, s') -> (m ≫= f) s = (Throw e, s').
Proof. intros E. unfold mbind, sm_bind. by rewrite E. Qed.

(** ** Maps with the code's own equality

    [std::unordered_map] finds the entry whose key is equal under the key's
    [operator==], which need not be equality of all fields. *)
Section AssocList.
Context {K A : Type} (eqb : K -> K -> bool).

Fixpoint alist_find (k : K) (l : list (K * A)) : option A :=
  match l with
  | [] => None
  | (k', a) :: l => if eqb k' k then Some a else alist_find k l
  end.

(** [m[k] = a]: the first key stays the one in the map. *)
Fixpoint alist_set (k : K) (a : A) (l : list (K * A)) : list (K * A) :=
  match l with
  | [] => [(k, a)]
  | (k', a') :: l => if eqb k' k then (k', a) :: l else (k', a') :: alist_set k a l
  end.

(** [m[k]], which creates a default entry. *)
Definition alist_get (d : A) (k : K) (l : list (K * A)) : A := default d (alist_find k l).
End AssocList.

(** ** Machine integers

    [int64_t] values are integers in range; the arithmetic below is the
    language's: signed overflow and division by zero are undefined, unsigned
    arithmetic wraps. *)
Abbreviation i64_min := (-9223372036854775808).
Abbreviation i64_max := 9223372036854775807.
Abbreviation u64_modulus := 18446744073709551616.

Definition i64 (z : Z) : Prop := i64_min <= z <= i64_max.
Definition in_i64 (z : Z) : bool := (i64_min <=? z) && (z <=? i64_max).

Definition chk64 (z : Z) : outcome Z := if in_i64 z then mret z else Undef IntOverflow.
Definition add64 (a b : Z) : outcome Z := chk64 (a + b).
Definition sub64 (a b : Z) : outcome Z := chk64 (a - b).
Definition mul64 (a b : Z) : outcome Z := chk64 (a * b).
(** C++ division truncates toward zero. *)
Definition div64 (a b : Z) : outcome Z :=
  if b =? 0 then Undef DivByZero else chk64 (Z.quot a b).
Definition rem64 (a b : Z) : outcome Z :=
  if b =? 0 then Undef DivByZero
  else if in_i64 (Z.quot a b) then mret (Z.rem a b) else Undef IntOverflow.

(** Conversion to [size_t]/[uint64_t], and back to [int64_t]. *)
Definition to_u64 (z : Z) : Z := z mod u64_modulus.
Definition to_i64 (z : Z) : Z :=
  let w := z mod u64_modulus in if w <=? i64_max then w else w - u64_modulus.

(** [v.reserve(n)] with a signed [n]: every vector's [max_size] is below 2^63,
    so a negative count throws. *)
Definition reserve (n : Z) : outcome unit :=
  if i64_max <? to_u64 n then Throw LengthError else mret tt.

(** Product of a list. *)
Definition prodZ (l : list Z) : Z := foldr Z.mul 1 l.

(** ** Automation *)
Create HintDb zuku.

(** Split every boolean test of the context and goal into a proposition. *)
Ltac bool_to_prop :=
  repeat match goal with
  | H : context [andb _ _ = true] |- _ => rewrite andb_true_iff in H
  | H : _ /\ _ |- _ => destruct H
  | H : (_ <=? _) = true |- _ => apply Z.leb_le in H
  | H : (_ <? _) = true |- _ => apply Z.ltb_lt in H
  | H : (_ =? _) = true |- _ => apply Z.eqb_eq in H
  | H : (_ <=? _) = false |- _ => apply Z.leb_gt in H
  | H : (_ <? _) = false |- _ => apply Z.ltb_ge in H
  | H : (_ =? _) = false |- _ => apply Z.eqb_neq in H
  end.

(** Decide an equation between boolean tests on integers. *)
Ltac bool_cases :=
  repeat first
    [ case_bool_decide
    | match goal with
      | |- context [?a =? ?b] => destruct (Z.eqb_spec a b)
      | |- context [?a <? ?b] => destruct (Z.ltb_spec a b)
      | |- context [?a <=? ?b] => destruct (Z.leb_spec a b)
      end ]; cbn [andb orb negb]; try reflexivity; exfalso.

Lemma in_i64_true z : i64 z -> in_i64 z = true.
Proof. unfold i64, in_i64. intros ?. apply andb_true_iff. lia. Qed.

Lemma in_i64_iff z : in_i64 z = true <-> i64 z.
Proof. unfold i64, in_i64. rewrite andb_true_iff, !Z.leb_le. done. Qed.

Lemma chk64_ok z : i64 z -> chk64 z = Ret z.
Proof. intros H. unfold chk64. by rewrite in_i64_true. Qed.

Lemma add64_ok a b : i64 (a + b) -> add64 a b = Ret (a + b).
Proof. apply chk64_ok. Qed.
Lemma sub64_ok a b : i64 (a - b) -> sub64 a b = Ret (a - b).
Proof. apply chk64_ok. Qed.
Lemma mul64_ok a b : i64 (a * b) -> mul64 a b = Ret (a * b).
Proof. apply chk64_ok. Qed.

(** Division of non-negative values is the mathematical division, in range. *)
Lemma div64_ok a b : 0 <= a -> 0 < b -> i64 a -> div64 a b = Ret (a / b).
Proof.
  intros Ha Hb Hi. unfold div64. rewrite (proj2 (Z.eqb_neq b 0)) by lia.
  rewrite Z.quot_div_nonneg by lia. apply chk64_ok.
  pose proof (Z.div_pos a b). pose proof (Z.div_le_upper_bound a b a).
  unfold i64 in *. nia.
Qed.

Lemma rem64_ok a b : 0 <= a -> 0 < b -> i64 a -> rem64 a b = Ret (a mod b).
Proof.
  intros Ha Hb Hi. unfold rem64. rewrite (proj2 (Z.eqb_neq b 0)) by lia.
  rewrite Z.quot_div_nonneg, Z.rem_mod_nonneg by lia.
  rewrite in_i64_true; [done|].
  pose proof (Z.div_pos a b). pose proof (Z.div_le_upper_bound a b a).
  unfold i64 in *. nia.
Qed.

Section AssocListLemmas.
Context {K A : Type} (eqb : K -> K -> bool) (Hrefl : forall k, eqb k k = true).

Lemma alist_find_set k a (l : list (K * A)) : alist_find eqb k (alist_set eqb k a l) = Some a.
Proof.
  induction l as [|[k' a'] l IH]; cbn; [by rewrite Hrefl|].
  destruct (eqb k' k) eqn:E; cbn; by rewrite E.
Qed.

Lemma alist_find_set_ne k k0 a (l : list (K * A)) :
  (forall x, eqb x k = true -> eqb x k0 = false) ->
  alist_find eqb k0 (alist_set eqb k a l) = alist_find eqb k0 l.
Proof.
  intros Hne. induction l as [|[k' a'] l IH]; cbn.
  - by rewrite (Hne k (Hrefl k)).
  - destruct (eqb k' k) eqn:E; cbn; [by rewrite (Hne _ E)|]. by rewrite IH.
Qed.
End AssocListLemmas.

Lemma reserve_ok n : 0 <= n <= i64_max -> reserve n = Ret tt.
Proof.
  intros Hn. unfold reserve, to_u64. rewrite Z.mod_small by lia.
  by rewrite (proj2 (Z.ltb_ge _ _)) by lia.
Qed.

Lemma vec_get_lookup {A} (l : list A) (i : nat) x :
  l !! i = Some x -> vec_get l (Z.of_nat i) = Ret x.
Proof.
  intros H. unfold vec_get. rewrite decide_True by lia. by rewrite Nat2Z.id, H.
Qed.

Lemma vec_get_ok {A} (l : list A) (i : Z) x :
  0 <= i -> l !! Z.to_nat i = Some x -> vec_get l i = Ret x.
Proof. intros Hi H. unfold vec_get. by rewrite decide_True, H by lia. Qed.

Lemma vec_set_ok {A} (l : list A) (i : Z) x :
  0 <= i < Z.of_nat (length l) -> vec_set l i x = Ret (<[Z.to_nat i := x]> l).
Proof. intros Hi. unfold vec_set. by rewrite decide_True. Qed.

(** ** The loop rule

    An invariant over the elements already visited that every iteration
    returns from and re-establishes holds when the loop ends. *)
Lemma foldM_inv_app {A B} (f : B -> A -> outcome B) (P : list A -> B -> Prop)
    (l done : list A) (b : B) :
  P done b ->
  (forall d x rest b, done ++ l = d ++ x :: rest -> P d b ->
     exists b', f b x = Ret b' /\ P (d ++ [x]) b') ->
  exists b', foldM f b l = Ret b' /\ P (done ++ l) b'.
Proof.
  revert done b. induction l as [|x l IH]; intros done b H0 Hstep; cbn.
  - exists b. by rewrite app_nil_r.
  - destruct (Hstep done x l b eq_refl H0) as (b1 & E & H1). rewrite E. cbn.
    destruct (IH (done ++ [x]) b1 H1) as (b2 & E2 & H2).
    { intros d y rest b0 Heq. apply (Hstep _ _ rest). rewrite <- Heq.
      by rewrite <- (assoc_L (++)). }
    exists b2. rewrite <- (assoc_L (++)) in H2. done.
Qed.

Lemma foldM_inv {A B} (f : B -> A -> outcome B) (P : list A -> B -> Prop)
    (l : list A) (b : B) :
  P [] b ->
  (forall d x rest b, l = d ++ x :: rest -> P d b ->
     exists b', f b x = Ret b' /\ P (d ++ [x]) b') ->
  exists b', foldM f b l = Ret b' /\ P l b'.
Proof. apply (foldM_inv_app f P l []). Qed.

(** [for (i = a; i < a + n; ++i)]: the loop rule with a counter. *)
Lemma foldM_range {B} (f : B -> Z -> outcome B) (P : nat -> B -> Prop) a n b :
  P O b ->
  (forall k b, (k < n)%nat -> P k b ->
     exists b', f b (a + Z.of_nat k) = Ret b' /\ P (S k) b') ->
  exists b', foldM f b (seqZ a (Z.of_nat n)) = Ret b' /\ P n b'.
Proof.
  intros H0 Hstep.
  destruct (foldM_inv f (fun d => P (length d)) (seqZ a (Z.of_nat n)) b)
    as (b' & E & H); [done| |].
  - intros d x rest b1 Heq Hd.
    assert (Hx : seqZ a (Z.of_nat n) !! length d = Some x)
      by (rewrite Heq; by apply list_lookup_middle).
    apply lookup_seqZ in Hx as [-> Hlt].
    destruct (Hstep (length d) b1 ltac:(lia) Hd) as (b2 & E & H).
    exists b2. rewrite length_app, Nat.add_1_r. done.
  - exists b'. by rewrite length_seqZ, Nat2Z.id in H.
Qed.

(** A loop whose body is pure is a [foldl]. *)
Lemma foldM_pure {A B} (f : B -> A -> outcome B) (g : B -> A -> B) l b :
  (forall b x, x ∈ l -> f b x = Ret (g b x)) -> foldM f b l = Ret (foldl g b l).
Proof.
  revert b. induction l as [|x l IH]; intros b Hf; cbn; [done|].
  rewrite Hf by set_solver. cbn. apply IH. intros; apply Hf; set_solver.
Qed.

Lemma mapO_ok {A B} (f : A -> outcome B) (g : A -> B) l :
  (forall x, x ∈ l -> f x = Ret (g x)) -> mapO f l = Ret (g <$> l).
Proof.
  induction l as [|x l IH]; intros Hf; cbn; [done|].
  rewrite Hf by set_solver. cbn. rewrite IH by (intros; apply Hf; set_solver). done.
Qed.

(** Filters that keep everything, or nothing. *)
Lemma filter_all {A} (P : A -> Prop) `{!forall x, Decision (P x)} (l : list A) :
  (forall x, x ∈ l -> P x) -> filter P l = l.
Proof.
  induction l as [|x l IH]; intros HP; [done|].
  rewrite filter_cons_True by (apply HP; set_solver). f_equal. apply IH. set_solver.
Qed.

Lemma filter_none {A} (P : A -> Prop) `{!forall x, Decision (P x)} (l : list A) :
  (forall x, x ∈ l -> ~ P x) -> filter P l = [].
Proof.
  induction l as [|x l IH]; intros HP; [done|].
  rewrite filter_cons_False by (apply HP; set_solver). apply IH. set_solver.
Qed.

(** ** Products *)
Lemma prodZ_cons x l : prodZ (x :: l) = x * prodZ l.
Proof. done. Qed.

Lemma prodZ_app l k : prodZ (l ++ k) = prodZ l * prodZ k.
Proof.
  induction l as [|x l IH]; cbn [app]; [by rewrite Z.mul_1_l|].
  rewrite !prodZ_cons, IH. lia.
Qed.

Lemma prodZ_snoc {A} (f : A -> Z) l x : prodZ (f <$> (l ++ [x])) = prodZ (f <$> l) * f x.
Proof. rewrite fmap_app, prodZ_app. cbn. lia. Qed.

Lemma prodZ_pos l : Forall (Z.le 1) l -> 1 <= prodZ l.
Proof. induction 1; [done|]. rewrite prodZ_cons. nia. Qed.

Lemma prodZ_app_le l k : Forall (Z.le 1) (l ++ k) -> prodZ l <= prodZ (l ++ k).
Proof.
  rewrite prodZ_app. intros [Hl Hk]%Forall_app.
  apply prodZ_pos in Hl, Hk. nia.
Qed.

Lemma prodZ_elem_le l x : Forall (Z.le 1) l -> x ∈ l -> x <= prodZ l.
Proof.
  intros Hl Hx. induction Hl as [|y l Hy Hl IH]; [set_solver|].
  rewrite prodZ_cons. pose proof (prodZ_pos l Hl).
  apply elem_of_cons in Hx as [->|Hx]; [nia|]. specialize (IH Hx). nia.
Qed.

Lemma prodZ_Permutation l k : l ≡ₚ k -> prodZ l = prodZ k.
Proof. induction 1; rewrite ?prodZ_cons; nia. Qed.

Lemma prodZ_fmap_pos {A} (g : A -> Z) l :
  (forall x, x ∈ l -> 1 <= g x) -> 1 <= prodZ (g <$> l).
Proof.
  intros Hg. apply prodZ_pos, Forall_fmap, Forall_forall. done.
Qed.

Lemma prodZ_fmap_le {A} (f g : A -> Z) l :
  (forall x, x ∈ l -> 1 <= f x <= g x) -> prodZ (f <$> l) <= prodZ (g <$> l).
Proof.
  induction l as [|x l IH]; intros H; [done|]. rewrite !fmap_cons, !prodZ_cons.
  pose proof (H x ltac:(set_solver)).
  assert (H' : forall y, y ∈ l -> 1 <= f y <= g y) by (intros; apply H; set_solver).
  specialize (IH H').
  pose proof (prodZ_fmap_pos f l ltac:(intros; by apply H')). nia.
Qed.

Lemma prodZ_fmap_mul {A} (f g : A -> Z) l :
  prodZ (f <$> l) * prodZ (g <$> l) = prodZ ((fun x => f x * g x) <$> l).
Proof.
  induction l as [|x l IH]; [done|]. rewrite !fmap_cons, !prodZ_cons, <- IH. lia.
Qed.

Lemma prodZ_fmap_ext {A} (f g : A -> Z) l :
  (forall x, x ∈ l -> f x = g x) -> prodZ (f <$> l) = prodZ (g <$> l).
Proof.
  induction l as [|x l IH]; intros H; [done|]. rewrite !fmap_cons, !prodZ_cons.
  rewrite (H x), IH; [done| |]; set_solver.
Qed.

(** A loop that multiplies an accumulator by a factor of every element returns
    the product when it fits. *)
Lemma foldM_prod {A} (f : Z -> A -> outcome Z) (g : A -> Z) l a :
  (forall acc x, x ∈ l -> 1 <= acc -> i64 (acc * g x) -> f acc x = Ret (acc * g x)) ->
  (forall x, x ∈ l -> 1 <= g x) ->
  1 <= a -> i64 (a * prodZ (g <$> l)) -> foldM f a l = Ret (a * prodZ (g <$> l)).
Proof.
  revert a. induction l as [|x l IH]; intros a Hf Hg Ha Hi; cbn [foldM].
  - by rewrite Z.mul_1_r.
  - pose proof (Hg x ltac:(set_solver)) as Hx.
    assert (Hl : 1 <= prodZ (g <$> l)) by (apply prodZ_fmap_pos; set_solver).
    rewrite fmap_cons, prodZ_cons, Z.mul_assoc in Hi |- *. unfold i64 in Hi.
    rewrite Hf by (set_solver || unfold i64; nia). cbn [mbind outcome_bind].
    apply IH; [set_solver|set_solver|nia|done].
Qed.

Lemma foldM_mul64 (l : list Z) a :
  1 <= a -> Forall (Z.le 1) l -> i64 (a * prodZ l) ->
  foldM mul64 a l = Ret (a * prodZ l).
Proof.
  intros Ha Hl. rewrite <- (list_fmap_id l) at 1 3. intros Hi. 
  apply (foldM_prod mul64 id); [|by apply Forall_forall|done|done].
  intros. by apply mul64_ok.
Qed.

#[export] Hint Resolve prodZ_pos in_i64_true chk64_ok : zuku.
