(* ===== verification/Events.v ===== *)
(** Realm events, as the handles and the reshard manager use them.  Realm is
    not part of the repository: [RealmEvents] is its interface, [Moment] is what
    it documents about which events have triggered at a moment of an execution.
    [Runtime] is the part of the runtime's state that the code changes: the user
    events created and triggered, and the requests for deferred work. *)
From stdpp Require Import base tactics list numbers option.
From Stdlib Require Import ZArith Lia.
From S2P Require Import Prelude.

Class RealmEvents : Type := {
  Event : Type;
  NO_EVENT : Event;
  merge_events : list Event -> Event;
  user_event : nat -> Event;            (* the user events, in creation order *)
}.

(** A moment of an execution: the events that have triggered.  A merged event
    has when all its inputs have. *)
Class Moment `{RealmEvents} (fired : Event -> Prop) : Prop := {
  fired_no_event : fired NO_EVENT;
  fired_merge l : fired (merge_events l) <-> Forall fired l;
}.

Lemma fired_merge2 `{Moment} a b : fired (merge_events [a; b]) <-> fired a /\ fired b.
Proof.
  split.
  - intros Hf. apply fired_merge in Hf. inversion Hf as [|? ? Ha Hb]; subst.
    by inversion Hb.
  - intros [Ha Hb]. apply fired_merge. by repeat constructor.
Qed.

(** The events of copies and barriers: [copy_event i] is the completion of the
    [i]-th copy issued, [barrier_event b g] the generation [g] of the [b]-th
    barrier created. *)
Class RealmOps `{RealmEvents} : Type := {
  copy_event : nat -> Event;
  barrier_event : nat -> nat -> Event;
}.

(** The state of the runtime that the handles change, for values of type [V]:
    [triggered] lists every [UserEvent::trigger] with its precondition,
    [released] every [deferred_release], [deleted] every
    [DeferredDeleteInstances], and [pending_ops] is [sPendingEvents]. *)
Record Runtime `{RealmEvents} (V : Type) : Type := mkRuntime {
  next_user : nat;
  triggered : list (nat * Event);
  released : list (V * Event);
  deleted : list (V * Event);
  pending_ops : Z;
}.
Arguments mkRuntime {_ V}. Arguments next_user {_ V}. Arguments triggered {_ V}.
Arguments released {_ V}. Arguments deleted {_ V}. Arguments pending_ops {_ V}.

Section Runtime.
Context `{RealmEvents} {V : Type}.
Implicit Types rt : Runtime V.

Definition initial_runtime : Runtime V := mkRuntime 0 [] [] [] 0.

(** [Realm::UserEvent::create_user_event()] and [trigger(e)]. *)
Definition create_user_event rt : nat * Runtime V :=
  (next_user rt,
   mkRuntime (S (next_user rt)) (triggered rt) (released rt) (deleted rt) (pending_ops rt)).

Definition trigger (u : nat) (e : Event) rt : Runtime V :=
  mkRuntime (next_user rt) (triggered rt ++ [(u, e)]) (released rt) (deleted rt) (pending_ops rt).

(** [IncPendingOp] and [DecPendingOp]. *)
Definition IncPendingOp rt : Runtime V :=
  mkRuntime (next_user rt) (triggered rt) (released rt) (deleted rt) (pending_ops rt + 1).
Definition DecPendingOp rt : Runtime V :=
  mkRuntime (next_user rt) (triggered rt) (released rt) (deleted rt) (pending_ops rt - 1).

(** [deferred_release(value, wait_on)]: a holder of the value is deleted by a
    task that runs after [wait_on]; until then one operation is pending. *)
Definition deferred_release (v : V) (wait_on : Event) rt : Runtime V :=
  let rt := IncPendingOp rt in
  mkRuntime (next_user rt) (triggered rt) (released rt ++ [(v, wait_on)]) (deleted rt)
            (pending_ops rt).

Definition DeferredDeleteInstances (v : V) (e : Event) rt : Runtime V :=
  mkRuntime (next_user rt) (triggered rt) (released rt) (deleted rt ++ [(v, e)]) (pending_ops rt).

(** A moment is possible in an execution whose triggers are [log]: a user event
    has triggered only if it was triggered and the precondition of the trigger
    has triggered. *)
Definition possible (fired : Event -> Prop) (log : list (nat * Event)) : Prop :=
  forall u, fired (user_event u) -> exists e, (u, e) ∈ log /\ fired e.

(** When nothing is left to do, a user event has triggered if the precondition of its
    trigger has. *)
Definition prompt (fired : Event -> Prop) (log : list (nat * Event)) : Prop :=
  forall u e, (u, e) ∈ log -> fired e -> fired (user_event u).
End Runtime.

(** ** A concrete event algebra

    Operations, user events and merges; a moment is decided by the operations
    and the user events that have triggered. *)
Inductive event : Type :=
| Nothing
| Operation (id : nat)
| User (id : nat)
| Copied (id : nat)
| Phase (barrier generation : nat)
| Merged (a b : event).

#[export] Instance example_events : RealmEvents := {|
  Event := event;
  NO_EVENT := Nothing;
  merge_events := foldr Merged Nothing;
  user_event := User;
|}.

#[export] Instance event_eq_dec : EqDecision event.
Proof. solve_decision. Defined.
#[export] Instance example_event_eq_dec : EqDecision (@Event example_events) := event_eq_dec.

#[export] Instance example_ops : RealmOps := {|
  copy_event := Copied;
  barrier_event := Phase;
|}.

(** The operations as events of the algebra. *)
Definition op (id : nat) : Event := Operation id.

Fixpoint fires_all (ops users copies : nat -> bool) (phases : nat -> nat -> bool) (e : event)
    : bool :=
  match e with
  | Nothing => true
  | Operation id => ops id
  | User id => users id
  | Copied id => copies id
  | Phase b g => phases b g
  | Merged a b => fires_all ops users copies phases a && fires_all ops users copies phases b
  end.

(** A moment without copies and barriers. *)
Definition fires (ops users : nat -> bool) : event -> bool :=
  fires_all ops users (fun _ => false) (fun _ _ => false).

#[export] Instance fires_all_moment ops users copies phases :
  Moment (fun e => fires_all ops users copies phases e = true).
Proof.
  split; [done|]. intros l. induction l as [|e l IH]; cbn.
  - split; [by constructor|done].
  - rewrite andb_true_iff. cbn in IH. split.
    + intros [He Hl]. constructor; [done|by apply IH].
    + intros Hl. inversion Hl; subst. split; [done|by apply IH].
Qed.

#[export] Instance fires_moment ops users : Moment (fun e => fires ops users e = true).
Proof. apply fires_all_moment. Qed.
