(* ===== verification/MixedRadix.v ===== *)
(** Mixed-radix numerals, most significant digit first: the arithmetic behind
    shard numbering.  [digits es i] are the digits of [i] in the radices [es],
    [encode es ds] is the number they denote; the two are inverse on
    [0 <= i < prodZ es]. *)
From stdpp Require Import base tactics list list_numbers numbers option.
From Stdlib Require Import ZArith Lia.
From S2P Require Import Prelude.
Open Scope Z_scope.

Fixpoint digits (es : list Z) (i : Z) : list Z :=
  match es with
  | [] => []
  | e :: es' => (i / prodZ es') mod e :: digits es' i
  end.

Fixpoint encode (es ds : list Z) : Z :=
  match es, ds with
  | e :: es', d :: ds' => d * prodZ es' + encode es' ds'
  | _, _ => 0
  end.

Definition is_digits : list Z -> list Z -> Prop := Forall2 (fun e d => 0 <= d < e).

Lemma is_digits_pos es ds : is_digits es ds -> Forall (Z.le 1) es.
Proof. induction 1; constructor; [lia|done]. Qed.

Lemma digits_length es i : length (digits es i) = length es.
Proof. induction es; cbn; congruence. Qed.

Lemma digits_lookup es i k e :
  es !! k = Some e ->
  digits es i !! k = Some ((i / prodZ (drop (S k) es)) mod e).
Proof.
  revert k. induction es as [|e' es IH]; intros [|k] H; cbn in *; try done.
  - injection H as ->. by rewrite drop_0.
  - by apply IH.
Qed.

Lemma digits_valid es i : Forall (Z.le 1) es -> is_digits es (digits es i).
Proof.
  induction 1 as [|e es He Hes IH]; cbn; constructor; [|done].
  apply Z.mod_pos_bound. lia.
Qed.

(** Digits only depend on the number modulo the product of the radices. *)
Lemma digits_add_mul es c i :
  Forall (Z.le 1) es -> digits es (c * prodZ es + i) = digits es i.
Proof.
  intros Hes. revert c. induction Hes as [|e es He Hes IH]; intros c; [done|].
  cbn [digits]. rewrite prodZ_cons. pose proof (prodZ_pos es Hes).
  replace (c * (e * prodZ es) + i) with ((c * e) * prodZ es + i) by lia.
  rewrite IH. f_equal.
  rewrite Z.div_add_l by lia. rewrite Z.add_comm. by apply Z_mod_plus_full.
Qed.

Lemma encode_digits es i : Forall (Z.le 1) es -> encode es (digits es i) = i mod prodZ es.
Proof.
  induction 1 as [|e es He Hes IH]; cbn [encode digits]; [by rewrite Z.mod_1_r|].
  pose proof (prodZ_pos es Hes). rewrite IH, prodZ_cons, (Z.mul_comm e).
  rewrite Z.rem_mul_r by lia. lia.
Qed.

Lemma encode_digits_small es i :
  Forall (Z.le 1) es -> 0 <= i < prodZ es -> encode es (digits es i) = i.
Proof. intros Hes Hi. rewrite encode_digits by done. by apply Z.mod_small. Qed.

Lemma encode_range es ds : is_digits es ds -> 0 <= encode es ds < prodZ es.
Proof.
  induction 1 as [|e d es ds Hd Hds IH]; cbn [encode]; [cbn; lia|].
  rewrite prodZ_cons. nia.
Qed.

Lemma digits_encode es ds : is_digits es ds -> digits es (encode es ds) = ds.
Proof.
  induction 1 as [|e d es ds Hd Hds IH]; cbn [encode digits]; [done|].
  pose proof (encode_range es ds Hds). rewrite digits_add_mul by (by eapply is_digits_pos).
  rewrite IH. f_equal. rewrite Z.div_add_l by lia.
  rewrite (Z.div_small (encode es ds)) by lia. rewrite Z.add_0_r. by apply Z.mod_small.
Qed.

Lemma digits_inj es i j :
  Forall (Z.le 1) es -> 0 <= i < prodZ es -> 0 <= j < prodZ es ->
  digits es i = digits es j -> i = j.
Proof.
  intros Hes Hi Hj Heq.
  rewrite <- (encode_digits_small es i), <- (encode_digits_small es j) by done.
  by rewrite Heq.
Qed.

(** Horner's step: appending a least significant digit. *)
Lemma encode_snoc es ds e d :
  length es = length ds -> encode (es ++ [e]) (ds ++ [d]) = encode es ds * e + d.
Proof.
  revert ds. induction es as [|e' es IH]; intros [|d' ds] Hlen; cbn in Hlen; try lia.
  - cbn. lia.
  - cbn [app encode]. rewrite IH by lia. rewrite prodZ_app. cbn. lia.
Qed.

Lemma encode_take es ds k e d :
  es !! k = Some e -> ds !! k = Some d ->
  encode (take (S k) es) (take (S k) ds) = encode (take k es) (take k ds) * e + d.
Proof.
  intros He Hd. rewrite (take_S_r es k e He), (take_S_r ds k d Hd).
  apply encode_snoc. apply lookup_lt_Some in He, Hd. rewrite !length_take. lia.
Qed.

Lemma is_digits_take es ds k : is_digits es ds -> is_digits (take k es) (take k ds).
Proof. apply Forall2_take. Qed.

(** One step of digit extraction with a running remainder and stride. *)
Lemma digit_step i e p : 1 <= e -> 1 <= p ->
  (i mod (e * p)) / p = (i / p) mod e /\
  i mod (e * p) - (i / p) mod e * p = i mod p.
Proof.
  intros He Hp. rewrite (Z.mul_comm e p), Z.rem_mul_r by lia.
  rewrite (Z.mul_comm p (_ mod _)). rewrite Z.div_add by lia.
  rewrite Z.div_small by (apply Z.mod_pos_bound; lia). lia.
Qed.
