(* ===== verification/Mesh.v ===== *)
(** [zuku::DeviceList] (src/zuku/mesh.h): a contiguous range of global device
    ids.  Every method is a definition of [Module DeviceList]; [wf] is the
    class invariant under which none of them overflows, and the lemmas give
    each method its meaning on the interval [start, start + num_devices). *)
From stdpp Require Import base tactics list list_numbers numbers option sets gmap.
From Stdlib Require Import ZArith Lia.
From S2P Require Import Prelude.
Open Scope Z_scope.

Record DeviceList : Type := mkDeviceList {
  start_ : Z;
  num_devices_ : Z;
}.

#[export] Instance DeviceList_eq_dec : EqDecision DeviceList.
Proof. solve_decision. Defined.
#[export] Instance DeviceList_countable : Countable DeviceList.
Proof.
  refine (inj_countable' (fun d => (start_ d, num_devices_ d))
                         (fun p => mkDeviceList p.1 p.2) _).
  by intros [].
Defined.

Module DeviceListOps.

(** [DeviceList::Create], [DeviceList::DeviceList(const Ctor&)]. *)
Definition Create (start num_devices : Z) : DeviceList := mkDeviceList start num_devices.

Definition index (l : DeviceList) (idx : Z) : outcome Z := add64 (start_ l) idx.

Definition start (l : DeviceList) : Z := start_ l.
Definition stop (l : DeviceList) : outcome Z := add64 (start_ l) (num_devices_ l).
Definition size (l : DeviceList) : Z := num_devices_ l.
Definition empty (l : DeviceList) : bool := num_devices_ l =? 0.

Definition Contains (l : DeviceList) (device_id : Z) : outcome bool :=
  if start_ l <=? device_id then e ← stop l; mret (device_id <? e) else mret false.

Definition ContainsList (l other : DeviceList) : outcome bool :=
  if start_ l <=? start_ other
  then e ← stop l; e' ← stop other; mret (e' <=? e)
  else mret false.

Definition slice (l : DeviceList) (offset num_devices : Z) : outcome DeviceList :=
  s ← add64 (start_ l) offset; mret (mkDeviceList s num_devices).

Definition ShardId (l : DeviceList) (device_id : Z) : outcome (option Z) :=
  b ← Contains l device_id;
  if (b : bool) then s ← sub64 device_id (start_ l); mret (Some s) else mret None.

Definition eqb (a b : DeviceList) : bool :=
  (start_ a =? start_ b) && (num_devices_ a =? num_devices_ b).
Definition neqb (a b : DeviceList) : bool :=
  negb (start_ a =? start_ b) || negb (num_devices_ a =? num_devices_ b).

(** [for (it = begin(); it != end(); ++it)]: the ids [*it] visited in order,
    by [DeviceList::Iterator].  The loop only stops when the iterator equals
    [end()], so the model bounds it with fuel. *)
Fixpoint iterate (fuel : nat) (value stop : Z) : outcome (list Z) :=
  match fuel with
  | O => NoFuel
  | S fuel =>
      if value =? stop then mret []
      else value' ← add64 value 1;
           rest ← iterate fuel value' stop;
           mret (value :: rest)
  end.

Definition elements (fuel : nat) (l : DeviceList) : outcome (list Z) :=
  e ← stop l; iterate fuel (start_ l) e.

(** [std::vector<int64_t>::max_size()]. *)
Definition vector_max_size : Z := 1152921504606846975.

(** [std::vector<int64_t> materialized(num_devices_); std::iota(...)]. *)
Definition vector (l : DeviceList) : outcome (list Z) :=
  if vector_max_size <? to_u64 (num_devices_ l) then Throw LengthError
  else
    r ← foldM (fun '(v, value) i =>
                 v' ← vec_set v i value; value' ← add64 value 1; mret (v', value'))
              (replicate (Z.to_nat (num_devices_ l)) 0, start_ l)
              (seqZ 0 (num_devices_ l));
    mret r.1.

(** ** Well-formed device lists *)
Definition wf (l : DeviceList) : Prop :=
  0 <= start_ l /\ 0 <= num_devices_ l /\ i64 (start_ l + num_devices_ l).

#[export] Instance wf_dec l : Decision (wf l).
Proof. unfold wf, i64. apply _. Defined.

Lemma eqb_eq a b : eqb a b = true <-> a = b.
Proof.
  unfold eqb. destruct a, b; cbn. rewrite andb_true_iff, !Z.eqb_eq.
  split; [by intros [-> ->]|by intros [= -> ->]].
Qed.

Lemma neqb_eqb a b : neqb a b = negb (eqb a b).
Proof. unfold neqb, eqb. by rewrite negb_andb. Qed.

Lemma stop_ok l : wf l -> stop l = Ret (start_ l + num_devices_ l).
Proof. intros (?&?&?). by apply add64_ok. Qed.

Lemma index_ok l k : wf l -> 0 <= k <= num_devices_ l -> index l k = Ret (start_ l + k).
Proof. intros (?&?&Hi) Hk. apply add64_ok. unfold i64 in *. lia. Qed.

Lemma Contains_ok l d :
  wf l -> Contains l d = Ret (bool_decide (start_ l <= d < start_ l + num_devices_ l)).
Proof.
  intros H. unfold Contains. destruct (Z.leb_spec (start_ l) d) as [?|?].
  - rewrite (stop_ok l H). cbn. f_equal.
    destruct (Z.ltb_spec d (start_ l + num_devices_ l)); symmetry;
      [apply bool_decide_eq_true|apply bool_decide_eq_false]; lia.
  - cbn. f_equal. symmetry. apply bool_decide_eq_false. lia.
Qed.

Lemma ContainsList_ok l o : wf l -> wf o ->
  ContainsList l o =
  Ret (bool_decide (start_ l <= start_ o /\
                    start_ o + num_devices_ o <= start_ l + num_devices_ l)).
Proof.
  intros Hl Ho. unfold ContainsList. rewrite (stop_ok l Hl), (stop_ok o Ho). cbn.
  destruct (Z.leb_spec (start_ l) (start_ o)) as [?|?].
  - f_equal. symmetry.
    destruct (Z.leb_spec (start_ o + num_devices_ o) (start_ l + num_devices_ l));
      [apply bool_decide_eq_true|apply bool_decide_eq_false]; lia.
  - f_equal. symmetry. apply bool_decide_eq_false. lia.
Qed.

Lemma ShardId_ok l d : wf l -> i64 d ->
  ShardId l d = Ret (if decide (start_ l <= d < start_ l + num_devices_ l)
                     then Some (d - start_ l) else None).
Proof.
  intros Hl Hd. unfold ShardId. rewrite (Contains_ok l d Hl). cbn.
  case_decide as Hc.
  - rewrite bool_decide_eq_true_2 by done. destruct Hl as (?&?&?).
    rewrite sub64_ok by (unfold i64 in *; lia). done.
  - by rewrite bool_decide_eq_false_2.
Qed.

Lemma slice_ok l off n : wf l -> 0 <= off -> 0 <= n -> off + n <= num_devices_ l ->
  slice l off n = Ret (mkDeviceList (start_ l + off) n).
Proof.
  intros (?&?&Hi) ???. unfold slice. rewrite add64_ok by (unfold i64 in *; lia). done.
Qed.

(** Iteration visits exactly the ids of the range, in order. *)
Lemma iterate_ok fuel v n :
  (n < fuel)%nat -> 0 <= v -> i64 (v + Z.of_nat n) ->
  iterate fuel v (v + Z.of_nat n) = Ret (seqZ v (Z.of_nat n)).
Proof.
  revert fuel v. induction n as [|n IH]; intros [|fuel] v Hf Hv Hi; try lia; cbn [iterate].
  - rewrite Z.add_0_r, Z.eqb_refl. done.
  - rewrite (proj2 (Z.eqb_neq _ _)) by lia. unfold i64 in Hi.
    rewrite add64_ok by (unfold i64; lia). cbn [mbind outcome_bind].
    replace (v + Z.of_nat (S n)) with ((v + 1) + Z.of_nat n) by lia.
    rewrite IH by (unfold i64; lia). cbn [mbind outcome_bind].
    rewrite (seqZ_cons v (Z.of_nat (S n))) by lia.
    replace (Z.succ v) with (v + 1) by lia.
    by replace (Z.pred (Z.of_nat (S n))) with (Z.of_nat n) by lia.
Qed.

Lemma elements_ok fuel l : wf l -> num_devices_ l < Z.of_nat fuel ->
  elements fuel l = Ret (seqZ (start_ l) (num_devices_ l)).
Proof.
  intros Hl Hf. unfold elements. rewrite (stop_ok l Hl). cbn.
  destruct Hl as (Hs&Hn&Hi).
  rewrite <- (Z2Nat.id (num_devices_ l)) by lia.
  rewrite iterate_ok; [done|lia|done|]. by rewrite Z2Nat.id.
Qed.

Lemma vector_ok l : wf l -> num_devices_ l <= vector_max_size ->
  vector l = Ret (seqZ (start_ l) (num_devices_ l)).
Proof.
  intros (Hs&Hn&Hi) Hm. unfold vector. unfold vector_max_size in *.
  rewrite (proj2 (Z.ltb_ge _ _)).
  2:{ unfold to_u64. rewrite Z.mod_small; lia. }
  set (n := Z.to_nat (num_devices_ l)).
  destruct (foldM_inv
    (fun '(v, value) i =>
       v' ← vec_set v i value; value' ← add64 value 1; mret (v', value'))
    (fun (done : list Z) '(v, value) =>
       length v = n /\ value = start_ l + Z.of_nat (length done) /\
       forall j : nat, (j < length done)%nat -> v !! j = Some (start_ l + Z.of_nat j))
    (seqZ 0 (num_devices_ l)) (replicate n 0, start_ l)) as ([v value] & E & Hlen & _ & Hv).
  - rewrite length_replicate. cbn. split_and!; [done|lia|lia].
  - intros d x rest [v value] Heq (Hlen & -> & Hv).
    assert (Hx : seqZ 0 (num_devices_ l) !! length d = Some x).
    { rewrite Heq. by apply list_lookup_middle. }
    apply lookup_seqZ in Hx as [-> Hlt]. cbn [mbind outcome_bind].
    rewrite vec_set_ok by lia. cbn [mbind outcome_bind].
    unfold i64 in Hi. rewrite add64_ok by (unfold i64; lia). cbn [mbind outcome_bind].
    eexists; split; [done|]. cbv beta iota. rewrite length_insert, length_app. cbn [length].
    split_and!; [done|lia|]. intros j Hj.
    destruct (decide (j = length d)) as [->|Hne].
    + rewrite Z.add_0_l, Nat2Z.id. rewrite list_lookup_insert_eq by lia. done.
    + rewrite list_lookup_insert_ne by lia. apply Hv. lia.
  - rewrite E. cbn. f_equal. apply list_eq_same_length with n.
    + rewrite length_seqZ. done.
    + done.
    + intros j a b Hj Ha Hb.
      rewrite Hv in Ha by (rewrite length_seqZ; lia).
      apply lookup_seqZ in Hb as [-> _]. naive_solver.
Qed.

End DeviceListOps.

#[export] Hint Resolve DeviceListOps.stop_ok DeviceListOps.Contains_ok : zuku.
