(* ===== verification/Shape.v ===== *)
(** Shapes and shardings (src/zuku/shape.h): [SupportedType], [ShardingDim],
    [Sharding], [ShardedShape] and the functions on them, in
    [Module ShardingOps]; the well-formedness predicate [wf] that
    [ShardedArray::Create] and its callers rely on, and what every function
    computes on a well-formed sharding. *)
From stdpp Require Import base tactics list list_numbers numbers strings option sets gmap.
From Stdlib Require Import ZArith Lia.
From S2P Require Import Prelude Mesh.
Open Scope Z_scope.

Inductive SupportedType : Type :=
| PRED | F16 | BF16 | F32 | F64 | S8 | S16 | S32 | S64 | U8 | U16 | U32 | U64
| C64 | C128.

#[export] Instance SupportedType_eq_dec : EqDecision SupportedType.
Proof. solve_decision. Defined.

Definition SupportedTypeSizeOf (type : SupportedType) : Z :=
  match type with
  | PRED | S8 | U8 => 1
  | F16 | BF16 | S16 | U16 => 2
  | F32 | S32 | U32 => 4
  | F64 | S64 | U64 | C64 => 8
  | C128 => 16
  end.

Definition SupportedTypeToString (type : SupportedType) : string :=
  match type with
  | PRED => "PRED" | F16 => "F16" | BF16 => "BF16" | F32 => "F32" | F64 => "F64"
  | S8 => "S8" | S16 => "S16" | S32 => "S32" | S64 => "S64"
  | U8 => "U8" | U16 => "U16" | U32 => "U32" | U64 => "U64"
  | C64 => "C64" | C128 => "C128"
  end.

Record ShardingDim : Type := mkDim {
  sd_size : Z;
  sd_sharding : Z;
  sd_permutation : Z;
}.

Record Sharding : Type := mkSharding {
  dims : list ShardingDim;
  devices : DeviceList;
}.

Record ShardedShape : Type := mkShape {
  ss_type : SupportedType;
  ss_sharding : Sharding;
}.

#[export] Instance ShardingDim_eq_dec : EqDecision ShardingDim.
Proof. solve_decision. Defined.
#[export] Instance Sharding_eq_dec : EqDecision Sharding.
Proof. solve_decision. Defined.
#[export] Instance ShardedShape_eq_dec : EqDecision ShardedShape.
Proof. solve_decision. Defined.

Definition dim_eqb (a b : ShardingDim) : bool :=
  (sd_size a =? sd_size b) && (sd_sharding a =? sd_sharding b)
  && (sd_permutation a =? sd_permutation b).

Definition dim_neqb (a b : ShardingDim) : bool := negb (dim_eqb a b).

(** [operator==] of [std::vector<ShardingDim>]. *)
Fixpoint dims_eqb (a b : list ShardingDim) : bool :=
  match a, b with
  | [], [] => true
  | x :: a, y :: b => dim_eqb x y && dims_eqb a b
  | _, _ => false
  end.

Definition sharding_eqb (a b : Sharding) : bool :=
  dims_eqb (dims a) (dims b) && DeviceListOps.eqb (devices a) (devices b).
Definition sharding_neqb (a b : Sharding) : bool := negb (sharding_eqb a b).

Definition shape_eqb (a b : ShardedShape) : bool :=
  bool_decide (ss_type a = ss_type b) && sharding_eqb (ss_sharding a) (ss_sharding b).
Definition shape_neqb (a b : ShardedShape) : bool := negb (shape_eqb a b).

Module ShardingOps.

Definition TotalSharding (s : Sharding) : outcome Z :=
  foldM (fun sharding dim =>
           if 1 <? sd_size dim then mul64 sharding (sd_sharding dim) else mret sharding)
        1 (dims s).

(** [dims.size()] as an [int64_t]. *)
Definition num_dims (s : Sharding) : Z := Z.of_nat (length (dims s)).

Fixpoint NumRealDims_loop (n : Z) (l : list ShardingDim) : Z :=
  match l with
  | [] => n
  | dim :: l => if sd_size dim <? sd_sharding dim then n - 1 else NumRealDims_loop n l
  end.
Definition NumRealDims (s : Sharding) : Z := NumRealDims_loop (num_dims s) (dims s).

Definition NumLocalElements (s : Sharding) : outcome Z :=
  foldM (fun size dim =>
           if 1 <? sd_size dim
           then q ← div64 (sd_size dim) (sd_sharding dim); mul64 size q
           else mret size)
        1 (dims s).

Definition IsPartiallyReplicated (s : Sharding) : outcome bool :=
  sharding ← TotalSharding s;
  mret ((1 <? sharding) && (sharding <? DeviceListOps.size (devices s))).

Definition FullySharded (s : Sharding) : outcome bool :=
  sharding ← TotalSharding s; mret (sharding =? DeviceListOps.size (devices s)).

Definition IsReplicated (s : Sharding) : outcome bool :=
  sharding ← TotalSharding s; mret (sharding =? 1).

Definition ShardElements (s : Sharding) : outcome Z :=
  foldM (fun dim_product dim =>
           if 1 <? sd_size dim
           then p ← mul64 dim_product (sd_size dim); div64 p (sd_sharding dim)
           else mret dim_product)
        1 (dims s).

(** A [size_t] times an [int64_t] wraps as unsigned; the result is converted
    back to [int64_t]. *)
Definition ShardSize (shape : ShardedShape) : outcome Z :=
  n ← ShardElements (ss_sharding shape);
  mret (to_i64 (SupportedTypeSizeOf (ss_type shape) * to_u64 n)).

Definition FullDimensionProduct (shape : ShardedShape) : outcome Z :=
  foldM (fun dim_product dim => mul64 dim_product (sd_size dim))
        1 (dims (ss_sharding shape)).

(** ** Well-formed shardings

    A dimension of the array has a sharding that divides its size.  One extra
    dimension, of size 1 and sharding above 1, may stand for replication: it is
    not part of the shape.  The permutations list the dimensions in the order
    in which the shards are numbered, and the devices hold one shard each. *)
Definition is_replica (d : ShardingDim) : bool :=
  (sd_size d =? 1) && (1 <? sd_sharding d).

Definition is_real (d : ShardingDim) : bool := negb (is_replica d).

Definition wf_dim (d : ShardingDim) : Prop :=
  1 <= sd_size d /\ 1 <= sd_sharding d /\
  (is_replica d = true \/ sd_size d mod sd_sharding d = 0).

Definition wf_perm (l : list ShardingDim) : Prop :=
  NoDup (sd_permutation <$> l) /\
  Forall (fun d => 0 <= sd_permutation d < Z.of_nat (length l)) l.

Definition replicas (l : list ShardingDim) : list ShardingDim := filter is_replica l.
Definition reals (l : list ShardingDim) : list ShardingDim := filter is_real l.

Definition wf (s : Sharding) : Prop :=
  DeviceListOps.wf (devices s) /\
  Forall wf_dim (dims s) /\
  (length (replicas (dims s)) <= 1)%nat /\
  wf_perm (dims s) /\
  prodZ (sd_sharding <$> dims s) = num_devices_ (devices s) /\
  i64 (prodZ (sd_size <$> dims s)).

#[export] Instance wf_dim_dec d : Decision (wf_dim d).
Proof. unfold wf_dim. apply _. Defined.
#[export] Instance wf_perm_dec l : Decision (wf_perm l).
Proof. unfold wf_perm. apply _. Defined.
#[export] Instance wf_dec s : Decision (wf s).
Proof. unfold wf, i64. apply _. Defined.

(** The number of copies of the array: the sharding of the replica dimension. *)
Definition replication (s : Sharding) : Z := prodZ (sd_sharding <$> replicas (dims s)).

(** The number of tiles the array is cut into, and the elements of a tile. *)
Definition num_tiles (s : Sharding) : Z := prodZ (sd_sharding <$> reals (dims s)).
Definition tile_extent (d : ShardingDim) : Z := sd_size d / sd_sharding d.
Definition tile_elements (s : Sharding) : Z := prodZ (tile_extent <$> reals (dims s)).

(** ** Lemmas on dimensions *)
Lemma is_replica_spec d : is_replica d = true <-> sd_size d = 1 /\ 1 < sd_sharding d.
Proof. unfold is_replica. rewrite andb_true_iff, Z.eqb_eq, Z.ltb_lt. done. Qed.

Lemma is_replica_false d :
  wf_dim d -> is_replica d = false ->
  sd_size d = sd_sharding d * tile_extent d /\ 1 <= tile_extent d.
Proof.
  intros (H1 & H2 & [H3|H3]) Hf; [congruence|]. unfold tile_extent.
  pose proof (Z.div_mod (sd_size d) (sd_sharding d) ltac:(lia)). nia.
Qed.

Lemma replica_size_lt d : wf_dim d -> (sd_size d <? sd_sharding d) = is_replica d.
Proof.
  intros Hd. destruct (is_replica d) eqn:Hr.
  - apply is_replica_spec in Hr. apply Z.ltb_lt. lia.
  - destruct (is_replica_false d Hd Hr). destruct Hd as (?&?&_).
    apply Z.ltb_ge. nia.
Qed.

(** The test [dim.size > 1] of the code keeps the sharding of real dims. *)
Lemma size_gt1_sharding d : wf_dim d ->
  (if 1 <? sd_size d then sd_sharding d else 1) =
  (if is_replica d then 1 else sd_sharding d).
Proof.
  intros Hd. destruct (is_replica d) eqn:Hr.
  - apply is_replica_spec in Hr. rewrite (proj2 (Z.ltb_ge _ _)); lia.
  - destruct (is_replica_false d Hd Hr). destruct Hd as (?&?&_).
    destruct (Z.ltb_spec 1 (sd_size d)); nia.
Qed.

Lemma size_gt1_extent d : wf_dim d ->
  (if 1 <? sd_size d then tile_extent d else 1) =
  (if is_replica d then 1 else tile_extent d).
Proof.
  intros Hd. destruct (is_replica d) eqn:Hr.
  - apply is_replica_spec in Hr. rewrite (proj2 (Z.ltb_ge _ _)); lia.
  - destruct (is_replica_false d Hd Hr). destruct Hd as (?&?&_).
    destruct (Z.ltb_spec 1 (sd_size d)); nia.
Qed.

Lemma reals_cons d l :
  reals (d :: l) = if is_replica d then reals l else d :: reals l.
Proof.
  unfold reals, is_real. rewrite filter_cons. destruct (is_replica d); cbn; done.
Qed.

Lemma replicas_cons d l :
  replicas (d :: l) = if is_replica d then d :: replicas l else replicas l.
Proof. unfold replicas. rewrite filter_cons. by destruct (is_replica d). Qed.

Lemma reals_app l k : reals (l ++ k) = reals l ++ reals k.
Proof. apply filter_app. Qed.

Lemma prodZ_reals_snoc (f : ShardingDim -> Z) l d :
  prodZ (f <$> reals (l ++ [d])) =
  prodZ (f <$> reals l) * (if is_replica d then 1 else f d).
Proof.
  rewrite reals_app, fmap_app, prodZ_app, reals_cons.
  destruct (is_replica d); cbn; lia.
Qed.

Lemma prodZ_split (f : ShardingDim -> Z) l :
  prodZ (f <$> l) = prodZ (f <$> reals l) * prodZ (f <$> replicas l).
Proof.
  induction l as [|d l IH]; [done|].
  rewrite reals_cons, replicas_cons, fmap_cons, prodZ_cons, IH.
  destruct (is_replica d); rewrite fmap_cons, prodZ_cons; lia.
Qed.

Lemma prodZ_reals (f : ShardingDim -> Z) l :
  prodZ ((fun d => if is_replica d then 1 else f d) <$> l) = prodZ (f <$> reals l).
Proof.
  induction l as [|d l IH]; [done|].
  rewrite reals_cons, fmap_cons, prodZ_cons, IH.
  destruct (is_replica d); rewrite ?fmap_cons, ?prodZ_cons; lia.
Qed.

Lemma elem_of_reals d l : d ∈ reals l <-> d ∈ l /\ is_replica d = false.
Proof.
  unfold reals, is_real. rewrite list_elem_of_filter.
  destruct (is_replica d); cbn; naive_solver.
Qed.

Lemma elem_of_replicas d l : d ∈ replicas l <-> d ∈ l /\ is_replica d = true.
Proof.
  unfold replicas. rewrite list_elem_of_filter. destruct (is_replica d); cbn; naive_solver.
Qed.

(** ** What the operations compute on a well-formed sharding *)
Section WellFormed.
Context (s : Sharding) (Hwf : wf s).

Lemma wf_devices : DeviceListOps.wf (devices s).
Proof. apply Hwf. Qed.

Lemma wf_dims d : d ∈ dims s -> wf_dim d.
Proof. destruct Hwf as (_&Hd&_). rewrite Forall_forall in Hd. apply Hd. Qed.

Lemma wf_sharding_pos d : d ∈ dims s -> 1 <= sd_sharding d.
Proof. intros Hd. apply (wf_dims d Hd). Qed.

Lemma wf_size_pos d : d ∈ dims s -> 1 <= sd_size d.
Proof. intros Hd. apply (wf_dims d Hd). Qed.

Lemma wf_extent_pos d : d ∈ reals (dims s) -> 1 <= tile_extent d.
Proof. intros [Hd Hr]%elem_of_reals. apply (is_replica_false d (wf_dims d Hd) Hr). Qed.

Lemma num_tiles_pos : 1 <= num_tiles s.
Proof.
  apply prodZ_fmap_pos. intros d [Hd _]%elem_of_reals. by apply wf_sharding_pos.
Qed.

Lemma replication_pos : 1 <= replication s.
Proof.
  apply prodZ_fmap_pos. intros d [Hd _]%elem_of_replicas. by apply wf_sharding_pos.
Qed.

Lemma tiles_replication : num_tiles s * replication s = num_devices_ (devices s).
Proof. destruct Hwf as (_&_&_&_&<-&_). unfold num_tiles, replication. by rewrite <- prodZ_split. Qed.

Lemma num_devices_i64 : 1 <= num_devices_ (devices s) <= i64_max.
Proof.
  pose proof num_tiles_pos. pose proof replication_pos. pose proof tiles_replication.
  destruct wf_devices as (?&?&Hi). unfold i64 in Hi. nia.
Qed.

Lemma tile_elements_pos : 1 <= tile_elements s.
Proof. apply prodZ_fmap_pos, wf_extent_pos. Qed.

(** The elements of the tiles add up to the elements of the array. *)
Lemma tiles_elements : num_tiles s * tile_elements s = prodZ (sd_size <$> dims s).
Proof.
  unfold num_tiles, tile_elements. rewrite prodZ_fmap_mul, <- prodZ_reals.
  apply prodZ_fmap_ext. intros d Hd. pose proof (wf_dims d Hd) as Hw.
  destruct (is_replica d) eqn:Hr.
  - apply is_replica_spec in Hr. lia.
  - by destruct (is_replica_false d Hw Hr).
Qed.

Lemma sizes_i64 : 1 <= prodZ (sd_size <$> dims s) <= i64_max.
Proof.
  split; [apply prodZ_fmap_pos, wf_size_pos|].
  destruct Hwf as (_&_&_&_&_&Hi). unfold i64 in Hi. lia.
Qed.

Lemma TotalSharding_ok : TotalSharding s = Ret (num_tiles s).
Proof.
  unfold TotalSharding. pose proof num_devices_i64. pose proof tiles_replication.
  pose proof num_tiles_pos. pose proof replication_pos.
  assert (E : num_tiles s =
    1 * prodZ ((fun d => if 1 <? sd_size d then sd_sharding d else 1) <$> dims s)).
  { rewrite Z.mul_1_l. unfold num_tiles. rewrite <- prodZ_reals. symmetry.
    apply prodZ_fmap_ext. intros d Hd. by apply size_gt1_sharding, wf_dims. }
  rewrite E. apply foldM_prod.
  - intros acc d Hd Hacc Hi. destruct (1 <? sd_size d); [by apply mul64_ok|].
    by rewrite Z.mul_1_r.
  - intros d Hd. pose proof (wf_sharding_pos d Hd). destruct (1 <? _); lia.
  - lia.
  - rewrite <- E. unfold i64. nia.
Qed.

Lemma NumRealDims_ok : NumRealDims s = Z.of_nat (length (reals (dims s))).
Proof.
  unfold NumRealDims, num_dims. pose proof wf_dims as Hd.
  destruct Hwf as (_&_&H1&_). revert Hd H1. generalize (dims s) as l.
  assert (Hloop : forall l n, (forall d, d ∈ l -> wf_dim d) ->
    (length (replicas l) <= 1)%nat ->
    NumRealDims_loop n l = n - Z.of_nat (length (replicas l))).
  { induction l as [|d l IH]; intros n Hd H1; cbn [NumRealDims_loop]; [cbn; lia|].
    rewrite replica_size_lt by (apply Hd; set_solver).
    rewrite replicas_cons in *. destruct (is_replica d); cbn [length] in *; [lia|].
    apply IH; [set_solver|lia]. }
  intros l Hd H1. rewrite Hloop by done.
  assert (length l = (length (reals l) + length (replicas l))%nat); [|lia].
  clear. induction l as [|d l IH]; [done|]. rewrite reals_cons, replicas_cons.
  destruct (is_replica d); cbn; lia.
Qed.

Lemma NumLocalElements_ok : NumLocalElements s = Ret (tile_elements s).
Proof.
  unfold NumLocalElements. pose proof sizes_i64. pose proof tiles_elements.
  pose proof num_tiles_pos. pose proof tile_elements_pos.
  assert (E : tile_elements s =
    1 * prodZ ((fun d => if 1 <? sd_size d then tile_extent d else 1) <$> dims s)).
  { rewrite Z.mul_1_l. unfold tile_elements. rewrite <- prodZ_reals. symmetry.
    apply prodZ_fmap_ext. intros d Hd. by apply size_gt1_extent, wf_dims. }
  rewrite E. apply foldM_prod.
  - intros acc d Hd Hacc Hi. destruct (1 <? sd_size d); [|by rewrite Z.mul_1_r].
    destruct (wf_dims d Hd) as (Hs&Hsh&_).
    rewrite div64_ok; [by apply mul64_ok|lia|lia|].
    pose proof (prodZ_elem_le (sd_size <$> dims s) (sd_size d)
      ltac:(apply Forall_fmap, Forall_forall; apply wf_size_pos)
      ltac:(by apply list_elem_of_fmap_2)). unfold i64. lia.
  - intros d Hd. rewrite size_gt1_extent by (by apply wf_dims).
    destruct (is_replica d) eqn:Hr; [lia|]. apply wf_extent_pos, elem_of_reals. done.
  - lia.
  - rewrite <- E. unfold i64. nia.
Qed.

Lemma ShardElements_ok : ShardElements s = Ret (tile_elements s).
Proof.
  unfold ShardElements. pose proof sizes_i64 as Hsz.
  assert (Hpos : Forall (Z.le 1) (sd_size <$> dims s))
    by (apply Forall_fmap, Forall_forall; apply wf_size_pos).
  edestruct (foldM_inv
    (fun dim_product dim =>
       if 1 <? sd_size dim
       then p ← mul64 dim_product (sd_size dim); div64 p (sd_sharding dim)
       else mret dim_product)
    (fun done acc => acc = prodZ (tile_extent <$> reals done)
                     /\ 1 <= acc <= prodZ (sd_size <$> done)))
    as (r & E & -> & _); [| |exact E].
  { done. }
  intros dn d rest acc Heq [-> Hacc].
  assert (Hd : d ∈ dims s) by (rewrite Heq; set_solver).
  pose proof (wf_dims d Hd) as Hw. pose proof (size_gt1_extent d Hw) as He.
  destruct (wf_dims d Hd) as (Hs&Hsh&_).
  assert (Hle : prodZ (sd_size <$> dn) * sd_size d <= i64_max).
  { rewrite Heq, fmap_app, prodZ_app, fmap_cons, prodZ_cons in Hsz.
    rewrite Heq, fmap_app, fmap_cons in Hpos. apply Forall_app in Hpos as [_ Hpos].
    apply Forall_cons in Hpos as [_ Hpos]. apply prodZ_pos in Hpos. nia. }
  rewrite prodZ_snoc, prodZ_reals_snoc, <- He.
  destruct (Z.ltb_spec 1 (sd_size d)) as [Hgt|Hgt].
  - destruct (is_replica d) eqn:Hr; [apply is_replica_spec in Hr; lia|].
    destruct (is_replica_false d Hw Hr) as [Hsize Hext].
    set (a := prodZ (tile_extent <$> reals dn)) in *.
    set (b := prodZ (sd_size <$> dn)) in *. clear Hsz Hpos Heq He.
    assert (Hb : 1 <= a * sd_size d <= b * sd_size d) by nia.
    rewrite mul64_ok by (unfold i64; lia). cbn [mbind outcome_bind].
    rewrite div64_ok by (unfold i64; lia).
    assert (Hq : a * sd_size d / sd_sharding d = a * tile_extent d).
    { rewrite Hsize, (Z.mul_comm (sd_sharding d)), Z.mul_assoc. by apply Z.div_mul; lia. }
    rewrite Hq. eexists; split; [reflexivity|]. split; [done|].
    assert (tile_extent d <= sd_size d) by nia. nia.
  - eexists; split; [reflexivity|]. nia.
Qed.

Lemma FullDimensionProduct_ok type :
  FullDimensionProduct (mkShape type s) = Ret (prodZ (sd_size <$> dims s)).
Proof.
  unfold FullDimensionProduct. cbn [ss_sharding].
  rewrite <- (Z.mul_1_l (prodZ _)). pose proof sizes_i64.
  apply foldM_prod; [|apply wf_size_pos|done|unfold i64; lia].
  intros. by apply mul64_ok.
Qed.

End WellFormed.

#[export] Hint Resolve wf_devices wf_dims num_tiles_pos replication_pos : zuku.

(** ** Properties *)

(** The three predicates classify a well-formed sharding by its number of
    tiles and copies: fully sharded means one copy, replicated means one tile,
    partially replicated means several of each, and none overflows. *)
Theorem sharding_classification (s : Sharding) (Hwf : wf s) :
  FullySharded s = Ret (bool_decide (replication s = 1)) /\
  IsReplicated s = Ret (bool_decide (num_tiles s = 1)) /\
  IsPartiallyReplicated s = Ret (bool_decide (1 < num_tiles s /\ 1 < replication s)) /\
  num_tiles s * replication s = DeviceListOps.size (devices s).
Proof.
  unfold FullySharded, IsReplicated, IsPartiallyReplicated, DeviceListOps.size.
  rewrite (TotalSharding_ok s Hwf). cbn [mbind outcome_bind mret outcome_ret].
  pose proof (tiles_replication s Hwf). pose proof (num_tiles_pos s Hwf).
  pose proof (replication_pos s Hwf).
  split_and!; [f_equal..|done].
  all: bool_cases; nia.
Qed.

(** A 2 x 3 tiling with four copies, numbered replica-dimension first. *)
Definition example_sharding : Sharding :=
  mkSharding [mkDim 8 2 2; mkDim 1 4 0; mkDim 9 3 1] (mkDeviceList 0 24).

Lemma example_sharding_wf : wf example_sharding.
Proof. by apply (bool_decide_unpack _). Qed.

Lemma sharding_classification_witness :
  FullySharded example_sharding = Ret false /\
  IsPartiallyReplicated example_sharding = Ret true.
Proof.
  destruct (sharding_classification example_sharding example_sharding_wf)
    as (H1 & _ & H2 & _).
  split; [rewrite H1|rewrite H2]; reflexivity.
Defined.

(** C40: on a well-formed sharding the two element counts of the code agree,
    nothing overflows although [ShardElements] multiplies before it divides,
    and the elements of the tiles add up to the elements of the array. *)
Theorem shard_elements_conservation (type : SupportedType) (s : Sharding) (Hwf : wf s) :
  exists tiles elements,
    TotalSharding s = Ret tiles /\
    NumLocalElements s = Ret elements /\
    ShardElements s = Ret elements /\
    1 <= elements /\
    FullDimensionProduct (mkShape type s) = Ret (tiles * elements).
Proof.
  exists (num_tiles s), (tile_elements s). split_and!.
  - by apply TotalSharding_ok.
  - by apply NumLocalElements_ok.
  - by apply ShardElements_ok.
  - by apply tile_elements_pos.
  - by rewrite FullDimensionProduct_ok, tiles_elements.
Qed.

Lemma shard_elements_conservation_witness :
  NumLocalElements example_sharding = Ret 12 /\
  FullDimensionProduct (mkShape F32 example_sharding) = Ret 72.
Proof.
  destruct (shard_elements_conservation F32 example_sharding example_sharding_wf)
    as (t & e & Ht & He & _ & _ & Hp).
  vm_compute in Ht, He. injection Ht as <-. injection He as <-.
  split; [reflexivity|exact Hp].
Defined.

(** [ShardSize] is the element count times the element size whenever that
    product is an [int64_t]; only then, since the product is unsigned and is
    converted back modulo 2^64. *)
Theorem shard_size_bytes (shape : ShardedShape) (Hwf : wf (ss_sharding shape)) :
  let bytes := SupportedTypeSizeOf (ss_type shape) * tile_elements (ss_sharding shape) in
  (bytes <= i64_max -> ShardSize shape = Ret bytes) /\
  (i64_max < bytes -> ShardSize shape <> Ret bytes).
Proof.
  cbn zeta. unfold ShardSize. rewrite (ShardElements_ok _ Hwf).
  cbn [mbind outcome_bind mret outcome_ret].
  set (e := tile_elements (ss_sharding shape)).
  assert (1 <= e) by by apply tile_elements_pos.
  pose proof (tiles_elements _ Hwf) as Ht. pose proof (sizes_i64 _ Hwf).
  pose proof (num_tiles_pos _ Hwf). fold e in Ht.
  assert (to_u64 e = e) as -> by (unfold to_u64; apply Z.mod_small; nia).
  set (b := SupportedTypeSizeOf (ss_type shape)).
  assert (1 <= b <= 16) by (unfold b; destruct (ss_type shape); cbn; lia).
  assert (1 <= b * e) by nia. unfold to_i64.
  split; intros Hb; [rewrite Z.mod_small by lia; by rewrite (proj2 (Z.leb_le _ _))|].
  intros [= Heq]. pose proof (Z.mod_pos_bound (b * e) u64_modulus ltac:(lia)).
  destruct (Z.leb_spec ((b * e) mod u64_modulus) i64_max); lia.
Qed.

Lemma shard_size_bytes_witness :
  ShardSize (mkShape F32 example_sharding) = Ret 48.
Proof.
  destruct (shard_size_bytes (mkShape F32 example_sharding) example_sharding_wf)
    as [H _].
  vm_compute in H. apply H. discriminate.
Defined.

Lemma dim_eqb_eq a b : dim_eqb a b = true <-> a = b.
Proof.
  unfold dim_eqb. destruct a, b; cbn. rewrite !andb_true_iff, !Z.eqb_eq.
  split; [by intros [[-> ->] ->]|by intros [= -> -> ->]].
Qed.

Lemma dims_eqb_eq a b : dims_eqb a b = true <-> a = b.
Proof.
  revert b. induction a as [|x a IH]; intros [|y b]; cbn; [done|done|done|].
  rewrite andb_true_iff, dim_eqb_eq, IH.
  split; [by intros [-> ->]|by intros [= -> ->]].
Qed.

Lemma sharding_eqb_eq a b : sharding_eqb a b = true <-> a = b.
Proof.
  unfold sharding_eqb. destruct a, b; cbn.
  rewrite andb_true_iff, dims_eqb_eq, DeviceListOps.eqb_eq.
  split; [by intros [-> ->]|by intros [= -> ->]].
Qed.

Lemma shape_eqb_eq a b : shape_eqb a b = true <-> a = b.
Proof.
  unfold shape_eqb. destruct a, b; cbn.
  rewrite andb_true_iff, bool_decide_eq_true, sharding_eqb_eq.
  split; [by intros [-> ->]|by intros [= -> ->]].
Qed.

End ShardingOps.
