(* ===== verification/Processor.v ===== *)
(** Processors (src/zuku/processor.{h,cc}): [Processor::Init] numbers the
    processors of the machine; the other functions look them up.  The machine
    is Realm's and is a parameter, [RealmMachine]; [MachineLaws] is what Realm
    documents about its queries. *)
From stdpp Require Import base tactics list list_numbers numbers option sets gmap sorting strings.
From Stdlib Require Import ZArith Lia.
From S2P Require Import Prelude Mesh.
Open Scope Z_scope.

(** [Processor::Type], [Realm::Processor::Kind] and [Realm::Memory::Kind], the
    latter two restricted to the kinds that are used. *)
Inductive ProcType : Type := UTIL | CPU | GPU | TEST | NUM_TYPES.
Inductive RealmKind : Type := LOC_PROC | TOC_PROC | UTIL_PROC | NO_KIND.
Inductive MemoryKind : Type := GPU_FB_MEM | SYSTEM_MEM | Z_COPY_MEM.

#[export] Instance ProcType_eq_dec : EqDecision ProcType.
Proof. solve_decision. Defined.
#[export] Instance RealmKind_eq_dec : EqDecision RealmKind.
Proof. solve_decision. Defined.
#[export] Instance MemoryKind_eq_dec : EqDecision MemoryKind.
Proof. solve_decision. Defined.

(** A Realm processor is an identifier, ordered as such; [NO_PROC] is 0. *)
Definition RealmProc : Type := Z.
Definition NO_PROC : RealmProc := 0.

Class RealmMachine : Type := {
  rm_kind : RealmProc -> RealmKind;
  rm_space : RealmProc -> Z;                       (* address_space() *)
  rm_spaces : Z;                                   (* get_address_space_count() *)
  rm_query : RealmKind -> list RealmProc;          (* ProcessorQuery::only_kind *)
  rm_local : RealmKind -> gset RealmProc;          (* get_local_processors_by_kind *)
}.

(** Queries list every processor of the kind once, address spaces are numbered
    from 0, and the local processors are those of one address space. *)
Class MachineLaws `(M : RealmMachine) (here : Z) : Prop := {
  rm_query_nodup k : NoDup (rm_query k);
  rm_query_space k p : p ∈ rm_query k -> 0 <= rm_space p < rm_spaces;
  rm_query_kind k p : p ∈ rm_query k -> rm_kind p = k;
  rm_local_query k : rm_local k = list_to_set (filter (fun p => rm_space p = here) (rm_query k));
  rm_here : 0 <= here < rm_spaces;
}.

Record Processor : Type := mkProc {
  type_ : ProcType;
  local_id_ : Z;
  global_id_ : Z;
  proc_ : RealmProc;
}.

#[export] Instance Processor_eq_dec : EqDecision Processor.
Proof. solve_decision. Defined.

Record DeviceId : Type := mkDeviceId { id_local : option Z; id_global : option Z }.
Record DeviceIds : Type := mkDeviceIds { ids_local : option DeviceList; ids_global : option DeviceList }.

Record RemoteProcessors : Type := mkRemote {
  global_device_id_start : Z;
  global_device_id_stop : Z;
  processors : list RealmProc;
}.

(** The globals of the file; a map from types to vectors is a function, since
    [operator[]] creates missing entries empty. *)
Record ProcState : Type := mkProcState {
  default_proc_type : ProcType;
  local_procs : ProcType -> list Processor;
  all_procs : ProcType -> list RealmProc;
  all_procs_by_address_space : ProcType -> list RemoteProcessors;
}.

Definition fn_set {A} (f : ProcType -> A) (t : ProcType) (v : A) : ProcType -> A :=
  fun t' => if decide (t' = t) then v else f t'.

Definition initial_state : ProcState :=
  mkProcState CPU (fun _ => []) (fun _ => []) (fun _ => []).

Definition ToRealmKind (type : ProcType) : RealmKind :=
  match type with
  | CPU => LOC_PROC | GPU => TOC_PROC | UTIL => UTIL_PROC
  | NUM_TYPES => NO_KIND | TEST => NO_KIND
  end.

Definition DefaultMemoryKind (p : Processor) : MemoryKind :=
  match type_ p with GPU => GPU_FB_MEM | _ => SYSTEM_MEM end.

(** [operator==] and [std::hash] look at the type and the global id. *)
Definition proc_eqb (a b : Processor) : bool :=
  bool_decide (type_ a = type_ b) && (global_id_ a =? global_id_ b).

(** [vector::resize] of a vector of structs that are value-initialised. *)
Definition vec_resize (v : list RemoteProcessors) (n : Z) : list RemoteProcessors :=
  take (Z.to_nat n) v ++ replicate (Z.to_nat n - length v) (mkRemote 0 0 []).

(** [std::sort] on processors, and the iteration order of a [std::set]. *)
Definition sort_procs (l : list RealmProc) : list RealmProc := merge_sort Z.le l.

Section Init.
Context `{M : RealmMachine}.

(** The first loop of [Init]: one processor of the query. *)
Definition collect (v : list RemoteProcessors) (it : RealmProc) : outcome (list RemoteProcessors) :=
  r ← vec_get v (rm_space it);
  vec_set v (rm_space it)
    (mkRemote (global_device_id_start r) (global_device_id_stop r) (processors r ++ [it])).

(** The second loop: sort an address space and give it the next global ids. *)
Fixpoint number_spaces (v : list RemoteProcessors) (all : list RealmProc) (global_offset : Z)
    : list RemoteProcessors * list RealmProc :=
  match v with
  | [] => ([], all)
  | r :: v =>
      let ps := sort_procs (processors r) in
      let stop := global_offset + Z.of_nat (length ps) in
      let '(v', all') := number_spaces v (all ++ ps) stop in
      (mkRemote global_offset stop ps :: v', all')
  end.

(** The third loop: the local processors, in the order of the set. *)
Fixpoint number_local (type : ProcType) (l : list RealmProc) (local_id global_id : Z)
    : list Processor :=
  match l with
  | [] => []
  | p :: l => mkProc type local_id global_id p :: number_local type l (local_id + 1) (global_id + 1)
  end.

(** One iteration of [Processor::Init]. *)
Definition init_type (st : ProcState) (type : ProcType) : outcome ProcState :=
  let kind := ToRealmKind type in
  v ← foldM collect (vec_resize (all_procs_by_address_space st type) rm_spaces) (rm_query kind);
  let '(v, all) := number_spaces v (all_procs st type) 0 in
  let realm_procs := sort_procs (elements (rm_local kind)) in
  local ← match realm_procs with
          | [] => mret (local_procs st type)
          | p :: _ =>
              r ← vec_get v (rm_space p);
              mret (local_procs st type ++
                    number_local type realm_procs 0 (global_device_id_start r))
          end;
  let default := match local with [] => default_proc_type st | _ => type end in
  mret (mkProcState default (fn_set (local_procs st) type local)
          (fn_set (all_procs st) type all)
          (fn_set (all_procs_by_address_space st) type v)).

Definition Init (st : ProcState) : outcome ProcState := foldM init_type st [UTIL; CPU; GPU].
End Init.

Section Lookup.
Context `{M : RealmMachine} (st : ProcState).

Definition DefaultType : ProcType := default_proc_type st.
Definition GetProcsForType (type : ProcType) : list Processor := local_procs st type.
Definition DefaultProcs : list Processor := GetProcsForType DefaultType.
Definition NumForType (type : ProcType) : Z := Z.of_nat (length (GetProcsForType type)).
Definition value_or (type : option ProcType) : ProcType := default DefaultType type.

Definition NumLocalInDeviceList (devices : DeviceList) (type : ProcType) : outcome Z :=
  foldM (fun num_local proc =>
           b ← DeviceListOps.Contains devices (global_id_ proc);
           if (b : bool) then add64 num_local 1 else mret num_local)
        0 (local_procs st type).

Definition RemoteProc (global_device_id : Z) (type : option ProcType) : outcome RealmProc :=
  vec_get (all_procs st (value_or type)) global_device_id.

Definition GetAttachedHost (global_device_id : Z) (type : option ProcType) : outcome RealmProc :=
  device_proc ← RemoteProc global_device_id type;
  if bool_decide (rm_kind device_proc = LOC_PROC) then mret device_proc
  else
    hosts ← vec_get (all_procs_by_address_space st CPU) (rm_space device_proc);
    if (global_device_id_start hosts <=? global_device_id)
       && (global_device_id <? global_device_id_stop hosts)
    then
      local_device_id ← sub64 global_device_id (global_device_id_start hosts);
      vec_get (processors hosts) local_device_id
    else vec_get (processors hosts) 0.

(** [local_id >= procs.size()] compares as unsigned: a negative id is too big. *)
Definition GetProc (id : DeviceId) (type : ProcType) : outcome Processor :=
  let procs := GetProcsForType type in
  local_id ← match id_local id with Some l => mret l | None => deref (id_global id) end;
  if Z.of_nat (length procs) <=? to_u64 local_id
  then Throw (RuntimeError "local_id is greater than number of local procs")
  else vec_get procs local_id.

Definition Processor_Create (id : DeviceId) (type : option ProcType) : outcome Processor :=
  match type with
  | Some TEST =>
      l ← deref (id_local id); g ← deref (id_global id); mret (mkProc TEST l g NO_PROC)
  | _ => GetProc id (value_or type)
  end.

Definition Processor_Default : outcome Processor := Processor_Create (mkDeviceId (Some 0) None) None.
Definition Processor_Util : outcome Processor :=
  Processor_Create (mkDeviceId (Some 0) None) (Some UTIL).

Definition Group_Local (type : option ProcType) : list Processor := local_procs st (value_or type).

(** [for (int64_t id : *ids)]: the fuel bounds the iteration. *)
Definition Group_Create (fuel : nat) (ids : DeviceIds) (type : option ProcType)
    : outcome (list Processor) :=
  match ids_local ids, ids_global ids with
  | Some l, _ =>
      es ← DeviceListOps.elements fuel l;
      mapO (fun id => Processor_Create (mkDeviceId (Some id) None) type) es
  | None, Some g =>
      es ← DeviceListOps.elements fuel g;
      mapO (fun id => Processor_Create (mkDeviceId None (Some id)) type) es
  | None, None => Throw (RuntimeError "must specifiy local or global IDs")
  end.
End Lookup.

(** ** List lemmas *)
Lemma sort_procs_Permutation l : sort_procs l ≡ₚ l.
Proof. apply merge_sort_Permutation. Qed.

(** Sorting forgets the order in which a query lists the processors. *)
Lemma sort_procs_unique l k : l ≡ₚ k -> sort_procs l = sort_procs k.
Proof.
  intros H. apply (StronglySorted_unique Z.le).
  - apply StronglySorted_merge_sort; apply _.
  - apply StronglySorted_merge_sort; apply _.
  - by rewrite !sort_procs_Permutation.
Qed.

Lemma concat_lookup {A} (ls : list (list A)) i l j x :
  ls !! i = Some l -> l !! j = Some x ->
  concat ls !! (length (concat (take i ls)) + j)%nat = Some x.
Proof.
  revert i. induction ls as [|l' ls IH]; intros [|i] Hl Hx; try done; cbn in *.
  - injection Hl as ->. by apply lookup_app_l_Some.
  - rewrite length_app, lookup_app_r by lia.
    replace (length l' + length (concat (take i ls)) + j - length l')%nat
      with (length (concat (take i ls)) + j)%nat by lia. by apply IH.
Qed.

Lemma number_local_lookup type l a b i p :
  l !! i = Some p ->
  number_local type l a b !! i = Some (mkProc type (a + Z.of_nat i) (b + Z.of_nat i) p).
Proof.
  revert a b i. induction l as [|q l IH]; intros a b [|i] Hp; try done; cbn in *.
  - injection Hp as ->. by rewrite !Z.add_0_r.
  - rewrite (IH _ _ _ Hp). do 2 f_equal; lia.
Qed.

Lemma number_local_length type l a b : length (number_local type l a b) = length l.
Proof. revert a b. induction l; intros; cbn; [done|]. by f_equal. Qed.

(** The processors of every address space, sorted. *)
Definition sorted_spaces (v : list RemoteProcessors) : list (list RealmProc) :=
  (fun r => sort_procs (processors r)) <$> v.

Lemma number_spaces_snd v all off : (number_spaces v all off).2 = all ++ concat (sorted_spaces v).
Proof.
  revert all off. induction v as [|r v IH]; intros all off; cbn; [by rewrite app_nil_r|].
  specialize (IH (all ++ sort_procs (processors r))
                 (off + Z.of_nat (length (sort_procs (processors r))))).
  destruct (number_spaces _ _ _) as [v' all']. cbn in IH |- *.
  by rewrite IH, <- (assoc_L (++)).
Qed.

Lemma number_spaces_length v all off : length (number_spaces v all off).1 = length v.
Proof.
  revert all off. induction v as [|r v IH]; intros all off; cbn; [done|].
  specialize (IH (all ++ sort_procs (processors r))
                 (off + Z.of_nat (length (sort_procs (processors r))))).
  destruct (number_spaces _ _ _) as [v' all']. cbn in IH |- *. by rewrite IH.
Qed.

Lemma number_spaces_lookup v all off i r :
  v !! i = Some r ->
  (number_spaces v all off).1 !! i =
  Some (mkRemote (off + Z.of_nat (length (concat (take i (sorted_spaces v)))))
                 (off + Z.of_nat (length (concat (take (S i) (sorted_spaces v)))))
                 (sort_procs (processors r))).
Proof.
  revert all off i. induction v as [|r' v IH]; intros all off [|i] Hr; try done; cbn in Hr |- *.
  - injection Hr as ->. destruct (number_spaces _ _ _) as [v' all']. cbn.
    rewrite app_nil_r. do 2 f_equal. lia.
  - specialize (IH (all ++ sort_procs (processors r'))
                 (off + Z.of_nat (length (sort_procs (processors r')))) i Hr).
    destruct (number_spaces _ _ _) as [v' all']. cbn in IH |- *. etransitivity; [exact IH|].
    cbn. unfold sorted_spaces. rewrite !length_app. do 2 f_equal; lia.
Qed.

(** ** What [Init] computes *)
Section Numbering.
Context `{M : RealmMachine}.

Definition in_space (a : Z) (l : list RealmProc) : list RealmProc :=
  filter (fun p => rm_space p = a) l.

(** The address spaces after the first loop. *)
Definition collected (l : list RealmProc) : list RemoteProcessors :=
  (fun a => mkRemote 0 0 (in_space a l)) <$> seqZ 0 rm_spaces.

Lemma collected_lookup l a : 0 <= a < rm_spaces ->
  collected l !! Z.to_nat a = Some (mkRemote 0 0 (in_space a l)).
Proof.
  intros Ha. unfold collected. rewrite list_lookup_fmap, lookup_seqZ_lt by lia.
  cbn. do 3 f_equal. lia.
Qed.

Lemma collect_ok l : (forall p, p ∈ l -> 0 <= rm_space p < rm_spaces) ->
  foldM collect (vec_resize [] rm_spaces) l = Ret (collected l).
Proof.
  intros Hl. destruct (foldM_inv collect (fun done v => v = collected done) l (vec_resize [] rm_spaces))
    as (v & -> & ->); [| |done].
  - unfold vec_resize, collected. rewrite take_nil, Nat.sub_0_r. cbn [app].
    apply list_eq_same_length with (Z.to_nat rm_spaces).
    + by rewrite length_fmap, length_seqZ.
    + by rewrite length_replicate.
    + intros i x y Hi Hx Hy. apply lookup_replicate in Hx as [-> _].
      rewrite list_lookup_fmap, lookup_seqZ_lt in Hy by lia. by injection Hy as <-.
  - intros d p rest v Heq ->. assert (Hp : p ∈ l) by (rewrite Heq; set_solver).
    pose proof (Hl p Hp) as Hs. pose proof (collected_lookup d _ Hs) as Hlk.
    unfold collect. rewrite (vec_get_ok _ _ _ (proj1 Hs) Hlk). cbn [mbind outcome_bind].
    rewrite vec_set_ok by (unfold collected; rewrite length_fmap, length_seqZ; lia).
    eexists; split; [done|].
    apply list_eq_same_length with (Z.to_nat rm_spaces).
    + unfold collected. by rewrite length_fmap, length_seqZ.
    + unfold collected. by rewrite length_insert, length_fmap, length_seqZ.
    + intros i x y Hi Hx Hy.
      pose proof (collected_lookup (d ++ [p]) (Z.of_nat i) ltac:(lia)) as Hz.
      rewrite Nat2Z.id in Hz. rewrite Hz in Hy. injection Hy as <-.
      pose proof (collected_lookup d (Z.of_nat i) ltac:(lia)) as Hd. rewrite Nat2Z.id in Hd.
      destruct (decide (i = Z.to_nat (rm_space p))) as [->|Hne].
      * rewrite list_lookup_insert_eq in Hx by (by eapply lookup_lt_Some).
        injection Hx as <-. cbn. unfold in_space. rewrite Z2Nat.id by lia.
        rewrite filter_app, filter_cons_True, filter_nil by done. done.
      * rewrite list_lookup_insert_ne in Hx by done. rewrite Hd in Hx. injection Hx as <-.
        unfold in_space. rewrite filter_app, filter_cons_False, filter_nil, app_nil_r by lia. done.
Qed.

(** The global numbering of a kind: address spaces in order, each sorted. *)
Definition spaces_of (k : RealmKind) : list (list RealmProc) :=
  (fun a => sort_procs (in_space a (rm_query k))) <$> seqZ 0 rm_spaces.
Definition space_start (k : RealmKind) (a : Z) : Z :=
  Z.of_nat (length (concat (take (Z.to_nat a) (spaces_of k)))).
Definition local_of (type : ProcType) (start : Z) : list Processor :=
  number_local type (sort_procs (elements (rm_local (ToRealmKind type)))) 0 start.

Context (here : Z) `{!MachineLaws M here}.

Lemma sorted_collected k : sorted_spaces (collected (rm_query k)) = spaces_of k.
Proof. unfold sorted_spaces, collected, spaces_of. by rewrite <- list_fmap_compose. Qed.

Lemma spaces_of_lookup k a : 0 <= a < rm_spaces ->
  spaces_of k !! Z.to_nat a = Some (sort_procs (in_space a (rm_query k))).
Proof.
  intros Ha. unfold spaces_of. rewrite list_lookup_fmap, lookup_seqZ_lt by lia.
  cbn. do 3 f_equal. lia.
Qed.

(** The local processors in set order are the sorted processors of [here]. *)
Lemma local_sorted k : sort_procs (elements (rm_local k)) = sort_procs (in_space here (rm_query k)).
Proof.
  apply sort_procs_unique. rewrite rm_local_query. unfold in_space.
  apply elements_list_to_set, NoDup_filter, rm_query_nodup.
Qed.

(** The state of a type after [Init]. *)
Definition spaces_state (k : RealmKind) : list RemoteProcessors :=
  (number_spaces (collected (rm_query k)) [] 0).1.

Lemma spaces_state_lookup k a : 0 <= a < rm_spaces ->
  spaces_state k !! Z.to_nat a =
  Some (mkRemote (space_start k a) (space_start k (a + 1))
                 (sort_procs (in_space a (rm_query k)))).
Proof.
  intros Ha. unfold spaces_state.
  rewrite (number_spaces_lookup _ _ _ _ _ (collected_lookup _ a Ha)), sorted_collected.
  unfold space_start. rewrite Z2Nat.inj_add by lia. cbn [processors].
  do 2 f_equal. by rewrite Nat.add_1_r.
Qed.

Definition type_state (st : ProcState) (type : ProcType) : ProcState :=
  let k := ToRealmKind type in
  let local := local_of type (space_start k here) in
  mkProcState (match local with [] => default_proc_type st | _ => type end)
    (fn_set (local_procs st) type local)
    (fn_set (all_procs st) type (concat (spaces_of k)))
    (fn_set (all_procs_by_address_space st) type (spaces_state k)).

Lemma init_type_ok st type :
  local_procs st type = [] -> all_procs st type = [] ->
  all_procs_by_address_space st type = [] ->
  init_type st type = Ret (type_state st type).
Proof.
  intros H1 H2 H3. unfold init_type. rewrite H1, H2, H3.
  rewrite collect_ok by apply rm_query_space. cbn [mbind outcome_bind].
  pose proof (number_spaces_snd (collected (rm_query (ToRealmKind type))) [] 0) as Hall.
  pose proof (spaces_state_lookup (ToRealmKind type)) as Hlk. unfold spaces_state in Hlk.
  rewrite sorted_collected in Hall. unfold type_state, spaces_state, local_of.
  destruct (number_spaces _ _ _) as [v all]. cbn [fst snd app] in *. subst all.
  destruct (sort_procs (elements (rm_local (ToRealmKind type)))) as [|p l] eqn:Hloc.
  - done.
  - assert (rm_space p = here) as ->.
    { assert (p ∈ sort_procs (elements (rm_local (ToRealmKind type)))) as Hp
        by (rewrite Hloc; set_solver).
      rewrite local_sorted, sort_procs_Permutation in Hp.
      by apply list_elem_of_filter in Hp as [? _]. }
    pose proof rm_here as Hh.
    rewrite (vec_get_ok _ _ _ (proj1 Hh) (Hlk here Hh)). done.
Qed.

Lemma Init_ok :
  Init initial_state = Ret (type_state (type_state (type_state initial_state UTIL) CPU) GPU).
Proof.
  unfold Init. cbn [foldM]. rewrite init_type_ok by done. cbn [mbind outcome_bind].
  rewrite init_type_ok by done. cbn [mbind outcome_bind].
  by rewrite init_type_ok.
Qed.
End Numbering.

(** The types that [Init] numbers. *)
Definition numbered (type : ProcType) : Prop := type ∈ [UTIL; CPU; GPU].
#[export] Instance numbered_dec type : Decision (numbered type).
Proof. unfold numbered. apply _. Defined.

Section Final.
Context `{M : RealmMachine} (here : Z) `{!MachineLaws M here}.

Definition final_state : ProcState :=
  type_state here (type_state here (type_state here initial_state UTIL) CPU) GPU.

Lemma final_fields type : numbered type ->
  local_procs final_state type = local_of type (space_start (ToRealmKind type) here) /\
  all_procs final_state type = concat (spaces_of (ToRealmKind type)) /\
  all_procs_by_address_space final_state type = spaces_state (ToRealmKind type).
Proof.
  intros Hn. apply elem_of_cons in Hn as [->|Hn]; [done|].
  apply elem_of_cons in Hn as [->|Hn]; [done|].
  by apply list_elem_of_singleton in Hn as ->.
Qed.

(** A processor of an address space is where its position there says. *)
Lemma all_procs_lookup k a j p : 0 <= a < rm_spaces ->
  sort_procs (in_space a (rm_query k)) !! j = Some p ->
  vec_get (concat (spaces_of k)) (space_start k a + Z.of_nat j) = Ret p.
Proof.
  intros Ha Hp. unfold space_start.
  pose proof (concat_lookup _ _ _ _ _ (spaces_of_lookup k a Ha) Hp) as Hc.
  rewrite <- Nat2Z.inj_add. by apply vec_get_lookup.
Qed.

Lemma concat_spaces_Permutation k : concat (spaces_of k) ≡ₚ rm_query k.
Proof.
  assert (Hn : forall n, concat ((fun a => sort_procs (in_space a (rm_query k))) <$>
                                 seqZ 0 (Z.of_nat n)) ≡ₚ
                         filter (fun p => rm_space p < Z.of_nat n) (rm_query k)).
  { pose proof (rm_query_space k) as Hq. revert Hq. generalize (rm_query k) as l. intros l Hq.
    induction n as [|n IH].
    - rewrite filter_none; [done|]. intros x Hx%Hq. lia.
    - rewrite Nat2Z.inj_succ, <- Z.add_1_r, seqZ_app, fmap_app, concat_app, IH by lia.
      rewrite Z.add_0_l, (seqZ_cons _ 1) by lia. change (Z.pred 1) with 0.
      rewrite fmap_cons. cbn [concat]. change (seqZ _ 0) with (@nil Z).
      rewrite app_nil_r, sort_procs_Permutation. clear IH Hq.
      induction l as [|x l IHl]; [done|]. unfold in_space in *. rewrite !filter_cons.
      repeat case_decide; try lia; cbn; rewrite <- IHl; try done.
      by rewrite Permutation_middle. }
  specialize (Hn (Z.to_nat rm_spaces)). pose proof rm_here.
  rewrite Z2Nat.id in Hn by lia. unfold spaces_of. rewrite Hn.
  rewrite filter_all; [done|]. intros x Hx%rm_query_space. lia.
Qed.
End Final.

Lemma RemoteProc_typed (st : ProcState) g type :
  RemoteProc st g (Some type) = vec_get (all_procs st type) g.
Proof. done. Qed.

(** ** Properties *)

(** C22: [Init] succeeds, and for every type the local processors get local ids
    0, 1, ... and global ids under which the table of all processors finds the
    same Realm processor; the table lists every processor of the machine once,
    and the default type is the last one with a local processor. *)
Theorem processor_numbering `{M : RealmMachine} (here : Z) `{!MachineLaws M here} :
  exists st, Init initial_state = Ret st /\
    (forall type, numbered type ->
       all_procs st type ≡ₚ rm_query (ToRealmKind type) /\
       length (local_procs st type) = size (rm_local (ToRealmKind type)) /\
       forall i p, local_procs st type !! i = Some p ->
         type_ p = type /\ local_id_ p = Z.of_nat i /\
         proc_ p ∈ rm_local (ToRealmKind type) /\
         RemoteProc st (global_id_ p) (Some type) = Ret (proc_ p)) /\
    default_proc_type st =
      (if decide (local_procs st GPU <> []) then GPU
       else if decide (local_procs st CPU <> []) then CPU
       else if decide (local_procs st UTIL <> []) then UTIL else CPU).
Proof.
  exists (final_state here). split; [by apply Init_ok|]. split.
  - intros type Ht. destruct (final_fields here type Ht) as (Hl & Ha & _).
    rewrite Hl, Ha. split; [by apply (concat_spaces_Permutation here)|]. unfold local_of. split.
    + rewrite number_local_length, sort_procs_Permutation. done.
    + intros i p Hp.
      assert (Hlt : (i < length (sort_procs (elements (rm_local (ToRealmKind type)))))%nat).
      { apply lookup_lt_Some in Hp. by rewrite number_local_length in Hp. }
      destruct (lookup_lt_is_Some_2 _ _ Hlt) as [q Hq].
      rewrite (number_local_lookup _ _ _ _ _ _ Hq) in Hp. injection Hp as <-. cbn.
      split; [done|]. split; [done|]. split.
      * apply list_elem_of_lookup_2 in Hq. rewrite sort_procs_Permutation in Hq.
        by apply elem_of_elements.
      * rewrite RemoteProc_typed, Ha.
        apply all_procs_lookup; [apply rm_here|]. by rewrite <- (local_sorted here).
  - unfold final_state, type_state. cbn.
    destruct (local_of GPU _) as [|g gs], (local_of CPU _) as [|c cs], (local_of UTIL _) as [|u us];
      reflexivity.
Qed.

(** The numbering is the same in every process: two views of the machine
    that agree on the address spaces and list the same processors, in any order,
    give the same table of all processors, whichever processors are local. *)
Theorem numbering_consistent (M1 M2 : RealmMachine) (here1 here2 : Z)
    (L1 : MachineLaws M1 here1) (L2 : MachineLaws M2 here2)
    (Hspaces : @rm_spaces M1 = @rm_spaces M2)
    (Hspace : forall p, @rm_space M1 p = @rm_space M2 p)
    (Hquery : forall k, @rm_query M1 k ≡ₚ @rm_query M2 k) :
  exists st1 st2, Init (M := M1) initial_state = Ret st1 /\
    Init (M := M2) initial_state = Ret st2 /\
    forall type g, numbered type ->
      RemoteProc st1 g (Some type) = RemoteProc st2 g (Some type).
Proof.
  exists (@final_state M1 here1), (@final_state M2 here2).
  split; [by apply Init_ok|]. split; [by apply Init_ok|]. intros type g Ht.
  rewrite !RemoteProc_typed.
  destruct (@final_fields M1 here1 type Ht) as (_ & -> & _).
  destruct (@final_fields M2 here2 type Ht) as (_ & -> & _).
  f_equal. f_equal. unfold spaces_of. rewrite Hspaces. apply list_fmap_ext. intros _ a _.
  apply sort_procs_unique. unfold in_space. rewrite Hquery.
  apply reflexive_eq. apply list_filter_iff. intros p. by rewrite Hspace.
Qed.

(** The host attached to a processor is a CPU of the same address space when
    that address space has one; when it has none the access is out of range. *)
Theorem attached_host `{M : RealmMachine} (here : Z) `{!MachineLaws M here}
    (st : ProcState) (type : ProcType) (g : Z) (d : RealmProc)
    (Hst : Init initial_state = Ret st) (Hg : i64 g) (Htype : numbered type)
    (Hd : RemoteProc st g (Some type) = Ret d) :
  (in_space (rm_space d) (rm_query LOC_PROC) <> [] ->
     exists h, GetAttachedHost st g (Some type) = Ret h /\
       h ∈ rm_query LOC_PROC /\ rm_space h = rm_space d) /\
  (in_space (rm_space d) (rm_query LOC_PROC) = [] ->
     GetAttachedHost st g (Some type) = Undef OutOfRange).
Proof.
  rewrite (Init_ok here) in Hst. injection Hst as <-. fold (final_state here) in *.
  unfold GetAttachedHost. rewrite Hd. cbn [mbind outcome_bind].
  destruct (final_fields here type Htype) as (_ & Ha & _).
  destruct (final_fields here CPU) as (_ & _ & Hs); [by apply (bool_decide_unpack _)|].
  assert (Hdq : d ∈ rm_query (ToRealmKind type)).
  { rewrite RemoteProc_typed, Ha in Hd. unfold vec_get in Hd.
    destruct (decide _) as [_|]; [|done].
    destruct (concat _ !! _) as [d'|] eqn:E; [|done]. injection Hd as ->.
    rewrite <- (concat_spaces_Permutation here). by eapply list_elem_of_lookup_2. }
  pose proof (rm_query_space _ _ Hdq) as Hsp.
  destruct (bool_decide_reflect (rm_kind d = LOC_PROC)) as [Hk|Hk].
  - rewrite (rm_query_kind _ _ Hdq) in Hk. rewrite Hk in Hdq.
    assert (d ∈ in_space (rm_space d) (rm_query LOC_PROC)) by by apply list_elem_of_filter.
    split; [by exists d|]. intros Hn. rewrite Hn in *. set_solver.
  - rewrite Hs, (vec_get_ok _ _ _ (proj1 Hsp) (spaces_state_lookup _ _ Hsp)).
    cbn [mbind outcome_bind global_device_id_start global_device_id_stop processors].
    change (ToRealmKind CPU) with LOC_PROC in *.
    set (start := space_start LOC_PROC (rm_space d)).
    assert (Hlen : space_start LOC_PROC (rm_space d + 1) =
      start + Z.of_nat (length (sort_procs (in_space (rm_space d) (rm_query LOC_PROC))))).
    { unfold start, space_start. rewrite Z2Nat.inj_add, Nat.add_1_r by lia.
      rewrite (take_S_r _ _ _ (spaces_of_lookup _ _ Hsp)), concat_app, length_app. cbn.
      rewrite app_nil_r. lia. }
    rewrite Hlen.
    assert (Hin : forall i h, 0 <= i -> sort_procs (in_space (rm_space d) (rm_query LOC_PROC))
        !! Z.to_nat i = Some h -> h ∈ rm_query LOC_PROC /\ rm_space h = rm_space d).
    { intros i h Hi Hh. apply list_elem_of_lookup_2 in Hh.
      rewrite sort_procs_Permutation in Hh. by apply list_elem_of_filter in Hh as [? ?]. }
    set (hs := sort_procs (in_space (rm_space d) (rm_query LOC_PROC))) in *.
    split; intros Hc.
    + assert (Hpos : (0 < length hs)%nat).
      { unfold hs. rewrite sort_procs_Permutation. destruct (in_space _ _); [done|cbn; lia]. }
      destruct (Z.leb_spec start g), (Z.ltb_spec g (start + Z.of_nat (length hs)));
        cbn [andb]; [|destruct (lookup_lt_is_Some_2 hs 0 Hpos) as [h Hh];
          exists h; split; [by apply vec_get_ok|by apply (Hin 0)]..].
      destruct (lookup_lt_is_Some_2 hs (Z.to_nat (g - start)) ltac:(lia)) as [h Hh].
      exists h. assert (i64 (g - start)).
      { unfold i64 in *. assert (0 <= start) by (unfold start, space_start; lia). lia. }
      rewrite sub64_ok by done. split; [by apply vec_get_ok; [lia|]|by apply (Hin (g - start)); [lia|]].
    + assert (Hnil : hs = []) by (unfold hs; by rewrite Hc).
      rewrite Hnil. cbn [length]. rewrite Z.add_0_r.
      destruct (Z.leb_spec start g), (Z.ltb_spec g start); cbn [andb]; try done; lia.
Qed.

(** A lookup by local id returns that local processor, or throws when there
    is none, for negative ids too; without an id it dereferences an empty
    optional. *)
Theorem processor_by_local_id (st : ProcState) (type : ProcType) (l : Z) (g : option Z)
    (Htype : type <> TEST) (Hlen : Z.of_nat (length (local_procs st type)) <= i64_max)
    (Hl : i64 l) :
  (forall p, 0 <= l -> local_procs st type !! Z.to_nat l = Some p ->
     Processor_Create st (mkDeviceId (Some l) g) (Some type) = Ret p) /\
  (l < 0 \/ Z.of_nat (length (local_procs st type)) <= l ->
     exists msg, Processor_Create st (mkDeviceId (Some l) g) (Some type) = Throw (RuntimeError msg)) /\
  Processor_Create st (mkDeviceId None None) (Some type) = Undef NullOptional.
Proof.
  assert (Hc : forall id, Processor_Create st id (Some type) = GetProc st id type)
    by (intros; by destruct type).
  rewrite !Hc. unfold GetProc, GetProcsForType. cbn [id_local id_global mbind outcome_bind mret outcome_ret].
  split_and!; [| |done].
  - intros p Hl0 Hp. pose proof (lookup_lt_Some _ _ _ Hp). unfold to_u64. unfold i64 in Hl.
    rewrite Z.mod_small by lia. rewrite (proj2 (Z.leb_gt _ _)) by lia. by apply vec_get_ok.
  - intros Hr. unfold to_u64. unfold i64 in Hl. rewrite (proj2 (Z.leb_le _ _)); [by eexists|].
    destruct (decide (0 <= l)); [rewrite Z.mod_small; lia|].
    rewrite <- (Z.mod_add l 1), Z.mod_small by lia. lia.
Qed.

(** Two address spaces: CPUs 10, 11 | 20, 21, GPUs 30 | 31, 32 and a utility
    processor each; the queries are not sorted, and every process may see them
    in its own order. *)
Definition example_space (p : RealmProc) : Z := if bool_decide (p ∈ [1; 10; 11; 30]) then 0 else 1.

Definition example_query (rev : bool) (k : RealmKind) : list RealmProc :=
  let l := match k with
           | LOC_PROC => [21; 10; 20; 11] | TOC_PROC => [32; 30; 31]
           | UTIL_PROC => [2; 1] | NO_KIND => [] end in
  if rev then reverse l else l.

Definition example_view (here : Z) (rev : bool) : RealmMachine := {|
  rm_kind p := if bool_decide (p ∈ [10; 11; 20; 21]) then LOC_PROC
               else if bool_decide (p ∈ [30; 31; 32]) then TOC_PROC else UTIL_PROC;
  rm_space := example_space;
  rm_spaces := 2;
  rm_query := example_query rev;
  rm_local k := list_to_set (filter (fun p => example_space p = here) (example_query rev k));
|}.

Lemma example_view_laws here rev : 0 <= here < 2 -> MachineLaws (example_view here rev) here.
Proof.
  intros Hh. split.
  - destruct rev; intros []; by apply (bool_decide_unpack _).
  - intros k p _. cbn. unfold example_space. destruct (bool_decide _); lia.
  - destruct rev; intros [] p Hp; cbn in Hp; rewrite ?elem_of_cons, ?elem_of_nil in Hp;
      destruct_or?; subst; done.
  - done.
  - done.
Qed.

#[export] Instance example_machine : RealmMachine := example_view 1 false.
#[export] Instance example_machine_laws : MachineLaws example_machine 1.
Proof. by apply example_view_laws. Qed.

Definition example_state : ProcState := final_state 1.

Lemma processor_numbering_witness :
  exists st, Init initial_state = Ret st /\ all_procs st GPU ≡ₚ [32; 30; 31] /\
    default_proc_type st = GPU.
Proof.
  destruct (processor_numbering 1) as (st & E & Hn & Hd).
  exists st. split; [exact E|]. destruct (Hn GPU ltac:(by apply (bool_decide_unpack _))) as [Hp _].
  split; [exact Hp|]. vm_compute in E. injection E as <-. reflexivity.
Defined.

Lemma attached_host_witness :
  exists h, GetAttachedHost example_state 2 (Some GPU) = Ret h /\
    h ∈ rm_query LOC_PROC /\ rm_space h = 1.
Proof.
  destruct (attached_host 1 example_state GPU 2 32) as [H _];
    [apply (Init_ok 1)|done|by apply (bool_decide_unpack _)|done|].
  by apply H.
Defined.

Lemma processor_by_local_id_witness :
  Processor_Create example_state (mkDeviceId (Some 1) None) (Some GPU) = Ret (mkProc GPU 1 2 32) /\
  exists msg, Processor_Create example_state (mkDeviceId (Some 2) None) (Some GPU)
              = Throw (RuntimeError msg).
Proof.
  split.
  - apply (processor_by_local_id example_state GPU 1 None); try done; by apply (bool_decide_unpack _).
  - apply (processor_by_local_id example_state GPU 2 None); try done; try by apply (bool_decide_unpack _).
Defined.

Lemma numbering_consistent_witness :
  exists st1 st2, Init (M := example_view 0 true) initial_state = Ret st1 /\
    Init (M := example_view 1 false) initial_state = Ret st2 /\
    RemoteProc st1 2 (Some GPU) = RemoteProc st2 2 (Some GPU).
Proof.
  destruct (numbering_consistent (example_view 0 true) (example_view 1 false) 0 1)
    as (st1 & st2 & E1 & E2 & H); try done; try by apply example_view_laws.
  { intros []; by apply (bool_decide_unpack _). }
  exists st1, st2. split; [exact E1|]. split; [exact E2|].
  apply H. by apply (bool_decide_unpack _).
Defined.

(** [Processor::Create] with a global id uses it as a local index: on the
    example machine the local processor with global id 2 cannot be looked up by
    it, and global id 0, which is remote, returns the local processor 2. *)
Theorem create_by_global_id_is_local :
  exists st, Init initial_state = Ret st /\
    mkProc CPU 0 2 20 ∈ local_procs st CPU /\
    (exists msg, Processor_Create st (mkDeviceId None (Some 2)) (Some CPU)
                 = Throw (RuntimeError msg)) /\
    RemoteProc st 0 (Some CPU) = Ret 10 /\
    Processor_Create st (mkDeviceId None (Some 0)) (Some CPU) = Ret (mkProc CPU 0 2 20).
Proof.
  exists example_state. split_and!; [apply (Init_ok 1)|by apply (bool_decide_unpack _)|..];
    [by eexists|done|done].
Qed.
