(* ===== verification/TileIndex.v ===== *)
(** Shard numbering (src/zuku/tiled_array.cc): [ComputeTileIndex] turns a shard
    number into the index of its tile along every dimension, honouring the
    permutation; [ComputeTileShard] turns an index into a shard number.
    [tile_index] and [owner] are the mathematical specification, by
    mixed-radix digits in permutation order. *)
From stdpp Require Import base tactics list list_numbers numbers option sets gmap.
From Stdlib Require Import ZArith Lia.
From S2P Require Import Prelude MixedRadix Mesh Shape.
Import ShardingOps.
Open Scope Z_scope.

(** [index = (index * sharding.dims[dim].sharding) + indices[dim]]. *)
Definition shard_step (indices : list Z) (s : Sharding) (index dim : Z) : outcome Z :=
  d ← vec_get (dims s) dim;
  t ← mul64 index (sd_sharding d);
  x ← vec_get indices dim;
  add64 t x.

Definition ComputeTileShard (indices : list Z) (s : Sharding) : outcome Z :=
  match indices with
  | [] => mret 0
  | i0 :: _ => foldM (shard_step indices s) i0 (seqZ 1 (Z.of_nat (length indices) - 1))
  end.

(** The first loop: the sharding of the dimension with each permutation value,
    and its position. *)
Definition unpermute (l : list ShardingDim) : outcome (list Z * list Z * Z) :=
  foldM (fun '(shard_extents, permutation, p_dim) dim =>
           shard_extents' ← vec_set shard_extents (sd_permutation dim) (sd_sharding dim);
           permutation' ← vec_set permutation (sd_permutation dim) p_dim;
           mret (shard_extents', permutation', p_dim + 1))
        (replicate (length l) 0, replicate (length l) 0, 0) l.

(** The last loop: peel one digit per extent, most significant first. *)
Definition index_step (shard_extents permutation : list Z)
    (st : list Z * Z * Z) (dim : Z) : outcome (list Z * Z * Z) :=
  let '(indices, remainder, dim_stride) := st in
  e ← vec_get shard_extents dim;
  dim_stride' ← div64 dim_stride e;
  dim_index ← div64 remainder dim_stride';
  p ← vec_get permutation dim;
  indices' ← vec_set indices p dim_index;
  t ← mul64 dim_index dim_stride';
  remainder' ← sub64 remainder t;
  mret (indices', remainder', dim_stride').

Definition ComputeTileIndex (index : Z) (s : Sharding) : outcome (list Z) :=
  '(shard_extents, permutation, _) ← unpermute (dims s);
  dim_stride ← foldM mul64 1 shard_extents;
  '(indices, _, _) ← foldM (index_step shard_extents permutation)
                           (replicate (length (dims s)) 0, index, dim_stride)
                           (seqZ 0 (Z.of_nat (length shard_extents)));
  mret indices.

(** ** Specification *)

(** The position of the dimension with permutation value [k]. *)
Definition pos_at (l : list ShardingDim) (k : Z) : nat :=
  match list_find (fun d => sd_permutation d = k) l with
  | Some (j, _) => j
  | None => O
  end.

Definition extents (l : list ShardingDim) : list Z :=
  (fun k => from_option sd_sharding 1 (l !! pos_at l k)) <$> seqZ 0 (Z.of_nat (length l)).

Definition tile_index (s : Sharding) (i : Z) : list Z :=
  (fun d => digits (extents (dims s)) i !!! Z.to_nat (sd_permutation d)) <$> dims s.

(** An index has one coordinate per dimension, below that dimension's sharding. *)
Definition valid_index (s : Sharding) (idx : list Z) : Prop :=
  Forall2 (fun d x => 0 <= x < sd_sharding d) (dims s) idx.

(** The shard that owns an index. *)
Definition owner (s : Sharding) (idx : list Z) : Z :=
  encode (extents (dims s))
    ((fun k => idx !!! pos_at (dims s) k) <$> seqZ 0 (Z.of_nat (length (dims s)))).

(** The identity permutation. *)
Definition unpermuted (s : Sharding) : Prop :=
  sd_permutation <$> dims s = seqZ 0 (Z.of_nat (length (dims s))).

#[export] Instance unpermuted_dec s : Decision (unpermuted s).
Proof. unfold unpermuted. apply _. Defined.
#[export] Instance valid_index_dec s idx : Decision (valid_index s idx).
Proof. unfold valid_index. apply _. Defined.

(** ** Permutations *)
Section Perm.
Context (l : list ShardingDim) (Hp : wf_perm l).

Lemma perm_range j d : l !! j = Some d -> 0 <= sd_permutation d < Z.of_nat (length l).
Proof.
  intros H. destruct Hp as [_ Hf]. rewrite Forall_forall in Hf.
  apply Hf. by eapply list_elem_of_lookup_2.
Qed.

Lemma perm_inj j j' d d' :
  l !! j = Some d -> l !! j' = Some d' -> sd_permutation d = sd_permutation d' -> j = j'.
Proof.
  intros H H' E. destruct Hp as [Hn _]. eapply NoDup_lookup; [exact Hn| |].
  - by rewrite list_lookup_fmap, H.
  - rewrite list_lookup_fmap, H'. cbn. by rewrite E.
Qed.

Lemma pos_at_perm j d : l !! j = Some d -> pos_at l (sd_permutation d) = j.
Proof.
  intros H. unfold pos_at.
  destruct (list_find _ l) as [[j' d']|] eqn:E.
  - apply list_find_Some in E as (H' & Heq & _). by eapply perm_inj.
  - apply list_find_None in E. rewrite Forall_forall in E.
    destruct (E d); [by eapply list_elem_of_lookup_2|done].
Qed.

(** Every value below the rank is the permutation of some dimension. *)
Lemma perm_Permutation : sd_permutation <$> l ≡ₚ seqZ 0 (Z.of_nat (length l)).
Proof.
  destruct Hp as [Hn Hf]. apply submseteq_length_Permutation.
  - apply NoDup_submseteq; [done|]. intros x (d & -> & Hd)%list_elem_of_fmap.
    rewrite Forall_forall in Hf. apply elem_of_seqZ. specialize (Hf d Hd). lia.
  - rewrite length_seqZ, length_fmap. lia.
Qed.

Lemma pos_at_lookup k : 0 <= k < Z.of_nat (length l) ->
  exists d, l !! pos_at l k = Some d /\ sd_permutation d = k.
Proof.
  intros Hk. assert (Hin : k ∈ sd_permutation <$> l).
  { rewrite perm_Permutation. apply elem_of_seqZ. lia. }
  apply list_elem_of_fmap in Hin as (d & -> & Hd).
  apply list_elem_of_lookup_1 in Hd as [j Hj]. exists d.
  by rewrite (pos_at_perm j d Hj).
Qed.

Lemma extents_length : length (extents l) = length l.
Proof. unfold extents. rewrite length_fmap, length_seqZ. lia. Qed.

Lemma extents_lookup j d :
  l !! j = Some d -> extents l !! Z.to_nat (sd_permutation d) = Some (sd_sharding d).
Proof.
  intros H. pose proof (perm_range j d H). unfold extents.
  rewrite list_lookup_fmap, lookup_seqZ_lt by lia. cbn.
  by rewrite Z.add_0_l, Z2Nat.id, (pos_at_perm j d H), H by lia.
Qed.

Lemma extents_Permutation : extents l ≡ₚ sd_sharding <$> l.
Proof.
  unfold extents. rewrite <- perm_Permutation, <- list_fmap_compose.
  erewrite list_fmap_ext; [reflexivity|]. intros j d H. cbn.
  by rewrite (pos_at_perm j d H), H.
Qed.

Lemma extents_prod : prodZ (extents l) = prodZ (sd_sharding <$> l).
Proof. apply prodZ_Permutation, extents_Permutation. Qed.

Lemma extents_pos : (forall d, d ∈ l -> 1 <= sd_sharding d) -> Forall (Z.le 1) (extents l).
Proof.
  intros H. rewrite extents_Permutation. apply Forall_fmap, Forall_forall. done.
Qed.
End Perm.

(** ** Refinement: the loops compute the specification *)

Lemma unpermute_ok l : wf_perm l ->
  exists pm n, unpermute l = Ret (extents l, pm, n) /\ length pm = length l /\
    forall j d, l !! j = Some d -> pm !! Z.to_nat (sd_permutation d) = Some (Z.of_nat j).
Proof.
  intros Hp. unfold unpermute.
  edestruct (foldM_inv
    (fun '(shard_extents, permutation, p_dim) dim =>
       shard_extents' ← vec_set shard_extents (sd_permutation dim) (sd_sharding dim);
       permutation' ← vec_set permutation (sd_permutation dim) p_dim;
       mret (shard_extents', permutation', p_dim + 1))
    (fun done '(se, pm, p) =>
       length se = length l /\ length pm = length l /\ p = Z.of_nat (length done) /\
       forall j d, done !! j = Some d ->
         se !! Z.to_nat (sd_permutation d) = Some (sd_sharding d) /\
         pm !! Z.to_nat (sd_permutation d) = Some (Z.of_nat j)))
    as ([[se pm] p] & E & Hse & Hpm & -> & Hall); [| |rewrite E].
  { cbv beta iota. by rewrite !length_replicate. }
  { intros dn x rest [[se pm] p] Heq (Hse & Hpm & -> & Hall).
    assert (Hx : l !! length dn = Some x) by (rewrite Heq; by apply list_lookup_middle).
    pose proof (perm_range l Hp _ _ Hx) as Hr. cbn [mbind outcome_bind].
    rewrite !vec_set_ok by lia. cbn [mbind outcome_bind].
    eexists; split; [reflexivity|]. cbv beta iota. rewrite !length_insert, length_app.
    cbn [length]. split_and!; [done|done|lia|]. intros j d Hj.
    destruct (decide (j = length dn)) as [->|Hne].
    - rewrite list_lookup_middle in Hj by done. injection Hj as <-.
      by rewrite !list_lookup_insert_eq by lia.
    - assert (Hj' : dn !! j = Some d).
      { apply lookup_app_Some in Hj as [?|[Hge Hj]]; [done|].
        apply list_lookup_singleton_Some in Hj as [? _]. lia. }
      assert (Hld : l !! j = Some d) by (rewrite Heq; by apply lookup_app_l_Some).
      assert (sd_permutation d <> sd_permutation x)
        by (intros Hc; apply Hne; by eapply perm_inj).
      pose proof (perm_range l Hp _ _ Hld).
      rewrite !list_lookup_insert_ne by lia. by apply Hall. }
  exists pm, (Z.of_nat (length l)). split_and!; [|done|intros; by apply Hall].
  do 3 f_equal. apply list_eq_same_length with (length l); [|done|].
  { by apply extents_length. }
  intros k a b Hk Ha Hb.
  destruct (pos_at_lookup l Hp (Z.of_nat k) ltac:(lia)) as (d & Hd & Hdk).
  pose proof (extents_lookup l Hp _ _ Hd) as H1. destruct (Hall _ _ Hd) as [H2 _].
  rewrite Hdk, Nat2Z.id in H1, H2. congruence.
Qed.

Section Refinement.
Context (s : Sharding) (Hwf : wf s).

Lemma wf_permutation : wf_perm (dims s).
Proof. apply Hwf. Qed.

Lemma extents_prod_devices : prodZ (extents (dims s)) = num_devices_ (devices s).
Proof. rewrite extents_prod by apply wf_permutation. apply Hwf. Qed.

Lemma extents_ge1 : Forall (Z.le 1) (extents (dims s)).
Proof. apply extents_pos; [apply wf_permutation|]. by apply wf_sharding_pos. Qed.

Lemma extents_drop_pos k : 1 <= prodZ (drop k (extents (dims s))) <= i64_max.
Proof.
  pose proof extents_ge1 as H. pose proof (num_devices_i64 s Hwf) as Hn.
  rewrite <- extents_prod_devices, <- (take_drop k (extents (dims s))), prodZ_app in Hn.
  rewrite <- (take_drop k (extents (dims s))) in H. apply Forall_app in H as [Ht Hd].
  apply prodZ_pos in Ht, Hd. nia.
Qed.

(** One iteration of the digit loop, on the dimension with permutation [k]. *)
Lemma index_step_ok pm indices i k j d :
  let es := extents (dims s) in
  0 <= i < prodZ es ->
  dims s !! j = Some d -> sd_permutation d = Z.of_nat k ->
  pm !! k = Some (Z.of_nat j) -> length indices = length (dims s) ->
  index_step es pm (indices, i mod prodZ (drop k es), prodZ (drop k es)) (Z.of_nat k) =
  Ret (<[j := digits es i !!! k]> indices, i mod prodZ (drop (S k) es),
       prodZ (drop (S k) es)).
Proof.
  intros es Hi Hd Hk Hpm Hlen.
  pose proof (extents_lookup _ wf_permutation _ _ Hd) as He. rewrite Hk, Nat2Z.id in He.
  pose proof (extents_drop_pos k) as Hdk. pose proof (extents_drop_pos (S k)) as HdS.
  fold es in He, Hdk, HdS.
  assert (Hsh : 1 <= sd_sharding d) by (eapply wf_sharding_pos, list_elem_of_lookup_2; done).
  rewrite (drop_S es (sd_sharding d) k He), prodZ_cons in Hdk |- *.
  set (p := prodZ (drop (S k) es)) in *. unfold index_step.
  rewrite (vec_get_lookup es k _ He). cbn [mbind outcome_bind].
  rewrite div64_ok by (unfold i64; lia). cbn [mbind outcome_bind].
  rewrite (Z.mul_comm (sd_sharding d) p), Z.div_mul, (Z.mul_comm p) by lia.
  pose proof (Z.mod_pos_bound i (sd_sharding d * p) ltac:(lia)).
  rewrite div64_ok by (unfold i64; lia). cbn [mbind outcome_bind].
  destruct (digit_step i (sd_sharding d) p Hsh ltac:(lia)) as [H1 H2]. rewrite H1.
  rewrite (vec_get_lookup pm k _ Hpm). cbn [mbind outcome_bind].
  apply lookup_lt_Some in Hd as Hj.
  rewrite vec_set_ok by lia. cbn [mbind outcome_bind].
  pose proof (Z.mod_pos_bound (i / p) (sd_sharding d) ltac:(lia)).
  rewrite mul64_ok by (unfold i64; nia). cbn [mbind outcome_bind].
  pose proof (Z.mod_pos_bound i p ltac:(lia)).
  rewrite sub64_ok by (rewrite H2; unfold i64; lia). cbn [mbind outcome_bind].
  rewrite H2, Nat2Z.id. do 4 f_equal. symmetry. apply list_lookup_total_correct.
  by apply digits_lookup.
Qed.

Lemma ComputeTileIndex_ok i :
  0 <= i < num_devices_ (devices s) -> ComputeTileIndex i s = Ret (tile_index s i).
Proof.
  intros Hi. rewrite <- extents_prod_devices in Hi.
  pose proof wf_permutation as Hp. unfold ComputeTileIndex.
  destruct (unpermute_ok (dims s) Hp) as (pm & n & -> & Hpm & Hlk).
  cbn [mbind outcome_bind]. set (es := extents (dims s)) in *.
  pose proof (extents_drop_pos 0) as H0. rewrite drop_0 in H0. fold es in H0.
  rewrite foldM_mul64; [|lia|apply extents_ge1|unfold i64; fold es; lia].
  cbn [mbind outcome_bind]. rewrite Z.mul_1_l.
  destruct (foldM_range (index_step es pm)
    (fun k '(indices, rem, stride) =>
       length indices = length (dims s) /\
       rem = i mod prodZ (drop k es) /\ stride = prodZ (drop k es) /\
       forall j d, dims s !! j = Some d -> sd_permutation d < Z.of_nat k ->
         indices !! j = Some (digits es i !!! Z.to_nat (sd_permutation d)))
    0 (length es) (replicate (length (dims s)) 0, i, prodZ es))
    as ([[indices rem] stride] & E & Hlen & _ & _ & Hall).
  - cbv beta iota. rewrite length_replicate, drop_0, Z.mod_small by done.
    split_and!; [done..|]. intros j d Hd. pose proof (perm_range _ Hp _ _ Hd). lia.
  - intros k [[indices rem] stride] Hk (Hlen & -> & -> & Hall).
    unfold es in Hk. rewrite extents_length in Hk. rewrite Z.add_0_l.
    destruct (pos_at_lookup _ Hp (Z.of_nat k) ltac:(lia)) as (d & Hd & Hdk).
    pose proof (Hlk _ _ Hd) as Hpk. rewrite Hdk, Nat2Z.id in Hpk.
    eexists; split; [by apply (index_step_ok pm indices i k (pos_at (dims s) (Z.of_nat k)) d)|].
    cbv beta iota. rewrite length_insert. split_and!; [done..|].
    intros j d' Hd' Hlt. destruct (decide (j = pos_at (dims s) (Z.of_nat k))) as [->|Hne].
    + rewrite Hd in Hd'. injection Hd' as <-. rewrite Hdk, Nat2Z.id.
      apply list_lookup_insert_eq. rewrite Hlen. by apply lookup_lt_Some in Hd.
    + rewrite list_lookup_insert_ne by done. apply Hall; [done|].
      assert (sd_permutation d' <> Z.of_nat k); [|lia].
      intros Hc. apply Hne. rewrite <- Hc. symmetry. by apply pos_at_perm.
  - rewrite E. cbn [mbind outcome_bind]. unfold mret, outcome_ret. f_equal.
    apply list_eq_same_length with (length (dims s)); [|done|].
    { unfold tile_index. by rewrite length_fmap. }
    intros j a b Hj Ha Hb. unfold tile_index in Hb. rewrite list_lookup_fmap in Hb.
    destruct (dims s !! j) as [d|] eqn:Hd; [|done]. injection Hb as <-.
    pose proof (perm_range _ Hp _ _ Hd). unfold es in Hall.
    rewrite (Hall j d Hd) in Ha by (rewrite extents_length; lia). congruence.
Qed.

(** *** The specification is a bijection between shards and valid indices *)

Lemma tile_index_length i : length (tile_index s i) = length (dims s).
Proof. unfold tile_index. apply length_fmap. Qed.

Lemma tile_index_lookup i j d : dims s !! j = Some d ->
  tile_index s i !! j =
  Some (digits (extents (dims s)) i !!! Z.to_nat (sd_permutation d)).
Proof. intros H. unfold tile_index. by rewrite list_lookup_fmap, H. Qed.

Lemma tile_index_valid i : valid_index s (tile_index s i).
Proof.
  apply Forall2_same_length_lookup_2; [by rewrite tile_index_length|].
  intros j d x Hd Hx. rewrite (tile_index_lookup i j d Hd) in Hx. injection Hx as <-.
  pose proof (extents_lookup _ wf_permutation _ _ Hd) as He.
  pose proof (digits_lookup _ i _ _ He) as Hg.
  rewrite (list_lookup_total_correct _ _ _ Hg). apply Z.mod_pos_bound.
  assert (1 <= sd_sharding d); [|lia].
  eapply wf_sharding_pos; [done|]. by eapply list_elem_of_lookup_2.
Qed.

Lemma permuted_index_digits idx : valid_index s idx ->
  is_digits (extents (dims s))
    ((fun k => idx !!! pos_at (dims s) k) <$> seqZ 0 (Z.of_nat (length (dims s)))).
Proof.
  intros Hv. unfold extents. apply Forall2_fmap_l, Forall2_fmap_r, Forall_Forall2_diag.
  apply Forall_forall. intros k Hk%elem_of_seqZ.
  destruct (pos_at_lookup _ wf_permutation k ltac:(lia)) as (d & Hd & _).
  unfold compose. rewrite Hd. cbn. destruct (Forall2_lookup_l _ _ _ _ _ Hv Hd) as (x & Hx & Hb).
  by rewrite (list_lookup_total_correct _ _ _ Hx).
Qed.

Lemma owner_range idx : valid_index s idx -> 0 <= owner s idx < num_devices_ (devices s).
Proof.
  intros Hv. rewrite <- extents_prod_devices. by apply encode_range, permuted_index_digits.
Qed.

Lemma tile_index_owner idx : valid_index s idx -> tile_index s (owner s idx) = idx.
Proof.
  intros Hv. pose proof (permuted_index_digits idx Hv) as Hd. unfold tile_index, owner.
  rewrite (digits_encode _ _ Hd). apply list_eq_same_length with (length (dims s)).
  - symmetry. by eapply Forall2_length.
  - by rewrite length_fmap.
  - intros j a b Hj Ha Hb. rewrite list_lookup_fmap in Ha.
    destruct (dims s !! j) as [d|] eqn:Hdj; [|done]. injection Ha as <-.
    pose proof (perm_range _ wf_permutation _ _ Hdj).
    rewrite list_lookup_total_alt, list_lookup_fmap, lookup_seqZ_lt by lia. cbn.
    rewrite Z.add_0_l, Z2Nat.id, (pos_at_perm _ wf_permutation _ _ Hdj) by lia.
    by rewrite (list_lookup_total_correct _ _ _ Hb).
Qed.

Lemma owner_tile_index i : 0 <= i < num_devices_ (devices s) -> owner s (tile_index s i) = i.
Proof.
  intros Hi. rewrite <- extents_prod_devices in Hi. unfold owner.
  etransitivity; [|exact (encode_digits_small _ _ extents_ge1 Hi)]. f_equal.
  apply list_eq_same_length with (length (dims s)).
  - by rewrite digits_length, extents_length.
  - rewrite length_fmap, length_seqZ. lia.
  - intros k a b Hk Ha Hb. rewrite list_lookup_fmap, lookup_seqZ_lt in Ha by lia.
    injection Ha as <-.
    destruct (pos_at_lookup _ wf_permutation (Z.of_nat k) ltac:(lia)) as (d & Hd & Hdk).
    rewrite Z.add_0_l.
    rewrite (list_lookup_total_correct _ _ _ (tile_index_lookup i _ d Hd)).
    rewrite Hdk, Nat2Z.id. by apply list_lookup_total_correct.
Qed.

(** *** [ComputeTileShard] is the row-major code of the index *)
Lemma ComputeTileShard_ok idx : valid_index s idx ->
  ComputeTileShard idx s = Ret (encode (sd_sharding <$> dims s) idx).
Proof.
  intros Hv. pose proof (Forall2_length _ _ _ Hv) as Hlen.
  assert (Hdg : is_digits (sd_sharding <$> dims s) idx) by by apply Forall2_fmap_l.
  set (es := sd_sharding <$> dims s) in *.
  pose proof (num_devices_i64 s Hwf) as Hn.
  assert (Hpr : prodZ es = num_devices_ (devices s)) by apply Hwf.
  destruct idx as [|i0 idx'] eqn:Hidx; [inversion Hdg; done|]. rewrite <- Hidx in *.
  unfold ComputeTileShard. rewrite Hidx at 1.
  replace (Z.of_nat (length idx) - 1) with (Z.of_nat (length idx')) by (subst; cbn; lia).
  edestruct (foldM_range (shard_step idx s)
    (fun k acc => acc = encode (take (S k) es) (take (S k) idx)) 1 (length idx') i0)
    as (r & -> & ->).
  - subst idx. inversion Hdg as [|e ? es' ? He Hr Hes]. cbn. destruct es'; cbn; lia.
  - intros k acc Hk ->.
    destruct (lookup_lt_is_Some_2 (dims s) (S k)) as [d Hd]; [subst; cbn in *; lia|].
    destruct (Forall2_lookup_l _ _ _ _ _ Hv Hd) as (x & Hx & Hb).
    replace (1 + Z.of_nat k) with (Z.of_nat (S k)) by lia. unfold shard_step.
    rewrite (vec_get_lookup _ _ _ Hd). cbn [mbind outcome_bind].
    assert (He : es !! S k = Some (sd_sharding d))
      by (unfold es; by rewrite list_lookup_fmap, Hd).
    pose proof (encode_range _ _ (is_digits_take _ _ (S k) Hdg)) as Hr.
    pose proof (encode_range _ _ (is_digits_take _ _ (S (S k)) Hdg)) as Hr'.
    assert (Hle : prodZ (take (S (S k)) es) <= prodZ es).
    { rewrite <- (take_drop (S (S k)) es) at 2. apply prodZ_app_le.
      rewrite take_drop. by eapply is_digits_pos. }
    rewrite (encode_take es idx (S k) _ _ He Hx) in Hr' |- *.
    rewrite mul64_ok by (unfold i64; nia). cbn [mbind outcome_bind].
    rewrite (vec_get_lookup _ _ _ Hx). cbn [mbind outcome_bind].
    rewrite add64_ok by (unfold i64; lia). by eexists.
  - assert (length es = length idx) by (unfold es; by rewrite length_fmap).
    rewrite !take_ge; [done|..]; subst idx; cbn in *; lia.
Qed.

(** Without a permutation the row-major code is the owner. *)
Lemma extents_unpermuted : unpermuted s -> extents (dims s) = sd_sharding <$> dims s.
Proof.
  intros Hu. apply list_eq_same_length with (length (dims s)).
  - by rewrite length_fmap.
  - apply extents_length.
  - intros j a b Hj Ha Hb. rewrite list_lookup_fmap in Hb.
    destruct (dims s !! j) as [d|] eqn:Hd; [|done]. injection Hb as <-.
    assert (Hpd : sd_permutation d = Z.of_nat j).
    { assert (H : (sd_permutation <$> dims s) !! j = Some (sd_permutation d))
        by by rewrite list_lookup_fmap, Hd.
      rewrite Hu in H. apply lookup_seqZ in H. lia. }
    pose proof (extents_lookup _ wf_permutation _ _ Hd) as He.
    rewrite Hpd, Nat2Z.id in He. congruence.
Qed.

Lemma owner_unpermuted idx : unpermuted s -> valid_index s idx ->
  owner s idx = encode (sd_sharding <$> dims s) idx.
Proof.
  intros Hu Hv. unfold owner. rewrite (extents_unpermuted Hu). f_equal.
  pose proof (Forall2_length _ _ _ Hv) as Hlen.
  apply list_eq_same_length with (length (dims s)); [done|rewrite length_fmap, length_seqZ; lia|].
  intros j a b Hj Ha Hb. rewrite list_lookup_fmap, lookup_seqZ_lt in Ha by lia.
  injection Ha as <-. rewrite Z.add_0_l.
  destruct (lookup_lt_is_Some_2 (dims s) j Hj) as [d Hd].
  assert (H : (sd_permutation <$> dims s) !! j = Some (sd_permutation d))
    by by rewrite list_lookup_fmap, Hd.
  rewrite Hu in H. apply lookup_seqZ in H as [Hpd _].
  replace (Z.of_nat j) with (sd_permutation d) by lia.
  rewrite (pos_at_perm _ wf_permutation _ _ Hd). by apply list_lookup_total_correct.
Qed.
End Refinement.

(** ** Properties *)

(** C32: [ComputeTileIndex] is a bijection from the shards of a well-formed
    sharding, whatever its permutation, to the valid tile indices: it returns a
    valid index for every shard, and every valid index comes from exactly one
    shard. *)
Theorem tile_index_bijection (s : Sharding) (Hwf : wf s) :
  (forall i, 0 <= i < num_devices_ (devices s) ->
     exists idx, ComputeTileIndex i s = Ret idx /\ valid_index s idx) /\
  (forall idx, valid_index s idx ->
     exists i, 0 <= i < num_devices_ (devices s) /\ ComputeTileIndex i s = Ret idx /\
       forall j, 0 <= j < num_devices_ (devices s) -> ComputeTileIndex j s = Ret idx -> j = i).
Proof.
  split.
  - intros i Hi. exists (tile_index s i). split; [by apply ComputeTileIndex_ok|].
    by apply tile_index_valid.
  - intros idx Hv. exists (owner s idx). pose proof (owner_range s Hwf idx Hv) as Hr.
    split_and!; [lia|lia| |].
    + rewrite ComputeTileIndex_ok by done. by rewrite tile_index_owner.
    + intros j Hj Heq. rewrite ComputeTileIndex_ok in Heq by done. injection Heq as <-.
      symmetry. by apply owner_tile_index.
Qed.

Lemma tile_index_bijection_witness :
  exists idx, ComputeTileIndex 15 example_sharding = Ret idx /\ idx = [1; 2; 1].
Proof.
  destruct (tile_index_bijection example_sharding example_sharding_wf) as [H _].
  destruct (H 15) as (idx & E & _); [vm_compute; split; congruence|].
  exists idx. split; [exact E|]. vm_compute in E. by injection E as <-.
Defined.

(** C39: without a permutation, [ComputeTileShard] inverts [ComputeTileIndex], in
    both directions, and neither overflows. *)
Theorem tile_shard_roundtrip (s : Sharding) (Hwf : wf s) (Hu : unpermuted s) :
  (forall i, 0 <= i < num_devices_ (devices s) ->
     (idx ← ComputeTileIndex i s; ComputeTileShard idx s) = Ret i) /\
  (forall idx, valid_index s idx ->
     (i ← ComputeTileShard idx s; ComputeTileIndex i s) = Ret idx).
Proof.
  assert (Hown : forall idx, valid_index s idx -> ComputeTileShard idx s = Ret (owner s idx)).
  { intros idx Hv. rewrite ComputeTileShard_ok by done. by rewrite owner_unpermuted. }
  split.
  - intros i Hi. rewrite ComputeTileIndex_ok by done. cbn [mbind outcome_bind].
    rewrite Hown by by apply tile_index_valid. by rewrite owner_tile_index.
  - intros idx Hv. rewrite Hown by done. cbn [mbind outcome_bind].
    rewrite ComputeTileIndex_ok by (done || by apply owner_range).
    by rewrite tile_index_owner.
Qed.

(** The same array without a permutation. *)
Definition example_unpermuted : Sharding :=
  mkSharding [mkDim 8 2 0; mkDim 9 3 1; mkDim 1 4 2] (mkDeviceList 0 24).

Lemma example_unpermuted_wf : wf example_unpermuted.
Proof. by apply (bool_decide_unpack _). Qed.

Lemma tile_shard_roundtrip_witness :
  (idx ← ComputeTileIndex 17 example_unpermuted; ComputeTileShard idx example_unpermuted)
  = Ret 17.
Proof.
  destruct (tile_shard_roundtrip example_unpermuted example_unpermuted_wf) as [H _];
    [by apply (bool_decide_unpack _)|].
  apply H. vm_compute; split; congruence.
Defined.

(** [ComputeTileShard] ignores the permutation that [ComputeTileIndex]
    honours: on a well-formed permuted sharding the two disagree on which shard
    owns a tile. *)
Theorem tile_shard_ignores_permutation :
  exists s i idx j,
    wf s /\ 0 <= i < num_devices_ (devices s) /\
    ComputeTileIndex i s = Ret idx /\ valid_index s idx /\
    ComputeTileShard idx s = Ret j /\ j <> i.
Proof.
  exists example_sharding, 15, [1; 2; 1], 19.
  split; [apply example_sharding_wf|]. split; [vm_compute; split; congruence|].
  split; [done|]. split; [by apply (bool_decide_unpack _)|done].
Qed.
