(* ===== verification/Tiles.v ===== *)
(** Tile bounds (src/zuku/realm_variants.h, src/zuku/tiled_array.cc):
    [RealmShape], [ComputeTileBounds] and [ComputeRealmShapeSize].  The
    specification [tile_rect] is a product of intervals, and the tiles of a
    well-formed sharding partition the array, once per copy. *)
From stdpp Require Import base tactics list list_numbers numbers option sets gmap strings pretty.
From Stdlib Require Import ZArith Lia.
From S2P Require Import Prelude MixedRadix Mesh Shape TileIndex.
Import ShardingOps.
Open Scope Z_scope.

(** [RealmShape]: a [Realm::Rect<N, long long>] for one of the dimensions [N]
    of the variant, as its two corner points; [N] is the length of both. *)
Record RealmShape : Type := mkRect { lo : list Z; hi : list Z }.

#[export] Instance RealmShape_eq_dec : EqDecision RealmShape.
Proof. solve_decision. Defined.

(** The build's [REALM_MAX_DIM], which decides whether the variant has a
    five-dimensional case. *)
Class RealmLimits := REALM_MAX_DIM : Z.

(** A local [Realm::Rect<N>] while its coordinates are being assigned: a
    coordinate that was not assigned is indeterminate, and copying it into the
    result is undefined. *)
Record RectBuf : Type := mkBuf { buf_lo : list (option Z); buf_hi : list (option Z) }.

Definition rect_new (N : nat) : RectBuf := mkBuf (replicate N None) (replicate N None).

Definition set_lo (b : RectBuf) (dim v : Z) : outcome RectBuf :=
  l ← vec_set (buf_lo b) dim (Some v); mret (mkBuf l (buf_hi b)).
Definition set_hi (b : RectBuf) (dim v : Z) : outcome RectBuf :=
  h ← vec_set (buf_hi b) dim (Some v); mret (mkBuf (buf_lo b) h).

Definition coord (o : option Z) : outcome Z :=
  match o with Some v => mret v | None => Undef Indeterminate end.
Definition rect_done (b : RectBuf) : outcome RealmShape :=
  l ← mapO coord (buf_lo b); h ← mapO coord (buf_hi b); mret (mkRect l h).

(** One iteration of the loop of [ComputeTileBounds<N>]. *)
Definition bounds_step (s : Sharding) (index : list Z) (st : RectBuf * Z) (dim : Z)
    : outcome (RectBuf * Z) :=
  let '(rect, rect_dim) := st in
  d ← vec_get (dims s) dim;
  if (sd_size d =? 1) && (1 <? sd_sharding d) then mret (rect, rect_dim)
  else
    tile_extent ← div64 (sd_size d) (sd_sharding d);
    ix ← vec_get index dim;
    start ← mul64 tile_extent ix;
    t ← add64 start tile_extent;
    stop ← sub64 t 1;
    rect ← set_lo rect rect_dim start;
    rect ← set_hi rect rect_dim stop;
    mret (rect, rect_dim + 1).

(** [ComputeTileBounds<N>]; [remainder] is computed and not used, but its
    division can still trap. *)
Definition ComputeTileBoundsN (N : nat) (shard : Z) (s : Sharding) : outcome RealmShape :=
  let single :=
    match dims s with
    | [] => true
    | [d] => sd_size d =? 1
    | _ => false
    end in
  if single then
    rect ← set_lo (rect_new N) 0 0;
    rect ← set_hi rect 0 0;
    rect_done rect
  else
    let n := Z.of_nat (length (dims s)) in
    dim_stride ← foldM (fun acc dim => d ← vec_get (dims s) dim; mul64 acc (sd_sharding d))
                       1 (seqZ 0 n);
    index ← ComputeTileIndex shard s;
    replication ← div64 (DeviceListOps.size (devices s)) dim_stride;
    remainder ← div64 shard replication;
    '(rect, _) ← foldM (bounds_step s index) (rect_new N, 0) (seqZ 0 n);
    rect_done rect.

Section Limits.
Context `{!RealmLimits}.

Definition ComputeTileBounds (shard : Z) (s : Sharding) : outcome RealmShape :=
  let n := NumRealDims s in
  if n =? 0 then ComputeTileBoundsN 1 shard s
  else if n =? 1 then ComputeTileBoundsN 1 shard s
  else if n =? 2 then ComputeTileBoundsN 2 shard s
  else if n =? 3 then ComputeTileBoundsN 3 shard s
  else if n =? 4 then ComputeTileBoundsN 4 shard s
  else if (5 <=? REALM_MAX_DIM) && (n =? 5) then ComputeTileBoundsN 5 shard s
  else Throw (RuntimeError ("do not support arrays with " +:+ pretty n +:+ " dimensions")).

(** The ranks for which the variant has a case. *)
Definition rank_supported (s : Sharding) : Prop :=
  (length (reals (dims s)) <= 4)%nat \/
  (length (reals (dims s)) = 5%nat /\ 5 <= REALM_MAX_DIM).

#[export] Instance rank_supported_dec s : Decision (rank_supported s).
Proof. unfold rank_supported. apply _. Defined.
End Limits.

(** [ComputeRealmShapeSize]: the product of the side lengths. *)
Definition ComputeRealmShapeSize (shape : RealmShape) : outcome Z :=
  foldM (fun size i =>
           h ← vec_get (hi shape) i;
           l ← vec_get (lo shape) i;
           d ← sub64 h l;
           e ← add64 d 1;
           mul64 size e)
        1 (seqZ 0 (Z.of_nat (length (lo shape)))).

(** ** Specification: products of intervals *)
Definition in_ival (iv : Z * Z) (x : Z) : Prop := iv.1 <= x <= iv.2.

(** The length of an interval. *)
Definition side (iv : Z * Z) : Z := iv.2 - iv.1 + 1.

Definition rect_of (ivs : list (Z * Z)) : RealmShape := mkRect (ivs.*1) (ivs.*2).

Definition ivals (shape : RealmShape) : list (Z * Z) := zip (lo shape) (hi shape).

(** The points of a rectangle. *)
Definition contains (shape : RealmShape) (p : list Z) : Prop :=
  Forall2 in_ival (ivals shape) p.

#[export] Instance in_ival_dec iv x : Decision (in_ival iv x).
Proof. unfold in_ival. apply _. Defined.
#[export] Instance contains_dec shape p : Decision (contains shape p).
Proof. unfold contains. apply _. Defined.

(** The interval of every real dimension at an index. *)
Fixpoint tile_ivals (l : list ShardingDim) (idx : list Z) : list (Z * Z) :=
  match l, idx with
  | d :: l, x :: idx =>
      if is_replica d then tile_ivals l idx
      else (tile_extent d * x, tile_extent d * x + tile_extent d - 1) :: tile_ivals l idx
  | _, _ => []
  end.

(** A rank-0 array is stored as the one-dimensional rectangle [0, 0]. *)
Definition or_point (ivs : list (Z * Z)) : list (Z * Z) :=
  match ivs with [] => [(0, 0)] | _ => ivs end.

Definition tile_rect (s : Sharding) (idx : list Z) : RealmShape :=
  rect_of (or_point (tile_ivals (dims s) idx)).

(** The whole array. *)
Definition array_rect (s : Sharding) : RealmShape :=
  rect_of (or_point ((fun d => (0, sd_size d - 1)) <$> reals (dims s))).

(** The coordinate of an index along the replica dimension: which copy. *)
Fixpoint replica_coord (l : list ShardingDim) (idx : list Z) : Z :=
  match l, idx with
  | d :: l, x :: idx => if is_replica d then x else replica_coord l idx
  | _, _ => 0
  end.

(** The index of the tile of copy [r] that holds the point [p]. *)
Fixpoint point_index (l : list ShardingDim) (p : list Z) (r : Z) : list Z :=
  match l with
  | [] => []
  | d :: l =>
      if is_replica d then r :: point_index l p 0
      else match p with
           | q :: p => q / tile_extent d :: point_index l p r
           | [] => 0 :: point_index l [] r
           end
  end.

(** ** Buffers *)
(** A buffer of [N] coordinates of which the first ones are assigned. *)
Definition buf_of (N : nat) (vs : list Z) : list (option Z) :=
  (Some <$> vs) ++ replicate (N - length vs) None.

Lemma buf_of_nil N : replicate N None = buf_of N [].
Proof. unfold buf_of. cbn. by rewrite Nat.sub_0_r. Qed.

Lemma buf_of_set N vs v : (length vs < N)%nat ->
  vec_set (buf_of N vs) (Z.of_nat (length vs)) (Some v) = Ret (buf_of N (vs ++ [v])).
Proof.
  intros H. unfold buf_of.
  rewrite vec_set_ok by (rewrite length_app, length_fmap, length_replicate; lia).
  f_equal. rewrite Nat2Z.id, length_app, Nat.add_1_r, fmap_app.
  destruct (N - length vs)%nat as [|m] eqn:E; [lia|].
  replace (N - S (length vs))%nat with m by lia. cbn [replicate].
  rewrite <- (assoc_L (++)). cbn.
  by rewrite <- (length_fmap Some vs), <- (Nat.add_0_r (length _)), insert_app_r.
Qed.

Lemma buf_of_done vs : mapO coord (buf_of (length vs) vs) = Ret vs.
Proof.
  unfold buf_of. rewrite Nat.sub_diag, app_nil_r.
  induction vs as [|v vs IH]; cbn; [done|]. by rewrite IH.
Qed.

Lemma rect_done_ok ivs N : length ivs = N ->
  rect_done (mkBuf (buf_of N (ivs.*1)) (buf_of N (ivs.*2))) = Ret (rect_of ivs).
Proof.
  intros <-. unfold rect_done. cbn [buf_lo buf_hi].
  rewrite <- (length_fmap fst ivs) at 1. rewrite buf_of_done. cbn [mbind outcome_bind].
  rewrite <- (length_fmap snd ivs). by rewrite buf_of_done.
Qed.

(** Assigning the next interval. *)
Lemma rect_set_next ivs N a b : (length ivs < N)%nat ->
  (rect ← set_lo (mkBuf (buf_of N (ivs.*1)) (buf_of N (ivs.*2))) (Z.of_nat (length ivs)) a;
   set_hi rect (Z.of_nat (length ivs)) b) =
  Ret (mkBuf (buf_of N ((ivs ++ [(a, b)]).*1)) (buf_of N ((ivs ++ [(a, b)]).*2))).
Proof.
  intros H. unfold set_lo, set_hi. cbn [buf_lo buf_hi].
  rewrite <- (length_fmap fst ivs) at 1. rewrite buf_of_set by (rewrite length_fmap; lia).
  cbn [mbind outcome_bind mret outcome_ret buf_lo buf_hi].
  rewrite <- (length_fmap snd ivs). rewrite buf_of_set by (rewrite length_fmap; lia).
  cbn [mbind outcome_bind]. by rewrite !fmap_app.
Qed.

(** ** Intervals of a tile *)
Lemma tile_ivals_snoc l idx d x : length l = length idx ->
  tile_ivals (l ++ [d]) (idx ++ [x]) =
  tile_ivals l idx ++
  (if is_replica d then []
   else [(tile_extent d * x, tile_extent d * x + tile_extent d - 1)]).
Proof.
  revert idx. induction l as [|d' l IH]; intros [|x' idx] H; cbn in H; try lia.
  - cbn. by destruct (is_replica d).
  - cbn. rewrite IH by lia. by destruct (is_replica d').
Qed.

Lemma tile_ivals_length l idx : length l = length idx ->
  length (tile_ivals l idx) = length (reals l).
Proof.
  revert idx. induction l as [|d l IH]; intros [|x idx] H; cbn in H; try lia; [done|].
  cbn [tile_ivals]. rewrite reals_cons. destruct (is_replica d); cbn [length]; auto.
Qed.

Lemma ivals_rect_of ivs : ivals (rect_of ivs) = ivs.
Proof. unfold ivals, rect_of. cbn. induction ivs as [|[] ivs IH]; cbn; [done|]. by f_equal. Qed.

Lemma reals_length_le l : (length (reals l) <= length l)%nat.
Proof. induction l as [|d l IH]; [done|]. rewrite reals_cons. destruct (is_replica d); cbn; lia. Qed.

Section TileBounds.
Context (s : Sharding) (Hwf : wf s).

Lemma dim_coord_range idx j d x :
  valid_index s idx -> dims s !! j = Some d -> idx !! j = Some x -> 0 <= x < sd_sharding d.
Proof.
  intros Hv Hd Hx. destruct (Forall2_lookup_l _ _ _ _ _ Hv Hd) as (x' & Hx' & Hb).
  congruence.
Qed.

Lemma wf_size_i64 d : d ∈ dims s -> 1 <= sd_size d <= i64_max.
Proof.
  intros Hd. split; [by eapply wf_size_pos|].
  pose proof (sizes_i64 s Hwf).
  pose proof (prodZ_elem_le (sd_size <$> dims s) (sd_size d)
    ltac:(apply Forall_fmap, Forall_forall; by apply wf_size_pos)
    ltac:(by apply list_elem_of_fmap_2)). lia.
Qed.

(** One iteration assigns the interval of a real dimension and skips the
    replica dimension. *)
Lemma bounds_step_ok N idx k d x :
  valid_index s idx -> dims s !! k = Some d -> idx !! k = Some x ->
  (length (reals (dims s)) <= N)%nat ->
  let ivs k := tile_ivals (take k (dims s)) (take k idx) in
  let st k := (mkBuf (buf_of N ((ivs k).*1)) (buf_of N ((ivs k).*2)),
               Z.of_nat (length (ivs k))) in
  bounds_step s idx (st k) (Z.of_nat k) = Ret (st (S k)).
Proof.
  intros Hv Hd Hx HN ivs st. pose proof (Forall2_length _ _ _ Hv) as Hlen.
  assert (Hin : d ∈ dims s) by (by eapply list_elem_of_lookup_2).
  pose proof (wf_dims s Hwf d Hin) as Hwd.
  assert (Hnext : ivs (S k) = ivs k ++ (if is_replica d then []
    else [(tile_extent d * x, tile_extent d * x + tile_extent d - 1)])).
  { unfold ivs. rewrite (take_S_r _ _ _ Hd), (take_S_r _ _ _ Hx). apply tile_ivals_snoc.
    rewrite !length_take. lia. }
  assert (Hlk : (length (ivs (S k)) <= N)%nat).
  { unfold ivs. rewrite tile_ivals_length by (rewrite !length_take; lia).
    etransitivity; [|exact HN]. rewrite <- (take_drop (S k) (dims s)) at 2.
    rewrite reals_app, length_app. lia. }
  unfold bounds_step, st. rewrite (vec_get_lookup _ _ _ Hd). cbn [mbind outcome_bind].
  fold (is_replica d). rewrite Hnext in Hlk |- *. destruct (is_replica d) eqn:Hr.
  - by rewrite app_nil_r.
  - destruct (is_replica_false d Hwd Hr) as [Hs He]. rewrite length_app in Hlk. cbn in Hlk.
    pose proof (wf_size_i64 d Hin). destruct Hwd as (_ & Hsh & _).
    pose proof (dim_coord_range idx k d x Hv Hd Hx).
    rewrite div64_ok by (unfold i64; lia). cbn [mbind outcome_bind].
    rewrite (vec_get_lookup _ _ _ Hx). cbn [mbind outcome_bind]. fold (tile_extent d).
    rewrite mul64_ok by (unfold i64; nia). cbn [mbind outcome_bind].
    rewrite add64_ok by (unfold i64; nia). cbn [mbind outcome_bind].
    rewrite sub64_ok by (unfold i64; nia). cbn [mbind outcome_bind].
    pose proof (rect_set_next (ivs k) N (tile_extent d * x)
      (tile_extent d * x + tile_extent d - 1) ltac:(lia)) as Hset.
    destruct (set_lo _ _ _) as [r|?|?|]; cbn [mbind outcome_bind] in Hset |- *; try done.
    rewrite Hset. cbn [mbind outcome_bind].
    rewrite length_app. cbn [length]. do 2 f_equal. lia.
Qed.

(** The side lengths of a tile. *)
Lemma tile_ivals_sides l idx : length l = length idx ->
  side <$> tile_ivals l idx = tile_extent <$> reals l.
Proof.
  revert idx. induction l as [|d l IH]; intros [|x idx] H; cbn in H; try lia; [done|].
  cbn [tile_ivals]. rewrite reals_cons. destruct (is_replica d); [by apply IH; lia|].
  rewrite !fmap_cons. f_equal; [unfold side; cbn; lia|]. apply IH. lia.
Qed.

(** With no real dimension there is at most the replica dimension. *)
Lemma no_reals : reals (dims s) = [] ->
  dims s = [] \/ exists d, dims s = [d] /\ is_replica d = true.
Proof.
  intros Hr. destruct Hwf as (_&_&H1&_). revert Hr H1.
  destruct (dims s) as [|d [|d' l]]; [by left|right|].
  - exists d. split; [done|]. rewrite reals_cons in Hr. by destruct (is_replica d).
  - rewrite !reals_cons, !replicas_cons.
    destruct (is_replica d), (is_replica d'); cbn; intros; done || lia.
Qed.

Lemma stride_ok :
  foldM (fun acc dim => d ← vec_get (dims s) dim; mul64 acc (sd_sharding d))
        1 (seqZ 0 (Z.of_nat (length (dims s)))) = Ret (num_devices_ (devices s)).
Proof.
  pose proof (num_devices_i64 s Hwf) as Hn.
  assert (Hpr : prodZ (sd_sharding <$> dims s) = num_devices_ (devices s)) by apply Hwf.
  destruct (foldM_range
    (fun acc dim => d ← vec_get (dims s) dim; mul64 acc (sd_sharding d))
    (fun k acc => acc = prodZ (sd_sharding <$> take k (dims s))) 0 (length (dims s)) 1)
    as (r & -> & ->); [done| |by rewrite firstn_all, Hpr].
  intros k acc Hk ->. destruct (lookup_lt_is_Some_2 _ _ Hk) as [d Hd].
  rewrite Z.add_0_l, (vec_get_lookup _ _ _ Hd). cbn [mbind outcome_bind].
  rewrite (take_S_r _ _ _ Hd), prodZ_snoc.
  eexists; split; [|done]. apply mul64_ok.
  rewrite <- prodZ_snoc, <- (take_S_r _ _ _ Hd).
  rewrite <- (take_drop (S k) (dims s)), fmap_app, prodZ_app in Hpr.
  assert (Hpos : forall l, l ⊆ dims s -> 1 <= prodZ (sd_sharding <$> l)).
  { intros l Hl. apply prodZ_fmap_pos. intros x Hx. by apply (wf_sharding_pos s Hwf), Hl. }
  pose proof (Hpos (take (S k) (dims s)) ltac:(apply subseteq_take)).
  pose proof (Hpos (drop (S k) (dims s)) ltac:(apply subseteq_drop)).
  unfold i64. nia.
Qed.

Lemma ComputeTileBoundsN_ok N i :
  0 <= i < num_devices_ (devices s) ->
  N = length (or_point (tile_ivals (dims s) (tile_index s i))) ->
  ComputeTileBoundsN N i s = Ret (tile_rect s (tile_index s i)).
Proof.
  intros Hi HN. pose proof (tile_index_valid s Hwf i) as Hv.
  pose proof (Forall2_length _ _ _ Hv) as Hlen.
  pose proof (tile_ivals_length (dims s) (tile_index s i) Hlen) as Htl.
  unfold ComputeTileBoundsN.
  destruct (match dims s with [] => true | [d] => sd_size d =? 1 | _ => false end) eqn:Hs.
  - assert (Hp : or_point (tile_ivals (dims s) (tile_index s i)) = [(0, 0)]).
    { revert Hs Hv. destruct (dims s) as [|d [|]] eqn:Hds; [done| |done].
      intros Hs Hv. apply Z.eqb_eq in Hs. unfold valid_index in Hv. rewrite Hds in Hv.
      inversion Hv as [|? x ? l Hx Hr]; subst. inversion Hr; subst. cbn.
      destruct (is_replica d) eqn:Hrd; [done|]. cbn.
      destruct (is_replica_false d (wf_dims s Hwf d ltac:(rewrite Hds; set_solver)) Hrd).
      assert (tile_extent d = 1 /\ x = 0) as [-> ->] by nia. done. }
    unfold tile_rect. rewrite Hp in HN |- *. subst N. done.
  - rewrite stride_ok. cbn [mbind outcome_bind]. rewrite ComputeTileIndex_ok by done.
    cbn [mbind outcome_bind]. pose proof (num_devices_i64 s Hwf).
    unfold DeviceListOps.size. rewrite div64_ok by (unfold i64; lia).
    cbn [mbind outcome_bind]. rewrite Z.div_same by lia.
    rewrite div64_ok by (unfold i64; lia). cbn [mbind outcome_bind].
    assert (Hne : tile_ivals (dims s) (tile_index s i) <> []).
    { intros Hc. rewrite Hc in Htl. symmetry in Htl. apply length_zero_iff_nil in Htl.
      destruct (no_reals Htl) as [Hd|(d & Hd & Hr)]; rewrite Hd in Hs; [done|].
      apply is_replica_spec in Hr. apply Z.eqb_neq in Hs. lia. }
    assert (Hop : or_point (tile_ivals (dims s) (tile_index s i)) =
                  tile_ivals (dims s) (tile_index s i)) by (by destruct (tile_ivals _ _)).
    unfold tile_rect. rewrite Hop in HN |- *.
    set (ivs k := tile_ivals (take k (dims s)) (take k (tile_index s i))).
    destruct (foldM_range (bounds_step s (tile_index s i))
      (fun k st => st = (mkBuf (buf_of N ((ivs k).*1)) (buf_of N ((ivs k).*2)),
                         Z.of_nat (length (ivs k))))
      0 (length (dims s)) (rect_new N, 0)) as (r & -> & ->).
    + unfold ivs, rect_new. cbn. by rewrite <- !buf_of_nil.
    + intros k st Hk ->. destruct (lookup_lt_is_Some_2 _ _ Hk) as [d Hd].
      destruct (Forall2_lookup_l _ _ _ _ _ Hv Hd) as (x & Hx & _).
      eexists; split; [|done]. rewrite Z.add_0_l.
      apply (bounds_step_ok N _ k d x Hv Hd Hx). lia.
    + cbn [mbind outcome_bind]. unfold ivs. rewrite !take_ge by lia.
      by apply rect_done_ok.
Qed.

End TileBounds.

Section LimitsOk.
Context `{!RealmLimits}.

(** The case analysis on the rank selects the rank of the result. *)
Lemma rank_dispatch (s : Sharding) (shard : Z) (n : nat) :
  NumRealDims s = Z.of_nat n -> (n <= 4)%nat \/ (n = 5%nat /\ 5 <= REALM_MAX_DIM) ->
  ComputeTileBounds shard s = ComputeTileBoundsN (Nat.max 1 n) shard s.
Proof.
  intros Hn Hr. unfold ComputeTileBounds. rewrite Hn.
  destruct Hr as [Hr|[-> Hr]].
  - do 5 (destruct n as [|n]; [reflexivity|]). lia.
  - rewrite (proj2 (Z.leb_le _ _) Hr). reflexivity.
Qed.

Lemma ComputeTileBounds_ok (s : Sharding) (i : Z) :
  wf s -> rank_supported s -> 0 <= i < num_devices_ (devices s) ->
  ComputeTileBounds i s = Ret (tile_rect s (tile_index s i)).
Proof.
  intros Hwf Hr Hi.
  rewrite (rank_dispatch s i _ (NumRealDims_ok s Hwf) Hr).
  apply ComputeTileBoundsN_ok; [done|done|].
  pose proof (tile_ivals_length (dims s) (tile_index s i)) as Hl.
  rewrite <- Hl by (by rewrite tile_index_length).
  by destruct (tile_ivals (dims s) (tile_index s i)).
Qed.
End LimitsOk.


(** ** Tiles and points *)
Definition in_dims (l : list ShardingDim) : list Z -> Prop :=
  Forall2 in_ival ((fun d => (0, sd_size d - 1)) <$> reals l).

Definition in_range (l : list ShardingDim) : list Z -> Prop :=
  Forall2 (fun d x => 0 <= x < sd_sharding d) l.

Lemma replica_coord_none l idx : replicas l = [] -> replica_coord l idx = 0.
Proof.
  revert idx. induction l as [|d l IH]; intros [|x idx] H; try done.
  rewrite replicas_cons in H. cbn. destruct (is_replica d); [done|]. by apply IH.
Qed.

(** A valid index whose tile holds a point is the index of that point. *)
Lemma tile_unique l idx p :
  (forall d, d ∈ l -> wf_dim d) -> (length (replicas l) <= 1)%nat -> in_range l idx ->
  Forall2 in_ival (tile_ivals l idx) p -> idx = point_index l p (replica_coord l idx).
Proof.
  intros Hd H1 Hv. revert p Hd H1.
  induction Hv as [|d x l idx Hx Hv IH]; intros p Hd H1 Hp; [done|].
  cbn in Hp |- *. rewrite replicas_cons in H1.
  assert (Hdl : forall d, d ∈ l -> wf_dim d) by set_solver.
  destruct (is_replica d) eqn:Hr; cbn in H1.
  - assert (Hn : replicas l = []) by (apply length_zero_iff_nil; lia).
    f_equal. rewrite (IH p) at 1; [by rewrite replica_coord_none|done|lia|done].
  - destruct (is_replica_false d (Hd d ltac:(set_solver)) Hr) as [Hs He].
    apply Forall2_cons_inv_l in Hp as (q & p' & [Hq1 Hq2] & Hp & ->). cbn in Hq1, Hq2.
    f_equal; [|by apply IH]. apply Z.div_unique with (q - tile_extent d * x); lia.
Qed.

(** Every point of the array is in the tile of its index, in every copy. *)
Lemma tile_exists l p r :
  (forall d, d ∈ l -> wf_dim d) -> (length (replicas l) <= 1)%nat -> in_dims l p ->
  0 <= r < prodZ (sd_sharding <$> replicas l) ->
  in_range l (point_index l p r) /\
  Forall2 in_ival (tile_ivals l (point_index l p r)) p /\
  replica_coord l (point_index l p r) = r.
Proof.
  unfold in_dims. revert p r. induction l as [|d l IH]; intros p r Hd H1 Hp Hr.
  - cbn in Hr. inversion Hp; subst. cbn. split_and!; [constructor..|lia].
  - rewrite reals_cons in Hp. rewrite replicas_cons in H1, Hr. cbn.
    assert (Hdl : forall d, d ∈ l -> wf_dim d) by set_solver.
    destruct (is_replica d) eqn:Hrd; cbn in H1, Hr |- *.
    + assert (Hn : replicas l = []) by (apply length_zero_iff_nil; lia).
      rewrite Hn in Hr. cbn in Hr.
      destruct (IH p 0 Hdl ltac:(lia) Hp) as (H & H' & _); [rewrite Hn; cbn; lia|].
      split_and!; [constructor; [lia|done]|done|done].
    + destruct (is_replica_false d (Hd d ltac:(set_solver)) Hrd) as [Hs He].
      apply Forall2_cons_inv_l in Hp as (q & p' & [Hq1 Hq2] & Hp & ->). cbn in Hq1, Hq2 |- *.
      rewrite ?Hrd. destruct (IH p' r Hdl ltac:(lia) Hp Hr) as (H & H' & H'').
      pose proof (Z.mul_div_le q (tile_extent d) ltac:(lia)).
      pose proof (Z.mul_succ_div_gt q (tile_extent d) ltac:(lia)).
      pose proof (Z.div_pos q (tile_extent d) ltac:(lia) ltac:(lia)).
      split_and!; [constructor; [nia|done]|constructor; [split; cbn; nia|done]|done].
Qed.

(** A tile is inside the array. *)
Lemma tile_inside l idx p : (forall d, d ∈ l -> wf_dim d) -> in_range l idx ->
  Forall2 in_ival (tile_ivals l idx) p -> in_dims l p.
Proof.
  unfold in_dims. intros Hd Hv. revert p Hd.
  induction Hv as [|d x l idx Hx Hv IH]; intros p Hd Hp; [done|].
  cbn in Hp. rewrite reals_cons.
  assert (Hdl : forall d, d ∈ l -> wf_dim d) by set_solver.
  destruct (is_replica d) eqn:Hr; [by apply IH|].
  destruct (is_replica_false d (Hd d ltac:(set_solver)) Hr) as [Hs He].
  apply Forall2_cons_inv_l in Hp as (q & p' & [Hq1 Hq2] & Hp & ->). cbn in Hq1, Hq2.
  constructor; [split; cbn; nia|by apply IH].
Qed.

Section Points.
Context (s : Sharding) (Hwf : wf s).

(** The coordinates of a point along the real dimensions: a rank-0 array has
    one stored coordinate and no real one. *)
Definition real_point (p : list Z) : list Z :=
  match reals (dims s) with [] => [] | _ => p end.

Lemma contains_or_point ivs p :
  contains (rect_of (or_point ivs)) p <->
  match ivs with [] => p = [0] | _ => Forall2 in_ival ivs p end.
Proof.
  unfold contains. rewrite ivals_rect_of. destruct ivs as [|iv ivs]; cbn; [|done].
  split; [|by intros ->; repeat constructor].
  intros (q & p' & [Hq1 Hq2] & Hp & ->)%Forall2_cons_inv_l. inversion Hp; subst.
  cbn in *. f_equal. lia.
Qed.

Lemma contains_tile idx p : valid_index s idx ->
  contains (tile_rect s idx) p <->
  Forall2 in_ival (tile_ivals (dims s) idx) (real_point p) /\
  (reals (dims s) = [] -> p = [0]).
Proof.
  intros Hv. unfold tile_rect, real_point. rewrite contains_or_point.
  pose proof (tile_ivals_length _ _ (Forall2_length _ _ _ Hv)) as Hl.
  destruct (reals (dims s)), (tile_ivals (dims s) idx); cbn in Hl; try done; [|naive_solver].
  split; [naive_solver constructor|naive_solver].
Qed.

Lemma contains_array p :
  contains (array_rect s) p <->
  in_dims (dims s) (real_point p) /\ (reals (dims s) = [] -> p = [0]).
Proof.
  unfold array_rect, in_dims, real_point. rewrite contains_or_point.
  destruct (reals (dims s)); cbn; [|naive_solver].
  split; [naive_solver constructor|naive_solver].
Qed.

Lemma tile_in_array idx p : valid_index s idx ->
  contains (tile_rect s idx) p -> contains (array_rect s) p.
Proof.
  intros Hv. rewrite contains_tile, contains_array by done. intros [Hp Hz].
  split; [|done]. eapply tile_inside; [apply (wf_dims s Hwf)|exact Hv|done].
Qed.

Lemma replicas_le1 : (length (replicas (dims s)) <= 1)%nat.
Proof. apply Hwf. Qed.

(** The side lengths of a tile are positive and multiply to its elements. *)
Lemma tile_rect_size idx : valid_index s idx ->
  ComputeRealmShapeSize (tile_rect s idx) = Ret (tile_elements s).
Proof.
  intros Hv. pose proof (Forall2_length _ _ _ Hv) as Hl.
  set (ivs := or_point (tile_ivals (dims s) idx)).
  assert (Hprod : prodZ (side <$> ivs) = tile_elements s).
  { unfold tile_elements. rewrite <- (tile_ivals_sides (dims s) idx Hl). unfold ivs.
    by destruct (tile_ivals (dims s) idx). }
  assert (Hpos : forall iv, iv ∈ ivs -> 0 <= iv.1 <= iv.2 /\ iv.2 < i64_max).
  { intros iv Hiv. unfold ivs in Hiv.
    assert (Hall : Forall (fun iv : Z * Z => 0 <= iv.1 <= iv.2 /\ iv.2 < i64_max)
                          (tile_ivals (dims s) idx)).
    { pose proof (wf_dims s Hwf) as Hd. pose proof (wf_size_i64 s Hwf) as Hi.
      unfold valid_index in Hv. clear -Hd Hi Hv. revert Hd Hi.
      induction Hv as [|d x l idx Hx Hv IH]; intros; cbn; [constructor|].
      destruct (is_replica d) eqn:Hr; [apply IH; set_solver|].
      destruct (is_replica_false d (Hd d ltac:(set_solver)) Hr) as [Hs He].
      pose proof (Hi d ltac:(set_solver)).
      constructor; [cbn; nia|apply IH; set_solver]. }
    destruct (tile_ivals (dims s) idx); cbn in Hiv.
    - apply list_elem_of_singleton in Hiv as ->. cbn. lia.
    - rewrite Forall_forall in Hall. by apply Hall. }
  pose proof (tile_elements_pos s Hwf). pose proof (tiles_elements s Hwf).
  pose proof (num_tiles_pos s Hwf). pose proof (sizes_i64 s Hwf).
  unfold ComputeRealmShapeSize, tile_rect. fold ivs. cbn [lo hi rect_of].
  rewrite length_fmap.
  destruct (foldM_range (fun size i =>
      h ← vec_get (ivs.*2) i; l ← vec_get (ivs.*1) i;
      d ← sub64 h l; e ← add64 d 1; mul64 size e)
    (fun k acc => acc = prodZ (side <$> take k ivs))
    0 (length ivs) 1) as (r & -> & ->); [done| |by rewrite firstn_all, Hprod].
  intros k acc Hk ->. destruct (lookup_lt_is_Some_2 _ _ Hk) as [iv Hiv].
  rewrite Z.add_0_l, (vec_get_lookup (ivs.*2) k iv.2) by (by rewrite list_lookup_fmap, Hiv).
  cbn [mbind outcome_bind].
  rewrite (vec_get_lookup (ivs.*1) k iv.1) by (by rewrite list_lookup_fmap, Hiv).
  cbn [mbind outcome_bind].
  pose proof (Hpos iv ltac:(by eapply list_elem_of_lookup_2)) as [Hb Hm].
  rewrite sub64_ok by (unfold i64; lia). cbn [mbind outcome_bind].
  rewrite add64_ok by (unfold i64; lia). cbn [mbind outcome_bind].
  rewrite (take_S_r _ _ _ Hiv), prodZ_snoc. eexists; split; [|done].
  change (iv.2 - iv.1 + 1) with (side iv). apply mul64_ok. rewrite <- prodZ_snoc, <- (take_S_r _ _ _ Hiv).
  assert (Hsub : forall l, l ⊆ ivs -> 1 <= prodZ (side <$> l)).
  { intros l Hsl. apply prodZ_fmap_pos. intros v Hin. pose proof (Hpos v (Hsl v Hin)). unfold side. lia. }
  pose proof (Hsub (take (S k) ivs) ltac:(apply subseteq_take)).
  pose proof (Hsub (drop (S k) ivs) ltac:(apply subseteq_drop)).
  rewrite <- (take_drop (S k) ivs), fmap_app, prodZ_app in Hprod. unfold i64. nia.
Qed.
End Points.

(** For every point and every copy there is exactly one shard. *)
Lemma tiles_partition (s : Sharding) p r : wf s ->
  contains (array_rect s) p -> 0 <= r < replication s ->
  exists i, 0 <= i < num_devices_ (devices s) /\
    contains (tile_rect s (tile_index s i)) p /\ replica_coord (dims s) (tile_index s i) = r /\
    forall j, 0 <= j < num_devices_ (devices s) ->
      contains (tile_rect s (tile_index s j)) p ->
      replica_coord (dims s) (tile_index s j) = r -> j = i.
Proof.
  intros Hwf [Hp Hz]%(contains_array s) Hr.
  destruct (tile_exists (dims s) (real_point s p) r (wf_dims s Hwf) (replicas_le1 s Hwf) Hp Hr)
    as (Hv & Hin & Hc).
  set (idx := point_index (dims s) (real_point s p) r) in *.
  exists (owner s idx). split; [by apply owner_range|].
  rewrite (tile_index_owner s Hwf idx Hv). split; [by apply contains_tile|]. split; [done|].
  intros j Hj Hin' Hc'. pose proof (tile_index_valid s Hwf j) as Hvj.
  apply (contains_tile s _ p Hvj) in Hin' as [Hin' _].
  apply (tile_unique _ _ _ (wf_dims s Hwf) (replicas_le1 s Hwf) Hvj) in Hin'.
  rewrite Hc' in Hin'. fold idx in Hin'. rewrite <- Hin'. by rewrite owner_tile_index.
Qed.

(** ** Properties *)
Section Properties.
Context `{!RealmLimits}.

(** Shard [i] holds copy [r] of the point [p]. *)
Definition holds (s : Sharding) (i : Z) (p : list Z) (r : Z) : Prop :=
  exists rect idx,
    ComputeTileBounds i s = Ret rect /\ contains rect p /\
    ComputeTileIndex i s = Ret idx /\ replica_coord (dims s) idx = r.

(** C10: the tiles of a well-formed sharding partition the array, once per copy:
    for every point of the array and every copy there is exactly one shard
    whose [ComputeTileBounds] contains the point and whose index is in that
    copy. *)
Theorem tiles_partition_array (s : Sharding) (p : list Z) (r : Z)
    (Hwf : wf s) (Hrank : rank_supported s)
    (Hp : contains (array_rect s) p) (Hr : 0 <= r < replication s) :
  exists i, 0 <= i < num_devices_ (devices s) /\ holds s i p r /\
    forall j, 0 <= j < num_devices_ (devices s) -> holds s j p r -> j = i.
Proof.
  destruct (tiles_partition s p r Hwf Hp Hr) as (i & Hi & Hin & Hc & Hu).
  exists i. split; [done|]. split.
  - exists (tile_rect s (tile_index s i)), (tile_index s i).
    split; [by apply ComputeTileBounds_ok|]. split; [done|]. by rewrite ComputeTileIndex_ok.
  - intros j Hj (rect & idx & Hb & Hin' & Hx & Hc').
    rewrite ComputeTileIndex_ok in Hx by done. injection Hx as <-.
    rewrite ComputeTileBounds_ok in Hb by done. injection Hb as <-. by apply Hu.
Qed.

(** C36: on a well-formed sharding [ComputeTileBounds] returns, for every shard, a
    rectangle inside the array whose [ComputeRealmShapeSize] is the element
    count of a shard, when the number of real dimensions is supported; any
    other rank is a [std::runtime_error]. *)
Theorem compute_tile_bounds (s : Sharding) (i : Z)
    (Hwf : wf s) (Hi : 0 <= i < num_devices_ (devices s)) :
  (rank_supported s ->
     exists rect n, ComputeTileBounds i s = Ret rect /\
       ComputeRealmShapeSize rect = Ret n /\ NumLocalElements s = Ret n /\
       forall p, contains rect p -> contains (array_rect s) p) /\
  (~ rank_supported s -> exists msg, ComputeTileBounds i s = Throw (RuntimeError msg)).
Proof.
  pose proof (tile_index_valid s Hwf i) as Hv. split.
  - intros Hr. exists (tile_rect s (tile_index s i)), (tile_elements s). split_and!.
    + by apply ComputeTileBounds_ok.
    + by apply tile_rect_size.
    + by apply NumLocalElements_ok.
    + intros p. by apply tile_in_array.
  - unfold rank_supported. intros Hr. unfold ComputeTileBounds.
    rewrite (NumRealDims_ok s Hwf). generalize dependent (length (reals (dims s))).
    intros n Hn. rewrite !(proj2 (Z.eqb_neq (Z.of_nat n) _)) by lia.
    destruct (Z.leb_spec 5 REALM_MAX_DIM); [|by eexists].
    rewrite (proj2 (Z.eqb_neq (Z.of_nat n) 5)) by lia. by eexists.
Qed.
End Properties.

(** A build with [REALM_MAX_DIM = 3], as in Realm's default configuration. *)
Lemma tiles_partition_array_witness :
  let _ : RealmLimits := 3 in
  exists i, 0 <= i < 24 /\ holds example_sharding i [5; 7] 3 /\
    forall j, 0 <= j < 24 -> holds example_sharding j [5; 7] 3 -> j = i.
Proof.
  intros L. apply (tiles_partition_array example_sharding [5; 7] 3).
  - apply example_sharding_wf.
  - by apply (bool_decide_unpack _).
  - by apply (bool_decide_unpack _).
  - vm_compute. split; congruence.
Defined.

Lemma compute_tile_bounds_witness :
  let _ : RealmLimits := 3 in
  ComputeTileBounds 15 example_sharding = Ret (mkRect [4; 3] [7; 5]) /\
  ComputeRealmShapeSize (mkRect [4; 3] [7; 5]) = Ret 12.
Proof.
  intros L.
  destruct (compute_tile_bounds example_sharding 15 example_sharding_wf) as [H _];
    [vm_compute; split; congruence|].
  destruct H as (rect & n & E & En & El & _); [by apply (bool_decide_unpack _)|].
  vm_compute in E. injection E as <-. vm_compute in El. injection El as <-.
  split; [done|exact En].
Defined.
