(* ===== verification/ScatterGather.v ===== *)
(** Scatter-gather configurations (src/zuku/reshard_scatter_gather.{h,cc}):
    resharding of one dimension.  [MakeTileBox] and [GetScatterGatherConfig]
    are followed statement by statement; the specification is a refinement of
    tile indices, [coarsen] and [children], between the finer and the coarser of
    the two shardings. *)
From stdpp Require Import base tactics list list_numbers numbers option sets gmap strings pretty.
From Stdlib Require Import ZArith Lia.
From S2P Require Import Prelude MixedRadix Mesh Shape TileIndex Tiles.
Import ShardingOps.
Open Scope Z_scope.

Record SliceConfig : Type := mkSlice {
  slice_src_shard : Z;
  slice_dst_shard : Z;
  slice_bounds : RealmShape;
}.

Record ScatterGatherConfig : Type := mkScatterGather {
  from_source : list SliceConfig;
  to_target : list SliceConfig;
}.

#[export] Instance SliceConfig_eq_dec : EqDecision SliceConfig.
Proof. solve_decision. Defined.
#[export] Instance ScatterGatherConfig_eq_dec : EqDecision ScatterGatherConfig.
Proof. solve_decision. Defined.

(** One iteration of [MakeTileBoxN]; the state is [bounds, box_dim]. *)
Definition box_step (index : list Z) (sh : Sharding) (st : RectBuf * Z) (s : Z)
    : outcome (RectBuf * Z) :=
  let '(bounds, box_dim) := st in
  d ← vec_get (dims sh) s;
  tile_size ← div64 (sd_size d) (sd_sharding d);
  if 0 <? tile_size then
    ix ← vec_get index box_dim;
    l ← mul64 ix tile_size;
    bounds ← set_lo bounds box_dim l;
    t ← add64 l tile_size;
    h ← sub64 t 1;
    bounds ← set_hi bounds box_dim h;
    mret (bounds, box_dim + 1)
  else mret (bounds, box_dim).

Definition MakeTileBoxN (N : nat) (index : list Z) (sh : Sharding) : outcome RealmShape :=
  '(bounds, _) ← foldM (box_step index sh) (rect_new N, 0)
                       (seqZ 0 (Z.of_nat (length (dims sh))));
  rect_done bounds.

Section Limits.
Context `{!RealmLimits}.

Definition MakeTileBox (index : list Z) (sh : Sharding) : outcome RealmShape :=
  b ← IsPartiallyReplicated sh;
  let n := if (b : bool) then num_dims sh - 1 else num_dims sh in
  if n =? 0 then MakeTileBoxN 1 index sh
  else if n =? 1 then MakeTileBoxN 1 index sh
  else if n =? 2 then MakeTileBoxN 2 index sh
  else if n =? 3 then MakeTileBoxN 3 index sh
  else if n =? 4 then MakeTileBoxN 4 index sh
  else if (5 <=? REALM_MAX_DIM) && (n =? 5) then MakeTileBoxN 5 index sh
  else Throw (RuntimeError "unsupported no. dims").

(** The shard of the finer sharding [self] sends or receives one slice: its own
    tile, from or to the shard of the coarser sharding [other] that contains
    it.  The same statements for the source (lines 81-88) and, with the roles
    exchanged, for the target (lines 113-116). *)
Definition single_slice (shard : Z) (self other : Sharding) (dim num_slices : Z)
    : outcome (Z * RealmShape) :=
  index ← ComputeTileIndex shard self;
  bounds ← MakeTileBox index self;
  x ← vec_get index dim;
  q ← div64 x num_slices;
  index ← vec_set index dim q;
  other_shard ← ComputeTileShard index other;
  mret (other_shard, bounds).

(** One iteration of the loops over the slices: the state is [index] and the
    slices pushed so far. *)
Definition slice_step (other : Sharding) (dim start : Z)
    (st : list Z * list (Z * RealmShape)) (slice : Z)
    : outcome (list Z * list (Z * RealmShape)) :=
  let '(index, acc) := st in
  x ← add64 start slice;
  index ← vec_set index dim x;
  bounds ← MakeTileBox index other;
  other_shard ← ComputeTileShard index other;
  mret (index, acc ++ [(other_shard, bounds)]).

(** The shard of the coarser sharding [self] sends or receives a slice for every
    shard of the finer sharding [other] inside its tile (lines 94-106 and, with
    the roles exchanged, 126-139). *)
Definition multi_slices (shard : Z) (self other : Sharding) (dim num_slices : Z)
    : outcome (list (Z * RealmShape)) :=
  _ ← reserve num_slices;
  index ← ComputeTileIndex shard self;
  x ← vec_get index dim;
  start ← mul64 x num_slices;
  '(_, acc) ← foldM (slice_step other dim start) (index, []) (seqZ 0 num_slices);
  mret acc.

Definition GetScatterGatherConfig (dim : Z) (src_shard dst_shard : option Z)
    (src dst : Sharding) : outcome ScatterGatherConfig :=
  sd ← vec_get (dims src) dim;
  dd ← vec_get (dims dst) dim;
  _ ← assertM (negb (sd_sharding sd =? sd_sharding dd));
  if sd_sharding dd <? sd_sharding sd then
    num_slices_per_dest ← div64 (sd_sharding sd) (sd_sharding dd);
    slice_size ← div64 (sd_size sd) (sd_sharding sd);
    from ← match src_shard with
           | Some s =>
               '(d, bounds) ← single_slice s src dst dim num_slices_per_dest;
               offset ← rem64 s num_slices_per_dest;
               mret [mkSlice s d bounds]
           | None => mret []
           end;
    to ← match dst_shard with
         | Some d =>
             l ← multi_slices d dst src dim num_slices_per_dest;
             mret ((fun '(s, bounds) => mkSlice s d bounds) <$> l)
         | None => mret []
         end;
    mret (mkScatterGather from to)
  else
    num_slices_per_source ← div64 (sd_sharding dd) (sd_sharding sd);
    slice_size ← div64 (sd_size dd) (sd_sharding dd);
    to ← match dst_shard with
         | Some d =>
             '(s, bounds) ← single_slice d dst src dim num_slices_per_source;
             mret [mkSlice s d bounds]
         | None => mret []
         end;
    from ← match src_shard with
           | Some s =>
               l ← multi_slices s src dst dim num_slices_per_source;
               mret ((fun '(d, bounds) => mkSlice s d bounds) <$> l)
           | None => mret []
           end;
    mret (mkScatterGather from to).
End Limits.

(** ** Boxes

    [MakeTileBoxN] reads [index] at the position of the box, so it agrees with
    the tile bounds when a replica dimension, if any, is the last one. *)
Definition boxable (s : Sharding) : Prop :=
  replicas (removelast (dims s)) = [] /\ (replicas (dims s) = [] \/ 1 < num_tiles s) /\
  dims s <> [].

#[export] Instance boxable_dec s : Decision (boxable s).
Proof. unfold boxable. apply _. Defined.

Lemma reals_no_replicas l : replicas l = [] -> reals l = l.
Proof.
  induction l as [|d l IH]; [done|]. rewrite replicas_cons, reals_cons.
  destruct (is_replica d); [done|]. intros H. f_equal. by apply IH.
Qed.

Lemma boxable_last s : boxable s ->
  exists l d, dims s = l ++ [d] /\ replicas l = [] /\ reals l = l.
Proof.
  intros (Hr & _ & Hne). destruct (exists_last Hne) as (l & d & E). exists l, d.
  rewrite E, removelast_last in Hr. eauto using reals_no_replicas.
Qed.

(** Before a real dimension, every dimension is real. *)
Lemma boxable_prefix s k d : boxable s -> dims s !! k = Some d -> is_replica d = false \/ k = (length (dims s) - 1)%nat.
Proof.
  intros Hb Hd. destruct (boxable_last s Hb) as (l & d' & E & Hr & _).
  rewrite E in Hd |- *. rewrite length_app, Nat.add_sub.
  destruct (decide (k < length l)%nat) as [Hk|Hk].
  - left. rewrite lookup_app_l in Hd by done.
    apply list_elem_of_lookup_2 in Hd. destruct (is_replica d) eqn:Hrd; [|done].
    assert (d ∈ replicas l) by (apply elem_of_replicas; done). rewrite Hr in *. set_solver.
  - right. apply lookup_lt_Some in Hd. rewrite length_app in Hd. cbn in Hd. lia.
Qed.

Lemma boxable_take s k : boxable s -> (k < length (dims s))%nat -> reals (take k (dims s)) = take k (dims s).
Proof.
  intros Hb Hk. destruct (boxable_last s Hb) as (l & d' & E & Hr & _).
  rewrite E in Hk |- *. rewrite length_app in Hk. cbn in Hk. rewrite take_app_le by lia.
  apply reals_no_replicas. rewrite <- (take_drop k l) in Hr.
  unfold replicas in *. rewrite filter_app in Hr. by apply app_eq_nil in Hr as [-> _].
Qed.

Section Boxes.
Context `{!RealmLimits} (s : Sharding) (Hwf : wf s) (Hbox : boxable s).

Lemma box_step_ok N idx k d x :
  valid_index s idx -> dims s !! k = Some d -> idx !! k = Some x ->
  (length (reals (dims s)) <= N)%nat ->
  let ivs k := tile_ivals (take k (dims s)) (take k idx) in
  let st k := (mkBuf (buf_of N ((ivs k).*1)) (buf_of N ((ivs k).*2)),
               Z.of_nat (length (ivs k))) in
  box_step idx s (st k) (Z.of_nat k) = Ret (st (S k)).
Proof.
  intros Hv Hd Hx HN ivs st. pose proof (Forall2_length _ _ _ Hv) as Hlen.
  assert (Hin : d ∈ dims s) by (by eapply list_elem_of_lookup_2).
  pose proof (wf_dims s Hwf d Hin) as Hwd. pose proof (wf_size_i64 s Hwf d Hin).
  pose proof (lookup_lt_Some _ _ _ Hd) as Hk.
  assert (Hnext : ivs (S k) = ivs k ++ (if is_replica d then []
    else [(tile_extent d * x, tile_extent d * x + tile_extent d - 1)])).
  { unfold ivs. rewrite (take_S_r _ _ _ Hd), (take_S_r _ _ _ Hx). apply tile_ivals_snoc.
    rewrite !length_take. lia. }
  assert (Hlk : length (ivs k) = k).
  { unfold ivs. rewrite tile_ivals_length by (rewrite !length_take; lia).
    rewrite (boxable_take s k Hbox Hk), length_take. lia. }
  unfold box_step, st. rewrite (vec_get_lookup _ _ _ Hd). cbn [mbind outcome_bind].
  destruct Hwd as (Hs1 & Hsh & Hdv). rewrite div64_ok by (unfold i64; lia).
  cbn [mbind outcome_bind]. fold (tile_extent d). rewrite Hnext.
  destruct (is_replica d) eqn:Hr.
  - apply is_replica_spec in Hr. unfold tile_extent. rewrite Z.div_small by lia.
    by rewrite app_nil_r.
  - destruct (is_replica_false d (wf_dims s Hwf d Hin) Hr) as [Hs He].
    rewrite (proj2 (Z.ltb_lt 0 (tile_extent d))) by lia.
    pose proof (dim_coord_range s idx k d x Hv Hd Hx).
    rewrite Hlk at 1. rewrite (vec_get_lookup _ _ _ Hx). cbn [mbind outcome_bind].
    rewrite mul64_ok by (unfold i64; nia). cbn [mbind outcome_bind].
    rewrite (Z.mul_comm x).
    assert (HkN : (k < N)%nat).
    { enough (S k <= length (reals (dims s)))%nat by lia.
      rewrite <- (take_drop (S k) (dims s)), reals_app, length_app, (take_S_r _ _ _ Hd).
      rewrite reals_app, length_app, (boxable_take s k Hbox Hk), length_take, reals_cons, Hr.
      cbn. lia. }
    pose proof (rect_set_next (ivs k) N (tile_extent d * x)
      (tile_extent d * x + tile_extent d - 1) ltac:(lia)) as Hset.
    destruct (set_lo _ _ _) as [r|?|?|]; cbn [mbind outcome_bind] in Hset |- *; try done.
    rewrite add64_ok by (unfold i64; nia). cbn [mbind outcome_bind].
    rewrite sub64_ok by (unfold i64; nia). cbn [mbind outcome_bind].
    rewrite Hset. cbn [mbind outcome_bind].
    rewrite length_app. cbn [length]. do 2 f_equal. lia.
Qed.

Lemma boxable_reals : reals (dims s) <> [].
Proof.
  destruct Hbox as (_ & Hr & Hne). intros Hc.
  destruct (no_reals s Hwf Hc) as [Hd|(d & Hd & Hrd)]; [done|].
  destruct Hr as [Hr|Hr].
  - rewrite Hd, replicas_cons, Hrd in Hr. done.
  - unfold num_tiles in Hr. rewrite Hc in Hr. cbn in Hr. lia.
Qed.

Lemma MakeTileBoxN_ok N idx :
  valid_index s idx -> N = length (reals (dims s)) ->
  MakeTileBoxN N idx s = Ret (tile_rect s idx).
Proof.
  intros Hv HN. pose proof (Forall2_length _ _ _ Hv) as Hlen.
  pose proof (tile_ivals_length (dims s) idx Hlen) as Htl. pose proof boxable_reals as Hne.
  assert (Hop : or_point (tile_ivals (dims s) idx) = tile_ivals (dims s) idx).
  { destruct (tile_ivals (dims s) idx); [|done]. by destruct (reals (dims s)). }
  unfold MakeTileBoxN, tile_rect. rewrite Hop.
  set (ivs k := tile_ivals (take k (dims s)) (take k idx)).
  destruct (foldM_range (box_step idx s)
    (fun k st => st = (mkBuf (buf_of N ((ivs k).*1)) (buf_of N ((ivs k).*2)),
                       Z.of_nat (length (ivs k))))
    0 (length (dims s)) (rect_new N, 0)) as (r & -> & ->).
  - unfold ivs, rect_new. cbn. by rewrite <- !buf_of_nil.
  - intros k st Hk ->. destruct (lookup_lt_is_Some_2 _ _ Hk) as [d Hd].
    destruct (Forall2_lookup_l _ _ _ _ _ Hv Hd) as (x & Hx & _).
    eexists; split; [|done]. rewrite Z.add_0_l.
    apply (box_step_ok N _ k d x Hv Hd Hx). lia.
  - cbn [mbind outcome_bind]. unfold ivs. rewrite !take_ge by lia.
    apply rect_done_ok. lia.
Qed.

(** The number of dimensions of a box is the number of real dimensions. *)
Lemma box_dims :
  (if bool_decide (1 < num_tiles s /\ 1 < replication s)
   then num_dims s - 1 else num_dims s) = Z.of_nat (length (reals (dims s))).
Proof.
  unfold num_dims, replication. destruct (boxable_last s Hbox) as (l & d & E & Hrl & Hl).
  destruct Hbox as (_ & Hr & _). rewrite E in Hr |- *.
  assert (Hrep : replicas (l ++ [d]) = if is_replica d then [d] else []).
  { unfold replicas in *. rewrite filter_app, Hrl. cbn.
    destruct (is_replica d) eqn:Hd; by rewrite ?decide_True, ?decide_False by (by rewrite Hd). }
  rewrite Hrep, reals_app, Hl, reals_cons, !length_app. cbn [length] in *.
  rewrite Hrep in Hr. destruct (is_replica d) eqn:Hd; cbn.
  - apply is_replica_spec in Hd. destruct Hr as [Hr|Hr]; [done|].
    rewrite bool_decide_eq_true_2 by lia. lia.
  - rewrite bool_decide_eq_false_2 by lia. lia.
Qed.

Lemma MakeTileBox_ok idx : rank_supported s -> valid_index s idx ->
  MakeTileBox idx s = Ret (tile_rect s idx).
Proof.
  intros Hrank Hv. unfold MakeTileBox, IsPartiallyReplicated.
  rewrite (TotalSharding_ok s Hwf). cbn [mbind outcome_bind mret outcome_ret].
  assert (Hb : (1 <? num_tiles s) && (num_tiles s <? DeviceListOps.size (devices s)) =
               bool_decide (1 < num_tiles s /\ 1 < replication s)).
  { unfold DeviceListOps.size. pose proof (tiles_replication s Hwf).
    pose proof (num_tiles_pos s Hwf). bool_cases; nia. }
  rewrite Hb, box_dims.
  rewrite <- (MakeTileBoxN_ok (length (reals (dims s))) idx Hv eq_refl).
  pose proof boxable_reals as Hne. unfold rank_supported in Hrank.
  destruct (length (reals (dims s))) as [|n] eqn:Hn.
  { apply length_zero_iff_nil in Hn. done. }
  destruct Hrank as [Hr|[Hr5 Hr]].
  - do 4 (destruct n as [|n]; [reflexivity|]). lia.
  - injection Hr5 as ->. rewrite (proj2 (Z.leb_le _ _) Hr). reflexivity.
Qed.
End Boxes.

(** ** The finer and the coarser sharding

    [f] splits dimension [dim] of [c] into [k] times as many parts and is equal
    to [c] otherwise; both number their shards in dimension order. *)
Definition refines (dim : nat) (k : Z) (f c : Sharding) : Prop :=
  wf f /\ wf c /\ unpermuted f /\ boxable f /\ 1 < k /\
  match dims f !! dim with
  | Some d =>
      1 < sd_size d /\ sd_sharding d mod k = 0 /\
      dims c = <[dim := mkDim (sd_size d) (sd_sharding d / k) (sd_permutation d)]> (dims f)
  | None => False
  end.

#[export] Instance refines_dec dim k f c : Decision (refines dim k f c).
Proof. unfold refines, unpermuted. destruct (dims f !! dim); apply _. Defined.

Definition coarsen (dim : nat) (k : Z) (idx : list Z) : list Z :=
  <[dim := idx !!! dim / k]> idx.

Definition child (dim : nat) (k : Z) (idx : list Z) (j : Z) : list Z :=
  <[dim := idx !!! dim * k + j]> idx.

(** The slice between a source and a target shard. *)
Definition sg_single (dim : nat) (k : Z) (f c : Sharding) (i : Z) : Z * RealmShape :=
  (owner c (coarsen dim k (tile_index f i)), tile_rect f (tile_index f i)).

Definition sg_multi (dim : nat) (k : Z) (f c : Sharding) (i : Z) : list (Z * RealmShape) :=
  (fun j => (owner f (child dim k (tile_index c i) j),
             tile_rect f (child dim k (tile_index c i) j))) <$> seqZ 0 k.

Section Refines.
Context (dim : nat) (k : Z) (f c : Sharding) (Href : refines dim k f c).

Lemma refines_dim :
  exists d d', dims f !! dim = Some d /\ dims c !! dim = Some d' /\
    dims c = <[dim := d']> (dims f) /\ 1 < sd_size d /\ sd_size d' = sd_size d /\
    sd_permutation d' = sd_permutation d /\ sd_sharding d = k * sd_sharding d' /\
    1 <= sd_sharding d'.
Proof.
  destruct Href as (Hf & Hc & _ & _ & Hk & Hd).
  destruct (dims f !! dim) as [d|] eqn:Hfd; [|done]. destruct Hd as (Hs & Hm & Hcd).
  exists d, (mkDim (sd_size d) (sd_sharding d / k) (sd_permutation d)).
  assert (Hl : dims c !! dim = Some (mkDim (sd_size d) (sd_sharding d / k) (sd_permutation d))).
  { rewrite Hcd. apply list_lookup_insert_eq. by eapply lookup_lt_Some. }
  pose proof (wf_sharding_pos c Hc _ (list_elem_of_lookup_2 _ _ _ Hl)).
  pose proof (Z.div_mod (sd_sharding d) k ltac:(lia)). cbn in *. split_and!; try done; lia.
Qed.

Lemma refines_k : 1 < k.
Proof. apply Href. Qed.
Lemma refines_wf_fine : wf f.
Proof. apply Href. Qed.
Lemma refines_wf_coarse : wf c.
Proof. apply Href. Qed.
Lemma refines_boxable : boxable f.
Proof. apply Href. Qed.

Lemma refines_length : length (dims c) = length (dims f).
Proof. destruct refines_dim as (d & d' & _ & _ & -> & _). apply length_insert. Qed.

Lemma refines_unpermuted_fine : unpermuted f.
Proof. apply Href. Qed.

Lemma refines_unpermuted_coarse : unpermuted c.
Proof.
  destruct refines_dim as (d & d' & Hd & _ & Hc & _ & _ & Hp & _).
  unfold unpermuted. rewrite Hc, length_insert, list_fmap_insert, Hp.
  rewrite list_insert_id; [apply refines_unpermuted_fine|by rewrite list_lookup_fmap, Hd].
Qed.

Lemma refines_other j : j <> dim -> dims c !! j = dims f !! j.
Proof.
  intros Hj. destruct refines_dim as (d & d' & _ & _ & -> & _).
  by apply list_lookup_insert_ne.
Qed.

(** *** Coarsening and children stay in range and are inverse *)
Lemma coarsen_valid idx : valid_index f idx -> valid_index c (coarsen dim k idx).
Proof.
  intros Hv. destruct refines_dim as (d & d' & Hd & _ & Hc & _ & _ & _ & Hs & _).
  unfold valid_index, coarsen. rewrite Hc. apply Forall2_insert; [done|].
  destruct (Forall2_lookup_l _ _ _ _ _ Hv Hd) as (x & Hx & Hb).
  rewrite (list_lookup_total_correct _ _ _ Hx). pose proof refines_k.
  split; [apply Z.div_pos; lia|]. apply Z.div_lt_upper_bound; lia.
Qed.

Lemma child_valid idx j : valid_index c idx -> 0 <= j < k -> valid_index f (child dim k idx j).
Proof.
  intros Hv Hj. destruct refines_dim as (d & d' & Hd & Hd' & Hc & _ & _ & _ & Hs & _).
  assert (Hf : dims f = <[dim := d]> (dims c)).
  { rewrite Hc, list_insert_insert_eq. symmetry. by apply list_insert_id. }
  unfold valid_index, child. rewrite Hf. apply Forall2_insert; [done|].
  destruct (Forall2_lookup_l _ _ _ _ _ Hv Hd') as (x & Hx & Hb).
  rewrite (list_lookup_total_correct _ _ _ Hx). nia.
Qed.

Lemma coarsen_child idx j : valid_index c idx -> 0 <= j < k ->
  coarsen dim k (child dim k idx j) = idx.
Proof.
  intros Hv Hj. destruct refines_dim as (d & d' & _ & Hd' & _).
  destruct (Forall2_lookup_l _ _ _ _ _ Hv Hd') as (x & Hx & _).
  pose proof (lookup_lt_Some _ _ _ Hx). unfold coarsen, child.
  rewrite list_lookup_total_insert_eq, list_insert_insert_eq by done.
  rewrite (list_lookup_total_correct _ _ _ Hx), Z.div_add_l, Z.div_small by lia.
  rewrite Z.add_0_r. by apply list_insert_id.
Qed.

Lemma child_coarsen idx : valid_index f idx ->
  0 <= idx !!! dim mod k < k /\ child dim k (coarsen dim k idx) (idx !!! dim mod k) = idx.
Proof.
  intros Hv. destruct refines_dim as (d & d' & Hd & _).
  destruct (Forall2_lookup_l _ _ _ _ _ Hv Hd) as (x & Hx & _).
  pose proof (lookup_lt_Some _ _ _ Hx). pose proof refines_k.
  split; [apply Z.mod_pos_bound; lia|]. unfold coarsen, child.
  rewrite list_lookup_total_insert_eq, list_insert_insert_eq by done.
  rewrite (list_lookup_total_correct _ _ _ Hx).
  apply list_insert_id. rewrite Hx. f_equal.
  pose proof (Z.div_mod x k ltac:(lia)). lia.
Qed.

(** A single slice goes to shard [b] exactly when it is one of the slices of
    [b]: sender and receiver agree on the two shards and on the bounds. *)
Lemma sg_match a b bounds :
  0 <= a < num_devices_ (devices f) -> 0 <= b < num_devices_ (devices c) ->
  sg_single dim k f c a = (b, bounds) <-> (a, bounds) ∈ sg_multi dim k f c b.
Proof.
  intros Ha Hb. pose proof refines_wf_fine as Hf. pose proof refines_wf_coarse as Hc.
  pose proof (tile_index_valid f Hf a) as Hva. pose proof (tile_index_valid c Hc b) as Hvb.
  unfold sg_single, sg_multi. rewrite list_elem_of_fmap. split.
  - intros [= <- <-]. destruct (child_coarsen _ Hva) as [Hj Hcc].
    exists (tile_index f a !!! dim mod k). rewrite elem_of_seqZ.
    rewrite (tile_index_owner c Hc) by by apply coarsen_valid.
    rewrite Hcc, (owner_tile_index f Hf) by done. split; [done|lia].
  - intros (j & [= -> ->] & Hj%elem_of_seqZ).
    rewrite (tile_index_owner f Hf) by (apply child_valid; [done|lia]).
    rewrite coarsen_child by (done || lia). by rewrite (owner_tile_index c Hc).
Qed.

(** *** Tiles *)
Lemma refines_extent d d' :
  dims f !! dim = Some d -> dims c !! dim = Some d' -> tile_extent d' = k * tile_extent d.
Proof.
  intros Hd Hd'. destruct refines_dim as (e & e' & He & He' & _ & Hs1 & Hs & _ & Hsh & Hp).
  simplify_eq. pose proof refines_k.
  pose proof (wf_dims f refines_wf_fine d (list_elem_of_lookup_2 _ _ _ Hd)) as Hw.
  assert (is_replica d = false) as Hr.
  { destruct (is_replica d) eqn:E; [|done]. apply is_replica_spec in E. lia. }
  destruct (is_replica_false d Hw Hr) as [Hsz _].
  unfold tile_extent at 1. rewrite Hs, Hsz, Hsh.
  replace (k * sd_sharding d' * tile_extent d) with (k * tile_extent d * sd_sharding d') by lia.
  apply Z.div_mul. lia.
Qed.
End Refines.

(** ** Replacing one real dimension *)
Section Replace.
Context (d d' : ShardingDim) (k x : Z).
Context (Hd : is_replica d = false) (Hd' : is_replica d' = false).
Context (Hk : 1 < k) (He : 1 <= tile_extent d) (Hext : tile_extent d' = k * tile_extent d).

Lemma replace_replicas n l : l !! n = Some d -> replicas (<[n := d']> l) = replicas l.
Proof.
  revert n. induction l as [|e l IH]; intros [|n] Hl; try done;
    cbn [lookup list_lookup insert list_insert] in Hl |- *.
  - injection Hl as ->. by rewrite !replicas_cons, Hd, Hd'.
  - rewrite !replicas_cons. by rewrite IH.
Qed.

Lemma replace_reals_size n l : l !! n = Some d -> sd_size d' = sd_size d ->
  sd_size <$> reals (<[n := d']> l) = sd_size <$> reals l.
Proof.
  intros Hl Hs. revert n Hl. induction l as [|e l IH]; intros [|n] Hl; try done;
    cbn [lookup list_lookup insert list_insert] in Hl |- *.
  - injection Hl as ->. rewrite !reals_cons, Hd, Hd'. rewrite !fmap_cons. by f_equal.
  - rewrite !reals_cons. destruct (is_replica e); [by apply IH|].
    rewrite !fmap_cons. f_equal. by apply IH.
Qed.

Lemma replace_replica_coord n l idx y :
  l !! n = Some d -> length l = length idx ->
  replica_coord (<[n := d']> l) (<[n := y]> idx) = replica_coord l idx.
Proof.
  revert n idx. induction l as [|e l IH]; intros [|n] [|z idx] Hl Hlen; try done; cbn in *.
  - injection Hl as ->. by rewrite Hd, Hd'.
  - destruct (is_replica e); [done|]. apply IH; [done|lia].
Qed.

(** A tile is inside the coarser tile at the coarsened index. *)
Lemma replace_tile n l idx p :
  l !! n = Some d -> idx !! n = Some x -> length l = length idx ->
  Forall2 in_ival (tile_ivals l idx) p ->
  Forall2 in_ival (tile_ivals (<[n := d']> l) (<[n := x / k]> idx)) p.
Proof.
  revert n idx p. induction l as [|e l IH]; intros [|n] [|z idx] p Hl Hx Hlen Hp; try done;
    cbn in *.
  - injection Hl as ->. injection Hx as ->. rewrite Hd in Hp. rewrite Hd'.
    apply Forall2_cons_inv_l in Hp as (q & p' & [Hq1 Hq2] & Hp & ->). cbn in Hq1, Hq2.
    constructor; [|done]. split; cbn; rewrite Hext;
      pose proof (Z.div_mod x k ltac:(lia)); pose proof (Z.mod_pos_bound x k ltac:(lia)); nia.
  - assert (length l = length idx) by lia. destruct (is_replica e); [by apply IH|].
    apply Forall2_cons_inv_l in Hp as (q & p' & Hq & Hp & ->). constructor; [done|].
    by apply IH.
Qed.
End Replace.

Lemma replica_coord_range l idx :
  (length (replicas l) <= 1)%nat -> in_range l idx ->
  0 <= replica_coord l idx < prodZ (sd_sharding <$> replicas l).
Proof.
  intros H1 Hv. revert H1.
  induction Hv as [|d x l idx Hx Hv IH]; intros H1; cbn [replica_coord]; [cbn; lia|].
  rewrite replicas_cons in H1 |- *. destruct (is_replica d); cbn in H1 |- *; [|by apply IH].
  assert (Hn : replicas l = []) by (apply length_zero_iff_nil; lia). rewrite Hn. cbn. lia.
Qed.

Section RefinesTiles.
Context (dim : nat) (k : Z) (f c : Sharding) (Href : refines dim k f c).

Lemma refines_replace :
  exists d d', dims f !! dim = Some d /\ dims c = <[dim := d']> (dims f) /\
    is_replica d = false /\ is_replica d' = false /\ sd_size d' = sd_size d /\
    1 <= tile_extent d /\ tile_extent d' = k * tile_extent d.
Proof.
  destruct (refines_dim dim k f c Href) as (d & d' & Hd & Hd' & Hc & Hs1 & Hs & _ & _ & _).
  exists d, d'. pose proof (refines_extent dim k f c Href d d' Hd Hd').
  pose proof (wf_dims f (refines_wf_fine _ _ _ _ Href) d (list_elem_of_lookup_2 _ _ _ Hd)) as Hw.
  assert (is_replica d = false) as Hr.
  { destruct (is_replica d) eqn:E; [|done]. apply is_replica_spec in E. lia. }
  assert (is_replica d' = false) as Hr'.
  { destruct (is_replica d') eqn:E; [|done]. apply is_replica_spec in E. lia. }
  destruct (is_replica_false d Hw Hr). done.
Qed.

Lemma refines_replication : replicas (dims c) = replicas (dims f).
Proof.
  destruct refines_replace as (d & d' & Hd & -> & Hr & Hr' & _).
  by apply (replace_replicas d).
Qed.

Lemma refines_in_dims p : in_dims (dims c) p <-> in_dims (dims f) p.
Proof.
  destruct refines_replace as (d & d' & Hd & -> & Hr & Hr' & Hs & _).
  unfold in_dims.
  assert (Hmap : forall l, (fun d => (0, sd_size d - 1)) <$> reals l =
                           (fun n => (0, n - 1)) <$> (sd_size <$> reals l)).
  { intros l. by rewrite <- list_fmap_compose. }
  rewrite !Hmap. by rewrite (replace_reals_size d d' Hr Hr').
Qed.

Lemma refines_no_reals : reals (dims f) <> [] /\ reals (dims c) <> [].
Proof.
  destruct refines_replace as (d & d' & Hd & Hc & Hr & Hr' & _).
  split; intros Hn.
  - assert (d ∈ reals (dims f)) as H; [|by rewrite Hn in H; set_solver].
    apply elem_of_reals. split; [by eapply list_elem_of_lookup_2|done].
  - assert (d' ∈ reals (dims c)) as H; [|by rewrite Hn in H; set_solver].
    apply elem_of_reals. split; [|done]. apply (list_elem_of_lookup_2 _ dim).
    rewrite Hc. apply list_lookup_insert_eq. by eapply lookup_lt_Some.
Qed.

Lemma contains_fine idx p : valid_index f idx ->
  contains (tile_rect f idx) p <-> Forall2 in_ival (tile_ivals (dims f) idx) p.
Proof.
  intros Hv. destruct refines_no_reals as [Hn _]. rewrite (contains_tile f idx p Hv).
  unfold real_point. destruct (reals (dims f)); [done|naive_solver].
Qed.

Lemma contains_coarse idx p : valid_index c idx ->
  contains (tile_rect c idx) p <-> Forall2 in_ival (tile_ivals (dims c) idx) p.
Proof.
  intros Hv. destruct refines_no_reals as [_ Hn]. rewrite (contains_tile c idx p Hv).
  unfold real_point. destruct (reals (dims c)); [done|naive_solver].
Qed.

Lemma coarsen_tile idx p : valid_index f idx -> contains (tile_rect f idx) p ->
  contains (tile_rect c (coarsen dim k idx)) p /\
  replica_coord (dims c) (coarsen dim k idx) = replica_coord (dims f) idx.
Proof.
  intros Hv Hp. apply contains_fine in Hp; [|done].
  rewrite contains_coarse by by apply (coarsen_valid dim k f c Href).
  destruct refines_replace as (d & d' & Hd & Hc & Hr & Hr' & _ & He & Hext).
  pose proof (Forall2_length _ _ _ Hv) as Hlen. pose proof (refines_k _ _ _ _ Href).
  destruct (Forall2_lookup_l _ _ _ _ _ Hv Hd) as (x & Hx & _).
  unfold coarsen. rewrite (list_lookup_total_correct _ _ _ Hx), Hc. split.
  - by apply (replace_tile d).
  - by apply (replace_replica_coord d).
Qed.

(** The children of a coarse tile partition it. *)
Lemma children_partition idx p : valid_index c idx -> contains (tile_rect c idx) p ->
  exists j, 0 <= j < k /\ contains (tile_rect f (child dim k idx j)) p /\
    forall j', 0 <= j' < k -> contains (tile_rect f (child dim k idx j')) p -> j' = j.
Proof.
  intros Hv Hp. pose proof (refines_wf_fine _ _ _ _ Href) as Hf.
  pose proof (refines_wf_coarse _ _ _ _ Href) as Hc.
  pose proof (refines_k _ _ _ _ Href) as Hk.
  assert (Hpc := Hp). apply contains_coarse in Hpc; [|done].
  pose proof (tile_unique _ _ _ (wf_dims c Hc) (replicas_le1 c Hc) Hv Hpc) as Hidx.
  pose proof (tile_inside _ _ _ (wf_dims c Hc) Hv Hpc) as Hin.
  pose proof (replica_coord_range _ _ (replicas_le1 c Hc) Hv) as Hr.
  rewrite refines_replication in Hr. apply refines_in_dims in Hin.
  destruct (tile_exists (dims f) p _ (wf_dims f Hf) (replicas_le1 f Hf) Hin Hr)
    as (Hvf & Hpf & Hrf).
  set (r := replica_coord (dims c) idx) in *. set (fi := point_index (dims f) p r) in *.
  assert (Hco : coarsen dim k fi = idx).
  { destruct (coarsen_tile fi p Hvf) as [Hcp Hcr]; [by apply contains_fine|].
    pose proof (coarsen_valid _ _ _ _ Href fi Hvf) as Hvc.
    apply contains_coarse in Hcp; [|done].
    rewrite (tile_unique _ _ _ (wf_dims c Hc) (replicas_le1 c Hc) Hvc Hcp), Hcr, Hrf.
    by symmetry. }
  destruct (child_coarsen _ _ _ _ Href fi Hvf) as [Hj Hch]. rewrite Hco in Hch.
  exists (fi !!! dim mod k). rewrite Hch. split_and!; [lia|lia|by apply contains_fine|].
  intros j' Hj' Hp'. pose proof (child_valid _ _ _ _ Href idx j' Hv Hj') as Hv'.
  destruct (coarsen_tile _ p Hv' Hp') as [_ Hcr].
  rewrite (coarsen_child _ _ _ _ Href idx j' Hv Hj') in Hcr. fold r in Hcr.
  apply contains_fine in Hp'; [|done].
  pose proof (tile_unique _ _ _ (wf_dims f Hf) (replicas_le1 f Hf) Hv' Hp') as Hu.
  rewrite <- Hcr in Hu. fold fi in Hu. rewrite <- Hu. unfold child.
  destruct (refines_dim _ _ _ _ Href) as (d & d' & _ & Hd' & _).
  destruct (Forall2_lookup_l _ _ _ _ _ Hv Hd') as (x & Hx & _).
  rewrite list_lookup_total_insert_eq by (by eapply lookup_lt_Some).
  rewrite Z.add_comm, Z_mod_plus_full. symmetry. by apply Z.mod_small.
Qed.
End RefinesTiles.

(** ** What the code computes on such a pair *)
Section Code.
Context `{!RealmLimits} (dim : nat) (k : Z) (f c : Sharding) (Href : refines dim k f c).
Context (Hrank : rank_supported f).

Lemma refines_rank : rank_supported c.
Proof.
  unfold rank_supported in *.
  assert (length (reals (dims c)) = length (reals (dims f))) as ->; [|done].
  destruct (refines_replace dim k f c Href) as (d & d' & Hd & Hc & Hr & Hr' & Hs & _).
  pose proof (replace_reals_size d d' Hr Hr' dim _ Hd Hs) as Hl. rewrite <- Hc in Hl.
  apply (f_equal length) in Hl. by rewrite !length_fmap in Hl.
Qed.

Lemma coordinate_i64 s idx j x : wf s -> valid_index s idx -> idx !! j = Some x ->
  0 <= x <= i64_max.
Proof.
  intros Hs Hv Hx. destruct (Forall2_lookup_r _ _ _ _ _ Hv Hx) as (d & Hd & Hb).
  pose proof (list_elem_of_lookup_2 _ _ _ Hd) as Hin.
  assert (Hpr : prodZ (sd_sharding <$> dims s) = num_devices_ (devices s)) by apply Hs.
  pose proof (num_devices_i64 s Hs).
  pose proof (prodZ_elem_le (sd_sharding <$> dims s) (sd_sharding d)
    ltac:(apply Forall_fmap, Forall_forall; by apply wf_sharding_pos)
    ltac:(by apply list_elem_of_fmap_2)). lia.
Qed.

Lemma single_slice_ok i : 0 <= i < num_devices_ (devices f) ->
  single_slice i f c (Z.of_nat dim) k = Ret (sg_single dim k f c i).
Proof.
  intros Hi. pose proof (refines_wf_fine _ _ _ _ Href) as Hf.
  pose proof (refines_wf_coarse _ _ _ _ Href) as Hc. pose proof (refines_k _ _ _ _ Href).
  pose proof (tile_index_valid f Hf i) as Hv. unfold single_slice, sg_single.
  rewrite (ComputeTileIndex_ok f Hf) by done. cbn [mbind outcome_bind].
  rewrite (MakeTileBox_ok f Hf (refines_boxable _ _ _ _ Href) _ Hrank Hv).
  cbn [mbind outcome_bind].
  destruct (refines_dim _ _ _ _ Href) as (d & d' & Hd & _).
  destruct (Forall2_lookup_l _ _ _ _ _ Hv Hd) as (x & Hx & _).
  rewrite (vec_get_lookup _ _ _ Hx). cbn [mbind outcome_bind].
  pose proof (coordinate_i64 f _ _ _ Hf Hv Hx).
  rewrite div64_ok by (unfold i64; lia). cbn [mbind outcome_bind].
  pose proof (lookup_lt_Some _ _ _ Hx).
  rewrite vec_set_ok by lia. cbn [mbind outcome_bind]. rewrite Nat2Z.id.
  pose proof (coarsen_valid _ _ _ _ Href _ Hv) as Hvc.
  unfold coarsen in *. rewrite (list_lookup_total_correct _ _ _ Hx) in Hvc |- *.
  rewrite (ComputeTileShard_ok c Hc _ Hvc).
  by rewrite (owner_unpermuted c Hc _ (refines_unpermuted_coarse _ _ _ _ Href) Hvc).
Qed.

Lemma multi_slices_ok i : 0 <= i < num_devices_ (devices c) ->
  multi_slices i c f (Z.of_nat dim) k = Ret (sg_multi dim k f c i).
Proof.
  intros Hi. pose proof (refines_wf_fine _ _ _ _ Href) as Hf.
  pose proof (refines_wf_coarse _ _ _ _ Href) as Hc. pose proof (refines_k _ _ _ _ Href).
  pose proof (tile_index_valid c Hc i) as Hv. unfold multi_slices, sg_multi.
  assert (k <= i64_max).
  { destruct (refines_dim _ _ _ _ Href) as (e & e' & He & _ & _ & Hs1 & _ & _ & Hsh & He1).
    pose proof (wf_size_i64 f Hf e (list_elem_of_lookup_2 _ _ _ He)).
    pose proof (wf_dims f Hf e (list_elem_of_lookup_2 _ _ _ He)) as Hw.
    destruct (is_replica e) eqn:Hr; [apply is_replica_spec in Hr; lia|].
    destruct (is_replica_false e Hw Hr). nia. }
  rewrite reserve_ok by lia. cbn [mbind outcome_bind].
  rewrite (ComputeTileIndex_ok c Hc) by done. cbn [mbind outcome_bind].
  set (idx := tile_index c i) in *.
  destruct (refines_dim _ _ _ _ Href) as (d & d' & _ & Hd' & _).
  destruct (Forall2_lookup_l _ _ _ _ _ Hv Hd') as (x & Hx & Hxb).
  assert (Hch : forall j, 0 <= j < k -> x * k + j <= i64_max).
  { intros j Hj. pose proof (child_valid _ _ _ _ Href idx j Hv Hj) as Hvf.
    unfold child in Hvf. rewrite (list_lookup_total_correct _ _ _ Hx) in Hvf.
    eapply (coordinate_i64 f _ dim _ Hf Hvf).
    apply list_lookup_insert_eq. by eapply lookup_lt_Some. }
  pose proof (Hch 0 ltac:(lia)).
  rewrite (vec_get_lookup _ _ _ Hx). cbn [mbind outcome_bind].
  rewrite mul64_ok by (unfold i64; nia). cbn [mbind outcome_bind].
  set (g := fun j => (owner f (child dim k idx j), tile_rect f (child dim k idx j))).
  destruct (foldM_range (slice_step f (Z.of_nat dim) (x * k))
    (fun n '(index, acc) => (exists y, index = <[dim := y]> idx) /\
       acc = g <$> seqZ 0 (Z.of_nat n)) 0 (Z.to_nat k) (idx, []))
    as ([index acc] & E & _ & ->).
  - split; [|done]. exists x. symmetry. by apply list_insert_id.
  - intros n [index acc] Hn [[y ->] ->]. cbn [slice_step].
    specialize (Hch (Z.of_nat n) ltac:(lia)).
    rewrite Z.add_0_l, add64_ok by (unfold i64; nia). cbn [mbind outcome_bind].
    pose proof (lookup_lt_Some _ _ _ Hx).
    rewrite vec_set_ok by (rewrite length_insert; lia). cbn [mbind outcome_bind].
    rewrite Nat2Z.id, list_insert_insert_eq.
    pose proof (child_valid _ _ _ _ Href idx (Z.of_nat n) Hv ltac:(lia)) as Hvf.
    assert (Hcx : child dim k idx (Z.of_nat n) = <[dim := x * k + Z.of_nat n]> idx).
    { unfold child. by rewrite (list_lookup_total_correct _ _ _ Hx). }
    rewrite <- Hcx.
    rewrite (MakeTileBox_ok f Hf (refines_boxable _ _ _ _ Href) _ Hrank Hvf).
    cbn [mbind outcome_bind]. rewrite (ComputeTileShard_ok f Hf _ Hvf).
    cbn [mbind outcome_bind].
    rewrite <- (owner_unpermuted f Hf _ (refines_unpermuted_fine _ _ _ _ Href) Hvf).
    eexists; split; [done|]. split; [by eexists|].
    replace (Z.of_nat (S n)) with (Z.of_nat n + 1) by lia.
    rewrite seqZ_app, fmap_app by lia. done.
  - rewrite Z2Nat.id in E by lia. by rewrite E.
Qed.
End Code.

(** The shard ids a configuration may be asked for. *)
Definition shard_ok (s : Sharding) (o : option Z) : Prop :=
  match o with Some i => 0 <= i < num_devices_ (devices s) | None => True end.

Section Config.
Context `{!RealmLimits} (dim : nat) (k : Z) (src dst : Sharding).

Lemma refines_sharding f c d d' : refines dim k f c ->
  dims f !! dim = Some d -> dims c !! dim = Some d' ->
  1 <= sd_sharding d' < sd_sharding d /\ sd_sharding d = k * sd_sharding d' /\
  sd_size d' = sd_size d /\ sd_sharding d <= sd_size d <= i64_max.
Proof.
  intros Href Hd Hd'. pose proof (refines_k _ _ _ _ Href).
  destruct (refines_dim _ _ _ _ Href) as (e & e' & He & He' & _ & Hs1 & Hs & _ & Hsh & Hp).
  simplify_eq. pose proof (refines_wf_fine _ _ _ _ Href) as Hf.
  pose proof (list_elem_of_lookup_2 _ _ _ Hd) as Hin.
  pose proof (wf_size_i64 f Hf d Hin). pose proof (wf_dims f Hf d Hin) as Hw.
  assert (is_replica d = false) as Hr.
  { destruct (is_replica d) eqn:E; [|done]. apply is_replica_spec in E. lia. }
  destruct (is_replica_false d Hw Hr) as [Hsz Hext]. nia.
Qed.

(** The two branches: the finer source, and the finer target. *)
Lemma GetScatterGatherConfig_gather a b :
  refines dim k src dst -> rank_supported src -> shard_ok src a -> shard_ok dst b ->
  GetScatterGatherConfig (Z.of_nat dim) a b src dst =
  Ret (mkScatterGather
    (match a with
     | Some s => let '(d, r) := sg_single dim k src dst s in [mkSlice s d r]
     | None => []
     end)
    (match b with
     | Some d => (fun '(s, r) => mkSlice s d r) <$> sg_multi dim k src dst d
     | None => []
     end)).
Proof.
  intros Href Hrank Ha Hb. pose proof (refines_k _ _ _ _ Href).
  pose proof (num_devices_i64 src (refines_wf_fine _ _ _ _ Href)).
  destruct (refines_dim _ _ _ _ Href) as (d & d' & Hd & Hd' & _).
  destruct (refines_sharding src dst d d' Href Hd Hd') as (Hlt & Hk & Hs & Hi).
  unfold GetScatterGatherConfig.
  rewrite (vec_get_lookup _ _ _ Hd), (vec_get_lookup _ _ _ Hd'). cbn [mbind outcome_bind].
  rewrite (proj2 (Z.eqb_neq _ _)) by lia. cbn [negb assertM mbind outcome_bind mret outcome_ret].
  rewrite (proj2 (Z.ltb_lt _ _)) by lia.
  rewrite div64_ok by (unfold i64; lia). cbn [mbind outcome_bind].
  rewrite div64_ok by (unfold i64; lia). cbn [mbind outcome_bind].
  rewrite Hk, Z.div_mul by lia.
  destruct a as [a|]; [rewrite (single_slice_ok dim k src dst Href Hrank a Ha);
    cbn [mbind outcome_bind]; destruct (sg_single _ _ _ _ a);
    cbn in Ha; rewrite rem64_ok by (unfold i64; lia)|]; cbn [mbind outcome_bind].
  all: destruct b as [b|]; [rewrite (multi_slices_ok dim k src dst Href Hrank b Hb)|].
  all: done.
Qed.

Lemma GetScatterGatherConfig_scatter a b :
  refines dim k dst src -> rank_supported dst -> shard_ok src a -> shard_ok dst b ->
  GetScatterGatherConfig (Z.of_nat dim) a b src dst =
  Ret (mkScatterGather
    (match a with
     | Some s => (fun '(d, r) => mkSlice s d r) <$> sg_multi dim k dst src s
     | None => []
     end)
    (match b with
     | Some d => let '(s, r) := sg_single dim k dst src d in [mkSlice s d r]
     | None => []
     end)).
Proof.
  intros Href Hrank Ha Hb. pose proof (refines_k _ _ _ _ Href).
  destruct (refines_dim _ _ _ _ Href) as (d & d' & Hd & Hd' & _).
  destruct (refines_sharding dst src d d' Href Hd Hd') as (Hlt & Hk & Hs & Hi).
  unfold GetScatterGatherConfig.
  rewrite (vec_get_lookup _ _ _ Hd), (vec_get_lookup _ _ _ Hd'). cbn [mbind outcome_bind].
  rewrite (proj2 (Z.eqb_neq _ _)) by lia. cbn [negb assertM mbind outcome_bind mret outcome_ret].
  rewrite (proj2 (Z.ltb_ge _ _)) by lia.
  rewrite div64_ok by (unfold i64; lia). cbn [mbind outcome_bind].
  rewrite div64_ok by (unfold i64; lia). cbn [mbind outcome_bind].
  rewrite Hk, Z.div_mul by lia.
  destruct b as [b|]; [rewrite (single_slice_ok dim k dst src Href Hrank b Hb);
    cbn [mbind outcome_bind]; destruct (sg_single _ _ _ _ b)|]; cbn [mbind outcome_bind mret outcome_ret].
  all: destruct a as [a|]; [rewrite (multi_slices_ok dim k dst src Href Hrank a Ha)|].
  all: done.
Qed.
End Config.

(** ** Properties *)

(** One of the shardings splits dimension [dim] of the other in [k]. *)
Definition one_dim_reshard `{!RealmLimits} (dim : nat) (k : Z) (src dst : Sharding) : Prop :=
  (refines dim k src dst /\ rank_supported src) \/
  (refines dim k dst src /\ rank_supported dst).

#[export] Instance one_dim_reshard_dec `{!RealmLimits} dim k src dst :
  Decision (one_dim_reshard dim k src dst).
Proof. unfold one_dim_reshard. apply _. Defined.

Section SliceLists.
Context (dim : nat) (k : Z) (f c : Sharding) (Href : refines dim k f c).

Lemma sg_single_range i :
  0 <= (sg_single dim k f c i).1 < num_devices_ (devices c).
Proof.
  cbn. apply (owner_range c (refines_wf_coarse _ _ _ _ Href)).
  apply (coarsen_valid _ _ _ _ Href), (tile_index_valid f (refines_wf_fine _ _ _ _ Href)).
Qed.

Lemma sg_multi_range i x : x ∈ sg_multi dim k f c i ->
  0 <= x.1 < num_devices_ (devices f).
Proof.
  unfold sg_multi. intros (j & -> & Hj%elem_of_seqZ)%list_elem_of_fmap. cbn.
  apply (owner_range f (refines_wf_fine _ _ _ _ Href)).
  apply (child_valid _ _ _ _ Href); [|lia].
  apply (tile_index_valid c (refines_wf_coarse _ _ _ _ Href)).
Qed.

Lemma elem_of_singles i other bounds sl (mk : Z -> RealmShape -> SliceConfig) :
  sg_single dim k f c i = (other, bounds) -> sl ∈ [mk other bounds] ->
  sl = mk (sg_single dim k f c i).1 (sg_single dim k f c i).2.
Proof. intros -> ->%list_elem_of_singleton. done. Qed.
End SliceLists.

(** C16: in a one-dimensional reshard, where the shardings are well formed and one splits
    a single dimension of the other by an exact factor, without permutations and with
    replicas only as the last dimension of at least two tiles ([one_dim_reshard]), the
    sender and the receiver build the same slices: shard [a] of the source sends a slice to shard [b] of the target
    exactly when [b] receives that slice, with the same bounds, from [a]; every
    slice names existing shards; and a processor that holds both shards gets
    both lists. *)
Theorem scatter_gather_matched `{!RealmLimits} (dim : nat) (k : Z) (src dst : Sharding) (a b : Z)
    (Href : one_dim_reshard dim k src dst)
    (Ha : 0 <= a < num_devices_ (devices src)) (Hb : 0 <= b < num_devices_ (devices dst)) :
  exists ca cb,
    GetScatterGatherConfig (Z.of_nat dim) (Some a) None src dst = Ret ca /\
    GetScatterGatherConfig (Z.of_nat dim) None (Some b) src dst = Ret cb /\
    GetScatterGatherConfig (Z.of_nat dim) (Some a) (Some b) src dst =
      Ret (mkScatterGather (from_source ca) (to_target cb)) /\
    (forall sl, sl ∈ from_source ca ->
       slice_src_shard sl = a /\ 0 <= slice_dst_shard sl < num_devices_ (devices dst)) /\
    (forall sl, sl ∈ to_target cb ->
       slice_dst_shard sl = b /\ 0 <= slice_src_shard sl < num_devices_ (devices src)) /\
    (forall sl, sl ∈ from_source ca /\ slice_dst_shard sl = b <->
                sl ∈ to_target cb /\ slice_src_shard sl = a).
Proof.
  destruct Href as [[Href Hrank]|[Href Hrank]].
  - rewrite !(GetScatterGatherConfig_gather dim k src dst) by done.
    destruct (sg_single dim k src dst a) as [d r] eqn:Es.
    do 2 eexists. split_and!; [done..| | |]; cbn [from_source to_target].
    + intros sl ->%list_elem_of_singleton. split; [done|]. cbn.
      pose proof (sg_single_range dim k src dst Href a) as Hrg. by rewrite Es in Hrg.
    + intros sl ([s r'] & -> & Hx)%list_elem_of_fmap. split; [done|].
      apply (sg_multi_range dim k src dst Href b _ Hx).
    + intros [s d' r']. rewrite list_elem_of_singleton, list_elem_of_fmap. cbn. split.
      * intros [[= -> -> ->] <-]. split; [|done]. exists (a, r). split; [done|].
        by apply (sg_match dim k src dst Href).
      * intros [([s' r''] & [= -> -> ->] & Hx) ->].
        apply (sg_match dim k src dst Href) in Hx; [|done..]. rewrite Es in Hx.
        by injection Hx as -> ->.
  - rewrite !(GetScatterGatherConfig_scatter dim k src dst) by done.
    destruct (sg_single dim k dst src b) as [s r] eqn:Es.
    do 2 eexists. split_and!; [done..| | |]; cbn [from_source to_target].
    + intros sl ([d r'] & -> & Hx)%list_elem_of_fmap. split; [done|].
      apply (sg_multi_range dim k dst src Href a _ Hx).
    + intros sl ->%list_elem_of_singleton. split; [done|]. cbn.
      pose proof (sg_single_range dim k dst src Href b) as Hrg. by rewrite Es in Hrg.
    + intros [s' d r']. rewrite list_elem_of_singleton, list_elem_of_fmap. cbn. split.
      * intros [([d' r''] & [= -> -> ->] & Hx) ->].
        apply (sg_match dim k dst src Href) in Hx; [|done..]. rewrite Es in Hx.
        by injection Hx as -> ->.
      * intros [[= -> -> ->] <-]. split; [|done]. exists (b, r). split; [done|].
        by apply (sg_match dim k dst src Href).
Qed.

(** C17: in a one-dimensional reshard, where the shardings are well formed and one splits
    a single dimension of the other by an exact factor, without permutations and with
    replicas only as the last dimension of at least two tiles ([one_dim_reshard]), the
    slices a target shard receives tile it exactly: each is inside the
    tile of the shard that sends it and inside the target's own tile, and every
    point of the target's tile is in exactly one of them. *)
Theorem scatter_gather_covers `{!RealmLimits} (dim : nat) (k : Z) (src dst : Sharding) (b : Z)
    (Href : one_dim_reshard dim k src dst) (Hb : 0 <= b < num_devices_ (devices dst)) :
  exists cb rect,
    GetScatterGatherConfig (Z.of_nat dim) None (Some b) src dst = Ret cb /\
    ComputeTileBounds b dst = Ret rect /\
    (forall sl, sl ∈ to_target cb -> exists srect,
       ComputeTileBounds (slice_src_shard sl) src = Ret srect /\
       forall p, contains (slice_bounds sl) p -> contains rect p /\ contains srect p) /\
    (forall p, contains rect p -> exists sl,
       sl ∈ to_target cb /\ contains (slice_bounds sl) p /\
       forall sl', sl' ∈ to_target cb -> contains (slice_bounds sl') p -> sl' = sl).
Proof.
  destruct Href as [[Href Hrank]|[Href Hrank]].
  - pose proof (refines_wf_fine _ _ _ _ Href) as Hf.
    pose proof (refines_wf_coarse _ _ _ _ Href) as Hc.
    pose proof (tile_index_valid dst Hc b) as Hv.
    exists (mkScatterGather [] ((fun '(s, r) => mkSlice s b r) <$> sg_multi dim k src dst b)),
      (tile_rect dst (tile_index dst b)).
    split_and!; cbn [to_target].
    + by apply (GetScatterGatherConfig_gather dim k src dst).
    + apply ComputeTileBounds_ok; [done|by apply (refines_rank dim k src dst)|done].
    + intros sl (x & -> & (j & -> & Hj%elem_of_seqZ)%list_elem_of_fmap)%list_elem_of_fmap.
      cbn. pose proof (child_valid _ _ _ _ Href _ j Hv ltac:(lia)) as Hvj.
      eexists. split; [apply ComputeTileBounds_ok; [done|done|by apply owner_range]|].
      rewrite (tile_index_owner src Hf _ Hvj). intros p Hp. split; [|done].
      destruct (coarsen_tile dim k src dst Href _ p Hvj Hp) as [Hcp _].
      by rewrite (coarsen_child _ _ _ _ Href) in Hcp by (done || lia).
    + intros p Hp. destruct (children_partition dim k src dst Href _ p Hv Hp)
        as (j & Hj & Hin & Hu).
      exists (mkSlice (owner src (child dim k (tile_index dst b) j)) b
                 (tile_rect src (child dim k (tile_index dst b) j))). split_and!.
      * apply list_elem_of_fmap. eexists (_, _). split; [done|].
        apply list_elem_of_fmap. exists j. split; [done|]. apply elem_of_seqZ. lia.
      * done.
      * intros sl (x & -> & (j' & -> & Hj'%elem_of_seqZ)%list_elem_of_fmap)%list_elem_of_fmap.
        cbn. intros Hin'. by rewrite (Hu j' ltac:(lia) Hin').
  - pose proof (refines_wf_fine _ _ _ _ Href) as Hf.
    pose proof (refines_wf_coarse _ _ _ _ Href) as Hc.
    pose proof (tile_index_valid dst Hf b) as Hv.
    exists (mkScatterGather [] [mkSlice (sg_single dim k dst src b).1 b
                                       (sg_single dim k dst src b).2]),
      (tile_rect dst (tile_index dst b)).
    split_and!; cbn [to_target].
    + by rewrite (GetScatterGatherConfig_scatter dim k src dst None (Some b)).
    + by apply ComputeTileBounds_ok.
    + intros sl ->%list_elem_of_singleton. cbn.
      pose proof (coarsen_valid _ _ _ _ Href _ Hv) as Hvc.
      eexists. split; [apply ComputeTileBounds_ok;
        [done|by apply (refines_rank dim k dst src)|by apply owner_range]|].
      rewrite (tile_index_owner src Hc _ Hvc). intros p Hp. split; [done|].
      by destruct (coarsen_tile dim k dst src Href _ p Hv Hp).
    + intros p Hp. eexists. split_and!; [by apply list_elem_of_singleton|done|].
      by intros sl ->%list_elem_of_singleton.
Qed.

(** A 2 x 2 tiling in two copies resharded to 4 x 2, and back. *)
Definition example_coarse : Sharding :=
  mkSharding [mkDim 8 2 0; mkDim 6 2 1; mkDim 1 2 2] (mkDeviceList 0 8).
Definition example_fine : Sharding :=
  mkSharding [mkDim 8 4 0; mkDim 6 2 1; mkDim 1 2 2] (mkDeviceList 8 16).

Lemma scatter_gather_matched_witness :
  let _ : RealmLimits := 3 in
  exists ca cb,
    GetScatterGatherConfig 0 (Some 5) None example_coarse example_fine = Ret ca /\
    GetScatterGatherConfig 0 None (Some 13) example_coarse example_fine = Ret cb /\
    mkSlice 5 13 (mkRect [6; 0] [7; 2]) ∈ from_source ca /\
    mkSlice 5 13 (mkRect [6; 0] [7; 2]) ∈ to_target cb.
Proof.
  intros L.
  destruct (scatter_gather_matched 0 2 example_coarse example_fine 5 13)
    as (ca & cb & Ea & Eb & _ & _ & _ & Hm);
    [by apply (bool_decide_unpack _)|by apply (bool_decide_unpack _)..|].
  exists ca, cb. split; [exact Ea|]. split; [exact Eb|].
  assert (mkSlice 5 13 (mkRect [6; 0] [7; 2]) ∈ from_source ca) as Hin.
  { vm_compute in Ea. injection Ea as <-. by apply (bool_decide_unpack _). }
  split; [exact Hin|]. by apply Hm.
Defined.

Lemma scatter_gather_covers_witness :
  let _ : RealmLimits := 3 in
  exists cb,
    GetScatterGatherConfig 0 None (Some 3) example_fine example_coarse = Ret cb /\
    forall p, contains (mkRect [0; 3] [3; 5]) p -> exists sl,
      sl ∈ to_target cb /\ contains (slice_bounds sl) p.
Proof.
  intros L.
  destruct (scatter_gather_covers 0 2 example_fine example_coarse 3)
    as (cb & rect & Eb & Er & _ & Hc);
    [by apply (bool_decide_unpack _)|by apply (bool_decide_unpack _)|].
  exists cb. split; [exact Eb|]. vm_compute in Er. injection Er as <-.
  intros p Hp. destruct (Hc p Hp) as (sl & Hin & Hp' & _). by exists sl.
Defined.

(** When the replica dimension is not the last one, [MakeTileBoxN] reads the
    index of the wrong dimension: on a well-formed sharding the box of a shard
    is not its tile. *)
Theorem make_tile_box_needs_replica_last `{!RealmLimits} :
  exists s i idx box rect,
    wf s /\ unpermuted s /\ 0 <= i < num_devices_ (devices s) /\
    ComputeTileIndex i s = Ret idx /\ MakeTileBox idx s = Ret box /\
    ComputeTileBounds i s = Ret rect /\
    contains box [0] /\ ~ contains rect [0].
Proof.
  exists (mkSharding [mkDim 1 2 0; mkDim 8 2 1] (mkDeviceList 0 4)), 1, [0; 1],
    (mkRect [0] [3]), (mkRect [4] [7]).
  split_and!; try done; [by apply (bool_decide_unpack _)..|].
  by apply (bool_decide_unpack _).
Qed.

(** With a permutation the two sides of a one-dimensional reshard disagree:
    between two well-formed shardings that differ in one dimension, a source
    shard sends a slice that its target shard does not receive. *)
Theorem scatter_gather_permuted_mismatch `{!RealmLimits} :
  exists dim src dst a b ca cb sl,
    wf src /\ wf dst /\ boxable src /\ boxable dst /\
    0 <= a < num_devices_ (devices src) /\ 0 <= b < num_devices_ (devices dst) /\
    GetScatterGatherConfig dim (Some a) None src dst = Ret ca /\
    GetScatterGatherConfig dim None (Some b) src dst = Ret cb /\
    sl ∈ from_source ca /\ slice_dst_shard sl = b /\ sl ∉ to_target cb.
Proof.
  exists 0, (mkSharding [mkDim 8 2 1; mkDim 8 2 0] (mkDeviceList 0 4)),
    (mkSharding [mkDim 8 4 1; mkDim 8 2 0] (mkDeviceList 4 8)), 1, 4.
  do 2 eexists. exists (mkSlice 1 4 (mkRect [4; 0] [5; 3])).
  split_and!;
    lazymatch goal with
    | |- _ = Ret _ => vm_compute; reflexivity
    | _ => by apply (bool_decide_unpack _)
    end.
Qed.
