(* ===== verification/Broadcast.v ===== *)
(** Broadcast configurations (src/zuku/reshard_broadcast.{h,cc}): the tree by
    which a replicated array is copied to more devices than it is on.
    [GetTargetConfig] with its three loops and [GetBroadcastConfig] are followed
    statement by statement; the specification is the binomial tree in which the
    parent of a rank clears its lowest set bit.  The theorems are about what the
    processors are told for all shards that they hold ([processor_config]). *)
From stdpp Require Import base tactics list list_numbers numbers option sets gmap.
From Stdlib Require Import ZArith Lia Wf_Z Zwf.
From S2P Require Import Prelude Mesh Shape.
Import ShardingOps.
Open Scope Z_scope.

Record SourceConfig : Type := mkSource { dst_root_shards : list Z }.

Record TargetConfig : Type := mkTarget {
  tc_src_shard : option Z;
  tc_dst_root_shard : option Z;
  tc_dst_leaf_shards : list Z;
}.

Record BroadcastConfig : Type := mkBroadcast {
  bc_source : option SourceConfig;
  bc_target : option TargetConfig;
}.

#[export] Instance SourceConfig_eq_dec : EqDecision SourceConfig.
Proof. solve_decision. Defined.
#[export] Instance TargetConfig_eq_dec : EqDecision TargetConfig.
Proof. solve_decision. Defined.
#[export] Instance BroadcastConfig_eq_dec : EqDecision BroadcastConfig.
Proof. solve_decision. Defined.

(** [operator==]; optionals and vectors compare their elements. *)
Definition source_eqb (a b : SourceConfig) : bool := bool_decide (dst_root_shards a = dst_root_shards b).
Definition target_eqb (a b : TargetConfig) : bool :=
  bool_decide (tc_src_shard a = tc_src_shard b) &&
  bool_decide (tc_dst_root_shard a = tc_dst_root_shard b) &&
  bool_decide (tc_dst_leaf_shards a = tc_dst_leaf_shards b).
Definition optional_eqb {A} (eqb : A -> A -> bool) (a b : option A) : bool :=
  match a, b with Some a, Some b => eqb a b | None, None => true | _, _ => false end.
Definition broadcast_eqb (a b : BroadcastConfig) : bool :=
  optional_eqb source_eqb (bc_source a) (bc_source b) && optional_eqb target_eqb (bc_target a) (bc_target b).

(** It is equality. *)
Lemma broadcast_eqb_eq a b : broadcast_eqb a b = true <-> a = b.
Proof.
  destruct a as [[[]|] [[]|]], b as [[[]|] [[]|]]; unfold broadcast_eqb, source_eqb, target_eqb; cbn;
    rewrite ?andb_true_iff, ?bool_decide_eq_true; naive_solver.
Qed.

(** The loops of [GetTargetConfig] halve or double a power of two below 2^63:
    64 iterations are enough for each. *)
Definition loop_fuel : nat := 64.

(** [while (power < num_leaves) { power *= 2; }] *)
Fixpoint next_power_loop (fuel : nat) (power num_leaves : Z) : outcome Z :=
  match fuel with
  | O => NoFuel
  | S fuel =>
      if power <? num_leaves then p ← mul64 power 2; next_power_loop fuel p num_leaves
      else mret power
  end.

(** [while (split_start != my_rank) { ... }] *)
Fixpoint split_loop (fuel : nat) (my_rank split_start split_size : Z) : outcome (Z * Z) :=
  match fuel with
  | O => NoFuel
  | S fuel =>
      if split_start =? my_rank then mret (split_start, split_size)
      else
        split_size ← div64 split_size 2;
        split_start ←
          (if split_start <? my_rank then add64 split_start split_size
           else if my_rank <? split_start then sub64 split_start split_size
           else mret split_start);
        split_loop fuel my_rank split_start split_size
  end.

(** [while (next_leaf < num_leaves && split_size > 0) { ... }] *)
Fixpoint targets_loop (fuel : nat) (dest_root_shard num_leaves next_leaf split_size : Z)
    (targets : list Z) : outcome (list Z) :=
  match fuel with
  | O => NoFuel
  | S fuel =>
      if (next_leaf <? num_leaves) && (0 <? split_size) then
        t ← add64 dest_root_shard next_leaf;
        split_size ← div64 split_size 2;
        next_leaf ← sub64 next_leaf split_size;
        targets_loop fuel dest_root_shard num_leaves next_leaf split_size (targets ++ [t])
      else mret targets
  end.

Definition GetTargetConfig (src_shard dest_root_shard : Z) (dst_devices : DeviceList)
    (my_rank : Z) : outcome TargetConfig :=
  let num_leaves := DeviceListOps.size dst_devices in
  odd ← rem64 my_rank 2;
  if negb (odd =? 0) then
    a ← add64 dest_root_shard my_rank;
    b ← sub64 a 1;
    mret (mkTarget None (Some b) [])
  else
    next_power_of_2 ← next_power_loop loop_fuel 1 num_leaves;
    '(split_start, split_size) ← split_loop loop_fuel my_rank 0 next_power_of_2;
    a ← add64 dest_root_shard my_rank;
    my_source ← sub64 a split_size;
    split_size ← div64 split_size 2;
    next_leaf ← add64 split_start split_size;
    targets ← targets_loop loop_fuel dest_root_shard num_leaves next_leaf split_size [];
    if 0 <? my_rank then mret (mkTarget None (Some my_source) targets)
    else mret (mkTarget (Some src_shard) None targets).

Definition GetBroadcastConfig (src_shard dst_shard : option Z) (src dst : Sharding)
    : outcome BroadcastConfig :=
  let src_size := DeviceListOps.size (devices src) in
  let dst_size := DeviceListOps.size (devices dst) in
  a ← add64 dst_size src_size;
  b ← sub64 a 1;
  leaves_per_root ← div64 b src_size;
  source ← match src_shard with
           | Some s =>
               dst_partner_shard ← mul64 s leaves_per_root;
               if dst_size <=? dst_partner_shard then mret None
               else mret (Some (Some (mkSource [dst_partner_shard])))
           | None => mret (Some None)
           end;
  match source with
  | None => mret (mkBroadcast None None)   (* the extra shard returns early *)
  | Some source =>
      target ← match dst_shard with
               | Some d =>
                   my_src_shard ← div64 d leaves_per_root;
                   tree_offset ← mul64 my_src_shard leaves_per_root;
                   my_rank ← sub64 d tree_offset;
                   rest ← sub64 dst_size tree_offset;
                   let num_leaves := Z.min leaves_per_root rest in
                   devs ← DeviceListOps.slice (devices dst) tree_offset num_leaves;
                   t ← GetTargetConfig my_src_shard tree_offset devs my_rank;
                   mret (Some t)
               | None => mret None
               end;
      mret (mkBroadcast source target)
  end.

(** ** The lowest set bit *)
Fixpoint lowbit_pos (p : positive) : Z :=
  match p with xO p => 2 * lowbit_pos p | _ => 1 end.

(** The lowest set bit of a positive integer, 0 for 0. *)
Definition lowbit (z : Z) : Z := match z with Zpos p => lowbit_pos p | _ => 0 end.

(** The parent of a rank in the tree. *)
Definition parent (r : Z) : Z := r - lowbit r.

Lemma lowbit_spec r : 0 < r ->
  exists t q, 0 <= t /\ lowbit r = 2 ^ t /\ r = 2 ^ t * (2 * q + 1) /\ 0 <= q.
Proof.
  intros Hr. destruct r as [|p|p]; try lia. cbn [lowbit]. clear Hr.
  induction p as [p _|p IH|]; cbn [lowbit_pos].
  - exists 0, (Zpos p). lia.
  - destruct IH as (t & q & Ht & E & Hp & Hq). exists (t + 1), q.
    rewrite Z.pow_add_r by lia. split_and!; lia.
  - exists 0, 0. lia.
Qed.

Lemma lowbit_unique t q : 0 <= t -> 0 <= q -> lowbit (2 ^ t * (2 * q + 1)) = 2 ^ t.
Proof.
  intros Ht Hq. revert q Hq. pattern t. apply natlike_ind; [| |done]; clear t Ht.
  - intros q Hq. rewrite Z.mul_1_l. destruct q as [|q|q]; [done|done|lia].
  - intros t Ht IH q Hq. rewrite Z.pow_succ_r by done. specialize (IH q Hq).
    assert (0 < 2 ^ t * (2 * q + 1)) by (pose proof (Z.pow_pos_nonneg 2 t); nia).
    rewrite <- Z.mul_assoc. destruct (2 ^ t * (2 * q + 1)) as [|p|p]; [lia| |lia].
    change (2 * lowbit (Z.pos p) = 2 * 2 ^ t). by rewrite IH.
Qed.

(** The lowest bit is at most any power of two that divides. *)
Lemma lowbit_pos_bounds r : 0 < r -> 1 <= lowbit r <= r.
Proof.
  intros Hr. destruct (lowbit_spec r Hr) as (t & q & Ht & -> & Hq & Hq0).
  pose proof (Z.pow_pos_nonneg 2 t ltac:(lia) Ht). nia.
Qed.

Lemma parent_range r : 0 < r -> 0 <= parent r < r.
Proof. intros Hr. pose proof (lowbit_pos_bounds r Hr). unfold parent. lia. Qed.

Lemma lowbit_odd r : 0 < r -> r mod 2 = 1 -> lowbit r = 1.
Proof.
  intros Hr Ho. destruct r as [|[p|p|]|]; try done. exfalso.
  rewrite Pos2Z.inj_xO, Z.mul_comm, Z.mod_mul in Ho; lia.
Qed.

Lemma lowbit_even r : 0 < r -> r mod 2 = 0 -> 2 <= lowbit r /\ lowbit r mod 2 = 0.
Proof.
  intros Hr Ho. destruct r as [|[p|p|]|]; try done; try lia.
  - exfalso. rewrite Pos2Z.inj_xI in Ho. pose proof (Z.div_mod (2 * Zpos p + 1) 2 ltac:(lia)). lia.
  - cbn [lowbit lowbit_pos]. pose proof (lowbit_pos_bounds (Zpos p) ltac:(lia)). cbn in *.
    split; [lia|]. rewrite Z.mul_comm. by apply Z.mod_mul.
Qed.

(** ** The loops *)
Lemma pow2_pos j : 0 <= j -> 0 < 2 ^ j.
Proof. intros. apply Z.pow_pos_nonneg; lia. Qed.

Lemma pow2_mono i j : 0 <= i <= j -> 2 ^ i <= 2 ^ j.
Proof. intros. apply Z.pow_le_mono_r; lia. Qed.

Lemma pow2_half j : 0 < j -> 2 ^ j / 2 = 2 ^ (j - 1) /\ 2 ^ j = 2 * 2 ^ (j - 1).
Proof.
  intros Hj. replace j with (Z.succ (j - 1)) at 1 3 by lia. rewrite Z.pow_succ_r by lia.
  rewrite (Z.mul_comm 2 (2 ^ (j - 1))), Z.div_mul by lia. lia.
Qed.

Lemma pow62 : 2 ^ 62 = 4611686018427387904.
Proof. reflexivity. Qed.

(** The power of two that the first loop finds. *)
Lemma next_power_loop_ok fuel j n :
  0 <= j <= Z.log2_up n -> 0 < n <= 2 ^ 62 -> 62 - j < Z.of_nat fuel ->
  next_power_loop fuel (2 ^ j) n = Ret (2 ^ Z.log2_up n).
Proof.
  intros Hj Hn. assert (Hu : Z.log2_up n <= 62) by (apply Z.log2_up_le_pow2; lia).
  revert j Hj. induction fuel as [|fuel IH]; intros j Hj Hf; [lia|].
  cbn [next_power_loop]. destruct (Z.ltb_spec (2 ^ j) n) as [Hlt|Hge].
  - apply Z.log2_up_lt_pow2 in Hlt; [|lia].
    pose proof (pow2_mono j 62 ltac:(lia)) as Hm. rewrite pow62 in Hm.
    pose proof (pow2_pos j ltac:(lia)).
    assert (2 ^ j <= 2 ^ 61) by (apply pow2_mono; lia).
    change (2 ^ 61) with 2305843009213693952 in *.
    rewrite mul64_ok by (unfold i64; lia). cbn [mbind outcome_bind].
    replace (2 ^ j * 2) with (2 ^ (j + 1)) by (rewrite Z.pow_add_r by lia; lia).
    apply IH; lia.
  - assert (j = Z.log2_up n) as ->; [|done].
    apply Z.log2_up_le_pow2 in Hge; lia.
Qed.

(** The second loop finds the rank, with its lowest bit as the split size. *)
Lemma split_loop_ok fuel j u r :
  0 <= j <= 62 -> 0 <= r < 2 ^ 62 -> Z.abs (r - 2 ^ j * u) < 2 ^ j -> j < Z.of_nat fuel ->
  split_loop fuel r (2 ^ j * u) (2 ^ j) =
  Ret (r, if 2 ^ j * u =? r then 2 ^ j else lowbit r).
Proof.
  intros Hj Hr. revert j u Hj. induction fuel as [|fuel IH]; intros j u Hj Hd Hf; [lia|].
  cbn [split_loop]. destruct (Z.eqb_spec (2 ^ j * u) r) as [->|Hne]; [done|].
  assert (Hj0 : j <> 0) by (intros ->; change (2 ^ 0) with 1 in *; lia).
  destruct (pow2_half j ltac:(lia)) as [Hhalf Hdbl].
  pose proof (pow2_mono j 62 ltac:(lia)) as Hm. rewrite pow62 in *.
  pose proof (pow2_pos (j - 1) ltac:(lia)).
  rewrite div64_ok by (unfold i64; lia). cbn [mbind outcome_bind]. rewrite Hhalf.
  (* the next start is an odd multiple of the half *)
  assert (Hnext : forall v, v = 2 * u + 1 \/ v = 2 * u - 1 ->
    Z.abs (r - 2 ^ (j - 1) * v) < 2 ^ (j - 1) ->
    split_loop fuel r (2 ^ (j - 1) * v) (2 ^ (j - 1)) = Ret (r, lowbit r)).
  { intros v Hv Hdv. rewrite (IH (j - 1) v) by lia. do 2 f_equal.
    destruct (Z.eqb_spec (2 ^ (j - 1) * v) r) as [<-|]; [|done].
    symmetry. destruct Hv as [->| ->].
    - apply lowbit_unique; [lia|]. nia.
    - replace (2 * u - 1) with (2 * (u - 1) + 1) in * by lia. apply lowbit_unique; [lia|]. nia. }
  destruct (Z.ltb_spec (2 ^ j * u) r) as [Hlt|Hge].
  - rewrite add64_ok by (unfold i64; nia). cbn [mbind outcome_bind].
    replace (2 ^ j * u + 2 ^ (j - 1)) with (2 ^ (j - 1) * (2 * u + 1)) by lia.
    apply Hnext; [lia|]. lia.
  - rewrite (proj2 (Z.ltb_lt _ _)) by lia.
    rewrite sub64_ok by (unfold i64; nia). cbn [mbind outcome_bind].
    replace (2 ^ j * u - 2 ^ (j - 1)) with (2 ^ (j - 1) * (2 * u - 1)) by lia.
    apply Hnext; [lia|]. lia.
Qed.

(** [base + 2^(j-1), ..., base + 2, base + 1]. *)
Fixpoint leaf_list (base : Z) (j : nat) : list Z :=
  match j with O => [] | S j => base + 2 ^ Z.of_nat j :: leaf_list base j end.

Lemma elem_of_leaf_list base j x :
  x ∈ leaf_list base j <-> exists i, 0 <= i < Z.of_nat j /\ x = base + 2 ^ i.
Proof.
  induction j as [|j IH]; cbn [leaf_list]; [split; [set_solver|intros (i & ? & _); lia]|].
  rewrite elem_of_cons, IH. split.
  - intros [->|(i & Hi & ->)]; [exists (Z.of_nat j); lia|exists i; lia].
  - intros (i & Hi & ->). destruct (decide (i = Z.of_nat j)) as [->|]; [by left|].
    right. exists i. lia.
Qed.

Lemma targets_loop_zero fuel root n r acc :
  (0 < fuel)%nat -> targets_loop fuel root n r 0 acc = Ret acc.
Proof. destruct fuel; [lia|]. cbn. by rewrite andb_false_r. Qed.

(** Once the first leaf is in range, so are the others. *)
Lemma targets_loop_all fuel root n r j acc :
  Z.of_nat j <= 62 -> (S j < fuel)%nat -> 0 <= r -> 0 <= root -> root + n <= i64_max ->
  r + 2 ^ Z.of_nat j < n ->
  targets_loop fuel root n (r + 2 ^ Z.of_nat j) (2 ^ Z.of_nat j) acc =
  Ret (acc ++ leaf_list (root + r) (S j)).
Proof.
  revert fuel acc. induction j as [|j IH]; intros [|fuel] acc Hj Hf Hr Hroot Hn Hlt; try lia;
    cbn [targets_loop].
  - change (2 ^ Z.of_nat 0) with 1 in *. rewrite (proj2 (Z.ltb_lt _ _)) by lia. cbn [andb Z.ltb Z.compare].
    rewrite add64_ok by (unfold i64; lia). cbn [mbind outcome_bind].
    change (div64 1 2) with (Ret 0). cbn [mbind outcome_bind].
    rewrite (sub64_ok _ 0) by (unfold i64; lia). cbn [mbind outcome_bind].
    rewrite Z.sub_0_r, targets_loop_zero by lia. cbn [leaf_list]. change (2 ^ Z.of_nat 0) with 1.
    by rewrite Z.add_assoc.
  - destruct (pow2_half (Z.of_nat (S j)) ltac:(lia)) as [Hh Hd].
    pose proof (pow2_pos (Z.of_nat (S j)) ltac:(lia)).
    pose proof (pow2_mono (Z.of_nat (S j)) 62 ltac:(lia)) as Hm. rewrite pow62 in Hm.
    rewrite (proj2 (Z.ltb_lt _ n)) by lia. rewrite (proj2 (Z.ltb_lt 0 _)) by lia. cbn [andb].
    rewrite add64_ok by (unfold i64; lia). cbn [mbind outcome_bind].
    rewrite div64_ok by (unfold i64; lia). cbn [mbind outcome_bind]. rewrite Hh.
    replace (Z.of_nat (S j) - 1) with (Z.of_nat j) in * by lia.
    pose proof (pow2_pos (Z.of_nat j) ltac:(lia)).
    rewrite sub64_ok by (unfold i64; lia). cbn [mbind outcome_bind].
    replace (r + 2 ^ Z.of_nat (S j) - 2 ^ Z.of_nat j) with (r + 2 ^ Z.of_nat j) by lia.
    rewrite IH by lia. rewrite <- (assoc_L (++)). do 2 f_equal.
    cbn [leaf_list app]. by rewrite Z.add_assoc.
Qed.

(** ** The tree *)
(** The number of ranks in the subtree of a rank, before it is cut off at [n]. *)
Definition span (n r : Z) : Z := if r =? 0 then 2 ^ Z.log2_up n else lowbit r.

Definition leaves (root n r : Z) : list Z :=
  if r + span n r / 2 <? n then leaf_list (root + r) (Z.to_nat (Z.log2 (span n r))) else [].

Lemma span_pow2 n r : 0 < n -> 0 <= r < n ->
  exists t, 0 <= t <= Z.log2_up n /\ span n r = 2 ^ t.
Proof.
  intros Hn Hr. unfold span. destruct (Z.eqb_spec r 0) as [->|Hr0].
  - exists (Z.log2_up n). pose proof (Z.log2_up_nonneg n). lia.
  - destruct (lowbit_spec r ltac:(lia)) as (t & q & Ht & E & Hq & Hq0). exists t.
    split; [|done]. split; [done|]. pose proof (pow2_pos t Ht).
    assert (2 ^ t < n) by nia. apply Z.lt_le_incl, Z.log2_up_lt_pow2; lia.
Qed.

(** The parameters a group of [n] leaves at [root] may have. *)
Definition group_ok (root n : Z) : Prop :=
  0 <= root /\ 0 < n <= 2 ^ 62 /\ root + n <= i64_max.

Lemma target_leaves_ok root n r : group_ok root n -> 0 <= r < n ->
  (split_size ← div64 (span n r) 2;
   next_leaf ← add64 r split_size;
   targets_loop loop_fuel root n next_leaf split_size []) = Ret (leaves root n r).
Proof.
  intros (Hroot & Hn & Hi) Hr. destruct (span_pow2 n r ltac:(lia) Hr) as (t & Ht & E).
  unfold leaves. rewrite E, Z.log2_pow2 by lia.
  assert (Hlog : Z.log2_up n <= 62) by (apply Z.log2_up_le_pow2; lia).
  pose proof (pow2_mono t 62 ltac:(lia)) as Hm. pose proof (pow2_pos t ltac:(lia)).
  rewrite pow62 in *.
  rewrite div64_ok by (unfold i64; lia). cbn [mbind outcome_bind].
  destruct (decide (t = 0)) as [->|Ht0].
  - change (2 ^ 0 / 2) with 0. rewrite add64_ok by (unfold i64; lia). cbn [mbind outcome_bind].
    rewrite targets_loop_zero by (unfold loop_fuel; lia). cbn. by destruct (_ <? _).
  - destruct (pow2_half t ltac:(lia)) as [-> Hd]. pose proof (pow2_pos (t - 1) ltac:(lia)).
    rewrite add64_ok by (unfold i64; lia). cbn [mbind outcome_bind].
    replace (Z.to_nat t) with (S (Z.to_nat (t - 1))) by lia.
    destruct (Z.ltb_spec (r + 2 ^ (t - 1)) n) as [Hlt|Hge].
    + rewrite <- (Z2Nat.id (t - 1)) at 1 2 by lia.
      rewrite targets_loop_all; [done|..]; rewrite ?Z2Nat.id; unfold loop_fuel; lia.
    + unfold loop_fuel. cbn [targets_loop]. by rewrite (proj2 (Z.ltb_ge _ _)) by lia.
Qed.

(** *** [GetTargetConfig] returns the parent and the children of the rank *)
Lemma GetTargetConfig_ok src root start n r : group_ok root n -> 0 <= r < n ->
  GetTargetConfig src root (mkDeviceList start n) r =
  Ret (if r =? 0 then mkTarget (Some src) None (leaves root n r)
       else mkTarget None (Some (root + parent r)) (leaves root n r)).
Proof.
  intros Hg Hr. pose proof (target_leaves_ok root n r Hg Hr) as Hl.
  destruct Hg as (Hroot & Hn & Hi). rewrite pow62 in Hn.
  unfold GetTargetConfig. cbn [DeviceListOps.size num_devices_].
  rewrite rem64_ok by (unfold i64; lia). cbn [mbind outcome_bind].
  assert (0 < 2) as H2 by lia. pose proof (Z.mod_pos_bound r 2 H2).
  destruct (Z.eqb_spec (r mod 2) 0) as [He|Ho]; cbn [negb].
  - pose proof (next_power_loop_ok loop_fuel 0 n) as Hnp. change (2 ^ 0) with 1 in Hnp.
    rewrite Hnp by (pose proof (Z.log2_up_nonneg n); rewrite ?pow62; unfold loop_fuel; lia).
    cbn [mbind outcome_bind]. set (m := Z.log2_up n).
    assert (Hm : 0 <= m <= 62).
    { split; [apply Z.log2_up_nonneg|]. apply Z.log2_up_le_pow2; rewrite ?pow62; lia. }
    assert (Hnm : n <= 2 ^ m).
    { destruct (decide (n = 1)) as [->|]; [done|]. by apply Z.log2_up_spec; lia. }
    pose proof (pow2_pos m ltac:(lia)).
    pose proof (split_loop_ok loop_fuel m 0 r Hm ltac:(rewrite pow62; lia)
      ltac:(lia) ltac:(unfold loop_fuel; lia)) as Hs.
    rewrite Z.mul_0_r in Hs. rewrite Hs. cbn [mbind outcome_bind].
    assert (Hsp : (if 0 =? r then 2 ^ m else lowbit r) = span n r).
    { unfold span. by rewrite Z.eqb_sym. }
    rewrite Hsp. destruct (span_pow2 n r ltac:(lia) Hr) as (t & Ht & E).
    pose proof (pow2_mono t 62 ltac:(lia)) as Hm'. rewrite pow62 in Hm'.
    pose proof (pow2_pos t ltac:(lia)).
    rewrite add64_ok by (unfold i64; lia). cbn [mbind outcome_bind].
    rewrite sub64_ok by (unfold i64; lia). cbn [mbind outcome_bind].
    destruct (div64 (span n r) 2) as [q|?|?|]; cbn [mbind outcome_bind] in Hl |- *; try done.
    destruct (add64 r q) as [x|?|?|]; cbn [mbind outcome_bind] in Hl |- *; try done.
    rewrite Hl. cbn [mbind outcome_bind]. unfold span, parent.
    destruct (Z.eqb_spec r 0) as [->|Hr0]; [done|]. rewrite (proj2 (Z.ltb_lt 0 r)) by lia.
    unfold mret, outcome_ret. do 3 f_equal. lia.
  - rewrite add64_ok by (unfold i64; lia). cbn [mbind outcome_bind].
    rewrite sub64_ok by (unfold i64; lia). cbn [mbind outcome_bind].
    destruct (Z.eqb_spec r 0) as [->|Hr0]; [done|].
    assert (Hlow : lowbit r = 1) by (apply lowbit_odd; lia).
    unfold leaves, span, parent. rewrite (proj2 (Z.eqb_neq r 0)), Hlow by done.
    change (Z.to_nat (Z.log2 1)) with 0%nat. cbn [leaf_list].
    destruct (_ <? n); unfold mret, outcome_ret; do 3 f_equal; lia.
Qed.

(** *** The edges *)
Lemma leaves_edge root n r c : 0 < n -> 0 <= r < n -> 0 <= c < n ->
  root + c ∈ leaves root n r <-> 0 < c /\ parent c = r /\ r + span n r / 2 < n.
Proof.
  intros Hn Hr Hc. unfold leaves.
  destruct (Z.ltb_spec (r + span n r / 2) n) as [Hlt|Hge]; [|split; [set_solver|lia]].
  rewrite elem_of_leaf_list. split.
  - intros (i & Hi & Hx). assert (c = r + 2 ^ i) as -> by lia. clear Hx.
    pose proof (pow2_pos i ltac:(lia)). unfold parent, span in *. split; [lia|].
    split; [|done]. destruct (Z.eqb_spec r 0) as [->|Hr0].
    + rewrite Z.add_0_l. replace (2 ^ i) with (2 ^ i * (2 * 0 + 1)) at 2 by lia.
      rewrite lowbit_unique by lia. lia.
    + destruct (lowbit_spec r ltac:(lia)) as (t & q & Ht & E & Hq & Hq0).
      rewrite E, Z.log2_pow2, Z2Nat.id in Hi by lia.
      assert (Hpow : 2 ^ t = 2 * (2 ^ i * 2 ^ (t - i - 1))).
      { rewrite <- Z.pow_add_r by lia. replace t with (Z.succ (i + (t - i - 1))) at 1 by lia.
        by rewrite Z.pow_succ_r by lia. }
      pose proof (pow2_pos (t - i - 1) ltac:(lia)).
      assert (Hlow : lowbit (r + 2 ^ i) = 2 ^ i); [|lia].
      replace (r + 2 ^ i) with (2 ^ i * (2 * (2 ^ (t - i - 1) * (2 * q + 1)) + 1)) by nia.
      apply lowbit_unique; [lia|nia].
  - intros (Hc0 & Hp & _). unfold parent in Hp.
    destruct (lowbit_spec c Hc0) as (i & q & Hi & E & Hq & Hq0). exists i.
    rewrite E in Hp. split; [|lia]. split; [done|].
    pose proof (pow2_pos i Hi). rewrite Z2Nat.id by apply Z.log2_nonneg.
    unfold span. destruct (Z.eqb_spec r 0) as [Hr0|Hr0].
    + rewrite Z.log2_pow2 by apply Z.log2_up_nonneg.
      assert (2 ^ i < n) by lia. apply Z.log2_up_lt_pow2; lia.
    + destruct (lowbit_spec q ltac:(nia)) as (v & w & Hv & _ & Hqv & Hw).
      assert (Hrv : r = 2 ^ (i + 1 + v) * (2 * w + 1)).
      { rewrite !Z.pow_add_r by lia. change (2 ^ 1) with 2. nia. }
      rewrite Hrv, lowbit_unique, Z.log2_pow2 by lia. lia.
Qed.

(** The ranks that the loop cuts off: an even rank whose first leaf is out of
    range although a later one is not. *)
Definition full_tree (n : Z) : Prop :=
  forall r, 0 < r -> r mod 2 = 0 -> r + 1 < n -> r + lowbit r / 2 < n.

(** In a full tree every edge is sent. *)
Lemma full_tree_edge n c : 0 < n -> full_tree n -> 0 < c < n ->
  parent c + span n (parent c) / 2 < n.
Proof.
  intros Hn Hfull Hc. pose proof (parent_range c ltac:(lia)) as Hp. unfold span.
  destruct (Z.eqb_spec (parent c) 0) as [->|Hp0].
  - rewrite Z.add_0_l. destruct (decide (n = 1)) as [->|Hn1]; [lia|].
    pose proof (Z.log2_up_spec n ltac:(lia)) as [Hlo _].
    destruct (pow2_half (Z.log2_up n)) as [-> _]; [apply Z.log2_up_pos; lia|].
    by rewrite <- Z.sub_1_r in Hlo.
  - destruct (lowbit_spec c ltac:(lia)) as (i & q & Hi & E & Hq & Hq0).
    pose proof (pow2_pos i Hi).
    assert (Hpar : parent c = 2 * (2 ^ i * q)) by (unfold parent; rewrite E; lia).
    apply Hfull; [lia| |nia]. rewrite Hpar, Z.mul_comm. apply Z.mod_mul. lia.
Qed.

(** Groups of a power of two leaves are full trees. *)
Lemma full_tree_pow2 m : 0 <= m -> full_tree (2 ^ m).
Proof.
  intros Hm r Hr He Hlt. destruct (lowbit_spec r Hr) as (t & q & Ht & E & Hq & Hq0).
  rewrite E. assert (t < m).
  { pose proof (pow2_pos t Ht). apply (Z.pow_lt_mono_r_iff 2); nia. }
  assert (2 ^ m = 2 ^ t * 2 ^ (m - t)) by (rewrite <- Z.pow_add_r by lia; f_equal; lia).
  pose proof (pow2_pos t Ht). pose proof (pow2_pos (m - t) ltac:(lia)).
  assert (2 ^ t / 2 < 2 ^ t) by (apply Z.div_lt; lia).
  assert (2 * q + 1 < 2 ^ (m - t)) by nia. nia.
Qed.

(** ** Configurations *)
Section Config.
Context (src dst : Sharding).

Let S := num_devices_ (devices src).
Let D := num_devices_ (devices dst).

(** A broadcast goes to at least as many devices. *)
Definition broadcast_ok : Prop :=
  DeviceListOps.wf (devices dst) /\ 0 < S <= D /\ D <= 2 ^ 61.

Definition leaves_per_root : Z := (D + S - 1) / S.
Definition group_root (g : Z) : Z := g * leaves_per_root.
Definition group_size (g : Z) : Z := Z.min leaves_per_root (D - group_root g).

(** The groups whose trees are complete. *)
Definition full_groups : Prop :=
  forall g, 0 <= g -> group_root g < D -> full_tree (group_size g).

Definition source_of (a : Z) : option SourceConfig :=
  if group_root a <? D then Some (mkSource [group_root a]) else None.

Definition target_of (b : Z) : TargetConfig :=
  let g := b / leaves_per_root in
  let r := b - group_root g in
  if r =? 0 then mkTarget (Some g) None (leaves (group_root g) (group_size g) r)
  else mkTarget None (Some (group_root g + parent r)) (leaves (group_root g) (group_size g) r).

Context (Hok : broadcast_ok).

Lemma leaves_per_root_bounds :
  1 <= leaves_per_root <= D /\ D <= leaves_per_root * S <= D + S - 1.
Proof.
  destruct Hok as (_ & HS & HD). unfold leaves_per_root.
  pose proof (Z.div_mod (D + S - 1) S ltac:(lia)).
  pose proof (Z.mod_pos_bound (D + S - 1) S ltac:(lia)).
  split; [|nia]. split; [apply Z.div_le_lower_bound; lia|].
  apply Z.div_le_upper_bound; [lia|]. nia.
Qed.

Lemma target_group b : 0 <= b < D ->
  let g := b / leaves_per_root in
  0 <= g < S /\ group_root g <= b /\ group_root g < D /\
  0 <= b - group_root g < group_size g /\ group_ok (group_root g) (group_size g).
Proof.
  intros Hb g. pose proof leaves_per_root_bounds as [Hl1 Hl2].
  destruct Hok as (_ & HS & HD). change (2 ^ 61) with 2305843009213693952 in HD.
  pose proof (Z.div_mod b leaves_per_root ltac:(lia)).
  pose proof (Z.mod_pos_bound b leaves_per_root ltac:(lia)).
  assert (0 <= g) by (apply Z.div_pos; lia).
  unfold group_ok, group_size, group_root. fold g in H. rewrite pow62.
  assert (g < S) by nia. split_and!; nia.
Qed.

(** The members of a group. *)
Lemma group_member g r : 0 <= g -> group_root g < D -> 0 <= r < group_size g ->
  0 <= group_root g + r < D /\ (group_root g + r) / leaves_per_root = g.
Proof.
  intros Hg Hgd Hr. pose proof leaves_per_root_bounds as [Hl1 _].
  unfold group_size, group_root in *. split; [nia|].
  rewrite Z.div_add_l by lia. rewrite Z.div_small; lia.
Qed.

(** *** What [GetBroadcastConfig] returns *)
Lemma GetBroadcastConfig_ok sa sb :
  (forall a, sa = Some a -> 0 <= a < S) -> (forall b, sb = Some b -> 0 <= b < D) ->
  GetBroadcastConfig sa sb src dst =
  Ret (match sa with
       | Some a => match source_of a with
                   | Some s => mkBroadcast (Some s) (target_of <$> sb)
                   | None => mkBroadcast None None
                   end
       | None => mkBroadcast None (target_of <$> sb)
       end).
Proof.
  intros Ha Hb. pose proof leaves_per_root_bounds as [Hl1 Hl2].
  assert (Hok' := Hok). destruct Hok' as (Hwf & HS & HD).
  change (2 ^ 61) with 2305843009213693952 in HD.
  unfold GetBroadcastConfig, DeviceListOps.size. fold S D.
  rewrite add64_ok by (unfold i64; lia). cbn [mbind outcome_bind].
  rewrite sub64_ok by (unfold i64; lia). cbn [mbind outcome_bind].
  rewrite div64_ok by (unfold i64; lia). cbn [mbind outcome_bind].
  fold leaves_per_root.
  assert (Htgt : (match sb with
     | Some d =>
         my_src_shard ← div64 d leaves_per_root;
         tree_offset ← mul64 my_src_shard leaves_per_root;
         my_rank ← sub64 d tree_offset;
         rest ← sub64 D tree_offset;
         devs ← DeviceListOps.slice (devices dst) tree_offset (Z.min leaves_per_root rest);
         t ← GetTargetConfig my_src_shard tree_offset devs my_rank;
         mret (Some t)
     | None => mret None
     end : outcome (option TargetConfig)) = Ret (target_of <$> sb)).
  { destruct sb as [b|]; [|done]. specialize (Hb b eq_refl).
    destruct (target_group b Hb) as (Hg & Hle & Hlt & Hr & Hgo).
    rewrite div64_ok by (unfold i64; lia). cbn [mbind outcome_bind].
    fold (group_root (b / leaves_per_root)) in *. unfold group_root in *.
    rewrite mul64_ok by (unfold i64; lia). cbn [mbind outcome_bind].
    rewrite sub64_ok by (unfold i64; lia). cbn [mbind outcome_bind].
    rewrite sub64_ok by (unfold i64; lia). cbn [mbind outcome_bind].
    fold (group_root (b / leaves_per_root)) in *.
    fold (group_size (b / leaves_per_root)) in *.
    rewrite (DeviceListOps.slice_ok _ _ _ Hwf) by
      (change (num_devices_ (devices dst)) with D; pose proof (proj1 Hgo);
       unfold group_size in *; lia).
    cbn [mbind outcome_bind]. rewrite GetTargetConfig_ok by done. cbn [mbind outcome_bind].
    reflexivity. }
  destruct sa as [a|]; [|cbn [mbind outcome_bind mret outcome_ret] in Htgt |- *; by rewrite Htgt].
  specialize (Ha a eq_refl). rewrite mul64_ok by (unfold i64; nia). cbn [mbind outcome_bind].
  unfold source_of, group_root in *. destruct (Z.ltb_spec (a * leaves_per_root) D).
  - rewrite (proj2 (Z.leb_gt _ _)) by lia.
    cbn [mbind outcome_bind mret outcome_ret] in Htgt |- *. by rewrite Htgt.
  - by rewrite (proj2 (Z.leb_le _ _)) by lia.
Qed.

(** *** Who sends to whom, and who expects what from whom

    For processors that hold one shard; the section [Processors] has the others. *)
Definition source_config (a : Z) (s : SourceConfig) : Prop :=
  exists c, GetBroadcastConfig (Some a) None src dst = Ret c /\ bc_source c = Some s.
Definition target_config (b : Z) (t : TargetConfig) : Prop :=
  exists c, GetBroadcastConfig None (Some b) src dst = Ret c /\ bc_target c = Some t.

Definition sends_root (a b : Z) : Prop :=
  exists s, source_config a s /\ b ∈ dst_root_shards s.
Definition sends_leaf (b b' : Z) : Prop :=
  exists t, target_config b t /\ b' ∈ tc_dst_leaf_shards t.
Definition expects_source (b a : Z) : Prop :=
  exists t, target_config b t /\ tc_src_shard t = Some a.
Definition expects_leaf (b' b : Z) : Prop :=
  exists t, target_config b' t /\ tc_dst_root_shard t = Some b.

Lemma source_config_of a s : 0 <= a < S -> source_config a s <-> source_of a = Some s.
Proof.
  intros Ha. unfold source_config. rewrite GetBroadcastConfig_ok by (intros ? [= <-]; lia || done).
  split.
  - intros (c & [= <-] & Hc). by destruct (source_of a).
  - intros ->. by eexists.
Qed.

Lemma target_config_of b t : 0 <= b < D -> target_config b t <-> t = target_of b.
Proof.
  intros Hb. unfold target_config. rewrite GetBroadcastConfig_ok by (intros ? [= <-]; lia || done).
  split.
  - intros (c & [= <-] & Hc). cbn in Hc. congruence.
  - intros ->. by eexists.
Qed.

Lemma expects_source_iff b a : 0 <= b < D ->
  expects_source b a <-> b = group_root a /\ a = b / leaves_per_root.
Proof.
  intros Hb. unfold expects_source. setoid_rewrite (target_config_of b) at 1; [|done].
  destruct (target_group b Hb) as (Hg & Hle & Hlt & Hr & _).
  transitivity (tc_src_shard (target_of b) = Some a); [naive_solver|].
  unfold target_of. cbn zeta. destruct (Z.eqb_spec (b - group_root (b / leaves_per_root)) 0).
  - cbn. split; [intros [= <-]; lia|intros [_ ->]; done].
  - cbn. split; [done|]. intros [Hb' ->]. lia.
Qed.

Lemma sends_root_iff a b : 0 <= a < S ->
  sends_root a b <-> b = group_root a /\ b < D.
Proof.
  intros Ha. unfold sends_root. setoid_rewrite (source_config_of a); [|done].
  unfold source_of. destruct (Z.ltb_spec (group_root a) D).
  - split; [intros (s & [= <-] & ->%list_elem_of_singleton); done|].
    intros [-> _]. eexists; split; [done|]. set_solver.
  - split; [by intros (s & ? & _)|lia].
Qed.

Lemma expects_leaf_iff b' b : 0 <= b' < D ->
  expects_leaf b' b <->
  let g := b' / leaves_per_root in
  group_root g < b' /\ b = group_root g + parent (b' - group_root g).
Proof.
  intros Hb. unfold expects_leaf. setoid_rewrite (target_config_of b') at 1; [|done].
  destruct (target_group b' Hb) as (Hg & Hle & Hlt & Hr & _).
  transitivity (tc_dst_root_shard (target_of b') = Some b); [naive_solver|].
  unfold target_of. cbn zeta. destruct (Z.eqb_spec (b' - group_root (b' / leaves_per_root)) 0).
  - cbn. split; [done|lia].
  - cbn. split; [intros [= <-]; lia|intros [_ ->]; done].
Qed.

Lemma sends_leaf_iff b b' : 0 <= b < D -> 0 <= b' < D ->
  sends_leaf b b' <->
  let g := b / leaves_per_root in
  b' / leaves_per_root = g /\ expects_leaf b' b /\
  (b - group_root g) + span (group_size g) (b - group_root g) / 2 < group_size g.
Proof.
  intros Hb Hb'. unfold sends_leaf. setoid_rewrite (target_config_of b) at 1; [|done].
  destruct (target_group b Hb) as (Hg & Hle & Hlt & Hr & _).
  destruct (target_group b' Hb') as (Hg' & Hle' & Hlt' & Hr' & _).
  set (g := b / leaves_per_root) in *. cbn zeta.
  transitivity (b' ∈ leaves (group_root g) (group_size g) (b - group_root g)).
  { split; [intros (t & -> & Ht); revert Ht|intros Ht; exists (target_of b); split; [done|revert Ht]];
      unfold target_of; cbn zeta; fold g; by destruct (_ =? 0). }
  rewrite expects_leaf_iff by done. cbn zeta. split.
  - intros Hin. assert (Hgrp : group_root g <= b' < group_root g + group_size g).
    { unfold leaves in Hin. destruct (Z.ltb_spec (b - group_root g +
        span (group_size g) (b - group_root g) / 2) (group_size g)) as [Hs|]; [|set_solver].
      apply elem_of_leaf_list in Hin as (i & Hi & ->).
      destruct (span_pow2 (group_size g) (b - group_root g) ltac:(lia) Hr) as (t & Ht & E).
      rewrite E, Z.log2_pow2, Z2Nat.id in Hi by lia.
      pose proof (pow2_pos i ltac:(lia)). destruct (pow2_half t ltac:(lia)) as [Hh _].
      rewrite E, Hh in Hs. pose proof (pow2_mono i (t - 1) ltac:(lia)). lia. }
    destruct (group_member g (b' - group_root g) ltac:(lia) ltac:(lia) ltac:(lia)) as [_ Hdiv].
    replace (group_root g + (b' - group_root g)) with b' in Hdiv by lia.
    replace b' with (group_root g + (b' - group_root g)) in Hin by lia.
    apply leaves_edge in Hin as (H0 & Hp & Hs); [|lia|lia|lia].
    rewrite Hdiv. split_and!; [done|lia|lia|done].
  - intros (Hdiv & [H0 Hp] & Hs). rewrite Hdiv in *.
    replace b' with (group_root g + (b' - group_root g)) by lia.
    apply leaves_edge; [lia|lia|lia|]. split_and!; [lia|lia|done].
Qed.
End Config.

Lemma leaves_range root n r x : 0 < n -> 0 <= r < n -> x ∈ leaves root n r ->
  root <= x < root + n.
Proof.
  intros Hn Hr Hin. unfold leaves in Hin.
  destruct (Z.ltb_spec (r + span n r / 2) n) as [Hs|]; [|set_solver].
  apply elem_of_leaf_list in Hin as (i & Hi & ->).
  destruct (span_pow2 n r Hn Hr) as (t & Ht & E).
  rewrite E, Z.log2_pow2, Z2Nat.id in Hi by lia.
  pose proof (pow2_pos i ltac:(lia)). destruct (pow2_half t ltac:(lia)) as [Hh _].
  rewrite E, Hh in Hs. pose proof (pow2_mono i (t - 1) ltac:(lia)). lia.
Qed.

Section Reach.
Context (src dst : Sharding) (Hok : broadcast_ok src dst).

Let S := num_devices_ (devices src).
Let D := num_devices_ (devices dst).

Lemma sends_leaf_range b b' : 0 <= b < D -> sends_leaf src dst b b' -> 0 <= b' < D.
Proof.
  intros Hb (t & Ht & Hin). apply (target_config_of src dst Hok b t Hb) in Ht as ->.
  destruct (target_group src dst Hok b Hb) as (Hg & Hle & Hlt & Hr & Hgo & _).
  set (g := b / leaves_per_root src dst) in *.
  assert (Hin' : b' ∈ leaves (group_root src dst g) (group_size src dst g)
                       (b - group_root src dst g)).
  { revert Hin. unfold target_of. cbn zeta. fold g. by destruct (_ =? 0). }
  apply leaves_range in Hin'; [|lia|lia].
  pose proof (group_member src dst Hok g (b' - group_root src dst g)) as Hm.
  change D with (num_devices_ (devices dst)). 
  replace (group_root src dst g + (b' - group_root src dst g)) with b' in Hm by lia.
  apply Hm; lia.
Qed.

(** The position of a shard in its group, and its parent there. *)
Lemma leaf_parent b : 0 <= b < D -> 0 < b - group_root src dst (b / leaves_per_root src dst) ->
  let g := b / leaves_per_root src dst in
  let p := group_root src dst g + parent (b - group_root src dst g) in
  0 <= p < b /\ p / leaves_per_root src dst = g.
Proof.
  intros Hb Hr g p. destruct (target_group src dst Hok b Hb) as (Hg & Hle & Hlt & Hrg & Hgo & _).
  fold g in Hr, Hg, Hle, Hlt, Hrg, Hgo. pose proof (parent_range (b - group_root src dst g) Hr).
  split; [unfold p; lia|].
  by apply (group_member src dst Hok g (parent (b - group_root src dst g))); lia.
Qed.

(** In full trees what a shard expects of another one is sent. *)
Lemma full_leaf_sent b b' : full_groups src dst -> 0 <= b' < D -> expects_leaf src dst b' b ->
  0 <= b < D /\ b < b' /\ sends_leaf src dst b b'.
Proof.
  intros Hfull Hb' Hx. pose proof (proj1 (expects_leaf_iff src dst Hok b' b Hb') Hx) as Hx'. cbn zeta in Hx'.
  destruct (target_group src dst Hok b' Hb') as (Hg & Hle & Hlt & Hr & _).
  set (g := b' / leaves_per_root src dst) in *. destruct Hx' as [Hroot Hb].
  destruct (leaf_parent b' Hb') as [Hp Hpg]; [fold g; lia|]. fold g in Hp, Hpg. rewrite <- Hb in Hp, Hpg.
  split; [lia|]. split; [lia|]. apply (sends_leaf_iff src dst Hok); [lia|done|].
  cbn zeta. rewrite Hpg. split_and!; [done|done|].
  replace (b - group_root src dst g) with (parent (b' - group_root src dst g)) by lia.
  apply full_tree_edge; [lia|apply Hfull; lia|lia].
Qed.
End Reach.

Lemma device_i64 (l : DeviceList) i : DeviceListOps.wf l -> 0 <= i < num_devices_ l -> i64 (start_ l + i).
Proof. intros (? & ? & Hi) ?. unfold i64 in *. lia. Qed.

(** ** What the processors do

    A processor passes the shards that it holds of both shardings, as
    [DetermineShardingConfigFullyReplicated] does for the processor with global id [g].
    A source shard without a root to send to is extra: the processor gets an empty
    configuration, also for the target shard that it may hold. *)
Section Processors.
Context (src dst : Sharding).

Let S := num_devices_ (devices src).
Let D := num_devices_ (devices dst).

Definition processor_config (g : Z) : outcome BroadcastConfig :=
  src_shard ← DeviceListOps.ShardId (devices src) g;
  dst_shard ← DeviceListOps.ShardId (devices dst) g;
  GetBroadcastConfig src_shard dst_shard src dst.

Definition source_at (a : Z) (s : SourceConfig) : Prop :=
  exists c, processor_config (start_ (devices src) + a) = Ret c /\ bc_source c = Some s.
Definition target_at (b : Z) (t : TargetConfig) : Prop :=
  exists c, processor_config (start_ (devices dst) + b) = Ret c /\ bc_target c = Some t.

Definition starts_tree (a b : Z) : Prop := exists s, source_at a s /\ b ∈ dst_root_shards s.
Definition forwards_to (b b' : Z) : Prop := exists t, target_at b t /\ b' ∈ tc_dst_leaf_shards t.
Definition awaits_source (b a : Z) : Prop := exists t, target_at b t /\ tc_src_shard t = Some a.
Definition awaits_shard (b' b : Z) : Prop := exists t, target_at b' t /\ tc_dst_root_shard t = Some b.

Definition extra_source (a : Z) : Prop := 0 <= a < S /\ D <= group_root src dst a.
(** The processor of target shard [b] holds an extra source shard. *)
Definition displaced (b : Z) : Prop :=
  extra_source (start_ (devices dst) + b - start_ (devices src)).

(** The target shards that the data gets to: every hop is a send that is awaited. *)
Inductive data_reaches : Z -> Prop :=
| reaches_root a b :
    0 <= a < S -> starts_tree a b -> awaits_source b a -> data_reaches b
| reaches_leaf b b' :
    data_reaches b -> forwards_to b b' -> awaits_shard b' b -> data_reaches b'.

Context (Hsrc : DeviceListOps.wf (devices src)) (Hok : broadcast_ok src dst).

Lemma processor_config_ok g : i64 g ->
  processor_config g =
  Ret (let target := if decide (start_ (devices dst) <= g < start_ (devices dst) + D)
                     then Some (target_of src dst (g - start_ (devices dst))) else None in
       if decide (start_ (devices src) <= g < start_ (devices src) + S)
       then match source_of src dst (g - start_ (devices src)) with
            | Some s => mkBroadcast (Some s) target
            | None => mkBroadcast None None
            end
       else mkBroadcast None target).
Proof.
  intros Hg. unfold processor_config.
  rewrite (DeviceListOps.ShardId_ok _ g Hsrc Hg), (DeviceListOps.ShardId_ok _ g (proj1 Hok) Hg).
  cbn [mbind outcome_bind]. rewrite (GetBroadcastConfig_ok src dst Hok).
  - fold S D. by repeat case_decide.
  - intros a. case_decide; [|done]. intros [= <-]. unfold S in *. lia.
  - intros b. case_decide; [|done]. intros [= <-]. unfold D in *. lia.
Qed.

Lemma source_of_none a : source_of src dst a = None <-> D <= group_root src dst a.
Proof. unfold source_of. fold D. destruct (Z.ltb_spec (group_root src dst a) D); split; (done || lia). Qed.

Lemma source_at_iff a s : 0 <= a < S -> source_at a s <-> source_of src dst a = Some s.
Proof.
  intros Ha. unfold source_at. rewrite processor_config_ok by by apply device_i64.
  rewrite Z.add_simpl_l. cbn zeta. rewrite (decide_True (P := _ <= start_ (devices src) + a < _)) by (fold S; lia).
  destruct (source_of src dst a); split; [intros (c & [= <-] & Hc); exact Hc| |by intros (c & [= <-] & Hc)|done].
  intros [= ->]. by eexists.
Qed.

Lemma target_at_iff b t : 0 <= b < D -> target_at b t <-> ~ displaced b /\ t = target_of src dst b.
Proof.
  intros Hb. unfold target_at. rewrite processor_config_ok by (by apply device_i64; [apply Hok|]).
  rewrite Z.add_simpl_l. cbn zeta.
  rewrite (decide_True (P := start_ (devices dst) <= start_ (devices dst) + b < _)) by (fold D; lia).
  set (x := start_ (devices dst) + b - start_ (devices src)).
  assert (Hd : displaced b <-> 0 <= x < S /\ source_of src dst x = None)
    by (unfold displaced, extra_source; by rewrite source_of_none).
  rewrite Hd. case_decide as Hx.
  - destruct (source_of src dst x); split; [intros (c & [= <-] & [= <-])| |intros (c & [= <-] & Hc)|].
    + split; [naive_solver|done].
    + intros [_ ->]. by eexists.
    + done.
    + intros [Hn _]. exfalso. apply Hn. split; [unfold x; lia|done].
  - split; [intros (c & [= <-] & [= <-])|intros [_ ->]; by eexists].
    split; [intros [Hr _]; unfold x in Hr; lia|done].
Qed.

(** A target shard whose processor holds no extra source shard is told what it would be
    told alone; the others are told nothing. *)
Lemma starts_tree_iff a b : 0 <= a < S -> starts_tree a b <-> sends_root src dst a b.
Proof.
  intros Ha. unfold starts_tree, sends_root. setoid_rewrite (source_at_iff a); [|done].
  by setoid_rewrite (source_config_of src dst Hok a); [|done].
Qed.

Lemma target_at_config b t : 0 <= b < D -> target_at b t <-> ~ displaced b /\ target_config src dst b t.
Proof. intros Hb. by rewrite target_at_iff, (target_config_of src dst Hok). Qed.

Ltac by_target_at Hb :=
  setoid_rewrite (target_at_config _ _ Hb); naive_solver.

Lemma forwards_to_iff b b' : 0 <= b < D -> forwards_to b b' <-> ~ displaced b /\ sends_leaf src dst b b'.
Proof. intros Hb. unfold forwards_to, sends_leaf. by_target_at Hb. Qed.
Lemma awaits_source_iff b a : 0 <= b < D -> awaits_source b a <-> ~ displaced b /\ expects_source src dst b a.
Proof. intros Hb. unfold awaits_source, expects_source. by_target_at Hb. Qed.
Lemma awaits_shard_iff b' b : 0 <= b' < D -> awaits_shard b' b <-> ~ displaced b' /\ expects_leaf src dst b' b.
Proof. intros Hb. unfold awaits_shard, expects_leaf. by_target_at Hb. Qed.

#[export] Instance extra_source_dec a : Decision (extra_source a).
Proof. unfold extra_source. apply _. Defined.
#[export] Instance displaced_dec b : Decision (displaced b).
Proof. unfold displaced. apply _. Defined.

(** A displaced processor takes no part. *)
Lemma extra_source_config g : i64 g -> extra_source (g - start_ (devices src)) ->
  processor_config g = Ret (mkBroadcast None None).
Proof.
  intros Hg [Hr Hx%source_of_none]. rewrite processor_config_ok by done. cbn zeta.
  rewrite Hx. by case_decide; [|unfold S in *; lia].
Qed.

(** The group of a target shard and the edge it hangs on. *)
Lemma origin b : 0 <= b < D ->
  (let a := b / leaves_per_root src dst in
   0 <= a < S /\ sends_root src dst a b /\ expects_source src dst b a /\
   forall b', ~ expects_leaf src dst b b') \/
  (exists p, 0 <= p < b /\ expects_leaf src dst b p /\ forall a, ~ expects_source src dst b a).
Proof.
  intros Hb. destruct (target_group src dst Hok b Hb) as (Hg & Hle & Hlt & Hr & Hgo).
  set (g := b / leaves_per_root src dst) in *.
  destruct (decide (b = group_root src dst g)) as [Heq|Hne]; [left|right].
  - cbn zeta. split_and!; [fold S in Hg; lia..| | |].
    + apply (sends_root_iff src dst Hok); [lia|]. split; [done|lia].
    + by apply (expects_source_iff src dst Hok).
    + intros b' Hx. apply (expects_leaf_iff src dst Hok) in Hx as [Hx _]; [|done].
      fold g in Hx. lia.
  - destruct (leaf_parent src dst Hok b Hb) as [Hp _]; [fold g; lia|]. fold g in Hp.
    eexists. split_and!; [apply Hp|apply Hp| |].
    + apply (expects_leaf_iff src dst Hok); [done|]. cbn zeta. fold g. split; [lia|done].
    + intros a Hx. apply (expects_source_iff src dst Hok) in Hx as [Hx1 Hx2]; [|done].
      fold g in Hx2. subst a. lia.
Qed.

Lemma reaches_range b : data_reaches b -> 0 <= b < D.
Proof.
  induction 1 as [a b Ha Hs _|b b' _ IH Hf _].
  - apply starts_tree_iff in Hs; [|done]. apply (sends_root_iff src dst Hok) in Hs as [-> Hb]; [|done].
    pose proof (leaves_per_root_bounds src dst Hok) as [Hl _]. unfold group_root in *. fold D in Hb. nia.
  - apply forwards_to_iff in Hf as [_ Hf]; [|done]. by apply (sends_leaf_range src dst Hok b).
Qed.

Lemma reaches_placed b : data_reaches b -> ~ displaced b.
Proof.
  intros Hr. pose proof (reaches_range b Hr) as Hb.
  destruct Hr as [a b _ _ Hx|b b' _ _ Hx]; [apply awaits_source_iff in Hx|apply awaits_shard_iff in Hx];
    (done || apply Hx).
Qed.

Lemma reaches_all : full_groups src dst -> (forall b, 0 <= b < D -> ~ displaced b) ->
  forall b, 0 <= b < D -> data_reaches b.
Proof.
  intros Hfull Hnone b. induction b as [b IH] using (well_founded_induction (Zwf_well_founded 0)).
  intros Hb. destruct (origin b Hb) as [(Ha & Hs & Hx & _)|(p & Hp & Hx & _)].
  - eapply reaches_root; [exact Ha|by apply starts_tree_iff|].
    apply awaits_source_iff; [done|]. split; [by apply Hnone|done].
  - destruct (full_leaf_sent src dst Hok p b Hfull Hb Hx) as (Hpd & _ & Hs).
    apply (reaches_leaf p); [by apply IH; unfold Zwf; lia| |].
    + apply forwards_to_iff; [done|]. split; [by apply Hnone|done].
    + apply awaits_shard_iff; [done|]. split; [by apply Hnone|done].
Qed.

Lemma reaches_full : (forall b, 0 <= b < D -> data_reaches b) -> full_groups src dst.
Proof.
  intros Hall g Hg Hlt r Hr He Hr1.
  destruct (group_member src dst Hok g (r + 1) Hg Hlt ltac:(lia)) as [Hb' Hdiv].
  destruct (group_member src dst Hok g r Hg Hlt ltac:(lia)) as [Hb Hdivb].
  pose proof (Hall _ Hb') as Hre.
  inversion Hre as [a b' Ha Hs Hx Heq|b b' Hb0 Hs Hx Heq]; clear Hre Heq b'.
  - apply awaits_source_iff in Hx as [_ Hx]; [|done].
    apply (expects_source_iff src dst Hok) in Hx as [Hx1 Hx2]; [|done].
    rewrite Hdiv in Hx2. subst a. lia.
  - apply awaits_shard_iff in Hx as [_ Hx]; [|done].
    apply (expects_leaf_iff src dst Hok) in Hx as [_ Hx]; [|done]. rewrite Hdiv in Hx.
    replace (group_root src dst g + (r + 1) - group_root src dst g) with (r + 1) in Hx by lia.
    assert (parent (r + 1) = r) as Hpar.
    { unfold parent. rewrite lowbit_odd; [lia|lia|].
      pose proof (Z.div_mod r 2 ltac:(lia)).
      replace (r + 1) with (1 + r / 2 * 2) by lia. by rewrite Z.mod_add. }
    rewrite Hpar in Hx. subst b. apply forwards_to_iff in Hs as [_ Hs]; [|done].
    apply (sends_leaf_iff src dst Hok) in Hs as (_ & _ & Hs); [|done|done].
    rewrite Hdivb in Hs. unfold span in Hs.
    replace (group_root src dst g + r - group_root src dst g) with r in Hs by lia.
    by rewrite (proj2 (Z.eqb_neq r 0)) in Hs by lia.
Qed.
End Processors.
(** ** Properties *)

(** C18: the configurations of a broadcast between replicated shardings, from at least
    one device to at least as many (at most 2^61) devices, exist for every processor and
    their edges agree.  A source shard starts exactly one tree, unless it is extra (its
    root would be out of range): then its processor gets an empty configuration.  What a
    source shard sends or a target shard forwards goes to an existing target shard that
    awaits it, unless the processor of that target shard holds an extra source shard:
    then it gets an empty configuration too.  Every other target shard awaits its data
    from exactly one shard, from a source shard that sends it or from a target shard
    with a smaller number. *)
Theorem broadcast_edges_matched (src dst : Sharding)
    (Hsrc : DeviceListOps.wf (devices src)) (Hok : broadcast_ok src dst) :
  let S := num_devices_ (devices src) in
  let D := num_devices_ (devices dst) in
  (forall g, i64 g -> exists c, processor_config src dst g = Ret c) /\
  (forall a, 0 <= a < S ->
     if decide (extra_source src dst a)
     then processor_config src dst (start_ (devices src) + a) = Ret (mkBroadcast None None)
     else exists b, 0 <= b < D /\ forall b', starts_tree src dst a b' <-> b' = b) /\
  (forall a b, 0 <= a < S -> starts_tree src dst a b ->
     0 <= b < D /\ (awaits_source src dst b a \/ displaced src dst b)) /\
  (forall b b', 0 <= b < D -> forwards_to src dst b b' ->
     0 <= b' < D /\ (awaits_shard src dst b' b \/ displaced src dst b')) /\
  (forall b, 0 <= b < D ->
     if decide (displaced src dst b)
     then processor_config src dst (start_ (devices dst) + b) = Ret (mkBroadcast None None)
     else
       (exists a, 0 <= a < S /\ starts_tree src dst a b /\
          (forall a', awaits_source src dst b a' <-> a' = a) /\
          forall b', ~ awaits_shard src dst b b') \/
       (exists p, 0 <= p < b /\ (forall p', awaits_shard src dst b p' <-> p' = p) /\
          forall a, ~ awaits_source src dst b a)).
Proof.
  intros S D. pose proof (leaves_per_root_bounds src dst Hok) as [Hl _].
  assert (Hroot : forall a, 0 <= a -> 0 <= group_root src dst a) by (intros; unfold group_root; nia).
  split_and!.
  - intros g Hg. rewrite processor_config_ok by done. by eexists.
  - intros a Ha. case_decide as Hx.
    + apply extra_source_config; [done|done|by apply device_i64|by rewrite Z.add_simpl_l].
    + assert (group_root src dst a < D) by (unfold extra_source in Hx; fold S D in Hx; lia).
      exists (group_root src dst a). split; [auto with lia|]. intros b'.
      rewrite starts_tree_iff, (sends_root_iff src dst Hok) by done. fold D. naive_solver.
  - intros a b Ha Hs. apply starts_tree_iff in Hs; [|done..].
    apply (sends_root_iff src dst Hok) in Hs as [-> Hb]; [|done].
    assert (0 <= group_root src dst a < D) by (split; [auto with lia|done]).
    split; [done|]. destruct (decide (displaced src dst (group_root src dst a))); [by right|left].
    apply awaits_source_iff; [done..|]. split; [done|]. apply (expects_source_iff src dst Hok); [done|].
    split; [done|]. unfold group_root. rewrite Z.div_mul; lia.
  - intros b b' Hb [_ Hs]%forwards_to_iff; [|done..].
    pose proof (sends_leaf_range src dst Hok b b' Hb Hs) as Hb'. split; [done|].
    destruct (decide (displaced src dst b')); [by right|left]. apply awaits_shard_iff; [done..|].
    split; [done|]. by apply (sends_leaf_iff src dst Hok) in Hs as (_ & Hx & _).
  - intros b Hb. case_decide as Hx.
    { apply extra_source_config; [done|done|by apply device_i64; [apply (proj1 Hok)|]|done]. }
    destruct (origin src dst Hok b Hb) as [(Ha & Hs & He & Hn)|(p & Hp & He & Hn)]; [left|right].
    + eexists. split_and!; [apply Ha|apply Ha|by apply starts_tree_iff| |].
      * intros a'. rewrite awaits_source_iff by done. rewrite (expects_source_iff src dst Hok) in * by done.
        naive_solver.
      * intros b' [_ Hb']%awaits_shard_iff; [|done..]. by eapply Hn.
    + exists p. split_and!; [apply Hp|apply Hp| |].
      * intros p'. rewrite awaits_shard_iff by done. rewrite (expects_leaf_iff src dst Hok) in * by done.
        naive_solver.
      * intros a [_ Ha]%awaits_source_iff; [|done..]. by eapply Hn.
Qed.

(** C19: in such a broadcast the data reaches every target shard, over sends that are
    awaited, if and only if every group of leaves is a full tree and no processor of a
    target shard holds an extra source shard. *)
Theorem broadcast_reaches_all (src dst : Sharding)
    (Hsrc : DeviceListOps.wf (devices src)) (Hok : broadcast_ok src dst) :
  (forall b, 0 <= b < num_devices_ (devices dst) -> data_reaches src dst b) <->
  full_groups src dst /\
  (forall b, 0 <= b < num_devices_ (devices dst) -> ~ displaced src dst b).
Proof.
  split; [|by intros []; apply reaches_all]. intros Hall.
  split; [by apply reaches_full|]. intros b Hb. by apply reaches_placed; auto.
Qed.

(** It reaches every target shard when the number of target devices is a
    power of two times the number of source devices. *)
Theorem broadcast_pow2_complete (src dst : Sharding) (m : Z)
    (Hsrc : DeviceListOps.wf (devices src)) (Hok : broadcast_ok src dst) (Hm : 0 <= m)
    (Hdst : num_devices_ (devices dst) = num_devices_ (devices src) * 2 ^ m) :
  forall b, 0 <= b < num_devices_ (devices dst) -> data_reaches src dst b.
Proof.
  assert (HS : 0 < num_devices_ (devices src)) by apply Hok. pose proof (pow2_pos m Hm).
  assert (Hl : leaves_per_root src dst = 2 ^ m).
  { unfold leaves_per_root. rewrite Hdst. symmetry.
    apply Z.div_unique with (num_devices_ (devices src) - 1); lia. }
  apply reaches_all; [done|done| |].
  - intros g Hg Hlt. assert (Hsz : group_size src dst g = 2 ^ m).
    { unfold group_size, group_root in *. rewrite Hl, Hdst in *.
      assert (g + 1 <= num_devices_ (devices src)) by nia. nia. }
    rewrite Hsz. by apply full_tree_pow2.
  - intros b _ [Ha Hx]. unfold group_root in Hx. rewrite Hl, Hdst in Hx. nia.
Qed.

(** One device to eight, and to six. *)
Definition example_replicated (start n : Z) : Sharding :=
  mkSharding [mkDim 4 1 0] (mkDeviceList start n).

Lemma example_broadcast_ok :
  broadcast_ok (example_replicated 0 2) (example_replicated 2 16).
Proof. unfold broadcast_ok, DeviceListOps.wf, i64. cbn. lia. Qed.

Lemma example_devices_ok : DeviceListOps.wf (devices (example_replicated 0 2)).
Proof. unfold DeviceListOps.wf, i64. cbn. lia. Qed.

Lemma example_placed b : ~ displaced (example_replicated 0 2) (example_replicated 2 16) b.
Proof.
  intros [Ha Hx]. unfold group_root in Hx.
  change (leaves_per_root (example_replicated 0 2) (example_replicated 2 16)) with 8 in Hx.
  cbn -[Z.mul Z.add Z.sub] in *. lia.
Qed.

Lemma broadcast_edges_matched_witness :
  awaits_shard (example_replicated 0 2) (example_replicated 2 16) 14 12.
Proof.
  destruct (broadcast_edges_matched _ _ example_devices_ok example_broadcast_ok) as (_ & _ & _ & H & _).
  destruct (H 12 14) as [_ [Hx|Hx]]; [cbn; lia| |exact Hx|destruct (example_placed _ Hx)].
  eexists. split; [eexists; split; [vm_compute; reflexivity|reflexivity]|].
  by apply (bool_decide_unpack _).
Defined.

Lemma broadcast_reaches_all_witness :
  data_reaches (example_replicated 0 2) (example_replicated 2 16) 15.
Proof.
  apply (broadcast_reaches_all _ _ example_devices_ok example_broadcast_ok); [|cbn; lia].
  split; [|intros b _; apply example_placed]. intros g Hg Hlt.
  change (g * 8 < 16) in Hlt.
  assert (g = 0 \/ g = 1) as [-> | ->] by lia; apply (full_tree_pow2 3); lia.
Defined.

Lemma broadcast_pow2_complete_witness :
  data_reaches (example_replicated 0 2) (example_replicated 2 16) 15.
Proof.
  apply (broadcast_pow2_complete _ _ 3 example_devices_ok example_broadcast_ok); cbn; lia.
Defined.

(** With one source and six target devices the tree is cut: shard 5 waits for
    shard 4, which sends to nobody, so shard 5 is never reached. *)
Theorem broadcast_tree_incomplete :
  let src := example_replicated 0 1 in
  let dst := example_replicated 1 6 in
  broadcast_ok src dst /\ awaits_shard src dst 5 4 /\
  (forall b, ~ forwards_to src dst 4 b) /\ ~ data_reaches src dst 5.
Proof.
  cbn zeta.
  assert (Hok : broadcast_ok (example_replicated 0 1) (example_replicated 1 6)).
  { unfold broadcast_ok, DeviceListOps.wf, i64. cbn. lia. }
  assert (Hsrc : DeviceListOps.wf (devices (example_replicated 0 1))).
  { unfold DeviceListOps.wf, i64. cbn. lia. }
  assert (Hs : forall b, ~ forwards_to (example_replicated 0 1) (example_replicated 1 6) 4 b).
  { intros b (t & Ht & Hin). apply (target_at_iff _ _ Hsrc Hok 4 t) in Ht as [_ ->]; [|cbn; lia].
    vm_compute in Hin. set_solver. }
  split_and!; [done| |done|].
  - eexists. split; [eexists; split; [vm_compute; reflexivity|reflexivity]|reflexivity].
  - intros Hr. inversion Hr as [a b Ha Hsr (t & Ht & Hx)|b b' Hb Hsl (t & Ht & Hx)]; subst;
      (apply (target_at_iff _ _ Hsrc Hok 5 t) in Ht as [_ ->]; [|cbn; lia]).
    + by vm_compute in Hx.
    + assert (b = 4) as -> by (vm_compute in Hx; congruence). by eapply Hs.
Qed.

(** A processor that holds an extra source shard and a target shard gets an
    empty configuration: another target shard sends it the data, but it awaits nothing,
    although all groups are full trees. *)
Theorem broadcast_extra_source_drops_target :
  let src := example_replicated 0 5 in
  let dst := example_replicated 0 6 in
  broadcast_ok src dst /\ full_groups src dst /\
  processor_config src dst 3 = Ret (mkBroadcast None None) /\
  displaced src dst 3 /\ forwards_to src dst 2 3 /\ ~ data_reaches src dst 3.
Proof.
  cbn zeta.
  assert (Hok : broadcast_ok (example_replicated 0 5) (example_replicated 0 6)).
  { unfold broadcast_ok, DeviceListOps.wf, i64. cbn. lia. }
  assert (Hsrc : DeviceListOps.wf (devices (example_replicated 0 5))).
  { unfold DeviceListOps.wf, i64. cbn. lia. }
  assert (Hd : displaced (example_replicated 0 5) (example_replicated 0 6) 3)
    by by apply (bool_decide_unpack _).
  split_and!; [done| |done|done| |].
  - intros g Hg Hlt r Hr He Hr1. change (g * 2 < 6) in Hlt.
    change (group_size (example_replicated 0 5) (example_replicated 0 6) g) with (Z.min 2 (6 - g * 2)) in *. lia.
  - eexists. split; [eexists; split; [vm_compute; reflexivity|reflexivity]|].
    by apply (bool_decide_unpack _).
  - intros Hr. by apply (reaches_placed _ _ Hsrc Hok) in Hr.
Qed.
