(* ===== verification/ReshardConfig.v ===== *)
(** Reshard configurations (src/zuku/reshard.{h,cc},
    reshard_gather_shards.{h,cc}, reshard_scatter_shards.{h,cc}): which pattern
    moves an array from one sharding to another, and what every processor sends
    and receives in it. *)
From stdpp Require Import base tactics list list_numbers numbers option sets gmap strings pretty.
From Stdlib Require Import ZArith Lia.
From S2P Require Import Prelude MixedRadix Mesh Shape Processor TileIndex Tiles ScatterGather.
From S2P Require Import Broadcast.
Import ShardingOps.
Open Scope Z_scope.

Record GatherShardsConfig : Type := mkGather {
  gs_src_shard : option Z;
  gs_dst_shard : option Z;
  source_to_target_bounds : option RealmShape;
  target_from_source_bounds : list RealmShape;
}.

Record ScatterShardsConfig : Type := mkScatter {
  ss_dst_shard : option Z;
  ss_sender : bool;
}.

Inductive ReshardConfigVariant : Type :=
| UnsupportedConfig
| PointToPointConfig
| ScatterGatherVariant (c : ScatterGatherConfig)
| BroadcastVariant (c : BroadcastConfig)
| GatherShardsVariant (c : GatherShardsConfig)
| ScatterShardsVariant (c : ScatterShardsConfig)
| NoOpConfig.

#[export] Instance GatherShardsConfig_eq_dec : EqDecision GatherShardsConfig.
Proof. solve_decision. Defined.
#[export] Instance ScatterShardsConfig_eq_dec : EqDecision ScatterShardsConfig.
Proof. solve_decision. Defined.
#[export] Instance ReshardConfigVariant_eq_dec : EqDecision ReshardConfigVariant.
Proof. solve_decision. Defined.

(** [operator==(GatherShardsConfig)]; the other configurations have one too. *)
Definition gather_eqb (a b : GatherShardsConfig) : bool :=
  bool_decide (gs_src_shard a = gs_src_shard b) && bool_decide (gs_dst_shard a = gs_dst_shard b)
  && bool_decide (source_to_target_bounds a = source_to_target_bounds b)
  && bool_decide (target_from_source_bounds a = target_from_source_bounds b).

(** [SliceDim]: the slice [slice_number] of [total_slices] along [dim]. *)
Definition SliceDim (rect : RealmShape) (slice_number total_slices dim : Z) : outcome RealmShape :=
  h ← vec_get (hi rect) dim;
  l ← vec_get (lo rect) dim;
  e ← sub64 h l;
  extent ← add64 e 1;
  slice_size ← div64 extent total_slices;
  offset ← mul64 slice_size slice_number;
  new_lo ← add64 l offset;
  t ← add64 new_lo slice_size;
  new_hi ← sub64 t 1;
  los ← vec_set (lo rect) dim new_lo;
  his ← vec_set (hi rect) dim new_hi;
  mret (mkRect los his).

(** The loop that finds the replica dimension, -1 without one. *)
Fixpoint find_replicated_dim (l : list ShardingDim) (dim_number : Z) : Z :=
  match l with
  | [] => -1
  | dim :: l =>
      if (sd_size dim =? 1) && (1 <? sd_sharding dim) then dim_number
      else find_replicated_dim l (dim_number + 1)
  end.

(** The loop that finds the first dimension that can be sliced further; the
    state is [slice_dim, dim_number], and the replica dimension is not
    counted. *)
Definition slice_dim_step (replication : Z) (st : option Z * Z) (dim : ShardingDim)
    : outcome (option Z * Z) :=
  let '(slice_dim, dim_number) := st in
  if (sd_size dim =? 1) && (1 <? sd_sharding dim) then mret (slice_dim, dim_number)
  else
    new_sharding ← mul64 (sd_sharding dim) replication;
    slice_dim ← match slice_dim with
                | Some _ => mret slice_dim
                | None =>
                    r ← rem64 (sd_size dim) new_sharding;
                    mret (if r =? 0 then Some dim_number else None)
                end;
    mret (slice_dim, dim_number + 1).

Section Limits.
Context `{!RealmLimits}.

Definition GetGatherShardsConfig (p : Processor) (src dst : Sharding) : outcome GatherShardsConfig :=
  src_shard ← DeviceListOps.ShardId (devices src) (global_id_ p);
  dst_shard ← DeviceListOps.ShardId (devices dst) (global_id_ p);
  dest_bounds ← match src_shard with
                | Some s => b ← ComputeTileBounds s src; mret (Some b)
                | None => mret None
                end;
  let num_src_shards := DeviceListOps.size (devices src) in
  _ ← reserve num_src_shards;
  source_bounds ← mapO (fun shard => ComputeTileBounds shard src) (seqZ 0 num_src_shards);
  mret (mkGather src_shard dst_shard dest_bounds source_bounds).

Definition GetScatterShardsConfig (p : Processor) (src dst : Sharding) : outcome ScatterShardsConfig :=
  d ← DeviceListOps.ShardId (devices dst) (global_id_ p);
  s ← DeviceListOps.Contains (devices src) (global_id_ p);
  mret (mkScatter d s).

Definition DetermineShardingConfigReplicationChange (p : Processor) (src dst : Sharding)
    : outcome ReshardConfigVariant := mret UnsupportedConfig.

Definition DetermineShardingConfigFullyReplicated (p : Processor) (src dst : Sharding)
    : outcome ReshardConfigVariant :=
  if DeviceListOps.size (devices dst) <=? DeviceListOps.size (devices src) then
    src_shard_id ← sub64 (global_id_ p) (DeviceListOps.start (devices src));
    b ← DeviceListOps.Contains (devices dst) (global_id_ p);
    if negb b && (DeviceListOps.size (devices dst) <=? src_shard_id)
    then mret NoOpConfig else mret PointToPointConfig
  else
    s ← DeviceListOps.ShardId (devices src) (global_id_ p);
    d ← DeviceListOps.ShardId (devices dst) (global_id_ p);
    c ← GetBroadcastConfig s d src dst;
    mret (BroadcastVariant c).

(** The loop that counts the dimensions that differ. *)
Definition differing_step (src dst : Sharding) (st : Z * Z) (dim : Z) : outcome (Z * Z) :=
  let '(num_dims_different, last_dim_different) := st in
  a ← vec_get (dims src) dim;
  b ← vec_get (dims dst) dim;
  if dim_neqb a b then mret (num_dims_different + 1, dim)
  else mret (num_dims_different, last_dim_different).

Definition shard_of (devices : DeviceList) (id : Z) : outcome (option Z) :=
  b ← DeviceListOps.Contains devices id;
  if (b : bool) then s ← sub64 id (DeviceListOps.start devices); mret (Some s) else mret None.

Definition DetermineScatterGatherConfig (p : Processor) (src dst : Sharding)
    : outcome ReshardConfigVariant :=
  '(num_dims_different, last_dim_different) ←
    foldM (differing_step src dst) (0, -1) (seqZ 0 (num_dims src));
  if num_dims_different =? 1 then
    a ← vec_get (dims src) last_dim_different;
    b ← vec_get (dims dst) last_dim_different;
    src_shard ← shard_of (devices src) (global_id_ p);
    dst_shard ← shard_of (devices dst) (global_id_ p);
    c ← GetScatterGatherConfig last_dim_different src_shard dst_shard src dst;
    mret (ScatterGatherVariant c)
  else mret UnsupportedConfig.

(** The slice of a source shard: its tile, sliced by its replica number. *)
Definition source_slice (src : Sharding) (replicated_dim replication slice_dim shard : Z)
    : outcome RealmShape :=
  unsliced_bounds ← ComputeTileBounds shard src;
  index ← ComputeTileIndex shard src;
  replica_number ← vec_get index replicated_dim;
  SliceDim unsliced_bounds replica_number replication slice_dim.

Definition DeterminePartialToReplicatedConfig (p : Processor) (src dst : Sharding)
    : outcome ReshardConfigVariant :=
  let replicated_dim := find_replicated_dim (dims src) 0 in
  rd ← vec_get (dims src) replicated_dim;
  let replication := sd_sharding rd in
  '(slice_dim, _) ← foldM (slice_dim_step replication) (None, 0) (dims src);
  match slice_dim with
  | None => mret UnsupportedConfig
  | Some slice_dim =>
      src_shard ← DeviceListOps.ShardId (devices src) (global_id_ p);
      dst_shard ← DeviceListOps.ShardId (devices dst) (global_id_ p);
      dest_bounds ←
        match src_shard with
        | Some s =>
            index ← ComputeTileIndex s src;
            replica_number ← vec_get index replicated_dim;
            unsliced_bounds ← ComputeTileBounds s src;
            b ← SliceDim unsliced_bounds replica_number replication slice_dim;
            mret (Some b)
        | None => mret None
        end;
      let num_src_shards := DeviceListOps.size (devices src) in
      _ ← reserve num_src_shards;
      source_bounds ← mapO (source_slice src replicated_dim replication slice_dim)
                           (seqZ 0 num_src_shards);
      mret (GatherShardsVariant (mkGather src_shard dst_shard dest_bounds source_bounds))
  end.

Definition DetermineShardingConfig (p : Processor) (src dst : Sharding)
    : outcome ReshardConfigVariant :=
  gather ← andM (FullySharded src) (IsReplicated dst);
  if (gather : bool) then
    c ← GetGatherShardsConfig p src dst; mret (GatherShardsVariant c)
  else
  scatter ← andM (FullySharded dst) (IsReplicated src);
  if (scatter : bool) then
    c ← GetScatterShardsConfig p src dst; mret (ScatterShardsVariant c)
  else
  replicated ← andM (IsReplicated src) (IsReplicated dst);
  if (replicated : bool) then DetermineShardingConfigFullyReplicated p src dst
  else
  partial ← andM (IsPartiallyReplicated src) (IsReplicated dst);
  if (partial : bool) then DeterminePartialToReplicatedConfig p src dst
  else if negb (num_dims src =? num_dims dst) then
    DetermineShardingConfigReplicationChange p src dst
  else if (DeviceListOps.size (devices src) =? DeviceListOps.size (devices dst))
          && dims_eqb (dims src) (dims dst)
  then mret PointToPointConfig
  else DetermineScatterGatherConfig p src dst.
End Limits.

(** ** Slicing *)
Lemma SliceDim_ok ivs n a b r R :
  ivs !! n = Some (a, b) -> 0 <= a <= b -> b < i64_max -> 0 <= r < R -> R <= b - a + 1 ->
  let sz := (b - a + 1) / R in
  SliceDim (rect_of ivs) r R (Z.of_nat n) =
  Ret (rect_of (<[n := (a + sz * r, a + sz * r + sz - 1)]> ivs)).
Proof.
  intros Hn Hab Hb Hr HR sz. unfold SliceDim, rect_of. cbn [lo hi].
  pose proof (lookup_lt_Some _ _ _ Hn) as Hlt.
  rewrite (vec_get_lookup (ivs.*2) n b) by (by rewrite list_lookup_fmap, Hn).
  rewrite (vec_get_lookup (ivs.*1) n a) by (by rewrite list_lookup_fmap, Hn).
  assert (Hsz : 0 <= sz /\ sz * R <= b - a + 1).
  { unfold sz. pose proof (Z.mul_div_le (b - a + 1) R ltac:(lia)).
    pose proof (Z.div_pos (b - a + 1) R). nia. }
  assert (sz * r + sz <= b - a + 1) by nia.
  cbn [mbind outcome_bind]. rewrite sub64_ok by (unfold i64; lia). cbn [mbind outcome_bind].
  rewrite add64_ok by (unfold i64; lia). cbn [mbind outcome_bind].
  rewrite div64_ok by (unfold i64; lia). cbn [mbind outcome_bind]. fold sz.
  rewrite mul64_ok by (unfold i64; nia). cbn [mbind outcome_bind].
  rewrite add64_ok by (unfold i64; nia). cbn [mbind outcome_bind].
  rewrite add64_ok by (unfold i64; nia). cbn [mbind outcome_bind].
  rewrite sub64_ok by (unfold i64; nia). cbn [mbind outcome_bind].
  rewrite !vec_set_ok by (rewrite length_fmap; lia). cbn [mbind outcome_bind].
  by rewrite Nat2Z.id, !list_fmap_insert.
Qed.

Lemma insert_ival ivs n iv iv' p : ivs !! n = Some iv ->
  (forall q, in_ival iv' q -> in_ival iv q) ->
  Forall2 in_ival (<[n := iv']> ivs) p <->
  Forall2 in_ival ivs p /\ exists q, p !! n = Some q /\ in_ival iv' q.
Proof.
  revert n p. induction ivs as [|jv ivs IH]; intros [|n] p Hn Hsub; try done; cbn in Hn |- *.
  - injection Hn as ->. split.
    + intros (q & p' & Hq & Hp & ->)%Forall2_cons_inv_l. split; [constructor; auto|]. by exists q.
    + intros [(q & p' & Hq & Hp & ->)%Forall2_cons_inv_l (q' & [= ->] & Hq')]. by constructor.
  - split.
    + intros (q & p' & Hq & Hp & ->)%Forall2_cons_inv_l. apply (IH _ _ Hn Hsub) in Hp as [Hp Hx].
      split; [by constructor|done].
    + intros [(q & p' & Hq & Hp & ->)%Forall2_cons_inv_l Hx]. constructor; [done|].
      by apply (IH _ _ Hn Hsub).
Qed.

(** The interval of a tile along a real dimension. *)
Lemma tile_ivals_lookup l idx n d :
  reals l !! n = Some d -> in_range l idx ->
  exists x, 0 <= x < sd_sharding d /\
    tile_ivals l idx !! n = Some (tile_extent d * x, tile_extent d * x + tile_extent d - 1).
Proof.
  intros Hn Hv. revert n Hn. induction Hv as [|e x l idx Hx Hv IH]; intros n Hn; [done|].
  rewrite reals_cons in Hn. cbn [tile_ivals]. destruct (is_replica e); [by apply IH|].
  destruct n as [|n]; cbn in Hn |- *; [|by apply IH].
  injection Hn as <-. by exists x.
Qed.

(** ** The loops of [DeterminePartialToReplicatedConfig] *)
Lemma find_replicated_dim_none l k : replicas l = [] -> find_replicated_dim l k = -1.
Proof.
  revert k. induction l as [|d l IH]; intros k Hr; [done|]. rewrite replicas_cons in Hr.
  cbn. fold (is_replica d). destruct (is_replica d); [done|]. by apply IH.
Qed.

Lemma find_replicated_dim_ok l k : replicas l <> [] ->
  exists n d, find_replicated_dim l k = k + Z.of_nat n /\ l !! n = Some d /\
    head (replicas l) = Some d /\
    forall idx, length l = length idx -> idx !! n = Some (replica_coord l idx).
Proof.
  revert k. induction l as [|d l IH]; intros k Hr; [done|]. rewrite replicas_cons in Hr |- *.
  cbn [find_replicated_dim]. fold (is_replica d). destruct (is_replica d) eqn:Hd.
  - exists 0%nat, d. split_and!; [lia|done|done|]. intros [|x idx] Hl; [done|]. cbn. by rewrite Hd.
  - destruct (IH (k + 1) Hr) as (n & d' & E & Hl & Hh & Hc). exists (S n), d'.
    split_and!; [lia|done|done|]. intros [|x idx] Hlen; [done|]. cbn. rewrite Hd.
    apply Hc. cbn in Hlen. lia.
Qed.

(** A dimension that every copy can be sliced along. *)
Definition can_slice (R : Z) (d : ShardingDim) : bool := sd_size d mod (sd_sharding d * R) =? 0.

Lemma slice_dim_loop (s : Sharding) : wf s ->
  exists o k, foldM (slice_dim_step (replication s)) (None, 0) (dims s) = Ret (o, k) /\
    match o with
    | Some j => exists n d, j = Z.of_nat n /\ reals (dims s) !! n = Some d /\
                  can_slice (replication s) d = true
    | None => forall d, d ∈ reals (dims s) -> can_slice (replication s) d = false
    end.
Proof.
  intros Hwf. set (R := replication s). pose proof (replication_pos s Hwf) as HR.
  destruct (foldM_inv (slice_dim_step R)
    (fun done '(o, k) => k = Z.of_nat (length (reals done)) /\
       match o with
       | Some j => exists n d, j = Z.of_nat n /\ reals done !! n = Some d /\ can_slice R d = true
       | None => forall d, d ∈ reals done -> can_slice R d = false
       end) (dims s) (None, 0)) as ([o k] & E & _ & Ho); [| |by exists o, k].
  - split; [done|]. intros d. set_solver.
  - intros dn d rest [o k] Heq [-> Ho].
    assert (Hin : d ∈ dims s) by (rewrite Heq; set_solver).
    unfold slice_dim_step. fold (is_replica d). rewrite reals_app, reals_cons.
    destruct (is_replica d) eqn:Hr.
    { cbn. rewrite app_nil_r. by eexists. }
    assert (Hm : 1 <= sd_sharding d * R <= num_devices_ (devices s)).
    { rewrite <- (tiles_replication s Hwf). fold R. unfold num_tiles.
      pose proof (wf_sharding_pos s Hwf d Hin).
      assert (sd_sharding d <= prodZ (sd_sharding <$> reals (dims s))); [|nia].
      apply prodZ_elem_le.
      - apply Forall_fmap, Forall_forall. intros e [He _]%elem_of_reals. by apply (wf_sharding_pos s Hwf).
      - apply list_elem_of_fmap_2. by apply elem_of_reals. }
    pose proof (num_devices_i64 s Hwf). pose proof (wf_size_i64 s Hwf d Hin).
    rewrite mul64_ok by (unfold i64; lia). cbn [mbind outcome_bind]. rewrite length_app.
    destruct o as [j|].
    + destruct Ho as (n & d' & -> & Hn & Hc). cbn [mbind outcome_bind mret outcome_ret].
      eexists; split; [done|]. cbn [length]. split; [cbn; lia|]. exists n, d'.
      split; [done|]. split; [by apply lookup_app_l_Some|done].
    + rewrite rem64_ok by (unfold i64; lia). cbn [mbind outcome_bind mret outcome_ret].
      fold (can_slice R d). eexists; split; [done|]. split; [cbn; lia|].
      destruct (can_slice R d) eqn:Hc.
      * exists (length (reals dn)), d. split; [done|]. split; [by apply list_lookup_middle|done].
      * intros e [He|He%list_elem_of_singleton]%elem_of_app; [by apply Ho|by subst].
Qed.

(** The real dimension that the loop chooses; it does not depend on the
    processor. *)
Definition slice_choice (s : Sharding) : option nat :=
  match foldM (slice_dim_step (replication s)) (None, 0) (dims s) with
  | Ret (o, _) => Z.to_nat <$> o
  | _ => None
  end.

Lemma slice_choice_ok (s : Sharding) : wf s ->
  (exists k, foldM (slice_dim_step (replication s)) (None, 0) (dims s) =
     Ret (Z.of_nat <$> slice_choice s, k)) /\
  match slice_choice s with
  | Some n => exists d, reals (dims s) !! n = Some d /\ can_slice (replication s) d = true
  | None => forall d, d ∈ reals (dims s) -> can_slice (replication s) d = false
  end.
Proof.
  intros Hwf. unfold slice_choice. destruct (slice_dim_loop s Hwf) as (o & k & -> & Ho).
  destruct o as [j|]; [|split; [by exists k|done]]. destruct Ho as (n & d & -> & Hn & Hc).
  cbn. rewrite Nat2Z.id. split; [by exists k|by exists d].
Qed.

(** ** The slices of the copies of a tile *)
Definition slice_rect (s : Sharding) (n : nat) (idx : list Z) : RealmShape :=
  let ivs := tile_ivals (dims s) idx in
  match ivs !! n with
  | Some (a, b) =>
      let sz := (b - a + 1) / replication s in
      let r := replica_coord (dims s) idx in
      rect_of (<[n := (a + sz * r, a + sz * r + sz - 1)]> ivs)
  | None => rect_of ivs
  end.

Section Slices.
Context (s : Sharding) (Hwf : wf s) (n : nat) (d : ShardingDim).
Context (Hn : reals (dims s) !! n = Some d) (Hslice : can_slice (replication s) d = true).

(** The number of the slice that a point is in. *)
Definition slice_number (p : list Z) : Z :=
  (p !!! n mod tile_extent d) / (tile_extent d / replication s).

Lemma real_dim : d ∈ dims s /\ is_replica d = false.
Proof. by apply elem_of_reals, (list_elem_of_lookup_2 _ n). Qed.

Lemma slice_extent : 1 <= replication s /\ 1 <= tile_extent d <= i64_max /\
  exists sz, 1 <= sz /\ tile_extent d = replication s * sz /\ tile_extent d / replication s = sz.
Proof.
  destruct real_dim as [Hd Hr]. pose proof (replication_pos s Hwf) as HR.
  destruct (is_replica_false d (wf_dims s Hwf d Hd) Hr) as [Hs He].
  pose proof (wf_sharding_pos s Hwf d Hd) as Hsh.
  split; [done|]. split; [pose proof (wf_size_i64 s Hwf d Hd); nia|].
  apply Z.eqb_eq, Z.mod_divide in Hslice as [q Hq]; [|nia]. exists q.
  assert (tile_extent d = q * replication s) as -> by nia.
  rewrite Z.div_mul by lia. split_and!; nia.
Qed.

Lemma slice_rect_unfold idx : valid_index s idx ->
  exists x sz, tile_ivals (dims s) idx !! n =
      Some (tile_extent d * x, tile_extent d * x + tile_extent d - 1) /\
    0 <= x < sd_sharding d /\ sz = tile_extent d / replication s /\
    slice_rect s n idx =
    rect_of (<[n := (tile_extent d * x + sz * replica_coord (dims s) idx,
                     tile_extent d * x + sz * replica_coord (dims s) idx + sz - 1)]>
             (tile_ivals (dims s) idx)).
Proof.
  intros Hv. destruct (tile_ivals_lookup _ _ _ _ Hn Hv) as (x & Hx & Hi).
  exists x, (tile_extent d / replication s). split_and!; [done|lia|lia|done|].
  unfold slice_rect. cbn zeta. rewrite Hi.
  by replace (tile_extent d * x + tile_extent d - 1 - tile_extent d * x + 1)
    with (tile_extent d) by lia.
Qed.

Lemma replica_coord_valid idx : valid_index s idx ->
  0 <= replica_coord (dims s) idx < replication s.
Proof. intros Hv. by apply (replica_coord_range _ _ (replicas_le1 s Hwf)). Qed.

Lemma tile_rect_real idx : valid_index s idx ->
  tile_rect s idx = rect_of (tile_ivals (dims s) idx).
Proof.
  intros Hv. unfold tile_rect. pose proof (tile_ivals_length _ _ (Forall2_length _ _ _ Hv)) as Hl.
  pose proof (lookup_lt_Some _ _ _ Hn). by destruct (tile_ivals (dims s) idx); [cbn in Hl; lia|].
Qed.

Lemma SliceDim_tile idx : valid_index s idx ->
  SliceDim (tile_rect s idx) (replica_coord (dims s) idx) (replication s) (Z.of_nat n) =
  Ret (slice_rect s n idx).
Proof.
  intros Hv. destruct (slice_rect_unfold idx Hv) as (x & sz & Hi & Hx & Hsz & ->).
  destruct slice_extent as (HR & He & sz' & Hsz' & Hes & Heq).
  destruct real_dim as [Hd Hr]. pose proof (replica_coord_valid idx Hv).
  destruct (is_replica_false d (wf_dims s Hwf d Hd) Hr) as [Hs _].
  pose proof (wf_size_i64 s Hwf d Hd). rewrite (tile_rect_real idx Hv).
  rewrite (SliceDim_ok _ n _ _ _ _ Hi) by nia.
  replace (tile_extent d * x + tile_extent d - 1 - tile_extent d * x + 1)
    with (tile_extent d) by lia. by rewrite Hsz.
Qed.

(** A slice is the part of its tile with its slice number. *)
Lemma contains_slice idx p : valid_index s idx ->
  contains (slice_rect s n idx) p <->
  contains (tile_rect s idx) p /\ replica_coord (dims s) idx = slice_number p.
Proof.
  intros Hv. destruct (slice_rect_unfold idx Hv) as (x & sz & Hi & Hx & Hsz & ->).
  destruct slice_extent as (HR & He & sz' & Hsz' & Hes & Heq).
  rewrite Heq in Hsz. subst sz'. pose proof (replica_coord_valid idx Hv) as Hr.
  rewrite (tile_rect_real idx Hv). unfold contains. rewrite !ivals_rect_of.
  rewrite (insert_ival _ _ _ _ _ Hi) by (unfold in_ival; cbn; nia).
  split; intros [Hp Hq]; split; try done.
  - destruct Hq as (q & Hq & H1 & H2). cbn in H1, H2. unfold slice_number.
    rewrite (list_lookup_total_correct _ _ _ Hq), Heq.
    replace q with ((q - tile_extent d * x) + x * tile_extent d) by lia.
    rewrite Z.mod_add, Z.mod_small by nia. apply Z.div_unique with (q - tile_extent d * x - sz * replica_coord (dims s) idx); nia.
  - destruct (Forall2_lookup_l _ _ _ _ _ Hp Hi) as (q & Hq' & H1 & H2). cbn in H1, H2.
    exists q. split; [done|]. unfold slice_number in Hq.
    rewrite (list_lookup_total_correct _ _ _ Hq'), Heq in Hq.
    replace q with ((q - tile_extent d * x) + x * tile_extent d) in Hq by lia.
    rewrite Z.mod_add, Z.mod_small in Hq by nia.
    pose proof (Z.div_mod (q - tile_extent d * x) sz ltac:(lia)).
    pose proof (Z.mod_pos_bound (q - tile_extent d * x) sz ltac:(lia)).
    unfold in_ival. cbn. nia.
Qed.

(** The slices of all shards partition the array. *)
Lemma slices_partition p : contains (array_rect s) p ->
  exists i, 0 <= i < num_devices_ (devices s) /\
    contains (slice_rect s n (tile_index s i)) p /\
    forall j, 0 <= j < num_devices_ (devices s) ->
      contains (slice_rect s n (tile_index s j)) p -> j = i.
Proof.
  intros Hp. destruct slice_extent as (HR & He & sz & Hsz & Hes & Heq).
  assert (Hsn : 0 <= slice_number p < replication s).
  { unfold slice_number. rewrite Heq.
    pose proof (Z.mod_pos_bound (p !!! n) (tile_extent d) ltac:(lia)).
    split; [apply Z.div_pos; lia|apply Z.div_lt_upper_bound; nia]. }
  destruct (tiles_partition s p _ Hwf Hp Hsn) as (i & Hi & Hin & Hc & Hu).
  exists i. split; [done|]. split.
  - apply contains_slice; [by apply tile_index_valid|done].
  - intros j Hj Hcj. apply contains_slice in Hcj as [Hcj Hrj]; [|by apply tile_index_valid].
    by apply Hu.
Qed.
End Slices.

(** ** Gathering to a replicated array *)
Section Gather.
Context `{!RealmLimits} (p : Processor) (src dst : Sharding).
Context (Hsrc : wf src) (Hdst : wf dst) (Hrank : rank_supported src) (Hp : i64 (global_id_ p)).

(** The shard of a processor in a device list. *)
Definition shard_in (l : DeviceList) : option Z :=
  if decide (start_ l <= global_id_ p < start_ l + num_devices_ l)
  then Some (global_id_ p - start_ l) else None.

Lemma shard_in_range l i : shard_in l = Some i -> 0 <= i < num_devices_ l.
Proof. unfold shard_in. case_decide; [intros [= <-]; lia|done]. Qed.

Lemma ShardId_in l : DeviceListOps.wf l -> DeviceListOps.ShardId l (global_id_ p) = Ret (shard_in l).
Proof. intros Hl. by apply DeviceListOps.ShardId_ok. Qed.

Lemma GetGatherShardsConfig_ok :
  GetGatherShardsConfig p src dst =
  Ret (mkGather (shard_in (devices src)) (shard_in (devices dst))
         ((fun i => tile_rect src (tile_index src i)) <$> shard_in (devices src))
         ((fun i => tile_rect src (tile_index src i)) <$> seqZ 0 (num_devices_ (devices src)))).
Proof.
  pose proof (num_devices_i64 src Hsrc). unfold GetGatherShardsConfig, DeviceListOps.size.
  rewrite !ShardId_in by by apply wf_devices. cbn [mbind outcome_bind].
  rewrite reserve_ok by lia.
  rewrite (mapO_ok _ (fun i => tile_rect src (tile_index src i)))
    by (intros i Hi%elem_of_seqZ; apply ComputeTileBounds_ok; done || lia).
  destruct (shard_in (devices src)) as [i|] eqn:Hi; [|done].
  by rewrite (ComputeTileBounds_ok _ _ Hsrc Hrank (shard_in_range _ _ Hi)).
Qed.

Lemma source_slice_ok n d i : replicas (dims src) <> [] ->
  reals (dims src) !! n = Some d -> can_slice (replication src) d = true ->
  0 <= i < num_devices_ (devices src) ->
  source_slice src (find_replicated_dim (dims src) 0) (replication src) (Z.of_nat n) i =
  Ret (slice_rect src n (tile_index src i)) /\
  (index ← ComputeTileIndex i src;
   vec_get index (find_replicated_dim (dims src) 0)) =
  Ret (replica_coord (dims src) (tile_index src i)).
Proof.
  intros Hr Hn Hc Hi. unfold source_slice.
  destruct (find_replicated_dim_ok (dims src) 0 Hr) as (k & e & -> & _ & _ & Hk).
  pose proof (tile_index_valid src Hsrc i) as Hv. pose proof (Forall2_length _ _ _ Hv) as Hl.
  rewrite (ComputeTileBounds_ok _ _ Hsrc Hrank Hi), (ComputeTileIndex_ok _ Hsrc) by done.
  cbn [mbind outcome_bind]. rewrite Z.add_0_l, (vec_get_lookup _ _ _ (Hk _ Hl)).
  cbn [mbind outcome_bind]. split; [|done]. by apply (SliceDim_tile src Hsrc n d).
Qed.

Lemma replication_single d : head (replicas (dims src)) = Some d -> sd_sharding d = replication src.
Proof.
  pose proof (replicas_le1 src Hsrc) as H1. unfold replication.
  destruct (replicas (dims src)) as [|e [|]]; cbn in H1 |- *; [done| |lia].
  intros [= ->]. lia.
Qed.

Definition slices_config (n : nat) : GatherShardsConfig :=
  mkGather (shard_in (devices src)) (shard_in (devices dst))
    ((fun i => slice_rect src n (tile_index src i)) <$> shard_in (devices src))
    ((fun i => slice_rect src n (tile_index src i)) <$> seqZ 0 (num_devices_ (devices src))).

Lemma DeterminePartialToReplicatedConfig_ok : replicas (dims src) <> [] ->
  DeterminePartialToReplicatedConfig p src dst =
  Ret (match slice_choice src with
       | Some n => GatherShardsVariant (slices_config n)
       | None => UnsupportedConfig
       end).
Proof.
  intros Hr. pose proof (num_devices_i64 src Hsrc).
  pose proof (source_slice_ok) as Hss. unfold DeterminePartialToReplicatedConfig.
  destruct (find_replicated_dim_ok (dims src) 0 Hr) as (k & e & E & Hk & Hh & _).
  rewrite E, Z.add_0_l in *. rewrite (vec_get_lookup _ _ _ Hk). cbn [mbind outcome_bind].
  rewrite (replication_single e Hh).
  destruct (slice_choice_ok src Hsrc) as [[m ->] Ho]. cbn [mbind outcome_bind].
  destruct (slice_choice src) as [n|]; [|done]. destruct Ho as (d & Hn & Hc). cbn [fmap option_fmap option_map].
  rewrite !ShardId_in by (by apply wf_devices). cbn [mbind outcome_bind].
  unfold slices_config, DeviceListOps.size. rewrite reserve_ok by lia.
  rewrite (mapO_ok _ (fun i => slice_rect src n (tile_index src i)))
    by (intros i Hi%elem_of_seqZ; apply (Hss n d i Hr Hn Hc); lia).
  destruct (shard_in (devices src)) as [i|] eqn:Hi; [|done].
  pose proof (shard_in_range _ _ Hi) as Hri. destruct (Hss n d i Hr Hn Hc Hri) as [_ Hx].
  rewrite (ComputeTileIndex_ok _ Hsrc) in Hx |- * by done. cbn [mbind outcome_bind] in Hx |- *.
  rewrite Hx. cbn [mbind outcome_bind].
  rewrite (ComputeTileBounds_ok _ _ Hsrc Hrank Hri). cbn [mbind outcome_bind].
  by rewrite (SliceDim_tile src Hsrc n d Hn Hc _ (tile_index_valid src Hsrc i)).
Qed.

(** With one copy the slices are the tiles. *)
Lemma slice_rect_single n d idx : replication src = 1 -> reals (dims src) !! n = Some d ->
  can_slice (replication src) d = true -> valid_index src idx ->
  slice_rect src n idx = tile_rect src idx.
Proof.
  intros HR Hn Hc Hv. rewrite (tile_rect_real src n d Hn idx Hv).
  destruct (slice_rect_unfold src n d Hn idx Hv) as (x & sz & Hi & Hx & -> & ->).
  pose proof (replica_coord_valid src Hsrc idx Hv). rewrite HR, Z.div_1_r in *.
  assert (replica_coord (dims src) idx = 0) as -> by lia.
  f_equal. apply list_insert_id. rewrite Hi, Z.mul_0_r, Z.add_0_r. done.
Qed.

Lemma gather_ok : 1 < num_tiles src -> num_tiles dst = 1 ->
  exists v, DetermineShardingConfig p src dst = Ret v /\
    ((v = UnsupportedConfig /\
      forall d, d ∈ reals (dims src) -> can_slice (replication src) d = false) \/
     (exists n d, reals (dims src) !! n = Some d /\ can_slice (replication src) d = true /\
      v = GatherShardsVariant (slices_config n))).
Proof.
  intros Hs Hd. unfold DetermineShardingConfig, FullySharded, IsReplicated, IsPartiallyReplicated.
  rewrite (TotalSharding_ok src Hsrc), (TotalSharding_ok dst Hdst).
  unfold andM, DeviceListOps.size. cbn [mbind outcome_bind mret outcome_ret].
  rewrite <- (tiles_replication src Hsrc), Hd. pose proof (replication_pos src Hsrc).
  change (1 =? 1) with true.
  destruct (Z.eqb_spec (num_tiles src) (num_tiles src * replication src)) as [Heq|Hne].
  - assert (HR : replication src = 1) by nia. rewrite GetGatherShardsConfig_ok.
    cbn [mbind outcome_bind]. eexists; split; [done|]. right.
    destruct (reals (dims src)) as [|d l] eqn:Hre.
    { unfold num_tiles in Hs. rewrite Hre in Hs. cbn in Hs. lia. }
    assert (Hin : d ∈ reals (dims src)) by (rewrite Hre; set_solver).
    apply elem_of_reals in Hin as [Hin Hnr].
    assert (Hcs : can_slice (replication src) d = true).
    { destruct (wf_dims src Hsrc d Hin) as (_ & Hsh & [Hc|Hc]); [congruence|].
      unfold can_slice. rewrite HR, Z.mul_1_r. by apply Z.eqb_eq. }
    exists 0%nat, d. split; [done|]. split; [done|]. unfold slices_config. do 2 f_equal.
    + destruct (shard_in (devices src)); [|done]. cbn. f_equal. symmetry.
      by apply (slice_rect_single 0 d); [|rewrite Hre| |apply tile_index_valid].
    + apply list_fmap_ext. intros _ i _. symmetry.
      by apply (slice_rect_single 0 d); [|rewrite Hre| |apply tile_index_valid].
  - rewrite (proj2 (Z.eqb_neq (num_tiles src) 1)) by lia.
    rewrite (proj2 (Z.ltb_lt 1 (num_tiles src))), (proj2 (Z.ltb_lt (num_tiles src) _)) by nia.
    assert (Hr : replicas (dims src) <> []).
    { intros Hr. unfold replication in *. rewrite Hr in *. cbn in *. lia. }
    rewrite (DeterminePartialToReplicatedConfig_ok Hr). pose proof (slice_choice_ok src Hsrc) as [_ Ho].
    destruct (1 =? num_devices_ (devices dst)); cbn [andb mbind outcome_bind mret outcome_ret];
      (eexists; split; [done|]); (destruct (slice_choice src) as [n|]; [right|by left]);
      destruct Ho as (d & Hn & Hc); by exists n, d.
Qed.
End Gather.

(** ** Properties *)

(** C21: gathering a tiled array to a replicated one: when a dimension can be
    sliced by the number of copies, every processor gets a gather configuration
    with one slice per source shard.  The slices partition the array, every
    slice is inside the tile of its shard, and a source shard sends the slice
    the targets expect from it.  When no dimension can be sliced the pattern is
    unsupported. *)
Theorem gather_config_partitions `{!RealmLimits} (p : Processor) (src dst : Sharding)
    (Hsrc : wf src) (Hdst : wf dst) (Hrank : rank_supported src) (Hp : i64 (global_id_ p))
    (Htiled : 1 < num_tiles src) (Hrepl : num_tiles dst = 1) :
  (existsb (can_slice (replication src)) (reals (dims src)) = false ->
   DetermineShardingConfig p src dst = Ret UnsupportedConfig) /\
  (existsb (can_slice (replication src)) (reals (dims src)) = true ->
   exists c, DetermineShardingConfig p src dst = Ret (GatherShardsVariant c) /\
     DeviceListOps.ShardId (devices src) (global_id_ p) = Ret (gs_src_shard c) /\
     DeviceListOps.ShardId (devices dst) (global_id_ p) = Ret (gs_dst_shard c) /\
     (forall i, gs_src_shard c = Some i ->
        source_to_target_bounds c = target_from_source_bounds c !! Z.to_nat i /\
        is_Some (source_to_target_bounds c)) /\
     (forall i : nat, Z.of_nat i < num_devices_ (devices src) ->
        exists b rect, target_from_source_bounds c !! i = Some b /\
          ComputeTileBounds (Z.of_nat i) src = Ret rect /\
          forall pt, contains b pt -> contains rect pt) /\
     (forall pt, contains (array_rect src) pt ->
        exists i b, target_from_source_bounds c !! i = Some b /\ contains b pt /\
          forall j b', target_from_source_bounds c !! j = Some b' -> contains b' pt -> j = i)).
Proof.
  destruct (gather_ok p src dst Hsrc Hdst Hrank Hp Htiled Hrepl)
    as (v & -> & [[-> Hno]|(n & d & Hn & Hc & ->)]); split; intros He; try done.
  - exfalso. apply existsb_exists in He as (d & Hd & He). apply list_elem_of_In in Hd.
    rewrite Hno in He; done.
  - exfalso. assert (existsb (can_slice (replication src)) (reals (dims src)) = true); [|congruence].
    apply existsb_exists. exists d. split; [|done].
    by apply list_elem_of_In, (list_elem_of_lookup_2 _ n).
  - exists (slices_config p src dst n). split; [done|].
    split; [by apply ShardId_in; [|apply wf_devices]|].
    split; [by apply ShardId_in; [|apply wf_devices]|].
    assert (Hlk : forall i, 0 <= i < num_devices_ (devices src) ->
      target_from_source_bounds (slices_config p src dst n) !! Z.to_nat i =
      Some (slice_rect src n (tile_index src i))).
    { intros i Hi. cbn. rewrite list_lookup_fmap, lookup_seqZ_lt by lia. cbn. do 3 f_equal. lia. }
    assert (Hinv : forall j b, target_from_source_bounds (slices_config p src dst n) !! j = Some b ->
      Z.of_nat j < num_devices_ (devices src)).
    { intros j b Hb. apply lookup_lt_Some in Hb. cbn in Hb.
      rewrite length_fmap, length_seqZ in Hb. lia. }
    split_and!.
    + intros i Hi. cbn in Hi |- *. rewrite Hi.
      pose proof (shard_in_range p _ _ Hi). pose proof (Hlk i ltac:(done)) as Hl. cbn in Hl.
      rewrite Hl. split; [done|by eexists].
    + intros i Hi. pose proof (Hlk (Z.of_nat i) ltac:(lia)) as Hl. rewrite Nat2Z.id in Hl.
      eexists _, _. split; [exact Hl|]. split; [apply ComputeTileBounds_ok; done || lia|].
      intros pt Hb. by apply (contains_slice src Hsrc n d Hn Hc) in Hb as [? _];
        [|apply tile_index_valid].
    + intros pt Hpt. destruct (slices_partition src Hsrc n d Hn Hc pt Hpt) as (i & Hi & Hin & Hu).
      exists (Z.to_nat i), (slice_rect src n (tile_index src i)).
      split; [by apply Hlk|]. split; [done|]. intros j b' Hj Hb'.
      pose proof (Hinv j b' Hj). pose proof (Hlk (Z.of_nat j) ltac:(lia)) as Hl.
      rewrite Nat2Z.id, Hj in Hl. injection Hl as ->.
      rewrite <- (Hu (Z.of_nat j)); [lia|lia|done].
Qed.

Lemma gather_config_partitions_witness :
  let _ : RealmLimits := 3 in
  exists c,
    DetermineShardingConfig (mkProc GPU 0 5 31) example_coarse
      (mkSharding [mkDim 8 1 0; mkDim 6 1 1; mkDim 1 8 2] (mkDeviceList 0 8))
    = Ret (GatherShardsVariant c) /\ gs_src_shard c = Some 5 /\
    source_to_target_bounds c = Some (mkRect [6; 0] [7; 2]).
Proof.
  intros L.
  destruct (gather_config_partitions (mkProc GPU 0 5 31) example_coarse
    (mkSharding [mkDim 8 1 0; mkDim 6 1 1; mkDim 1 8 2] (mkDeviceList 0 8))) as [_ H];
    try by apply (bool_decide_unpack _).
  destruct H as (c & E & _); [done|]. exists c. split; [exact E|].
  vm_compute in E. injection E as <-. done.
Defined.
