(* ===== verification/Handles.v ===== *)
(** The asynchronous handles (src/zuku/store.h, src/zuku/future.h): [Store],
    [Future] and [View] keep the events that order the tasks working on a value.
    Every member function is a definition; an object is a record, a member
    function that changes its object returns the new one, and effects on the
    runtime are passed explicitly. *)
From stdpp Require Import base tactics list numbers option strings sets.
From Stdlib Require Import ZArith Lia.
From S2P Require Import Prelude Events.

Section Handles.
Context `{RealmEvents} {V : Type}.

(** [Future<T>::Value]: a shared pointer to a future, to an optional or to a
    value; pointers are identities, [VNull] a null pointer to a value. *)
Inductive Value : Type :=
| VFuture (id : nat)
| VOptional (cell : nat)
| VShared (v : V)
| VNull.

Record EventPrecondition : Type := mkPre { stream : Event; effects : Event }.

(** [deferred_release] and [DeferredDeleteInstances] are asked for values. *)
Definition RT : Type := Runtime Value.

(** ** Views *)
Record View : Type := mkView {
  view_precondition : option EventPrecondition;
  war_dependency : option nat;
  views : list Event;
  view_value : Value;
}.

Definition View_new (pre : option EventPrecondition) (war : option nat) (v : Value) : View :=
  mkView pre war [] v.

(** [View(View&&)]: the new view, and what is left of the old one.  [views_] is
    not moved. *)
Definition View_move (v : View) : View * View :=
  (mkView (view_precondition v) (war_dependency v) [] (view_value v),
   mkView (view_precondition v) None (views v) VNull).

(** [~View]. *)
Definition View_dtor (v : View) (rt : RT) : RT :=
  match war_dependency v with
  | None => rt
  | Some u =>
      let release := match views v with [] => NO_EVENT | l => merge_events l end in
      let rt := trigger u release rt in
      match views v with
      | [] => rt
      | _ => deferred_release (view_value v) release rt
      end
  end.

Definition View_HasPrecondition (v : View) : bool := bool_decide (is_Some (view_precondition v)).
Definition View_Precondition (v : View) : Event :=
  match view_precondition v with Some p => effects p | None => NO_EVENT end.
Definition View_StreamPrecondition (v : View) : Event :=
  match view_precondition v with Some p => stream p | None => NO_EVENT end.
Definition View_EffectsPrecondition (v : View) : Event := View_Precondition v.

(** [View::value()]; [cells] are the contents of the shared optionals. *)
Definition View_get (cells : nat -> option V) (v : View) : outcome V :=
  match view_value v with
  | VFuture _ => Throw (RuntimeError "cannot get value from View with unresolved Future")
  | VShared x => mret x
  | VNull => Undef NullOptional
  | VOptional c => match cells c with Some x => mret x | None => Throw BadOptionalAccess end
  end.

(** [view()]: the subview, and this view waiting for it. *)
Definition View_view (v : View) (rt : RT) : View * View * RT :=
  let '(u, rt) := create_user_event rt in
  (View_new (view_precondition v) (Some u) (view_value v),
   mkView (view_precondition v) (war_dependency v) (views v ++ [user_event u]) (view_value v), rt).

(** [view(task_completion_ev)]. *)
Definition View_view_until (v : View) (ev : Event) : View * View :=
  (View_new (view_precondition v) None (view_value v),
   mkView (view_precondition v) (war_dependency v) (views v ++ [ev]) (view_value v)).

Definition View_DoneAfter (v : View) (ev : Event) : View :=
  mkView (view_precondition v) (war_dependency v) (views v ++ [ev]) (view_value v).

(** ** Futures *)
Record Future : Type := mkFuture {
  future_precondition : option Event;
  future_war : option Event;
  future_value : Value;
}.

Definition Future_new (ev : Event) (v : Value) : Future := mkFuture (Some ev) None v.
Definition Future_CreateEmpty : Future := mkFuture None None (VFuture 0).

Definition Future_HasPrecondition (f : Future) : bool :=
  bool_decide (is_Some (future_precondition f)) || bool_decide (is_Some (future_war f)).

Definition Future_Precondition (f : Future) : Event :=
  match future_war f with
  | Some e => e
  | None => match future_precondition f with Some e => e | None => NO_EVENT end
  end.

Definition Future_StreamPrecondition (f : Future) : Event := Future_Precondition f.
Definition Future_EffectsPrecondition (f : Future) : Event := Future_Precondition f.

Definition Future_HasDeferredValue (f : Future) : bool :=
  match future_value f with VFuture _ => true | _ => false end.
Definition Future_emplace (f : Future) (cell : nat) : Future :=
  mkFuture (future_precondition f) (future_war f) (VOptional cell).

(** [get_deferred_value()] and [shared_value()]: [std::get] of the variant. *)
Definition Future_get_deferred_value (f : Future) : outcome nat :=
  match future_value f with VFuture g => mret g | _ => Throw BadVariantAccess end.
Definition Future_shared_value (f : Future) : outcome nat :=
  match future_value f with VOptional c => mret c | _ => Throw BadVariantAccess end.

(** The preconditions of a view of a future, and the future's WAR event. *)
Definition future_view_precondition (f : Future) : option EventPrecondition :=
  match future_precondition f with Some e => Some (mkPre e e) | None => None end.
Definition future_add_reader (f : Future) (reader : Event) : Future :=
  mkFuture (future_precondition f)
    (match future_war f with
     | Some w => Some (merge_events [w; reader])
     | None => Some reader
     end) (future_value f).

Definition Future_view (f : Future) (rt : RT) : View * Future * RT :=
  let '(u, rt) := create_user_event rt in
  let f := future_add_reader f (user_event u) in
  (View_new (future_view_precondition f) (Some u) (future_value f), f, rt).

Definition Future_view_until (f : Future) (ev : Event) : View * Future :=
  let f := future_add_reader f ev in
  (View_new (future_view_precondition f) None (future_value f), f).

(** ** Stores *)
Record Store : Type := mkStore {
  has_parent : bool;
  parent_notification_event : option nat;
  child_rw_event : option EventPrecondition;
  war_precondition : option EventPrecondition;
  store_value : option V;
}.

Definition Store_Create (v : V) : Store := mkStore false None None None (Some v).
Definition Store_CreateEmpty : Store := mkStore false None None None None.
Definition Store_DeferredCreate (create_event : Event) (v : V) : Store :=
  mkStore false None (Some (mkPre create_event create_event)) None (Some v).

(** What a move leaves behind: the moved optional of [war_precondition_] stays
    engaged, the others are reset. *)
Definition moved_from (v : Store) : Store :=
  mkStore (has_parent v) None None (war_precondition v) None.

(** [Store(Store&&)]. *)
Definition Store_move (v : Store) : Store * Store := (v, moved_from v).

(** [operator=(Store&&)]: the old contents of [self] are dropped. *)
Definition Store_assign (self v : Store) : Store * Store := (v, moved_from v).

Definition Store_HasWarPrecondition (s : Store) : bool := bool_decide (is_Some (war_precondition s)).
Definition Store_HasPrecondition (s : Store) : bool :=
  bool_decide (is_Some (war_precondition s)) || bool_decide (is_Some (child_rw_event s)).
Definition Store_HasPostcondition (s : Store) : bool :=
  bool_decide (is_Some (parent_notification_event s)).

(** [Precondition()] and [StreamPrecondition()] select the other component. *)
Definition store_precondition (sel : EventPrecondition -> Event) (s : Store) : Event :=
  match war_precondition s with
  | Some w =>
      match child_rw_event s with
      | Some c => merge_events [sel w; sel c]
      | None => sel w
      end
  | None => match child_rw_event s with Some c => sel c | None => NO_EVENT end
  end.
Definition Store_Precondition (s : Store) : Event := store_precondition effects s.
Definition Store_StreamPrecondition (s : Store) : Event := store_precondition stream s.
Definition Store_EffectsPrecondition (s : Store) : Event := Store_Precondition s.

Definition Store_Postcondition (s : Store) : Event :=
  match parent_notification_event s with Some u => user_event u | None => NO_EVENT end.

(** [Wait()]: the events it blocks on, and the store afterwards. *)
Definition Store_Wait (s : Store) : list Event * Store :=
  ((match child_rw_event s with Some c => [effects c] | None => [] end) ++
   (match war_precondition s with Some w => [effects w] | None => [] end),
   mkStore (has_parent s) (parent_notification_event s) None None (store_value s)).

Definition Store_ReadyAfter (st ef : Event) (s : Store) : Store :=
  mkStore (has_parent s) (parent_notification_event s)
    (Some (match child_rw_event s with
           | Some c => mkPre (merge_events [st; stream c])
                             (merge_events [ef; effects c])
           | None => mkPre st ef
           end)) None (store_value s).

(** [child(stream, effects)]: moving [child_rw_event_] into the constructor's
    argument copies the events and leaves the optional engaged. *)
Definition Store_child_until (st ef : Event) (s : Store) : Store * Store :=
  (mkStore true None (child_rw_event s) (war_precondition s) (store_value s),
   Store_ReadyAfter st ef s).

(** [child()]: an open-ended child, whose destructor notifies the parent. *)
Definition Store_child (s : Store) (rt : RT) : Store * Store * RT :=
  let '(u, rt) := create_user_event rt in
  (mkStore true (Some u) (child_rw_event s) (war_precondition s) (store_value s),
   Store_ReadyAfter (user_event u) (user_event u) s, rt).

Definition store_view_value (s : Store) : Value :=
  match store_value s with Some v => VShared v | None => VNull end.

Definition Store_unsafe_view (s : Store) : View :=
  View_new (child_rw_event s) None (store_view_value s).

(** The update of [war_precondition_] by every kind of view. *)
Definition store_add_reader (st ef : Event) (s : Store) : Store :=
  mkStore (has_parent s) (parent_notification_event s) (child_rw_event s)
    (Some (match war_precondition s with
           | Some w => mkPre (merge_events [stream w; st])
                             (merge_events [effects w; ef])
           | None => mkPre st ef
           end)) (store_value s).

Definition Store_view_until (st ef : Event) (s : Store) : View * Store :=
  (View_new (child_rw_event s) None (store_view_value s), store_add_reader st ef s).

Definition Store_view (s : Store) (rt : RT) : View * Store * RT :=
  let '(u, rt) := create_user_event rt in
  (View_new (child_rw_event s) (Some u) (store_view_value s),
   store_add_reader (user_event u) (user_event u) s, rt).

(** [~Store]; [deferred] is [has_deferred_delete_instances<T>::value]. *)
Definition Store_dtor (deferred : bool) (s : Store) (rt : RT) : RT :=
  let rt :=
    match parent_notification_event s with
    | Some u =>
        trigger u (match child_rw_event s with Some c => effects c | None => NO_EVENT end) rt
    | None => rt
    end in
  let rt :=
    match store_value s with
    | Some v =>
        if deferred && negb (has_parent s) && Store_HasPrecondition s
        then DeferredDeleteInstances (VShared v) (Store_Precondition s) rt else rt
    | None => rt
    end in
  match child_rw_event s, store_value s with
  | Some c, Some v => deferred_release (VShared v) (effects c) rt
  | _, _ => rt
  end.
End Handles.

(** ** Requests on a store

    What a program does with a store it holds: it hands children and views to
    tasks, or itself works on the value after the store's precondition and then
    calls [ReadyAfter], as the reshard operations do.  Each request grants an
    access: it may start when [g_pre] has triggered and is over when [g_end] has.

    Both are pairs of events, as every [EventPrecondition]: an access can give up
    its stream, so that what is stream-ordered may follow it on the stream, before
    its effects are over. *)
Inductive Lane : Type := OnStream | OnEffects.

Section Requests.
Context `{RealmEvents} {V : Type}.

Definition at_lane (l : Lane) (p : EventPrecondition) : Event :=
  match l with OnStream => stream p | OnEffects => effects p end.

Inductive StoreOp : Type :=
| OpChild (st ef : Event)
| OpOpenChild
| OpView (st ef : Event)
| OpOpenView
| OpReadyAfter (st ef : Event).

Record Grant : Type := mkGrant { g_write : bool; g_pre : EventPrecondition; g_end : EventPrecondition }.

(** What a child or view of a store may start after. *)
Definition store_pre (s : @Store _ V) : EventPrecondition :=
  mkPre (Store_StreamPrecondition s) (Store_EffectsPrecondition s).
Definition view_pre (v : @View _ V) : EventPrecondition :=
  mkPre (View_StreamPrecondition v) (View_EffectsPrecondition v).
Definition both (e : Event) : EventPrecondition := mkPre e e.

Definition store_step (s : @Store _ V) (rt : @RT _ V) (op : StoreOp)
    : Grant * @Store _ V * @RT _ V :=
  match op with
  | OpChild st ef =>
      let '(c, s') := Store_child_until st ef s in
      (mkGrant true (store_pre c) (mkPre st ef), s', rt)
  | OpOpenChild =>
      let '(c, s', rt') := Store_child s rt in
      (mkGrant true (store_pre c) (both (Store_Postcondition c)), s', rt')
  | OpView st ef =>
      let '(v, s') := Store_view_until st ef s in
      (mkGrant false (view_pre v) (mkPre st ef), s', rt)
  | OpOpenView =>
      let '(v, s', rt') := Store_view s rt in
      (mkGrant false (view_pre v) (both (user_event (next_user rt))), s', rt')
  | OpReadyAfter st ef =>
      (mkGrant true (store_pre s) (mkPre st ef), Store_ReadyAfter st ef s, rt)
  end.

Fixpoint store_run (s : @Store _ V) (rt : @RT _ V) (ops : list StoreOp)
    : list Grant * @Store _ V * @RT _ V :=
  match ops with
  | [] => ([], s, rt)
  | op :: ops =>
      let '(g, s, rt) := store_step s rt op in
      let '(gs, s, rt) := store_run s rt ops in
      (g :: gs, s, rt)
  end.

(** The events of a store's optionals. *)
Definition rw_at (l : Lane) (s : @Store _ V) : Event :=
  match child_rw_event s with Some c => at_lane l c | None => NO_EVENT end.
Definition war_at (l : Lane) (s : @Store _ V) : Event :=
  match war_precondition s with Some w => at_lane l w | None => NO_EVENT end.

Definition rw_event (s : @Store _ V) : Event := rw_at OnEffects s.
Definition war_event (s : @Store _ V) : Event := war_at OnEffects s.

Definition rw_pre (s : @Store _ V) : EventPrecondition := mkPre (rw_at OnStream s) (rw_at OnEffects s).

Lemma at_rw_pre l s : at_lane l (rw_pre s) = rw_at l s.
Proof. by destruct l. Qed.

Lemma view_pre_store (s : @Store _ V) u x : view_pre (View_new (child_rw_event s) u x) = rw_pre s.
Proof. unfold view_pre, rw_pre, rw_at. by destruct s as [? ? [c|] ? ?]. Qed.

Context (fired : Event -> Prop) `{!Moment fired}.

Lemma fired_store_pre l s :
  fired (at_lane l (store_pre s)) <-> fired (war_at l s) /\ fired (rw_at l s).
Proof.
  unfold store_pre, Store_StreamPrecondition, Store_EffectsPrecondition, Store_Precondition,
    store_precondition, war_at, rw_at. pose proof fired_no_event.
  destruct l; cbn; destruct (war_precondition s), (child_rw_event s);
    rewrite ?fired_merge2; naive_solver.
Qed.

Lemma fired_precondition s :
  fired (Store_Precondition s) <-> fired (war_event s) /\ fired (rw_event s).
Proof. exact (fired_store_pre OnEffects s). Qed.

(** ReadyAfter: the new read-write events cover the old ones. *)
Lemma fired_ready_after_at l st ef s :
  fired (rw_at l (Store_ReadyAfter st ef s)) <-> fired (at_lane l (mkPre st ef)) /\ fired (rw_at l s).
Proof.
  unfold rw_at, Store_ReadyAfter. cbn. pose proof fired_no_event.
  destruct l; cbn; destruct (child_rw_event s); cbn; rewrite ?fired_merge2; naive_solver.
Qed.

Lemma fired_ready_after st ef s :
  fired (rw_event (Store_ReadyAfter st ef s)) <-> fired ef /\ fired (rw_event s).
Proof. exact (fired_ready_after_at OnEffects st ef s). Qed.

Lemma fired_add_reader l st ef s :
  fired (war_at l (store_add_reader st ef s)) <-> fired (war_at l s) /\ fired (at_lane l (mkPre st ef)).
Proof.
  unfold war_at, store_add_reader. cbn. pose proof fired_no_event.
  destruct l; cbn; destruct (war_precondition s); cbn; rewrite ?fired_merge2; naive_solver.
Qed.

(** *** The invariant

    When the read-write event of a lane has triggered every granted write is over
    there, and when the WAR event has too every granted read is. *)
Definition covered (l : Lane) (gs : list Grant) (s : @Store _ V) : Prop :=
  (forall g, g ∈ gs -> g_write g = true -> fired (rw_at l s) -> fired (at_lane l (g_end g))) /\
  (forall g, g ∈ gs -> fired (rw_at l s) -> fired (war_at l s) -> fired (at_lane l (g_end g))).

(** Tasks are causal: an access that is over has been allowed to start. *)
Definition causal (l : Lane) (g : Grant) : Prop :=
  g_write g = true -> fired (at_lane l (g_end g)) -> fired (at_lane l (g_pre g)).

Lemma covered_write l gs s st ef :
  covered l gs s -> causal l (mkGrant true (store_pre s) (mkPre st ef)) ->
  covered l (gs ++ [mkGrant true (store_pre s) (mkPre st ef)]) (Store_ReadyAfter st ef s).
Proof.
  intros [Hw Hr] Hc. specialize (Hc eq_refl). cbn [g_pre g_end] in Hc.
  split; intros g [Hg|Hg%list_elem_of_singleton]%elem_of_app; try (subst g; cbn [g_end]).
  - intros Hgw [Hef Hrw]%fired_ready_after_at. by apply Hw.
  - by intros _ [Hef _]%fired_ready_after_at.
  - intros [Hef Hrw]%fired_ready_after_at _. apply Hc, fired_store_pre in Hef as [Hwar _].
    by apply Hr.
  - by intros [Hef _]%fired_ready_after_at.
Qed.

Lemma covered_read l gs s st ef pre :
  covered l gs s -> covered l (gs ++ [mkGrant false pre (mkPre st ef)]) (store_add_reader st ef s).
Proof.
  intros [Hw Hr]. split; intros g [Hg|Hg%list_elem_of_singleton]%elem_of_app; try (subst g; cbn [g_end]).
  - intros Hgw Hrw. by apply Hw.
  - done.
  - intros Hrw [Hwar _]%fired_add_reader. by apply Hr.
  - by intros _ [_ Hef]%fired_add_reader.
Qed.

(** What every step does, in terms of the two updates. *)
Lemma store_step_spec s rt op g s' rt' : store_step s rt op = (g, s', rt') ->
  exists st ef,
    (g = mkGrant true (store_pre s) (mkPre st ef) /\ s' = Store_ReadyAfter st ef s) \/
    (g = mkGrant false (rw_pre s) (mkPre st ef) /\ s' = store_add_reader st ef s).
Proof.
  destruct op; cbn; intros [= <- <- <-]; rewrite ?view_pre_store; do 2 eexists;
    [left|left|right|right|left]; done.
Qed.

(** An access may start only when the earlier accesses it conflicts with are
    over. *)
Definition conflicts (a b : Grant) : bool := g_write a || g_write b.

Lemma store_run_ordered l ops : forall gs s rt gs' s' rt',
  store_run s rt ops = (gs', s', rt') -> covered l gs s -> Forall (causal l) gs' ->
  covered l (gs ++ gs') s' /\
  forall i b, gs' !! i = Some b -> forall a, a ∈ gs ++ take i gs' ->
    conflicts a b = true -> fired (at_lane l (g_pre b)) -> fired (at_lane l (g_end a)).
Proof.
  induction ops as [|op ops IH]; intros gs s rt gs' s' rt' Hrun Hcov Hca; cbn in Hrun.
  { injection Hrun as <- <- <-. rewrite app_nil_r. split; [done|]. intros i b Hb. done. }
  destruct (store_step s rt op) as [[g s1] rt1] eqn:Hs.
  destruct (store_run s1 rt1 ops) as [[gs1 s2] rt2] eqn:Hr. injection Hrun as <- <- <-.
  apply Forall_cons in Hca as [Hcg Hca].
  destruct (store_step_spec _ _ _ _ _ _ Hs) as (st & ef & Hg).
  assert (Hcov1 : covered l (gs ++ [g]) s1).
  { destruct Hg as [[-> ->]|[-> ->]]; [by apply covered_write|by apply covered_read]. }
  assert (Hstart : forall a, a ∈ gs -> conflicts a g = true ->
            fired (at_lane l (g_pre g)) -> fired (at_lane l (g_end a))).
  { intros a Ha Hab Hpre. destruct Hcov as [Hw Hrd]. destruct Hg as [[-> _]|[-> _]]; cbn [g_pre] in Hpre.
    - apply fired_store_pre in Hpre as [Hwar Hrw]. by apply Hrd.
    - unfold conflicts in Hab. cbn in Hab. rewrite orb_false_r in Hab. rewrite at_rw_pre in Hpre. by apply Hw. }
  destruct (IH (gs ++ [g]) s1 rt1 gs1 s2 rt2 Hr Hcov1 Hca) as [Hfin Hord].
  rewrite <- (assoc_L (++)) in Hfin. split; [done|].
  intros [|i] b Hb a Ha; cbn in Hb, Ha.
  - injection Hb as <-. rewrite app_nil_r in Ha. by apply Hstart.
  - apply (Hord i b Hb). rewrite <- (assoc_L (++)). done.
Qed.
End Requests.

(** ** Requests on a view *)
Section ViewRequests.
Context `{RealmEvents} {V : Type}.

Inductive ViewOp : Type :=
| VopView
| VopViewUntil (ev : Event)
| VopDoneAfter (ev : Event).

(** Each request adds the end of an access. *)
Definition view_step (v : @View _ V) (rt : @RT _ V) (op : ViewOp) : Event * @View _ V * @RT _ V :=
  match op with
  | VopView => let '(_, v', rt') := View_view v rt in (user_event (next_user rt), v', rt')
  | VopViewUntil ev => let '(_, v') := View_view_until v ev in (ev, v', rt)
  | VopDoneAfter ev => (ev, View_DoneAfter v ev, rt)
  end.

Fixpoint view_run (v : @View _ V) (rt : @RT _ V) (ops : list ViewOp)
    : list Event * @View _ V * @RT _ V :=
  match ops with
  | [] => ([], v, rt)
  | op :: ops =>
      let '(e, v, rt) := view_step v rt op in
      let '(es, v, rt) := view_run v rt ops in
      (e :: es, v, rt)
  end.

Lemma view_run_spec ops : forall v rt es v' rt',
  view_run v rt ops = (es, v', rt') ->
  v' = mkView (view_precondition v) (war_dependency v) (views v ++ es) (view_value v) /\
  triggered rt' = triggered rt /\ released rt' = released rt /\ pending_ops rt' = pending_ops rt.
Proof.
  induction ops as [|op ops IH]; intros v rt es v' rt' Hrun; cbn in Hrun.
  { injection Hrun as <- <- <-. rewrite app_nil_r. by destruct v. }
  destruct (view_step v rt op) as [[e v1] rt1] eqn:Hs.
  destruct (view_run v1 rt1 ops) as [[es1 v2] rt2] eqn:Hr. injection Hrun as <- <- <-.
  destruct (IH _ _ _ _ _ Hr) as (-> & Ht & Hrel & Hp).
  assert (v1 = mkView (view_precondition v) (war_dependency v) (views v ++ [e]) (view_value v) /\
          triggered rt1 = triggered rt /\ released rt1 = released rt /\
          pending_ops rt1 = pending_ops rt) as (-> & <- & <- & <-).
  { by destruct op; cbn in Hs; injection Hs as <- <- <-. }
  cbn. by rewrite <- (assoc_L (++)).
Qed.
End ViewRequests.

(** ** Properties *)

(** C11: a store orders the accesses it grants, on the streams and for their effects.
    Whatever children and views are requested of it and whatever [ReadyAfter] it is
    told, an access may start (on a lane) only when every earlier access it
    conflicts with (one of the two writes) is over there and the store's initial
    operation is; and when the final precondition has triggered, every access is
    over.  The accesses are assumed causal: a write is over only after it was
    allowed to start.  An open child that is destroyed without having been used is not
    causal: its write is over at once ([open_child_drops_readers]). *)
Theorem store_conflicts_ordered `{RealmEvents} {V : Type} (fired : Event -> Prop)
    (Hm : Moment fired) (l : Lane) (s s' : Store) (rt rt' : RT (V := V)) (ops : list StoreOp)
    (gs : list Grant) (Hrun : store_run s rt ops = (gs, s', rt'))
    (Hcausal : Forall (causal fired l) gs) :
  (forall i j a b, (i < j)%nat -> gs !! i = Some a -> gs !! j = Some b ->
     conflicts a b = true -> fired (at_lane l (g_pre b)) -> fired (at_lane l (g_end a))) /\
  (forall b, b ∈ gs -> fired (at_lane l (g_pre b)) -> fired (rw_at l s)) /\
  (forall a, a ∈ gs -> fired (at_lane l (store_pre s')) -> fired (at_lane l (g_end a))).
Proof.
  destruct (store_run_ordered fired l ops [mkGrant true (both NO_EVENT) (rw_pre s)] s rt gs s' rt' Hrun)
    as [[_ Hfin] Hord]; [|done|].
  { split; intros g ->%list_elem_of_singleton; cbn [g_end]; by rewrite at_rw_pre. }
  split_and!.
  - intros i j a b Hij Ha Hb. apply (Hord j b Hb). apply elem_of_app. right.
    apply (list_elem_of_lookup_2 _ i). by rewrite lookup_take_lt.
  - intros b [j Hb]%list_elem_of_lookup_1 Hpre. rewrite <- at_rw_pre.
    apply (Hord j b Hb (mkGrant true (both NO_EVENT) (rw_pre s))); [|done|done].
    apply elem_of_app. left. by apply list_elem_of_singleton.
  - intros a Ha Hpre. apply (fired_store_pre fired) in Hpre as [Hw Hr].
    apply Hfin; [|done|done]. apply elem_of_app. by right.
Qed.

(** A reader, a stream-ordered writer and a reader on a fresh store: a reader on the
    stream waits for the writer to give up the stream, another one for its effects. *)
Lemma store_conflicts_ordered_witness :
  let fired := fun e : Event => fires (fun id => bool_decide (id < 2)%nat) (fun _ => true) e = true in
  let '(gs, _, _) := store_run (Store_Create tt) initial_runtime
                       [OpView (op 0) (op 0); OpChild (user_event 0) (op 1); OpView (op 2) (op 2)] in
  forall b, gs !! 2%nat = Some b ->
    (fired (stream (g_pre b)) -> fired (user_event 0)) /\ (fired (effects (g_pre b)) -> fired (op 1)).
Proof.
  intros fired. cbn [store_run]. intros b Hb.
  split; intros Hpre.
  - destruct (store_conflicts_ordered fired _ OnStream (Store_Create tt) _ initial_runtime _
      [OpView (op 0) (op 0); OpChild (user_event 0) (op 1); OpView (op 2) (op 2)] _ eq_refl) as [H _].
    + repeat constructor; cbn; done.
    + exact (H 1%nat 2%nat _ b ltac:(lia) eq_refl Hb eq_refl Hpre).
  - destruct (store_conflicts_ordered fired _ OnEffects (Store_Create tt) _ initial_runtime _
      [OpView (op 0) (op 0); OpChild (user_event 0) (op 1); OpView (op 2) (op 2)] _ eq_refl) as [H _].
    + repeat constructor; cbn; done.
    + exact (H 1%nat 2%nat _ b ltac:(lia) eq_refl Hb eq_refl Hpre).
Defined.

(** C31: destroying a view, which was not moved from meanwhile, triggers its
    read-after-write release, once, with an event that has triggered exactly when every subview and every operation it
    was told about is over; if there is any, the value is kept until then. *)
Theorem view_release_covers `{RealmEvents} {V : Type} (fired : Event -> Prop)
    (Hm : Moment fired) (pre : option EventPrecondition) (u : nat) (x : Value)
    (ops : list ViewOp) (rt rt' : RT (V := V)) (es : list Event) (v : View)
    (Hrun : view_run (View_new pre (Some u) x) rt ops = (es, v, rt')) :
  exists e, triggered (View_dtor v rt') = triggered rt ++ [(u, e)] /\
    (fired e <-> Forall fired es) /\
    released (View_dtor v rt') = released rt ++ (if es is [] then [] else [(x, e)]) /\
    pending_ops (View_dtor v rt') = (pending_ops rt + (if es is [] then 0 else 1))%Z.
Proof.
  destruct (view_run_spec _ _ _ _ _ _ Hrun) as (-> & Ht & Hr & Hp). cbn.
  destruct es as [|e es]; cbn.
  - exists NO_EVENT. rewrite Ht, Hr, Hp, app_nil_r, Z.add_0_r. split_and!; try done.
    split; [by constructor|intros _; apply fired_no_event].
  - exists (merge_events (e :: es)). rewrite Ht, Hr, Hp. split_and!; try done. apply fired_merge.
Qed.

Lemma view_release_covers_witness :
  let fired := fun e : Event => fires (fun _ => true) (fun _ => false) e = true in
  let '(es, v, rt') := view_run (View_new None (Some 0%nat) (VShared tt)) initial_runtime
                         [VopDoneAfter (op 3); VopViewUntil (op 4)] in
  exists e, triggered (View_dtor v rt') = [(0%nat, e)] /\ fired e.
Proof.
  intros fired. cbn [view_run].
  destruct (view_release_covers fired _ None 0 (VShared tt)
    [VopDoneAfter (op 3); VopViewUntil (op 4)] initial_runtime _ _ _ eq_refl)
    as (e & Ht & He & _).
  exists e. split; [exact Ht|]. apply He. repeat constructor.
Defined.

(** Destroying an open-ended child notifies the parent, once, with an event
    after which every write granted by the child is over. *)
Theorem child_notifies_parent `{RealmEvents} {V : Type} (fired : Event -> Prop)
    (Hm : Moment fired) (deferred : bool) (s c p c' : Store) (rt rt1 rt2 : RT (V := V))
    (ops : list StoreOp) (gs : list Grant)
    (Hchild : Store_child s rt = (c, p, rt1)) (Hrun : store_run c rt1 ops = (gs, c', rt2))
    (Hcausal : Forall (causal fired OnEffects) gs) :
  exists e, triggered (Store_dtor deferred c' rt2) = triggered rt2 ++ [(next_user rt, e)] /\
    (forall g, g ∈ gs -> g_write g = true -> fired e -> fired (effects (g_end g))) /\
    (fired (rw_event p) <-> fired (user_event (next_user rt)) /\ fired (rw_event s)).
Proof.
  injection Hchild as <- <- <-.
  assert (Hpar : parent_notification_event c' = Some (next_user rt)).
  { revert Hrun. generalize (mkRuntime (S (next_user rt)) (triggered rt) (released rt)
      (deleted rt) (pending_ops rt)) as rt0.
    assert (forall ops gs x rt0, store_run x rt0 ops = (gs, c', rt2) ->
              parent_notification_event c' = parent_notification_event x) as Hx.
    { clear. induction ops as [|op ops IH]; intros gs x rt0 Hr; cbn in Hr.
      - by injection Hr as _ <- _.
      - destruct (store_step x rt0 op) as [[g x1] rt1] eqn:Hs.
        destruct (store_run x1 rt1 ops) as [[gs1 x2] rt3] eqn:Hr1.
        injection Hr as _ -> ->. rewrite (IH _ _ _ Hr1).
        by destruct op; cbn in Hs; injection Hs as _ <- _. }
    intros rt0 Hr. by rewrite (Hx _ _ _ _ Hr). }
  exists (rw_event c'). unfold Store_dtor. rewrite Hpar. split_and!.
  - unfold rw_event, rw_at.
    destruct (store_value c'), (child_rw_event c'); cbn; try done;
      destruct (deferred && _ && _); done.
  - destruct (store_run_ordered fired OnEffects ops [] _ _ _ _ _ Hrun) as [[Hw _] _]; [|done|].
    { split; intros g Hg; set_solver. }
    done.
  - apply fired_ready_after. done.
Qed.

Lemma child_notifies_parent_witness :
  let fired := fun e : Event => fires (fun _ => true) (fun _ => false) e = true in
  let '(c, p, rt1) := Store_child (Store_Create tt) initial_runtime in
  let '(gs, c', rt2) := store_run c rt1 [OpChild (op 7) (op 7)] in
  exists e, triggered (Store_dtor false c' rt2) = [(0%nat, e)] /\
    forall g, g ∈ gs -> g_write g = true -> fired e -> fired (effects (g_end g)).
Proof.
  intros fired. cbn [Store_child store_run].
  destruct (child_notifies_parent fired _ false (Store_Create tt) _ _ _ initial_runtime _ _
    [OpChild (op 7) (op 7)] _ eq_refl eq_refl) as (e & Ht & Hw & _).
  - repeat constructor.
  - exists e. split; [exact Ht|exact Hw].
Defined.

(** The notification of an open-ended child covers its writes only.  A child
    that was granted while a reader was active, and destroyed unused, notifies
    its parent at once, so the next child may start while the reader is still
    active, at a moment that is possible in the execution. *)
Theorem open_child_drops_readers :
  let s0 := Store_Create tt in
  let '(_, s1) := Store_view_until (op 0) (op 0) s0 in       (* a reader until op 0 *)
  let '(c, s2, rt1) := Store_child s1 initial_runtime in     (* an open-ended child *)
  let rt2 := Store_dtor false c rt1 in                       (* destroyed unused *)
  let '(w, _) := Store_child_until (op 1) (op 1) s2 in       (* a writer *)
  exists fired, Moment fired /\ possible fired (triggered rt2) /\
    fired (Store_Precondition w) /\ ~ fired (op 0).
Proof.
  cbn. exists (fun e : @Event example_events => fires (fun _ => false) (fun u => bool_decide (u = 0%nat)) e = true).
  split; [apply fires_moment|]. split; [|done].
  intros u Hu. exists NO_EVENT. cbn in Hu. apply bool_decide_eq_true in Hu as ->.
  split; [by apply list_elem_of_singleton|done].
Qed.

(** The WAR event of a future does not cover its precondition: once a view
    of it was destroyed unused, the future's precondition may have triggered
    although the operation that produces the value has not. *)
Theorem future_war_is_not_stronger :
  let f0 := Future_new (op 0) (VOptional (V := unit) 0) in
  let '(v, f1, rt1) := Future_view f0 initial_runtime in
  let rt2 := View_dtor v rt1 in
  exists fired, Moment fired /\ possible fired (triggered rt2) /\
    fired (Future_Precondition f1) /\ ~ fired (op 0).
Proof.
  cbn. exists (fun e : @Event example_events => fires (fun _ => false) (fun u => bool_decide (u = 0%nat)) e = true).
  split; [apply fires_moment|]. split; [|done].
  intros u Hu. exists NO_EVENT. cbn in Hu. apply bool_decide_eq_true in Hu as ->.
  split; [by apply list_elem_of_singleton|done].
Qed.

(** Moves lose obligations.  A view that is moved forgets its subviews, so
    it releases its store while a subview is open; and assigning to an
    open-ended child drops its notification, so its parent waits for an event
    that nobody triggers. *)
Theorem moves_lose_obligations :
  (let '(v, s, rt) := Store_view (Store_Create tt) initial_runtime in
   let '(_, v1, rt1) := View_view v rt in                    (* an open subview *)
   let '(v2, v1') := View_move v1 in
   triggered (View_dtor v2 (View_dtor v1' rt1)) = [(0%nat, NO_EVENT)]) /\
  (let '(c, p, rt) := Store_child (Store_Create tt) initial_runtime in
   let '(c', other) := Store_assign c (Store_Create tt) in
   triggered (Store_dtor false other (Store_dtor false c' rt)) = [] /\
   rw_event p = user_event 0).
Proof. done. Qed.

(** A store that was waited for does not delete its instances: [Wait] resets
    the preconditions, and [~Store] only deletes when it has one. *)
Theorem waited_store_keeps_instances (v : nat) (e : Event) :
  let s := Store_DeferredCreate e v in
  deleted (Store_dtor true s initial_runtime) = [(VShared v, e)] /\
  deleted (Store_dtor true (Store_Wait s).2 initial_runtime) = [] /\
  released (Store_dtor true (Store_Wait s).2 initial_runtime) = [].
Proof. done. Qed.
