(* ===== verification/Promises.v ===== *)
(** Promises and the futures made from them (src/zuku/promise.h, the second half
    of src/zuku/future.h).  A task is created with a promise for every value it
    will return; the caller gets the futures made from the promises; when the
    task has run, its results fulfil the promises.  The promise and its future
    share the place of the value, so the places are in a heap. *)
From stdpp Require Import base tactics list numbers option strings sets.
From Stdlib Require Import ZArith Lia.
From S2P Require Import Prelude Events Handles.

Section Promises.
Context `{RealmEvents} {V : Type} (moved_value : V -> V).

(** The shared objects: [std::shared_ptr<std::optional<T>>] is the index of a
    cell, [std::shared_ptr<Future<T>>] the index of a shared future plus one; 0 is
    the null pointer. *)
Record Heap : Type := mkHeap {
  h_rt : @RT _ V;
  h_cells : list (option V);
  h_shared : list (@Future _ V);
}.

Definition set_rt (rt : @RT _ V) (h : Heap) : Heap := mkHeap rt (h_cells h) (h_shared h).
Definition set_cells (c : list (option V)) (h : Heap) : Heap := mkHeap (h_rt h) c (h_shared h).
Definition set_shared (s : list (@Future _ V)) (h : Heap) : Heap := mkHeap (h_rt h) (h_cells h) s.

Abbreviation HM := (SM Heap).

(** [Realm::UserEvent::create_user_event()], [trigger(e)]. *)
Definition new_event : HM nat := fun h =>
  let '(u, rt) := create_user_event (h_rt h) in (Ret u, set_rt rt h).
Definition trigger_event (u : nat) (e : Event) : HM unit :=
  sm_modify (fun h => set_rt (trigger u e (h_rt h)) h).

(** [std::make_shared]. *)
Definition make_optional (o : option V) : HM nat := fun h =>
  (Ret (length (h_cells h)), set_cells (h_cells h ++ [o]) h).
Definition make_future (f : Future) : HM nat := fun h =>
  (Ret (S (length (h_shared h))), set_shared (h_shared h ++ [f]) h).

(** [ptr->] on a shared pointer to a future. *)
Definition future_at (h : Heap) (p : nat) : outcome Future :=
  match p with
  | O => Undef NullOptional
  | S i => match h_shared h !! i with Some f => mret f | None => Undef NullOptional end
  end.

(** [Future::CreateEmptyShared]. *)
Definition CreateEmptyShared : HM nat := make_future Future_CreateEmpty.

(** [Future::get_value() &].  The fuel bounds the chain of shared futures. *)
Fixpoint get_value (fuel : nat) (h : Heap) (f : Future) : outcome V :=
  match fuel with
  | O => NoFuel
  | S fuel =>
      match future_value f with
      | VFuture p => g ← future_at h p; get_value fuel h g
      | VOptional c =>
          match mjoin (h_cells h !! c) with Some v => mret v | None => Throw BadOptionalAccess end
      | _ => Throw BadVariantAccess
      end
  end.

(** [Future::get_value() &&]: the value is moved out of the cell, which keeps
    what the move constructor of [T] leaves. *)
Fixpoint take_value (fuel : nat) (f : Future) : HM V := fun h =>
  match fuel with
  | O => (NoFuel, h)
  | S fuel =>
      match future_value f with
      | VFuture p => (g ← sm_lift (future_at h p); take_value fuel g) h
      | VOptional c =>
          match mjoin (h_cells h !! c) with
          | Some v => (Ret v, set_cells (<[c := Some (moved_value v)]> (h_cells h)) h)
          | None => (Undef NullOptional, h)
          end
      | _ => (Throw BadVariantAccess, h)
      end
  end.

(** [Future::wait_and_get() &]: the events it blocks on, and the value then. *)
Definition wait_and_get (fuel : nat) (h : Heap) (f : Future) : list Event * outcome V :=
  (match future_precondition f with Some e => [e] | None => [] end, get_value fuel h f).

(** ** Promises *)
Inductive PromiseValue : Type :=
| PFuture (p : nat)
| POptional (c : nat)
| PVoid.                 (* Promise<void> has no value *)

Record Promise : Type := mkPromise {
  deferred_event : option nat;
  promise_value : PromiseValue;
}.

Definition HasDeferredEvent (p : Promise) : bool := bool_decide (is_Some (deferred_event p)).
Definition DeferredEvent (p : Promise) : outcome nat := deref (deferred_event p).

(** [get_deferred_value()] and [Value()]. *)
Definition get_deferred_value (p : Promise) : outcome nat :=
  match promise_value p with PFuture f => mret f | _ => Throw BadVariantAccess end.
Definition promise_Value (p : Promise) : outcome nat :=
  match promise_value p with POptional c => mret c | _ => Throw BadVariantAccess end.

(** The three overloads of [emplace]. *)
Definition emplace_value (v : V) (p : Promise) : HM Promise :=
  c ← sm_lift (promise_Value p);
  sm_modify (fun h => set_cells (<[c := Some v]> (h_cells h)) h);; mret p.

Definition emplace_deferred (f : nat) (p : Promise) : HM Promise :=
  mret (mkPromise (deferred_event p) (PFuture f)).

Definition emplace_shared (c : nat) (p : Promise) : HM Promise := fun h =>
  (f ← sm_lift (get_deferred_value p); g ← sm_lift (future_at h f);
   sm_modify (fun h => set_shared (<[pred f := Future_emplace g c]> (h_shared h)) h);; mret p) h.

(** *** The types that a task returns, and what is returned

    [T], [Future<T>], [Future<void>] and [ReturnToken<...>]. *)
Inductive RetKind : Type := KValue | KFuture | KFutureVoid | KToken.

Inductive Returned : Type :=
| RValue (v : V)
| RFuture (f : @Future _ V)
| RFutureVoid (e : option Event)
| RToken (e : Event).

(** The futures that the caller gets: [Future<T>] and [Future<void>]. *)
Inductive ResultFuture : Type :=
| FValue (f : @Future _ V)
| FVoid (e : Event).

Definition create_concrete_promise : HM Promise :=
  c ← make_optional None; mret (mkPromise None (POptional c)).

Definition create_deferred_promise : HM Promise :=
  u ← new_event; f ← CreateEmptyShared; mret (mkPromise (Some u) (PFuture f)).

Definition create_deferred_void : HM Promise := u ← new_event; mret (mkPromise (Some u) PVoid).

(** [CreatePromise] for a [ReturnToken]. *)
Definition CreatePromise_token : HM Promise := create_deferred_void.

Definition CreatePromise (k : RetKind) : HM Promise :=
  match k with
  | KValue => create_concrete_promise
  | KFuture => create_deferred_promise
  | KFutureVoid => create_deferred_void
  | KToken => CreatePromise_token
  end.

Definition make_promise_tuple (ks : list RetKind) : HM (list Promise) := mapS CreatePromise ks.

Definition create_concrete_future (p : Promise) (ev : Event) : outcome ResultFuture :=
  c ← promise_Value p; mret (FValue (Future_new ev (VOptional c))).

Definition create_deferred_future (void : bool) (p : Promise) : outcome ResultFuture :=
  u ← DeferredEvent p;
  if void then mret (FVoid (user_event u))
  else f ← get_deferred_value p; mret (FValue (Future_new (user_event u) (VFuture f))).

(** [CreateFuture] for a [ReturnToken]. *)
Definition CreateFuture_token (p : Promise) : outcome ResultFuture := create_deferred_future true p.

Definition CreateFuture (k : RetKind) (p : Promise) (ev : Event) : outcome ResultFuture :=
  match k with
  | KValue => create_concrete_future p ev
  | KFuture => create_deferred_future false p
  | KFutureVoid => create_deferred_future true p
  | KToken => CreateFuture_token p
  end.

Fixpoint make_future_tuple (ks : list RetKind) (ps : list Promise) (ev : Event)
    : outcome (list ResultFuture) :=
  match ks, ps with
  | k :: ks, p :: ps =>
      f ← CreateFuture k p ev; fs ← make_future_tuple ks ps ev; mret (f :: fs)
  | _, _ => mret []
  end.

(** [FulfillPromise]: the promise as it is afterwards. *)
Definition fulfill_future (f : @Future _ V) (p : Promise) : HM Promise :=
  if negb (HasDeferredEvent p)
  then sm_lift (Throw (RuntimeError
         "fulfilling promise with future, but promise has no defer sync event"))
  else if negb (Future_HasPrecondition f)
  then sm_lift (Throw (RuntimeError
         "fulfilling promise with future, but future has no precondition"))
  else
    p ← (if Future_HasDeferredValue f
         then g ← sm_lift (Future_get_deferred_value f); emplace_deferred g p
         else c ← sm_lift (Future_shared_value f); emplace_shared c p);
    u ← sm_lift (DeferredEvent p);
    trigger_event u (Future_Precondition f);; mret p.

(** For [Future<void>]: the promise has no value, only its event. *)
Definition fulfill_future_void (precondition : option Event) (p : Promise) : HM Promise :=
  match precondition with
  | None =>
      sm_lift (Throw (RuntimeError
         "fulfilling promise with future, but future has no precondition"))
  | Some e => u ← sm_lift (DeferredEvent p); trigger_event u e;; mret p
  end.

(** For a [ReturnToken]: the event of the token. *)
Definition fulfill_token (e : Event) (p : Promise) : HM Promise :=
  u ← sm_lift (DeferredEvent p); trigger_event u e;; mret p.

Definition FulfillPromise (r : Returned) (p : Promise) : HM Promise :=
  match r with
  | RValue v => emplace_value v p
  | RFuture f => fulfill_future f p
  | RFutureVoid precondition => fulfill_future_void precondition p
  | RToken e => fulfill_token e p
  end.

Fixpoint FulfillPromises (rs : list Returned) (ps : list Promise) : HM (list Promise) :=
  match rs, ps with
  | r :: rs, p :: ps => p ← FulfillPromise r p; ps ← FulfillPromises rs ps; mret (p :: ps)
  | _, ps => mret ps
  end.

(** ** What a promise owns

    A promise made by [CreatePromise] owns the cell or the shared future of its
    value and its user event: nobody else can fill them before it is fulfilled. *)
Definition cell_of (p : Promise) : option nat :=
  match promise_value p with POptional c => Some c | _ => None end.
Definition shared_of (p : Promise) : option nat :=
  match promise_value p with PFuture f => Some f | _ => None end.

(** The triggers of a user event. *)
Definition triggers_of (u : nat) (h : Heap) : list (nat * Event) :=
  filter (fun t => t.1 = u) (triggered (h_rt h)).

Record pristine (ps : list Promise) (h : Heap) : Prop := mkPristine {
  pr_cells : NoDup (omap cell_of ps);
  pr_shared : NoDup (omap shared_of ps);
  pr_users : NoDup (omap deferred_event ps);
  pr_cell c : c ∈ omap cell_of ps -> h_cells h !! c = Some None;
  pr_future p : p ∈ omap shared_of ps -> future_at h p = Ret Future_CreateEmpty;
  pr_user u : u ∈ omap deferred_event ps -> triggers_of u h = [];
}.

(** The promises of a type, and the results of it that can fulfil one. *)
Definition promise_fits (k : RetKind) (p : Promise) : Prop :=
  match k with
  | KValue => exists c, p = mkPromise None (POptional c)
  | KFuture => exists u f, p = mkPromise (Some u) (PFuture f)
  | KFutureVoid | KToken => exists u, p = mkPromise (Some u) PVoid
  end.

Definition result_fits (k : RetKind) (r : Returned) : Prop :=
  match k, r with
  | KValue, RValue _ | KToken, RToken _ => True
  | KFuture, RFuture f => Future_HasPrecondition f = true /\ exists c, future_value f = VOptional c
  | KFutureVoid, RFutureVoid e => is_Some e
  | _, _ => False
  end.

(** The result has reached the future: a value is in it, and it is ready with
    the task's completion event; a returned future's value is in it, and its
    event is triggered, once, with that future's precondition. *)
Definition resolved (ev : Event) (h : Heap) (r : Returned) (f : ResultFuture) : Prop :=
  match r, f with
  | RValue v, FValue f => Future_Precondition f = ev /\ get_value 1 h f = Ret v
  | RFuture g, FValue f =>
      exists u, (Future_Precondition f = user_event u) /\
        (triggers_of u h = [(u, Future_Precondition g)]) /\ (get_value 2 h f = get_value 1 h g)
  | RFutureVoid (Some e), FVoid e' | RToken e, FVoid e' =>
      exists u, e' = user_event u /\ (triggers_of u h = [(u, e)])
  | _, _ => False
  end.

(** The same, in terms of the promise. *)
Definition settled (h : Heap) (r : Returned) (p : Promise) : Prop :=
  match r, promise_value p, deferred_event p with
  | RValue v, POptional c, _ => h_cells h !! c = Some (Some v)
  | RFuture g, PFuture f, Some u =>
      (exists g', future_at h f = Ret g' /\ future_value g' = future_value g) /\
      (exists c, future_value g = VOptional c) /\
      triggers_of u h = [(u, Future_Precondition g)]
  | RFutureVoid (Some e), _, Some u | RToken e, _, Some u => triggers_of u h = [(u, e)]
  | _, _, _ => False
  end.

Lemma settled_resolved k ev h r p f : promise_fits k p -> result_fits k r ->
  CreateFuture k p ev = Ret f -> settled h r p -> resolved ev h r f.
Proof.
  destruct k, r; try done; cbn [promise_fits result_fits].
  - intros [c ->] _ [= <-] Hc. cbn in Hc |- *. by rewrite Hc.
  - intros (u & q & ->) _ [= <-] ((g' & Hg & Hv) & (c & Hc) & Ht). cbn in Hg.
    exists u. split_and!; [done|done|]. cbn [get_value future_value Future_new].
    rewrite Hg. cbn [mbind outcome_bind]. by rewrite Hv, Hc.
  - intros [u ->] [x ->] [= <-] Ht. by exists u.
  - intros [u ->] _ [= <-] Ht. by exists u.
Qed.

(** Operations on the places of some promises leave the rest alone. *)
Record frame (ps : list Promise) (h h' : Heap) : Prop := mkFrame {
  fr_cell c : c ∉ omap cell_of ps -> h_cells h' !! c = h_cells h !! c;
  fr_future p : p ∉ omap shared_of ps -> future_at h' p = future_at h p;
  fr_user u : u ∉ omap deferred_event ps -> triggers_of u h' = triggers_of u h;
}.

Lemma frame_refl ps h : frame ps h h.
Proof. by split. Qed.

Lemma frame_trans ps h1 h2 h3 : frame ps h1 h2 -> frame ps h2 h3 -> frame ps h1 h3.
Proof. intros [A B C] [A' B' C']. split; intros; by rewrite ?A', ?B', ?C', ?A, ?B, ?C. Qed.

Lemma elem_of_owned (f : Promise -> option nat) p ps x :
  x ∈ omap f (p :: ps) <-> f p = Some x \/ x ∈ omap f ps.
Proof.
  cbn. destruct (f p) as [y|]; [|naive_solver].
  rewrite elem_of_cons. naive_solver.
Qed.

Lemma NoDup_owned (f : Promise -> option nat) p ps : NoDup (omap f (p :: ps)) ->
  NoDup (omap f ps) /\ forall x, f p = Some x -> x ∉ omap f ps.
Proof.
  cbn. destruct (f p) as [y|]; [|done]. intros [Hy Hn]%NoDup_cons. split; [done|].
  by intros x [= <-].
Qed.

Lemma frame_mono p ps h h' : frame ps h h' -> frame (p :: ps) h h'.
Proof.
  intros [A B C]. split; intros x Hx; [apply A|apply B|apply C]; contradict Hx;
    apply elem_of_owned; by right.
Qed.

Lemma frame_head p ps h h' : frame [p] h h' -> frame (p :: ps) h h'.
Proof.
  intros [A B C]. split; intros x Hx; [apply A|apply B|apply C]; contradict Hx;
    apply elem_of_owned; apply elem_of_owned in Hx as [?|[]%elem_of_nil]; by left.
Qed.

(** The promise at the head owns none of the places of the others. *)
Lemma pristine_head p ps h : pristine (p :: ps) h ->
  (forall c, cell_of p = Some c -> (c ∉ omap cell_of ps) /\ h_cells h !! c = Some None) /\
  (forall f, shared_of p = Some f ->
     (f ∉ omap shared_of ps) /\ future_at h f = Ret Future_CreateEmpty) /\
  (forall u, deferred_event p = Some u -> (u ∉ omap deferred_event ps) /\ triggers_of u h = []).
Proof.
  intros [A B C D E F]. split_and!; intros x Hx.
  - split; [by apply (NoDup_owned _ _ _ A)|]. apply D, elem_of_owned. by left.
  - split; [by apply (NoDup_owned _ _ _ B)|]. apply E, elem_of_owned. by left.
  - split; [by apply (NoDup_owned _ _ _ C)|]. apply F, elem_of_owned. by left.
Qed.

Lemma pristine_frame p ps h h' : pristine (p :: ps) h -> frame [p] h h' -> pristine ps h'.
Proof.
  intros [A B C D E F] [G I J].
  apply NoDup_owned in A as [A A'], B as [B B'], C as [C C'].
  split; try done; intros x Hx.
  - rewrite G; [by apply D, elem_of_owned; right|].
    intros [?%A'|[]%elem_of_nil]%elem_of_owned; done.
  - rewrite I; [by apply E, elem_of_owned; right|].
    intros [?%B'|[]%elem_of_nil]%elem_of_owned; done.
  - rewrite J; [by apply F, elem_of_owned; right|].
    intros [?%C'|[]%elem_of_nil]%elem_of_owned; done.
Qed.

(** What was settled stays settled when other promises are fulfilled. *)
Lemma settled_frame p ps h h0 h' r :
  pristine (p :: ps) h -> settled h0 r p -> frame ps h0 h' -> settled h' r p.
Proof.
  intros [A B C D E F] Hs [G I J].
  apply NoDup_owned in A as [_ A], B as [_ B], C as [_ C].
  destruct p as [[u|] [f|c|]], r as [v|g|[e|]|e]; cbn in *; try done;
    rewrite ?G, ?I, ?J; try done; (apply A || apply B || apply C); done.
Qed.

(** The effects of the two kinds of fulfilment on the heap. *)
Lemma frame_fill c v h : forall p, promise_value p = POptional c ->
  frame [p] h (set_cells (<[c := Some v]> (h_cells h)) h).
Proof.
  intros p Hp. split; [|done|done]. intros x Hx. cbn.
  apply list_lookup_insert_ne. intros ->. apply Hx, elem_of_owned. left.
  unfold cell_of. by rewrite Hp.
Qed.

Lemma triggers_of_trigger u e w h :
  triggers_of w (set_rt (trigger u e (h_rt h)) h) =
  triggers_of w h ++ (if decide (u = w) then [(u, e)] else []).
Proof.
  unfold triggers_of. cbn. rewrite filter_app. done.
Qed.

Lemma frame_trigger u e h p : deferred_event p = Some u ->
  frame [p] h (set_rt (trigger u e (h_rt h)) h).
Proof.
  intros Hp. split; [done|done|]. intros w Hw. rewrite triggers_of_trigger.
  rewrite decide_False; [by rewrite app_nil_r|]. intros ->.
  apply Hw, elem_of_owned. by left.
Qed.

Lemma future_at_insert h f g q : is_Some (h_shared h !! pred f) -> f <> O ->
  future_at (set_shared (<[pred f := g]> (h_shared h)) h) q =
  (if decide (q = f) then Ret g else future_at h q).
Proof.
  intros Hf H0. destruct f as [|i]; [done|]. cbn in *.
  destruct q as [|j]; [by rewrite decide_False|]. cbn.
  destruct (decide (S j = S i)) as [[= ->]|Hne].
  - by rewrite list_lookup_insert_eq by (by apply lookup_lt_is_Some).
  - by rewrite list_lookup_insert_ne by congruence.
Qed.

Lemma future_at_some h f g : future_at h f = Ret g -> f <> O /\ h_shared h !! pred f = Some g.
Proof. destruct f as [|i]; [done|]. cbn. by destruct (_ !! i); intros [= ->]. Qed.

Lemma frame_link f g h p : shared_of p = Some f -> is_Some (h_shared h !! pred f) -> f <> O ->
  frame [p] h (set_shared (<[pred f := g]> (h_shared h)) h).
Proof.
  intros Hp Hf H0. split; [done| |done]. intros q Hq.
  rewrite future_at_insert by done. apply decide_False. intros ->.
  apply Hq, elem_of_owned. by left.
Qed.

(** One result fulfils one promise. *)
Lemma fulfill_step k r p ps h : pristine (p :: ps) h -> promise_fits k p -> result_fits k r ->
  exists h', FulfillPromise r p h = (Ret p, h') /\ frame [p] h h' /\ settled h' r p.
Proof.
  intros (Hc & Hf & Hu)%pristine_head. destruct k, r as [v|g|e|e]; try done.
  - intros [c ->] _. destruct (Hc c eq_refl) as [_ Hcell].
    eexists. split; [done|]. split; [by apply frame_fill|]. cbn.
    apply list_lookup_insert_eq. by eapply lookup_lt_Some.
  - intros (u & f & ->) [Hpre [c Hv]].
    destruct (Hf f eq_refl) as [_ Hfut], (Hu u eq_refl) as [_ Htr].
    apply future_at_some in Hfut as Hs. destruct Hs as [H0 Hs].
    set (g' := Future_emplace (V := V) Future_CreateEmpty c).
    set (h1 := set_shared (<[pred f := g']> (h_shared h)) h).
    exists (set_rt (trigger u (Future_Precondition g) (h_rt h1)) h1). split_and!.
    + cbn [FulfillPromise]. unfold fulfill_future, Future_HasDeferredValue, Future_shared_value.
      rewrite Hpre, Hv. cbv -[future_at Future_Precondition]. by rewrite Hfut.
    + eapply frame_trans; [by apply (frame_link f g')|by apply frame_trigger].
    + cbn [settled promise_value deferred_event]. split_and!.
      * exists g'. split; [|done].
        change (future_at h1 f = Ret g'). unfold h1. by rewrite future_at_insert, decide_True.
      * by exists c.
      * rewrite triggers_of_trigger, decide_True by done.
        change (triggers_of u h1) with (triggers_of u h). by rewrite Htr.
  - intros [u ->] [x ->]. destruct (Hu u eq_refl) as [_ Htr].
    eexists. split; [done|]. split; [by apply frame_trigger|].
    cbn [settled promise_value deferred_event]. by rewrite triggers_of_trigger, decide_True, Htr.
  - intros [u ->] _. destruct (Hu u eq_refl) as [_ Htr].
    eexists. split; [done|]. split; [by apply frame_trigger|].
    cbn [settled promise_value deferred_event]. by rewrite triggers_of_trigger, decide_True, Htr.
Qed.

Lemma fulfill_all ks rs ps h : pristine ps h -> Forall2 promise_fits ks ps ->
  Forall2 result_fits ks rs ->
  exists h', FulfillPromises rs ps h = (Ret ps, h') /\ frame ps h h' /\ Forall2 (settled h') rs ps.
Proof.
  intros Hp Hps. revert rs h Hp. induction Hps as [|k p ks ps Hk Hps IH]; intros rs h Hp Hrs.
  { inversion Hrs; subst. exists h. split; [done|]. split; [apply frame_refl|constructor]. }
  inversion Hrs as [|? r ? rs' Hr Hrs']; subst.
  destruct (fulfill_step k r p ps h Hp Hk Hr) as (h1 & E1 & F1 & S1).
  destruct (IH rs' h1 (pristine_frame _ _ _ _ Hp F1) Hrs') as (h2 & E2 & F2 & S2).
  exists h2. split_and!.
  - cbn [FulfillPromises]. rewrite (sm_bind_ret _ _ _ _ _ E1). by rewrite (sm_bind_ret _ _ _ _ _ E2).
  - eapply frame_trans; [by apply frame_head|by apply frame_mono].
  - constructor; [|done]. by eapply settled_frame.
Qed.

(** *** Making the promises *)

(** The log only mentions user events that were created. *)
Definition log_created (h : Heap) : Prop :=
  forall t, t ∈ triggered (h_rt h) -> (t.1 < next_user (h_rt h))%nat.

Lemma triggers_of_fresh h u : log_created h -> (next_user (h_rt h) <= u)%nat -> triggers_of u h = [].
Proof.
  intros Hl Hu. apply filter_none. intros t Ht <-. specialize (Hl t Ht). lia.
Qed.

(** The heap grows: what is in it stays. *)
Record grows (h h' : Heap) : Prop := mkGrows {
  gr_cells : h_cells h `prefix_of` h_cells h';
  gr_shared : h_shared h `prefix_of` h_shared h';
  gr_log : triggered (h_rt h') = triggered (h_rt h);
  gr_users : (next_user (h_rt h) <= next_user (h_rt h'))%nat;
}.

Lemma grows_trans h1 h2 h3 : grows h1 h2 -> grows h2 h3 -> grows h1 h3.
Proof. intros [A B C D] [A' B' C' D']. split; [by etrans|by etrans|by rewrite C'|lia]. Qed.

(** What a promise owns was not in the heap before, and is in it afterwards. *)
Definition owned_between (h h' : Heap) (p : Promise) : Prop :=
  (forall c, cell_of p = Some c ->
     (length (h_cells h) <= c)%nat /\ (c < length (h_cells h'))%nat) /\
  (forall f, shared_of p = Some f ->
     (length (h_shared h) < f)%nat /\ (f <= length (h_shared h'))%nat) /\
  (forall u, deferred_event p = Some u ->
     (next_user (h_rt h) <= u)%nat /\ (u < next_user (h_rt h'))%nat).

Lemma future_at_grows h h' f g : grows h h' -> future_at h f = Ret g -> future_at h' f = Ret g.
Proof.
  intros [_ Hs _ _] Hf. apply future_at_some in Hf as [H0 Hf]. destruct f as [|i]; [done|].
  cbn in *. by rewrite (prefix_lookup_Some _ _ _ _ Hf Hs).
Qed.

Lemma create_promise k h : log_created h ->
  exists p h', CreatePromise k h = (Ret p, h') /\ promise_fits k p /\ grows h h' /\
    owned_between h h' p /\ pristine [p] h' /\ log_created h'.
Proof.
  intros Hlog. assert (Hu : triggers_of (next_user (h_rt h)) h = []).
  { by apply triggers_of_fresh. }
  assert (Hlog' : forall t, t ∈ triggered (h_rt h) -> (t.1 < S (next_user (h_rt h)))%nat).
  { intros t Ht. specialize (Hlog t Ht). lia. }
  assert (Hone : forall (f : Promise -> option nat) p, NoDup (omap f [p])).
  { intros f p. cbn. destruct (f p); [apply NoDup_singleton|apply NoDup_nil_2]. }
  destruct k; (eexists _, _; split; [reflexivity|]; split; [by repeat eexists|];
    split; [split; cbn; try done; try (by apply prefix_app_r); lia|];
    split; [split_and!; intros x [= <-]; cbn; rewrite ?length_app; cbn; lia|];
    split; [|done]; split; try apply Hone; intros x; cbn;
    try (by intros ?%elem_of_nil); intros ->%list_elem_of_singleton; try done).
  - by apply list_lookup_middle.
  - cbn. by rewrite list_lookup_middle.
Qed.

Lemma owned_between_grows h0 h1 h2 h3 p : grows h0 h1 -> owned_between h1 h2 p -> grows h2 h3 ->
  owned_between h0 h3 p.
Proof.
  intros [A B _ D] (Hc & Hf & Hu) [A' B' _ D'].
  apply prefix_length in A, B, A', B'.
  split_and!; intros x Hx; [specialize (Hc x Hx)|specialize (Hf x Hx)|specialize (Hu x Hx)]; lia.
Qed.

Lemma grows_refl h : grows h h.
Proof. by split. Qed.

(** New promises after an old one: their places differ. *)
Lemma pristine_cons p ps h h1 h2 : owned_between h h1 p -> pristine [p] h1 ->
  grows h1 h2 -> Forall (owned_between h1 h2) ps -> pristine ps h2 -> pristine (p :: ps) h2.
Proof.
  intros (Oc & Of & Ou) (Hc & Hf & Hu)%pristine_head G O [N1 N2 N3 D E F].
  rewrite Forall_forall in O.
  split; cbn.
  - destruct (cell_of p) as [c|] eqn:Ec; [|done]. apply NoDup_cons. split; [|done].
    intros (q & Hq & Hqc)%list_elem_of_omap.
    destruct (O q Hq) as [Oq _]. specialize (Oq c Hqc). specialize (Oc c eq_refl). lia.
  - destruct (shared_of p) as [c|] eqn:Ec; [|done]. apply NoDup_cons. split; [|done].
    intros (q & Hq & Hqc)%list_elem_of_omap.
    destruct (O q Hq) as [_ [Oq _]]. specialize (Oq c Hqc). specialize (Of c eq_refl). lia.
  - destruct (deferred_event p) as [c|] eqn:Ec; [|done]. apply NoDup_cons. split; [|done].
    intros (q & Hq & Hqc)%list_elem_of_omap.
    destruct (O q Hq) as [_ [_ Oq]]. specialize (Oq c Hqc). specialize (Ou c eq_refl). lia.
  - intros c [Hp|Hp]%elem_of_owned; [|by apply D].
    apply (prefix_lookup_Some (h_cells h1)); [by apply Hc|by destruct G].
  - intros f [Hp|Hp]%elem_of_owned; [|by apply E].
    eapply future_at_grows; [done|]. by apply Hf.
  - intros u [Hp|Hp]%elem_of_owned; [|by apply F].
    unfold triggers_of. rewrite (gr_log _ _ G). by apply Hu.
Qed.

Lemma create_promises ks : forall h, log_created h ->
  exists ps h', make_promise_tuple ks h = (Ret ps, h') /\ Forall2 promise_fits ks ps /\
    grows h h' /\ Forall (owned_between h h') ps /\ pristine ps h' /\ log_created h'.
Proof.
  induction ks as [|k ks IH]; intros h Hlog.
  { exists [], h. split_and!; try constructor; try done; try (cbn; apply NoDup_nil_2);
      intros x; cbn; by intros ?%elem_of_nil. }
  destruct (create_promise k h Hlog) as (p & h1 & E1 & F1 & G1 & O1 & P1 & L1).
  destruct (IH h1 L1) as (ps & h2 & E2 & F2 & G2 & O2 & P2 & L2).
  exists (p :: ps), h2. split_and!; [|by constructor|by eapply grows_trans| | |done].
  - unfold make_promise_tuple in *. cbn [mapS].
    rewrite (sm_bind_ret _ _ _ _ _ E1). by rewrite (sm_bind_ret _ _ _ _ _ E2).
  - constructor; [by eapply owned_between_grows; [apply grows_refl| |]|].
    eapply Forall_impl; [done|]. intros q Hq.
    by eapply owned_between_grows; [|done|apply grows_refl].
  - by eapply pristine_cons.
Qed.

Lemma create_futures ks ps ev : Forall2 promise_fits ks ps ->
  exists fs, make_future_tuple ks ps ev = Ret fs /\
    forall rs h, Forall2 result_fits ks rs -> Forall2 (settled h) rs ps ->
      Forall2 (resolved ev h) rs fs.
Proof.
  induction 1 as [|k p ks ps Hk _ (fs & E & IH)].
  { exists []. split; [done|]. intros rs h Hr _. inversion Hr. constructor. }
  assert (exists f, CreateFuture k p ev = Ret f) as [f Ef].
  { destruct k; cbn in Hk; naive_solver. }
  exists (f :: fs). cbn [make_future_tuple]. rewrite Ef. cbn [mbind outcome_bind]. rewrite E.
  split; [done|]. intros rs h Hr Hs. inversion Hr; subst. inversion Hs; subst.
  constructor; [by eapply settled_resolved|by apply IH].
Qed.
End Promises.

(** ** Chains of futures

    A shared future is empty or has a cell: [emplace] never makes it point to
    another shared future, so the chains that [get_value] follows have length at
    most two. *)
Section Chains.
Context `{RealmEvents} {V : Type} (moved_value : V -> V).

Definition flat (h : @Heap _ V) : Prop :=
  forall f, f ∈ h_shared h -> future_value f = VFuture 0 \/ exists c, future_value f = VOptional c.

(** What a program does with the heap: it makes promises, fulfils them, and takes
    values out of futures. *)
Inductive HeapOp : Type :=
| OpPromise (k : RetKind)
| OpFulfill (r : @Returned _ V) (p : Promise)
| OpTake (fuel : nat) (f : @Future _ V).

Definition heap_step (h : @Heap _ V) (x : HeapOp) : Heap :=
  match x with
  | OpPromise k => (CreatePromise k h).2
  | OpFulfill r p => (FulfillPromise r p h).2
  | OpTake fuel f => (take_value moved_value fuel f h).2
  end.

Lemma take_value_shared fuel : forall f h,
  h_shared (take_value moved_value fuel f h).2 = h_shared h.
Proof.
  induction fuel as [|fuel IH]; intros f h; cbn; [done|].
  destruct (future_value f) as [q|c|v|]; try done.
  - unfold mbind, sm_bind, sm_lift. destruct (future_at h q); try done.
  - by destruct (mjoin _).
Qed.

Lemma flat_same h h' : h_shared h' = h_shared h -> flat h -> flat h'.
Proof. unfold flat. by intros ->. Qed.

Lemma emplace_shared_flat c p h : flat h -> flat (emplace_shared c p h).2.
Proof.
  intros Hf. unfold emplace_shared, mbind, sm_bind, sm_lift.
  destruct (get_deferred_value p) as [f| | |]; try done.
  destruct (future_at h f) as [g| | |]; try done. cbn.
  intros g' Hg'. cbn in Hg'. apply list_elem_of_lookup in Hg' as [i Hi].
  destruct (decide (i = pred f)) as [->|Hne].
  - pose proof (lookup_lt_Some _ _ _ Hi) as Hlt. rewrite length_insert in Hlt.
    rewrite list_lookup_insert_eq in Hi by done. injection Hi as <-. right. by eexists.
  - rewrite list_lookup_insert_ne in Hi by done. apply Hf. by eapply list_elem_of_lookup_2.
Qed.

Lemma heap_step_flat h x : flat h -> flat (heap_step h x).
Proof.
  intros Hf. destruct x as [k|r p|fuel f]; cbn [heap_step].
  - destruct k; try done. cbn. intros g [Hg|Hg]%elem_of_app; [by apply Hf|].
    apply list_elem_of_singleton in Hg as ->. by left.
  - destruct r as [v|g|[e|]|e]; cbn [FulfillPromise]; unfold fulfill_future_void, fulfill_token; try done.
    + unfold emplace_value, mbind, sm_bind, sm_lift. by destruct (promise_Value p).
    + unfold fulfill_future. destruct (negb _); [done|]. destruct (negb _); [done|].
      unfold mbind at 1, sm_bind at 1.
      assert (Hflat : flat ((if Future_HasDeferredValue g
        then q ← sm_lift (Future_get_deferred_value g); emplace_deferred q p
        else c ← sm_lift (Future_shared_value g); emplace_shared c p) h).2).
      { unfold Future_HasDeferredValue, Future_get_deferred_value, Future_shared_value.
        destruct (future_value g); try done. by apply emplace_shared_flat. }
      destruct (_ h) as [[p'| | |] h1]; try done. cbn in Hflat |- *.
      unfold mbind, sm_bind, sm_lift. by destruct (DeferredEvent p').
    + unfold mbind, sm_bind, sm_lift. by destruct (DeferredEvent p).
    + unfold mbind, sm_bind, sm_lift. by destruct (DeferredEvent p).
  - eapply flat_same; [apply take_value_shared|done].
Qed.

Lemma heap_run_flat ops : forall h, flat h -> flat (foldl heap_step h ops).
Proof. induction ops as [|x ops IH]; intros h Hf; [done|]. by apply IH, heap_step_flat. Qed.

Lemma get_value_flat h f fuel : flat h ->
  get_value (S (S fuel)) h f = get_value 2 h f /\ get_value 2 h f <> NoFuel.
Proof.
  intros Hf. cbn. destruct (future_value f) as [q|c|v|]; try done.
  - destruct (future_at h q) as [g| | |] eqn:Eg; try done; cbn.
    + apply future_at_some in Eg as [_ Eg]. apply list_elem_of_lookup_2 in Eg.
      destruct (Hf g Eg) as [Eq|[c Eq]]; rewrite Eq; [done|]. by destruct (mjoin _).
    + unfold future_at in Eg. destruct q; [done|]. by destruct (_ !! _).
  - by destruct (mjoin _).
Qed.
End Chains.

(** ** Properties *)

(** C12: the results of a task reach the futures that were made for it.  Promises
    and futures are made for any list of returned types without an error, the
    places they share are new, and as long as nobody else fills them, any results
    of these types fulfil the promises (a returned future must have a precondition and
    hold its value itself, which the future of a task that itself returns a future does
    not, see [nested_future_unresolved]), and then every future gives the result:
    a value, with the task's completion event as its precondition; a returned
    future's value, with an event that was triggered exactly once, with that
    future's precondition; the event of a returned token likewise. *)
Theorem results_resolve `{RealmEvents} {V : Type} (h : @Heap _ V) (ks : list RetKind) (ev : Event)
    (Hlog : log_created h) :
  exists ps h1 fs, make_promise_tuple ks h = (Ret ps, h1) /\ make_future_tuple ks ps ev = Ret fs /\
    grows h h1 /\ pristine ps h1 /\
    forall h2 rs, pristine ps h2 -> Forall2 result_fits ks rs ->
      exists ps' h3, FulfillPromises rs ps h2 = (Ret ps', h3) /\ Forall2 (resolved (V := V) ev h3) rs fs.
Proof.
  destruct (create_promises ks h Hlog) as (ps & h1 & E & Hf & G & _ & P & _).
  destruct (create_futures (V := V) ks ps ev Hf) as (fs & Efs & Hres).
  exists ps, h1, fs. split_and!; try done. intros h2 rs Hp Hr.
  destruct (fulfill_all ks rs ps h2 Hp Hf Hr) as (h3 & E3 & _ & S3).
  exists ps, h3. split; [done|]. by apply Hres.
Qed.

(** A task that returns a value, a future and a token. *)
Lemma results_resolve_witness :
  let h := mkHeap initial_runtime [Some 7%nat] [] in
  let g := Future_new (op 5) (VOptional 0) in
  exists ps h1 fs, make_promise_tuple [KValue; KFuture; KToken] h = (Ret ps, h1) /\
    make_future_tuple [KValue; KFuture; KToken] ps (op 3) = Ret fs /\
    exists ps' h3, FulfillPromises [RValue 4%nat; RFuture g; RToken (op 6)] ps h1 = (Ret ps', h3) /\
      Forall2 (resolved (op 3) h3) [RValue 4%nat; RFuture g; RToken (op 6)] fs.
Proof.
  intros h g.
  destruct (results_resolve h [KValue; KFuture; KToken] (op 3))
    as (ps & h1 & fs & E & Ef & _ & P & R).
  - intros t Ht. by apply elem_of_nil in Ht.
  - exists ps, h1, fs. split; [exact E|]. split; [exact Ef|]. apply R; [exact P|].
    repeat constructor. by eexists.
Defined.

(** A task that returns the future of another task that itself returns a
    future does not fulfil its promise: only the promise's own pointer is changed,
    so the future that was given out is signalled as ready, and reading it
    dereferences a null pointer. *)
Theorem nested_future_unresolved `{RealmEvents} {V : Type} (h h1 h2 : @Heap _ V) (p : Promise)
    (g : Future) (q : nat) (Hp : create_deferred_promise h = (Ret p, h1))
    (Hg : Future_HasPrecondition g = true) (Hq : future_value g = VFuture q)
    (Hpris : pristine [p] h2) :
  exists f u p' h3, create_deferred_future false p = Ret (FValue (V := V) f) /\
    Future_Precondition f = user_event u /\
    FulfillPromise (RFuture g) p h2 = (Ret p', h3) /\
    triggers_of u h3 = [(u, Future_Precondition g)] /\
    forall fuel, (2 <= fuel)%nat -> get_value fuel h3 f = Undef NullOptional.
Proof.
  injection Hp as <- <-.
  destruct (pristine_head _ _ _ Hpris) as (_ & Hf & Hu).
  destruct (Hf _ eq_refl) as [_ Hfut], (Hu _ eq_refl) as [_ Htr].
  set (u := next_user (h_rt h)) in *.
  eexists _, u, _, (set_rt (trigger u (Future_Precondition g) (h_rt h2)) h2).
  split_and!; [done|done| | |].
  - cbn [FulfillPromise]. unfold fulfill_future, Future_HasDeferredValue, Future_get_deferred_value.
    rewrite Hg, Hq. done.
  - by rewrite triggers_of_trigger, decide_True, Htr.
  - intros [|[|fuel]] Hle; [lia..|]. cbn [get_value future_value Future_new].
    change (future_at (set_rt (trigger u (Future_Precondition g) (h_rt h2)) h2))
      with (future_at h2).
    by rewrite Hfut.
Qed.

Lemma nested_future_unresolved_witness :
  let h := mkHeap initial_runtime [] [] in
  exists p h1 f u p' h3, create_deferred_promise (V := nat) h = (Ret p, h1) /\
    create_deferred_future false p = Ret (FValue (V := nat) f) /\
    FulfillPromise (RFuture (Future_new (op 5) (VFuture 3))) p h1 = (Ret p', h3) /\
    triggers_of u h3 = [(u, op 5)] /\ get_value 2 h3 f = Undef NullOptional.
Proof.
  intros h. eexists _, _.
  destruct (nested_future_unresolved h _ (create_deferred_promise h).2 _
              (Future_new (op 5) (VFuture 3)) 3 eq_refl eq_refl eq_refl)
    as (f & u & p' & h3 & E & _ & Ef & Ht & Hget).
  - split; cbn; try apply NoDup_nil_2; try apply NoDup_singleton; intros x;
      try (by intros ?%elem_of_nil); by intros ->%list_elem_of_singleton.
  - exists f, u, p', h3. split; [reflexivity|]. split; [exact E|]. split; [exact Ef|].
    split; [exact Ht|]. apply Hget. lia.
Defined.

(** C35: reading a future terminates.  Whatever a program does with promises and
    futures, starting without shared futures, a read follows at most two pointers:
    with two steps it gives its result, and more steps do not change it. *)
Theorem get_value_terminates `{RealmEvents} {V : Type} (moved_value : V -> V)
    (ops : list HeapOp) (h : Heap) (Hh : h_shared h = []) (f : Future) (fuel : nat)
    (Hfuel : (2 <= fuel)%nat) :
  let h' := foldl (heap_step moved_value) h ops in
  get_value fuel h' f = get_value 2 h' f /\ get_value fuel h' f <> NoFuel (A := V).
Proof.
  intros h'. destruct fuel as [|[|fuel]]; [lia..|].
  destruct (get_value_flat h' f fuel) as [E N].
  - apply heap_run_flat. intros g. rewrite Hh. by intros ?%elem_of_nil.
  - rewrite E. done.
Qed.

Lemma get_value_terminates_witness :
  let h := mkHeap initial_runtime [Some 7%nat] [] in
  let f := Future_new (user_event 0) (VFuture 1) in
  let g := Future_new (op 0) (VOptional 0) in
  let ops := [OpPromise KFuture; OpFulfill (RFuture g) (mkPromise (Some 0%nat) (PFuture 1))] in
  get_value 9 (foldl (heap_step id) h ops) f = get_value 2 (foldl (heap_step id) h ops) f /\
  get_value 2 (foldl (heap_step id) h ops) f = Ret 7%nat.
Proof.
  intros h f g ops. split; [|reflexivity].
  apply (get_value_terminates id ops h eq_refl f 9). lia.
Defined.
