(* ===== verification/Contexts.v ===== *)
(** The context of a deferred operation (src/zuku/defer.h, [Context]): the fields
    that [on], [after], [across], ... collect before [defer].  In the code it is a
    nested type, [Context<Field, Context<...>>]; here it is the list of its fields,
    the outermost (the last one added) first, and a field's type is its [Tag]. *)
From stdpp Require Import base tactics list numbers option strings sets.
From Stdlib Require Import ZArith Lia.
From S2P Require Import Prelude Events Mesh.
From S2P Require Processor.

Section Contexts.
Context `{RealmEvents}.

(** [ReturnControlEvent] holds a user event; a [Barrier] is a reference. *)
Inductive Field : Type :=
| FProcessor (p : Processor.Processor)
| FGroup (ps : list Processor.Processor)
| FDevices (devices : DeviceList)
| FPriority (priority : Z)
| FRegion (name : string)
| FEvent (e : Event)
| FControl (u : nat)
| FStreamOrdered
| FBarrier (barrier : nat).

Inductive Tag : Type :=
| TProcessor | TGroup | TDevices | TPriority | TRegion | TEvent | TControl | TStreamOrdered
| TBarrier.

#[export] Instance Tag_eq_dec : EqDecision Tag.
Proof. solve_decision. Defined.

Definition tag_of (f : Field) : Tag :=
  match f with
  | FProcessor _ => TProcessor | FGroup _ => TGroup | FDevices _ => TDevices
  | FPriority _ => TPriority | FRegion _ => TRegion | FEvent _ => TEvent
  | FControl _ => TControl | FStreamOrdered => TStreamOrdered | FBarrier _ => TBarrier
  end.

(** [Context<NoField, NoContext>] is the empty list. *)
Definition Ctx : Type := list Field.

Fixpoint has_value (t : Tag) (ctx : Ctx) : bool :=
  match ctx with
  | [] => false
  | f :: prev => if decide (t = tag_of f) then true else has_value t prev
  end.

(** [value<T>()]: the first field of the type, from the outside.  It does not
    compile when there is none. *)
Fixpoint value (t : Tag) (ctx : Ctx) : option Field :=
  match ctx with
  | [] => None
  | f :: prev => if decide (t = tag_of f) then Some f else value t prev
  end.

(** [add(t, args...)]: the first argument is added first. *)
Definition add (ctx : Ctx) (args : list Field) : Ctx := foldl (fun c f => f :: c) ctx args.

(** [drop<T>(kept_args...)], with the fields that are kept so far; without any,
    [drop<T>()]. *)
Fixpoint drop_kept (t : Tag) (ctx : Ctx) (kept : list Field) : Ctx :=
  match ctx with
  | [] => add [] kept
  | f :: prev =>
      if decide (t = tag_of f) then drop_kept t prev kept else drop_kept t prev (f :: kept)
  end.
Definition drop (t : Tag) (ctx : Ctx) : Ctx := drop_kept t ctx [].

Definition conditional_move_from (t : Tag) (other ctx : Ctx) : Ctx :=
  match value t other with Some f => add ctx [f] | None => ctx end.

(** The member functions that add a field; [if_on] is [on], and all overloads of
    [after] add an event ([token.Event()] for a token). *)
Definition on (p : Processor.Processor) (ctx : Ctx) : Ctx := FProcessor p :: ctx.
Definition on_group (ps : list Processor.Processor) (ctx : Ctx) : Ctx := FGroup ps :: ctx.
Definition after (e : Event) (ctx : Ctx) : Ctx := FEvent e :: ctx.
Definition priority (n : Z) (ctx : Ctx) : Ctx := FPriority n :: ctx.
Definition across (devices : DeviceList) (ctx : Ctx) : Ctx := FDevices devices :: ctx.
Definition region (name : string) (ctx : Ctx) : Ctx := FRegion name :: ctx.
Definition sync_to (barrier : nat) (ctx : Ctx) : Ctx := FBarrier barrier :: ctx.

(** These two create the control event, so they act on the runtime. *)
Definition split_control_execution {V} (ctx : Ctx) (rt : Runtime V) : Ctx * Runtime V :=
  let '(u, rt) := create_user_event rt in (FControl u :: ctx, rt).
Definition stream_ordered {V} (ctx : Ctx) (rt : Runtime V) : Ctx * Runtime V :=
  split_control_execution (FStreamOrdered :: ctx) rt.

(** The functions that start a context with a field. *)
Definition start_region (name : string) : Ctx := region name [].
Definition start_after (e : Event) : Ctx := after e [].
Definition start_across (devices : DeviceList) : Ctx := across devices [].
Definition start_stream_ordered {V} (rt : Runtime V) : Ctx * Runtime V := stream_ordered [] rt.
Definition start_on (p : Processor.Processor) : Ctx := on p [].
Definition start_on_group (ps : list Processor.Processor) : Ctx := on_group ps [].

(** The fields by their type. *)
Definition get_processor (ctx : Ctx) : option Processor.Processor :=
  match value TProcessor ctx with Some (FProcessor p) => Some p | _ => None end.
Definition get_group (ctx : Ctx) : option (list Processor.Processor) :=
  match value TGroup ctx with Some (FGroup ps) => Some ps | _ => None end.
Definition get_devices (ctx : Ctx) : option DeviceList :=
  match value TDevices ctx with Some (FDevices d) => Some d | _ => None end.
Definition get_priority (ctx : Ctx) : option Z :=
  match value TPriority ctx with Some (FPriority n) => Some n | _ => None end.
Definition get_region (ctx : Ctx) : option string :=
  match value TRegion ctx with Some (FRegion s) => Some s | _ => None end.
Definition get_event (ctx : Ctx) : option Event :=
  match value TEvent ctx with Some (FEvent e) => Some e | _ => None end.
Definition get_control (ctx : Ctx) : option nat :=
  match value TControl ctx with Some (FControl u) => Some u | _ => None end.
Definition get_barrier (ctx : Ctx) : option nat :=
  match value TBarrier ctx with Some (FBarrier b) => Some b | _ => None end.

(** ** Lemmas *)
Lemma value_has t ctx : has_value t ctx = bool_decide (is_Some (value t ctx)).
Proof. induction ctx as [|f ctx IH]; cbn; [done|]. by destruct (decide _). Qed.

Lemma value_tag t ctx f : value t ctx = Some f -> tag_of f = t.
Proof. induction ctx as [|g ctx IH]; cbn; [done|]. destruct (decide _); naive_solver. Qed.

Lemma add_app ctx args : add ctx args = reverse args ++ ctx.
Proof.
  revert ctx. induction args as [|f args IH]; intros ctx; [done|].
  change (add ctx (f :: args)) with (add (f :: ctx) args).
  by rewrite IH, reverse_cons, <- (assoc_L (++)).
Qed.

Lemma drop_kept_filter t (ctx : list Field) : forall kept,
  drop_kept t ctx kept = reverse kept ++ filter (fun f => tag_of f <> t) ctx.
Proof.
  induction ctx as [|f ctx IH]; intros kept; cbn [drop_kept].
  - by rewrite add_app.
  - destruct (decide (t = tag_of f)) as [->|Hne].
    + by rewrite IH, filter_cons_False by naive_solver.
    + rewrite IH, filter_cons_True by congruence. by rewrite reverse_cons, <- (assoc_L (++)).
Qed.

(** [drop] is a filter: it keeps the other fields, in their order. *)
Lemma drop_filter t (ctx : list Field) : drop t ctx = filter (fun f => tag_of f <> t) ctx.
Proof. apply drop_kept_filter. Qed.

Lemma value_drop t t' (ctx : list Field) : value t' (drop t ctx) = if decide (t = t') then None else value t' ctx.
Proof.
  rewrite drop_filter. induction ctx as [|f ctx IH]; cbn [value]; [by destruct (decide _)|].
  destruct (decide (tag_of f = t)) as [Ht|Ht].
  - rewrite filter_cons_False by naive_solver. rewrite IH.
    destruct (decide (t = t')), (decide (t' = tag_of f)); congruence.
  - rewrite filter_cons_True by done. cbn [value]. rewrite IH.
    destruct (decide (t = t')), (decide (t' = tag_of f)); congruence.
Qed.

(** The context of the task: control event, region and stream order are moved to
    it, the rest stays with [_defer]. *)
Definition task_context (ctx : Ctx) : Ctx :=
  conditional_move_from TStreamOrdered ctx
    (conditional_move_from TRegion ctx (conditional_move_from TControl ctx [])).

Lemma value_task_context t ctx :
  value t (task_context ctx) =
  if decide (t ∈ [TControl; TRegion; TStreamOrdered]) then value t ctx else None.
Proof.
  unfold task_context, conditional_move_from.
  destruct (value TStreamOrdered ctx) eqn:E1, (value TRegion ctx) eqn:E2,
    (value TControl ctx) eqn:E3; cbn;
    repeat match goal with H : value _ _ = Some _ |- _ => pose proof (value_tag _ _ _ H); revert H end;
    intros; destruct t; cbn; repeat case_decide; try congruence; set_solver.
Qed.
End Contexts.
