(* ===== verification/Vectors.v ===== *)
(** Vectors of references (src/zuku/vector.h): [Iterator], [ro_vector] and
    [rw_vector], which a task gets for an argument that is a vector of stores.

    A reference is the number of an object in a heap, so that two references of one
    vector can be the same object. *)
From stdpp Require Import base tactics list numbers option.
From Stdlib Require Import ZArith Lia.
From S2P Require Import Prelude.
Open Scope Z_scope.

(** A [std::reference_wrapper]; assigning through it changes the object. *)
Abbreviation Ref := nat.

(** [values_] of both classes. *)
Record RefVector : Type := mkRefVector { values_ : list Ref }.

(** [Iterator]: a position in [values_]. *)
Record Iterator : Type := mkIterator { iter_ : nat }.

#[export] Instance Iterator_eq_dec : EqDecision Iterator.
Proof. solve_decision. Defined.

(** *** [Iterator] *)
Definition pre_increment (it : Iterator) : Iterator := mkIterator (S (iter_ it)).
(** [it++] returns the old iterator. *)
Definition post_increment (it : Iterator) : Iterator * Iterator := (it, mkIterator (S (iter_ it))).
(** [*it] on an iterator of [v]; behind the last element it is undefined. *)
Definition iterator_deref (v : RefVector) (it : Iterator) : outcome Ref :=
  match values_ v !! iter_ it with Some r => mret r | None => Undef OutOfRange end.
Definition iterator_eqb (a b : Iterator) : bool := (iter_ a =? iter_ b)%nat.
Definition iterator_neqb (a b : Iterator) : bool := negb (iter_ a =? iter_ b)%nat.

(** *** The vectors

    [reserve] does not change the elements; it can throw. *)
Definition reserve_refs (n : Z) (v : RefVector) : outcome RefVector := _ ← reserve n; mret v.
Definition push_back (t : Ref) (v : RefVector) : RefVector := mkRefVector (values_ v ++ [t]).
Definition emplace_back (t : Ref) (v : RefVector) : RefVector := mkRefVector (values_ v ++ [t]).
Definition begin (v : RefVector) : Iterator := mkIterator 0.
Definition end_ (v : RefVector) : Iterator := mkIterator (length (values_ v)).
Definition vector_size (v : RefVector) : Z := Z.of_nat (length (values_ v)).
(** [v[idx]] with [idx] of type [size_t]. *)
Definition vector_index (v : RefVector) (idx : Z) : outcome Ref := vec_get (values_ v) idx.

Definition empty_vector : RefVector := mkRefVector [].

(** [rw_vector(args...)] *)
Definition rw_vector_of (args : list Ref) : outcome RefVector :=
  v ← reserve_refs (Z.of_nat (length args)) empty_vector;
  mret (foldl (fun v a => push_back a v) v args).

(** ** Loops

    [for (T& x : v) body(x)]: the body changes the object that the reference names.
    The loop goes from [begin()] to [end()] with [!=], [*] and [++]. *)
Section Loops.
Context {T : Type}.

Definition assign (r : Ref) (f : T -> T) (h : list T) : outcome (list T) :=
  match h !! r with Some x => mret (<[r := f x]> h) | None => Undef Indeterminate end.

Fixpoint for_range (fuel : nat) (v : RefVector) (it : Iterator) (f : T -> T) (h : list T) : outcome (list T) :=
  match fuel with
  | O => NoFuel
  | S fuel =>
      if iterator_neqb it (end_ v) then
        r ← iterator_deref v it;
        h ← assign r f h;
        for_range fuel v (pre_increment it) f h
      else mret h
  end.

(** [v[idx] = f(v[idx])] *)
Definition assign_at (v : RefVector) (idx : Z) (f : T -> T) (h : list T) : outcome (list T) :=
  r ← vector_index v idx; assign r f h.

(** How often a vector refers to an object. *)
Definition aliases (r : Ref) (l : list Ref) : nat := length (filter (fun x => x = r) l).

Definition in_heap (h : list T) (l : list Ref) : Prop := Forall (fun r => (r < length h)%nat) l.

Lemma push_backs args l :
  foldl (fun v a => push_back a v) (mkRefVector l) args = mkRefVector (l ++ args).
Proof.
  revert l. induction args as [|a args IH]; intros l; cbn; [by rewrite app_nil_r|].
  unfold push_back at 2; cbn. by rewrite IH, <- app_assoc.
Qed.

Lemma rw_vector_of_ok args :
  Z.of_nat (length args) <= i64_max -> rw_vector_of args = Ret (mkRefVector args).
Proof.
  intros Hl. unfold rw_vector_of, reserve_refs. rewrite reserve_ok by lia.
  unfold empty_vector. cbn [mbind outcome_bind]. cbn -[foldl]. by rewrite push_backs.
Qed.

Lemma assign_ok r f h :
  (r < length h)%nat -> exists x, h !! r = Some x /\ assign r f h = Ret (<[r := f x]> h).
Proof.
  intros [x Hx]%lookup_lt_is_Some_2. exists x. split; [done|]. unfold assign. by rewrite Hx.
Qed.

Lemma iter_insert f (h : list T) r x n i :
  h !! r = Some x ->
  Nat.iter n f <$> (<[r := f x]> h !! i) = Nat.iter (n + if decide (r = i) then 1 else 0) f <$> (h !! i).
Proof.
  intros Hr. destruct (decide (r = i)) as [<-|Hne].
  - rewrite list_lookup_insert_eq, Hr by by eapply lookup_lt_Some. cbn. f_equal.
    rewrite Nat.add_1_r. apply Nat.iter_swap.
  - rewrite list_lookup_insert_ne by done. by rewrite Nat.add_0_r.
Qed.

Lemma aliases_cons r x l : aliases r (x :: l) = ((if decide (x = r) then 1 else 0) + aliases r l)%nat.
Proof. unfold aliases. rewrite filter_cons. by case_decide. Qed.

Lemma for_range_from (f : T -> T) done rest h fuel :
  in_heap h rest -> (length rest < fuel)%nat ->
  exists h', for_range fuel (mkRefVector (done ++ rest)) (mkIterator (length done)) f h = Ret h' /\
    length h' = length h /\
    forall i, h' !! i = Nat.iter (aliases i rest) f <$> (h !! i).
Proof.
  revert done h fuel. induction rest as [|r rest IH]; intros done h [|fuel] Hin Hfuel; try (cbn in Hfuel; lia).
  - exists h. split; [|split; [reflexivity|]].
    + cbn. unfold iterator_neqb, end_; cbn. by rewrite app_nil_r, Nat.eqb_refl.
    + intros i. cbn. by destruct (h !! i).
  - inversion Hin as [|? ? Hr Hrest]; subst. destruct (assign_ok r f h Hr) as (x & Hx & Ea).
    destruct (IH (done ++ [r]) (<[r := f x]> h) fuel) as (h' & E & El & Hh);
      [unfold in_heap; by rewrite length_insert|cbn in Hfuel; lia|].
    exists h'. split; [|split; [by rewrite length_insert in El|]].
    + cbn [for_range]. unfold iterator_neqb, end_, iterator_deref; cbn [iter_ values_].
      rewrite length_app, list_lookup_middle by done. cbn [length].
      destruct (Nat.eqb_spec (length done) (length done + S (length rest))); [lia|]. cbn [negb].
      cbn [mbind outcome_bind mret outcome_ret]. rewrite Ea. cbn [mbind outcome_bind].
      unfold pre_increment; cbn [iter_]. rewrite <- app_assoc, length_app, Nat.add_1_r in E. exact E.
    + intros i. rewrite Hh, (iter_insert f h r x _ i Hx), aliases_cons. by rewrite Nat.add_comm.
Qed.

(** The loop over a vector made from [args] ends, and the body is done on every
    object as often as the vector refers to it. *)
Lemma for_range_ok (f : T -> T) args h fuel :
  Z.of_nat (length args) <= i64_max -> in_heap h args -> (length args < fuel)%nat ->
  exists v h', rw_vector_of args = Ret v /\ for_range fuel v (begin v) f h = Ret h' /\
    length h' = length h /\ forall i, h' !! i = Nat.iter (aliases i args) f <$> (h !! i).
Proof.
  intros Hl Hin Hf. destruct (for_range_from f [] args h fuel Hin Hf) as (h' & E & Hh).
  exists (mkRefVector args), h'. split; [by apply rw_vector_of_ok|]. done.
Qed.

(** An assignment through an element is seen through every element that refers to
    the same object, and through no other. *)
Lemma assign_at_ok (f : T -> T) args h idx r :
  in_heap h args -> args !! idx = Some r ->
  exists h', assign_at (mkRefVector args) (Z.of_nat idx) f h = Ret h' /\
    forall i, h' !! i = (if decide (r = i) then f <$> (h !! i) else h !! i).
Proof.
  intros Hin Hr. destruct (assign_ok r f h) as (x & Hx & Ea); [by eapply Forall_lookup_1 in Hin|].
  exists (<[r := f x]> h). split.
  - unfold assign_at, vector_index, vec_get. cbn [values_]. rewrite decide_True by lia.
    rewrite Nat2Z.id, Hr. exact Ea.
  - intros i. case_decide as Hd; [subst i|by rewrite list_lookup_insert_ne].
    rewrite list_lookup_insert_eq, Hx by by eapply lookup_lt_Some. done.
Qed.
End Loops.
