(* ===== verification/TaskArguments.v ===== *)
(** The arguments of a task (src/zuku/store.h and src/zuku/future.h,
    [ToTaskArgument]; src/zuku/resolve_dependency.h).  When a task is deferred,
    every argument is stored as what the task will own: a child or a view of the
    caller's handle, or the moved argument.  When the task runs, what is stored is
    resolved to what the function takes. *)
From stdpp Require Import base tactics list numbers option strings sets.
From Stdlib Require Import ZArith Lia.
From S2P Require Import Prelude Events Handles Promises.

(** ** The events that a task waits for: [HasPrecondition],
    [StreamPrecondition] and [EffectsPrecondition] of the stored handles *)
Class Deferred `{RealmEvents} (A : Type) : Type := {
  HasPrecondition : A -> bool;
  StreamPrecondition : A -> Event;
  EffectsPrecondition : A -> Event;
}.

#[export] Instance store_deferred `{RealmEvents} {V} : Deferred (@Store _ V) := {|
  HasPrecondition := Store_HasPrecondition;
  StreamPrecondition := Store_StreamPrecondition;
  EffectsPrecondition := Store_EffectsPrecondition;
|}.
#[export] Instance view_deferred `{RealmEvents} {V} : Deferred (@View _ V) := {|
  HasPrecondition := View_HasPrecondition;
  StreamPrecondition := View_StreamPrecondition;
  EffectsPrecondition := View_EffectsPrecondition;
|}.
#[export] Instance future_deferred `{RealmEvents} {V} : Deferred (@Future _ V) := {|
  HasPrecondition := Future_HasPrecondition;
  StreamPrecondition := Future_StreamPrecondition;
  EffectsPrecondition := Future_EffectsPrecondition;
|}.

Section Arguments.
Context `{RealmEvents} {V : Type} (moved_value : V -> V).

(** The handles of the program, and the heap of the futures' values. *)
Record Objects : Type := mkObjects {
  o_heap : @Heap _ V;
  o_stores : list (@Store _ V);
  o_futures : list (@Future _ V);
  o_views : list (@View _ V);
}.

Abbreviation OM := (SM Objects).

Definition set_heap (h : Heap) (o : Objects) : Objects :=
  mkObjects h (o_stores o) (o_futures o) (o_views o).
Definition o_rt (o : Objects) : RT := h_rt (o_heap o).
Definition set_o_rt (rt : RT) (o : Objects) : Objects := set_heap (set_rt rt (o_heap o)) o.
Definition put_store (i : nat) (s : Store) (o : Objects) : Objects :=
  mkObjects (o_heap o) (<[i := s]> (o_stores o)) (o_futures o) (o_views o).
Definition put_future (i : nat) (f : Future) (o : Objects) : Objects :=
  mkObjects (o_heap o) (o_stores o) (<[i := f]> (o_futures o)) (o_views o).
Definition put_view (i : nat) (v : View) (o : Objects) : Objects :=
  mkObjects (o_heap o) (o_stores o) (o_futures o) (<[i := v]> (o_views o)).

(** An operation on the heap alone. *)
Definition on_heap {A} (m : SM Heap A) : OM A := fun o =>
  let '(r, h) := m (o_heap o) in (r, set_heap h o).

(** *** Requests on the handles of the program; a reference is an index. *)
Definition at_index {A} (l : list A) (i : nat) : outcome A :=
  match l !! i with Some a => mret a | None => Undef OutOfRange end.

Definition child_until (st ef : Event) (i : nat) : OM Store := fun o =>
  (s ← sm_lift (at_index (o_stores o) i);
   let '(c, s) := Store_child_until st ef s in
   sm_modify (put_store i s);; mret c) o.

Definition open_child (i : nat) : OM Store := fun o =>
  (s ← sm_lift (at_index (o_stores o) i);
   let '(c, s, rt) := Store_child s (o_rt o) in
   sm_modify (fun o => put_store i s (set_o_rt rt o));; mret c) o.

Definition store_view_until (st ef : Event) (i : nat) : OM View := fun o =>
  (s ← sm_lift (at_index (o_stores o) i);
   let '(v, s) := Store_view_until st ef s in
   sm_modify (put_store i s);; mret v) o.

Definition open_store_view (i : nat) : OM View := fun o =>
  (s ← sm_lift (at_index (o_stores o) i);
   let '(v, s, rt) := Store_view s (o_rt o) in
   sm_modify (fun o => put_store i s (set_o_rt rt o));; mret v) o.

Definition future_view_until (ef : Event) (i : nat) : OM View := fun o =>
  (f ← sm_lift (at_index (o_futures o) i);
   let '(v, f) := Future_view_until f ef in
   sm_modify (put_future i f);; mret v) o.

Definition open_future_view (i : nat) : OM View := fun o =>
  (f ← sm_lift (at_index (o_futures o) i);
   let '(v, f, rt) := Future_view f (o_rt o) in
   sm_modify (fun o => put_future i f (set_o_rt rt o));; mret v) o.

Definition subview_until (ef : Event) (i : nat) : OM View := fun o =>
  (v ← sm_lift (at_index (o_views o) i);
   let '(w, v) := View_view_until v ef in
   sm_modify (put_view i v);; mret w) o.

Definition open_subview (i : nat) : OM View := fun o =>
  (v ← sm_lift (at_index (o_views o) i);
   let '(w, v, rt) := View_view v (o_rt o) in
   sm_modify (fun o => put_view i v (set_o_rt rt o));; mret w) o.

(** ** Arguments and parameters

    The parameter types of the function: [T&], [const T&], [T], the handles, and
    the vectors ([PVector] is [std::vector<T>], the last three are
    [std::vector] of handles). *)
Inductive Param : Type :=
| PRef | PConst | PVal | PStore | PView | PFuture
| PRwVector | PRoVector | PVector | PStores | PViews | PFutures.

(** [store_variant_vector<T>::value_type]. *)
Inductive Variant : Type :=
| VStoreRef (i : nat)
| VViewRef (i : nat)
| VView (v : @View _ V)
| VStore (s : @Store _ V).

(** What is passed to [defer]: references to handles of the program, vectors of
    references, moved handles and vectors, and anything else. *)
Inductive Arg : Type :=
| AStore (i : nat) | AFuture (i : nat) | AView (i : nat)
| AStores (ids : list nat)                      (* std::vector<Store<T>>& *)
| ARwStores (ids : list nat)                    (* rw_vector<Store<T>>, by reference or moved *)
| AVariants (vs : list Variant)                (* store_variant_vector<T>&& *)
| AMoveStore (s : @Store _ V) | AMoveFuture (f : @Future _ V) | AMoveView (v : @View _ V)
| AMoveStores (ss : list (@Store _ V)) | AMoveFutures (fs : list (@Future _ V))
| AMoveViews (vs : list (@View _ V))
| APlain (v : V).

(** What the task stores. *)
Inductive Stored : Type :=
| SStore (s : @Store _ V) | SView (v : @View _ V) | SFuture (f : @Future _ V)
| SStores (ss : list (@Store _ V)) | SViews (vs : list (@View _ V))
| SFutures (fs : list (@Future _ V))
| SPlain (v : V).

Definition variant_view (st ef : Event) (x : Variant) : OM View :=
  match x with
  | VStoreRef i => store_view_until st ef i
  | VViewRef i => subview_until ef i
  | VView v => mret (View_move v).1
  | VStore s => mret (Store_view_until st ef s).1
  end.

(** [ToTaskArgument<CtorArg, TargetArg>] for a reference to a store, [Store<T>&]:
    a child or a view, which ends with the task or is open-ended. *)
Definition store_argument (st ef : Event) (i : nat) (t : Param) : OM Stored :=
  match t with
  | PRef => c ← child_until st ef i; mret (SStore c)
  | PVal | PConst => v ← store_view_until st ef i; mret (SView v)
  | PStore => c ← open_child i; mret (SStore c)
  | PView => v ← open_store_view i; mret (SView v)
  | _ => sm_lift (Undef IllFormed)
  end.

(** For [std::vector<Store<T>>&].  The specialisations for [ro_vector<T>] do not
    compile: they take references to the elements of a constant vector. *)
Definition vector_argument (st ef : Event) (ids : list nat) (t : Param) : OM Stored :=
  match t with
  | PRwVector => cs ← mapS (child_until st ef) ids; mret (SStores cs)
  | _ => sm_lift (Undef IllFormed)
  end.

(** For [rw_vector<Store<T>>], by reference or moved; those of
    [ro_vector<Store<T>>] do not compile. *)
Definition rw_vector_argument (st ef : Event) (ids : list nat) (t : Param) : OM Stored :=
  match t with
  | PRoVector => vs ← mapS (store_view_until st ef) ids; mret (SViews vs)
  | PRwVector => cs ← mapS (child_until st ef) ids; mret (SStores cs)
  | _ => sm_lift (Undef IllFormed)
  end.

(** For [store_variant_vector<T>]. *)
Definition variants_argument (st ef : Event) (xs : list Variant) (t : Param) : OM Stored :=
  match t with
  | PRoVector => vs ← mapS (variant_view st ef) xs; mret (SViews vs)
  | _ => sm_lift (Undef IllFormed)
  end.

(** For [Future<T>&] and [View<T>&].  The specialisations that ask for a view with
    two events do not compile: futures and views only have one with a single event. *)
Definition future_argument (st ef : Event) (i : nat) (t : Param) : OM Stored :=
  match t with
  | PFuture => v ← open_future_view i; mret (SView v)
  | PVal => v ← future_view_until ef i; mret (SView v)
  | _ => sm_lift (Undef IllFormed)
  end.

Definition view_argument (st ef : Event) (i : nat) (t : Param) : OM Stored :=
  match t with
  | PView => v ← open_subview i; mret (SView v)
  | _ => sm_lift (Undef IllFormed)
  end.

(** [ToTaskArgument]: by the argument; the primary template forwards it. *)
Definition ToTaskArgument (st ef : Event) (a : Arg) (t : Param) : OM Stored :=
  match a with
  | AStore i => store_argument st ef i t
  | AStores ids => vector_argument st ef ids t
  | ARwStores ids => rw_vector_argument st ef ids t
  | AVariants xs => variants_argument st ef xs t
  | AFuture i => future_argument st ef i t
  | AView i => view_argument st ef i t
  | AMoveStore s => mret (SStore s)
  | AMoveFuture f => mret (SFuture f)
  | AMoveView v => mret (SView (View_move v).1)
  | AMoveStores ss => mret (SStores ss)
  | AMoveFutures fs => mret (SFutures fs)
  | AMoveViews vs => mret (SViews vs)
  | APlain v => mret (SPlain v)
  end.

(** [StoreArgsAndSetPostcondition]: the arguments are the last parameters. *)
Definition StoreArgsAndSetPostcondition (params : list Param) (st ef : Event) (args : list Arg)
    : OM (list Stored) :=
  mapS (fun at_ => ToTaskArgument st ef at_.1 at_.2)
       (zip args (drop (length params - length args) params)).

(** ** Resolving the arguments *)
Inductive Resolved : Type :=
| RvRef (v : V)                  (* T&, const T& *)
| RvValue (v : V)
| RvStore (s : @Store _ V) | RvView (v : @View _ V) | RvFuture (f : @Future _ V)
| RvRefs (vs : list V)           (* rw_vector<T>, ro_vector<T> *)
| RvValues (vs : list V)
| RvStores (ss : list (@Store _ V)) | RvViews (vs : list (@View _ V))
| RvFutures (fs : list (@Future _ V)).

(** [Store::get_value()] dereferences the shared pointer. *)
Definition Store_get_value (s : @Store _ V) : outcome V := deref (store_value s).

(** What a move leaves of a future: the shared pointer is null. *)
Definition Future_moved (f : @Future _ V) : @Future _ V :=
  mkFuture (future_precondition f) (future_war f) VNull.

(** [View::value()], on the cells of the heap. *)
Definition view_value_in (h : @Heap _ V) (v : @View _ V) : outcome V :=
  View_get (fun c => mjoin (h_cells h !! c)) v.

Definition on_objects {A} (f : @Heap _ V -> outcome A) : OM A := fun o => (f (o_heap o), o).

(** [ResolveDependency<Src, Target>], and what is left in the stored argument;
    [fuel] bounds the chains of futures. *)
Definition ResolveDependency (fuel : nat) (a : Stored) (t : Param) : OM (Resolved * Stored) :=
  match a, t with
  | SFuture f, PFuture => mret (RvFuture f, SFuture (Future_moved f))
  | SFuture f, PVal | SFuture f, PConst =>
      v ← on_heap (take_value moved_value fuel f); mret (RvValue v, a)
  | SStore s, PRef | SStore s, PConst => v ← sm_lift (Store_get_value s); mret (RvRef v, a)
  | SStore s, PStore => mret (RvStore s, SStore (moved_from s))
  | SView v, PView => mret (RvView (View_move v).1, SView (View_move v).2)
  | SView v, PConst | SView v, PVal =>
      x ← on_objects (fun h => view_value_in h v); mret (RvRef x, a)
  | SStores ss, PRwVector => vs ← sm_lift (mapO Store_get_value ss); mret (RvRefs vs, a)
  | SViews vs, PRoVector => xs ← on_objects (fun h => mapO (view_value_in h) vs); mret (RvRefs xs, a)
  | SFutures fs, PVector =>
      vs ← mapS (fun f => on_heap (take_value moved_value fuel f)) fs; mret (RvValues vs, a)
  | SStores ss, PStores => mret (RvStores ss, SStores [])
  | SViews vs, PViews => mret (RvViews vs, SViews [])
  | SFutures fs, PFutures => mret (RvFutures fs, SFutures [])
  | SPlain v, PVal | SPlain v, PConst => mret (RvValue v, SPlain (moved_value v))
  | _, _ => sm_lift (Undef IllFormed)
  end.

(** [resolve_dependency_tuple] for all arguments, from left to right. *)
Definition resolve_dependencies (fuel : nat) (params : list Param) (offset : nat)
    (args : list Stored) : OM (list (Resolved * Stored)) :=
  mapS (fun at_ => ResolveDependency fuel at_.1 at_.2) (zip args (drop offset params)).

(** The destructor of a stored argument; [deferred] is
    [has_deferred_delete_instances<T>]. *)
Definition Stored_dtor (deferred : bool) (a : Stored) (rt : @RT _ V) : @RT _ V :=
  match a with
  | SStore s => Store_dtor deferred s rt
  | SView v => View_dtor v rt
  | SStores ss => foldl (fun rt s => Store_dtor deferred s rt) rt ss
  | SViews vs => foldl (fun rt v => View_dtor v rt) rt vs
  | SFuture _ | SFutures _ | SPlain _ => rt
  end.

(** ** Preconditions

    [Task::AddDeferredPrecondition]: the events of one handle. *)
Definition AddDeferredPrecondition {A} `{!Deferred A} (stream_ordered : bool) (x : A) : list Event :=
  if HasPrecondition x
  then [if stream_ordered then StreamPrecondition x else EffectsPrecondition x] else [].

(** [Task::MaybeAddArgPrecondition]: of one stored argument. *)
Definition MaybeAddArgPrecondition (stream_ordered : bool) (a : Stored) : list Event :=
  match a with
  | SStore s => AddDeferredPrecondition stream_ordered s
  | SView v => AddDeferredPrecondition stream_ordered v
  | SFuture f => AddDeferredPrecondition stream_ordered f
  | SStores ss => ss ≫= AddDeferredPrecondition stream_ordered
  | SViews vs => vs ≫= AddDeferredPrecondition stream_ordered
  | SFutures fs => fs ≫= AddDeferredPrecondition stream_ordered
  | SPlain _ => []
  end.
End Arguments.
