(* ===== verification/Tasks.v ===== *)
(** Deferred operations (src/zuku/task_base.h, task.h, task.cc, defer.h, token.h,
    barrier.h): how [_defer] turns a function and its arguments into a Realm task
    with preconditions, and how the task runs.  Realm's processors are not part of
    the repository: spawning a task only records the request, and [RealmTasks]
    names its completion event. *)
From stdpp Require Import base tactics list numbers option strings sets.
From Stdlib Require Import ZArith Lia.
From S2P Require Import Prelude Events Mesh Handles Promises TaskArguments.
From S2P Require Contexts.
From S2P Require Import Processor.

(** [task_event i] is the completion event of the [i]-th spawned task;
    [TASK_ID_FIRST_AVAILABLE] is Realm's. *)
Class RealmTasks `{RealmEvents} : Type := {
  task_event : nat -> Event;
  TASK_ID_FIRST_AVAILABLE : Z;
}.

Section Tasks.
Context `{RealmTasks} `{!EqDecision Event} {V : Type} (moved_value : V -> V).
Abbreviation Ctx := (list Contexts.Field).

(** *** Task identifiers *)
Definition GlobalTaskId (k : Z) : Z := TASK_ID_FIRST_AVAILABLE + 4 + k.
Definition DELETE_TASK : Z := GlobalTaskId 2.
Definition PROFILE_STOP : Z := GlobalTaskId 3.
Definition FIRST_AVAILABLE : Z := GlobalTaskId 6.

(** ** The state *)

(** [TaskBase] and [Task]: the function is an index into the program's code. *)
Record TaskBase : Type := mkTaskBase {
  individual_preconditions : list Event;   (* a std::set *)
  merged_precondition : option Event;
  task_proc : Processor;
}.

Record Task : Type := mkTask {
  task_base : TaskBase;
  task_lambda : nat;
  task_promises : list Promise;
  task_context : Ctx;
  completion_event : Event;
  arguments : list (@Stored _ V);
}.

(** A call of [Processor::spawn]: the target, the function, the task it is given,
    the event it waits for and the priority. *)
Record Spawn : Type := mkSpawn {
  sp_target : RealmProc;
  sp_func : Z;
  sp_task : option nat;
  sp_wait : Event;
  sp_priority : Z;
}.

Record System : Type := mkSystem {
  sys_objects : @Objects _ V;
  sys_barriers : list (list Event);
  sys_tasks : list (option Task);          (* None: deleted *)
  sys_spawned : list Spawn;
  sys_task_ids : list ((nat * ProcType) * Z);
  sys_next_id : Z;
  sys_registered : list (Z * RealmKind);
}.

Abbreviation TM := (SM System).

Definition set_objects (o : Objects) (s : System) : System :=
  mkSystem o (sys_barriers s) (sys_tasks s) (sys_spawned s) (sys_task_ids s) (sys_next_id s)
    (sys_registered s).
Definition set_barriers (b : list (list Event)) (s : System) : System :=
  mkSystem (sys_objects s) b (sys_tasks s) (sys_spawned s) (sys_task_ids s) (sys_next_id s)
    (sys_registered s).
Definition set_tasks (t : list (option Task)) (s : System) : System :=
  mkSystem (sys_objects s) (sys_barriers s) t (sys_spawned s) (sys_task_ids s) (sys_next_id s)
    (sys_registered s).
Definition add_spawn (x : Spawn) (s : System) : System :=
  mkSystem (sys_objects s) (sys_barriers s) (sys_tasks s) (sys_spawned s ++ [x]) (sys_task_ids s)
    (sys_next_id s) (sys_registered s).

Definition on_objs {A} (m : SM (@Objects _ V) A) : TM A := fun s =>
  let '(r, o) := m (sys_objects s) in (r, set_objects o s).
Definition on_sys_heap {A} (m : SM (@Heap _ V) A) : TM A := on_objs (on_heap m).

(** ** Task ids (task.h, [GetTaskId]; task.cc, [nextRealmTaskId])

    [nextRealmTaskId] is an atomic counter.  It counts in Z: every request after the first
    of an instantiation of [GetTaskId<Fxn, type>] returns the static variable, and a
    program has finitely many instantiations, so its 2^63 ids do not run out.  A function registers one Realm task
    per kind of processor, the first time it is deferred there: the static
    variables of [GetTaskId<Fxn, type>] are the entries of [sys_task_ids]. *)
Definition nextRealmTaskId : TM Z := fun s =>
  (Ret (sys_next_id s),
   mkSystem (sys_objects s) (sys_barriers s) (sys_tasks s) (sys_spawned s) (sys_task_ids s)
     (sys_next_id s + 1) (sys_registered s)).

Definition RealmTaskDescriptor (id : Z) (type : ProcType) : TM unit :=
  sm_modify (fun s =>
    mkSystem (sys_objects s) (sys_barriers s) (sys_tasks s) (sys_spawned s) (sys_task_ids s)
      (sys_next_id s) (sys_registered s ++ [(id, ToRealmKind type)])).

Definition key_eqb (a b : nat * ProcType) : bool := bool_decide (a = b).

Definition GetTaskId_static (f : nat) (type : ProcType) : TM Z := fun s =>
  match alist_find key_eqb (f, type) (sys_task_ids s) with
  | Some id => (Ret id, s)
  | None =>
      (id ← nextRealmTaskId;
       sm_modify (fun s =>
         mkSystem (sys_objects s) (sys_barriers s) (sys_tasks s) (sys_spawned s)
           (alist_set key_eqb (f, type) id (sys_task_ids s)) (sys_next_id s) (sys_registered s));;
       RealmTaskDescriptor id type;; mret id) s
  end.

Definition GetTaskId (f : nat) (type : ProcType) : TM Z :=
  match type with
  | CPU | GPU | UTIL => GetTaskId_static f type
  | TEST | NUM_TYPES => mret (-1)
  end.

(** ** Preconditions (task_base.h) *)

(** [std::set::insert]. *)
Definition AddPrecondition (set : list Event) (e : Event) : list Event :=
  if decide (e ∈ set) then set else set ++ [e].

Definition MergePreconditions (t : TaskBase) : outcome TaskBase :=
  match merged_precondition t with
  | Some _ => Throw (RuntimeError "already merged preconditions")
  | None =>
      match individual_preconditions t with
      | [] => mret t
      | [e] => mret (mkTaskBase [] (Some e) (task_proc t))
      | es => mret (mkTaskBase [] (Some (merge_events es)) (task_proc t))
      end
  end.

(** [AddTaskDependencies]: of all stored arguments, in order. *)
Definition AddTaskDependencies (stream_ordered : bool) (args : list (@Stored _ V)) (t : TaskBase)
    : TaskBase :=
  mkTaskBase (foldl AddPrecondition (individual_preconditions t)
                (args ≫= MaybeAddArgPrecondition stream_ordered))
    (merged_precondition t) (task_proc t).

(** ** The code that is deferred

    A function: the types of its parameters, the types it returns ([None] for
    void) and what it does when it is called on the resolved arguments: what it
    returns, and whether it recorded an event on the stream it was given. *)
Record Lambda : Type := mkLambda {
  l_params : list Param;
  l_ret : option (list RetKind);
  l_body : list (@Resolved _ V) -> TM (list (@Returned _ V) * bool);
}.

Context (code : nat -> Lambda).

(** [GetStreamOrderedEvent]: a stream-ordered task gives up the stream when its
    control event triggers. *)
Definition GetStreamOrderedEvent (ctx : Ctx) (effects : Event) : outcome Event :=
  if Contexts.has_value Contexts.TStreamOrdered ctx
  then u ← deref (Contexts.get_control ctx); mret (user_event u)
  else mret effects.

(** The constructor of [Task]; the members are initialised in the order of their
    declarations. *)
Definition Task_new (completion : Event) (ctx : Ctx) (p : Processor) (f : nat) (args : list Arg)
    : TM Task :=
  promises ← (match l_ret (code f) with
              | Some ks => on_sys_heap (make_promise_tuple ks)
              | None => mret []
              end : TM (list Promise));
  stream ← sm_lift (GetStreamOrderedEvent ctx completion);
  args ← on_objs (StoreArgsAndSetPostcondition (l_params (code f)) stream completion args);
  base ← sm_lift (MergePreconditions
           (AddTaskDependencies (Contexts.has_value Contexts.TStreamOrdered ctx) args
              (mkTaskBase [] None p)));
  mret (mkTask base f promises ctx completion args).

(** [Processor::spawn]. *)
Definition spawn (x : Spawn) : TM Event := fun s =>
  (Ret (task_event (length (sys_spawned s))), add_spawn x s).

(** ** Tokens (token.h) *)
Record ReturnToken : Type := mkToken {
  token_event : Event;
  token_results : list (@ResultFuture _ V);
  token_control : option Event;
}.

Definition HasControlEvent (t : ReturnToken) : bool := bool_decide (is_Some (token_control t)).
Definition ControlEvent (t : ReturnToken) : outcome Event := deref (token_control t).
(** [Wait()]: the event it blocks on. *)
Definition Token_Wait (t : ReturnToken) : Event := token_event t.

(** [FutureWrappedReturn]. *)
Definition FutureWrappedReturn (t : Task) (ev : Event) : outcome (list (@ResultFuture _ V)) :=
  match l_ret (code (task_lambda t)) with
  | None => mret [FVoid ev]
  | Some ks => make_future_tuple ks (task_promises t) ev
  end.

(** [AddRealmEventPrecondition] on the result futures, and
    [AddRealmEventPostcondition] on the stored arguments. *)
Definition AddRealmEventPrecondition (es : list Event) (f : @ResultFuture _ V) : list Event :=
  match f with
  | FValue f => if Future_HasPrecondition f then AddPrecondition es (Future_Precondition f) else es
  | FVoid e => AddPrecondition es e
  end.

Definition AddRealmEventPostcondition (es : list Event) (a : @Stored _ V) : list Event :=
  match a with
  | SStore s => if Store_HasPrecondition s then AddPrecondition es (Store_Precondition s) else es
  | _ => es
  end.

(** [tuple_has_deferred_element] of the parameters. *)
Definition is_deferred (t : Param) : bool :=
  match t with PStore | PView | PFuture => true | _ => false end.

Definition all_effects_done (t : Task) (ev : Event) (results : list (@ResultFuture _ V)) : Event :=
  let f := code (task_lambda t) in
  if negb (existsb is_deferred (l_params f)) && negb (bool_decide (is_Some (l_ret f))) then ev
  else merge_events (foldl AddRealmEventPostcondition
                       (foldl AddRealmEventPrecondition [ev] results) (arguments t)).

(** The precondition of the task: the event of the context and of the arguments. *)
Definition start_precondition (ctx : Ctx) (t : Task) : Event :=
  match Contexts.get_event ctx, merged_precondition (task_base t) with
  | Some e, Some d => merge_events [e; d]
  | Some e, None => e
  | None, Some d => d
  | None, None => NO_EVENT
  end.

(** [Barrier::AddPrecondition] and [Barrier::Wait]. *)
Definition Barrier_AddPrecondition (b : nat) (e : Event) : TM unit := fun s =>
  (es ← sm_lift (at_index (sys_barriers s) b);
   sm_modify (fun s => set_barriers (<[b := es ++ [e]]> (sys_barriers s)) s)) s.
Definition Barrier_Wait (es : list Event) : Event := merge_events es.

(** [util] is [Processor::Util()]. *)
Context (util : outcome Processor).

(** The processor of the context, and whether it takes part in the operation. *)
Definition target_processor (ctx : Ctx) : outcome Processor :=
  match Contexts.get_processor ctx with Some p => mret p | None => util end.

Definition is_member (ctx : Ctx) (p : Processor) : outcome bool :=
  match Contexts.get_devices ctx with
  | Some devices => DeviceListOps.Contains devices (global_id_ p)
  | None => mret true
  end.

(** [_defer], from the creation of the task on. *)
Definition defer_task (ctx : Ctx) (p : Processor) (f : nat) (args : list Arg) : TM ReturnToken :=
  wait_on_init ← on_sys_heap new_event;
  func ← GetTaskId f (type_ p);
  s ← sm_get;
  let tid := length (sys_tasks s) in
  ev ← spawn (mkSpawn (proc_ p) func (Some tid) (user_event wait_on_init)
                (default 0 (Contexts.get_priority ctx)));
  task ← Task_new ev (Contexts.task_context ctx) p f args;
  sm_modify (fun s => set_tasks (sys_tasks s ++ [Some task]) s);;
  (if decide (type_ p = GPU)
   then u ← sm_lift util; spawn (mkSpawn (proc_ u) DELETE_TASK (Some tid) ev 0);; mret tt
   else mret tt);;
  results ← sm_lift (FutureWrappedReturn task ev);
  let done := all_effects_done task ev results in
  on_sys_heap (trigger_event wait_on_init (start_precondition ctx task));;
  (match Contexts.get_barrier ctx with
   | Some b => Barrier_AddPrecondition b done
   | None => mret tt
   end);;
  mret (mkToken done results (user_event <$> Contexts.get_control ctx)).

(** [_defer]: a processor outside the device list gets an empty token at once. *)
Definition _defer (ctx : Ctx) (f : nat) (args : list Arg) : TM ReturnToken :=
  p ← sm_lift (target_processor ctx);
  if Contexts.has_value Contexts.TDevices ctx && bool_decide (is_Some (l_ret (code f)))
  then sm_lift (Undef IllFormed)   (* functions across submesh cannot return a value *)
  else
    b ← sm_lift (is_member ctx p);
    if (b : bool) then defer_task ctx p f args
    else mret (mkToken NO_EVENT [FVoid NO_EVENT]
                 (if Contexts.has_value Contexts.TControl ctx then Some NO_EVENT else None)).

(** [Context::defer]: a group gets one task per processor, which is passed to it
    ([arg_of] makes it an argument). *)
Definition Context_defer (arg_of : Processor -> Arg) (ctx : Ctx) (f : nat) (args : list Arg)
    : TM ReturnToken :=
  match Contexts.get_group ctx with
  | Some group =>
      match args with
      | [] =>
          events ← mapS (fun proc =>
            token ← _defer (Contexts.on proc (Contexts.drop Contexts.TGroup ctx)) f [arg_of proc];
            mret (token_event token)) group;
          mret (mkToken (merge_events events) [] None)
      | _ => sm_lift (Undef IllFormed)  (* bulk launch function cannot take arguments *)
      end
  | None => _defer ctx f args
  end.

(** [Context::release]: the lambda [[](Arg) {}], with the index [nothing], keeps the
    argument until it has run. *)
Definition release_lambda (param : Param) : Lambda := mkLambda [param] None (fun _ => mret ([], false)).
Definition Context_release (arg_of : Processor -> Arg) (ctx : Ctx) (nothing : nat) (arg : Arg)
    : TM ReturnToken := Context_defer arg_of ctx nothing [arg].

(** [stop]: the event given to [Stop]. *)
Definition stop_event (es : list Event) : Event :=
  match foldl AddPrecondition [] es with [e] => e | l => merge_events l end.

(** ** Running a task (task.h, [Task::Invoke]; task.cc)

    [fuel] bounds the chains of futures. *)
Definition get_task (tid : nat) : TM Task := fun s =>
  (match sys_tasks s !! tid with Some (Some t) => Ret t | _ => Undef OutOfRange end, s).
Definition put_task (tid : nat) (t : option Task) : TM unit :=
  sm_modify (fun s => set_tasks (<[tid := t]> (sys_tasks s)) s).

Definition with_arguments (t : Task) (ps : list Promise) (args : list Stored) : Task :=
  mkTask (task_base t) (task_lambda t) ps (task_context t) (completion_event t) args.

(** [dispatch_void] and [dispatch]: [drop_params] is the offset of the first
    parameter that is stored. *)
Definition dispatch_void (fuel tid : nat) (t : Task) : TM unit :=
  let f := code (task_lambda t) in
  rs ← on_objs (resolve_dependencies moved_value fuel (l_params f)
                  (length (l_params f) - length (arguments t)) (arguments t));
  put_task tid (Some (with_arguments t (task_promises t) rs.*2));;
  '(_, recorded) ← l_body f rs.*1;
  if Contexts.has_value Contexts.TStreamOrdered (task_context t) && negb (recorded : bool)
  then sm_lift (Throw (RuntimeError
         "stream-ordered task did not log completion event on provided zuku::Stream"))
  else mret tt.

Definition dispatch (fuel tid : nat) (t : Task) : TM unit :=
  let f := code (task_lambda t) in
  rs ← on_objs (resolve_dependencies moved_value fuel (l_params f) 0 (arguments t));
  put_task tid (Some (with_arguments t (task_promises t) rs.*2));;
  '(results, _) ← l_body f rs.*1;
  ps ← on_sys_heap (FulfillPromises results (task_promises t));
  put_task tid (Some (with_arguments t ps rs.*2)).

Definition Invoke (fuel tid : nat) : TM unit :=
  t ← get_task tid;
  (match l_ret (code (task_lambda t)) with
   | None => dispatch_void fuel tid t
   | Some _ => dispatch fuel tid t
   end);;
  (match Contexts.get_control (task_context t) with
   | Some u => on_sys_heap (trigger_event u NO_EVENT)
   | None => mret tt
   end);;
  (match Contexts.get_region (task_context t) with
   | Some _ =>
       u ← sm_lift util;
       spawn (mkSpawn (proc_ u) PROFILE_STOP None (completion_event t) 0);; mret tt
   | None => mret tt
   end).

(** [deferred_task_delete]: the destructors of the stored arguments. *)
Definition deferred_task_delete (deferred : bool) (tid : nat) : TM unit :=
  t ← get_task tid;
  on_sys_heap (sm_modify (fun h =>
    set_rt (foldl (fun rt a => Stored_dtor deferred a rt) (h_rt h) (arguments t)) h));;
  put_task tid None.

Definition deferred_task_launcher (deferred : bool) (fuel tid : nat) : TM unit :=
  t ← get_task tid;
  Invoke fuel tid;;
  if decide (type_ (task_proc (task_base t)) = GPU) then mret tt
  else deferred_task_delete deferred tid.
End Tasks.
