(* ===== verification/TaskSpecs.v ===== *)
(** What [_defer] does: the task it creates, the events that start it and the
    token.  The operations on the system's state are taken apart here once; the
    theorems about tasks use [defer_task_spec]. *)
From stdpp Require Import base tactics list numbers option strings sets.
From Stdlib Require Import ZArith Lia.
From S2P Require Import Prelude Events Mesh Handles Promises TaskArguments.
From S2P Require Contexts.
From S2P Require Import Processor Tasks.

#[export] Instance example_tasks : RealmTasks := {|
  task_event := Operation;
  TASK_ID_FIRST_AVAILABLE := 0;
|}.

(** ** Sets of events *)
Section Sets.
Context `{RealmEvents} `{!EqDecision Event}.

Lemma elem_of_AddPrecondition es e x : x ∈ AddPrecondition es e <-> x ∈ es \/ x = e.
Proof. unfold AddPrecondition. destruct (decide (e ∈ es)); set_solver. Qed.

Lemma elem_of_AddPreconditions new : forall es x,
  x ∈ foldl AddPrecondition es new <-> x ∈ es \/ x ∈ new.
Proof.
  induction new as [|e new IH]; intros es x; cbn; [set_solver|].
  rewrite IH, elem_of_AddPrecondition, elem_of_cons. tauto.
Qed.

Context (fired : Event -> Prop) `{!Moment fired}.

(** The merged precondition has triggered when all preconditions have. *)
Lemma MergePreconditions_spec t t' : MergePreconditions t = Ret t' ->
  fired (default NO_EVENT (merged_precondition t')) <->
  (forall e, e ∈ individual_preconditions t -> fired e).
Proof.
  unfold MergePreconditions. pose proof fired_no_event.
  destruct (merged_precondition t) eqn:Em; [done|].
  destruct (individual_preconditions t) as [|e [|e' es]] eqn:Ei; intros [= <-]; cbn.
  - rewrite Em. cbn. set_solver.
  - split; [|set_solver]. by intros He x ->%list_elem_of_singleton.
  - rewrite fired_merge, Forall_forall. done.
Qed.
End Sets.

(** ** The handles of the arguments: the interface's law *)
Class DeferredLaws `{Deferred A} : Prop :=
  no_precondition x : HasPrecondition x = false ->
    StreamPrecondition x = NO_EVENT /\ EffectsPrecondition x = NO_EVENT.

#[export] Instance store_deferred_laws `{RealmEvents} {V} : DeferredLaws (A := @Store _ V).
Proof.
  intros [hp pn [c|] [w|] v]; cbn; unfold Store_HasPrecondition, Store_EffectsPrecondition,
    Store_Precondition, Store_StreamPrecondition, store_precondition; cbn; done.
Qed.
#[export] Instance view_deferred_laws `{RealmEvents} {V} : DeferredLaws (A := @View _ V).
Proof.
  intros [[p|] w vs v]; cbn; unfold View_HasPrecondition, View_EffectsPrecondition,
    View_Precondition, View_StreamPrecondition; cbn; done.
Qed.
#[export] Instance future_deferred_laws `{RealmEvents} {V} : DeferredLaws (A := @Future _ V).
Proof.
  intros [[p|] [w|] v]; cbn; unfold Future_HasPrecondition, Future_EffectsPrecondition,
    Future_StreamPrecondition, Future_Precondition; cbn; done.
Qed.

(** A stream-ordered task waits for the events of the streams. *)
Definition lane_of (stream_ordered : bool) : Lane := if stream_ordered then OnStream else OnEffects.

Definition lane_precondition `{Deferred A} (l : Lane) (x : A) : Event :=
  match l with OnStream => StreamPrecondition x | OnEffects => EffectsPrecondition x end.

Section Waits.
Context `{RealmEvents} {V : Type} (fired : Event -> Prop) `{!Moment fired}.

(** A task that waits for the preconditions of a handle waits for its events. *)
Lemma AddDeferredPrecondition_fired {A} `{!Deferred A} `{!DeferredLaws (A := A)} so (x : A) :
  (forall e, e ∈ AddDeferredPrecondition so x -> fired e) <-> fired (lane_precondition (lane_of so) x).
Proof.
  unfold AddDeferredPrecondition, lane_precondition. pose proof fired_no_event.
  destruct (HasPrecondition x) eqn:E; [|apply no_precondition in E as [Es Ee]];
    destruct so; cbn; rewrite ?Es, ?Ee;
    try (split; [intros He; apply He; set_solver|by intros ? e ->%list_elem_of_singleton]); set_solver.
Qed.

Lemma AddDeferredPreconditions_fired {A} `{!Deferred A} `{!DeferredLaws (A := A)} so (xs : list A) :
  (forall e, e ∈ xs ≫= AddDeferredPrecondition so -> fired e) <->
  (forall x, x ∈ xs -> fired (lane_precondition (lane_of so) x)).
Proof.
  setoid_rewrite <- AddDeferredPrecondition_fired. setoid_rewrite list_elem_of_bind. naive_solver.
Qed.

(** The events of a stored argument. *)
Definition handle_events (l : Lane) (a : @Stored _ V) : list Event :=
  match a with
  | SStore s => [lane_precondition l s]
  | SView v => [lane_precondition l v]
  | SFuture f => [lane_precondition l f]
  | SStores ss => lane_precondition l <$> ss
  | SViews vs => lane_precondition l <$> vs
  | SFutures fs => lane_precondition l <$> fs
  | SPlain _ => []
  end.

Lemma MaybeAddArgPrecondition_fired so (a : @Stored _ V) :
  (forall e, e ∈ MaybeAddArgPrecondition so a -> fired e) <-> Forall fired (handle_events (lane_of so) a).
Proof.
  destruct a; cbn [MaybeAddArgPrecondition handle_events];
    rewrite ?AddDeferredPrecondition_fired, ?AddDeferredPreconditions_fired,
      ?Forall_singleton, ?Forall_fmap, ?Forall_forall; set_solver.
Qed.
End Waits.

(** ** The accesses of the arguments

    What a task does to the program's stores when its arguments are stored:
    [accessed o gs o'] says that [o'] is [o] after the accesses [gs] were granted
    by the stores, and possibly other effects on futures, views and user events;
    nothing is triggered. *)
Section Accesses.
Context `{RealmEvents} {V : Type}.

Inductive store_access : @Store _ V -> Grant -> @Store _ V -> Prop :=
| access_write s st ef :
    store_access s (mkGrant true (store_pre s) (mkPre st ef)) (Store_ReadyAfter st ef s)
| access_read s st ef :
    store_access s (mkGrant false (rw_pre s) (mkPre st ef)) (store_add_reader st ef s).

Record quiet (o o' : @Objects _ V) : Prop := mkQuiet {
  quiet_log : triggered (o_rt o') = triggered (o_rt o);
  quiet_users : (next_user (o_rt o) <= next_user (o_rt o'))%nat;
}.

#[export] Instance quiet_preorder : PreOrder quiet.
Proof.
  split; [by split|]. intros a b c [A B] [A' B']. split; [by rewrite A'|lia].
Qed.

Inductive accessed : @Objects _ V -> list (nat * Grant) -> @Objects _ V -> Prop :=
| accessed_none o o' : o_stores o' = o_stores o -> quiet o o' -> accessed o [] o'
| accessed_one o o' i s g s' :
    o_stores o !! i = Some s -> store_access s g s' ->
    o_stores o' = <[i := s']> (o_stores o) -> quiet o o' -> accessed o [(i, g)] o'
| accessed_app o1 o2 o3 gs gs' :
    accessed o1 gs o2 -> accessed o2 gs' o3 -> accessed o1 (gs ++ gs') o3.

Lemma accessed_quiet o gs o' : accessed o gs o' -> quiet o o'.
Proof. induction 1; [done|done|]. by etrans. Qed.

(** The store accesses of an argument: the store, and whether it is a write. *)
Definition variant_access (x : @Variant _ V) : option (nat * bool) :=
  match x with VStoreRef i => Some (i, false) | _ => None end.

Definition arg_accesses (a : @Arg _ V) (t : Param) : list (nat * bool) :=
  match a, t with
  | AStore i, PRef | AStore i, PStore => [(i, true)]
  | AStore i, PVal | AStore i, PConst | AStore i, PView => [(i, false)]
  | AStores ids, PRwVector | ARwStores ids, PRwVector => (fun i => (i, true)) <$> ids
  | ARwStores ids, PRoVector => (fun i => (i, false)) <$> ids
  | AVariants xs, PRoVector => omap variant_access xs
  | _, _ => []
  end.

(** The user event of an open-ended child or view, and the end of the accesses of
    a stored argument of a task that completes with [ev]. *)
Definition open_event (x : @Stored _ V) : option nat :=
  match x with
  | SStore s => parent_notification_event s
  | SView v => war_dependency v
  | _ => None
  end.
Definition access_end (ev : EventPrecondition) (x : @Stored _ V) : EventPrecondition :=
  match open_event x with Some u => both (user_event u) | None => ev end.

(** The grants that belong to an access. *)
Definition grant_kind (x : nat * Grant) : nat * bool := (x.1, g_write x.2).

(** The events that a stored argument waits for beside those of the program's stores:
    of futures, views and moved handles. *)
Definition foreign_events (l : Lane) (a : @Arg _ V) (x : @Stored _ V) : list Event :=
  match a, x with
  | AStore _, _ | AStores _, _ | ARwStores _, _ => []
  | AVariants xs, SViews vs =>
      omap (fun p => if variant_access p.1 is Some _ then None else Some (lane_precondition l p.2)) (zip xs vs)
  | _, _ => handle_events l x
  end.

(** What a stored argument is to the accesses it came from: it waits for what they were
    granted with, and for [foreign]. *)
Definition grants_of (ev : EventPrecondition) (acc : list (nat * bool)) (x : @Stored _ V)
    (foreign : Lane -> list Event) (gs : list (nat * Grant)) : Prop :=
  grant_kind <$> gs = acc /\
  (forall g, g ∈ gs -> g_end g.2 = access_end ev x) /\
  (forall g l, g ∈ gs -> at_lane l (g_pre g.2) ∈ handle_events l x) /\
  (forall l e, e ∈ handle_events l x -> e ∈ foreign l \/ exists g, g ∈ gs /\ e = at_lane l (g_pre g.2)).

Lemma at_store_pre l (s : @Store _ V) : at_lane l (store_pre s) = lane_precondition l s.
Proof. by destruct l. Qed.
Lemma at_view_pre l (v : @View _ V) : at_lane l (view_pre v) = lane_precondition l v.
Proof. by destruct l. Qed.

Lemma child_until_accessed st ef i o c o' : child_until st ef i o = (Ret c, o') ->
  exists g, accessed o [(i, g)] o' /\ g_write g = true /\ g_end g = mkPre st ef /\
    g_pre g = store_pre c /\ parent_notification_event c = None.
Proof.
  unfold child_until, at_index. destruct (o_stores o !! i) as [s|] eqn:Es; [|done].
  intros [= <- <-]. eexists. split_and!.
  - eapply accessed_one; [done|apply (access_write _ st ef)|done|by split].
  - done.
  - done.
  - done.
  - done.
Qed.

Lemma store_view_until_accessed st ef i o v o' : store_view_until st ef i o = (Ret v, o') ->
  exists g, accessed o [(i, g)] o' /\ g_write g = false /\ g_end g = mkPre st ef /\
    g_pre g = view_pre v /\ war_dependency v = None.
Proof.
  unfold store_view_until, at_index. destruct (o_stores o !! i) as [s|] eqn:Es; [|done].
  intros [= <- <-]. eexists. split_and!.
  - eapply accessed_one; [done|apply (access_read _ st ef)|done|by split].
  - done.
  - done.
  - cbn. symmetry. apply view_pre_store.
  - done.
Qed.

Lemma open_child_accessed i o c o' : open_child i o = (Ret c, o') ->
  exists g u, accessed o [(i, g)] o' /\ g_write g = true /\ g_end g = both (user_event u) /\
    g_pre g = store_pre c /\ parent_notification_event c = Some u.
Proof.
  unfold open_child, at_index. destruct (o_stores o !! i) as [s|] eqn:Es; [|done].
  intros [= <- <-]. eexists _, _. split_and!.
  - eapply accessed_one; [done|apply access_write|done|split; cbn; [done|lia]].
  - done.
  - done.
  - done.
  - done.
Qed.

Lemma open_store_view_accessed i o v o' : open_store_view i o = (Ret v, o') ->
  exists g u, accessed o [(i, g)] o' /\ g_write g = false /\ g_end g = both (user_event u) /\
    g_pre g = view_pre v /\ war_dependency v = Some u.
Proof.
  unfold open_store_view, at_index. destruct (o_stores o !! i) as [s|] eqn:Es; [|done].
  intros [= <- <-]. eexists _, _. split_and!.
  - eapply accessed_one; [done|apply access_read|done|split; cbn; [done|lia]].
  - done.
  - done.
  - cbn. symmetry. apply view_pre_store.
  - done.
Qed.

(** Views of futures and views do not touch the stores. *)
Lemma future_view_until_accessed ef i o v o' : future_view_until ef i o = (Ret v, o') ->
  accessed o [] o'.
Proof.
  unfold future_view_until, at_index. destruct (_ !! i); [|done]. intros [= <- <-].
  by apply accessed_none.
Qed.
Lemma open_future_view_accessed i o v o' : open_future_view i o = (Ret v, o') -> accessed o [] o'.
Proof.
  unfold open_future_view, at_index. destruct (_ !! i); [|done]. intros [= <- <-].
  apply accessed_none; [done|]. split; cbn; [done|lia].
Qed.
Lemma subview_until_accessed ef i o v o' : subview_until ef i o = (Ret v, o') -> accessed o [] o'.
Proof.
  unfold subview_until, at_index. destruct (_ !! i); [|done]. intros [= <- <-].
  by apply accessed_none.
Qed.
Lemma open_subview_accessed i o v o' : open_subview i o = (Ret v, o') -> accessed o [] o'.
Proof.
  unfold open_subview, at_index. destruct (_ !! i); [|done]. intros [= <- <-].
  apply accessed_none; [done|]. split; cbn; [done|lia].
Qed.

Lemma accessed_refl o : accessed o [] o.
Proof. by apply accessed_none. Qed.

(** A vector of arguments: every element is granted its access. *)
Lemma mapS_accessed {X A} (f : X -> SM (@Objects _ V) A) (kind : X -> option (nat * bool))
    (pre : A -> EventPrecondition) (en : EventPrecondition) :
  (forall x o a o', f x o = (Ret a, o') -> exists gs, accessed o gs o' /\
     grant_kind <$> gs = option_list (kind x) /\
     forall g, g ∈ gs -> g_end g.2 = en /\ g_pre g.2 = pre a) ->
  forall l o ys o', mapS f l o = (Ret ys, o') -> exists gs, accessed o gs o' /\
    grant_kind <$> gs = omap kind l /\
    (forall g, g ∈ gs -> g_end g.2 = en /\ g_pre g.2 ∈ pre <$> ys) /\
    Forall2 (fun x y => kind x = None \/ exists g, g ∈ gs /\ pre y = g_pre g.2) l ys.
Proof.
  intros Hf. induction l as [|x l IH]; intros o ys o' E; cbn [mapS] in E.
  { injection E as <- <-. exists []. split_and!; [apply accessed_refl|done|set_solver|constructor]. }
  apply sm_bind_inv in E as (y & o1 & E1 & E). apply sm_bind_inv in E as (zs & o2 & E2 & E).
  injection E as <- <-.
  destruct (Hf _ _ _ _ E1) as (gs1 & A1 & K1 & P1), (IH _ _ _ E2) as (gs2 & A2 & K2 & P2 & F2).
  exists (gs1 ++ gs2). split_and!; [by eapply accessed_app| | |].
  - rewrite fmap_app, K1, K2. cbn. by destruct (kind x).
  - intros g [Hg|Hg]%elem_of_app; cbn.
    + destruct (P1 g Hg) as [-> ->]. set_solver.
    + destruct (P2 g Hg) as [-> Hp]. set_solver.
  - constructor.
    + destruct (kind x); [right|by left]. destruct gs1 as [|g gs1]; [done|].
      exists g. split; [set_solver|]. destruct (P1 g) as [_ ->]; [set_solver|done].
    + eapply Forall2_impl; [exact F2|]. intros a b [Hk|(g & Hg & Hp)]; [by left|right].
      exists g. split; [set_solver|done].
Qed.

Lemma one_grant o i (g : Grant) o' w (P : nat * Grant -> Prop) :
  accessed o [(i, g)] o' -> g_write g = w -> P (i, g) ->
  exists gs, accessed o gs o' /\ grant_kind <$> gs = [(i, w)] /\ forall x, x ∈ gs -> P x.
Proof.
  intros Ha Hw HP. exists [(i, g)]. split_and!; [done|by cbn; unfold grant_kind; cbn; rewrite Hw|].
  by intros x ->%list_elem_of_singleton.
Qed.

Lemma no_grant o o' ev x fo : (forall l, fo l = handle_events l x) -> accessed o [] o' ->
  exists gs, accessed o gs o' /\ grants_of ev [] x fo gs.
Proof.
  intros Hfo Ha. exists []. split; [done|]. split_and!; [done|set_solver|set_solver|].
  intros l e He. left. by rewrite Hfo.
Qed.

Lemma omap_some {A B} (f : A -> B) (l : list A) : omap (fun x => Some (f x)) l = f <$> l.
Proof. induction l as [|x l IH]; cbn; [done|]. by f_equal. Qed.

(** The events of vectors of handles. *)
Lemma pre_of_stores l p (cs : list (@Store _ V)) :
  p ∈ store_pre <$> cs -> at_lane l p ∈ handle_events l (SStores cs).
Proof.
  intros (c & -> & Hc)%list_elem_of_fmap. rewrite at_store_pre. cbn. by apply list_elem_of_fmap_2.
Qed.
Lemma pre_of_views l p (vs : list (@View _ V)) :
  p ∈ view_pre <$> vs -> at_lane l p ∈ handle_events l (SViews vs).
Proof.
  intros (v & -> & Hv)%list_elem_of_fmap. rewrite at_view_pre. cbn. by apply list_elem_of_fmap_2.
Qed.

(** An element of a vector that was granted an access, or has none. *)
Lemma granted_element {X A} (kind : X -> option (nat * bool)) (Q : A -> Prop) (l : list X) ys y :
  Forall2 (fun x y => kind x = None \/ Q y) l ys -> y ∈ ys ->
  (exists x, (x, y) ∈ zip l ys /\ kind x = None) \/ Q y.
Proof.
  induction 1 as [|x z l ys Hxz _ IH]; [by intros ?%not_elem_of_nil|]. intros [->|Hy]%elem_of_cons.
  - destruct Hxz as [Hk|]; [left|by right]. exists x. split; [by left|done].
  - destruct (IH Hy) as [(w & Hw & Hk)|]; [left|by right]. exists w. split; [by right|done].
Qed.

Lemma children_accessed st ef ids o cs o' : mapS (child_until st ef) ids o = (Ret cs, o') ->
  exists gs, accessed o gs o' /\
    grants_of (mkPre st ef) ((fun i => (i, true)) <$> ids) (SStores cs) (fun _ => []) gs.
Proof.
  intros E. apply (mapS_accessed _ (fun i => Some (i, true)) store_pre (mkPre st ef)) in E
    as (gs & A & K & P & F).
  - exists gs. split; [done|]. rewrite omap_some in K.
    split_and!; [done|intros g Hg; by apply P|intros g l Hg; by apply pre_of_stores, P|].
    intros l e (c & -> & Hc)%list_elem_of_fmap. right.
    destruct (granted_element _ (fun c => exists g, g ∈ gs /\ store_pre c = g_pre g.2) _ _ c F Hc) as [(x & _ & [=])|(g & Hg & Hp)].
    exists g. split; [done|]. by rewrite <- Hp, at_store_pre.
  - clear. intros i o c o' (g & A & W & G & P & _)%child_until_accessed.
    by eapply one_grant.
Qed.

Lemma store_view_one st ef i o v o' : store_view_until st ef i o = (Ret v, o') ->
  exists gs, accessed o gs o' /\ grant_kind <$> gs = [(i, false)] /\
    forall g, g ∈ gs -> g_end g.2 = mkPre st ef /\ g_pre g.2 = view_pre v.
Proof. intros (g & A & W & G & P & _)%store_view_until_accessed. by eapply one_grant. Qed.

Lemma store_views_accessed st ef ids o vs o' : mapS (store_view_until st ef) ids o = (Ret vs, o') ->
  exists gs, accessed o gs o' /\
    grants_of (mkPre st ef) ((fun i => (i, false)) <$> ids) (SViews vs) (fun _ => []) gs.
Proof.
  intros E. apply (mapS_accessed _ (fun i => Some (i, false)) view_pre (mkPre st ef)) in E
    as (gs & A & K & P & F).
  - exists gs. split; [done|]. rewrite omap_some in K.
    split_and!; [done|intros g Hg; by apply P|intros g l Hg; by apply pre_of_views, P|].
    intros l e (v & -> & Hv)%list_elem_of_fmap. right.
    destruct (granted_element _ (fun v => exists g, g ∈ gs /\ view_pre v = g_pre g.2) _ _ v F Hv) as [(x & _ & [=])|(g & Hg & Hp)].
    exists g. split; [done|]. by rewrite <- Hp, at_view_pre.
  - clear. intros i o v o'. apply store_view_one.
Qed.

Lemma variants_accessed st ef xs o vs o' : mapS (variant_view st ef) xs o = (Ret vs, o') ->
  exists gs, accessed o gs o' /\
    grants_of (mkPre st ef) (omap variant_access xs) (SViews vs)
      (fun l => foreign_events l (AVariants xs) (SViews vs)) gs.
Proof.
  intros E. apply (mapS_accessed _ variant_access view_pre (mkPre st ef)) in E
    as (gs & A & K & P & F).
  - exists gs. split; [done|].
    split_and!; [done|intros g Hg; by apply P|intros g l Hg; by apply pre_of_views, P|].
    intros l e (v & -> & Hv)%list_elem_of_fmap.
    destruct (granted_element _ (fun v => exists g, g ∈ gs /\ view_pre v = g_pre g.2) _ _ v F Hv) as [(x & Hx & Hk)|(g & Hg & Hp)].
    + left. apply list_elem_of_omap. exists (x, v). split; [done|]. cbn. by rewrite Hk.
    + right. exists g. split; [done|]. by rewrite <- Hp, at_view_pre.
  - clear. intros [i|i|v|s] o w o' E; cbn in E |- *.
    + by apply store_view_one in E.
    + apply subview_until_accessed in E. exists []. split_and!; [done|done|set_solver].
    + injection E as _ <-. exists []. split_and!; [apply accessed_refl|done|set_solver].
    + injection E as _ <-. exists []. split_and!; [apply accessed_refl|done|set_solver].
Qed.

(** Every way of storing an argument. *)
Lemma ToTaskArgument_accessed st ef a t o x o' : ToTaskArgument st ef a t o = (Ret x, o') ->
  exists gs, accessed o gs o' /\
    grants_of (mkPre st ef) (arg_accesses a t) x (fun l => foreign_events l a x) gs.
Proof.
  destruct a, t; cbn [ToTaskArgument store_argument vector_argument rw_vector_argument variants_argument
    future_argument view_argument arg_accesses];
    intros E; try done;
    try (injection E as <- <-; apply no_grant; [done|apply accessed_refl]);
    apply sm_bind_inv in E as (y & o1 & E1 & E); injection E as <- <-;
    first
    [ apply child_until_accessed in E1 as (g & A & W & G & P & N)
    | apply store_view_until_accessed in E1 as (g & A & W & G & P & N)
    | apply open_child_accessed in E1 as (g & u & A & W & G & P & N)
    | apply open_store_view_accessed in E1 as (g & u & A & W & G & P & N)
    | by apply children_accessed in E1
    | by apply store_views_accessed in E1
    | by apply variants_accessed in E1
    | apply no_grant; [done|];
      first [ by eapply future_view_until_accessed | by eapply open_future_view_accessed
            | by eapply open_subview_accessed ] ];
    (destruct (one_grant _ _ _ _ _ (fun x => g_end x.2 = g_end g /\ g_pre x.2 = g_pre g) A W)
      as (gs & A' & K & Q); [done|]; exists gs; split; [done|];
     split_and!; [done| | |]; intros x;
     [intros [Qe _]%Q; rewrite Qe, G; unfold access_end, open_event; by rewrite ?N
     | intros l Hx; apply Q in Hx as [_ Qp]; rewrite Qp, P, ?at_store_pre, ?at_view_pre;
       by apply list_elem_of_singleton
     | intros e ->%list_elem_of_singleton; right; destruct gs as [|g' gs]; [done|];
       exists g'; split; [by left|]; destruct (Q g') as [_ Qp]; [by left|];
       by rewrite Qp, P, ?at_store_pre, ?at_view_pre]).
Qed.
Lemma ToTaskArguments_accessed st ef : forall pairs o xs o',
  mapS (fun p => ToTaskArgument st ef p.1 p.2) pairs o = (Ret xs, o') ->
  exists gss, accessed o (concat gss) o' /\
    Forall3 (fun p x gs => grants_of (mkPre st ef) (arg_accesses p.1 p.2) x
                             (fun l => foreign_events l p.1 x) gs) pairs xs gss.
Proof.
  induction pairs as [|p pairs IH]; intros o xs o' E; cbn [mapS] in E.
  { injection E as <- <-. exists []. split; [apply accessed_refl|constructor]. }
  apply sm_bind_inv in E as (y & o1 & E1 & E). apply sm_bind_inv in E as (zs & o2 & E2 & E).
  injection E as <- <-.
  apply ToTaskArgument_accessed in E1 as (gs & A & G). apply IH in E2 as (gss & A' & G').
  exists (gs :: gss). split; [by eapply accessed_app|by constructor].
Qed.
End Accesses.

(** ** Making a task *)
Section Spec.
Context `{RealmTasks} `{!EqDecision Event} {V : Type} (code : nat -> @Lambda _ V).
Abbreviation Ctx := (list Contexts.Field).

Definition sys_rt (s : @System _ V) : RT := o_rt (sys_objects s).

(** Only the registration of task ids changed. *)
Definition only_ids (s s' : @System _ V) : Prop :=
  sys_objects s' = sys_objects s /\ sys_barriers s' = sys_barriers s /\
  sys_tasks s' = sys_tasks s /\ sys_spawned s' = sys_spawned s.

Lemma GetTaskId_only_ids f type s : exists id s', GetTaskId f type s = (Ret id, s') /\ only_ids s s'.
Proof.
  unfold GetTaskId, GetTaskId_static. destruct type; try (by eexists _, _);
    destruct (alist_find _ _ _); by eexists _, _.
Qed.

(** Task ids of user functions lie above those of the library. *)
Definition ids_above (s : @System _ V) : Prop :=
  0 <= TASK_ID_FIRST_AVAILABLE /\ FIRST_AVAILABLE <= sys_next_id s /\
  forall x, x ∈ sys_task_ids s -> FIRST_AVAILABLE <= x.2.

Lemma alist_find_elem {K A} (eqb : K -> K -> bool) k (l : list (K * A)) a :
  alist_find eqb k l = Some a -> exists k', (k', a) ∈ l.
Proof.
  induction l as [|[k' a'] l IH]; cbn; [done|]. destruct (eqb k' k).
  - intros [= ->]. exists k'. by left.
  - intros (k'' & Hin)%IH. exists k''. by right.
Qed.

Lemma alist_set_elem {K A} (eqb : K -> K -> bool) k a (l : list (K * A)) x :
  x ∈ alist_set eqb k a l -> x ∈ l \/ x.2 = a.
Proof.
  induction l as [|[k' a'] l IH]; cbn; [set_solver|]. destruct (eqb k' k); set_solver.
Qed.

Lemma GetTaskId_above f type s id s' :
  GetTaskId f type s = (Ret id, s') -> ids_above s -> id <> DELETE_TASK /\ ids_above s'.
Proof.
  intros E (Hz & Hn & Hids).
  assert (forall n, FIRST_AVAILABLE <= n -> n <> DELETE_TASK) as Hne.
  { unfold FIRST_AVAILABLE, DELETE_TASK, GlobalTaskId. lia. }
  assert (-1 <> DELETE_TASK) by (unfold DELETE_TASK, GlobalTaskId; lia).
  assert (forall type, GetTaskId_static f type s = (Ret id, s') ->
            id <> DELETE_TASK /\ ids_above s') as Hst.
  { intros ty. unfold GetTaskId_static. destruct (alist_find _ _ _) as [i|] eqn:Ef.
    - intros [= <- <-]. apply alist_find_elem in Ef as (k' & Hin). split; [|done].
      by apply Hne, (Hids (k', i)).
    - intros [= <- <-]. split; [by apply Hne|]. split; [done|]. cbn. split; [lia|].
      intros x [Hx| ->]%alist_set_elem; [by apply Hids|done]. }
  destruct type; cbn in E; try (by eapply Hst); by injection E as <- <-.
Qed.

Lemma on_objs_inv {A} (m : SM (@Objects _ V) A) s a s' : on_objs m s = (Ret a, s') ->
  exists o', m (sys_objects s) = (Ret a, o') /\ s' = set_objects o' s.
Proof.
  unfold on_objs. destruct (m (sys_objects s)) as [r o']. intros [= -> <-]. by eexists.
Qed.

Lemma on_sys_heap_inv {A} (m : SM (@Heap _ V) A) s a s' : on_sys_heap m s = (Ret a, s') ->
  exists h', m (o_heap (sys_objects s)) = (Ret a, h') /\
    s' = set_objects (set_heap h' (sys_objects s)) s.
Proof.
  unfold on_sys_heap. intros (o' & E & ->)%on_objs_inv. unfold on_heap in E.
  destruct (m (o_heap (sys_objects s))) as [r h']. injection E as -> <-. by eexists.
Qed.

Lemma sm_lift_inv {S A} (r : outcome A) (s : S) a s' : sm_lift r s = (Ret a, s') -> r = Ret a /\ s' = s.
Proof. by intros [= -> <-]. Qed.

(** Making promises triggers nothing. *)
Definition quiet_heap (h h' : @Heap _ V) : Prop :=
  triggered (h_rt h') = triggered (h_rt h) /\ (next_user (h_rt h) <= next_user (h_rt h'))%nat.

#[local] Instance quiet_heap_preorder : PreOrder quiet_heap.
Proof. split; [by split|]. intros a b c [A B] [A' B']. split; [by rewrite A'|lia]. Qed.

Lemma make_promise_tuple_quiet ks h ps h' : make_promise_tuple ks h = (Ret ps, h') -> quiet_heap h h'.
Proof.
  apply mapS_preserves; [apply _|]. intros k s y s' _ E.
  destruct k; cbn in E; injection E as _ <-; split; cbn; try done; lia.
Qed.

(** The result of [_defer] for a processor that takes part. *)
Record defer_result (ctx : Ctx) (p : Processor) (f : nat) (args : list Arg)
    (s : @System _ V) (tok : @ReturnToken _ V) (s' : System) (task : Task) (w : nat) : Prop := {
  dr_wait : w = next_user (sys_rt s);
  dr_users : (w < next_user (sys_rt s'))%nat;
  dr_log : triggered (sys_rt s') = triggered (sys_rt s) ++ [(w, start_precondition ctx task)];
  dr_tasks : sys_tasks s' = sys_tasks s ++ [Some task];
  dr_spawn : exists func n,
    sys_spawned s' !! length (sys_spawned s) =
    Some (mkSpawn (proc_ p) func (Some (length (sys_tasks s))) (user_event w) n);
  dr_spawned : sys_spawned s `prefix_of` sys_spawned s';
  dr_completion : completion_event task = task_event (length (sys_spawned s));
  dr_lambda : task_lambda task = f;
  dr_context : task_context task = Contexts.task_context ctx;
  dr_args : exists st o1 o2,
    GetStreamOrderedEvent (task_context task) (completion_event task) = Ret st /\
    o_stores o1 = o_stores (sys_objects s) /\
    StoreArgsAndSetPostcondition (l_params (code f)) st (completion_event task) args o1 =
      (Ret (arguments task), o2) /\
    o_stores (sys_objects s') = o_stores o2;
  dr_merged :
    MergePreconditions (AddTaskDependencies
      (Contexts.has_value Contexts.TStreamOrdered (task_context task)) (arguments task)
      (mkTaskBase [] None p)) = Ret (task_base task);
  dr_results : FutureWrappedReturn code task (completion_event task) = Ret (token_results tok);
  dr_token : token_event tok =
    all_effects_done code task (completion_event task) (token_results tok);
  dr_spawns : exists func n u, sys_spawned s' = sys_spawned s ++
    mkSpawn (proc_ p) func (Some (length (sys_tasks s))) (user_event w) n
    :: (if decide (type_ p = GPU)
        then [mkSpawn u DELETE_TASK (Some (length (sys_tasks s)))
                (task_event (length (sys_spawned s))) 0]
        else []) /\
    (ids_above s -> func <> DELETE_TASK /\ ids_above s');
}.

Lemma Task_new_inv ev ctx p f args s task s' : Task_new code ev ctx p f args s = (Ret task, s') ->
  exists st o1 o2, s' = set_objects o2 s /\
    GetStreamOrderedEvent ctx ev = Ret st /\ o_stores o1 = o_stores (sys_objects s) /\
    quiet (sys_objects s) o1 /\
    StoreArgsAndSetPostcondition (l_params (code f)) st ev args o1 = (Ret (arguments task), o2) /\
    MergePreconditions (AddTaskDependencies (Contexts.has_value Contexts.TStreamOrdered ctx)
      (arguments task) (mkTaskBase [] None p)) = Ret (task_base task) /\
    completion_event task = ev /\ task_lambda task = f /\ task_context task = ctx.
Proof.
  unfold Task_new. intros (ps & s1 & E1 & E)%sm_bind_inv.
  apply sm_bind_inv in E as (st & s2 & E2 & E). apply sm_lift_inv in E2 as [E2 ->].
  apply sm_bind_inv in E as (xs & s3 & E3 & E). apply on_objs_inv in E3 as (o2 & E3 & ->).
  apply sm_bind_inv in E as (base & s4 & E4 & E). apply sm_lift_inv in E4 as [E4 ->].
  injection E as <- <-. exists st, (sys_objects s1), o2. cbn.
  assert (exists h, s1 = set_objects (set_heap h (sys_objects s)) s /\
                    quiet_heap (o_heap (sys_objects s)) h) as (h & -> & Q1 & Q2).
  { destruct (l_ret (code f)) as [ks|].
    - apply on_sys_heap_inv in E1 as (h & E1 & ->).
      exists h. split; [done|]. by eapply make_promise_tuple_quiet.
    - injection E1 as _ <-. exists (o_heap (sys_objects s)). split; [|done].
      by destruct s as [[]]. }
  by split_and!.
Qed.

Lemma StoreArgs_quiet params st ef args o xs o' :
  StoreArgsAndSetPostcondition params st ef args o = (Ret xs, o') -> quiet (V := V) o o'.
Proof. intros (gss & A & _)%ToTaskArguments_accessed. by eapply accessed_quiet. Qed.

Context (util : outcome Processor).

(** A task for a GPU is deleted by another one. *)
Lemma spawn_delete_inv p ev tid s s' :
  ((if decide (type_ p = GPU)
    then u ← sm_lift util; spawn (mkSpawn (proc_ u) DELETE_TASK (Some tid) ev 0);; mret tt
    else mret tt) : SM (@System _ V) unit) s = (Ret tt, s') ->
  sys_objects s' = sys_objects s /\ sys_tasks s' = sys_tasks s /\ (ids_above s -> ids_above s') /\
  exists u, sys_spawned s' = sys_spawned s ++
    (if decide (type_ p = GPU) then [mkSpawn u DELETE_TASK (Some tid) ev 0] else []).
Proof.
  intros E. destruct (decide (type_ p = GPU)).
  - apply sm_bind_inv in E as (u & s1 & E1 & E). apply sm_lift_inv in E1 as [_ ->].
    injection E as <-. split_and!; [done|done|done|]. by exists (proc_ u).
  - injection E as <-. split_and!; [done|done|done|]. exists NO_PROC. by rewrite app_nil_r.
Qed.

(** The barrier of the context gets the event of the token. *)
Lemma barrier_inv b done s s' :
  ((match b with Some b => Barrier_AddPrecondition b done | None => mret tt end) : SM (@System _ V) unit) s =
    (Ret tt, s') ->
  sys_objects s' = sys_objects s /\ sys_tasks s' = sys_tasks s /\ sys_spawned s' = sys_spawned s /\
  (ids_above s -> ids_above s').
Proof.
  destruct b as [b|]; intros E; [|by injection E as <-]. unfold Barrier_AddPrecondition in E.
  apply sm_bind_inv in E as (es & s1 & E1 & E). apply sm_lift_inv in E1 as [_ ->]. by injection E as <-.
Qed.

Lemma defer_task_spec ctx p f args s tok s' :
  defer_task code util ctx p f args s = (Ret tok, s') ->
  exists task w, defer_result ctx p f args s tok s' task w.
Proof.
  unfold defer_task. intros (w & s1 & E1 & E)%sm_bind_inv.
  apply on_sys_heap_inv in E1 as (h1 & E1 & ->). injection E1 as <- <-.
  apply sm_bind_inv in E as (func & s2 & E2 & E).
  destruct (GetTaskId_only_ids f (type_ p)
    (set_objects (set_heap (set_rt (mkRuntime (S (next_user (sys_rt s))) (triggered (sys_rt s))
       (released (sys_rt s)) (deleted (sys_rt s)) (pending_ops (sys_rt s)))
       (o_heap (sys_objects s))) (sys_objects s)) s)) as (id & s2' & E2' & Ho & _ & Ht & Hsp).
  pose proof (fun Ha => GetTaskId_above f (type_ p) _ func s2 E2 Ha) as Hids.
  change (GetTaskId f (type_ p) _) with (GetTaskId f (type_ p) (set_objects (set_heap (set_rt
    (mkRuntime (S (next_user (sys_rt s))) (triggered (sys_rt s))
       (released (sys_rt s)) (deleted (sys_rt s)) (pending_ops (sys_rt s)))
       (o_heap (sys_objects s))) (sys_objects s)) s)) in E2.
  rewrite E2 in E2'. injection E2' as <- <-.
  rewrite sm_get_bind in E.
  apply sm_bind_inv in E as (ev & s3 & E3 & E). injection E3 as <- <-.
  apply sm_bind_inv in E as (task & s4 & E4 & E).
  apply Task_new_inv in E4 as (st & o1 & o2 & -> & Hst & Ho1 & Q1 & Hargs & Hm & Hc & Hl & Hctx).
  apply sm_bind_inv in E as ([] & s5 & E5 & E). injection E5 as <-.
  apply sm_bind_inv in E as ([] & s6 & E6 & E).
  apply spawn_delete_inv in E6 as (Ho6 & Ht6 & Ha6 & u & Hsp6). cbn in Ho6, Ht6, Ha6, Hsp6.
  rewrite <- (assoc_L (++)) in Hsp6. cbn [app] in Hsp6.
  set (l := if decide (type_ p = GPU) then _ else _) in Hsp6.
  apply sm_bind_inv in E as (results & s7 & E7 & E). apply sm_lift_inv in E7 as [Hres ->].
  apply sm_bind_inv in E as ([] & s8 & E8 & E).
  apply on_sys_heap_inv in E8 as (h8 & E8 & ->). injection E8 as <-.
  apply sm_bind_inv in E as ([] & s9 & E9 & E). injection E as <- <-.
  apply barrier_inv in E9 as (Ho9 & Ht9 & Hsp9 & Ha9). cbn in Ho9, Ht9, Hsp9, Ha9. rewrite Ho6 in Ho9.
  pose proof (StoreArgs_quiet _ _ _ _ _ _ _ Hargs) as Q2.
  cbn [sys_objects add_spawn] in Ho1, Q1. rewrite Ho in Ho1, Q1.
  destruct Q1 as [L1 U1], Q2 as [L2 U2]. cbn in L1, U1.
  exists task, (next_user (sys_rt s)). unfold sys_rt, o_rt in *.
  split; cbn; unfold sys_rt, o_rt; rewrite ?Ho9; cbn.
  - done.
  - lia.
  - rewrite L2, L1. done.
  - by rewrite Ht9, Ht6, Ht.
  - rewrite Hsp9, Hsp6, Hsp, Ht. do 2 eexists. by apply list_lookup_middle.
  - rewrite Hsp9, Hsp6, Hsp. by apply prefix_app_r.
  - by rewrite Hc, Hsp.
  - done.
  - done.
  - exists st, o1, o2. rewrite Hc, Hctx. done.
  - by rewrite Hctx.
  - by rewrite Hc.
  - by rewrite Hc.
  - exists func, (default 0 (Contexts.get_priority ctx)), u. split.
    + rewrite Hsp9, Hsp6. unfold l. by rewrite Hsp, Ht.
    + intros Ha. destruct (Hids Ha) as [Hf Ha2]. auto.
Qed.
End Spec.
