(* ===== verification/TaskOrder.v ===== *)
(** The order of deferred operations.  A program defers functions on its stores;
    every store orders the accesses it grants ([Handles.store_conflicts_ordered]),
    and every task waits for the preconditions of what it stores; so tasks that
    conflict on a store run in the order in which they were deferred. *)
From stdpp Require Import base tactics list numbers option strings sets.
From Stdlib Require Import ZArith Lia.
From S2P Require Import Prelude Events Mesh Handles Promises TaskArguments.
From S2P Require Contexts.
From S2P Require Import Processor Tasks TaskSpecs.

Section Order.
Context `{RealmTasks} `{!EqDecision Event} {V : Type} (code : nat -> @Lambda _ V)
  (util : outcome Processor).
Abbreviation Ctx := (list Contexts.Field).

(** ** Starting and ending *)
Lemma task_context_stream_ordered (ctx : Ctx) :
  Contexts.has_value Contexts.TStreamOrdered (Contexts.task_context ctx) =
  Contexts.has_value Contexts.TStreamOrdered ctx.
Proof.
  rewrite !Contexts.value_has, Contexts.value_task_context. by rewrite decide_True by set_solver.
Qed.

Section Moment.
Context (fired : Event -> Prop) `{!Moment fired}.

(** The lane on which a task with this context waits. *)
Definition waits_on (ctx : Ctx) : Lane := lane_of (Contexts.has_value Contexts.TStreamOrdered ctx).

(** The merged precondition of a task. *)
Lemma merged_ready ctx p f args s tok s' task w :
  defer_result code ctx p f args s tok s' task w ->
  fired (default NO_EVENT (merged_precondition (task_base task))) <->
  Forall (fun x => Forall fired (handle_events (waits_on ctx) x)) (arguments task).
Proof.
  intros R. pose proof (dr_merged _ _ _ _ _ _ _ _ _ _ R) as Hm.
  rewrite (dr_context _ _ _ _ _ _ _ _ _ _ R), task_context_stream_ordered in Hm.
  rewrite (MergePreconditions_spec fired _ _ Hm). cbn.
  setoid_rewrite elem_of_AddPreconditions. setoid_rewrite list_elem_of_bind.
  setoid_rewrite <- (MaybeAddArgPrecondition_fired fired). rewrite Forall_forall.
  split.
  - intros Hf x Hx e He. apply Hf. right. by exists x.
  - intros Hf e [[]%elem_of_nil|(x & He & Hx)]. by apply (Hf x).
Qed.

Lemma start_ready ctx p f args s tok s' task w :
  defer_result code ctx p f args s tok s' task w ->
  fired (start_precondition ctx task) <->
  (forall e, Contexts.get_event ctx = Some e -> fired e) /\
  Forall (fun x => Forall fired (handle_events (waits_on ctx) x)) (arguments task).
Proof.
  intros R. rewrite <- (merged_ready _ _ _ _ _ _ _ _ _ R).
  unfold start_precondition. pose proof fired_no_event.
  destruct (Contexts.get_event ctx), (merged_precondition (task_base task)); cbn;
    rewrite ?fired_merge2; naive_solver.
Qed.

(** [set::insert] of the events of results and stores only adds events. *)
Lemma effects_in (es : list Event) (rs : list (@ResultFuture _ V)) (xs : list (@Stored _ V)) e :
  e ∈ foldl AddRealmEventPrecondition es rs ->
  e ∈ foldl AddRealmEventPostcondition (foldl AddRealmEventPrecondition es rs) xs.
Proof.
  intros He. revert He. generalize (foldl AddRealmEventPrecondition es rs) as fs.
  induction xs as [|x xs IH]; intros fs He; cbn; [done|]. apply IH.
  destruct x; cbn; try done. destruct (Store_HasPrecondition s); [|done].
  apply elem_of_AddPrecondition. by left.
Qed.

Definition result_event (r : @ResultFuture _ V) : Event :=
  match r with FValue f => Future_Precondition f | FVoid e => e end.

Lemma results_in (rs : list (@ResultFuture _ V)) : forall es e,
  (e ∈ es -> e ∈ foldl AddRealmEventPrecondition es rs) /\
  (forall r, r ∈ rs -> result_event r = e ->
     match r with FValue f => Future_HasPrecondition f = true | FVoid _ => True end ->
     e ∈ foldl AddRealmEventPrecondition es rs).
Proof.
  induction rs as [|r rs IH]; intros es e; cbn; [split; [done|set_solver]|].
  assert (Hmono : e ∈ es -> e ∈ AddRealmEventPrecondition es r).
  { intros He. destruct r as [g|e']; cbn; [destruct (Future_HasPrecondition g); [|done]|];
      apply elem_of_AddPrecondition; by left. }
  destruct (IH (AddRealmEventPrecondition es r) e) as [IH1 IH2]. split; [by auto|].
  intros r' [->|Hr']%elem_of_cons He Hp; [|by eapply IH2].
  apply IH1. destruct r as [g|e']; cbn in *; [rewrite Hp|];
    apply elem_of_AddPrecondition; by right.
Qed.

Lemma token_covers_results ctx p f args s tok s' task w :
  defer_result code ctx p f args s tok s' task w -> fired (token_event tok) ->
  fired (completion_event task) /\ Forall (fun r => fired (result_event r)) (token_results tok).
Proof.
  intros R. rewrite (dr_token _ _ _ _ _ _ _ _ _ _ R). unfold all_effects_done.
  pose proof (dr_results _ _ _ _ _ _ _ _ _ _ R) as Hres. unfold FutureWrappedReturn in Hres.
  destruct (negb _ && negb _) eqn:E.
  - apply andb_true_iff in E as [_ E]. apply negb_true_iff in E.
    destruct (l_ret (code (task_lambda task))); [done|]. injection Hres as <-.
    intros Hf. split; [done|]. by apply Forall_singleton.
  - rewrite fired_merge, Forall_forall. intros Hf. split.
    + apply Hf, effects_in, results_in. set_solver.
    + apply Forall_forall. intros r Hr.
      destruct r as [g|e].
      * cbn. destruct (Future_HasPrecondition g) eqn:Eg.
        -- apply Hf, effects_in. by eapply results_in.
        -- pose proof (no_precondition (A := @Future _ V) g Eg) as [_ Hn]. cbn in Hn.
           unfold Future_EffectsPrecondition in Hn. rewrite Hn. apply fired_no_event.
      * apply Hf, effects_in. by eapply results_in.
Qed.

(** *** The accesses that a store grants one after the other *)
Definition grants_on (i : nat) (gs : list (nat * Grant)) : list Grant :=
  omap (fun x => if decide (x.1 = i) then Some x.2 else None) gs.

Lemma elem_of_grants_on i gs g : g ∈ grants_on i gs <-> (i, g) ∈ gs.
Proof.
  unfold grants_on. rewrite list_elem_of_omap. split.
  - intros ([j g'] & Hx & E). cbn in E. destruct (decide (j = i)); naive_solver.
  - intros Hx. exists (i, g). split; [done|]. cbn. by rewrite decide_True.
Qed.

(** What a store guarantees after the accesses [hist]: they are covered on both lanes,
    and an event of the effects implies the event of the stream beside it. *)
Record ordered (hist : list Grant) (s : @Store _ V) : Prop := mkOrdered {
  ord_covered l : covered fired l hist s;
  ord_rw : fired (rw_at OnEffects s) -> fired (rw_at OnStream s);
  ord_war : fired (war_at OnEffects s) -> fired (war_at OnStream s);
}.

(** An access gives up its stream before its effects are over.  A write is over only
    after it was allowed to start: its effects after all effects before it, its
    turn on the stream after the earlier turns, or all effects, before it. *)
Record sound (g : Grant) : Prop := mkSound {
  sound_end : fired (effects (g_end g)) -> fired (stream (g_end g));
  sound_effects : causal fired OnEffects g;
  sound_stream : g_write g = true -> fired (stream (g_end g)) ->
    fired (stream (g_pre g)) \/ fired (effects (g_pre g));
}.

Lemma store_pre_lanes hist s : ordered hist s ->
  fired (effects (store_pre s)) -> fired (stream (store_pre s)).
Proof.
  intros [_ Hrw Hwar] [? ?]%(fired_store_pre fired OnEffects).
  apply (fired_store_pre fired OnStream). auto.
Qed.

Lemma store_access_ordered (hist : list Grant) (s s' : @Store _ V) g :
  ordered hist s -> store_access s g s' -> sound g ->
  ordered (hist ++ [g]) s' /\
  forall l a, a ∈ hist -> conflicts a g = true -> fired (at_lane l (g_pre g)) -> fired (at_lane l (g_end a)).
Proof.
  intros Ho Ha Hg. pose proof (store_pre_lanes _ _ Ho) as Hpre.
  destruct Ho as [Hc Hrw Hwar], Hg as [He Hce Hcs]. split.
  - assert (Hcausal : forall l, causal fired l g).
    { intros [|]; [|done]. intros Hw Hend. destruct Ha as [s st ef|s st ef]; [|done].
      destruct (Hcs Hw Hend); [done|by apply Hpre]. }
    destruct Ha as [s st ef|s st ef]; split.
    + intros l. by apply covered_write.
    + intros [Hef ?]%(fired_ready_after_at fired OnEffects). apply (fired_ready_after_at fired OnStream).
      split; [by apply He|auto].
    + done.
    + intros l. by apply covered_read.
    + exact Hrw.
    + intros [? Hef]%(fired_add_reader fired OnEffects). apply (fired_add_reader fired OnStream).
      split; [auto|by apply He].
  - intros l a Hin Hab Hf. destruct (Hc l) as [Hw Hr], Ha; cbn [g_pre] in Hf.
    + apply (fired_store_pre fired) in Hf as [??]. by apply Hr.
    + unfold conflicts in Hab. cbn in Hab. rewrite orb_false_r in Hab. rewrite at_rw_pre in Hf. by apply Hw.
Qed.

Definition covers_stores (hist : nat -> list Grant) (o : @Objects _ V) : Prop :=
  forall i s, o_stores o !! i = Some s -> ordered (hist i) s.

Lemma accessed_covered (o o' : @Objects _ V) gs : accessed o gs o' ->
  Forall (fun x => sound x.2) gs -> forall hist, covers_stores hist o ->
  covers_stores (fun i => hist i ++ grants_on i gs) o' /\
  forall l i g a, (i, g) ∈ gs -> a ∈ hist i -> conflicts a g = true ->
    fired (at_lane l (g_pre g)) -> fired (at_lane l (g_end a)).
Proof.
  induction 1 as [o o' Hs _|o o' i s g s' Hi Ha Hs _|o1 o2 o3 gs gs' _ IH1 _ IH2]; intros Hc hist Hh.
  - split; [|set_solver]. intros i s Hi. rewrite Hs in Hi. cbn. rewrite app_nil_r. by apply Hh.
  - rewrite Forall_singleton in Hc. cbn in Hc.
    destruct (store_access_ordered _ _ _ _ (Hh i s Hi) Ha Hc) as [Hcov Hord]. split.
    + intros j t Hj. rewrite Hs in Hj. cbn.
      destruct (decide (i = j)) as [->|Hne].
      * rewrite list_lookup_insert_eq in Hj by (by eapply lookup_lt_Some). by injection Hj as <-.
      * rewrite list_lookup_insert_ne in Hj by done. rewrite app_nil_r. by apply Hh.
    + intros l j g' a [= -> ->]%list_elem_of_singleton. by apply Hord.
  - apply Forall_app in Hc as [Hc1 Hc2].
    destruct (IH1 Hc1 hist Hh) as [H1 O1]. destruct (IH2 Hc2 _ H1) as [H2 O2]. split.
    + intros i s Hi. specialize (H2 i s Hi). cbn in H2. unfold grants_on in *.
      by rewrite omap_app, (assoc_L (++)).
    + intros l i g a [Hg|Hg]%elem_of_app Ha; [by eapply O1|].
      eapply O2; [done|]. apply elem_of_app. by left.
Qed.
End Moment.

(** ** Programs

    What happens to the program's stores: a function is deferred and a task is
    created for it, or the program itself uses a handle; anything else - tasks
    running, other operations - leaves these stores alone and does not trigger the
    events that [_defer] keeps to itself. *)
Inductive Entry : Type :=
| Deferred (ctx : Ctx) (f : nat) (args : list (@Arg _ V)) (task : @Task _ V) (w : nat)
| Direct (i : nat) (g : Grant).

Definition entry_waits (e : Entry) : list nat :=
  match e with Deferred _ _ _ _ w => [w] | Direct _ _ => [] end.

Record unrelated (waits : list nat) (s s' : @System _ V) : Prop := mkUnrelated {
  un_stores : o_stores (sys_objects s') = o_stores (sys_objects s);
  un_spawned : sys_spawned s `prefix_of` sys_spawned s';
  un_log : forall t, t ∈ triggered (sys_rt s') ->
    t ∈ triggered (sys_rt s) \/ ((t.1 ∉ waits) /\ (t.1 < next_user (sys_rt s'))%nat);
  un_users : (next_user (sys_rt s) <= next_user (sys_rt s'))%nat;
  un_kept : triggered (sys_rt s) `prefix_of` triggered (sys_rt s');
}.

Inductive exec (s0 : @System _ V) : list Entry -> @System _ V -> Prop :=
| exec_start : exec s0 [] s0
| exec_defer tr s ctx f args tok s' task :
    exec s0 tr s ->
    _defer code util ctx f args s = (Ret tok, s') -> sys_tasks s' = sys_tasks s ++ [Some task] ->
    exec s0 (tr ++ [Deferred ctx f args task (next_user (sys_rt s))]) s'
| exec_direct tr s i st oper g st' rt' :
    exec s0 tr s -> o_stores (sys_objects s) !! i = Some st ->
    store_step st (sys_rt s) oper = (g, st', rt') ->
    exec s0 (tr ++ [Direct i g])
      (set_objects (put_store i st' (set_o_rt rt' (sys_objects s))) s)
| exec_other tr s s' :
    exec s0 tr s -> unrelated (tr ≫= entry_waits) s s' -> exec s0 tr s'.

(** When a task is over: for the stream it was given, and for its effects. *)
Definition task_end (task : @Task _ V) : EventPrecondition :=
  mkPre (match GetStreamOrderedEvent (task_context task) (completion_event task) with
         | Ret e => e | _ => NO_EVENT end) (completion_event task).

(** The accesses of an entry, with their ends; the event after which it may start;
    and the lane on which it waits. *)
Definition task_accesses (f : nat) (args : list (@Arg _ V)) (task : @Task _ V)
    : list ((nat * bool) * EventPrecondition) :=
  let params := l_params (code f) in
  concat (zip_with (fun p x => (fun a => (a, access_end (task_end task) x))
                                 <$> arg_accesses p.1 p.2)
            (zip args (drop (length params - length args) params)) (arguments task)).

Definition entry_accesses (e : Entry) : list ((nat * bool) * EventPrecondition) :=
  match e with
  | Deferred _ f args task _ => task_accesses f args task
  | Direct i g => [((i, g_write g), g_end g)]
  end.

Definition start_of (l : Lane) (e : Entry) : Event :=
  match e with Deferred _ _ _ _ w => user_event w | Direct _ g => at_lane l (g_pre g) end.

Definition starts_on (l : Lane) (e : Entry) : Prop :=
  match e with Deferred ctx _ _ _ _ => l = waits_on ctx | Direct _ _ => True end.

(** What [_defer] did when it made a task. *)
Lemma defer_made_task ctx f args s tok s' task : _defer code util ctx f args s = (Ret tok, s') ->
  sys_tasks s' = sys_tasks s ++ [Some task] ->
  exists p, defer_result code ctx p f args s tok s' task (next_user (sys_rt s)).
Proof.
  unfold _defer. intros (p & s1 & E1 & E)%sm_bind_inv Ht.
  apply sm_lift_inv in E1 as [_ ->].
  destruct (_ && _); [done|]. apply sm_bind_inv in E as (b & s2 & E2 & E).
  apply sm_lift_inv in E2 as [_ ->]. destruct b.
  - apply defer_task_spec in E as (task' & w & R). exists p.
    pose proof (dr_tasks _ _ _ _ _ _ _ _ _ _ R) as Ht'. rewrite Ht in Ht'.
    apply app_inj_1 in Ht' as [_ [= ->]]; [|done].
    by rewrite <- (dr_wait _ _ _ _ _ _ _ _ _ _ R).
  - injection E as _ <-. apply (f_equal length) in Ht. rewrite length_app in Ht. cbn in Ht. lia.
Qed.

Lemma store_step_log (st : @Store _ V) rt oper g st' rt' : store_step st rt oper = (g, st', rt') ->
  triggered rt' = triggered rt /\ (next_user rt <= next_user rt')%nat.
Proof. destruct oper; cbn; intros [= <- <- <-]; cbn; split; done || lia. Qed.

(** What is known about the tasks of a program: the event that a task waits for is
    triggered by [_defer] only. *)
Definition task_known (s : @System _ V) (e : Entry) : Prop :=
  match e with
  | Deferred ctx f args task w =>
      task_context task = Contexts.task_context ctx /\ (w < next_user (sys_rt s))%nat /\
      (forall x, (w, x) ∈ triggered (sys_rt s) -> x = start_precondition ctx task) /\
      (exists k sp, completion_event task = task_event k /\ sys_spawned s !! k = Some sp /\
         sp_wait sp = user_event w)
  | Direct _ _ => True
  end.

Lemma task_known_mono s s' e : task_known s e ->
  sys_spawned s `prefix_of` sys_spawned s' ->
  (next_user (sys_rt s) <= next_user (sys_rt s'))%nat ->
  (forall w x, w ∈ entry_waits e -> (w, x) ∈ triggered (sys_rt s') -> (w, x) ∈ triggered (sys_rt s)) ->
  task_known s' e.
Proof.
  destruct e as [ctx f args task w|i g]; [|done]. cbn.
  intros (Hctx & Hw & Hx & k & sp & Hc & Hk & Hs) Hp Hu Hl. split_and!; [done|lia| |].
  - intros x Hin. apply Hx, Hl; [by apply list_elem_of_singleton|done].
  - exists k, sp. split_and!; [done|by eapply prefix_lookup_Some|done].
Qed.

Definition sys_log_created (s : @System _ V) : Prop :=
  forall t, t ∈ triggered (sys_rt s) -> (t.1 < next_user (sys_rt s))%nat.

Lemma exec_known s0 tr s : exec s0 tr s -> sys_log_created s0 ->
  sys_log_created s /\ Forall (task_known s) tr.
Proof.
  intros Hex H0'. induction Hex as [|tr s ctx f args tok s' task _ IH Hd Ht
    |tr s i st oper g st' rt' _ IH Hi Hst|tr s s' _ IH Hun].
  - split; [done|constructor].
  - destruct IH as [IHl IHt]. destruct (defer_made_task _ _ _ _ _ _ _ Hd Ht) as [p R].
    destruct R as [_ Ru Rl _ Rsp Rpre Rc _ Rctx _ _ _ _]. split.
    + intros t. rewrite Rl. intros [Hin|Hin]%elem_of_app; [|by apply list_elem_of_singleton in Hin as ->].
      specialize (IHl t Hin). lia.
    + apply Forall_app. split; [|apply Forall_singleton].
      * rewrite Forall_forall in IHt |- *. intros e He. specialize (IHt e He).
        apply (task_known_mono s); [done|done|lia|].
        intros w x Hw. rewrite Rl.
        intros [Hin|Hin]%elem_of_app; [done|].
        apply list_elem_of_singleton in Hin as [= -> ->].
        destruct e as [? ? ? ? w'|]; cbn in Hw; [|by apply elem_of_nil in Hw].
        apply list_elem_of_singleton in Hw as <-. destruct IHt as (_ & Hlt & _). lia.
      * cbn. split_and!; [done|done| |].
        -- intros x. rewrite Rl. intros [Hin|Hin]%elem_of_app.
           ++ specialize (IHl _ Hin). cbn in IHl. lia.
           ++ by apply list_elem_of_singleton in Hin as [= ->].
        -- destruct Rsp as (func & n & Hk). by exists (length (sys_spawned s)), (mkSpawn
             (proc_ p) func (Some (length (sys_tasks s))) (user_event (next_user (sys_rt s))) n).
  - destruct IH as [IHl IHt]. destruct (store_step_log _ _ _ _ _ _ Hst) as [Hl Hu].
    assert (Hrt : sys_rt (set_objects (put_store i st' (set_o_rt rt' (sys_objects s))) s) = rt')
      by done.
    split.
    + intros t. rewrite Hrt, Hl. intros Hin. specialize (IHl t Hin). lia.
    + apply Forall_app. split; [|by apply Forall_singleton].
      eapply Forall_impl; [done|]. intros e He.
      apply (task_known_mono s); [done|done|by rewrite Hrt|]. intros w x _. by rewrite Hrt, Hl.
  - destruct IH as [IHl IHt], Hun as [_ Hsp Hlog Hu _]. split.
    + intros t Hin. destruct (Hlog t Hin) as [Hin'|[_ Hlt]]; [|done].
      specialize (IHl t Hin'). lia.
    + rewrite Forall_forall in IHt |- *. intros e He. specialize (IHt e He).
      apply (task_known_mono s); [done|done|done|]. intros w x Hw Hin.
      destruct (Hlog _ Hin) as [|[Hno _]]; [done|]. exfalso. apply Hno.
      apply list_elem_of_bind. by exists e.
Qed.

(** *** The order *)
Section Ordered.
Context (fired : Event -> Prop) `{!Moment fired}.

(** A task that may start is ready.  It gives up its stream before it completes, and
    both only after it could start; and when an access of a stream-ordered task is
    over, so is the work that its stream was given before.  An access of the program
    itself is sound. *)
Definition entry_causal (e : Entry) : Prop :=
  match e with
  | Deferred ctx f args task w =>
      (fired (user_event w) -> fired (start_precondition ctx task)) /\
      (forall x, x ∈ arguments task ->
         let en := access_end (task_end task) x in
         (fired (effects en) -> fired (stream en)) /\ (fired (stream en) -> fired (user_event w)) /\
         (waits_on ctx = OnStream -> fired (effects en) ->
          Forall fired (handle_events OnStream x) -> Forall fired (handle_events OnEffects x)))
  | Direct i g => sound fired g
  end.

(** Every access of an entry is one of the grants. *)
Definition grants_match (hist : nat -> list Grant) (e : Entry) : Prop :=
  forall i w en, ((i, w), en) ∈ entry_accesses e -> exists g, g ∈ hist i /\ g_write g = w /\ g_end g = en.

Lemma task_grants ev : forall (pairs : list (@Arg _ V * Param)) xs gss,
  Forall3 (fun p x gs => grants_of ev (arg_accesses p.1 p.2) x (fun l => foreign_events l p.1 x) gs) pairs xs gss ->
  (forall i w en, ((i, w), en) ∈ concat (zip_with (fun p x => (fun a => (a, access_end ev x))
                                   <$> arg_accesses p.1 p.2) pairs xs) ->
     exists g, (i, g) ∈ concat gss /\ g_write g = w /\ g_end g = en) /\
  (forall ig, ig ∈ concat gss -> exists x, x ∈ xs /\ g_end ig.2 = access_end ev x /\
     forall l, at_lane l (g_pre ig.2) ∈ handle_events (V := V) l x).
Proof.
  induction 1 as [|p x gs pairs xs gss (Hk & He & Hp & _) _ [IH1 IH2]]; cbn; [set_solver|]. split.
  - intros i w en [Hin|Hin]%elem_of_app.
    + apply list_elem_of_fmap in Hin as (a & Ea & Ha). rewrite <- Hk in Ha.
      apply list_elem_of_fmap in Ha as ([j g] & -> & Hg). unfold grant_kind in Ea. simplify_eq/=.
      exists g. split_and!; [set_solver|done|by apply (He (j, g))].
    + destruct (IH1 i w en Hin) as (g & Hg & ?). exists g. split; [set_solver|done].
  - intros ig [Hin|Hin]%elem_of_app.
    + exists x. split_and!; [set_solver|by apply He|intros l; by apply Hp].
    + destruct (IH2 ig Hin) as (y & Hy & ?). exists y. split; [set_solver|done].
Qed.

Lemma grants_match_mono (hist : nat -> list Grant) more e :
  grants_match hist e -> grants_match (fun i => hist i ++ more i) e.
Proof.
  intros Hm i w en Hin. destruct (Hm i w en Hin) as (g & Hg & ?). exists g.
  split; [|done]. apply elem_of_app. by left.
Qed.

(** The entries that a new entry has to wait for. *)
Definition waits_for (tr : list Entry) (e : Entry) : Prop :=
  forall l a, starts_on l e -> a ∈ tr -> forall i wa wb ena enb,
    ((i, wa), ena) ∈ entry_accesses a -> ((i, wb), enb) ∈ entry_accesses e ->
    wa || wb = true -> fired (start_of l e) -> fired (at_lane l ena).

(** The accesses of a task are sound. *)
Lemma deferred_sound ctx f args task w x g :
  entry_causal (Deferred ctx f args task w) ->
  (fired (start_precondition ctx task) <->
    (forall e, Contexts.get_event ctx = Some e -> fired e) /\
    Forall (fun x => Forall fired (handle_events (waits_on ctx) x)) (arguments task)) ->
  x ∈ arguments task -> g_end g = access_end (task_end task) x ->
  (forall l, at_lane l (g_pre g) ∈ handle_events (V := V) l x) -> sound fired g.
Proof.
  intros [Hstart Hend] Hready Hx He Hp. destruct (Hend x Hx) as (Hes & Hsw & Hso).
  assert (Hhandle : fired (stream (g_end g)) -> Forall fired (handle_events (waits_on ctx) x)).
  { rewrite He. intros Hf%Hsw%Hstart. apply Hready in Hf as [_ Hf]. rewrite Forall_forall in Hf. by apply Hf. }
  assert (Hpre : forall l, Forall fired (handle_events l x) -> fired (at_lane l (g_pre g))).
  { intros l. rewrite Forall_forall. intros Hf. apply Hf, Hp. }
  split.
  - by rewrite He.
  - intros _ Hf. cbn [at_lane] in Hf. apply (Hpre OnEffects).
    assert (fired (stream (g_end g))) as Hs by (rewrite He in Hf |- *; by apply Hes).
    apply Hhandle in Hs. destruct (waits_on ctx) eqn:El; [|done].
    apply Hso; [done|by rewrite <- He|done].
  - intros _ Hs%Hhandle. destruct (waits_on ctx); [left|right]; by apply Hpre in Hs.
Qed.

Lemma deferred_covered tr s ctx f args tok s' task p hist :
  defer_result code ctx p f args s tok s' task (next_user (sys_rt s)) ->
  entry_causal (Deferred ctx f args task (next_user (sys_rt s))) ->
  covers_stores fired hist (sys_objects s) -> Forall (grants_match hist) tr ->
  exists hist', covers_stores fired hist' (sys_objects s') /\
    Forall (grants_match hist') (tr ++ [Deferred ctx f args task (next_user (sys_rt s))]) /\
    waits_for tr (Deferred ctx f args task (next_user (sys_rt s))).
Proof.
  intros R Hcaus Hcov Hm.
  destruct (dr_args _ _ _ _ _ _ _ _ _ _ R) as (st & o1 & o2 & Est & Ho1 & Hargs & Ho2).
  apply ToTaskArguments_accessed in Hargs as (gss & Hacc & H3).
  assert (mkPre st (completion_event task) = task_end task) as Hte by (unfold task_end; by rewrite Est).
  rewrite Hte in H3. destruct (task_grants _ _ _ _ H3) as [Hof Hgs].
  pose proof (start_ready fired _ _ _ _ _ _ _ _ _ R) as Hsr.
  destruct (accessed_covered fired o1 o2 (concat gss) Hacc) with (hist := hist) as [Hcov' Hord].
  { apply Forall_forall. intros ig Hin. destruct (Hgs ig Hin) as (x & Hx & He & Hp).
    by eapply deferred_sound. }
  { intros i t Hi. rewrite Ho1 in Hi. by apply Hcov. }
  exists (fun i => hist i ++ grants_on i (concat gss)). split_and!.
  - intros i t Hi. rewrite Ho2 in Hi. by apply Hcov'.
  - apply Forall_app. split.
    + eapply Forall_impl; [done|]. intros e He. by apply grants_match_mono.
    + apply Forall_singleton. intros i w en Hin. destruct (Hof i w en Hin) as (g & Hg & ?).
      exists g. split; [|done]. apply elem_of_app. right. by apply elem_of_grants_on.
  - intros l a Hl Ha i wa wb ena enb Hina Hinb Hconf Hf. cbn in Hl, Hf. subst l.
    rewrite Forall_forall in Hm. destruct (Hm a Ha i wa ena Hina) as (ga & Hga & Hwa & <-).
    destruct (Hof i wb enb Hinb) as (gb & Hgb & Hwb & _).
    apply (Hord _ i gb ga Hgb Hga); [unfold conflicts; by rewrite Hwa, Hwb|].
    destruct (Hgs _ Hgb) as (x & Hx & _ & Hp). destruct Hcaus as [Hstart _].
    apply Hstart, Hsr in Hf as [_ Hf]. rewrite Forall_forall in Hf. specialize (Hf x Hx).
    rewrite Forall_forall in Hf. apply Hf, Hp.
Qed.

Lemma store_step_access (st : @Store _ V) rt oper g st' rt' :
  store_step st rt oper = (g, st', rt') -> store_access st g st'.
Proof.
  destruct oper; cbn; intros [= <- <- <-]; rewrite ?view_pre_store;
    first [exact (access_write st _ _) | exact (access_read st _ _)].
Qed.

Lemma direct_covered tr s i st oper g st' rt' hist :
  o_stores (sys_objects s) !! i = Some st -> store_step st (sys_rt s) oper = (g, st', rt') ->
  sound fired g -> covers_stores fired hist (sys_objects s) -> Forall (grants_match hist) tr ->
  exists hist', covers_stores fired hist' (put_store i st' (set_o_rt rt' (sys_objects s))) /\
    Forall (grants_match hist') (tr ++ [Direct i g]) /\ waits_for tr (Direct i g).
Proof.
  intros Hi Hst Hc Hcov Hm. destruct (store_step_log _ _ _ _ _ _ Hst) as [Hl Hu].
  apply store_step_access in Hst.
  destruct (accessed_covered fired (sys_objects s) (put_store i st' (set_o_rt rt' (sys_objects s)))
    [(i, g)]) with (hist := hist) as [Hcov' Hord]; [by eapply accessed_one|by apply Forall_singleton|done|].
  exists (fun j => hist j ++ grants_on j [(i, g)]). split_and!; [done| |].
  - apply Forall_app. split.
    + eapply Forall_impl; [done|]. intros e He. by apply grants_match_mono.
    + apply Forall_singleton. intros j w en [= -> -> ->]%list_elem_of_singleton.
      exists g. split; [|done]. apply elem_of_app. right. apply elem_of_grants_on. set_solver.
  - intros l a _ Ha j wa wb ena enb Hina [= -> -> ->]%list_elem_of_singleton Hconf Hf.
    rewrite Forall_forall in Hm. destruct (Hm a Ha i wa ena Hina) as (ga & Hga & Hwa & <-).
    apply (Hord l i g ga); [set_solver|done|unfold conflicts; by rewrite Hwa|done].
Qed.

Lemma waits_for_snoc tr e :
  (forall b x, tr !! b = Some x -> waits_for (take b tr) x) -> waits_for tr e ->
  forall b x, (tr ++ [e]) !! b = Some x -> waits_for (take b (tr ++ [e])) x.
Proof.
  intros Hw We b x [Hb|[Hlen Hb]]%lookup_app_Some.
  - rewrite take_app_le by (apply lookup_lt_Some in Hb; lia). by apply Hw.
  - apply list_lookup_singleton_Some in Hb as [Hb <-].
    replace b with (length tr) by lia. by rewrite take_app_length.
Qed.

(** Every entry waits for the earlier ones. *)
Lemma exec_ordered s0 tr s : exec s0 tr s -> covers_stores fired (fun _ => []) (sys_objects s0) ->
  Forall entry_causal tr ->
  exists hist, covers_stores fired hist (sys_objects s) /\ Forall (grants_match hist) tr /\
    forall b e, tr !! b = Some e -> waits_for (take b tr) e.
Proof.
  intros Hexec H0'. induction Hexec as [|tr s ctx f args tok s' task Hex IH Hd Ht
    |tr s i st oper g st' rt' Hex IH Hi Hst|tr s s' Hex IH Hun]; intros Hca.
  - exists (fun _ => []). split_and!; [done|constructor|done].
  - apply Forall_app in Hca as [Hca Hc]. rewrite Forall_singleton in Hc.
    destruct (IH Hca) as (hist & Hcov & Hm & Hw).
    destruct (defer_made_task _ _ _ _ _ _ _ Hd Ht) as [p R].
    destruct (deferred_covered tr _ _ _ _ _ _ _ _ hist R Hc Hcov Hm) as (h & C & M & W).
    exists h. split_and!; [done|done|]. by apply waits_for_snoc.
  - apply Forall_app in Hca as [Hca Hc]. rewrite Forall_singleton in Hc.
    destruct (IH Hca) as (hist & Hcov & Hm & Hw).
    destruct (direct_covered tr _ _ _ _ _ _ _ hist Hi Hst Hc Hcov Hm) as (h & C & M & W).
    exists h. split_and!; [done|done|]. by apply waits_for_snoc.
  - destruct (IH Hca) as (hist & Hcov & Hm & Hw). exists hist. split_and!; [|done|done].
    intros i st Hi. rewrite (un_stores _ _ _ Hun) in Hi. by apply Hcov.
Qed.
(** What the tasks and Realm keep to beside the events of the program: a
    stream-ordered task gives up its stream when it was told to, after it was allowed
    to start and before it completes, and the work on its stream is done in order, so
    that when an access of the task is over so is the work given to the stream before;
    a handle that a task can pass on is released after the task was allowed to start;
    the accesses of the program itself are sound. *)
Definition well_behaved (e : Entry) : Prop :=
  match e with
  | Deferred ctx f args task w =>
      (waits_on ctx = OnStream ->
        (fired (completion_event task) -> fired (stream (task_end task))) /\
        (fired (stream (task_end task)) -> fired (user_event w)) /\
        (forall x, x ∈ arguments task -> fired (effects (access_end (task_end task) x)) ->
           Forall fired (handle_events OnStream x) -> Forall fired (handle_events OnEffects x))) /\
      (forall x u, x ∈ arguments task -> open_event x = Some u ->
         fired (user_event u) -> fired (user_event w))
  | Direct _ g => sound fired g
  end.

(** A well-behaved entry is causal. *)
Lemma known_causal s e : possible fired (triggered (sys_rt s)) ->
  (forall k sp, sys_spawned s !! k = Some sp -> fired (task_event k) -> fired (sp_wait sp)) ->
  task_known s e -> well_behaved e -> entry_causal e.
Proof.
  intros Hpos Hspawn. destruct e as [ctx f args task w|i g]; [|done].
  intros (Hctx & _ & Huniq & k & sp & Hc & Hk & Hsp) [Hso Hopen]. split.
  { intros Hf. destruct (Hpos w Hf) as (x & Hin & Hfx). by rewrite <- (Huniq x Hin). }
  assert (Hends : (fired (completion_event task) -> fired (stream (task_end task))) /\
                  (fired (stream (task_end task)) -> fired (user_event w))).
  { destruct (waits_on ctx) eqn:El; [by destruct (Hso eq_refl) as (? & ? & _)|].
    assert (stream (task_end task) = completion_event task) as ->.
    { unfold waits_on in El. unfold task_end, GetStreamOrderedEvent.
      rewrite Hctx, task_context_stream_ordered. by destruct (Contexts.has_value _ ctx). }
    split; [done|]. rewrite Hc, <- Hsp. by apply Hspawn. }
  intros x Hx. unfold access_end. destruct (open_event x) as [u|] eqn:Eu; cbn; split_and!.
  - done.
  - by eapply Hopen.
  - intros El. destruct (Hso El) as (_ & _ & Hs). specialize (Hs x Hx). unfold access_end in Hs. by rewrite Eu in Hs.
  - apply Hends.
  - apply Hends.
  - intros El. destruct (Hso El) as (_ & _ & Hs). specialize (Hs x Hx). unfold access_end in Hs. by rewrite Eu in Hs.
Qed.
End Ordered.
End Order.

(** ** Properties *)

(** C8: tasks that conflict on a store run in the order in which they were
    deferred.  In any program that defers functions on its stores (and itself uses
    the stores, while other tasks run), if of two accesses to a store at least one
    is a write, the task of the later one starts only when the earlier one is over:
    when its task has completed, or, for a task that was given a child or view it
    can pass on, when that handle was released; a stream-ordered task starts when
    the earlier one has given up the stream.  Assumed of Realm: a user event
    triggers only as it was told, and a task completes only after the event it was
    spawned with; of the tasks and the program's own accesses: [well_behaved]; and
    the program's stores were ordered at the start. *)
Theorem tasks_conflicts_ordered `{RealmTasks} `{!EqDecision Event} {V : Type}
    (code : nat -> Lambda (V := V)) (util : outcome Processor) (s0 s : System) (tr : list Entry)
    (fired : Event -> Prop) (Hm : Moment fired)
    (Hlog : sys_log_created s0) (Hex : exec code util s0 tr s)
    (Hstores : forall i st, o_stores (sys_objects s0) !! i = Some st ->
       (fired (rw_at OnEffects st) -> fired (rw_at OnStream st)) /\
       (fired (war_at OnEffects st) -> fired (war_at OnStream st)))
    (Hpossible : possible fired (triggered (sys_rt s)))
    (Hspawn : forall k sp, sys_spawned s !! k = Some sp -> fired (task_event k) -> fired (sp_wait sp))
    (Hwell : Forall (well_behaved fired) tr)
    (a b : nat) (ea eb : Entry) (i : nat) (wa wb : bool) (ena enb : EventPrecondition) (l : Lane)
    (Hab : (a < b)%nat) (Ha : tr !! a = Some ea) (Hb : tr !! b = Some eb)
    (Hia : ((i, wa), ena) ∈ entry_accesses code ea) (Hib : ((i, wb), enb) ∈ entry_accesses code eb)
    (Hconf : wa || wb = true) (Hl : starts_on l eb) :
  fired (start_of l eb) -> fired (at_lane l ena).
Proof.
  destruct (exec_known code util s0 tr s Hex Hlog) as [_ Hknown].
  destruct (exec_ordered code util fired s0 tr s Hex) as (hist & _ & _ & Hw).
  - intros j st [Hrw Hwar]%Hstores. split; [|done|done].
    intros l'. split; intros g Hg; by apply elem_of_nil in Hg.
  - rewrite Forall_forall in Hknown, Hwell |- *. intros e He.
    eapply known_causal; [done..|by apply Hknown|by by apply Hwell].
  - apply (Hw b eb Hb l ea Hl) with (wa := wa) (wb := wb) (i := i) (enb := enb); try done.
    apply (list_elem_of_lookup_2 _ a). by rewrite lookup_take_lt.
Qed.

(** A concrete system: functions that write, read and keep a store. *)
Definition example_code (f : nat) : Lambda (V := nat) :=
  match f with
  | 0%nat => mkLambda [PRef] None (fun _ => mret ([], true))
  | 1%nat => mkLambda [PConst] None (fun _ => mret ([], true))
  | 2%nat => mkLambda [PStore] None (fun _ => mret ([], true))
  | _ => mkLambda [PRef; PConst] None (fun _ => mret ([], true))
  end.

Definition example_util : outcome Processor := mret (mkProc UTIL 0 0 1).

Definition example_system : System (V := nat) :=
  mkSystem (mkObjects (mkHeap initial_runtime [] []) [Store_Create 5%nat] [] []) [] [] [] [] 6 [].

(** Tasks that are ordered by a stream: control events 0 and 1 are the program's. *)
Definition stream_system : System (V := nat) :=
  set_objects (set_o_rt (mkRuntime 2 [] [] [] 0) (sys_objects example_system)) example_system.
Definition on_stream (control : nat) : list Contexts.Field :=
  [Contexts.FStreamOrdered; Contexts.FControl control].

(** Before it completes, a task with one argument that it cannot pass on is well behaved. *)
Lemma one_argument_behaves (fired : @Event example_events -> Prop) ctx f args (t : Task (V := nat)) w c k y :
  completion_event t = task_event k -> task_end t = mkPre (user_event c) (task_event k) ->
  arguments t = [y] -> open_event y = None -> ~ fired (task_event k) ->
  (fired (user_event c) -> fired (user_event w)) -> well_behaved fired (Deferred ctx f args t w).
Proof.
  intros Hc Ht Ha Hy Hn Hs. split.
  - intros _. rewrite Hc, Ht, Ha. split_and!; [done|done|].
    intros x ->%list_elem_of_singleton. unfold access_end. by rewrite Hy.
  - intros x u. rewrite Ha. intros ->%list_elem_of_singleton. congruence.
Qed.

(** A writer and then a reader of store 0, ordered by a stream: the reader starts
    when the writer has given up the stream, before the writer has completed. *)
Lemma tasks_conflicts_ordered_witness :
  let fired := fun e : @Event example_events =>
    fires (fun _ => false) (fun u => bool_decide (u <> 1 /\ u < 4)%nat) e = true in
  let s1 := (_defer example_code example_util (on_stream 0) 0 [AStore 0] stream_system).2 in
  let s1' := set_objects (set_o_rt (trigger 0 NO_EVENT (sys_rt s1)) (sys_objects s1)) s1 in
  let s2 := (_defer example_code example_util (on_stream 1) 1 [AStore 0] s1').2 in
  fired (user_event 3) /\ fired (user_event 0) /\ ~ fired (task_event 0).
Proof.
  intros fired s1 s1' s2. split; [reflexivity|]. split; [|discriminate].
  assert (exists t1, sys_tasks s1 = [Some t1] /\ completion_event t1 = task_event 0 /\
            task_context t1 = on_stream 0 /\
            arguments t1 = [SStore (Store_child_until (user_event 0) (task_event 0)
                                     (Store_Create 5%nat)).1]) as (t1 & E1 & C1 & X1 & A1)
    by (eexists; split; [vm_compute; reflexivity|split_and!; reflexivity]).
  assert (exists t2, sys_tasks s2 = [Some t1; Some t2] /\ completion_event t2 = task_event 1 /\
            task_context t2 = on_stream 1 /\
            exists v, arguments t2 = [SView v] /\ war_dependency v = None)
    as (t2 & E2 & C2 & X2 & v & A2 & Hv).
  { eexists. split; [rewrite <- (app_nil_r [_; _]); change [Some t1; Some ?x] with ([Some t1] ++ [Some x]);
      rewrite <- E1; vm_compute; reflexivity|]. split_and!; [done|done|].
    eexists. split; vm_compute; reflexivity. }
  assert (Hex : exec example_code example_util stream_system
            [Deferred (on_stream 0) 0 [AStore 0] t1 2; Deferred (on_stream 1) 1 [AStore 0] t2 3] s2).
  { apply (exec_defer _ _ _ [Deferred (on_stream 0) 0 [AStore 0] t1 2] s1' (on_stream 1) 1 [AStore 0]
             (mkToken (task_event 1) [FVoid (task_event 1)] (Some (user_event 1))));
      [|vm_compute; reflexivity|by change (sys_tasks s1') with (sys_tasks s1); rewrite E1].
    apply (exec_other _ _ _ _ s1).
    - apply (exec_defer _ _ _ [] stream_system (on_stream 0) 0 [AStore 0]
             (mkToken (task_event 0) [FVoid (task_event 0)] (Some (user_event 0))));
      [constructor|vm_compute; reflexivity|by rewrite E1].
    - split; [done|done| |done|by eexists]. change (triggered (sys_rt s1')) with (triggered (sys_rt s1) ++ [(0%nat, NO_EVENT)]).
      intros t [Ht|Ht%list_elem_of_singleton]%elem_of_app; [by left|right]. subst t.
      split; [cbn; set_solver|vm_compute; lia]. }
  assert (Hst : forall i st, o_stores (sys_objects stream_system) !! i = Some st ->
       (fired (rw_at OnEffects st) -> fired (rw_at OnStream st)) /\
       (fired (war_at OnEffects st) -> fired (war_at OnStream st))).
  { intros i st [_ <-]%list_lookup_singleton_Some. split; reflexivity. }
  assert (T1 : task_end t1 = mkPre (user_event 0) (task_event 0))
    by (unfold task_end; by rewrite X1, C1).
  assert (T2 : task_end t2 = mkPre (user_event 1) (task_event 1))
    by (unfold task_end; by rewrite X2, C2).
  change (user_event 0) with (at_lane OnStream (mkPre (user_event 0) (task_event 0))). rewrite <- T1.
  apply (tasks_conflicts_ordered example_code example_util stream_system s2 _ fired _
    ltac:(intros t Ht; by apply elem_of_nil in Ht) Hex Hst) with (a := 0%nat) (b := 1%nat)
    (ea := Deferred (on_stream 0) 0 [AStore 0] t1 2) (eb := Deferred (on_stream 1) 1 [AStore 0] t2 3)
    (i := 0%nat) (wa := true) (wb := false) (ena := task_end t1) (enb := task_end t2) (l := OnStream).
  - intros u Hu. change (bool_decide (u <> 1 /\ u < 4)%nat = true) in Hu. apply bool_decide_eq_true in Hu.
    assert (El : triggered (sys_rt s2) =
      [(2%nat, NO_EVENT); (0%nat, NO_EVENT); (3%nat, user_event 0)]) by (vm_compute; reflexivity).
    rewrite El. destruct u as [|[|[|[|u]]]]; [exists NO_EVENT|lia|exists NO_EVENT|exists (user_event 0)|lia];
      (split; [set_solver|reflexivity]).
  - intros k sp _ Hf. discriminate Hf.
  - apply Forall_cons. split; [|apply Forall_singleton].
    + by eapply one_argument_behaves.
    + eapply one_argument_behaves; [done..|]. intros Hf. discriminate Hf.
  - lia.
  - reflexivity.
  - reflexivity.
  - cbn [entry_accesses]. unfold task_accesses. cbn. rewrite A1. cbn. set_solver.
  - cbn [entry_accesses]. unfold task_accesses. cbn. rewrite A2. cbn. unfold access_end. cbn.
    rewrite Hv. set_solver.
  - reflexivity.
  - reflexivity.
  - reflexivity.
Defined.
