(* ===== verification/TaskProps.v ===== *)
(** Properties of deferred operations: when a task starts, what its token covers,
    the identifiers of tasks, how a task runs, and the cases in which the code does
    not do what it means to. *)
From stdpp Require Import base tactics list numbers option strings sets.
From Stdlib Require Import ZArith Lia.
From S2P Require Import Prelude Events Mesh Handles Promises TaskArguments.
From S2P Require Contexts.
From S2P Require Import Processor Tasks TaskSpecs TaskOrder.

(** ** Task identifiers *)
Section Ids.
Context `{RealmTasks} `{!EqDecision Event} {V : Type}.

(** The kinds of processors that can run tasks. *)
Definition runs_tasks (type : ProcType) : bool :=
  match type with CPU | GPU | UTIL => true | _ => false end.

(** Every function has at most one id per type, no two share an id, and each was
    registered once, for the processors of the type. *)
Record ids_ok (s : @System _ V) : Prop := mkIdsOk {
  ids_keys : NoDup (sys_task_ids s).*1;
  ids_values : NoDup (sys_task_ids s).*2;
  ids_below : forall x, x ∈ sys_task_ids s -> x.2 < sys_next_id s;
  ids_registered : sys_registered s = (fun x => (x.2, ToRealmKind x.1.2)) <$> sys_task_ids s;
}.

Lemma key_eqb_true a b : key_eqb a b = true <-> a = b.
Proof. unfold key_eqb. apply bool_decide_eq_true. Qed.

Lemma find_elem k (l : list ((nat * ProcType) * Z)) id : NoDup l.*1 ->
  alist_find key_eqb k l = Some id <-> (k, id) ∈ l.
Proof.
  induction l as [|[k' id'] l IH]; cbn; [set_solver|]. intros [Hk Hl]%NoDup_cons.
  destruct (key_eqb k' k) eqn:E.
  - apply key_eqb_true in E as ->. rewrite elem_of_cons. split; [intros [= ->]; by left|].
    intros [[= ->]|Hin]; [done|]. exfalso. apply Hk, list_elem_of_fmap. by exists (k, id).
  - rewrite (IH Hl), elem_of_cons. split; [by right|]. intros [[= -> ->]|]; [|done].
    by rewrite (proj2 (key_eqb_true k' k')) in E.
Qed.

Lemma find_none k (l : list ((nat * ProcType) * Z)) : alist_find key_eqb k l = None -> k ∉ l.*1.
Proof.
  induction l as [|[k' id'] l IH]; cbn; [set_solver|].
  destruct (key_eqb k' k) eqn:E; [done|]. intros Hn [->|Hin]%elem_of_cons; [|by apply IH].
  by rewrite (proj2 (key_eqb_true k' k')) in E.
Qed.

Lemma set_new k id (l : list ((nat * ProcType) * Z)) : alist_find key_eqb k l = None ->
  alist_set key_eqb k id l = l ++ [(k, id)].
Proof.
  induction l as [|[k' id'] l IH]; cbn; [done|]. destruct (key_eqb k' k); [done|].
  intros Hn. by rewrite IH.
Qed.

(** Ids that are listed once determine their keys. *)
Lemma NoDup_fmap_same_snd (l : list ((nat * ProcType) * Z)) k k' id :
  NoDup l.*2 -> (k, id) ∈ l -> (k', id) ∈ l -> k = k'.
Proof.
  induction l as [|[k0 id0] l IH]; cbn; [set_solver|]. intros [Hn Hl]%NoDup_cons.
  assert (Hno : forall q, (q, id0) ∉ l).
  { intros q Hq. apply Hn, list_elem_of_fmap. by exists (q, id0). }
  rewrite !elem_of_cons. intros [[= -> ->]|Ha] [[= ->]|Hb]; [done| | |by apply IH].
  - by apply Hno in Hb.
  - subst. by apply Hno in Ha.
Qed.

Lemma filter_registered (l : list ((nat * ProcType) * Z)) r a : NoDup l.*2 -> (r, a) ∈ l ->
  filter (fun x : Z * RealmKind => x.1 = a) ((fun x => (x.2, ToRealmKind x.1.2)) <$> l) =
  [(a, ToRealmKind r.2)].
Proof.
  induction l as [|[k0 id0] l IH]; [set_solver|]. rewrite fmap_cons. intros [Hn Hl]%NoDup_cons.
  rewrite fmap_cons. intros [[= -> ->]|Hin]%elem_of_cons.
  - rewrite filter_cons_True by done. f_equal. apply filter_none.
    intros x (y & -> & Hy)%list_elem_of_fmap. cbn. intros <-. apply Hn, list_elem_of_fmap. by exists y.
  - rewrite filter_cons_False; [by apply IH|]. cbn. intros ->. apply Hn, list_elem_of_fmap.
    by exists (r, a).
Qed.

(** One request: the id is that of the function and the type, now and later. *)
Lemma GetTaskId_ok f type s : runs_tasks type = true -> ids_ok s ->
  exists id s', GetTaskId f type s = (Ret id, s') /\ ids_ok s' /\
    ((f, type), id) ∈ sys_task_ids s' /\ sys_task_ids s `prefix_of` sys_task_ids s'.
Proof.
  intros Ht Hok.
  assert (E : GetTaskId f type s = GetTaskId_static f type s) by (by destruct type). rewrite E.
  destruct Hok as [K W B R]. unfold GetTaskId_static.
  destruct (alist_find key_eqb (f, type) (sys_task_ids s)) as [id|] eqn:Ef.
  - exists id, s. split_and!; [done|done|by apply find_elem|done].
  - pose proof (set_new _ (sys_next_id s) _ Ef) as Es. pose proof (find_none _ _ Ef) as Hn.
    eexists _, _. split; [cbn; reflexivity|]. cbn. rewrite Es.
    split; [split; cbn; rewrite ?Es, ?fmap_app; cbn|split; [set_solver|by apply prefix_app_r]].
    + apply NoDup_app. split_and!; [done|set_solver|apply NoDup_singleton].
    + apply NoDup_app. split_and!; [done| |apply NoDup_singleton].
      intros x (y & -> & Hy)%list_elem_of_fmap Hx%list_elem_of_singleton.
      specialize (B y Hy). lia.
    + intros x [Hx|Hx]%elem_of_app; [specialize (B x Hx); lia|].
      apply list_elem_of_singleton in Hx as ->. cbn. lia.
    + by rewrite R.
Qed.

Lemma GetTaskIds_ok reqs : forall s, Forall (fun r => runs_tasks r.2 = true) reqs -> ids_ok s ->
  exists ids s', mapS (fun r => GetTaskId r.1 r.2) reqs s = (Ret ids, s') /\ ids_ok s' /\
    sys_task_ids s `prefix_of` sys_task_ids s' /\
    Forall2 (fun r id => (r, id) ∈ sys_task_ids s') reqs ids.
Proof.
  induction reqs as [|[f type] reqs IH]; intros s Hr Hok.
  { exists [], s. split_and!; [done|done|done|constructor]. }
  apply Forall_cons in Hr as [Ht Hr].
  destruct (GetTaskId_ok f type s Ht Hok) as (id & s1 & E1 & Ok1 & In1 & P1).
  destruct (IH s1 Hr Ok1) as (ids & s2 & E2 & Ok2 & P2 & F2).
  exists (id :: ids), s2. split_and!; [|done|by etrans|].
  - cbn [mapS]. rewrite (sm_bind_ret _ _ _ _ _ E1). by rewrite (sm_bind_ret _ _ _ _ _ E2).
  - constructor; [|done]. destruct P2 as [l ->]. apply elem_of_app. by left.
Qed.
End Ids.

(** C24: every function gets one task id per type of processor.  Any sequence of
    requests succeeds; two requests get the same id exactly when they are for the
    same function and the same type, and every id was registered with Realm
    exactly once, for the kind of processor of its type. *)
Theorem task_ids_unique `{RealmTasks} `{!EqDecision Event} {V : Type} (s : System (V := V))
    (reqs : list (nat * ProcType)) (Hr : Forall (fun r => runs_tasks r.2 = true) reqs)
    (Hok : ids_ok s) :
  exists ids s', mapS (fun r => GetTaskId r.1 r.2) reqs s = (Ret ids, s') /\ ids_ok s' /\
    (forall i j ri rj a b, reqs !! i = Some ri -> reqs !! j = Some rj ->
       ids !! i = Some a -> ids !! j = Some b -> (a = b <-> ri = rj)) /\
    (forall i r a, reqs !! i = Some r -> ids !! i = Some a ->
       filter (fun x => x.1 = a) (sys_registered s') = [(a, ToRealmKind r.2)]).
Proof.
  destruct (GetTaskIds_ok reqs s Hr Hok) as (ids & s' & E & Ok & _ & F2).
  exists ids, s'. split_and!; [done|done| |].
  - intros i j ri rj a b Hi Hj Ha Hb.
    pose proof (Forall2_lookup_lr _ _ _ _ _ _ F2 Hi Ha) as Ia.
    pose proof (Forall2_lookup_lr _ _ _ _ _ _ F2 Hj Hb) as Ib. cbn in Ia, Ib.
    split; intros ->.
    + apply (NoDup_fmap_same_snd _ _ _ _ (ids_values _ Ok) Ia Ib).
    + apply (find_elem _ _ _ (ids_keys _ Ok)) in Ia, Ib. congruence.
  - intros i r a Hi Ha. pose proof (Forall2_lookup_lr _ _ _ _ _ _ F2 Hi Ha) as Ia. cbn in Ia.
    rewrite (ids_registered _ Ok).
    apply (filter_registered _ _ _ (ids_values _ Ok) Ia).
Qed.

(** Two functions, one of them on two types of processor. *)
Lemma task_ids_unique_witness :
  let reqs := [(0%nat, CPU); (1%nat, CPU); (0%nat, GPU); (0%nat, CPU)] in
  exists ids s', mapS (fun r => GetTaskId r.1 r.2) reqs example_system = (Ret ids, s') /\
    forall a b, ids !! 0%nat = Some a -> ids !! 3%nat = Some b -> a = b.
Proof.
  intros reqs.
  destruct (task_ids_unique example_system reqs) as (ids & s' & E & _ & Huniq & _).
  - repeat constructor.
  - split; cbn; try apply NoDup_nil_2; [|reflexivity]. intros x Hx. by apply elem_of_nil in Hx.
  - exists ids, s'. split; [exact E|]. intros a b Ha Hb.
    apply (Huniq 0%nat 3%nat (0%nat, CPU) (0%nat, CPU) a b); reflexivity || assumption.
Defined.

(** ** Starting a task *)

(** C13: a deferred task starts exactly when it may.  The task is spawned on the
    event that [_defer] triggers once, after the arguments were stored, with an
    event that has triggered exactly when the event of the context has and every
    handle that the task stores is ready: for a stream-ordered task on the streams,
    otherwise with all effects. *)
Theorem task_starts_when_ready `{RealmTasks} `{!EqDecision Event} {V : Type}
    (code : nat -> Lambda (V := V)) (util : outcome Processor) (ctx : list Contexts.Field)
    (f : nat) (args : list Arg) (s s' : System) (tok : ReturnToken) (task : Task)
    (fired : Event -> Prop) (Hm : Moment fired) (Hlog : sys_log_created s)
    (Hd : _defer code util ctx f args s = (Ret tok, s'))
    (Ht : sys_tasks s' = sys_tasks s ++ [Some task]) :
  exists k sp w e, completion_event task = task_event k /\ sys_spawned s' !! k = Some sp /\
    sp_task sp = Some (length (sys_tasks s)) /\ sp_wait sp = user_event w /\
    filter (fun t => t.1 = w) (triggered (sys_rt s')) = [(w, e)] /\
    (fired e <-> (forall e', Contexts.get_event ctx = Some e' -> fired e') /\
                 Forall (fun x => Forall fired (handle_events (waits_on ctx) x)) (arguments task)).
Proof.
  destruct (defer_made_task code util _ _ _ _ _ _ _ Hd Ht) as [p R].
  destruct (dr_spawn _ _ _ _ _ _ _ _ _ _ R) as (func & n & Hk).
  do 4 eexists. split_and!; [by apply (dr_completion _ _ _ _ _ _ _ _ _ _ R)|exact Hk|done|done| |].
  - rewrite (dr_log _ _ _ _ _ _ _ _ _ _ R), filter_app, filter_none, filter_cons_True;
      [reflexivity|done|].
    intros t Hin Heq. specialize (Hlog t Hin). lia.
  - by eapply start_ready.
Qed.

(** A writer deferred after an event. *)
Lemma task_starts_when_ready_witness :
  let fired := fun e : @Event example_events => fires (fun _ => true) (fun _ => true) e = true in
  let '(r, s') := _defer example_code example_util [Contexts.FEvent (op 8)] 0 [AStore 0]
                    example_system in
  exists e, filter (fun t => t.1 = 0%nat) (triggered (sys_rt s')) = [(0%nat, e)] /\ fired e.
Proof.
  intros fired.
  destruct (_defer example_code example_util [Contexts.FEvent (op 8)] 0 [AStore 0] example_system)
    as [r s'] eqn:E. vm_compute in E. injection E as Er Es.
  assert (Hd : _defer example_code example_util [Contexts.FEvent (op 8)] 0 [AStore 0] example_system
               = (Ret (mkToken (Operation 0) [FVoid (Operation 0)] None), s'))
    by (rewrite <- Es; vm_compute; reflexivity).
  assert (exists task, sys_tasks s' = [Some task] /\
            arguments task = [SStore (Store_child_until (op 0) (op 0) (Store_Create 5%nat)).1])
    as (task & Ht & Ha) by (rewrite <- Es; eexists; split; vm_compute; reflexivity).
  assert (Hl : sys_log_created example_system) by (intros t Hin; by apply elem_of_nil in Hin).
  destruct (task_starts_when_ready example_code example_util [Contexts.FEvent (op 8)] 0 [AStore 0]
    example_system s' _ task fired _ Hl Hd Ht)
    as (k & sp & w & e & _ & Hk & _ & Hw & Hf & He).
  assert (w = 0%nat) as ->.
  { rewrite <- Es in Hf. cbn [sys_rt o_rt] in Hf. destruct w as [|w]; [done|]. exfalso.
    revert Hf. vm_compute. discriminate. }
  exists e. split; [exact Hf|]. apply He. split.
  - intros e' [= <-]. reflexivity.
  - rewrite Ha. repeat constructor.
Defined.

(** C25: the token of a deferred operation covers the task and its results: when
    the token's event has triggered the task has completed and every future it
    returned is ready. *)
Theorem token_covers_task `{RealmTasks} `{!EqDecision Event} {V : Type}
    (code : nat -> Lambda (V := V)) (util : outcome Processor) (ctx : list Contexts.Field)
    (f : nat) (args : list Arg) (s s' : System) (tok : ReturnToken) (task : Task)
    (fired : Event -> Prop) (Hm : Moment fired)
    (Hd : _defer code util ctx f args s = (Ret tok, s'))
    (Ht : sys_tasks s' = sys_tasks s ++ [Some task]) :
  fired (token_event tok) ->
  fired (completion_event task) /\ Forall (fun r => fired (result_event r)) (token_results tok).
Proof.
  destruct (defer_made_task code util _ _ _ _ _ _ _ Hd Ht) as [p R].
  by eapply token_covers_results.
Qed.

Lemma token_covers_task_witness :
  let fired := fun e : @Event example_events => fires (fun _ => true) (fun _ => true) e = true in
  let '(r, s') := _defer example_code example_util [] 0 [AStore 0] example_system in
  exists tok, r = Ret tok /\ Forall (fun r => fired (result_event r)) (token_results tok).
Proof.
  intros fired.
  destruct (_defer example_code example_util [] 0 [AStore 0] example_system) as [r s'] eqn:E.
  assert (exists tok task, r = Ret tok /\ sys_tasks s' = [Some task] /\ fired (token_event tok))
    as (tok & task & -> & Ht & Hf).
  { vm_compute in E. injection E as <- <-. do 2 eexists. split_and!; reflexivity. }
  exists tok. split; [reflexivity|].
  apply (token_covers_task example_code example_util _ _ _ _ _ _ task fired _ E Ht Hf).
Defined.

(** The token does not wait for what a task does with an open-ended child.
    [AddRealmEventPostcondition] adds the child's precondition, which is over before
    the task starts, instead of its postcondition; so at a moment that is possible
    the token's event has triggered and the child has not been released. *)
Theorem token_ignores_open_child :
  let '(r, s') := _defer example_code example_util [] 2 [AStore 0] example_system in
  exists tok task c u fired, r = Ret tok /\ sys_tasks s' = [Some task] /\
    arguments task = [SStore c] /\ parent_notification_event c = Some u /\
    Moment fired /\ possible fired (triggered (sys_rt s')) /\
    fired (token_event tok) /\ ~ fired (Store_Postcondition c).
Proof.
  vm_compute _defer.
  do 4 eexists. exists (fun e : @Event example_events =>
    fires (fun _ => true) (fun u => bool_decide (u = 0%nat)) e = true).
  split_and!; try reflexivity; [apply fires_moment| |done].
  intros u Hu. change (bool_decide (u = 0%nat) = true) in Hu.
  apply bool_decide_eq_true in Hu as ->. exists NO_EVENT. split; [|done].
  vm_compute. by left.
Qed.

(** Of two [after] conditions only the last one counts: [value<Event>] is the
    first field from the outside, so a function deferred after [op 1] and after
    [op 2] starts when [op 1] is not over. *)
Theorem after_forgets_earlier :
  let ctx := Contexts.after (op 2) (Contexts.after (op 1) []) in
  let '(r, s') := _defer example_code example_util ctx 0 [AStore 0] example_system in
  exists tok fired, r = Ret tok /\ Moment fired /\ possible fired (triggered (sys_rt s')) /\
    fired (user_event 0) /\ sp_wait <$> sys_spawned s' !! 0%nat = Some (user_event 0) /\ ~ fired (op 1).
Proof.
  vm_compute _defer. eexists. exists (fun e : @Event example_events =>
    fires (fun id => bool_decide (id = 2)%nat) (fun u => bool_decide (u = 0%nat)) e = true).
  split_and!; try reflexivity; [apply fires_moment| |done].
  intros u Hu. change (bool_decide (u = 0%nat) = true) in Hu.
  apply bool_decide_eq_true in Hu as ->. exists (op 2). split; [|reflexivity].
  vm_compute. by left.
Qed.

(** ** One store given twice *)
Section Twice.
Context `{RealmTasks} `{!EqDecision Event} {V : Type}.
Context (fired : Event -> Prop) `{!Moment fired}.

(** The second argument's precondition includes the end of the first. *)
Lemma twice_waits_for_itself l st ef i t (o o' : @Objects _ V) xs :
  t = PRef \/ t = PConst ->
  StoreArgsAndSetPostcondition [PRef; t] st ef [AStore i; AStore i] o = (Ret xs, o') ->
  Forall (fun x => Forall fired (handle_events l x)) xs -> fired (at_lane l (mkPre st ef)).
Proof.
  intros Ht E. unfold StoreArgsAndSetPostcondition in E. cbn [length Nat.sub drop zip zip_with] in E.
  unfold child_until, at_index in E. cbn [mapS fst snd] in E.
  apply sm_bind_inv in E as (x & o1 & E1 & E). apply sm_bind_inv in E as (ys & o2 & E2 & E).
  injection E as <- <-. apply sm_bind_inv in E2 as (y & o3 & E2 & E3).
  apply sm_bind_inv in E3 as (zs & o4 & E3 & E4). injection E3 as <- <-. injection E4 as <- <-.
  cbn [ToTaskArgument store_argument] in E1. apply sm_bind_inv in E1 as (c & o5 & E1 & E4). injection E4 as <- <-.
  unfold child_until, at_index in E1. destruct (o_stores o !! i) as [s|] eqn:Es; [|done].
  injection E1 as <- <-.
  assert (Hi : o_stores (put_store i (Store_ReadyAfter st ef s) o) !! i =
               Some (Store_ReadyAfter st ef s)).
  { cbn. apply list_lookup_insert_eq. by eapply lookup_lt_Some. }
  assert (Hy : fired (rw_at l (Store_ReadyAfter st ef s)) -> fired (at_lane l (mkPre st ef))).
  { by intros [Hef _]%(fired_ready_after_at fired). }
  intros [_ [Hf _]%Forall_cons]%Forall_cons.
  destruct Ht as [-> | ->]; cbn [ToTaskArgument store_argument] in E2;
    apply sm_bind_inv in E2 as (w & o6 & E2 & E4); injection E4 as <- <-.
  - unfold child_until, at_index in E2. rewrite Hi in E2. injection E2 as <- <-.
    cbn [handle_events] in Hf. rewrite Forall_singleton, <- at_store_pre in Hf. apply Hy.
    apply (fired_store_pre fired) in Hf as [_ Hf]. done.
  - unfold store_view_until, at_index in E2. rewrite Hi in E2. injection E2 as <- <-.
    cbn [handle_events] in Hf. rewrite Forall_singleton in Hf. apply Hy. by destruct l.
Qed.
End Twice.

(** A function that is given the same store twice, the first time to write it,
    never starts: the event it is spawned on includes its own end, its completion or,
    for a stream-ordered task, the event with which it gives up the stream. *)
Theorem own_store_twice_deadlocks `{RealmTasks} `{!EqDecision Event} {V : Type}
    (code : nat -> Lambda (V := V)) (util : outcome Processor) (ctx : list Contexts.Field)
    (f i : nat) (t : Param) (s s' : System) (tok : ReturnToken) (task : Task)
    (fired : Event -> Prop) (Hm : Moment fired)
    (Hf : l_params (code f) = [PRef; t]) (Hpt : t = PRef \/ t = PConst)
    (Hd : _defer code util ctx f [AStore i; AStore i] s = (Ret tok, s'))
    (Ht : sys_tasks s' = sys_tasks s ++ [Some task]) :
  fired (start_precondition ctx task) -> fired (at_lane (waits_on ctx) (task_end task)).
Proof.
  destruct (defer_made_task code util _ _ _ _ _ _ _ Hd Ht) as [p R].
  destruct (dr_args _ _ _ _ _ _ _ _ _ _ R) as (st & o1 & o2 & Est & _ & Hargs & _).
  rewrite Hf in Hargs. intros Hst. unfold task_end. rewrite Est.
  apply (start_ready code fired _ _ _ _ _ _ _ _ _ R) in Hst as [_ Hst].
  by eapply twice_waits_for_itself.
Qed.

Lemma own_store_twice_deadlocks_witness :
  let fired := fun e : @Event example_events => fires (fun _ => false) (fun _ => false) e = true in
  let '(r, s') := _defer example_code example_util [] 3 [AStore 0; AStore 0] example_system in
  exists tok task, r = Ret tok /\ sys_tasks s' = [Some task] /\
    (fired (start_precondition [] task) -> fired (completion_event task)).
Proof.
  intros fired.
  destruct (_defer example_code example_util [] 3 [AStore 0; AStore 0] example_system)
    as [r s'] eqn:E.
  assert (exists tok task, r = Ret tok /\ sys_tasks s' = [Some task]) as (tok & task & -> & Ht).
  { vm_compute in E. injection E as <- <-. do 2 eexists. split; reflexivity. }
  exists tok, task. split; [reflexivity|]. split; [exact Ht|].
  exact (own_store_twice_deadlocks example_code example_util [] 3 0 PConst example_system s' tok task
    fired _ eq_refl (or_intror eq_refl) E Ht).
Defined.

(** ** The types of the arguments *)

(** The arguments that refer to a handle of the program. *)
Definition by_reference {V} `{RealmEvents} (a : @Arg _ V) : bool :=
  match a with
  | AStore _ | AFuture _ | AView _ | AStores _ | ARwStores _ | AVariants _ => true
  | _ => false
  end.

(** C29: an argument that is stored can be resolved.  If [ToTaskArgument] has an
    instance for a reference to a handle and a parameter, then [ResolveDependency]
    has one for what it stores and the same parameter - except for a reference to a
    future and a parameter of type [Future<T>], which is stored as a view. *)
Theorem argument_types_agree `{RealmEvents} {V : Type} (moved_value : V -> V) (st ef : Event)
    (a : Arg) (t : Param) (o o' : Objects) (x : Stored) (Ha : by_reference a = true)
    (E : ToTaskArgument st ef a t o = (Ret x, o')) (fuel : nat) (o1 : Objects) :
  (ResolveDependency moved_value fuel x t o1).1 = Undef IllFormed <->
  exists i, a = AFuture i /\ t = PFuture.
Proof.
  assert (Hmap : forall A B (f : A -> outcome B) l, (forall y, f y <> Undef IllFormed) ->
            mapO f l <> Undef IllFormed).
  { intros A B f l Hf. induction l as [|y l IH]; [done|]. cbn.
    specialize (Hf y). unfold mbind, outcome_bind, mret, outcome_ret.
    destruct (f y), (mapO f l); congruence. }
  assert (Hstore : forall s : @Store _ V, Store_get_value s <> Undef IllFormed).
  { intros s. unfold Store_get_value. by destruct (store_value s). }
  assert (Hview : forall h (v : @View _ V), view_value_in h v <> Undef IllFormed).
  { intros h v. unfold view_value_in, View_get. destruct (view_value v); try done.
    by destruct (mjoin _). }
  destruct a, t; try done;
    cbn [ToTaskArgument store_argument vector_argument rw_vector_argument variants_argument
    future_argument view_argument] in E; try done;
    apply sm_bind_inv in E as (y & o2 & _ & E); injection E as <- _;
    cbn [ResolveDependency]; (split; [|by intros (? & [= ->] & [=])]); try (intros _; by eexists);
    intros Hbad; exfalso; revert Hbad;
    cbn; unfold mbind, sm_bind, sm_lift, on_objects; cbn;
    first
    [ pose proof (Hstore y); destruct (Store_get_value y); cbn in *; congruence
    | pose proof (Hview (o_heap o1) y); destruct (view_value_in (o_heap o1) y); cbn in *; congruence
    | pose proof (Hmap _ _ Store_get_value y Hstore); destruct (mapO _ y); cbn in *; congruence
    | pose proof (Hmap _ _ (view_value_in (o_heap o1)) y (Hview (o_heap o1)));
      destruct (mapO _ y); cbn in *; congruence
    | cbn; congruence ].
Qed.

Lemma argument_types_agree_witness :
  (ResolveDependency id 1 (SView (View_new None None (VShared 5%nat))) PConst
     (sys_objects example_system)).1 <> Undef IllFormed.
Proof.
  intros Hbad.
  destruct (argument_types_agree id (op 0) (op 0) (AStore 0) PConst (sys_objects example_system)
    (put_store 0 (store_add_reader (op 0) (op 0) (Store_Create 5%nat)) (sys_objects example_system))
    (SView (View_new None None (VShared 5%nat))) eq_refl eq_refl 1 (sys_objects example_system))
    as [H _].
  destruct (H Hbad) as (i & Hi & _). discriminate Hi.
Defined.

(** A task cannot read a future of a task that returned a future, when it is
    given it by reference: it stores a view with the future's value, a pointer to
    the inner future, and [View::value] throws for such a value even when the inner
    future has been resolved and the future itself can be read. *)
Theorem deferred_future_by_reference_throws `{RealmEvents} {V : Type} (moved_value : V -> V)
    (st ef : Event) (i : nat) (f : Future) (q : nat) (o o' : Objects) (x : Stored)
    (Hf : o_futures o !! i = Some f) (Hq : future_value f = VFuture (V := V) q)
    (E : ToTaskArgument st ef (AFuture i) PVal o = (Ret x, o')) (fuel : nat) (o1 : Objects) :
  ResolveDependency moved_value fuel x PVal o1 =
  (Throw (RuntimeError "cannot get value from View with unresolved Future"), o1).
Proof.
  cbn [ToTaskArgument future_argument] in E. apply sm_bind_inv in E as (v & o2 & Ev & E). injection E as <- _.
  unfold future_view_until, at_index in Ev. rewrite Hf in Ev. injection Ev as <- _.
  cbn [ResolveDependency]. unfold mbind, sm_bind, on_objects, view_value_in, View_get. cbn.
  by rewrite Hq.
Qed.

(** A future whose value is there: the task still throws. *)
Lemma deferred_future_by_reference_throws_witness :
  let f := Future_new (op 1) (VFuture 1) in
  let o := mkObjects (mkHeap initial_runtime [Some 5%nat] [Future_new (op 0) (VOptional 0)]) []
             [f] [] in
  let '(r, o') := ToTaskArgument (op 2) (op 2) (AFuture 0) PVal o in
  get_value 2 (o_heap o') f = Ret 5%nat /\
  exists x, r = Ret x /\ (ResolveDependency id 2 x PVal o').1 =
    Throw (RuntimeError "cannot get value from View with unresolved Future").
Proof.
  intros f o. cbn [ToTaskArgument future_argument]. split; [reflexivity|]. eexists. split; [reflexivity|].
  match goal with |- (ResolveDependency _ _ ?x _ ?o1).1 = _ =>
    rewrite (deferred_future_by_reference_throws id (op 2) (op 2) 0 f 1 o o1 x
               eq_refl eq_refl eq_refl 2 o1) end.
  reflexivity.
Defined.

(** ** Running a task *)
Section Running.
Context `{RealmTasks} `{!EqDecision Event} {V : Type}.

(** What the destructors of a stored argument trigger: the notification of an
    open-ended child and the release of a view. *)
Definition store_releases (s : @Store _ V) : list (nat * Event) :=
  match parent_notification_event s with Some u => [(u, rw_event s)] | None => [] end.
Definition view_releases (v : @View _ V) : list (nat * Event) :=
  match war_dependency v with
  | Some u => [(u, match views v with [] => NO_EVENT | l => merge_events l end)]
  | None => []
  end.
Definition releases (a : @Stored _ V) : list (nat * Event) :=
  match a with
  | SStore s => store_releases s
  | SView v => view_releases v
  | SStores ss => ss ≫= store_releases
  | SViews vs => vs ≫= view_releases
  | SFuture _ | SFutures _ | SPlain _ => []
  end.

Lemma Store_dtor_triggered deferred s (rt : @RT _ V) :
  triggered (Store_dtor deferred s rt) = triggered rt ++ store_releases s.
Proof.
  unfold Store_dtor, store_releases, rw_event, rw_at.
  destruct (parent_notification_event s), (store_value s), (child_rw_event s); cbn;
    rewrite ?app_nil_r; try done; destruct (_ && _ && _); cbn; by rewrite ?app_nil_r.
Qed.

Lemma View_dtor_releases v (rt : @RT _ V) : triggered (View_dtor v rt) = triggered rt ++ view_releases v.
Proof.
  unfold View_dtor, view_releases. destruct (war_dependency v); [|by rewrite app_nil_r].
  by destruct (views v).
Qed.

Lemma foldl_triggered {A} (f : A -> @RT _ V -> RT) (rel : A -> list (nat * Event)) l :
  (forall x rt, triggered (f x rt) = triggered rt ++ rel x) ->
  forall rt, triggered (foldl (fun rt x => f x rt) rt l) = triggered rt ++ (l ≫= rel).
Proof.
  intros Hf. induction l as [|x l IH]; intros rt; cbn; [by rewrite app_nil_r|].
  by rewrite IH, Hf, <- (assoc_L (++)).
Qed.

Lemma Stored_dtor_triggered deferred a (rt : @RT _ V) :
  triggered (Stored_dtor deferred a rt) = triggered rt ++ releases a.
Proof.
  destruct a; cbn [Stored_dtor releases]; try (by rewrite app_nil_r).
  - apply Store_dtor_triggered.
  - apply View_dtor_releases.
  - apply (foldl_triggered (Store_dtor deferred)). apply Store_dtor_triggered.
  - apply (foldl_triggered View_dtor). apply View_dtor_releases.
Qed.

(** The trigger of the control event. *)
Definition control_release (t : @Task _ V) : list (nat * Event) :=
  match Contexts.get_control (task_context t) with Some u => [(u, NO_EVENT)] | None => [] end.

(** The state in which the function of a task is called, on resolved arguments. *)
Definition called_in (tid : nat) (t : @Task _ V) (rs : list (@Resolved _ V * @Stored _ V))
    (o1 : @Objects _ V) (s : System) : System :=
  (put_task tid (Some (with_arguments t (task_promises t) rs.*2)) (set_objects o1 s)).2.
End Running.

(** C14: running a void task on a processor other than a GPU.  When the arguments
    can be resolved and the function returns, the launcher returns, the task is
    deleted, and what it triggers, after the function's own triggers, is the control
    event and then the releases of the handles that the function was not given. *)
Theorem launcher_releases_task `{RealmTasks} `{!EqDecision Event} {V : Type}
    (code : nat -> Lambda (V := V)) (util : outcome Processor) (moved_value : V -> V)
    (deferred : bool) (fuel tid : nat) (s s2 : System) (t : Task)
    (rs : list (Resolved * Stored)) (o1 : Objects) (results : list Returned) (recorded : bool)
    (Ht : sys_tasks s !! tid = Some (Some t))
    (Hvoid : l_ret (code (task_lambda t)) = None)
    (Hcpu : type_ (task_proc (task_base t)) <> GPU)
    (Hregion : Contexts.get_region (task_context t) = None)
    (Hres : resolve_dependencies moved_value fuel (l_params (code (task_lambda t)))
              (length (l_params (code (task_lambda t))) - length (arguments t)) (arguments t)
              (sys_objects s) = (Ret rs, o1))
    (Hbody : l_body (code (task_lambda t)) rs.*1 (called_in tid t rs o1 s) =
             (Ret (results, recorded), s2))
    (Hself : sys_tasks s2 !! tid = sys_tasks (called_in tid t rs o1 s) !! tid)
    (Hrec : Contexts.has_value Contexts.TStreamOrdered (task_context t) = true -> recorded = true) :
  exists s', deferred_task_launcher moved_value code util deferred fuel tid s = (Ret tt, s') /\
    sys_tasks s' = <[tid := None]> (sys_tasks s2) /\
    triggered (sys_rt s') =
      triggered (sys_rt s2) ++ control_release t ++ (rs.*2 ≫= releases).
Proof.
  assert (Hin : (tid < length (sys_tasks s))%nat) by (by eapply lookup_lt_Some).
  assert (Ht1 : sys_tasks s2 !! tid = Some (Some (with_arguments t (task_promises t) rs.*2))).
  { rewrite Hself. cbn. by apply list_lookup_insert_eq. }
  unfold deferred_task_launcher.
  assert (Hget : get_task tid s = (Ret t, s)) by (unfold get_task; by rewrite Ht).
  rewrite (sm_bind_ret _ _ _ _ _ Hget).
  set (s3 := match Contexts.get_control (task_context t) with
             | Some u => (on_sys_heap (trigger_event u NO_EVENT) s2).2 | None => s2 end).
  assert (Hinv : Invoke moved_value code util fuel tid s = (Ret tt, s3)).
  { unfold Invoke. rewrite (sm_bind_ret _ _ _ _ _ Hget), Hvoid.
    assert (Hdisp : dispatch_void moved_value code fuel tid t s = (Ret tt, s2)).
    { unfold dispatch_void.
      erewrite sm_bind_ret by (unfold on_objs; rewrite Hres; reflexivity).
      erewrite sm_bind_ret by reflexivity. erewrite sm_bind_ret by exact Hbody.
      destruct (Contexts.has_value _ _); [|done]. by rewrite Hrec. }
    rewrite (sm_bind_ret _ _ _ _ _ Hdisp). rewrite Hregion. unfold s3.
    by destruct (Contexts.get_control (task_context t)). }
  rewrite (sm_bind_ret _ _ _ _ _ Hinv). rewrite decide_False by done.
  assert (Hs3 : sys_tasks s3 = sys_tasks s2 /\
            triggered (sys_rt s3) = triggered (sys_rt s2) ++ control_release t).
  { unfold s3, control_release. destruct (Contexts.get_control (task_context t)); [done|].
    by rewrite app_nil_r. }
  destruct Hs3 as [Ht3 Hl3].
  unfold deferred_task_delete.
  assert (Hget3 : get_task tid s3 = (Ret (with_arguments t (task_promises t) rs.*2), s3))
    by (unfold get_task; by rewrite Ht3, Ht1).
  rewrite (sm_bind_ret _ _ _ _ _ Hget3). eexists. split; [reflexivity|]. cbn.
  split; [by rewrite Ht3|].
  etransitivity; [apply (foldl_triggered (Stored_dtor deferred) releases),
                    Stored_dtor_triggered|].
  change (h_rt (o_heap (sys_objects s3))) with (sys_rt s3). by rewrite Hl3, <- (assoc_L (++)).
Qed.

(** A task that owns an open-ended child, with a control event. *)
Lemma launcher_releases_task_witness :
  let code := fun _ : nat => mkLambda (V := nat) [PRef] None (fun _ => mret ([], true)) in
  let c := mkStore true (Some 0%nat) None None (Some 5%nat) in
  let t := mkTask (mkTaskBase [] None (mkProc CPU 0 0 1)) 0 [] [Contexts.FControl 1] (op 0)
             [SStore c] in
  let s := mkSystem (mkObjects (mkHeap (mkRuntime 2 [] [] [] 0) [] []) [] [] []) [] [Some t] []
             [] 6 [] in
  exists s', deferred_task_launcher id code example_util false 1 0 s = (Ret tt, s') /\
    triggered (sys_rt s') = [(1%nat, NO_EVENT); (0%nat, NO_EVENT)].
Proof.
  intros code c t s.
  destruct (launcher_releases_task code example_util id false 1 0 s
    (called_in 0 t [(RvRef 5%nat, SStore c)] (sys_objects s) s) t
    [(RvRef 5%nat, SStore c)] (sys_objects s) [] true eq_refl eq_refl) as (s' & E & _ & Hl);
    try reflexivity; try discriminate.
  exists s'. split; [exact E|exact Hl].
Defined.

(** A stream-ordered task whose function does not record an event on its stream
    throws when the function has returned, and its control event is not triggered,
    so whatever waits for it never starts. *)
Theorem unrecorded_stream_throws `{RealmTasks} `{!EqDecision Event} {V : Type}
    (code : nat -> Lambda (V := V)) (util : outcome Processor) (moved_value : V -> V)
    (fuel tid : nat) (s s2 : System) (t : Task)
    (rs : list (Resolved * Stored)) (o1 : Objects) (results : list Returned)
    (Ht : sys_tasks s !! tid = Some (Some t))
    (Hvoid : l_ret (code (task_lambda t)) = None)
    (Hso : Contexts.has_value Contexts.TStreamOrdered (task_context t) = true)
    (Hres : resolve_dependencies moved_value fuel (l_params (code (task_lambda t)))
              (length (l_params (code (task_lambda t))) - length (arguments t)) (arguments t)
              (sys_objects s) = (Ret rs, o1))
    (Hbody : l_body (code (task_lambda t)) rs.*1 (called_in tid t rs o1 s) =
             (Ret (results, false), s2)) :
  Invoke moved_value code util fuel tid s =
  (Throw (RuntimeError
     "stream-ordered task did not log completion event on provided zuku::Stream"), s2).
Proof.
  unfold Invoke.
  assert (Hget : get_task tid s = (Ret t, s)) by (unfold get_task; by rewrite Ht).
  rewrite (sm_bind_ret _ _ _ _ _ Hget), Hvoid. apply sm_bind_throw.
  unfold dispatch_void.
  erewrite sm_bind_ret by (unfold on_objs; rewrite Hres; reflexivity).
  erewrite sm_bind_ret by reflexivity. erewrite sm_bind_ret by exact Hbody. by rewrite Hso.
Qed.

Lemma unrecorded_stream_throws_witness :
  let code := fun _ : nat => mkLambda (V := nat) [PRef] None (fun _ => mret ([], false)) in
  let t := mkTask (mkTaskBase [] None (mkProc CPU 0 0 1)) 0 []
             [Contexts.FStreamOrdered; Contexts.FControl 0] (op 0) [SStore (Store_Create 5%nat)] in
  let s := mkSystem (mkObjects (mkHeap (mkRuntime 1 [] [] [] 0) [] []) [] [] []) [] [Some t] []
             [] 6 [] in
  exists s', Invoke id code example_util 1 0 s =
    (Throw (RuntimeError
       "stream-ordered task did not log completion event on provided zuku::Stream"), s') /\
    triggered (sys_rt s') = [].
Proof.
  intros code t s. eexists. split.
  - apply (unrecorded_stream_throws code example_util id 1 0 s
      (called_in 0 t [(RvRef 5%nat, SStore (Store_Create 5%nat))] (sys_objects s) s) t
      [(RvRef 5%nat, SStore (Store_Create 5%nat))] (sys_objects s) []); reflexivity.
  - reflexivity.
Defined.

(** The control event of a bulk operation is triggered once per processor.  The
    tasks of a group share the control event of the context, so running two of them
    triggers the same user event twice; and the token of the operation has none. *)
Theorem bulk_control_event_shared :
  let code := fun _ : nat => mkLambda (V := nat) [PVal] None (fun _ => mret ([], true)) in
  let group := [mkProc CPU 0 0 10; mkProc CPU 1 1 11] in
  let '(ctx, rt) := Contexts.split_control_execution (Contexts.on_group group [])
                      (initial_runtime (V := Value)) in
  let s := mkSystem (mkObjects (mkHeap rt [] []) [] [] []) [] [] [] [] 6 [] in
  let '(r, s1) := Context_defer code example_util (fun p => APlain (Z.to_nat (local_id_ p))) ctx 0 []
                    s in
  let s2 := (deferred_task_launcher id code example_util false 1 0 s1).2 in
  let s3 := (deferred_task_launcher id code example_util false 1 1 s2).2 in
  (exists tok, r = Ret tok /\ token_control tok = None) /\
  Contexts.get_control ctx = Some 0%nat /\
  filter (fun t => t.1 = 0%nat) (triggered (sys_rt s3)) = [(0%nat, NO_EVENT); (0%nat, NO_EVENT)].
Proof. vm_compute. split; [by eexists|done]. Qed.
