(* ===== verification/TaskProgress.v ===== *)
(** Deferred operations never wait for each other in a circle.  A task waits for the
    accesses that its stores granted before, and for the other handles that it was given;
    so when Realm runs what may run and functions give back what they were given, all the
    tasks run, one after the other in the order in which they were deferred. *)
From stdpp Require Import base tactics list numbers option strings sets.
From Stdlib Require Import ZArith Lia.
From S2P Require Import Prelude Events Mesh Handles Promises TaskArguments.
From S2P Require Contexts.
From S2P Require Import Processor Tasks TaskSpecs TaskOrder.

(** Accesses of one function that do not conflict: no store is given twice, except to be
    read. *)
Definition fits_after (before acc : list (nat * bool)) : Prop :=
  forall l1 x l2, acc = l1 ++ x :: l2 ->
    forall y, y ∈ before ++ l1 -> y.1 = x.1 -> y.2 || x.2 = false.

Definition compatible (acc : list (nat * bool)) : Prop := fits_after [] acc.

Lemma fits_after_app before l1 l2 :
  fits_after before (l1 ++ l2) -> fits_after before l1 /\ fits_after (before ++ l1) l2.
Proof.
  intros Hf. split.
  - intros a x b ->. apply (Hf a x (b ++ l2)). by rewrite <- (assoc_L (++)).
  - intros a x b ->. rewrite <- (assoc_L (++) before). apply (Hf (l1 ++ a) x b).
    by rewrite (assoc_L (++)).
Qed.

Section Progress.
Context `{RealmTasks} `{!EqDecision Event} {V : Type} (code : nat -> @Lambda _ V)
  (util : outcome Processor) (fired : Event -> Prop) `{!Moment fired}.

(** ** Stores

    A store is ready when everything it granted is over; while a function's accesses
    are granted, [K] of them so far, the other stores still are. *)
Definition ready (s : @Store _ V) : Prop := forall l, fired (at_lane l (store_pre s)).
Definition stores_ready (o : @Objects _ V) : Prop := forall i s, o_stores o !! i = Some s -> ready s.

Definition ready_but (K : list (nat * bool)) (o : @Objects _ V) : Prop :=
  forall i s, o_stores o !! i = Some s -> forall l,
    ((i, true) ∉ K -> fired (rw_at l s)) /\
    ((i, true) ∉ K -> (i, false) ∉ K -> fired (war_at l s)).

Lemma stores_ready_but o : stores_ready o <-> ready_but [] o.
Proof.
  split; intros Hr i s Hi l.
  - specialize (Hr i s Hi l). apply (fired_store_pre fired) in Hr as [Hw Hr]. done.
  - destruct (Hr i s Hi l) as [Hrw Hwar]. apply (fired_store_pre fired).
    split; [apply Hwar|apply Hrw]; apply not_elem_of_nil.
Qed.

(** An access that fits the earlier ones of the function may start. *)
Lemma access_startable K (o : @Objects _ V) i s g s' o' :
  o_stores o !! i = Some s -> store_access s g s' -> o_stores o' = <[i := s']> (o_stores o) ->
  ready_but K o -> (forall y, y ∈ K -> y.1 = i -> y.2 || g_write g = false) ->
  (forall l, fired (at_lane l (g_pre g))) /\ ready_but (K ++ [(i, g_write g)]) o'.
Proof.
  intros Hi Ha Ho Hr Hfit.
  assert (Hno : (i, true) ∉ K) by (intros Hin; by specialize (Hfit _ Hin eq_refl)).
  assert (Hnor : g_write g = true -> (i, false) ∉ K).
  { intros Hw Hin. specialize (Hfit _ Hin eq_refl). cbn in Hfit. congruence. }
  split.
  - intros l. destruct (Hr i s Hi l) as [Hrw Hwar].
    destruct Ha as [s st ef|s st ef]; cbn [g_pre g_write] in *.
    + apply (fired_store_pre fired). split; [apply Hwar; auto|by apply Hrw].
    + rewrite at_rw_pre. by apply Hrw.
  - intros j t Hj l. rewrite Ho in Hj. destruct (decide (i = j)) as [<-|Hne].
    + rewrite list_lookup_insert_eq in Hj by (by eapply lookup_lt_Some). injection Hj as <-.
      destruct (Hr i s Hi l) as [Hrw Hwar].
      destruct Ha as [s st ef|s st ef]; cbn [g_write]; split.
      * set_solver.
      * set_solver.
      * intros _. by apply Hrw.
      * set_solver.
    + rewrite list_lookup_insert_ne in Hj by done. destruct (Hr j t Hj l) as [Hrw Hwar].
      split; [intros Hn|intros Hn Hn']; [apply Hrw|apply Hwar]; set_solver.
Qed.

Lemma accessed_startable (o o' : @Objects _ V) gs : accessed o gs o' -> forall K,
  ready_but K o -> fits_after K (grant_kind <$> gs) ->
  (forall x l, x ∈ gs -> fired (at_lane l (g_pre x.2))) /\ ready_but (K ++ (grant_kind <$> gs)) o'.
Proof.
  induction 1 as [o o' Hs _|o o' i s g s' Hi Ha Hs _|o1 o2 o3 gs gs' _ IH1 _ IH2]; intros K Hr Hf.
  - split; [by intros x l ?%not_elem_of_nil|]. cbn. rewrite app_nil_r.
    intros i s Hi. rewrite Hs in Hi. by apply Hr.
  - destruct (access_startable K o i s g s' o' Hi Ha Hs Hr) as [Hp Hr'].
    + intros y Hy Hyi. apply (Hf [] (i, g_write g) [] eq_refl y); [by rewrite app_nil_r|done].
    + split; [|exact Hr']. intros x l ->%list_elem_of_singleton. apply Hp.
  - rewrite fmap_app in Hf. apply fits_after_app in Hf as [Hf1 Hf2].
    destruct (IH1 K Hr Hf1) as [P1 R1]. destruct (IH2 _ R1 Hf2) as [P2 R2]. split.
    + intros x l [Hx|Hx]%elem_of_app; auto.
    + by rewrite fmap_app, (assoc_L (++)).
Qed.

(** Once the granted accesses are over as well, all stores are ready again. *)
Lemma accessed_over (o o' : @Objects _ V) gs : accessed o gs o' -> stores_ready o ->
  (forall x l, x ∈ gs -> fired (at_lane l (g_end x.2))) -> stores_ready o'.
Proof.
  induction 1 as [o o' Hs _|o o' i s g s' Hi Ha Hs _|o1 o2 o3 gs gs' _ IH1 _ IH2]; intros Hr He.
  - intros i s Hi. rewrite Hs in Hi. by apply (Hr i).
  - intros j t Hj l. rewrite Hs in Hj. destruct (decide (i = j)) as [<-|Hne].
    + rewrite list_lookup_insert_eq in Hj by (by eapply lookup_lt_Some). injection Hj as <-.
      pose proof (Hr i s Hi l) as Hl. apply (fired_store_pre fired) in Hl as [Hwar Hrw].
      assert (Hend : fired (at_lane l (g_end g))) by (apply (He (i, g)); by left).
      apply (fired_store_pre fired). destruct Ha as [s st ef|s st ef]; cbn [g_end] in Hend.
      * split; [destruct l; apply fired_no_event|]. by apply (fired_ready_after_at fired).
      * split; [|exact Hrw]. by apply (fired_add_reader fired).
    + rewrite list_lookup_insert_ne in Hj by done. by apply (Hr j).
  - apply IH2; [apply IH1; [done|]|]; intros x l Hx; apply He; set_solver.
Qed.

(** ** Entries

    The accesses of a function, by its arguments; and what its task waits for beside the
    program's stores. *)
Definition arg_pairs (f : nat) (args : list (@Arg _ V)) : list (@Arg _ V * Param) :=
  zip args (drop (length (l_params (code f)) - length args) (l_params (code f))).

Definition function_accesses (f : nat) (args : list (@Arg _ V)) : list (nat * bool) :=
  arg_pairs f args ≫= (fun p => arg_accesses p.1 p.2).

Definition compatible_entry (e : @Entry _ V) : Prop :=
  match e with Deferred _ f args _ _ => compatible (function_accesses f args) | Direct _ _ => True end.

Definition entry_foreign (e : @Entry _ V) : list Event :=
  match e with
  | Deferred ctx f args task _ =>
      option_list (Contexts.get_event ctx) ++
      concat (zip_with (fun p x => foreign_events (waits_on ctx) p.1 x) (arg_pairs f args) (arguments task))
  | Direct _ _ => []
  end.

(** A task is over when it has completed, given up its stream and the handles that it
    could pass on; an access of the program, when it says so. *)
Definition over (e : @Entry _ V) : Prop :=
  match e with
  | Deferred _ _ _ task _ =>
      fired (completion_event task) /\
      forall x l, x ∈ arguments task -> fired (at_lane l (access_end (task_end task) x))
  | Direct _ g => forall l, fired (at_lane l (g_end g))
  end.

(** What a task waits for: what its accesses were granted with, and the rest. *)
Lemma grants_startable ev l : forall (pairs : list (@Arg _ V * Param)) xs gss,
  Forall3 (fun p x gs => grants_of ev (arg_accesses p.1 p.2) x (fun l => foreign_events l p.1 x) gs) pairs xs gss ->
  (forall x, x ∈ concat gss -> fired (at_lane l (g_pre x.2))) ->
  Forall fired (concat (zip_with (fun p x => foreign_events l p.1 x) pairs xs)) ->
  Forall (fun x => Forall fired (handle_events l x)) xs.
Proof.
  induction 1 as [|p x gs pairs xs gss (_ & _ & _ & Hex) _ IH]; cbn; intros Hp Hf; [constructor|].
  apply Forall_app in Hf as [Hf1 Hf2]. rewrite Forall_forall in Hf1. constructor.
  - apply Forall_forall. intros e [He|(g & Hg & ->)]%Hex; [by apply Hf1|]. apply Hp. set_solver.
  - apply IH; [|done]. intros y Hy. apply Hp. set_solver.
Qed.

Lemma grants_kinds ev : forall (pairs : list (@Arg _ V * Param)) xs gss,
  Forall3 (fun p x gs => grants_of ev (arg_accesses p.1 p.2) x (fun l => foreign_events l p.1 x) gs) pairs xs gss ->
  grant_kind <$> concat gss = pairs ≫= (fun p => arg_accesses p.1 p.2).
Proof.
  induction 1 as [|p x gs pairs xs gss (Hk & _) _ IH]; [done|]. cbn. by rewrite fmap_app, Hk, IH.
Qed.

(** A deferred task may start when the stores were ready and so is the rest; and the
    stores are ready when it is over. *)
Lemma deferred_startable ctx p f args s tok s' task w :
  defer_result code ctx p f args s tok s' task w -> compatible (function_accesses f args) ->
  stores_ready (sys_objects s) ->
  (Forall fired (entry_foreign (Deferred ctx f args task w)) -> fired (start_precondition ctx task)) /\
  (over (Deferred ctx f args task w) -> stores_ready (sys_objects s')).
Proof.
  intros R Hcomp Hr.
  destruct (dr_args _ _ _ _ _ _ _ _ _ _ R) as (st & o1 & o2 & Est & Ho1 & Hargs & Ho2).
  apply ToTaskArguments_accessed in Hargs as (gss & Hacc & H3).
  assert (mkPre st (completion_event task) = task_end task) as Hte by (unfold task_end; by rewrite Est).
  rewrite Hte in H3. change (Forall3 (fun p x gs => grants_of (task_end task) (arg_accesses p.1 p.2) x
    (fun l => foreign_events l p.1 x) gs) (arg_pairs f args) (arguments task) gss) in H3.
  assert (Hr1 : stores_ready o1) by (intros i t Hi; rewrite Ho1 in Hi; by apply (Hr i)).
  destruct (accessed_startable o1 o2 _ Hacc []) as [Hp _].
  { by apply stores_ready_but. }
  { by rewrite (grants_kinds _ _ _ _ H3). }
  split.
  - intros [He Hf]%Forall_app. apply (start_ready code fired _ _ _ _ _ _ _ _ _ R). split.
    + intros e Ee. rewrite Ee in He. rewrite Forall_forall in He. apply He. by left.
    + apply (grants_startable (task_end task) (waits_on ctx) (arg_pairs f args) (arguments task) gss); [done| |done].
      intros x. by apply Hp.
  - intros [_ Hend] i t Hi. rewrite Ho2 in Hi. revert i t Hi.
    apply (accessed_over o1 o2 _ Hacc Hr1). intros ig l Hin.
    destruct (task_grants code fired _ _ _ _ H3) as [_ Hgs]. destruct (Hgs ig Hin) as (x & Hx & -> & _).
    by apply Hend.
Qed.

(** ** Programs *)
Definition can_start (e : @Entry _ V) : Prop :=
  match e with Deferred ctx _ _ task _ => fired (start_precondition ctx task) | Direct _ _ => True end.

Lemma exec_startable s0 tr s : exec code util s0 tr s -> stores_ready (sys_objects s0) ->
  Forall compatible_entry tr ->
  (Forall over tr -> stores_ready (sys_objects s)) /\
  (forall b e, tr !! b = Some e -> Forall over (take b tr) -> Forall fired (entry_foreign e) -> can_start e).
Proof.
  intros Hex Hr0. induction Hex as [|tr s ctx f args tok s' task _ IH Hd Ht
    |tr s i st oper g st' rt' _ IH Hi Hst|tr s s' _ IH Hun]; intros Hc.
  - by split.
  - apply Forall_app in Hc as [Hc Hce]. rewrite Forall_singleton in Hce. destruct (IH Hc) as [Hr Hs]. clear IH.
    destruct (defer_made_task code util _ _ _ _ _ _ _ Hd Ht) as [p R].
    pose proof (deferred_startable _ _ _ _ _ _ _ _ _ R Hce) as Hdef. split.
    + intros [Ho Hoe]%Forall_app. rewrite Forall_singleton in Hoe. exact (proj2 (Hdef (Hr Ho)) Hoe).
    + intros b e Hb Ho Hf. apply lookup_app_Some in Hb as [Hb|[Hlen Hb]].
      * rewrite take_app_le in Ho by (apply lookup_lt_Some in Hb; lia). by apply (Hs b e).
      * apply list_lookup_singleton_Some in Hb as [Hb <-].
        replace b with (length tr) in Ho by lia. rewrite take_app_length in Ho.
        exact (proj1 (Hdef (Hr Ho)) Hf).
  - apply Forall_app in Hc as [Hc _]. destruct (IH Hc) as [Hr Hs]. clear IH. split.
    + intros [Ho Hoe]%Forall_app. rewrite Forall_singleton in Hoe. cbn in Hoe.
      assert (Hacc : accessed (sys_objects s) [(i, g)] (put_store i st' (set_o_rt rt' (sys_objects s)))).
      { destruct (store_step_log _ _ _ _ _ _ Hst) as [Hl Hu].
        by eapply accessed_one; [|by eapply store_step_access| |]. }
      apply (accessed_over _ _ _ Hacc (Hr Ho)). by intros x l ->%list_elem_of_singleton.
    + intros b e Hb Ho Hf. apply lookup_app_Some in Hb as [Hb|[Hlen Hb]].
      * rewrite take_app_le in Ho by (apply lookup_lt_Some in Hb; lia). by apply (Hs b e).
      * by apply list_lookup_singleton_Some in Hb as [_ <-].
  - destruct (IH Hc) as [Hr Hs]. split; [|done]. intros Ho i t Hi.
    rewrite (un_stores _ _ _ Hun) in Hi. by apply (Hr Ho i).
Qed.

(** The event of every task is triggered with what it waits for. *)
Definition entry_triggered (s : @System _ V) (e : @Entry _ V) : Prop :=
  match e with
  | Deferred ctx _ _ task w => (w, start_precondition ctx task) ∈ triggered (sys_rt s)
  | Direct _ _ => True
  end.

Lemma exec_triggered s0 tr s : exec code util s0 tr s -> Forall (entry_triggered s) tr.
Proof.
  intros Hex. induction Hex as [|tr s ctx f args tok s' task _ IH Hd Ht
    |tr s i st oper g st' rt' _ IH Hi Hst|tr s s' _ IH Hun]; [constructor|..].
  - destruct (defer_made_task code util _ _ _ _ _ _ _ Hd Ht) as [p R].
    pose proof (dr_log _ _ _ _ _ _ _ _ _ _ R) as Hl. apply Forall_app. split.
    + eapply Forall_impl; [exact IH|]. intros [] He; [|done]. cbn in *. rewrite Hl. set_solver.
    + apply Forall_singleton. cbn. rewrite Hl. set_solver.
  - destruct (store_step_log _ _ _ _ _ _ Hst) as [Hl _]. apply Forall_app. split; [|by apply Forall_singleton].
    eapply Forall_impl; [exact IH|]. intros [] He; [|done]. cbn in *.
    change (sys_rt (set_objects _ s)) with rt'. by rewrite Hl.
  - destruct (un_kept _ _ _ Hun) as [k Hk].
    eapply Forall_impl; [exact IH|]. intros [] He; [|done]. cbn in *. rewrite Hk. set_solver.
Qed.
End Progress.

(** ** Property *)

(** C9: the tasks of a program never wait for each other in a circle.  In any program that
    defers functions on its stores, and itself uses the stores, take a moment in which
    nothing is left to do: every trigger was carried out, Realm ran the tasks that may
    start, and their functions returned and gave back their streams and what they could
    pass on.  If no function was given a store twice with a write, and the other things
    that a task was given, its context's event, futures and views, and the program's own
    accesses are over once the earlier operations are, then every task has started, and
    all operations are over.  A function that is given a store twice waits for itself
    ([own_store_twice_deadlocks]). *)
Theorem tasks_all_run `{RealmTasks} `{!EqDecision Event} {V : Type}
    (code : nat -> Lambda (V := V)) (util : outcome Processor) (s0 s : System) (tr : list Entry)
    (fired : Event -> Prop) (Hm : Moment fired)
    (Hex : exec code util s0 tr s) (Hstores : stores_ready fired (sys_objects s0))
    (Hcomp : Forall (compatible_entry code) tr)
    (Hprompt : prompt fired (triggered (sys_rt s)))
    (Hruns : forall ctx f args task w, Deferred ctx f args task w ∈ tr ->
       fired (user_event w) -> over fired (Deferred ctx f args task w))
    (Hrest : forall b e, tr !! b = Some e -> Forall (over fired) (take b tr) ->
       Forall fired (entry_foreign code e) /\ forall i g, e = Direct i g -> over fired e) :
  Forall (over fired) tr /\
  forall ctx f args task w, Deferred ctx f args task w ∈ tr -> fired (user_event w).
Proof.
  destruct (exec_startable code util fired s0 tr s Hex Hstores Hcomp) as [_ Hstart].
  pose proof (exec_triggered code util fired s0 tr s Hex) as Htrig.
  assert (Hstarts : forall b ctx f args task w, tr !! b = Some (Deferred ctx f args task w) ->
    Forall (over fired) (take b tr) -> fired (user_event w)).
  { intros b ctx f args task w Hb Ho. destruct (Hrest b _ Hb Ho) as [Hf _].
    pose proof (Hstart b _ Hb Ho Hf) as Hs. rewrite Forall_forall in Htrig.
    by apply (Hprompt w (start_precondition ctx task)), Hs;
      apply (Htrig _ (list_elem_of_lookup_2 _ _ _ Hb)). }
  assert (Hall : forall b, Forall (over fired) (take b tr)).
  { intros b. induction b as [|b IH]; [constructor|]. destruct (tr !! b) as [e|] eqn:Hb.
    - rewrite (take_S_r _ _ _ Hb). apply Forall_app. split; [done|]. apply Forall_singleton.
      destruct e as [ctx f args task w|i g].
      + apply Hruns; [by eapply list_elem_of_lookup_2|by apply (Hstarts b ctx f args task w)].
      + by eapply (proj2 (Hrest b _ Hb IH)).
    - apply lookup_ge_None in Hb. rewrite take_ge in IH |- * by lia. done. }
  split; [by rewrite <- (take_ge tr (length tr))|].
  intros ctx f args task w [b Hb]%list_elem_of_lookup. by apply (Hstarts b ctx f args task w).
Qed.

(** A function that keeps a child of store 0, and then one that reads the store: the child
    has the user event 1, the tasks wait for 0 and 2. *)
Definition kept_then_read : System (V := nat) :=
  let s1 := (_defer example_code example_util [] 2 [AStore 0] example_system).2 in
  (_defer example_code example_util [] 1 [AStore 0] s1).2.

(** The moment at which both tasks have completed and the child was released. *)
Definition all_run (e : @Event example_events) : Prop :=
  fires (fun k => k <? 2)%nat (fun u => u <? 3)%nat e = true.

#[local] Instance all_run_moment : Moment all_run.
Proof. apply fires_moment. Qed.

(** An operation that waits for nothing else and has a store of the program. *)
Lemma one_store_over ctx f args t w x : arguments t = [x] -> all_run (completion_event t) ->
  all_run (stream (access_end (task_end t) x)) -> all_run (effects (access_end (task_end t) x)) ->
  over all_run (Deferred (V := nat) ctx f args t w).
Proof. intros Ha Hc Hs He. split; [done|]. rewrite Ha. by intros y [] ->%list_elem_of_singleton. Qed.

Lemma tasks_all_run_witness : all_run (task_event 1).
Proof.
  set (s1 := (_defer example_code example_util [] 2 [AStore 0] example_system).2).
  assert (exists t1 c, sys_tasks s1 = [Some t1] /\ completion_event t1 = task_event 0 /\
      arguments t1 = [SStore c] /\ parent_notification_event c = Some 1%nat)
    as (t1 & c & E1 & C1 & A1 & N1) by (do 2 eexists; split_and!; vm_compute; reflexivity).
  assert (exists t2 v, sys_tasks kept_then_read = [Some t1; Some t2] /\
      completion_event t2 = task_event 1 /\ task_context t2 = [] /\ arguments t2 = [SView v] /\ war_dependency v = None)
    as (t2 & v & E2 & C2 & X2 & A2 & N2).
  { do 2 eexists. split; [rewrite <- (app_nil_r [_; _]); change [Some t1; Some ?x] with ([Some t1] ++ [Some x]);
      rewrite <- E1; vm_compute; reflexivity|]. split_and!; vm_compute; reflexivity. }
  set (e1 := Deferred (V := nat) [] 2 [AStore 0] t1 0). set (e2 := Deferred (V := nat) [] 1 [AStore 0] t2 2).
  assert (Hex : exec example_code example_util example_system [e1; e2] kept_then_read).
  { apply (exec_defer _ _ _ [e1] s1 [] 1 [AStore 0] (mkToken (task_event 1) [FVoid (task_event 1)] None));
      [|vm_compute; reflexivity|by rewrite E1].
    apply (exec_defer _ _ _ [] example_system [] 2 [AStore 0]
      (mkToken (merge_events [task_event 0]) [FVoid (task_event 0)] None));
      [constructor|vm_compute; reflexivity|by rewrite E1]. }
  assert (H1 : over all_run e1).
  { apply (one_store_over _ _ _ _ _ _ A1); [by rewrite C1|..]; unfold access_end, open_event; by rewrite N1. }
  assert (H2 : over all_run e2).
  { apply (one_store_over _ _ _ _ _ _ A2); [by rewrite C2|..]; unfold access_end, open_event, task_end;
      rewrite N2, C2, ?X2; reflexivity. }
  destruct (tasks_all_run example_code example_util example_system kept_then_read [e1; e2] all_run _ Hex)
    as [Hover _].
  - intros i s [_ <-]%list_lookup_singleton_Some l. by destruct l.
  - repeat constructor; intros [|a [|]] x l2 [= <- <-] y; cbn; by intros ?%not_elem_of_nil.
  - assert (El : exists e e', triggered (sys_rt kept_then_read) = [(0%nat, e); (2%nat, e')])
      by (do 2 eexists; vm_compute; reflexivity).
    destruct El as (e & e' & ->). intros u x Hin _. 
    assert (Hu : u = 0%nat \/ u = 2%nat) by set_solver. by destruct Hu as [-> | ->].
  - intros ctx f args task w [E|[E|[]%elem_of_nil]%elem_of_cons]%elem_of_cons _; by rewrite E.
  - intros b e Hb _. assert (He : e = e1 \/ e = e2) by (destruct b as [|[|]]; naive_solver).
    split; [|by destruct He as [-> | ->]].
    destruct He as [-> | ->]; cbn; [rewrite A1|rewrite A2]; constructor.
  - rewrite Forall_cons, Forall_singleton in Hover. destruct Hover as [_ [Hc _]]. by rewrite C2 in Hc.
Defined.
