(* ===== verification/Lifetimes.v ===== *)
(** The lifetime of the task objects that [_defer] allocates (src/zuku/defer.h,
    task.cc): the launcher deletes the task of a CPU when it has run; the task of a
    GPU is deleted by a Realm task of its own, which waits for its completion. Here
    Realm runs the spawned tasks in any order that respects their events, while the
    program and the functions of the tasks defer more. *)
From stdpp Require Import base tactics list numbers option strings sets.
From Stdlib Require Import ZArith Lia.
From S2P Require Import Prelude Events Mesh Handles Promises TaskArguments.
From S2P Require Contexts.
From S2P Require Import Processor Tasks TaskSpecs.

Section Lifetimes.
Context `{RealmTasks} `{!EqDecision Event} {V : Type} (moved_value : V -> V).
Context (code : nat -> Lambda (V := V)) (util : outcome Processor) (deferred : bool) (fuel : nat).

(** What the program and the functions of tasks do: defer, and whatever else leaves
    the tasks alone. *)
Record same_tasks (s s' : @System _ V) : Prop := mkSameTasks {
  st_tasks : sys_tasks s' = sys_tasks s;
  st_spawned : sys_spawned s' = sys_spawned s;
  st_ids : sys_task_ids s' = sys_task_ids s;
  st_next : sys_next_id s' = sys_next_id s;
}.

Inductive acts : @System _ V -> @System _ V -> Prop :=
| acts_other s s' : same_tasks s s' -> acts s s'
| acts_defer ctx f args s tok s' : _defer code util ctx f args s = (Ret tok, s') -> acts s s'
| acts_trans s1 s2 s3 : acts s1 s2 -> acts s2 s3 -> acts s1 s3.

(** Realm runs the [i]-th spawned task: the handler of its id. *)
Definition execute (i : nat) : SM (@System _ V) unit := fun s =>
  match sys_spawned s !! i with
  | Some sp =>
      match sp_task sp with
      | Some tid =>
          if decide (sp_func sp = DELETE_TASK) then deferred_task_delete deferred tid s
          else deferred_task_launcher moved_value code util deferred fuel tid s
      | None => (Ret tt, s)                       (* deferred_task_profile_stop *)
      end
  | None => (Undef OutOfRange, s)
  end.

(** A task that waits for the completion of another runs after it. *)
Definition may_run (ran : list nat) (s : @System _ V) (i : nat) : Prop :=
  forall sp k, sys_spawned s !! i = Some sp -> sp_wait sp = task_event k -> k ∈ ran.

(** The executions: the tasks that ran, and the state. *)
Inductive execution : list nat -> @System _ V -> Prop :=
| execution_start s :
    sys_tasks s = [] -> sys_spawned s = [] -> ids_above s -> execution [] s
| execution_acts ran s s' : execution ran s -> acts s s' -> execution ran s'
| execution_run ran s s' i :
    execution ran s -> i ∉ ran -> may_run ran s i -> execute i s = (Ret tt, s') ->
    execution (i :: ran) s'.

(** ** The ledger

    For every task object the spawned task that launches it and, for a GPU, the one
    that deletes it. *)
Definition last_use (x : nat * option nat) : nat := default x.1 x.2.

Definition on_gpu (t : @Task _ V) : Prop := type_ (task_proc (task_base t)) = GPU.

Definition launches (s : @System _ V) (k tid : nat) : Prop :=
  exists sp, sys_spawned s !! k = Some sp /\ sp_task sp = Some tid /\ sp_func sp <> DELETE_TASK.

Definition deletes (s : @System _ V) (i k tid : nat) : Prop :=
  exists sp, sys_spawned s !! i = Some sp /\ sp_task sp = Some tid /\ sp_func sp = DELETE_TASK /\
    sp_wait sp = task_event k.

Record ledger (ran : list nat) (L : list (nat * option nat)) (s : @System _ V) : Prop := mkLedger {
  lg_length : length L = length (sys_tasks s);
  lg_spawn i sp tid : sys_spawned s !! i = Some sp -> sp_task sp = Some tid ->
    (exists d, L !! tid = Some (i, d)) \/ (exists k, L !! tid = Some (k, Some i));
  lg_launch tid k d : L !! tid = Some (k, d) -> launches s k tid;
  lg_delete tid k i : L !! tid = Some (k, Some i) -> deletes s i k tid;
  lg_gone tid x : L !! tid = Some x -> last_use x ∈ ran -> sys_tasks s !! tid = Some None;
  lg_live tid x : L !! tid = Some x -> last_use x ∉ ran ->
    exists t, sys_tasks s !! tid = Some (Some t) /\ (on_gpu t <-> is_Some x.2);
  lg_order tid k i : L !! tid = Some (k, Some i) -> i ∈ ran -> k ∈ ran;
  lg_bound i : i ∈ ran -> (i < length (sys_spawned s))%nat;
  lg_ids : ids_above s;
}.

Lemma launches_same s s' k tid :
  sys_spawned s `prefix_of` sys_spawned s' -> launches s k tid -> launches s' k tid.
Proof. intros [l E] (sp & Hk & Hr). exists sp. rewrite E. by rewrite (lookup_app_l_Some _ _ _ _ Hk). Qed.

Lemma deletes_same s s' i k tid :
  sys_spawned s `prefix_of` sys_spawned s' -> deletes s i k tid -> deletes s' i k tid.
Proof. intros [l E] (sp & Hk & Hr). exists sp. rewrite E. by rewrite (lookup_app_l_Some _ _ _ _ Hk). Qed.

Lemma ledger_same ran L s s' : same_tasks s s' -> ledger ran L s -> ledger ran L s'.
Proof.
  intros [Et Es Ei En] [A B C D E F G I J]. unfold launches, deletes in *.
  split; unfold launches, deletes; rewrite ?Et, ?Es; try done.
  unfold ids_above in *. by rewrite Ei, En.
Qed.

(** Replacing a live task by one of the same kind. *)
Lemma ledger_put ran L s tid x t :
  ledger ran L s -> L !! tid = Some x -> last_use x ∉ ran -> (on_gpu t <-> is_Some x.2) ->
  ledger ran L (set_tasks (<[tid := Some t]> (sys_tasks s)) s).
Proof.
  intros [A B C D E F G I J] Hx Hr Ht.
  pose proof (lookup_lt_Some _ _ _ Hx) as Hlt. rewrite A in Hlt.
  split; cbn; try done; rewrite ?length_insert; try done.
  - intros tid' y Hy Hy'. destruct (decide (tid' = tid)) as [->|Hne].
    + by rewrite Hx in Hy; injection Hy as <-.
    + rewrite list_lookup_insert_ne by done. eauto.
  - intros tid' y Hy Hy'. destruct (decide (tid' = tid)) as [->|Hne].
    + rewrite Hx in Hy. injection Hy as <-. exists t. by rewrite list_lookup_insert_eq.
    + rewrite list_lookup_insert_ne by done. eauto.
Qed.

(** A spawned task that has nothing to do with the objects. *)
Lemma ledger_spawn_none ran L s sp :
  sp_task sp = None -> ledger ran L s -> ledger ran L (add_spawn sp s).
Proof.
  intros Hn [A B C D E F G I J].
  assert (sys_spawned s `prefix_of` sys_spawned (add_spawn sp s)) as Hp by by eexists.
  split; cbn; try done.
  - intros i sp' tid Hi Ht. apply lookup_app_Some in Hi as [Hi|[_ Hi]]; [eauto|].
    apply list_lookup_singleton_Some in Hi as [_ <-]. by rewrite Hn in Ht.
  - intros tid k d HL. eapply launches_same; eauto.
  - intros tid k d HL. eapply deletes_same; eauto.
  - intros i Hi. rewrite length_app. apply I in Hi. lia.
Qed.

(** A spawned task is used by one object, in one way. *)
Lemma last_use_task ran L s tid x sp :
  ledger ran L s -> L !! tid = Some x -> sys_spawned s !! last_use x = Some sp -> sp_task sp = Some tid.
Proof.
  intros Hl Hx Hs. destruct x as [k [i|]]; cbn in Hs.
  - destruct (lg_delete _ _ _ Hl _ _ _ Hx) as (sp' & E & Ht & _). congruence.
  - destruct (lg_launch _ _ _ Hl _ _ _ Hx) as (sp' & E & Ht & _). congruence.
Qed.

Lemma last_use_spawned ran L s tid x :
  ledger ran L s -> L !! tid = Some x -> is_Some (sys_spawned s !! last_use x).
Proof.
  intros Hl Hx. destruct x as [k [i|]]; cbn.
  - by destruct (lg_delete _ _ _ Hl _ _ _ Hx) as (sp & -> & _).
  - by destruct (lg_launch _ _ _ Hl _ _ _ Hx) as (sp & -> & _).
Qed.

(** ** Deferring *)
Lemma MergePreconditions_proc t t' : MergePreconditions t = Ret t' -> task_proc t' = task_proc t.
Proof.
  unfold MergePreconditions. destruct (merged_precondition t); [done|].
  by destruct (individual_preconditions t) as [|e [|e' es]]; intros [= <-].
Qed.

(** The entry of a new task, when [n] tasks have been spawned. *)
Definition new_entry (p : Processor) (n : nat) : nat * option nat :=
  (n, if decide (type_ p = GPU) then Some (S n) else None).

Lemma ledger_defer ran L s ctx p f args tok s' task w :
  ledger ran L s -> defer_result code ctx p f args s tok s' task w ->
  ledger ran (L ++ [new_entry p (length (sys_spawned s))]) s'.
Proof.
  intros Hl R. pose proof (dr_tasks _ _ _ _ _ _ _ _ _ _ R) as Et.
  destruct (dr_spawns _ _ _ _ _ _ _ _ _ _ R) as (func & n & u & Es & Hf).
  destruct (Hf (lg_ids _ _ _ Hl)) as [Hfunc Hids]. clear Hf.
  assert (type_ (task_proc (task_base task)) = type_ p) as Hp.
  { by rewrite (MergePreconditions_proc _ _ (dr_merged _ _ _ _ _ _ _ _ _ _ R)). }
  set (N := length (sys_spawned s)) in *. set (T := length (sys_tasks s)) in *.
  assert (sys_spawned s `prefix_of` sys_spawned s') as Hpre by apply (dr_spawned _ _ _ _ _ _ _ _ _ _ R).
  assert (length L = T) as HT by apply (lg_length _ _ _ Hl).
  assert (sys_spawned s' !! N = Some (mkSpawn (proc_ p) func (Some T) (user_event w) n)) as HN.
  { rewrite Es. by apply list_lookup_middle. }
  assert (forall tid x, (L ++ [new_entry p N]) !! tid = Some x ->
            L !! tid = Some x \/ tid = T /\ x = new_entry p N) as HL.
  { intros tid x [Hx|[Hge Hx]]%lookup_app_Some; [by left|]. right.
    apply list_lookup_singleton_Some in Hx as [Hx <-]. split; [lia|done]. }
  assert (forall tid x, L !! tid = Some x -> (tid < T)%nat) as Hlt.
  { intros tid x Hx. apply lookup_lt_Some in Hx. lia. }
  assert (last_use (new_entry p N) ∉ ran) as Hfresh.
  { intros Hin. apply (lg_bound _ _ _ Hl) in Hin. unfold new_entry in Hin.
    destruct (decide _); cbn in Hin; fold N in Hin; lia. }
  split; rewrite ?Et.
  - rewrite !length_app. cbn. lia.
  - intros i sp tid Hi Hsp. rewrite Es in Hi. apply lookup_app_Some in Hi as [Hi|[Hge Hi]].
    { destruct (lg_spawn _ _ _ Hl _ _ _ Hi Hsp) as [[d Hd]|[k Hk]]; [left; exists d|right; exists k];
        by apply lookup_app_l_Some. }
    fold N in Hge, Hi. assert ((L ++ [new_entry p N]) !! T = Some (new_entry p N)) as HLT.
    { rewrite <- HT. by apply list_lookup_middle. }
    destruct (i - N)%nat as [|[|j]] eqn:Ei.
    + cbn in Hi. injection Hi as <-. cbn in Hsp. injection Hsp as <-. left. eexists.
      rewrite HLT. replace i with N by lia. reflexivity.
    + cbn in Hi. destruct (decide (type_ p = GPU)) as [Hg|]; [|done]. injection Hi as <-.
      cbn in Hsp. injection Hsp as <-. right. exists N. rewrite HLT. unfold new_entry.
      rewrite decide_True by done. by replace i with (S N) by lia.
    + cbn in Hi. by destruct (decide (type_ p = GPU)).
  - intros tid k d [Hx|[-> Hx]]%HL.
    + eapply launches_same; [done|]. by eapply (lg_launch _ _ _ Hl).
    + injection Hx as -> _. eexists. split; [exact HN|]. split; [done|exact Hfunc].
  - intros tid k i [Hx|[-> Hx]]%HL.
    + eapply deletes_same; [done|]. by eapply (lg_delete _ _ _ Hl).
    + unfold new_entry in Hx. destruct (decide (type_ p = GPU)) as [Hg|]; [|done].
      injection Hx as -> ->. eexists. split; [|split; [|split]].
      { rewrite Es, lookup_app_r by (fold N; lia). fold N.
        replace (S N - N)%nat with 1%nat by lia. reflexivity. }
      all: reflexivity.
  - intros tid x [Hx|[-> ->]]%HL Hin; [|done].
    apply lookup_app_l_Some. by eapply (lg_gone _ _ _ Hl).
  - intros tid x [Hx|[-> ->]]%HL Hin.
    + destruct (lg_live _ _ _ Hl _ _ Hx Hin) as (t & Ht & Hg). exists t. split; [|done].
      by apply lookup_app_l_Some.
    + exists task. split; [by apply list_lookup_middle|]. unfold on_gpu, new_entry. rewrite Hp.
      destruct (decide (type_ p = GPU)) as [->|]; cbn; [by split; eauto|]. split; [done|]. by intros [].
  - intros tid k i [Hx|[-> Hx]]%HL Hin; [by eapply (lg_order _ _ _ Hl)|].
    unfold new_entry in Hx, Hfresh. destruct (decide _); [|done]. injection Hx as -> ->. done.
  - intros i Hi. apply (lg_bound _ _ _ Hl) in Hi. rewrite Es, length_app. lia.
  - done.
Qed.

(** A processor that does not take part gets no task. *)
Lemma defer_cases ctx f args s tok s' : _defer code util ctx f args s = (Ret tok, s') ->
  s' = s \/ exists p task w, defer_result code ctx p f args s tok s' task w.
Proof.
  unfold _defer. intros (p & s1 & E1 & E)%sm_bind_inv. apply sm_lift_inv in E1 as [_ ->].
  destruct (_ && _); [done|]. apply sm_bind_inv in E as (b & s2 & E2 & E).
  apply sm_lift_inv in E2 as [_ ->]. destruct b.
  - right. apply defer_task_spec in E as (task & w & R). by exists p, task, w.
  - left. by injection E as _ <-.
Qed.

Lemma ledger_acts s s' : acts s s' -> forall ran L, ledger ran L s ->
  exists L', L `prefix_of` L' /\ ledger ran L' s'.
Proof.
  induction 1 as [s s' Hs|ctx f args s tok s' E|s1 s2 s3 _ IH1 _ IH2]; intros ran L Hl.
  - exists L. split; [done|]. by eapply ledger_same.
  - apply defer_cases in E as [->|(p & task & w & R)]; [by exists L|].
    eexists. split; [|by eapply ledger_defer]. by eexists.
  - destruct (IH1 _ _ Hl) as (L1 & P1 & Hl1). destruct (IH2 _ _ Hl1) as (L2 & P2 & Hl2).
    exists L2. split; [by etrans|done].
Qed.

(** ** Running a task

    The functions of the program act like the program. *)
Hypothesis bodies_act : forall f rs s r s', l_body (code f) rs s = (Ret r, s') -> acts s s'.

(** While the task [tid] with entry [x] runs: an operation keeps the ledger, and what
    it returns has the property [Q]. *)
Section Running.
Context (ran : list nat) (tid : nat) (x : nat * option nat) (Hx : last_use x ∉ ran).

Definition keeps {A} (Q : A -> Prop) (m : SM (@System _ V) A) : Prop :=
  forall s a s', m s = (Ret a, s') -> forall L, ledger ran L s -> L !! tid = Some x ->
    Q a /\ exists L', L `prefix_of` L' /\ ledger ran L' s'.

Lemma ledger_bind {A B} (Q : A -> Prop) (R : B -> Prop) m (f : A -> SM (@System _ V) B) :
  keeps Q m -> (forall a, Q a -> keeps R (f a)) -> keeps R (m ≫= f).
Proof.
  intros Hm Hf s b s' E L Hl HL. apply sm_bind_inv in E as (a & s1 & E1 & E).
  destruct (Hm _ _ _ E1 L Hl HL) as (Ha & L1 & P1 & Hl1).
  assert (L1 !! tid = Some x) as HL1 by by eapply prefix_lookup_Some.
  destruct (Hf a Ha _ _ _ E L1 Hl1 HL1) as (Hb & L2 & P2 & Hl2).
  split; [done|]. exists L2. split; [by etrans|done].
Qed.

Lemma ledger_ret {A} (Q : A -> Prop) a : Q a -> keeps Q (mret a).
Proof. intros Ha s b s' [= <- <-] L Hl _. split; [done|]. by exists L. Qed.

Lemma keeps_same {A} (m : SM (@System _ V) A) :
  (forall s a s', m s = (Ret a, s') -> same_tasks s s') -> keeps (fun _ => True) m.
Proof. intros Hm s a s' E L Hl _. split; [done|]. exists L. split; [done|]. eapply ledger_same; eauto. Qed.

Lemma keeps_objs {A} (m : SM (@Objects _ V) A) : keeps (fun _ => True) (on_objs m).
Proof. apply keeps_same. intros s a s' (o & _ & ->)%on_objs_inv. by split. Qed.

Lemma keeps_heap {A} (m : SM (@Heap _ V) A) : keeps (fun _ => True) (on_sys_heap m).
Proof. apply keeps_objs. Qed.

Lemma ledger_lift {A} (r : outcome A) : keeps (fun _ => True) (sm_lift r).
Proof. apply keeps_same. intros s a s' [_ ->]%sm_lift_inv. by split. Qed.

Lemma keeps_acts {A} (m : SM (@System _ V) A) :
  (forall s a s', m s = (Ret a, s') -> acts s s') -> keeps (fun _ => True) m.
Proof. intros Hm s a s' E L Hl _. split; [done|]. eapply ledger_acts; eauto. Qed.

(** The task is there, and of the kind that its entry says. *)
Lemma keeps_get_task : keeps (fun t => on_gpu t <-> is_Some x.2) (get_task tid).
Proof.
  intros s t s' E L Hl HL. destruct (lg_live _ _ _ Hl _ _ HL Hx) as (t' & Ht & Hg).
  unfold get_task in E. rewrite Ht in E. injection E as <- <-. split; [done|]. by exists L.
Qed.

Lemma keeps_put t : (on_gpu t <-> is_Some x.2) -> keeps (fun _ => True) (put_task tid (Some t)).
Proof.
  intros Ht s a s' [= <- <-] L Hl HL. split; [done|]. exists L. split; [done|]. by eapply ledger_put.
Qed.

Lemma keeps_spawn_none sp : sp_task sp = None -> keeps (fun _ => True) (spawn sp).
Proof.
  intros Hn s a s' [= <- <-] L Hl HL. split; [done|]. exists L. split; [done|].
  by apply ledger_spawn_none.
Qed.

Lemma keeps_dispatch_void t : (on_gpu t <-> is_Some x.2) ->
  keeps (fun _ => True) (dispatch_void moved_value code fuel tid t).
Proof.
  intros Ht. unfold dispatch_void. eapply ledger_bind; [apply keeps_objs|intros rs _].
  eapply ledger_bind; [by apply keeps_put|intros _ _].
  eapply ledger_bind; [apply keeps_acts; intros; by eapply bodies_act|intros [results recorded] _].
  destruct (_ && _); [apply ledger_lift|by apply ledger_ret].
Qed.

Lemma keeps_dispatch t : (on_gpu t <-> is_Some x.2) ->
  keeps (fun _ => True) (dispatch moved_value code fuel tid t).
Proof.
  intros Ht. unfold dispatch. eapply ledger_bind; [apply keeps_objs|intros rs _].
  eapply ledger_bind; [by apply keeps_put|intros _ _].
  eapply ledger_bind; [apply keeps_acts; intros; by eapply bodies_act|intros [results recorded] _].
  eapply ledger_bind; [apply keeps_heap|intros ps _]. by apply keeps_put.
Qed.

Lemma keeps_invoke : keeps (fun _ => True) (Invoke moved_value code util fuel tid).
Proof.
  unfold Invoke. eapply ledger_bind; [apply keeps_get_task|intros t Ht].
  eapply ledger_bind; [destruct (l_ret _); [by apply keeps_dispatch|by apply keeps_dispatch_void]|].
  intros _ _. eapply ledger_bind; [destruct (Contexts.get_control _);
                                    [apply keeps_heap|by apply ledger_ret]|intros _ _].
  destruct (Contexts.get_region _); [|by apply ledger_ret].
  eapply ledger_bind; [apply ledger_lift|intros u _].
  eapply ledger_bind; [by apply keeps_spawn_none|intros _ _]. by apply ledger_ret.
Qed.
End Running.

(** ** After a task ran *)

(** The last use of an object: it is deleted, and no other object is concerned. *)
Lemma ledger_delete ran L s tid x s' :
  ledger ran L s -> L !! tid = Some x -> last_use x ∉ ran -> (forall k i, x = (k, Some i) -> k ∈ ran) ->
  deferred_task_delete deferred tid s = (Ret tt, s') -> ledger (last_use x :: ran) L s'.
Proof.
  intros Hl Hx Hr Hk E. unfold deferred_task_delete in E.
  apply sm_bind_inv in E as (t & s1 & E1 & E). unfold get_task in E1. injection E1 as _ ->.
  apply sm_bind_inv in E as ([] & s2 & E2 & E). apply on_sys_heap_inv in E2 as (h & _ & ->).
  injection E as <-.
  set (s2 := set_objects _ s1) in *. assert (same_tasks s1 s2) as Hsame by done.
  pose proof (ledger_same _ _ _ _ Hsame Hl) as Hl'. clear Hl.
  pose proof (lookup_lt_Some _ _ _ Hx) as Hlt. rewrite (lg_length _ _ _ Hl') in Hlt.
  assert (forall tid' y, L !! tid' = Some y -> last_use y = last_use x -> tid' = tid) as Huse.
  { intros tid' y Hy Hyx. destruct (last_use_spawned _ _ _ _ _ Hl' Hx) as [sp Hsp].
    pose proof (last_use_task _ _ _ _ _ _ Hl' Hx Hsp). rewrite <- Hyx in Hsp.
    pose proof (last_use_task _ _ _ _ _ _ Hl' Hy Hsp). congruence. }
  pose proof Hl' as [A B C D E F G I J]. split; cbn; rewrite ?length_insert; try done.
  - intros tid' y Hy Hin. destruct (decide (tid' = tid)) as [->|Hne]; [by apply list_lookup_insert_eq|].
    rewrite list_lookup_insert_ne by done.
    apply elem_of_cons in Hin as [Heq|Hin]; [by destruct (Hne (Huse _ _ Hy Heq))|]. by eapply E.
  - intros tid' y Hy Hin. apply not_elem_of_cons in Hin as [Hne Hin].
    destruct (decide (tid' = tid)) as [->|Hn]; [by rewrite Hx in Hy; injection Hy as <-|].
    rewrite list_lookup_insert_ne by done. by apply F.
  - intros tid' k i Hy Hin. apply elem_of_cons. right.
    apply elem_of_cons in Hin as [Heq|Hin]; [|by eapply G].
    assert (tid' = tid) as -> by by eapply Huse. rewrite Hx in Hy. injection Hy as ->. by eapply Hk.
  - intros i Hi. apply elem_of_cons in Hi as [->|Hi]; [|by apply I].
    destruct (last_use_spawned _ _ _ _ _ Hl' Hx) as [sp Hsp].
    by eapply lookup_lt_Some.
Qed.

(** A spawned task ran that is not the last use of an object. *)
Lemma ledger_ran ran L s i :
  ledger ran L s -> is_Some (sys_spawned s !! i) ->
  (forall tid y, L !! tid = Some y -> last_use y <> i) -> ledger (i :: ran) L s.
Proof.
  intros [A B C D E F G I J] [sp Hi] Hno. split; try done.
  - intros tid' y Hy Hin. apply elem_of_cons in Hin as [Heq|Hin]; [by destruct (Hno _ _ Hy Heq)|eauto].
  - intros tid' y Hy Hin. apply not_elem_of_cons in Hin as [_ Hin]. eauto.
  - intros tid' k' i' Hy Hin. apply elem_of_cons in Hin as [Heq|Hin]; [by destruct (Hno _ _ Hy Heq)|].
    apply elem_of_cons. right. eauto.
  - intros j Hj. apply elem_of_cons in Hj as [->|Hj]; [by eapply lookup_lt_Some|eauto].
Qed.

(** The task of a GPU was launched. *)
Lemma ledger_launched ran L s tid k i :
  ledger ran L s -> L !! tid = Some (k, Some i) -> ledger (k :: ran) L s.
Proof.
  intros Hl Hx. destruct (lg_launch _ _ _ Hl _ _ _ Hx) as (sp & Hs & Ht & Hf).
  apply ledger_ran; [done|by eexists|]. intros tid' y Hy Hyk. rewrite <- Hyk in Hs.
  pose proof (last_use_task _ _ _ _ _ _ Hl Hy Hs).
  assert (tid' = tid) as -> by congruence. rewrite Hx in Hy. injection Hy as <-. cbn in Hyk. subst k.
  destruct (lg_delete _ _ _ Hl _ _ _ Hx) as (sp' & Hs' & _ & Hf' & _). cbn in Hs. congruence.
Qed.

(** An object is live until its last use; a use that is still to come is no later. *)
Lemma pending_use ran L s i sp tid :
  ledger ran L s -> i ∉ ran -> sys_spawned s !! i = Some sp -> sp_task sp = Some tid ->
  exists x, L !! tid = Some x /\ (last_use x ∉ ran) /\
    (if decide (sp_func sp = DELETE_TASK) then (exists k, x = (k, Some i) /\ sp_wait sp = task_event k)
     else x.1 = i).
Proof.
  intros Hl Hr Hs Ht. destruct (lg_spawn _ _ _ Hl _ _ _ Hs Ht) as [[d Hx]|[k Hx]].
  - exists (i, d). destruct (lg_launch _ _ _ Hl _ _ _ Hx) as (sp' & Hs' & _ & Hf).
    assert (sp' = sp) as -> by congruence. rewrite decide_False by done. split_and!; [done| |done].
    destruct d as [j|]; [|done]. cbn. intros Hj. by apply Hr, (lg_order _ _ _ Hl _ _ _ Hx).
  - exists (k, Some i). destruct (lg_delete _ _ _ Hl _ _ _ Hx) as (sp' & Hs' & _ & Hf & Hw).
    assert (sp' = sp) as -> by congruence. rewrite decide_True by done. split_and!; [done|done|].
    by exists k.
Qed.

Lemma ledger_execute ran L s i s' :
  ledger ran L s -> i ∉ ran -> may_run ran s i -> execute i s = (Ret tt, s') ->
  exists L', ledger (i :: ran) L' s'.
Proof.
  intros Hl Hr Hmay E. unfold execute in E.
  destruct (sys_spawned s !! i) as [sp|] eqn:Hs; [|done].
  destruct (sp_task sp) as [tid|] eqn:Ht.
  2:{ injection E as <-. exists L. apply ledger_ran; [done|by rewrite Hs|].
      intros tid y Hy Hyi. rewrite <- Hyi in Hs.
      pose proof (last_use_task _ _ _ _ _ _ Hl Hy Hs). congruence. }
  destruct (pending_use _ _ _ _ _ _ Hl Hr Hs Ht) as (x & Hx & Hlast & Huse).
  destruct (decide (sp_func sp = DELETE_TASK)) as [Hf|Hf].
  - destruct Huse as (k & -> & Hw). exists L.
    apply (ledger_delete ran L s tid (k, Some i) s'); try done.
    intros k' i' [= <- <-]. by eapply Hmay.
  - destruct x as [k d]. cbn in Huse. subst k. unfold deferred_task_launcher in E.
    apply sm_bind_inv in E as (t & s1 & E1 & E).
    destruct (keeps_get_task ran tid (i, d) Hlast _ _ _ E1 L Hl Hx) as (Hg & L1 & P1 & Hl1).
    apply sm_bind_inv in E as ([] & s2 & E2 & E).
    assert (L1 !! tid = Some (i, d)) as Hx1 by by eapply prefix_lookup_Some.
    destruct (keeps_invoke ran tid (i, d) Hlast _ _ _ E2 L1 Hl1 Hx1) as (_ & L2 & P2 & Hl2).
    assert (L2 !! tid = Some (i, d)) as Hx2 by by eapply prefix_lookup_Some.
    exists L2. destruct (decide _) as [Hgpu|Hcpu].
    + injection E as <-. destruct (proj1 Hg Hgpu) as [j Hj]. cbn in Hj. subst d.
      by eapply ledger_launched.
    + destruct d as [j|]; [by destruct Hcpu; apply Hg|].
      by apply (ledger_delete ran L2 s2 tid (i, None) s').
Qed.

Lemma execution_ledger ran s : execution ran s -> exists L, ledger ran L s.
Proof.
  induction 1 as [s Ht Hs Hids|ran s s' _ [L Hl] Ha|ran s s' i _ [L Hl] Hr Hm E].
  - exists []. split; rewrite ?Ht, ?Hs; try done; intros; set_solver.
  - destruct (ledger_acts _ _ Ha _ _ Hl) as (L' & _ & Hl'). by exists L'.
  - by eapply ledger_execute.
Qed.

(** C15: every task object is deleted once, after its last use: a spawned task that is
    still to run finds its object, whatever has run before it, and when all have run
    every object has been deleted. *)
Theorem tasks_deleted_once ran s :
  execution ran s ->
  (forall i sp tid, i ∉ ran -> sys_spawned s !! i = Some sp -> sp_task sp = Some tid ->
     exists t, sys_tasks s !! tid = Some (Some t)) /\
  ((forall i, (i < length (sys_spawned s))%nat -> i ∈ ran) -> Forall (fun t => t = None) (sys_tasks s)).
Proof.
  intros [L Hl]%execution_ledger. split.
  - intros i sp tid Hr Hs Ht. destruct (pending_use _ _ _ _ _ _ Hl Hr Hs Ht) as (x & Hx & Hlast & _).
    destruct (lg_live _ _ _ Hl _ _ Hx Hlast) as (t & Htask & _). by exists t.
  - intros Hall. apply Forall_lookup. intros tid t Htask.
    assert (is_Some (L !! tid)) as [x Hx].
    { apply lookup_lt_is_Some. rewrite (lg_length _ _ _ Hl). by eapply lookup_lt_Some. }
    destruct (last_use_spawned _ _ _ _ _ Hl Hx) as [sp Hsp].
    pose proof (lg_gone _ _ _ Hl _ _ Hx (Hall _ (lookup_lt_Some _ _ _ Hsp))). congruence.
Qed.
End Lifetimes.

(** ** An example: a task for a GPU and one for a CPU *)
Definition example_code (f : nat) : @Lambda _ nat := mkLambda [] None (fun _ => mret ([], true)).

Lemma example_bodies_act util f rs s r s' :
  l_body (example_code f) rs s = (Ret r, s') -> acts example_code util s s'.
Proof. intros [= _ <-]. by apply acts_other. Qed.

Definition example_cpu : outcome Processor := Ret (mkProc UTIL 0 0 3).
Definition example_start : @System _ nat :=
  mkSystem (mkObjects (mkHeap initial_runtime [] []) [] [] []) [] [] [] [] 10 [].
Definition example_defer (type : ProcType) : SM (@System _ nat) (@ReturnToken _ nat) :=
  _defer example_code example_cpu [Contexts.FProcessor (mkProc type 0 0 7)] 0 [].
Definition example_run (i : nat) : SM (@System _ nat) unit :=
  execute id example_code example_cpu false 1 i.

(** Both are deferred; the GPU's task runs, then the CPU's, then the deletion. *)
Definition example_gpu_deferred : System := Eval vm_compute in (example_defer GPU example_start).2.
Definition example_deferred : System := Eval vm_compute in (example_defer CPU example_gpu_deferred).2.
Definition example_ran0 : System := Eval vm_compute in (example_run 0 example_deferred).2.
Definition example_ran2 : System := Eval vm_compute in (example_run 2 example_ran0).2.
Definition example_final : System := Eval vm_compute in (example_run 1 example_ran2).2.

Lemma example_execution :
  execution id example_code example_cpu false 1 [1; 2; 0]%nat example_final.
Proof.
  apply execution_run with example_ran2;
    [|by apply (bool_decide_unpack _)|intros sp k [= <-] [= <-]; set_solver|by vm_compute].
  apply execution_run with example_ran0;
    [|by apply (bool_decide_unpack _)|by intros sp k [= <-]|by vm_compute].
  apply execution_run with example_deferred;
    [|by apply (bool_decide_unpack _)|by intros sp k [= <-]|by vm_compute].
  apply execution_acts with example_gpu_deferred; [apply execution_acts with example_start|].
  - apply execution_start; [done|done|]. split; [done|]. split; [done|].
    intros x Hx. by apply elem_of_nil in Hx.
  - eapply (acts_defer _ _ [Contexts.FProcessor (mkProc GPU 0 0 7)] 0%nat []). by vm_compute.
  - eapply (acts_defer _ _ [Contexts.FProcessor (mkProc CPU 0 0 7)] 0%nat []). by vm_compute.
Qed.

Lemma tasks_deleted_once_witness :
  length (sys_tasks example_final) = 2%nat /\ Forall (fun t => t = None) (sys_tasks example_final).
Proof.
  split; [reflexivity|].
  apply (tasks_deleted_once id example_code example_cpu false 1
           (example_bodies_act example_cpu) [1; 2; 0]%nat example_final example_execution).
  intros i Hi. assert (i = 0 \/ i = 1 \/ i = 2)%nat as [->|[->| ->]] by (cbn in Hi; lia); set_solver.
Defined.
