(* ===== verification/Startup.v ===== *)
(** Starting the runtime (src/zuku/init.h, init.cc, [Init]; profile.cc,
    [SetupProfiling], [MarkProfile]) and the verdict of an allocation (init.h,
    [AllocationResult]).  [Init] is a sequence of calls of Realm, each of which can
    be refused; the model records them in order.  Realm's answers are parameters,
    [RealmRuntime]. *)
From stdpp Require Import base tactics list numbers option strings sets.
From Stdlib Require Import ZArith Lia.
From S2P Require Import Prelude Events Processor.
From S2P Require Tasks.
Open Scope Z_scope.

(** ** Data (init.h) *)
Inductive GlobalTaskId : Type :=
| RESHARD_POINT_TO_POINT_NAME_EXCHANGE
| RESHARD_SCATTER_GATHER_NAME_EXCHANGE
| DELETE_TASK
| PROFILE_STOP
| RELEASE_SHARED_POINTER
| CHECK_MEMORY_ALLOCATION
| FIRST_AVAILABLE.

#[export] Instance GlobalTaskId_eq_dec : EqDecision GlobalTaskId.
Proof. solve_decision. Defined.

(** [network]: a variant of [std::monostate], a name and a flag. *)
Inductive Network : Type :=
| Unset
| Named (name : string)
| Enabled (b : bool).

Record RealmConfig : Type := mkConfig {
  cpus : option Z;
  gpus : option Z;
  sysmem : option Z;
  fbmem : option Z;
  zcmem : option Z;
  network : Network;
  cmdline : option (list string);
  kthreads : bool;
  profile : bool;
  cfg_argv : list string;
}.

(** The functions that [Init] registers as tasks. *)
Inductive Handler : Type :=
| PointToPointNameHandler
| deferred_task_delete
| deferred_task_profile_stop
| deferred_release_shared_pointer
| check_allocation.

#[export] Instance Handler_eq_dec : EqDecision Handler.
Proof. solve_decision. Defined.

Definition kMB : Z := 1000 * 1000.

Section Startup.
Context `{RealmEvents}.

(** The calls of Realm, with their arguments. *)
Inductive RtCall : Type :=
| CreateConfigs (argv : list string)
| NetworkInit (argv : list string)
| GetModuleConfig (name : string)
| SetProperty (module name : string) (value : Z)
| ParseCommandLine (cmdline : list string)
| FinishConfigure
| StartRuntime
| NvtxDomainCreate
| NvtxMark (name : string)
| RegisterTask (kind : RealmKind) (id : Z) (handler : Handler)
| CollectiveSpawnNop (p : RealmProc) (wait_on : Event)
| WaitFor (e : Event)
| NetworkBarrier.

(** What Realm answers: whether a call succeeds, the arguments that
    [network_init] leaves, the modules there are; and its events: of the [i]-th
    registration, and of a task that was spawned to wait for an event. *)
Class RealmRuntime : Type := {
  create_configs : list string -> bool;
  network_init : list string -> option (list string);
  get_module_config : string -> bool;
  set_property : string -> string -> Z -> bool;
  registration : nat -> Event;
  nop_done : Event -> Event;
}.

Context `{RealmRuntime} `{!RealmMachine} (TASK_ID_FIRST_AVAILABLE : Z).

(** The enumerators are numbered from the first one. *)
Definition task_func_id (id : GlobalTaskId) : Z :=
  TASK_ID_FIRST_AVAILABLE + 4 +
  match id with
  | RESHARD_POINT_TO_POINT_NAME_EXCHANGE => 0
  | RESHARD_SCATTER_GATHER_NAME_EXCHANGE => 1
  | DELETE_TASK => 2
  | PROFILE_STOP => 3
  | RELEASE_SHARED_POINTER => 4
  | CHECK_MEMORY_ALLOCATION => 5
  | FIRST_AVAILABLE => 6
  end.

(** The state: the calls so far, the tables of the processors (processor.cc) and
    [sProfilingActive] (profile.cc). *)
Record Boot : Type := mkBoot {
  calls : list RtCall;
  registered : nat;
  procs : ProcState;
  sProfilingActive : bool;
}.

Definition call (c : RtCall) : SM Boot unit :=
  sm_modify (fun b => mkBoot (calls b ++ [c]) (registered b) (procs b) (sProfilingActive b)).

(** [if (!ok) throw std::runtime_error(msg)]. *)
Definition require (ok : bool) (msg : string) : SM Boot unit :=
  if ok then mret tt else sm_lift (Throw (RuntimeError msg)).

(** ** Configuration *)

(** The visitor of [cfg.network]: [nullopt] takes Realm's default. *)
Definition network_choice (n : Network) : option string :=
  match n with
  | Enabled b => if b then None else Some "none"%string
  | Unset => None
  | Named name => if decide (name = "default"%string) then None else Some name
  end.

(** The two calls of [network_init]: with a network of one's own, the arguments
    of the program are not passed on. *)
Definition init_network (n : Network) (argv : list string) : SM Boot (list string) :=
  let msg := "unable to init Realm network"%string in
  match network_choice n with
  | Some network =>
      let args := [""; "-ll:networks"; network]%string in
      _ ← call (NetworkInit args);
      _ ← require (bool_decide (is_Some (network_init args))) msg;
      mret argv
  | None =>
      _ ← call (NetworkInit argv);
      match network_init argv with
      | Some argv => mret argv
      | None => sm_lift (Throw (RuntimeError msg))
      end
  end.

(** [if (!module->set_property(name, value)) throw ...]. *)
Definition set_or_throw (module name : string) (value : Z) (msg : string) : SM Boot unit :=
  _ ← call (SetProperty module name value);
  require (set_property module name value) msg.

(** The same for an optional value that is multiplied by a unit, in 64 bits. *)
Definition set_optional (module name : string) (value : option Z) (unit : Z) (msg : string)
    : SM Boot () :=
  match value with
  | Some v => z ← sm_lift (mul64 v unit); set_or_throw module name z msg
  | None => mret tt
  end.

Definition configure (cfg : RealmConfig) : SM Boot unit :=
  _ ← call (GetModuleConfig "core");
  _ ← require (get_module_config "core") "no core config found for Realm";
  _ ← set_or_throw "core" "util" 2 "failed to set no. util procs";
  _ ← match cpus cfg with
      | Some n => set_or_throw "core" "cpu" n "unable to set no. cpus on Realm config"
      | None => mret tt
      end;
  _ ← set_optional "core" "sysmem" (sysmem cfg) kMB "unable to set sysmem on Realm config";
  _ ← call (GetModuleConfig "cuda");
  if get_module_config "cuda" then
    _ ← set_optional "cuda" "zcmem" (zcmem cfg) kMB "unable to set zcmem on Realm config";
    _ ← match gpus cfg with
        | Some n => set_or_throw "cuda" "gpu" n "unable to set no. gpus on Realm config"
        | None => mret tt
        end;
    set_optional "cuda" "fbmem" (fbmem cfg) kMB "unable to set fbmem on Realm config"
  else if 0 <? default 0 (gpus cfg) then sm_lift (Throw Aborted)
  else mret tt.

(** [argv + 1 .. argv + argc], then the arguments of the configuration. *)
Definition command_line (argv : list string) (cfg : RealmConfig) : outcome (list string) :=
  match argv with
  | [] => Undef OutOfRange
  | _ :: args =>
      mret (args ++ cfg_argv cfg
            ++ (if kthreads cfg then ["-ll:force_kthreads"%string] else [])
            ++ default [] (cmdline cfg))
  end.

(** ** The processors, profiling and the tasks *)

(** [SetupProfiling] and [MarkProfile(name)] (profile.cc, with NVTX). *)
Definition SetupProfiling : SM Boot unit :=
  _ ← sm_modify (fun b => mkBoot (calls b) (registered b) (procs b) true);
  call NvtxDomainCreate.

Definition MarkProfile (name : string) : SM Boot unit :=
  b ← sm_get;
  if sProfilingActive b then call (NvtxMark name) else mret tt.

Definition Processor_Init : SM Boot unit :=
  b ← sm_get;
  st ← sm_lift (Processor.Init (procs b));
  sm_modify (fun b => mkBoot (calls b) (registered b) st (sProfilingActive b)).

(** [Processor::register_task_by_kind]: the event of the registration. *)
Definition register_task_by_kind (kind : RealmKind) (id : GlobalTaskId) (h : Handler)
    : SM Boot Event :=
  _ ← call (RegisterTask kind (task_func_id id) h);
  b ← sm_get;
  _ ← sm_modify (fun b => mkBoot (calls b) (S (registered b)) (procs b) (sProfilingActive b));
  mret (registration (registered b)).

(** [ProcessorQuery(...).only_kind(LOC_PROC).first()]. *)
Definition first_cpu : RealmProc := default NO_PROC (head (rm_query LOC_PROC)).

(** The registrations, and the task on all processes that waits for them. *)
Definition register_tasks : SM Boot unit :=
  e1 ← register_task_by_kind LOC_PROC RESHARD_POINT_TO_POINT_NAME_EXCHANGE PointToPointNameHandler;
  e2 ← register_task_by_kind UTIL_PROC DELETE_TASK deferred_task_delete;
  e3 ← register_task_by_kind UTIL_PROC PROFILE_STOP deferred_task_profile_stop;
  e4 ← register_task_by_kind UTIL_PROC RELEASE_SHARED_POINTER deferred_release_shared_pointer;
  e5 ← register_task_by_kind UTIL_PROC CHECK_MEMORY_ALLOCATION check_allocation;
  let merged := merge_events [e1; e2; e3; e4] in
  _ ← call (CollectiveSpawnNop first_cpu merged);
  call (WaitFor (nop_done merged)).

(** [Init]. *)
Definition Init (argv : list string) (cfg : RealmConfig) : SM Boot unit :=
  _ ← call (CreateConfigs argv);
  _ ← require (create_configs argv) "unable to create Realm configs";
  argv ← init_network (network cfg) argv;
  _ ← configure cfg;
  cmd ← sm_lift (command_line argv cfg);
  _ ← call (ParseCommandLine cmd);
  _ ← call FinishConfigure;
  _ ← call StartRuntime;
  _ ← Processor_Init;
  _ ← (if profile cfg then SetupProfiling else mret tt);
  _ ← register_tasks;
  _ ← call NetworkBarrier;
  _ ← call NetworkBarrier;
  MarkProfile "start zuku clock".

(** ** The plan of a start

    A demand is a call that Realm can refuse, with what [Init] throws then.
    [demands] lists those of a start in order, [settled] the calls that follow when
    none was refused. *)
Record Demand : Type := mkDemand { d_call : RtCall; d_ok : bool; d_exn : exn }.

Definition error (msg : string) : exn := RuntimeError msg.

Definition setting (module name : string) (value : option Z) (msg : string) : list Demand :=
  match value with
  | Some v => [mkDemand (SetProperty module name v) (set_property module name v) (error msg)]
  | None => []
  end.

Definition network_args (argv : list string) (cfg : RealmConfig) : list string :=
  match network_choice (network cfg) with
  | Some name => [""; "-ll:networks"; name]%string
  | None => argv
  end.

(** The arguments of the program after the network was initialised. *)
Definition remaining_args (argv : list string) (cfg : RealmConfig) : list string :=
  match network_choice (network cfg) with
  | Some _ => argv
  | None => default [] (network_init argv)
  end.

Definition megabytes (o : option Z) : option Z := (fun v => v * kMB) <$> o.

Definition core_settings (cfg : RealmConfig) : list Demand :=
  setting "core" "util" (Some 2) "failed to set no. util procs"
  ++ setting "core" "cpu" (cpus cfg) "unable to set no. cpus on Realm config"
  ++ setting "core" "sysmem" (megabytes (sysmem cfg)) "unable to set sysmem on Realm config".

Definition cuda_settings (cfg : RealmConfig) : list Demand :=
  setting "cuda" "zcmem" (megabytes (zcmem cfg)) "unable to set zcmem on Realm config"
  ++ setting "cuda" "gpu" (gpus cfg) "unable to set no. gpus on Realm config"
  ++ setting "cuda" "fbmem" (megabytes (fbmem cfg)) "unable to set fbmem on Realm config".

Definition demands (argv : list string) (cfg : RealmConfig) : list Demand :=
  [mkDemand (CreateConfigs argv) (create_configs argv) (error "unable to create Realm configs");
   mkDemand (NetworkInit (network_args argv cfg))
     (bool_decide (is_Some (network_init (network_args argv cfg))))
     (error "unable to init Realm network");
   mkDemand (GetModuleConfig "core") (get_module_config "core")
     (error "no core config found for Realm")]
  ++ core_settings cfg
  ++ [mkDemand (GetModuleConfig "cuda")
        (get_module_config "cuda" || (default 0 (gpus cfg) <=? 0)) Aborted]
  ++ (if get_module_config "cuda" then cuda_settings cfg else []).

(** The tasks of the library: where they run and what they do. *)
Definition library_tasks : list (RealmKind * GlobalTaskId * Handler) :=
  [(LOC_PROC, RESHARD_POINT_TO_POINT_NAME_EXCHANGE, PointToPointNameHandler);
   (UTIL_PROC, DELETE_TASK, deferred_task_delete);
   (UTIL_PROC, PROFILE_STOP, deferred_task_profile_stop);
   (UTIL_PROC, RELEASE_SHARED_POINTER, deferred_release_shared_pointer);
   (UTIL_PROC, CHECK_MEMORY_ALLOCATION, check_allocation)].

Definition awaited (first : nat) : Event := merge_events (registration <$> seq first 4).

Definition settled (argv : list string) (cfg : RealmConfig) (b : Boot) : list RtCall :=
  [ParseCommandLine (tail (remaining_args argv cfg) ++ cfg_argv cfg
     ++ (if kthreads cfg then ["-ll:force_kthreads"%string] else []) ++ default [] (cmdline cfg));
   FinishConfigure; StartRuntime]
  ++ (if profile cfg then [NvtxDomainCreate] else [])
  ++ ((fun '(kind, id, h) => RegisterTask kind (task_func_id id) h) <$> library_tasks)
  ++ [CollectiveSpawnNop first_cpu (awaited (registered b));
      WaitFor (nop_done (awaited (registered b))); NetworkBarrier; NetworkBarrier]
  ++ (if sProfilingActive b || profile cfg then [NvtxMark "start zuku clock"] else []).

(** The first demand that is refused, and a state with more calls. *)
Definition refused (l : list Demand) : option (nat * Demand) :=
  list_find (fun d => d_ok d = false) l.

Definition after_calls (l : list RtCall) (b : Boot) : Boot :=
  mkBoot (calls b ++ l) (registered b) (procs b) (sProfilingActive b).

(** The sizes of the memories fit 64 bits. *)
Definition memories_fit (cfg : RealmConfig) : Prop :=
  forall v, v ∈ [sysmem cfg; zcmem cfg; fbmem cfg] -> forall z, v = Some z -> i64 (z * kMB).

(** ** [Init] follows its plan *)
Definition demand (d : Demand) : SM Boot unit :=
  _ ← call (d_call d); if d_ok d then mret tt else sm_lift (Throw (d_exn d)).

Fixpoint demand_all (l : list Demand) : SM Boot unit :=
  match l with
  | [] => mret tt
  | d :: l => _ ← demand d; demand_all l
  end.

Lemma after_calls_app l1 l2 b : after_calls l2 (after_calls l1 b) = after_calls (l1 ++ l2) b.
Proof. unfold after_calls; cbn. by rewrite app_assoc. Qed.

Lemma demand_all_app l1 l2 b :
  demand_all (l1 ++ l2) b = (_ ← demand_all l1; demand_all l2) b.
Proof.
  revert b. induction l1 as [|d l1 IH]; intros b; [done|]. cbn [demand_all app].
  rewrite !sm_bind_unfold. destruct (demand d b) as [[]]; by rewrite ?IH.
Qed.

(** All demands are met, or the calls end with the first that is refused. *)
Lemma demand_all_spec l b :
  demand_all l b =
  match refused l with
  | Some (i, d) => (Throw (d_exn d), after_calls (d_call <$> take (S i) l) b)
  | None => (Ret tt, after_calls (d_call <$> l) b)
  end.
Proof.
  revert b. induction l as [|d l IH]; intros b; cbn [demand_all refused list_find].
  { cbn. unfold after_calls. rewrite app_nil_r. by destruct b. }
  rewrite sm_bind_unfold. unfold demand. rewrite sm_bind_unfold. cbn.
  case_decide as E; [by rewrite E|]. apply not_false_iff_true in E. rewrite E. cbn.
  rewrite IH. change (list_find _ l) with (refused l).
  destruct (refused l) as [[i d']|]; cbn; unfold after_calls; cbn; by rewrite <- app_assoc.
Qed.

(** The pieces of [Init] are lists of demands. *)
Lemma set_or_throw_demand module name v msg b :
  set_or_throw module name v msg b = demand_all (setting module name (Some v) msg) b.
Proof.
  cbn. rewrite sm_bind_unfold. unfold set_or_throw, demand, require; cbn.
  by destruct (set_property _ _ _).
Qed.

Lemma setting_option module name o msg b :
  (match o with Some n => set_or_throw module name n msg | None => mret tt end) b
  = demand_all (setting module name o msg) b.
Proof. destruct o; [apply set_or_throw_demand|done]. Qed.

Lemma set_optional_demand module name o msg b :
  (forall z, o = Some z -> i64 (z * kMB)) ->
  set_optional module name o kMB msg b = demand_all (setting module name (megabytes o) msg) b.
Proof.
  intros Hf. destruct o as [v|]; [|done]. unfold set_optional.
  rewrite mul64_ok by by apply Hf. apply set_or_throw_demand.
Qed.

Lemma call_then c ok msg (k : SM Boot unit) b :
  (_ ← call c; _ ← require ok msg; k) b = (_ ← demand (mkDemand c ok (error msg)); k) b.
Proof. unfold demand, require. rewrite !sm_bind_unfold; cbn. by destruct ok. Qed.

(** Operations that agree everywhere agree when followed by the same. *)
Lemma bind_agree {A B} (m m' : SM Boot A) (f f' : A -> SM Boot B) b :
  (forall b, m b = m' b) -> (forall a b, f a b = f' a b) -> (m ≫= f) b = (m' ≫= f') b.
Proof. intros Hm Hf. rewrite !sm_bind_unfold, Hm. by destruct (m' b) as [[]]. Qed.

Definition configure_demands (cfg : RealmConfig) : list Demand :=
  [mkDemand (GetModuleConfig "core") (get_module_config "core")
     (error "no core config found for Realm")]
  ++ core_settings cfg
  ++ [mkDemand (GetModuleConfig "cuda")
        (get_module_config "cuda" || (default 0 (gpus cfg) <=? 0)) Aborted]
  ++ (if get_module_config "cuda" then cuda_settings cfg else []).

Lemma configure_follows cfg b :
  memories_fit cfg -> configure cfg b = demand_all (configure_demands cfg) b.
Proof.
  intros Hf.
  assert (forall v, v ∈ [sysmem cfg; zcmem cfg; fbmem cfg] ->
            forall module name msg b, set_optional module name v kMB msg b
              = demand_all (setting module name (megabytes v) msg) b) as Hopt.
  { intros v Hv module name msg b'. apply set_optional_demand. by apply Hf. }
  unfold configure, configure_demands, core_settings, cuda_settings.
  rewrite call_then. rewrite <- !app_assoc. cbn [app demand_all].
  apply bind_agree; [done|intros _ b1].
  apply bind_agree; [intros b'; rewrite set_or_throw_demand; cbn; rewrite sm_bind_unfold;
                     by destruct (demand _ b') as [[[]| | |]]|intros _ b2].
  rewrite demand_all_app. apply bind_agree; [apply setting_option|intros _ b3].
  rewrite demand_all_app. apply bind_agree; [apply Hopt; set_solver|intros _ b4].
  cbn [demand_all]. rewrite !sm_bind_unfold. unfold demand; cbn.
  destruct (get_module_config "cuda"); cbn [orb].
  - rewrite (sm_bind_unfold (call _)). cbn [call sm_modify mret sm_ret d_call].
    rewrite demand_all_app. apply bind_agree; [apply Hopt; set_solver|intros _ b5].
    rewrite demand_all_app. apply bind_agree; [apply setting_option|intros _ b6].
    apply Hopt; set_solver.
  - rewrite Z.ltb_antisym. by destruct (_ <=? 0).
Qed.

(** *** Registration *)
Lemma register_ok kind id h b :
  register_task_by_kind kind id h b =
  (Ret (registration (registered b)),
   mkBoot (calls b ++ [RegisterTask kind (task_func_id id) h]) (S (registered b)) (procs b)
     (sProfilingActive b)).
Proof. done. Qed.

Lemma call_ok c (k : unit -> SM Boot unit) b : (call c ≫= k) b = k tt (after_calls [c] b).
Proof. done. Qed.

Lemma register_tasks_ok b :
  register_tasks b =
  (Ret tt, mkBoot (calls b
     ++ ((fun '(kind, id, h) => RegisterTask kind (task_func_id id) h)
           <$> library_tasks)
     ++ [CollectiveSpawnNop first_cpu (awaited (registered b));
         WaitFor (nop_done (awaited (registered b)))])
   (5 + registered b) (procs b) (sProfilingActive b)).
Proof.
  unfold register_tasks.
  do 5 (erewrite sm_bind_ret by apply register_ok; cbn [calls registered procs sProfilingActive]).
  cbv zeta. rewrite call_ok. unfold call, sm_modify, after_calls, awaited; cbn.
  by rewrite <- !app_assoc.
Qed.

(** *** Starting *)
Definition started (argv : list string) (cfg : RealmConfig) (st : ProcState) (b : Boot) : Boot :=
  mkBoot (calls b ++ (d_call <$> demands argv cfg) ++ settled argv cfg b)
    (5 + registered b) st (sProfilingActive b || profile cfg).

Lemma Processor_Init_ok st b :
  Processor.Init (procs b) = Ret st ->
  Processor_Init b = (Ret tt, mkBoot (calls b) (registered b) st (sProfilingActive b)).
Proof. intros E. unfold Processor_Init, sm_lift. by rewrite sm_get_bind, E. Qed.

(** [SetupProfiling], when it is asked for. *)
Lemma profiling_ok (p : bool) b :
  (if p then SetupProfiling else mret tt) b =
  (Ret tt, mkBoot (calls b ++ (if p then [NvtxDomainCreate] else [])) (registered b) (procs b)
             (sProfilingActive b || p)).
Proof. destruct p; cbn; [by rewrite orb_true_r|]. rewrite app_nil_r, orb_false_r. by destruct b. Qed.

Lemma MarkProfile_ok name b :
  MarkProfile name b = (Ret tt, after_calls (if sProfilingActive b then [NvtxMark name] else []) b).
Proof.
  unfold MarkProfile. rewrite sm_get_bind. destruct (sProfilingActive b) eqn:E; [done|].
  unfold after_calls. rewrite app_nil_r. by destruct b.
Qed.

(** What [Init] does once everything is configured. *)
Lemma finish_start argv cfg st b :
  remaining_args argv cfg <> [] -> Processor.Init (procs b) = Ret st ->
  forall l, (cmd ← sm_lift (command_line (remaining_args argv cfg) cfg);
   _ ← call (ParseCommandLine cmd); _ ← call FinishConfigure; _ ← call StartRuntime;
   _ ← Processor_Init; _ ← (if profile cfg then SetupProfiling else mret tt);
   _ ← register_tasks; _ ← call NetworkBarrier; _ ← call NetworkBarrier;
   MarkProfile "start zuku clock") (after_calls l b)
  = (Ret tt, mkBoot (calls b ++ l ++ settled argv cfg b) (5 + registered b) st
               (sProfilingActive b || profile cfg)).
Proof.
  intros Hargs Hst l. unfold settled.
  destruct (remaining_args argv cfg) as [|prog args]; [done|]. cbn [command_line tail].
  erewrite sm_bind_ret by done. rewrite !call_ok, !after_calls_app.
  erewrite sm_bind_ret by by apply Processor_Init_ok.
  erewrite sm_bind_ret by by apply profiling_ok.
  erewrite sm_bind_ret by by apply register_tasks_ok.
  rewrite !call_ok, !after_calls_app, MarkProfile_ok.
  unfold after_calls; cbn [calls registered procs sProfilingActive].
  by rewrite <- !app_assoc.
Qed.

(** The network: refused, or [Init] goes on with the arguments that remain. *)
Lemma init_network_follows argv cfg (k : list string -> SM Boot unit) b :
  (init_network (network cfg) argv ≫= k) b =
  (_ ← demand (mkDemand (NetworkInit (network_args argv cfg))
                 (bool_decide (is_Some (network_init (network_args argv cfg))))
                 (error "unable to init Realm network"));
   k (remaining_args argv cfg)) b.
Proof.
  unfold init_network, network_args, remaining_args, demand, require.
  destruct (network_choice (network cfg)) as [name|]; rewrite !sm_bind_unfold; cbn.
  - by case_bool_decide.
  - by destruct (network_init argv).
Qed.

Lemma Init_demands argv cfg b :
  memories_fit cfg ->
  Init argv cfg b =
  (_ ← demand_all (demands argv cfg);
   cmd ← sm_lift (command_line (remaining_args argv cfg) cfg);
   _ ← call (ParseCommandLine cmd); _ ← call FinishConfigure; _ ← call StartRuntime;
   _ ← Processor_Init; _ ← (if profile cfg then SetupProfiling else mret tt);
   _ ← register_tasks; _ ← call NetworkBarrier; _ ← call NetworkBarrier;
   MarkProfile "start zuku clock") b.
Proof.
  intros Hf. unfold Init. rewrite call_then.
  change (demands argv cfg) with
    (mkDemand (CreateConfigs argv) (create_configs argv) (error "unable to create Realm configs")
     :: mkDemand (NetworkInit (network_args argv cfg))
          (bool_decide (is_Some (network_init (network_args argv cfg))))
          (error "unable to init Realm network") :: configure_demands cfg).
  cbn [demand_all]. rewrite !sm_bind_unfold.
  destruct (demand _ b) as [[[]| | |] b1]; [|done..].
  rewrite init_network_follows, !sm_bind_unfold.
  destruct (demand _ b1) as [[[]| | |] b2]; [|done..].
  by apply bind_agree; [intros b'; apply configure_follows|].
Qed.

(** C33: [Init] asks Realm for everything the configuration says, in order, and ends
    with the first refusal, before the runtime is started; when nothing is refused
    it starts the runtime, numbers the processors and registers every task of the
    library on its kind of processor, under an id of its own below those of user
    tasks. *)
Theorem init_follows_plan argv cfg st b :
  memories_fit cfg ->
  (refused (demands argv cfg) = None -> remaining_args argv cfg <> []) ->
  Processor.Init (procs b) = Ret st ->
  Init argv cfg b =
    match refused (demands argv cfg) with
    | Some (i, d) => (Throw (d_exn d), after_calls (d_call <$> take (S i) (demands argv cfg)) b)
    | None => (Ret tt, started argv cfg st b)
    end /\
  NoDup ((fun '(_, id, _) => task_func_id id) <$> library_tasks) /\
  Forall (fun '(_, id, _) => task_func_id id < task_func_id FIRST_AVAILABLE) library_tasks.
Proof.
  intros Hf Hargs Hst. split_and!.
  - rewrite Init_demands, sm_bind_unfold, demand_all_spec by done.
    destruct (refused _) as [[i d]|] eqn:E; [done|]. apply finish_start; auto.
  - unfold task_func_id; cbn. repeat (constructor; [rewrite ?elem_of_cons, ?elem_of_nil; lia|]).
    constructor.
  - unfold task_func_id. repeat constructor; lia.
Qed.
End Startup.

Arguments mkBoot {_}. Arguments calls {_}. Arguments registered {_}. Arguments procs {_}.
Arguments sProfilingActive {_}.

(** [Init] returns after its wait: four of the five registrations are over then, for
    a task completes only after the event it was spawned on. *)
Lemma first_registrations_awaited `{RealmRuntime} fired `{!Moment fired} k :
  (forall e, fired (nop_done e) -> fired e) ->
  fired (nop_done (awaited k)) -> Forall fired (registration <$> seq k 4).
Proof. intros Hnop Hf. by apply fired_merge, Hnop. Qed.

(** ** The verdict of an allocation (init.h, [AllocationResult])

    The thread that creates an instance waits for the signal and then reads
    [success]; meanwhile Realm runs [check_allocation_task], whose operations on
    the object are atomic. *)
Record AllocationResult : Type := mkResult { signalled : bool; success : bool }.

Definition new_result : AllocationResult := mkResult false true.
Definition Done (r : AllocationResult) : AllocationResult := mkResult true (success r).
Definition Fail (r : AllocationResult) : AllocationResult := mkResult (signalled r) false.
Definition Succeeded (r : AllocationResult) : bool := success r.

Definition check_allocation_task (result_success : bool)
    : list (AllocationResult -> AllocationResult) :=
  (if result_success then [] else [Fail]) ++ [Done].

(** The object after the first [n] operations of the task. *)
Definition checked (result_success : bool) (n : nat) : AllocationResult :=
  foldl (fun r f => f r) new_result (take n (check_allocation_task result_success)).

(** Whenever [Wait] returns, [Succeeded] is what the profiling response said; and
    [Wait] returns once the task has run. *)
Lemma allocation_verdict result_success n :
  (signalled (checked result_success n) = true ->
   Succeeded (checked result_success n) = result_success) /\
  signalled (checked result_success (length (check_allocation_task result_success))) = true.
Proof. split; [|by destruct result_success]. destruct result_success; by destruct n as [|[|[]]]. Qed.

(** ** An example: a machine without CUDA, and configurations for it *)
#[export] Instance example_runtime : RealmRuntime := {|
  create_configs _ := true;
  network_init := Some;
  get_module_config m := bool_decide (m = "core"%string);
  set_property _ name v := negb (bool_decide (name = "cpu"%string) && (64 <? v));
  registration k := Operation k;
  nop_done e := Merged e Nothing;
|}.

Definition example_config (n : Z) : RealmConfig :=
  mkConfig (Some n) None (Some 4096) None None (Enabled false) None true true ["--steps"; "10"]%string.

Definition example_boot : Boot := mkBoot [] 0 initial_state false.

Lemma example_fits n : memories_fit (example_config n).
Proof.
  intros v Hv z Hz. rewrite !elem_of_cons, elem_of_nil in Hv.
  destruct Hv as [->|[->|[->|[]]]]; cbn in Hz; [|done|done].
  injection Hz as <-. split; by apply (bool_decide_unpack _).
Qed.

Lemma example_numbered : Processor.Init (procs example_boot) = Ret (final_state 1).
Proof. by vm_compute. Qed.

Lemma init_follows_plan_witness :
  (exists b, Init 16 ["app"]%string (example_config 4) example_boot = (Ret tt, b) /\
     SetProperty "core" "sysmem" 4096000000 ∈ calls b /\ registered b = 5%nat) /\
  (exists b, Init 16 ["app"]%string (example_config 100) example_boot
             = (Throw (RuntimeError "unable to set no. cpus on Realm config"), b) /\
     StartRuntime ∉ calls b).
Proof.
  split.
  - destruct (init_follows_plan 16 ["app"]%string _ _ example_boot (example_fits 4)
                ltac:(done) example_numbered) as [-> _].
    eexists. split; [reflexivity|]. split; [|reflexivity].
    apply list_elem_of_In. vm_compute. tauto.
  - destruct (init_follows_plan 16 ["app"]%string _ _ example_boot (example_fits 100)
                ltac:(done) example_numbered) as [-> _].
    eexists. split; [reflexivity|]. intros Hin. apply list_elem_of_In in Hin. vm_compute in Hin.
    by repeat destruct Hin as [Hin|Hin].
Defined.

(** The registration of [check_allocation_task] may still be under way when [Init]
    returns: a moment in which everything that [Init] waits for is over. *)
Lemma check_task_not_awaited :
  exists fired : event -> Prop, Moment fired /\ fired (nop_done (awaited 0)) /\
    ~ fired (registration 4).
Proof.
  exists (fun e => fires (fun i => Nat.ltb i 4) (fun _ => false) e = true).
  split; [apply _|]. split; [done|]. by vm_compute.
Qed.
