(* ===== verification/Shutdown.v ===== *)
(** Pending operations and the end of the runtime: [IncPendingOp], [DecPendingOp],
    [WaitForPendingOps] and [Stop] (src/zuku/init.cc), [deferred_release]
    (future.h), [deferred_release_shared_pointer] (task.cc), [ProfileRegion]
    (profile.cc) and [stop] (defer.h).

    The counter is shared by all threads, so the functions are split at every
    access to it: a thread is where it stands in its function, and an execution is
    a sequence of atomic steps of the threads, in any order. *)
From stdpp Require Import base tactics list numbers option sets.
From Stdlib Require Import ZArith Lia.
From S2P Require Import Prelude Events.
From S2P Require Handles Tasks.
Open Scope Z_scope.

Section Shutdown.
Context `{RealmEvents} `{!EqDecision Event}.

(** What the destructor of a value in a [ReleaseHolder] does: nothing more, or
    [deferred_release] of a value after an event, and so on. *)
Inductive Releases : Type :=
| NoMore
| Release (e : Event) (value more : Releases).

(** Where a thread stands.  [own] says that the thread runs
    [deferred_release_shared_pointer], which ends with [DecPendingOp]. *)
Inductive Thread : Type :=
| Releasing (own : bool) (todo : Releases)
    (* calls [deferred_release] for what is to do *)
| Spawning (own : bool) (e : Event) (value todo : Releases)
    (* in [deferred_release], between [IncPendingOp] and [spawn] *)
| Waiting (e : Event) (value : Releases)
    (* the spawned task waits for the event, then deletes the holder *)
| RegionCall (start stop : Event)           (* [ProfileRegion], before [IncPendingOp] *)
| RegionWaiting (start stop : Event)        (* its tasks are deferred *)
| RegionOpen (stop : Event)                 (* after [StartProfileRegion] *)
| RegionClosed.                             (* after [StopProfileRegion], before [DecPendingOp] *)

(** Where [Stop] stands: not called, in [WaitForPendingOps], waiting for [agree],
    in [sleep], and after [shutdown]. *)
Inductive StopPoint : Type := Running | Polling | Agreeing | Sleeping | ShutDown.

#[export] Instance StopPoint_eq_dec : EqDecision StopPoint.
Proof. solve_decision. Defined.

Record State : Type := mkState {
  sPendingEvents : Z;
  threads : list Thread;
  happened : list Event;
  stopping : StopPoint;
}.

(** [fetch_add] on an atomic wraps around. *)
Definition fetch_add (d : Z) (n : Z) : Z := to_i64 (n + d).

(** One atomic step of a thread: what it adds to the counter, where it stands then
    ([None]: it has returned) and the task it spawns. *)
Abbreviation Outcome := (Z * option Thread * option Thread)%type.

(** [deferred_release(value, e)]: the holder is created and counted, then the task is
    spawned; the caller goes on. *)
Definition deferred_release_count (own : bool) (e : Event) (value todo : Releases) : Outcome :=
  (1, Some (Spawning own e value todo), None).
Definition deferred_release_spawn (own : bool) (e : Event) (value todo : Releases) : Outcome :=
  (0, Some (Releasing own todo), Some (Waiting e value)).

(** [deferred_release_shared_pointer]: after the event, [delete holder], and when the
    destructor is done, [DecPendingOp()]. *)
Definition delete_holder (happened : list Event) (e : Event) (value : Releases) : option Outcome :=
  if decide (e ∈ happened) then Some (0, Some (Releasing true value), None) else None.
Definition destructor_done (own : bool) : Outcome := (if own then -1 else 0, None, None).

(** [ProfileRegion], profiling being active: [IncPendingOp()], a task after [start]
    that opens the range, and one after [stop] that gets its id, closes it and calls
    [DecPendingOp()]. *)
Definition ProfileRegion_step (happened : list Event) (t : Thread) : option Outcome :=
  match t with
  | RegionCall start stop => Some (1, Some (RegionWaiting start stop), None)
  | RegionWaiting start stop =>
      if decide (start ∈ happened) then Some (0, Some (RegionOpen stop), None) else None
  | RegionOpen stop => if decide (stop ∈ happened) then Some (0, Some RegionClosed, None) else None
  | RegionClosed => Some (-1, None, None)
  | _ => None
  end.

Definition advance (happened : list Event) (t : Thread) : option Outcome :=
  match t with
  | Releasing own (Release e value todo) => Some (deferred_release_count own e value todo)
  | Releasing own NoMore => Some (destructor_done own)
  | Spawning own e value todo => Some (deferred_release_spawn own e value todo)
  | Waiting e value => delete_holder happened e value
  | t => ProfileRegion_step happened t
  end.

(** [Stop(rt, last_local_event)], one access to the shared state at a time.  The
    task of [collective_spawn] runs after [last_local_event]. *)
Definition stop_step (last_local_event : Event) (s : State) : State :=
  mkState (sPendingEvents s) (threads s) (happened s)
    match stopping s with
    | Running => Polling
    | Polling => if 0 <? sPendingEvents s then Polling else Agreeing
    | Agreeing => if decide (last_local_event ∈ happened s) then Sleeping else Agreeing
    | Sleeping => ShutDown
    | ShutDown => ShutDown
    end.

Inductive Action : Type :=
| Begin (t : Thread)       (* a function of the program reaches [t] *)
| Advance (i : nat)        (* the [i]-th thread makes a step *)
| Happen (e : Event)
| StopStep.

(** A program starts with a release or with a profiled region. *)
Definition entry (t : Thread) : bool :=
  match t with Releasing false _ | RegionCall _ _ => true | _ => false end.

Context (last_local_event : Event).

Definition do_step (a : Action) (s : State) : option State :=
  match a with
  | Begin t =>
      if entry t
      then Some (mkState (sPendingEvents s) (threads s ++ [t]) (happened s) (stopping s))
      else None
  | Advance i =>
      t ← threads s !! i;
      '(d, here, new) ← advance (happened s) t;
      Some (mkState (if d =? 0 then sPendingEvents s else fetch_add d (sPendingEvents s))
              (take i (threads s) ++ option_list here ++ drop (S i) (threads s) ++ option_list new)
              (happened s) (stopping s))
  | Happen e => Some (mkState (sPendingEvents s) (threads s) (e :: happened s) (stopping s))
  | StopStep => Some (stop_step last_local_event s)
  end.

Fixpoint run (l : list Action) (s : State) : option State :=
  match l with
  | [] => Some s
  | a :: l => s ← do_step a s; run l s
  end.

Lemma run_step a l s s' : do_step a s = Some s' -> run (a :: l) s = run l s'.
Proof. cbn. by intros ->. Qed.

Lemma run_app l1 l2 s : run (l1 ++ l2) s = run l1 s ≫= run l2.
Proof.
  revert s. induction l1 as [|a l1 IH]; intros s; cbn; [done|].
  destruct (do_step a s); cbn; auto.
Qed.

Definition initial : State := mkState 0 [] [] Running.

(** ** The counter counts

    [share t] is what thread [t] has added to the counter and not taken back. *)
Definition share (t : Thread) : Z :=
  match t with
  | Releasing own _ => if own then 1 else 0
  | Spawning own _ _ _ => if own then 2 else 1
  | Waiting _ _ => 1
  | RegionCall _ _ => 0
  | RegionWaiting _ _ | RegionOpen _ | RegionClosed => 1
  end.

Definition shares (l : list Thread) : Z := foldr Z.add 0 (share <$> l).

Definition counts (s : State) : Prop := sPendingEvents s = to_i64 (shares (threads s)).

Lemma shares_app l1 l2 : shares (l1 ++ l2) = shares l1 + shares l2.
Proof. unfold shares. induction l1 as [|t l1 IH]; cbn; lia. Qed.

Lemma share_nonneg t : 0 <= share t.
Proof. destruct t as [[]|[] | | | | |]; cbn; lia. Qed.

Lemma shares_nonneg l : 0 <= shares l.
Proof. unfold shares. induction l as [|t l IH]; cbn; [lia|]. pose proof (share_nonneg t). lia. Qed.

Lemma to_i64_add a d : to_i64 (to_i64 a + d) = to_i64 (a + d).
Proof.
  unfold to_i64. set (m := u64_modulus).
  assert (forall x, (a mod m - m) + x = a + x + (-1 - a / m) * m) as E1.
  { intros x. pose proof (Z.div_mod a m ltac:(done)). lia. }
  assert (forall x, a mod m + x = a + x + (- (a / m)) * m) as E2.
  { intros x. pose proof (Z.div_mod a m ltac:(done)). lia. }
  destruct (a mod m <=? i64_max).
  - by rewrite E2, Z_mod_plus_full.
  - by rewrite E1, Z_mod_plus_full.
Qed.

Lemma to_i64_id z : i64 z -> to_i64 z = z.
Proof.
  unfold i64, to_i64. intros Hz. destruct (Z.leb_spec 0 z).
  - rewrite Z.mod_small by lia. destruct (Z.leb_spec z i64_max); lia.
  - rewrite <- (Z_mod_plus_full z 1), Z.mod_small by lia. destruct (Z.leb_spec (z + 1 * u64_modulus) i64_max); lia.
Qed.

(** The cases of a step. *)
Ltac advance_cases t E :=
  destruct t as [[] []|[] ? ? ?|? ?|? ?|? ?|?|]; cbn in E;
  unfold deferred_release_count, deferred_release_spawn, delete_holder, destructor_done in E;
  try case_decide; simplify_eq.

(** A thread takes into account what it adds. *)
Lemma advance_share happened t d here new :
  advance happened t = Some (d, here, new) ->
  shares (option_list here) + shares (option_list new) = share t + d.
Proof.
  unfold shares. intros E. advance_cases t E; cbn; lia.
Qed.

Lemma advance_threads i t happened d here new l :
  l !! i = Some t -> advance happened t = Some (d, here, new) ->
  shares (take i l ++ option_list here ++ drop (S i) l ++ option_list new) = shares l + d.
Proof.
  intros Ht Ha. pose proof (f_equal shares (take_drop_middle _ _ _ Ht)) as E.
  rewrite shares_app in E. unfold shares at 2 in E; cbn in E.
  change (foldr Z.add 0 (share <$> ?l)) with (shares l) in E.
  pose proof (advance_share _ _ _ _ _ Ha). rewrite !shares_app. lia.
Qed.

Lemma do_step_counts a s s' : do_step a s = Some s' -> counts s -> counts s'.
Proof.
  unfold counts. intros E Hs. destruct a as [t|i|e|]; cbn in E.
  - destruct (entry t) eqn:Et; [|done]. injection E as <-. cbn [sPendingEvents threads]. rewrite shares_app, Hs.
    f_equal. destruct t as [[]| | | | | |]; cbn in *; try done; lia.
  - apply bind_Some in E as (t & Ht & E). apply bind_Some in E as ([[d here] new] & Ha & E).
    injection E as <-. cbn [sPendingEvents threads].
    erewrite advance_threads by done.
    unfold fetch_add. destruct (Z.eqb_spec d 0) as [->|]; rewrite Hs; [by rewrite Z.add_0_r|].
    apply to_i64_add.
  - by injection E as <-.
  - by injection E as <-.
Qed.

Lemma run_counts l s s' : run l s = Some s' -> counts s -> counts s'.
Proof.
  revert s. induction l as [|a l IH]; cbn; intros s E Hs; [by injection E as <-|].
  apply bind_Some in E as (s1 & E1 & E). eauto using do_step_counts.
Qed.

(** Every step adds at most one to the shares. *)
Lemma advance_at_most_one happened t d here new :
  advance happened t = Some (d, here, new) -> d <= 1.
Proof. intros E. advance_cases t E; lia. Qed.

Lemma entry_share t : entry t = true -> share t = 0.
Proof. by destruct t as [[]| | | | | |]. Qed.

Lemma do_step_shares a s s' : do_step a s = Some s' -> shares (threads s') <= shares (threads s) + 1.
Proof.
  intros E. destruct a as [t|i|e|]; cbn in E.
  - destruct (entry t) eqn:Et; [|done]. injection E as <-. cbn [threads]. rewrite shares_app.
    unfold shares at 2; cbn. rewrite entry_share by done. lia.
  - apply bind_Some in E as (t & Ht & E). apply bind_Some in E as ([[d here] new] & Ha & E).
    injection E as <-. cbn [threads]. erewrite advance_threads by done.
    pose proof (advance_at_most_one _ _ _ _ _ Ha). lia.
  - injection E as <-. cbn [threads]. lia.
  - injection E as <-. cbn [threads stop_step]. lia.
Qed.

Lemma run_shares l s s' :
  run l s = Some s' -> shares (threads s') <= shares (threads s) + Z.of_nat (length l).
Proof.
  revert s. induction l as [|a l IH]; cbn; intros s E; [injection E as <-; lia|].
  apply bind_Some in E as (s1 & E1 & E). apply IH in E. apply do_step_shares in E1. lia.
Qed.

Lemma shares_zero l : shares l = 0 <-> Forall (fun t => share t = 0) l.
Proof.
  unfold shares. induction l as [|t l IH]; cbn; [by split; constructor|].
  rewrite Forall_cons, <- IH. pose proof (share_nonneg t). pose proof (shares_nonneg l) as Hl.
  unfold shares in Hl. lia.
Qed.

(** The counter of a run that is not astronomically long is the sum of the shares. *)
Lemma counter_exact l s :
  run l initial = Some s -> Z.of_nat (length l) <= i64_max ->
  sPendingEvents s = shares (threads s).
Proof.
  intros E Hl. pose proof (run_counts l initial s E eq_refl) as Hc. unfold counts in Hc. rewrite Hc.
  apply to_i64_id. pose proof (run_shares _ _ _ E) as Hb. pose proof (shares_nonneg (threads s)).
  unfold i64. cbn in Hb. lia.
Qed.

(** ** [Stop] waits for the pending operations *)

(** A function of the program that has nothing left to release. *)
Definition over (t : Thread) : Prop := t = Releasing false NoMore.

Definition begins (a : Action) : bool := match a with Begin _ => true | _ => false end.

Lemma over_step a s s' :
  begins a = false -> do_step a s = Some s' -> Forall over (threads s) -> Forall over (threads s').
Proof.
  intros Ha E Ho. destruct a as [t|i|e|]; cbn in E; [done| |by injection E as <-..].
  apply bind_Some in E as (t & Ht & E). apply bind_Some in E as ([[d here] new] & Hs & E).
  injection E as <-. cbn [threads].
  pose proof (Forall_lookup_1 _ _ _ _ Ho Ht) as ->. cbn in Hs. injection Hs as <- <- <-. cbn.
  rewrite app_nil_r. apply Forall_app. split; [by apply Forall_take|by apply Forall_drop].
Qed.

Lemma over_run l s s' :
  Forall (fun a => begins a = false) l -> run l s = Some s' ->
  Forall over (threads s) -> Forall over (threads s').
Proof.
  intros Hl. revert s. induction Hl as [|a l Ha Hl IH]; cbn; intros s E; [by injection E as <-|].
  apply bind_Some in E as (s1 & E1 & E). eauto using over_step.
Qed.

(** C26: [Stop] leaves [WaitForPendingOps] exactly when no release and no profiled
    region is under way, for every interleaving of the threads; and if the program
    has nothing left to release then, and does not begin anything new, nothing is
    pending when the runtime is shut down. *)
Theorem stop_waits_for_releases l s :
  run l initial = Some s -> Z.of_nat (length l) <= i64_max -> stopping s = Polling ->
  (stopping (stop_step last_local_event s) = Agreeing <->
   Forall (fun t => share t = 0) (threads s)) /\
  (forall l' s', stopping (stop_step last_local_event s) = Agreeing -> Forall over (threads s) ->
     Forall (fun a => begins a = false) l' -> run l' (stop_step last_local_event s) = Some s' ->
     Forall over (threads s')).
Proof.
  intros E Hl Hp. split.
  - rewrite <- shares_zero, <- (counter_exact l) by done. cbn. rewrite Hp.
    pose proof (shares_nonneg (threads s)). rewrite <- (counter_exact l) in * by done.
    destruct (Z.ltb_spec 0 (sPendingEvents s)); split; intros; try done; lia.
  - intros l' s' _ Ho Hb E'. by eapply over_run.
Qed.

(** ** The pending operations end *)

(** The steps a thread has before it, with those of the tasks it spawns. *)
Fixpoint releases_steps (r : Releases) : nat :=
  match r with
  | NoMore => 0
  | Release _ value more => 4 + releases_steps value + releases_steps more
  end.

Definition steps (t : Thread) : nat :=
  match t with
  | Releasing _ todo => S (releases_steps todo)
  | Spawning _ _ value todo => 4 + releases_steps value + releases_steps todo
  | Waiting _ value => 2 + releases_steps value
  | RegionCall _ _ => 4
  | RegionWaiting _ _ => 3
  | RegionOpen _ => 2
  | RegionClosed => 1
  end.

Definition all_steps (l : list Thread) : nat := sum_list_with steps l.

(** The events that a thread, or what it spawns, waits for. *)
Fixpoint releases_events (r : Releases) : list Event :=
  match r with
  | NoMore => []
  | Release e value more => e :: releases_events value ++ releases_events more
  end.

Definition events (t : Thread) : list Event :=
  match t with
  | Releasing _ todo => releases_events todo
  | Spawning _ e value todo => e :: releases_events value ++ releases_events todo
  | Waiting e value => e :: releases_events value
  | RegionCall start stop | RegionWaiting start stop => [start; stop]
  | RegionOpen stop => [stop]
  | RegionClosed => []
  end.

Definition awaits_past (s : State) : Prop :=
  Forall (fun t => Forall (.∈ happened s) (events t)) (threads s).

Lemma advance_steps happened t d here new :
  advance happened t = Some (d, here, new) ->
  S (all_steps (option_list here) + all_steps (option_list new))%nat = steps t.
Proof.
  unfold all_steps. intros E. advance_cases t E; cbn; lia.
Qed.

Lemma advance_events happened t d here new :
  advance happened t = Some (d, here, new) ->
  Forall (fun t' => events t' ⊆ events t) (option_list here ++ option_list new).
Proof.
  intros E. advance_cases t E; cbn; rewrite ?Forall_cons; split_and?; try apply Forall_nil_2; set_solver.
Qed.

Lemma advance_enabled happened t :
  Forall (.∈ happened) (events t) -> is_Some (advance happened t).
Proof.
  rewrite Forall_forall. intros He.
  destruct t as [[] []|[] e v todo|e v|start stop|start stop|stop|]; cbn in *;
    unfold delete_holder; try done; rewrite decide_True by (apply He; set_solver); done.
Qed.

Lemma all_steps_app l1 l2 : all_steps (l1 ++ l2) = (all_steps l1 + all_steps l2)%nat.
Proof. apply sum_list_with_app. Qed.

Lemma do_step_advance i s s' :
  do_step (Advance i) s = Some s' ->
  awaits_past s -> S (all_steps (threads s')) = all_steps (threads s) /\ awaits_past s'.
Proof.
  unfold awaits_past. cbn. intros E Hp.
  apply bind_Some in E as (t & Ht & E). apply bind_Some in E as ([[d here] new] & Ha & E).
  injection E as <-. cbn [threads happened].
  pose proof (f_equal all_steps (take_drop_middle _ _ _ Ht)) as Hs.
  pose proof (advance_steps _ _ _ _ _ Ha). rewrite all_steps_app in Hs. cbn in Hs. split.
  { rewrite !all_steps_app. unfold all_steps in *. lia. }
  pose proof (Forall_lookup_1 _ _ _ _ Hp Ht) as Het. pose proof (advance_events _ _ _ _ _ Ha) as Hev.
  assert (Forall (fun t => Forall (.∈ happened s) (events t)) (option_list here ++ option_list new))
    as Hn.
  { apply (Forall_impl _ _ _ Hev). intros t' Hsub. rewrite Forall_forall in *. auto. }
  apply Forall_app in Hn as [Hn1 Hn2].
  rewrite !Forall_app. split_and!; [by apply Forall_take|done|by apply Forall_drop|done].
Qed.

Definition advances (a : Action) : bool := match a with Advance _ => true | _ => false end.

Lemma run_advances l s s' :
  Forall (fun a => advances a = true) l -> run l s = Some s' -> awaits_past s ->
  (length l + all_steps (threads s') = all_steps (threads s))%nat /\ awaits_past s'.
Proof.
  intros Hl. revert s. induction Hl as [|a l Ha Hl IH]; cbn; intros s E Hp.
  { injection E as <-. done. }
  apply bind_Some in E as (s1 & E1 & E). destruct a as [|i| |]; try done.
  destruct (do_step_advance _ _ _ E1 Hp) as [Hs Hp1]. destruct (IH _ E Hp1). split; [lia|done].
Qed.

(** C27: once everything the threads wait for has happened, they end: in whatever
    order they run they make the same number of steps, until then one of them can
    make a step, and then [Stop] gets past the pending operations. *)
Theorem pending_operations_end l s :
  run l initial = Some s -> Z.of_nat (length l + all_steps (threads s)) <= i64_max ->
  awaits_past s ->
  forall l' s', Forall (fun a => advances a = true) l' -> run l' s = Some s' ->
    (length l' + all_steps (threads s') = all_steps (threads s))%nat /\
    (threads s' <> [] -> exists i s'', do_step (Advance i) s' = Some s'') /\
    (threads s' = [] -> sPendingEvents s' = 0 /\
       (stopping s' = Polling -> stopping (stop_step last_local_event s') = Agreeing)).
Proof.
  intros E Hb Hp l' s' Hl E'. destruct (run_advances _ _ _ Hl E' Hp) as [Hs Hp'].
  split; [done|]. split.
  - intros Hne. destruct (threads s') as [|t ts] eqn:Et; [done|].
    unfold awaits_past in Hp'. rewrite Et in Hp'. inversion Hp' as [|? ? Ht _]; subst.
    destruct (advance_enabled _ _ Ht) as [[[d here] new] Ha].
    exists 0%nat. cbn. rewrite Et; cbn. rewrite Ha; cbn. by eexists.
  - intros Et. assert (run (l ++ l') initial = Some s') as Er by (rewrite run_app, E; done).
    pose proof (counter_exact _ _ Er) as Hc. rewrite length_app, Et in Hc.
    rewrite Hc by (rewrite Et in Hs; lia). split; [done|]. intros Hpoll. cbn. rewrite Hpoll.
    rewrite Hc by (rewrite Et in Hs; lia). done.
Qed.

(** A program that is over only after [Stop] polled: its last function releases a
    value, and the runtime is shut down while the release is still waiting. *)
Theorem release_after_poll e :
  exists s, run [StopStep; StopStep; Begin (Releasing false (Release e NoMore NoMore));
                 Advance 0; Advance 0; Happen last_local_event; StopStep; StopStep] initial = Some s /\
    stopping s = ShutDown /\ Waiting e NoMore ∈ threads s /\ sPendingEvents s = 1.
Proof.
  eexists. split; [reflexivity|]. cbn. rewrite decide_True by set_solver. split; [done|].
  split; [set_solver|reflexivity].
Qed.

(** ** Releases in one step

    [Handles] and the files above it use [Events.deferred_release], one step that
    counts a release and notes it. It is implemented by the steps of a thread that
    calls [deferred_release] with nobody else running. *)
Section Runtime.
Context {V : Type} (destructor : V -> Releases).

Definition of_runtime (past : list Event) (rt : Runtime V) : State :=
  mkState (pending_ops rt) ((fun '(v, e) => Waiting e (destructor v)) <$> released rt) past Running.

Lemma do_advance l t r n past st d here new :
  advance past t = Some (d, here, new) ->
  do_step (Advance (length l)) (mkState n (l ++ t :: r) past st)
  = Some (mkState (if d =? 0 then n else fetch_add d n)
            (l ++ option_list here ++ r ++ option_list new) past st).
Proof.
  intros Ha. cbn. rewrite list_lookup_middle by done. cbn. rewrite Ha. cbn.
  rewrite take_app_length, <- Nat.add_1_r, drop_app_add. done.
Qed.

Lemma deferred_release_steps past v e rt :
  i64 (pending_ops rt + 1) ->
  let n := length (released rt) in
  run [Begin (Releasing false (Release e (destructor v) NoMore)); Advance n; Advance n; Advance n]
    (of_runtime past rt)
  = Some (of_runtime past (deferred_release v e rt)).
Proof.
  intros Hi n. unfold of_runtime.
  assert (n = length ((fun '(v, e) => Waiting e (destructor v)) <$> released rt)) as ->
    by by rewrite length_fmap.
  erewrite run_step by reflexivity. cbn [sPendingEvents threads happened stopping].
  do 3 (erewrite run_step by by apply do_advance; cbn [option_list app]).
  unfold deferred_release, IncPendingOp, fetch_add. cbn. rewrite fmap_app. cbn.
  by rewrite to_i64_id.
Qed.
End Runtime.

(** ** What [stop] waits for (defer.h)

    The conditions: a token, an event, a handle with or without a precondition; of
    any other type the condition is ignored. *)
Inductive Condition : Type :=
| CToken (e : Event)
| CEvent (e : Event)
| CHandle (precondition : option Event)
| COther.

Definition condition_event (c : Condition) : option Event :=
  match c with
  | CToken e | CEvent e => Some e
  | CHandle precondition => precondition
  | COther => None
  end.

(** The events of the conditions, in order; [Tasks.stop_event] merges them. *)
Definition stop_conditions (cs : list Condition) : list Event := omap condition_event cs.

Lemma elem_of_inserted es l e : e ∈ foldl Tasks.AddPrecondition es l <-> e ∈ es \/ e ∈ l.
Proof.
  revert es. induction l as [|x l IH]; intros es; cbn; [set_solver|].
  rewrite IH. unfold Tasks.AddPrecondition. case_decide; set_solver.
Qed.

(** The event that [Stop] gets has triggered when all conditions have. *)
Lemma stop_event_fired fired `{!Moment fired} cs :
  fired (Tasks.stop_event (stop_conditions cs)) <-> Forall (fun c => forall e, condition_event c = Some e -> fired e) cs.
Proof.
  assert (forall es, fired (Tasks.stop_event es) <-> Forall fired es) as ->.
  { intros es. unfold Tasks.stop_event. transitivity (Forall fired (foldl Tasks.AddPrecondition [] es)).
    - destruct (foldl _ _ _) as [|e [|e' es']];
        [apply fired_merge|by rewrite Forall_singleton|apply fired_merge].
    - rewrite !Forall_forall. setoid_rewrite elem_of_inserted. set_solver. }
  unfold stop_conditions. rewrite !Forall_forall. setoid_rewrite list_elem_of_omap.
  split; [by eauto|]. intros Hf e (c & Hc & He). by eapply Hf.
Qed.
End Shutdown.

(** ** An example: a value that owns another one is released, while [Stop] polls *)
Definition example_value : Releases := Release (op 2) NoMore NoMore.

Definition example_releases : list Action :=
  [Begin (Releasing false (Release (op 1) example_value NoMore)); Advance 0; Advance 0; StopStep;
   Advance 0; StopStep; Happen (op 1); Happen (op 2)].

(** The waiting task deletes the value, which releases the inner one; then the inner
    one is deleted. *)
Definition example_deletion : list Action := replicate 4 (Advance 0) ++ replicate 2 (Advance 0).

Definition example_waiting : State :=
  mkState 1 [Waiting (op 1) example_value] [op 2; op 1] Polling.
Definition example_idle : State := mkState 0 [] [op 2; op 1] Polling.

Lemma example_releases_run : run (op 9) example_releases initial = Some example_waiting.
Proof. by vm_compute. Qed.

Lemma example_deletion_run : run (op 9) example_deletion example_waiting = Some example_idle.
Proof. by vm_compute. Qed.

Lemma stop_waits_for_releases_witness :
  ~ stopping (stop_step (op 9) example_waiting) = Agreeing /\
  stopping (stop_step (op 9) example_idle) = Agreeing.
Proof.
  split.
  - destruct (stop_waits_for_releases (op 9) example_releases _ example_releases_run
                ltac:(by apply (bool_decide_unpack _)) eq_refl) as [Hiff _].
    rewrite Hiff. intros Hf. by inversion Hf.
  - destruct (stop_waits_for_releases (op 9) (example_releases ++ example_deletion) example_idle)
      as [Hiff _].
    + by rewrite run_app, example_releases_run.
    + by apply (bool_decide_unpack _).
    + done.
    + apply Hiff. constructor.
Defined.

Lemma pending_operations_end_witness :
  all_steps (threads example_waiting) = 6%nat /\
  stopping (stop_step (op 9) example_idle) = Agreeing.
Proof.
  split; [reflexivity|].
  destruct (pending_operations_end (op 9) example_releases _ example_releases_run
              ltac:(by apply (bool_decide_unpack _)) ltac:(by apply (bool_decide_unpack _))
              example_deletion _ ltac:(by apply (bool_decide_unpack _)) example_deletion_run)
    as (_ & _ & Hend).
  by apply Hend.
Defined.
