(* ===== verification/Profiling.v ===== *)
(** Profiling (src/zuku/profile.cc, profile.h, [Task::Invoke] in task.h,
    [deferred_task_profile_stop] in task.cc): what NVTX is told about the regions of
    the program and of tasks with a name.

    [ProfileRegion] defers two tasks and a named task spawns one, so a region is
    split into the steps of its caller and of these tasks, which run in any order
    that the events allow.  [Shutdown] has the same regions as far as [Stop] waits
    for them. *)
From stdpp Require Import base tactics list numbers option strings sets.
From Stdlib Require Import ZArith Lia.
From S2P Require Import Prelude Events Shutdown.
Open Scope Z_scope.

(** [std::hash<std::string>] and the ids that [nvtxDomainRangeStartEx] answers, of
    type [nvtxRangeId_t], in the order of the calls. *)
Class Nvtx : Type := {
  name_hash : string -> Z;
  range_id : nat -> Z;
  name_hash_u64 n : 0 <= name_hash n < u64_modulus;
  range_id_u64 i : 0 <= range_id i < u64_modulus;
}.

(** [nvtxEventAttributes_t], the fields that depend on the call. *)
Record Attributes : Type := mkAttributes { color : Z; message : string }.

Definition AttrTemplate : Attributes := mkAttributes 0xFFFF0000 "".

Inductive NvtxCall : Type :=
| DomainMark (attr : Attributes)
| RangeStart (attr : Attributes) (id : Z)
| RangeEnd (id : Z)
| DomainDestroy.

(** [sProfilingActive] and the calls of NVTX so far. *)
Record Profile : Type := mkProfile { active : bool; nvtx : list NvtxCall }.

Section Profiling.
Context `{Nvtx} `{RealmEvents} `{!EqDecision Event}.

Definition nvtx_call (c : NvtxCall) : SM Profile unit :=
  sm_modify (fun s => mkProfile (active s) (nvtx s ++ [c])).

(** The attributes of a name. *)
Definition name_attributes (name : string) : Attributes :=
  let color_hash := name_hash name mod 0xFFFFFF in
  let attr := AttrTemplate in
  let attr := mkAttributes (color attr) name in
  mkAttributes (Z.lor 0xFF000000 color_hash) (message attr).

Definition MarkProfile (name : string) : SM Profile unit :=
  s ← sm_get;
  if active s then nvtx_call (DomainMark (name_attributes name)) else mret tt.

(** The ranges started so far. *)
Definition started (l : list NvtxCall) : list Z :=
  omap (fun c => match c with RangeStart _ id => Some id | _ => None end) l.
Definition ended (l : list NvtxCall) : list Z :=
  omap (fun c => match c with RangeEnd id => Some id | _ => None end) l.

Definition StartProfileRegion (name : string) : SM Profile Z :=
  s ← sm_get;
  if active s then
    let id := range_id (length (started (nvtx s))) in
    _ ← nvtx_call (RangeStart (name_attributes name) id);
    mret id
  else mret (to_u64 (-1)).

Definition StopProfileRegion (id : Z) : SM Profile unit :=
  s ← sm_get;
  if active s then nvtx_call (RangeEnd id) else mret tt.

Definition ShutdownProfiling : SM Profile unit := mret tt.

Definition TearDownProfiling : SM Profile unit := nvtx_call DomainDestroy.

(** ** Regions

    Where a region stands.  The first seven are those of [ProfileRegion], the next
    three those of [Task::Invoke] for a task with a name; the last two are a mark
    after an event. *)
Inductive Region : Type :=
| Called (name : string) (start stop : Event)
| Counted (name : string) (start stop : Event)    (* after [IncPendingOp] *)
| StartDeferred (name : string) (start stop : Event)
    (* the first task is deferred, the second not yet *)
| StartedEarly (id : Z) (stop : Event)            (* and the first has already run *)
| BothDeferred (name : string) (start stop : Event)
| Opened (id : Z) (stop : Event)                  (* the first task has run *)
| Closed                                          (* before [DecPendingOp] *)
| TaskCalled (name : string) (completion : Event)
| TaskOpened (id : Z) (completion : Event)        (* the function of the task runs *)
| StopSpawned (id : Z) (completion : Event)       (* [PROFILE_STOP] is spawned *)
| MarkCalled (name : string) (ev : Event)         (* [MarkProfile(p, name, ev)] *)
| MarkDeferred (name : string) (ev : Event).

(** A step of the function that was called, or of a task it deferred.  The id of the
    range is passed as [int64_t] and back. *)
Abbreviation Step := (Z * option Region * Profile)%type.

Definition moved (d : Z) (r : option Region) (o : outcome unit * Profile) : option Step :=
  match o.1 with Ret _ => Some (d, r, o.2) | _ => None end.

Definition opened (k : Z -> option Region) (o : outcome Z * Profile) : option Step :=
  match o.1 with Ret id => Some (0, k id, o.2) | _ => None end.

Definition ProfileRegion_caller (r : Region) (s : Profile) : option Step :=
  match r with
  | Called name start stop =>
      if active s then Some (1, Some (Counted name start stop), s) else Some (0, None, s)
  | Counted name start stop => Some (0, Some (StartDeferred name start stop), s)
  | StartDeferred name start stop => Some (0, Some (BothDeferred name start stop), s)
  | StartedEarly id stop => Some (0, Some (Opened id stop), s)
  | _ => None
  end.

Definition ProfileRegion_task (happened : list Event) (r : Region) (s : Profile) : option Step :=
  match r with
  | StartDeferred name start stop =>
      if decide (start ∈ happened)
      then opened (fun id => Some (StartedEarly id stop)) (StartProfileRegion name s) else None
  | BothDeferred name start stop =>
      if decide (start ∈ happened)
      then opened (fun id => Some (Opened id stop)) (StartProfileRegion name s) else None
  | Opened id stop =>
      if decide (stop ∈ happened)
      then moved 0 (Some Closed) (StopProfileRegion (to_u64 (to_i64 id)) s) else None
  | Closed => Some (-1, None, s)
  | _ => None
  end.

(** [Task::Invoke] with a name, and [deferred_task_profile_stop]. *)
Definition Invoke_region (r : Region) (s : Profile) : option Step :=
  match r with
  | TaskCalled name completion =>
      opened (fun id => Some (TaskOpened id completion)) (StartProfileRegion name s)
  | TaskOpened id completion => Some (0, Some (StopSpawned id completion), s)
  | _ => None
  end.

Definition deferred_task_profile_stop (happened : list Event) (r : Region) (s : Profile) : option Step :=
  match r with
  | StopSpawned id completion =>
      if decide (completion ∈ happened) then moved 0 None (StopProfileRegion id s) else None
  | _ => None
  end.

(** [MarkProfile(p, name, ev)], and the function it defers. *)
Definition MarkProfile_after (r : Region) (s : Profile) : option Step :=
  match r with
  | MarkCalled name ev => if active s then Some (0, Some (MarkDeferred name ev), s) else Some (0, None, s)
  | _ => None
  end.

Definition MarkProfile_task (happened : list Event) (r : Region) (s : Profile) : option Step :=
  match r with
  | MarkDeferred name ev => if decide (ev ∈ happened) then moved 0 None (MarkProfile name s) else None
  | _ => None
  end.

(** The caller's step or the task's. *)
Definition region_step (caller : bool) (happened : list Event) (r : Region) (s : Profile) : option Step :=
  match r, caller with
  | (TaskCalled _ _ | TaskOpened _ _), true => Invoke_region r s
  | StopSpawned _ _, false => deferred_task_profile_stop happened r s
  | MarkCalled _ _, true => MarkProfile_after r s
  | MarkDeferred _ _, false => MarkProfile_task happened r s
  | _, true => ProfileRegion_caller r s
  | _, false => ProfileRegion_task happened r s
  end.
(** ** Executions *)
Record Regions : Type := mkRegions {
  regions : list Region;
  profile_state : Profile;
  pending : Z;                  (* [sPendingEvents], as far as regions count *)
  past : list Event;
}.

Inductive Move : Type :=
| BeginRegion (name : string) (start stop : Event)
| BeginTask (name : string) (completion : Event)
| BeginMark (name : string) (ev : Event)
| Mark (name : string)
| StepRegion (caller : bool) (i : nat)
| Occur (e : Event).

Definition replace_region (i : nat) (r : option Region) (l : list Region) : list Region :=
  take i l ++ option_list r ++ drop (S i) l.

Definition do_move (m : Move) (s : Regions) : option Regions :=
  match m with
  | BeginRegion name start stop =>
      Some (mkRegions (regions s ++ [Called name start stop]) (profile_state s) (pending s) (past s))
  | BeginTask name completion =>
      Some (mkRegions (regions s ++ [TaskCalled name completion]) (profile_state s) (pending s) (past s))
  | BeginMark name ev =>
      Some (mkRegions (regions s ++ [MarkCalled name ev]) (profile_state s) (pending s) (past s))
  | Mark name =>
      Some (mkRegions (regions s) (MarkProfile name (profile_state s)).2 (pending s) (past s))
  | StepRegion caller i =>
      r ← regions s !! i;
      '(d, r', p) ← region_step caller (past s) r (profile_state s);
      Some (mkRegions (replace_region i r' (regions s)) p
              (if d =? 0 then pending s else fetch_add d (pending s)) (past s))
  | Occur e => Some (mkRegions (regions s) (profile_state s) (pending s) (e :: past s))
  end.

Fixpoint moves (l : list Move) (s : Regions) : option Regions :=
  match l with
  | [] => Some s
  | m :: l => s ← do_move m s; moves l s
  end.

(** At the start: profiling is active or not, as [Init] was told. *)
Definition no_regions (on : bool) : Regions := mkRegions [] (mkProfile on []) 0 [].

(** The range that a region has open, and whether it counts as pending. *)
Definition open_range (r : Region) : list Z :=
  match r with
  | StartedEarly id _ | Opened id _ | TaskOpened id _ | StopSpawned id _ => [id]
  | _ => []
  end.

Definition counted (r : Region) : Z :=
  match r with
  | Called _ _ _ | TaskCalled _ _ | TaskOpened _ _ | StopSpawned _ _ | MarkCalled _ _ | MarkDeferred _ _ => 0
  | _ => 1
  end.

Definition open_ranges (l : list Region) : list Z := l ≫= open_range.
Definition pending_regions (l : list Region) : Z := foldr (fun r n => counted r + n) 0 l.

(** The ids are those of NVTX. *)
Definition ids_u64 (r : Region) : Prop := Forall (fun id => 0 <= id < u64_modulus) (open_range r).

(** What a step does to the ranges and the counter: it makes some calls of NVTX, if
    profiling is active. *)
Definition step_keeps (r : Region) (s : Profile) (x : Step) : Prop :=
  let '(d, r', s') := x in
  exists l, s' = mkProfile (active s) (nvtx s ++ l) /\
    (active s = false -> l = []) /\
    (active s = true -> started l ++ open_range r ≡ₚ ended l ++ open_ranges (option_list r')) /\
    pending_regions (option_list r') = counted r + d /\ Forall ids_u64 (option_list r').

Lemma StartProfileRegion_eq name s :
  StartProfileRegion name s =
    if active s
    then let id := range_id (length (started (nvtx s))) in
         (Ret id, mkProfile true (nvtx s ++ [RangeStart (name_attributes name) id]))
    else (Ret (to_u64 (-1)), s).
Proof. unfold StartProfileRegion. rewrite sm_get_bind. destruct s as [[] l]; reflexivity. Qed.

Lemma MarkProfile_eq name s :
  (MarkProfile name s).2 =
    if active s then mkProfile true (nvtx s ++ [DomainMark (name_attributes name)]) else s.
Proof. unfold MarkProfile. rewrite sm_get_bind. destruct s as [[] l]; reflexivity. Qed.

Lemma MarkProfile_ret name s : (MarkProfile name s).1 = Ret tt.
Proof. unfold MarkProfile. rewrite sm_get_bind. by destruct s as [[] l]. Qed.

Lemma StopProfileRegion_eq id s :
  StopProfileRegion id s =
    if active s then (Ret tt, mkProfile true (nvtx s ++ [RangeEnd id])) else (Ret tt, s).
Proof. unfold StopProfileRegion. rewrite sm_get_bind. destruct s as [[] l]; reflexivity. Qed.

Lemma to_u64_i64 id : 0 <= id < u64_modulus -> to_u64 (to_i64 id) = id.
Proof.
  intros Hid. unfold to_u64, to_i64. rewrite (Z.mod_small id) by lia.
  destruct (Z.leb_spec id i64_max); [by rewrite Z.mod_small by lia|].
  rewrite <- (Z_mod_plus_full _ 1), Z.mod_small by lia. lia.
Qed.

Lemma opened_keeps name k r s :
  open_range r = [] -> (forall id, open_range (k id) = [id]) -> (forall id, counted (k id) = counted r) ->
  forall x, opened (fun id => Some (k id)) (StartProfileRegion name s) = Some x -> step_keeps r s x.
Proof.
  intros Hr Hk Hc x. rewrite StartProfileRegion_eq. destruct s as [[] cs]; cbn [active nvtx]; intros [= <-].
  - assert (ids_u64 (k (range_id (length (started cs))))) as Hi.
    { unfold ids_u64. rewrite Hk. constructor; [apply range_id_u64|constructor]. }
    eexists. split; [reflexivity|]. split; [done|].
    cbn. rewrite Hk, Hr, Hc. split_and!; first [done|lia|by repeat constructor].
  - assert (ids_u64 (k (to_u64 (-1)))) as Hi.
    { unfold ids_u64. rewrite Hk. by repeat constructor. }
    exists []. rewrite app_nil_r. cbn. rewrite Hc. split_and!; first [done|lia|by repeat constructor].
Qed.

Lemma moved_keeps id d k r s :
  open_range r = [id] -> open_ranges (option_list k) = [] -> pending_regions (option_list k) = counted r + d ->
  forall x, moved d k (StopProfileRegion id s) = Some x -> step_keeps r s x.
Proof.
  intros Hr Hk Hc x. rewrite StopProfileRegion_eq.
  assert (Forall ids_u64 (option_list k)) as Hi.
  { destruct k as [k|]; [|constructor]. cbn in Hk. rewrite app_nil_r in Hk.
    constructor; [|constructor]. unfold ids_u64. rewrite Hk. constructor. }
  destruct s as [[] cs]; cbn [active nvtx]; intros [= <-].
  - eexists. split; [reflexivity|]. split; [done|]. rewrite Hr, Hk. by split_and!.
  - exists []. rewrite app_nil_r. by split_and!.
Qed.

(** A step without calls. *)
Lemma quiet_keeps d r r' s :
  open_range r = open_ranges (option_list r') -> pending_regions (option_list r') = counted r + d ->
  ids_u64 r -> step_keeps r s (d, r', s).
Proof.
  intros Ho Hc Hi. exists []. rewrite app_nil_r. split; [by destruct s|]. split; [done|].
  split; [intros _; by rewrite Ho|]. split; [done|].
  destruct r' as [r'|]; [|constructor]. constructor; [|constructor]. unfold ids_u64.
  cbn in Ho. rewrite app_nil_r in Ho. by rewrite <- Ho.
Qed.

Lemma marked_keeps name r s :
  open_range r = [] -> counted r = 0 ->
  forall x, moved 0 None (MarkProfile name s) = Some x -> step_keeps r s x.
Proof.
  intros Hr Hc x. unfold moved. rewrite MarkProfile_ret, MarkProfile_eq.
  destruct s as [[] cs]; cbn [active nvtx]; intros [= <-].
  - eexists. split; [reflexivity|]. cbn. rewrite Hr, Hc. by split_and!.
  - exists []. rewrite app_nil_r. cbn. rewrite Hc. by split_and!.
Qed.

Lemma region_step_keeps caller happened r s x :
  region_step caller happened r s = Some x -> ids_u64 r -> step_keeps r s x.
Proof.
  intros E Hi. destruct caller, r; cbn in E; try done;
    try case_decide; try (destruct (active s) eqn:Ea); try done;
    try (injection E as <-; by apply quiet_keeps).
  all: try solve
    [ by apply (opened_keeps name (fun id => TaskOpened id completion))
    | by apply (opened_keeps name (fun id => StartedEarly id stop))
    | by apply (opened_keeps name (fun id => Opened id stop))
    | by apply (marked_keeps name) ].
  all: match goal with E : moved _ _ _ = _ |- _ => refine (moved_keeps _ _ _ _ _ _ _ _ _ E) end; try done.
  all: cbn [open_range]; rewrite to_u64_i64; [done|by inversion Hi].
Qed.

(** ** The invariant *)
Record ranges_inv (on : bool) (s : Regions) : Prop := {
  ri_active : active (profile_state s) = on;
  ri_inactive : on = false -> nvtx (profile_state s) = [];
  ri_paired : on = true ->
    started (nvtx (profile_state s)) ≡ₚ ended (nvtx (profile_state s)) ++ open_ranges (regions s);
  ri_pending : pending s = to_i64 (pending_regions (regions s));
  ri_ids : Forall ids_u64 (regions s);
}.

Lemma started_app l k : started (l ++ k) = started l ++ started k.
Proof. apply omap_app. Qed.
Lemma ended_app l k : ended (l ++ k) = ended l ++ ended k.
Proof. apply omap_app. Qed.

Lemma open_ranges_app l k : open_ranges (l ++ k) = open_ranges l ++ open_ranges k.
Proof. apply bind_app. Qed.
Lemma pending_regions_app l k : pending_regions (l ++ k) = pending_regions l + pending_regions k.
Proof. unfold pending_regions. induction l as [|r l IH]; [done|]. cbn. rewrite IH. lia. Qed.

Lemma begin_keeps on r s :
  open_range r = [] -> counted r = 0 -> ranges_inv on s ->
  ranges_inv on (mkRegions (regions s ++ [r]) (profile_state s) (pending s) (past s)).
Proof.
  intros Ho Hc [Ha Hi Hp Hn Hid]. split; cbn [regions profile_state pending]; try done.
  - intros Hon. rewrite open_ranges_app. cbn. rewrite Ho, !app_nil_r. auto.
  - rewrite Hn, pending_regions_app. cbn. by rewrite Hc, !Z.add_0_r.
  - rewrite Forall_app, Forall_singleton. split; [done|]. unfold ids_u64. rewrite Ho. constructor.
Qed.

Lemma mark_keeps on name s :
  ranges_inv on s ->
  ranges_inv on (mkRegions (regions s) (MarkProfile name (profile_state s)).2 (pending s) (past s)).
Proof.
  intros [Ha Hi Hp Hn Hid]. rewrite MarkProfile_eq, Ha. destruct on; [|by split].
  split; cbn [regions profile_state pending active nvtx]; try done.
  intros _. rewrite started_app, ended_app, !app_nil_r. auto.
Qed.

Lemma step_region_keeps on i r s d r' p :
  regions s !! i = Some r -> step_keeps r (profile_state s) (d, r', p) -> ranges_inv on s ->
  ranges_inv on (mkRegions (replace_region i r' (regions s)) p
                   (if d =? 0 then pending s else fetch_add d (pending s)) (past s)).
Proof.
  intros Hr (l & -> & Hl & Hk & Hc & Hids) [Ha Hi Hp Hn Hid].
  pose proof (take_drop_middle _ _ _ Hr) as Er. unfold replace_region.
  set (a := take i (regions s)) in *. set (b := drop (S i) (regions s)) in *.
  split; cbn [regions profile_state pending active nvtx]; try done.
  - intros Hon. rewrite Hl, app_nil_r; [auto|congruence].
  - intros Hon. rewrite started_app, ended_app, (Hp Hon), <- Er, !open_ranges_app.
    change (open_ranges (r :: b)) with (open_range r ++ open_ranges b).
    specialize (Hk ltac:(congruence)).
    transitivity (ended (nvtx (profile_state s)) ++ open_ranges a ++ (started l ++ open_range r) ++ open_ranges b).
    { solve_Permutation. }
    rewrite Hk. solve_Permutation.
  - rewrite !pending_regions_app, Hc. rewrite <- Er, pending_regions_app in Hn. cbn in Hn.
    assert (pending_regions a + (counted r + d + pending_regions b)
            = (pending_regions a + (counted r + pending_regions b)) + d) as -> by lia.
    destruct (Z.eqb_spec d 0) as [->|]; [by rewrite Z.add_0_r|]. unfold fetch_add. rewrite Hn. apply to_i64_add.
  - rewrite <- Er in Hid. rewrite Forall_app, Forall_cons in Hid. rewrite !Forall_app. tauto.
Qed.

Lemma do_move_keeps on m s s' : do_move m s = Some s' -> ranges_inv on s -> ranges_inv on s'.
Proof.
  intros E Hs. destruct m as [name start stop|name completion|name ev|name|caller i|e]; cbn in E.
  - injection E as <-. by apply begin_keeps.
  - injection E as <-. by apply begin_keeps.
  - injection E as <-. by apply begin_keeps.
  - injection E as <-. by apply mark_keeps.
  - apply bind_Some in E as (r & Hr & E). apply bind_Some in E as ([[d r'] p] & Hx & E). injection E as <-.
    eapply step_region_keeps; [done| |done]. eapply region_step_keeps; [done|].
    destruct Hs as [_ _ _ _ Hid]. by eapply Forall_lookup_1 in Hid.
  - injection E as <-. by destruct Hs as [Ha Hi Hp Hn Hid].
Qed.

Lemma moves_keep on l s s' : moves l s = Some s' -> ranges_inv on s -> ranges_inv on s'.
Proof.
  revert s. induction l as [|m l IH]; cbn; intros s E Hs; [by injection E as <-|].
  apply bind_Some in E as (s1 & E1 & E). eauto using do_move_keeps.
Qed.

Lemma no_regions_inv on : ranges_inv on (no_regions on).
Proof. by split. Qed.
(** ** Progress *)
Definition region_measure (r : Region) : nat :=
  match r with
  | Called _ _ _ => 6
  | Counted _ _ _ => 5
  | StartDeferred _ _ _ => 4
  | StartedEarly _ _ | BothDeferred _ _ _ | TaskCalled _ _ => 3
  | Opened _ _ | TaskOpened _ _ | MarkCalled _ _ => 2
  | Closed | StopSpawned _ _ | MarkDeferred _ _ => 1
  end.

Definition regions_measure (l : list Region) : nat := sum_list_with region_measure l.

(** The events a region still waits for. *)
Definition awaited (r : Region) : list Event :=
  match r with
  | Called _ start stop | Counted _ start stop | StartDeferred _ start stop
  | BothDeferred _ start stop => [start; stop]
  | StartedEarly _ stop | Opened _ stop => [stop]
  | Closed => []
  | TaskCalled _ e | TaskOpened _ e | StopSpawned _ e | MarkCalled _ e | MarkDeferred _ e => [e]
  end.

Lemma opened_some k name s : exists id p, opened k (StartProfileRegion name s) = Some (0, k id, p).
Proof. rewrite StartProfileRegion_eq. destruct (active s); eauto. Qed.

Lemma moved_some d k id s : exists p, moved d k (StopProfileRegion id s) = Some (d, k, p).
Proof. rewrite StopProfileRegion_eq. destruct (active s); eauto. Qed.

Lemma marked_some d k name s : exists p, moved d k (MarkProfile name s) = Some (d, k, p).
Proof. unfold moved. rewrite MarkProfile_ret. eauto. Qed.

(** Every step brings a region nearer to its end. *)
Lemma region_step_decreases caller happened r s d r' p :
  region_step caller happened r s = Some (d, r', p) ->
  (regions_measure (option_list r') < region_measure r)%nat.
Proof.
  intros E. destruct caller, r; cbn in E; try done; try case_decide; try done;
    try (destruct (active s)); try (injection E as <- <- <-; unfold regions_measure; cbn; lia);
    match type of E with
    | context [opened ?k (StartProfileRegion ?n ?t)] => destruct (opened_some k n t) as (id' & q & Eq)
    | context [moved ?d' ?k (StopProfileRegion ?j ?t)] => destruct (moved_some d' k j t) as (q & Eq)
    | context [moved ?d' ?k (MarkProfile ?n ?t)] => destruct (marked_some d' k n t) as (q & Eq)
    end; rewrite Eq in E; injection E as <- <- <-; unfold regions_measure; cbn; lia.
Qed.

(** A region whose events have happened can make a step. *)
Lemma region_step_enabled happened r s :
  Forall (.∈ happened) (awaited r) -> exists caller x, region_step caller happened r s = Some x.
Proof.
  rewrite Forall_forall. intros Hh. destruct r; cbn in Hh.
  - exists true. cbn. destruct (active s); eauto.
  - exists true. cbn. eauto.
  - exists true. cbn. eauto.
  - exists true. cbn. eauto.
  - exists false. cbn. rewrite decide_True by (apply Hh; set_solver).
    destruct (opened_some (fun id => Some (Opened id stop)) name s) as (id & q & ->). eauto.
  - exists false. cbn. rewrite decide_True by (apply Hh; set_solver).
    destruct (moved_some 0 (Some Closed) (to_u64 (to_i64 id)) s) as (q & ->). eauto.
  - exists false. cbn. eauto.
  - exists true. cbn. destruct (opened_some (fun id => Some (TaskOpened id completion)) name s) as (id & q & ->). eauto.
  - exists true. cbn. eauto.
  - exists false. cbn. rewrite decide_True by (apply Hh; set_solver).
    destruct (moved_some 0 None id s) as (q & ->). eauto.
  - exists true. cbn. destruct (active s); eauto.
  - exists false. cbn. rewrite decide_True by (apply Hh; set_solver).
    destruct (marked_some 0 None name s) as (q & ->). eauto.
Qed.

Lemma counted_range r : 0 <= counted r <= 1.
Proof. destruct r; cbn; lia. Qed.

Lemma pending_regions_nonneg l : 0 <= pending_regions l.
Proof. induction l as [|r l IH]; cbn; [done|]. pose proof (counted_range r). unfold pending_regions in IH. lia. Qed.

Lemma pending_regions_length l : pending_regions l <= Z.of_nat (length l).
Proof. induction l as [|r l IH]; cbn; [done|]. pose proof (counted_range r). unfold pending_regions in IH. lia. Qed.

Lemma pending_regions_zero l : pending_regions l = 0 <-> Forall (fun r => counted r = 0) l.
Proof.
  unfold pending_regions. induction l as [|r l IH]; cbn; [by split; constructor|].
  rewrite Forall_cons, <- IH. pose proof (counted_range r). pose proof (pending_regions_nonneg l) as Hl.
  unfold pending_regions in Hl. lia.
Qed.

Lemma do_move_length m s s' :
  do_move m s = Some s' -> (length (regions s') <= S (length (regions s)))%nat.
Proof.
  intros E. destruct m as [name start stop|name completion|name ev|name|caller i|e]; cbn in E;
    try (injection E as <-; cbn [regions]; rewrite ?length_app; cbn; lia).
  apply bind_Some in E as (r & Hr & E). apply bind_Some in E as ([[d r'] p] & Hx & E). injection E as <-.
  cbn [regions]. unfold replace_region. rewrite !length_app, length_take, length_drop.
  apply lookup_lt_Some in Hr. destruct r'; cbn; lia.
Qed.

Lemma moves_length l s s' :
  moves l s = Some s' -> (length (regions s') <= length l + length (regions s))%nat.
Proof.
  revert s. induction l as [|m l IH]; cbn; intros s E; [injection E as <-; lia|].
  apply bind_Some in E as (s1 & E1 & E). apply IH in E. apply do_move_length in E1. lia.
Qed.

Lemma do_move_measure caller i s s' :
  do_move (StepRegion caller i) s = Some s' ->
  (regions_measure (regions s') < regions_measure (regions s))%nat.
Proof.
  cbn. intros E. apply bind_Some in E as (r & Hr & E).
  apply bind_Some in E as ([[d r'] p] & Hx & E). injection E as <-. cbn [regions].
  apply region_step_decreases in Hx. pose proof (f_equal regions_measure (take_drop_middle _ _ _ Hr)) as Em.
  unfold replace_region, regions_measure in *. rewrite !sum_list_with_app in *. cbn in Em. lia.
Qed.

(** *** [Shutdown] has the same regions

    with the steps that it does not tell apart left out. *)
Definition thread_of (r : Region) : option Thread :=
  match r with
  | Called _ start stop => Some (RegionCall start stop)
  | Counted _ start stop | StartDeferred _ start stop | BothDeferred _ start stop =>
      Some (RegionWaiting start stop)
  | StartedEarly _ stop | Opened _ stop => Some (RegionOpen stop)
  | Closed => Some RegionClosed
  | TaskCalled _ _ | TaskOpened _ _ | StopSpawned _ _ | MarkCalled _ _ | MarkDeferred _ _ => None
  end.

Lemma region_step_simulated caller happened r s d r' p t :
  active s = true -> thread_of r = Some t -> region_step caller happened r s = Some (d, r', p) ->
  (d = 0 /\ r' ≫= thread_of = Some t) \/
  ProfileRegion_step happened t = Some (d, r' ≫= thread_of, None).
Proof.
  intros Ha Ht E.
  destruct caller, r; cbn in Ht, E; try done; injection Ht as <-; cbn [ProfileRegion_step];
    rewrite ?Ha in E; try case_decide; try done; try (injection E as <- <- <-; by auto);
    match type of E with
    | context [opened ?k (StartProfileRegion ?n ?t)] => destruct (opened_some k n t) as (id' & q & Eq)
    | context [moved ?d' ?k (StopProfileRegion ?j ?t)] => destruct (moved_some d' k j t) as (q & Eq)
    | context [moved ?d' ?k (MarkProfile ?n ?t)] => destruct (marked_some d' k n t) as (q & Eq)
    end; rewrite Eq in E; injection E as <- <- <-; by auto.
Qed.

(** C28: for every interleaving of the callers and the tasks of the regions, NVTX is
    told nothing when profiling is off, and otherwise every range that was started is
    ended once or still open at exactly one region; the counter is zero exactly when
    no [ProfileRegion] is under way; and when the events of the regions have happened
    some step is left until every range is ended, and every step brings that nearer. *)
Theorem profile_ranges_paired on l s :
  moves l (no_regions on) = Some s -> Z.of_nat (length l) <= i64_max ->
  let calls := nvtx (profile_state s) in
  (on = false -> calls = []) /\
  (on = true -> started calls ≡ₚ ended calls ++ open_ranges (regions s)) /\
  (pending s = 0 <-> Forall (fun r => counted r = 0) (regions s)) /\
  (regions s = [] -> started calls ≡ₚ ended calls) /\
  (Forall (fun r => Forall (.∈ past s) (awaited r)) (regions s) -> regions s <> [] ->
    exists caller i s', do_move (StepRegion caller i) s = Some s') /\
  (forall caller i s', do_move (StepRegion caller i) s = Some s' ->
    (regions_measure (regions s') < regions_measure (regions s))%nat).
Proof.
  intros E Hl calls. destruct (moves_keep on _ _ _ E (no_regions_inv on)) as [Ha Hi Hp Hn Hid].
  split; [done|]. split; [done|]. split.
  { rewrite Hn, to_i64_id.
    - apply pending_regions_zero.
    - apply moves_length in E. cbn in E. pose proof (pending_regions_nonneg (regions s)).
      pose proof (pending_regions_length (regions s)). unfold i64. lia. }
  split.
  { intros Er. unfold calls. destruct on; [|by rewrite Hi].
    specialize (Hp eq_refl). rewrite Er in Hp. cbn [open_ranges mbind list_bind] in Hp. by rewrite app_nil_r in Hp. }
  split; [|intros caller i s'; apply do_move_measure].
  intros Hw Hne. destruct (regions s) as [|r k] eqn:Er; [done|].
  destruct (region_step_enabled (past s) r (profile_state s)) as (caller & [[d r'] p] & Hx); [by inversion Hw|].
  exists caller, 0%nat. cbn. rewrite Er. cbn. rewrite Hx. eauto.
Qed.
End Profiling.

(** ** An example: the first task of a region runs before the second is deferred, and
    the range of a task ends meanwhile *)
#[local] Program Instance example_nvtx : Nvtx := {|
  name_hash n := Z.of_nat (String.length n) mod u64_modulus;
  range_id i := (i64_max + 1 + Z.of_nat i) mod u64_modulus;
|}.
Next Obligation. intros n. by apply Z.mod_pos_bound. Qed.
Next Obligation. intros i. by apply Z.mod_pos_bound. Qed.

Definition example_moves : list Move :=
  [Mark "start"; BeginRegion "copy" (op 1) (op 2); BeginTask "task" (op 3);
   StepRegion true 0; StepRegion true 0; StepRegion true 1; Occur (op 1); StepRegion false 0;
   StepRegion true 0; Occur (op 2); StepRegion false 0; StepRegion true 1; Occur (op 3);
   StepRegion false 1; StepRegion false 0].

Definition example_calls : list NvtxCall :=
  [DomainMark (mkAttributes 0xFF000005 "start");
   RangeStart (mkAttributes 0xFF000004 "task") (i64_max + 1);
   RangeStart (mkAttributes 0xFF000004 "copy") (i64_max + 2);
   RangeEnd (i64_max + 2); RangeEnd (i64_max + 1)].

Lemma example_moves_run :
  moves example_moves (no_regions true) =
    Some (mkRegions [] (mkProfile true example_calls) 0 [op 3; op 2; op 1]).
Proof. vm_compute. reflexivity. Qed.

Lemma profile_ranges_paired_witness :
  started example_calls = [i64_max + 1; i64_max + 2] /\ started example_calls ≡ₚ ended example_calls.
Proof.
  split; [by vm_compute|].
  destruct (profile_ranges_paired true example_moves _ example_moves_run) as (_ & _ & _ & He & _).
  - by apply (bool_decide_unpack _).
  - by apply He.
Defined.
