(* ===== verification/Program.v ===== *)
(** A whole program (src/zuku/defer.h, [program]): [Init], the deferred function and
    [stop], which are modelled in [Startup], [Tasks] and [Shutdown]. *)
From stdpp Require Import base tactics list numbers option strings sets.
From Stdlib Require Import ZArith Lia.
From S2P Require Import Prelude Events Processor Handles Promises TaskArguments Tasks TaskSpecs TaskOrder TaskProps Shutdown.
From S2P Require Startup Contexts.
Open Scope Z_scope.

Section Program.
Context `{RealmTasks} `{!EqDecision Event} `{!Startup.RealmRuntime} `{!RealmMachine} {V : Type}.
Context (code : nat -> Lambda (V := V)) (arg_of : Processor -> Arg (V := V)).

(** The state of the process: what Realm was asked for and the tables of the
    processors, and the handles and tasks. *)
Record Process : Type := mkProcess {
  p_boot : Startup.Boot;
  p_system : System (V := V);
}.

Definition on_boot {A} (m : SM Startup.Boot A) : SM Process A := fun s =>
  let '(r, b) := m (p_boot s) in (r, mkProcess b (p_system s)).

Definition on_system {A} (m : SM System A) : SM Process A := fun s =>
  let '(r, t) := m (p_system s) in (r, mkProcess (p_boot s) t).

(** [defer(f)]: with an empty context, on [Processor::Util()]. *)
Definition defer_main (f : nat) : SM Process ReturnToken := fun s =>
  on_system (Context_defer code (Processor_Util (Startup.procs (p_boot s))) arg_of [] f []) s.

(** [program(f, argc, argv, cfg)], up to the call of [Stop] with the event it
    returns. *)
Definition program (f : nat) (argv : list string) (cfg : Startup.RealmConfig) : SM Process Event :=
  _ ← on_boot (Startup.Init TASK_ID_FIRST_AVAILABLE argv cfg);
  token ← defer_main f;
  mret (stop_event (stop_conditions [CToken (token_event token)])).

(** ** The deferral of a function without arguments succeeds *)
Lemma on_sys_heap_ret {A} (m : SM (@Heap _ V) A) s a h' :
  m (o_heap (sys_objects s)) = (Ret a, h') ->
  on_sys_heap m s = (Ret a, set_objects (set_heap h' (sys_objects s)) s).
Proof. intros E. unfold on_sys_heap, on_objs, on_heap. by rewrite E. Qed.

Lemma Task_new_no_args ev p f s :
  log_created (o_heap (sys_objects s)) ->
  exists task s', Task_new code ev [] p f [] s = (Ret task, s') /\ arguments task = [] /\
    task_base task = mkTaskBase [] None p /\
    forall ev, exists fs, FutureWrappedReturn code task ev = Ret fs.
Proof.
  intros Hlog. unfold Task_new.
  assert (exists ps s1, (match l_ret (code f) with
              | Some ks => on_sys_heap (make_promise_tuple ks) | None => mret [] end : SM System (list Promise)) s
            = (Ret ps, s1) /\
          forall ev task, task_lambda task = f -> task_promises task = ps ->
            exists fs, FutureWrappedReturn code task ev = Ret fs) as (ps & s1 & E1 & Hfs).
  { destruct (l_ret (code f)) as [ks|] eqn:El.
    - destruct (create_promises ks _ Hlog) as (ps & h' & E & F & _). exists ps. eexists.
      split; [by apply on_sys_heap_ret|]. intros e task Ht Hp. unfold FutureWrappedReturn.
      rewrite Ht, El, Hp. destruct (create_futures (V := V) ks ps e F) as (fs & Efs & _). by exists fs.
    - exists [], s. split; [done|]. intros e task Ht _. unfold FutureWrappedReturn. rewrite Ht, El. by eexists. }
  rewrite (sm_bind_ret _ _ _ _ _ E1). cbn.
  eexists _, _. split; [reflexivity|]. split; [done|]. split; [done|].
  intros e. by apply Hfs.
Qed.
Lemma sm_bind_of {S A B} (m : SM S A) (k : A -> SM S B) s a s' :
  m s = (Ret a, s') -> (exists b s2, k a s' = (Ret b, s2)) -> exists b s2, (m ≫= k) s = (Ret b, s2).
Proof. intros E (b & s2 & E2). exists b, s2. by rewrite (sm_bind_ret _ _ _ _ _ E). Qed.

Lemma defer_task_no_args util p f s :
  util = Ret p -> log_created (o_heap (sys_objects s)) ->
  exists tok s', defer_task code util [] p f [] s = (Ret tok, s').
Proof.
  intros Hu Hlog. unfold defer_task.
  eapply sm_bind_of; [apply on_sys_heap_ret; reflexivity|].
  match goal with |- exists _ _, _ ?s1 = _ => destruct (GetTaskId_only_ids f (type_ p) s1) as (id & s2 & E2 & Ho & _) end.
  eapply sm_bind_of; [exact E2|]. rewrite sm_get_bind.
  eapply sm_bind_of; [reflexivity|].
  match goal with |- context [Task_new code ?ev _ p f []] => set (e := ev) end.
  match goal with |- exists _ _, _ ?x = _ => set (s1 := x); destruct (Task_new_no_args e p f s1) as (task & s3 & E3 & _ & _ & Hfs) end.
  { unfold s1. cbn. rewrite Ho. cbn. intros t Ht. specialize (Hlog t Ht). cbn. lia. }
  eapply sm_bind_of; [exact E3|]. eapply sm_bind_of; [reflexivity|].
  assert (exists s4, (if decide (type_ p = GPU) then u ← sm_lift util; spawn (mkSpawn (proc_ u) DELETE_TASK (Some (length (sys_tasks s2))) e 0);; mret tt else mret tt : SM System unit)
            (set_tasks (sys_tasks s3 ++ [Some task]) s3) = (Ret tt, s4)) as [s4 E4].
  { rewrite Hu. case_decide; by eexists. }
  eapply sm_bind_of; [exact E4|]. destruct (Hfs e) as [fs Efs]. rewrite Efs.
  eapply sm_bind_of; [reflexivity|]. eapply sm_bind_of; [apply on_sys_heap_ret; reflexivity|].
  eapply sm_bind_of; [reflexivity|]. by do 2 eexists.
Qed.

(** What [defer(f)] does: one task is spawned on the processor, and starts at once. *)
Lemma defer_main_spec f s p :
  Processor_Util (Startup.procs (p_boot s)) = Ret p -> log_created (o_heap (sys_objects (p_system s))) ->
  exists tok t task w, defer_main f s = (Ret tok, mkProcess (p_boot s) t) /\
    defer_result code [] p f [] (p_system s) tok t task w.
Proof.
  intros Hu Hlog. unfold defer_main, on_system, Context_defer.
  change (Contexts.get_group []) with (@None (list Processor)). cbv beta iota.
  assert (_defer code (Processor_Util (Startup.procs (p_boot s))) [] f [] (p_system s)
          = defer_task code (Processor_Util (Startup.procs (p_boot s))) [] p f [] (p_system s)) as Ed.
  { unfold _defer, target_processor. cbn [Contexts.get_processor]. by rewrite Hu. }
  destruct (defer_task_no_args _ p f (p_system s) Hu Hlog) as (tok & t & E).
  destruct (defer_task_spec _ _ _ _ _ _ _ _ _ E) as (task & w & R).
  exists tok, t, task, w. split; [|done]. rewrite E in Ed. by rewrite Ed.
Qed.
(** [Stop] is past its wait for the processes to agree only when the event it was
    given has triggered. *)
Lemma stop_past_event e l s :
  run e l initial = Some s -> stopping s = Sleeping \/ stopping s = ShutDown -> e ∈ happened s.
Proof.
  assert (forall s0, (stopping s0 = Sleeping \/ stopping s0 = ShutDown -> e ∈ happened s0) ->
            run e l s0 = Some s -> stopping s = Sleeping \/ stopping s = ShutDown -> e ∈ happened s) as Hrun.
  { induction l as [|a l IH]; intros s0 Hs0 E; cbn in E; [by injection E as <-|].
    apply bind_Some in E as (s1 & E1 & E). apply (IH s1); [|done].
    destruct a as [t|i|e'|]; cbn in E1.
    - destruct (entry t); [|done]. by injection E1 as <-.
    - apply bind_Some in E1 as (t & _ & E1). apply bind_Some in E1 as ([[d r] n] & _ & E1). by injection E1 as <-.
    - injection E1 as <-. cbn. intros Hs. right. auto.
    - injection E1 as <-. cbn. destruct (stopping s0); try (by intros []); try done.
      + destruct (0 <? sPendingEvents s0); by intros [].
      + case_decide; [done|by intros []].
      + intros _. auto. }
  apply Hrun. by intros [].
Qed.

(** The task of the function has no preconditions. *)
Lemma main_starts_at_once p f s tok t task w :
  defer_result code [] p f [] s tok t task w -> start_precondition [] task = NO_EVENT.
Proof.
  intros R. destruct (dr_args _ _ _ _ _ _ _ _ _ _ R) as (st & o1 & o2 & _ & _ & Ea & _).
  injection Ea as Ha _. pose proof (dr_merged _ _ _ _ _ _ _ _ _ _ R) as Hm.
  unfold start_precondition. cbn [Contexts.get_event].
  rewrite <- Ha in Hm. cbn in Hm. injection Hm as Hm. by rewrite <- Hm.
Qed.

(** C23: a program whose start Realm does not refuse defers its function as one task
    that starts at once on the processor for utilities, and [Stop] shuts the runtime
    down, in any interleaving with the pending operations, only when that task has
    completed and the futures it returned are ready. *)
Theorem program_runs_main (f : nat) argv cfg st p (s : Process)
    (Hf : Startup.memories_fit cfg)
    (Hr : Startup.refused (Startup.demands argv cfg) = None)
    (Ha : Startup.remaining_args argv cfg <> [])
    (Hst : Processor.Init (Startup.procs (p_boot s)) = Ret st)
    (Hp : Processor_Util st = Ret p)
    (Hlog : log_created (o_heap (sys_objects (p_system s)))) :
  exists e t task w,
    program f argv cfg s =
      (Ret e, mkProcess (Startup.started TASK_ID_FIRST_AVAILABLE argv cfg st (p_boot s)) t) /\
    sys_tasks t = sys_tasks (p_system s) ++ [Some task] /\ task_lambda task = f /\
    (exists func n, sys_spawned t !! length (sys_spawned (p_system s)) =
       Some (mkSpawn (proc_ p) func (Some (length (sys_tasks (p_system s)))) (user_event w) n)) /\
    (w, NO_EVENT) ∈ triggered (sys_rt t) /\
    forall l stop, run e l initial = Some stop ->
      stopping stop = Sleeping \/ stopping stop = ShutDown ->
      forall fired, Moment fired -> Forall fired (happened stop) ->
        fired (completion_event task) /\
        forall fs, FutureWrappedReturn code task (completion_event task) = Ret fs ->
          Forall (fun r => fired (result_event r)) fs.
Proof.
  destruct (Startup.init_follows_plan TASK_ID_FIRST_AVAILABLE argv cfg st (p_boot s) Hf (fun _ => Ha) Hst) as [Ei _].
  rewrite Hr in Ei.
  set (s1 := mkProcess (Startup.started TASK_ID_FIRST_AVAILABLE argv cfg st (p_boot s)) (p_system s)).
  destruct (defer_main_spec f s1 p Hp Hlog) as (tok & t & task & w & Ed & R).
  exists (token_event tok), t, task, w. split_and!.
  - unfold program. erewrite sm_bind_ret by (unfold on_boot; by rewrite Ei).
    by rewrite (sm_bind_ret _ _ _ _ _ Ed).
  - apply R.
  - apply R.
  - apply R.
  - rewrite (dr_log _ _ _ _ _ _ _ _ _ _ R), (main_starts_at_once _ _ _ _ _ _ _ R). apply elem_of_app. right. by left.
  - intros l stop Er Hs fired Hm Hh.
    assert (fired (token_event tok)) as Hfe.
    { rewrite Forall_forall in Hh. by eapply Hh, stop_past_event. }
    assert (fired (completion_event task) /\ Forall (fun r => fired (result_event r)) (token_results tok))
      as [Hc Hres] by (by eapply token_covers_results).
    split; [done|].
    intros fs Efs. rewrite (dr_results _ _ _ _ _ _ _ _ _ _ R) in Efs. by injection Efs as <-.
Qed.
End Program.

(** ** An example: a program that returns a value *)
Definition example_main (f : nat) : Lambda (V := nat) :=
  mkLambda [] (Some [KValue]) (fun _ => mret ([], true)).

Definition example_process : Process (V := nat) :=
  mkProcess Startup.example_boot
    (mkSystem (mkObjects (mkHeap initial_runtime [] []) [] [] []) [] [] [] [] (FIRST_AVAILABLE) []).

#[local] Existing Instance Startup.example_runtime.

(** [Stop] polls, asks the processes to agree, and sleeps when they have. *)
Lemma example_stop (e : @Event example_events) :
  run e [StopStep; StopStep; Happen e; StopStep] initial = Some (mkState 0 [] [e] Sleeping).
Proof.
  transitivity (Some (stop_step e (mkState 0 [] [e] Agreeing))); [reflexivity|].
  unfold stop_step; cbn [stopping happened sPendingEvents threads]. by rewrite decide_True by (by left).
Qed.

(** The moment when everything is over. *)
Definition over_everywhere (e : @Event example_events) : Prop :=
  fires_all (fun _ => true) (fun _ => true) (fun _ => true) (fun _ _ => true) e = true.

Lemma all_over e : over_everywhere e.
Proof. unfold over_everywhere. induction e; cbn; try done. by rewrite IHe1, IHe2. Qed.

Lemma program_runs_main_witness :
  exists e t task,
    program example_main (fun _ => APlain 0%nat) 0 ["app"%string] (Startup.example_config 4) example_process
      = (Ret e, t) /\
    sys_tasks (p_system t) = [Some task] /\ over_everywhere (completion_event task).
Proof.
  destruct (program_runs_main example_main (fun _ => APlain 0%nat) 0 ["app"%string] (Startup.example_config 4)
              (final_state 1) (mkProc UTIL 0 1 2) example_process (Startup.example_fits 4) ltac:(by vm_compute)
              ltac:(by vm_compute) Startup.example_numbered ltac:(by vm_compute)
              ltac:(by intros t Ht%elem_of_nil))
    as (e & t & task & w & E & Ht & _ & _ & _ & Hstop).
  exists e. eexists. exists task. split; [exact E|]. split; [exact Ht|].
  destruct (Hstop _ _ (example_stop e) ltac:(by left) over_everywhere _) as [Hc _]; [|exact Hc].
  constructor; [|constructor]. apply all_over.
Defined.
