(* ===== verification/Streams.v ===== *)
(** Streams (src/zuku/stream.h, stream.cc): a stream-ordered task gets a [Stream]
    and tells it on which CUDA stream its work is ordered.  The driver is not part
    of the repository: [CudaDriver] says which of its calls succeed, and the model
    records them. *)
From stdpp Require Import base tactics list numbers option strings.
From Stdlib Require Import ZArith Lia.
From S2P Require Import Prelude.

(** The calls of Realm and of the driver; CUDA events are numbered in the order of
    their creation, [stream] is a CUDA stream. *)
Inductive DriverCall : Type :=
| SetTaskCtxsyncRequired (b : bool)
| EventCreate
| EventRecord (event stream : nat)
| StreamWaitEvent (stream event : nat).

#[export] Instance DriverCall_eq_dec : EqDecision DriverCall.
Proof. solve_decision. Defined.

Class CudaDriver : Type := {
  zuku_HAS_CUDA : bool;
  dlopen_libcuda : bool;
  dlsym : string -> bool;
  cuda_success : list DriverCall -> DriverCall -> bool;   (* after the calls so far *)
  task_cuda_stream : nat;                                  (* get_task_cuda_stream() *)
}.

(** The state: the calls so far, and how many events there are. *)
Record Driver : Type := mkDriver { driver_calls : list DriverCall; cuda_events : nat }.

Inductive StreamVariant : Type := CpuStream (synced_ : bool) | GpuStream (synced_ : bool).

Definition synced (s : StreamVariant) : bool :=
  match s with CpuStream b | GpuStream b => b end.

Definition HasOrderingEvent (s : StreamVariant) : bool := synced s.

Section Streams.
Context `{CudaDriver}.

(** One call of the driver, and what is thrown when it fails. *)
Definition driver_call (c : DriverCall) (msg : string) : SM Driver unit :=
  d ← sm_get;
  _ ← sm_modify (fun d => mkDriver (driver_calls d ++ [c])
                  (match c with EventCreate => S (cuda_events d) | _ => cuda_events d end));
  if cuda_success (driver_calls d) c then mret tt else sm_lift (Throw (RuntimeError msg)).

Definition set_task_ctxsync_required (b : bool) : SM Driver unit :=
  sm_modify (fun d => mkDriver (driver_calls d ++ [SetTaskCtxsyncRequired b]) (cuda_events d)).

(** [GpuStream::DoRecord]. *)
Definition GpuStream_DoRecord (stream : nat) : SM Driver unit :=
  if zuku_HAS_CUDA then
    _ ← (if dlopen_libcuda then mret tt
         else sm_lift (Throw (RuntimeError "failed to dlopen libcuda in Zuku")));
    _ ← (if dlsym "cuEventCreate" && dlsym "cuEventRecord" && dlsym "cuStreamWaitEvent" then mret tt
         else sm_lift (Throw (RuntimeError "failed to dlopen some CUDA driver functions in Zuku")));
    _ ← set_task_ctxsync_required false;
    d ← sm_get;
    let done_event := cuda_events d in
    _ ← driver_call EventCreate "failed to create CUevent in GpuStream::Record";
    _ ← driver_call (EventRecord done_event stream) "failed to record CUevent in GpuStream::Record";
    driver_call (StreamWaitEvent task_cuda_stream done_event)
      "failed cuStreamWaitEvent in GpuStream::Record"
  else
    sm_lift (Throw (RuntimeError "GpuStream::Record: cannot be called, not built with CUDA")).

(** [Stream::Record]: the stream afterwards; when [DoRecord] throws the object keeps
    its value. *)
Definition Stream_Record (s : StreamVariant) (stream : nat) : SM Driver StreamVariant :=
  match s with
  | CpuStream _ => mret (CpuStream true)
  | GpuStream _ => _ ← GpuStream_DoRecord stream; mret (GpuStream true)
  end.

(** ** What is ordered

    The work issued to [stream] before position [i] of the calls is over before the
    work that [waiter] gets after position [j]: an event is recorded at [i], and
    [waiter] waits for it at [j] before it is recorded again. *)
Definition ordered (calls : list DriverCall) (stream : nat) (i : nat) (waiter : nat) (j : nat) : Prop :=
  exists event,
    calls !! i = Some (EventRecord event stream) /\
    calls !! j = Some (StreamWaitEvent waiter event) /\ (i < j)%nat /\
    forall k s, (i < k < j)%nat -> calls !! k <> Some (EventRecord event s).

Definition noted (c : DriverCall) (d : Driver) : Driver :=
  mkDriver (driver_calls d ++ [c])
    (match c with EventCreate => S (cuda_events d) | _ => cuda_events d end).

Lemma driver_call_eq c msg d :
  driver_call c msg d =
  (if cuda_success (driver_calls d) c then Ret tt else Throw (RuntimeError msg), noted c d).
Proof.
  unfold driver_call. rewrite sm_get_bind, sm_bind_unfold; cbn. by destruct (cuda_success _ _).
Qed.

Lemma driver_call_bind {A} c msg (k : unit -> SM Driver A) d :
  (driver_call c msg ≫= k) d =
  if cuda_success (driver_calls d) c then k tt (noted c d)
  else (Throw (RuntimeError msg), noted c d).
Proof. rewrite sm_bind_unfold, driver_call_eq. by destruct (cuda_success _ _). Qed.

Lemma ret_bind {A B} (a : A) (k : A -> SM Driver B) d : (mret a ≫= k) d = k a d.
Proof. done. Qed.

Lemma ctxsync_bind {B} v (k : unit -> SM Driver B) d :
  (set_task_ctxsync_required v ≫= k) d = k tt (noted (SetTaskCtxsyncRequired v) d).
Proof. done. Qed.

(** [DoRecord] throws, or makes its four calls. *)
Lemma DoRecord_cases stream d :
  (exists msg d', GpuStream_DoRecord stream d = (Throw (RuntimeError msg), d')) \/
  GpuStream_DoRecord stream d =
    (Ret tt, noted (StreamWaitEvent task_cuda_stream (cuda_events d))
               (noted (EventRecord (cuda_events d) stream)
                  (noted EventCreate (noted (SetTaskCtxsyncRequired false) d)))).
Proof.
  unfold GpuStream_DoRecord. destruct zuku_HAS_CUDA; [|left; by eexists _, _].
  destruct dlopen_libcuda; [rewrite ret_bind|left; by eexists _, _].
  destruct (_ && _ && _); [rewrite ret_bind|left; by eexists _, _].
  rewrite ctxsync_bind, sm_get_bind. cbv zeta. rewrite driver_call_bind.
  destruct (cuda_success _ _); [|left; by eexists _, _].
  rewrite driver_call_bind. destruct (cuda_success _ _); [|left; by eexists _, _].
  rewrite driver_call_eq. destruct (cuda_success _ _); [by right|left; by eexists _, _].
Qed.

(** A GPU stream on which [Record] returned orders the task's stream after all the
    work that [stream] was given before; when [Record] throws the stream does not
    say that it has an ordering event. *)
Lemma Stream_Record_orders b stream d o d' :
  Stream_Record (GpuStream b) stream d = (o, d') ->
  match o with
  | Ret s =>
      HasOrderingEvent s = true /\
      exists i j, (length (driver_calls d) <= i)%nat /\
        ordered (driver_calls d') stream i task_cuda_stream j
  | Throw e => exists msg, e = RuntimeError msg
  | _ => False
  end.
Proof.
  unfold Stream_Record. rewrite sm_bind_unfold.
  destruct (DoRecord_cases stream d) as [(msg & d1 & ->)| ->]; [intros [= <- <-]; by eexists|].
  cbn. intros [= <- <-]. split; [done|]. cbn. set (l := driver_calls d).
  exists (length l + 2)%nat, (length l + 3)%nat. split; [lia|]. exists (cuda_events d).
  rewrite <- !app_assoc. cbn [app]. rewrite !lookup_app_r by lia.
  replace (length l + 2 - length l)%nat with 2%nat by lia.
  replace (length l + 3 - length l)%nat with 3%nat by lia.
  split; [done|]. split; [done|]. split; [lia|]. intros k s Hk. lia.
Qed.
End Streams.

(** A driver that always succeeds: the event is recorded on stream 7, and the task's
    stream 0 waits for it. *)
#[export] Instance example_driver : CudaDriver := {|
  zuku_HAS_CUDA := true;
  dlopen_libcuda := true;
  dlsym _ := true;
  cuda_success _ _ := true;
  task_cuda_stream := 0;
|}.

Example example_record :
  Stream_Record (GpuStream false) 7 (mkDriver [] 0) =
  (Ret (GpuStream true),
   mkDriver [SetTaskCtxsyncRequired false; EventCreate; EventRecord 0 7; StreamWaitEvent 0 0] 1).
Proof. reflexivity. Qed.
