(* ===== verification/InstanceCache.v ===== *)
(** [InstanceCache] (src/zuku/instance_cache.h): stores kept for reuse, a queue
    per key.  Keys, stores and the factory are parameters; the factory can fail
    and changes a state [W] of its own (the arrays it allocates). *)
From stdpp Require Import base tactics list numbers option.
From Stdlib Require Import ZArith Lia.
From S2P Require Import Prelude.
Open Scope Z_scope.

Section InstanceCache.
Context {Key Store W : Type} (key_eqb : Key -> Key -> bool) (factory : Key -> SM W Store).

(** [values_]. *)
Definition Cache : Type := list (Key * list Store).

Definition queue_of (key : Key) (c : Cache) : list Store := alist_get key_eqb [] key c.

Definition set_queue (key : Key) (q : list Store) : SM (Cache * W) unit :=
  sm_modify (fun '(c, w) => (alist_set key_eqb key q c, w)).

Definition Cache_Make (key : Key) : SM (Cache * W) Store :=
  fun '(c, w) => let '(o, w) := factory key w in (o, (c, w)).

(** [Get(key, min_cache_size)]: [values_[key]] creates the entry; the size is
    compared as an unsigned integer. *)
Definition Cache_Get (key : Key) (min_cache_size : option Z) : SM (Cache * W) Store :=
  '(c, _) ← sm_get;
  let cache := queue_of key c in
  _ ← set_queue key cache;
  if Z.of_nat (length cache) <? to_u64 (default 1 min_cache_size) then Cache_Make key
  else
    match cache with
    | [] => sm_lift (Undef OutOfRange)           (* front() of an empty queue *)
    | value :: rest => _ ← set_queue key rest; mret value
    end.

Definition Cache_Clear : SM (Cache * W) unit := sm_modify (fun '(_, w) => ([], w)).

Definition Cache_Free (key : Key) (value : Store) : SM (Cache * W) unit :=
  '(c, _) ← sm_get; set_queue key (queue_of key c ++ [value]).

(** Freeing a list of stores under one key, and taking [n] stores of a key. *)
Fixpoint free_all (key : Key) (l : list Store) : SM (Cache * W) unit :=
  match l with
  | [] => mret tt
  | v :: l => _ ← Cache_Free key v; free_all key l
  end.

Fixpoint get_all (key : Key) (n : nat) : SM (Cache * W) (list Store) :=
  match n with
  | O => mret []
  | S n => v ← Cache_Get key None; l ← get_all key n; mret (v :: l)
  end.

(** [n] stores from the factory. *)
Fixpoint make_all (key : Key) (n : nat) : SM W (list Store) :=
  match n with
  | O => mret []
  | S n => v ← factory key; l ← make_all key n; mret (v :: l)
  end.

Context (Heq : forall a b, key_eqb a b = true <-> a = b).

Lemma key_refl k : key_eqb k k = true.
Proof. by apply Heq. Qed.

Lemma queue_of_set key q c key' :
  queue_of key' (alist_set key_eqb key q c) = if key_eqb key key' then q else queue_of key' c.
Proof.
  unfold queue_of, alist_get. destruct (key_eqb key key') eqn:E.
  - apply Heq in E as <-. by rewrite alist_find_set by apply key_refl.
  - rewrite alist_find_set_ne; [done|apply key_refl|].
    intros x Hx%Heq. by subst.
Qed.

(** Two caches with the same queues. *)
Definition same_queues (f : Key -> list Store) (c : Cache) : Prop :=
  forall key, queue_of key c = f key.

Lemma free_all_ok key l c w :
  exists c', free_all key l (c, w) = (Ret tt, (c', w)) /\
    same_queues (fun k => if key_eqb key k then queue_of k c ++ l else queue_of k c) c'.
Proof.
  revert c. induction l as [|v l IH]; intros c.
  - exists c; split; [done|]. intros k. rewrite app_nil_r. by destruct (key_eqb key k).
  - destruct (IH (alist_set key_eqb key (queue_of key c ++ [v]) c)) as (c' & E & Hq).
    exists c'. split; [exact E|]. intros k. rewrite Hq, queue_of_set.
    destruct (key_eqb key k) eqn:Ek; [|done]. apply Heq in Ek as <-.
    by rewrite <- (assoc_L (++)).
Qed.

Lemma Cache_Get_hit key v q c w : queue_of key c = v :: q ->
  exists c', Cache_Get key None (c, w) = (Ret v, (c', w)) /\
    same_queues (fun k => if key_eqb key k then q else queue_of k c) c'.
Proof.
  intros Hq. unfold Cache_Get. rewrite sm_get_bind, Hq.
  erewrite sm_bind_ret by done.
  rewrite (proj2 (Z.ltb_ge _ _)) by (cbn [length]; change (to_u64 _) with 1; lia).
  eexists; split; [done|]. intros k. rewrite !queue_of_set. by destruct (key_eqb key k).
Qed.

Lemma Cache_Get_miss key c w : queue_of key c = [] ->
  exists c', Cache_Get key None (c, w) = (let '(o, w) := factory key w in (o, (c', w))) /\
    same_queues (fun k => queue_of k c) c'.
Proof.
  intros Hq. unfold Cache_Get. rewrite sm_get_bind, Hq. eexists; split; [done|].
  intros k. rewrite queue_of_set. destruct (key_eqb key k) eqn:Ek; [|done].
  by apply Heq in Ek as <-.
Qed.

(** A run of gets: the queue, then the factory. *)
Lemma get_all_ok key n c w :
  let q := queue_of key c in
  exists c', get_all key n (c, w) =
      (let '(o, w) := make_all key (n - length q) w in
       (l ← o; Ret (take n q ++ l), (c', w))) /\
    same_queues (fun k => if key_eqb key k then drop n (queue_of k c) else queue_of k c) c'.
Proof.
  revert c w. induction n as [|n IH]; intros c w; cbn [get_all].
  - exists c; split; [done|]. intros k. rewrite drop_0. by destruct (key_eqb key k).
  - destruct (queue_of key c) as [|v q] eqn:Hq; cbn zeta.
    + destruct (Cache_Get_miss key c w Hq) as (c1 & E1 & H1).
      assert (Hq1 : queue_of key c1 = []) by (by rewrite H1).
      assert (Hk : forall c2, same_queues
          (fun k => if key_eqb key k then drop n (queue_of k c1) else queue_of k c1) c2 ->
        same_queues (fun k => if key_eqb key k then drop (S n) (queue_of k c) else queue_of k c) c2).
      { intros c2 H2 k. rewrite H2, !H1. destruct (key_eqb key k) eqn:Ek; [|done].
        apply Heq in Ek as <-. rewrite Hq. by rewrite !drop_nil. }
      assert (H0 : same_queues
          (fun k => if key_eqb key k then drop n (queue_of k c1) else queue_of k c1) c1).
      { intros k. destruct (key_eqb key k) eqn:Ek; [|done]. apply Heq in Ek as <-.
        by rewrite Hq1, drop_nil. }
      rewrite sm_bind_unfold, E1. cbn [length Nat.sub make_all]. rewrite sm_bind_unfold.
      destruct (factory key w) as [[v|e|u|] w1]; [|exists c1; by auto..].
      destruct (IH c1 w1) as (c2 & E2 & H2). exists c2. split; [|by apply Hk].
      rewrite sm_bind_unfold, E2, Hq1, sm_bind_unfold. cbn [length].
      rewrite Nat.sub_0_r, take_nil. by destruct (make_all key n w1) as [[l| | |] w2].
    + destruct (Cache_Get_hit key v q c w Hq) as (c1 & E1 & H1).
      destruct (IH c1 w) as (c2 & E2 & H2). exists c2.
      erewrite sm_bind_ret by exact E1. split.
      * pose proof (H1 key) as Hk. cbn beta in Hk. rewrite key_refl in Hk.
        rewrite sm_bind_unfold, E2, !Hk. cbn [length Nat.sub].
        by destruct (make_all key (n - length q) w) as [[l| | |] w2].
      * intros k. rewrite H2. pose proof (H1 k) as Hk. cbn beta in Hk. rewrite !Hk.
        destruct (key_eqb key k) eqn:Ek; [|done]. apply Heq in Ek as <-. by rewrite Hq.
Qed.
End InstanceCache.

(** The cache is first in, first out per key: after stores were freed under a
    key, as many gets return them in that order after those already cached,
    then stores fresh from the factory (and fail where the factory fails), and
    other keys are untouched. *)
Theorem cache_fifo {Key Store W : Type} (key_eqb : Key -> Key -> bool)
    (factory : Key -> SM W Store) (Heq : forall a b, key_eqb a b = true <-> a = b)
    (c : Cache) (w : W) (key : Key) (l : list Store) (n : nat) :
  let q := queue_of key_eqb key c ++ l in
  exists c',
    (_ ← free_all key_eqb key l; get_all key_eqb factory key n) (c, w) =
      (let '(o, w') := make_all factory key (n - length q) w in
       (made ← o; Ret (take n q ++ made), (c', w'))) /\
    queue_of key_eqb key c' = drop n q /\
    forall key', key' <> key -> queue_of key_eqb key' c' = queue_of key_eqb key' c.
Proof.
  intros q. destruct (free_all_ok key_eqb Heq key l c w) as (c1 & E1 & H1).
  destruct (get_all_ok key_eqb factory Heq key n c1 w) as (c2 & E2 & H2).
  pose proof (H1 key) as Hk. cbn beta in Hk. rewrite (key_refl key_eqb Heq) in Hk.
  fold q in Hk. rewrite !Hk in E2.
  exists c2. split; [|split].
  - erewrite sm_bind_ret by exact E1. exact E2.
  - by rewrite (H2 key), (key_refl key_eqb Heq), Hk.
  - intros key' Hne. rewrite H2, (H1 key'). destruct (key_eqb key key') eqn:E; [|done].
    apply Heq in E. by subst.
Qed.

(** The factory of the example numbers the stores it makes. *)
Lemma cache_fifo_witness :
  exists c', (_ ← free_all Nat.eqb 1%nat [5; 6];
              get_all Nat.eqb (fun _ => sm_get ≫= fun w => sm_modify Z.succ ≫= fun _ => mret w) 1%nat 4)
      ([(1%nat, [4])], 100) = (Ret [4; 5; 6; 100], (c', 101)).
Proof.
  destruct (cache_fifo Nat.eqb (fun _ => sm_get ≫= fun w => sm_modify Z.succ ≫= fun _ => mret w)
    Nat.eqb_eq [(1%nat, [4])] 100 1%nat [5; 6] 4) as (c' & E & _).
  exists c'. exact E.
Defined.
