(* ===== verification/Arrays.v ===== *)
(** Sharded arrays (src/zuku/tiled_array.{h,cc}): the tile of an array that a
    processor holds, its allocation with the tile cache and the allocation
    counts, the ids of arrays, and moves between memories.  [World] is the state
    these functions change: objects behind shared pointers live in a heap, and
    Realm's memory is a parameter, [RealmMemory]. *)
From stdpp Require Import base tactics list list_numbers numbers option strings sets gmap.
From Stdlib Require Import ZArith Lia.
From S2P Require Import Prelude Events Mesh Shape Processor Tiles Handles InstanceCache.
Open Scope Z_scope.

(** ** Tiles *)
Record TileShape : Type := mkTileShape {
  ts_type : SupportedType;
  ts_dims : list Z;
  ts_bounds : RealmShape;
}.

#[export] Instance TileShape_eq_dec : EqDecision TileShape.
Proof. solve_decision. Defined.

(** [operator==] does not look at the bounds. *)
Definition tile_shape_eqb (a b : TileShape) : bool :=
  bool_decide (ts_type a = ts_type b) && bool_decide (ts_dims a = ts_dims b).
Definition tile_shape_neqb (a b : TileShape) : bool := negb (tile_shape_eqb a b).

(** [RealmTypeVariant], a variant of integer types. *)
Inductive RealmTypeVariant : Type := INT8 | INT16 | INT32 | INT64.

Definition ToRealmTypeVariant (type : SupportedType) : outcome RealmTypeVariant :=
  match type with
  | PRED | S8 | U8 => mret INT8
  | F16 | BF16 | S16 | U16 => mret INT16
  | F32 | S32 | U32 => mret INT32
  | F64 | S64 | U64 | C64 => mret INT64
  | C128 => Throw (RuntimeError "unsupported SupportedType")
  end.

Definition RealmTypeSize (t : RealmTypeVariant) : Z :=
  match t with INT8 => 1 | INT16 => 2 | INT32 => 4 | INT64 => 8 end.

(** A region instance, or [NO_INST]. *)
Abbreviation Instance_ := (option nat).

Record ArrayTile : Type := mkTile {
  instance_ : Instance_;
  shape_ : TileShape;
  tile_type_ : RealmTypeVariant;
}.

(** [ArrayTile(ArrayTile&&)]: the new tile, and what is left of the old one
    (whose shape and type are const and so are copied). *)
Definition ArrayTile_move (a : ArrayTile) : ArrayTile * ArrayTile :=
  (a, mkTile None (shape_ a) (tile_type_ a)).

Definition realm_shape (a : ArrayTile) : RealmShape := ts_bounds (shape_ a).

(** [size_t] arithmetic, converted to [int64_t]. *)
Definition num_elements (a : ArrayTile) : Z :=
  to_i64 (foldl (fun size dim => to_u64 (size * to_u64 dim)) 1 (ts_dims (shape_ a))).

Definition byte_size (a : ArrayTile) : Z :=
  to_u64 (to_u64 (num_elements a) * SupportedTypeSizeOf (ts_type (shape_ a))).

(** [InstancePointer()] and [data()]; the accessor's pointer is Realm's. *)
Definition InstancePointer {Ptr} (acc_ptr : nat -> RealmTypeVariant -> list Z -> Ptr) (a : ArrayTile)
    : outcome Ptr :=
  match instance_ a with
  | None => Throw (RuntimeError "fetching pointer from instance that doesn't exist")
  | Some i => mret (acc_ptr i (tile_type_ a) (lo (realm_shape a)))
  end.

Record TileCtor : Type := mkTileCtor {
  tc_memory : option MemoryKind;
  tc_processor : option Processor;
}.

(** ** Arrays *)
Record UniqueId : Type := mkUniqueId { uid_id : Z; uid_devices : DeviceList }.

Record ReshardKey : Type := mkKey {
  src_id : UniqueId;
  dst_id : UniqueId;
  src_shard_id : Z;
  dst_shard_id : Z;
}.

Record ScatterGatherKey : Type := mkSGKey { sg_src_id : UniqueId; sg_dst_id : UniqueId }.

#[export] Instance UniqueId_eq_dec : EqDecision UniqueId.
Proof. solve_decision. Defined.
#[export] Instance ReshardKey_eq_dec : EqDecision ReshardKey.
Proof. solve_decision. Defined.

Definition unique_id_eqb (a b : UniqueId) : bool :=
  (uid_id a =? uid_id b) && DeviceListOps.eqb (uid_devices a) (uid_devices b).

Definition reshard_key_eqb (a b : ReshardKey) : bool :=
  unique_id_eqb (src_id a) (src_id b) && unique_id_eqb (dst_id a) (dst_id b)
  && (src_shard_id a =? src_shard_id b) && (dst_shard_id a =? dst_shard_id b).

Definition sg_key_eqb (a b : ScatterGatherKey) : bool :=
  unique_id_eqb (sg_src_id a) (sg_src_id b) && unique_id_eqb (sg_dst_id a) (sg_dst_id b).

Record ShardedArray : Type := mkArray {
  mesh_unique_id_ : Z;
  sa_shape : ShardedShape;
  shard_id_ : Z;
  sa_proc : Processor;
  name_ : option string;
  array_ : option ArrayTile;
}.

Record ArrayCtor : Type := mkArrayCtor {
  assigned_id : option Z;
  ctor_name : option string;
  ctor_shard_id : option Z;
  ctor_processor : Processor;
  ctor_memory : option MemoryKind;
}.

Definition sa_sharding (a : ShardedArray) : Sharding := ss_sharding (sa_shape a).
Definition HasName (a : ShardedArray) : bool := bool_decide (is_Some (name_ a)).
Definition HasTile (a : ShardedArray) : bool := bool_decide (is_Some (array_ a)).
(** [*name_] and [*array_]. *)
Definition sa_name (a : ShardedArray) : outcome string := deref (name_ a).
Definition sa_tile (a : ShardedArray) : outcome ArrayTile := deref (array_ a).
Definition unique_id (a : ShardedArray) : UniqueId :=
  mkUniqueId (mesh_unique_id_ a) (devices (sa_sharding a)).

(** [GlobalIdKey]: arrays of a device list are numbered per processor. *)
Record GlobalIdKey : Type := mkGlobalIdKey {
  gk_devices : DeviceList;
  gk_local_proc_id : Z;
  gk_proc_type : ProcType;
}.

Definition global_id_key_eqb (a b : GlobalIdKey) : bool :=
  DeviceListOps.eqb (gk_devices b) (gk_devices a)
  && (gk_local_proc_id a =? gk_local_proc_id b)
  && bool_decide (gk_proc_type b = gk_proc_type a).

(** ** Realm's memory

    The memory a query finds for a processor and a kind; the event after which
    the [n]-th instance is ready; and whether a request succeeds, given the
    requests so far and the instances destroyed. *)
Record AllocRequest `{RealmEvents} (Memory : Type) : Type := mkAlloc {
  al_memory : Memory;
  al_bounds : RealmShape;
  al_field_size : Z;
}.
Arguments mkAlloc {_ Memory}. Arguments al_memory {_ Memory}.
Arguments al_bounds {_ Memory}. Arguments al_field_size {_ Memory}.

Class RealmMemory `{RealmEvents} : Type := {
  Memory : Type;
  memory_query : RealmProc -> option MemoryKind -> Memory;
  alloc_ready : nat -> Event;
  alloc_succeeds : list (AllocRequest Memory) -> list (nat * Event) -> AllocRequest Memory -> bool;
}.

(** A copy of a rectangle between two instances. *)
Record Copy `{RealmEvents} : Type := mkCopy {
  cp_shape : RealmShape;
  cp_field_size : Z;
  cp_src : Instance_;
  cp_dst : Instance_;
  cp_pre : Event;
}.

(** A call of [ProfileRegion]: what becomes of it while profiling is active is the
    subject of the file Profiling. *)
Record RegionCall `{RealmEvents} : Type := mkRegionCall {
  rg_proc : Processor;
  rg_name : string;
  rg_start : Event;
  rg_stop : Event;
}.

(** ** The state

    [w_heap] holds the objects that shared pointers refer to, by identity;
    [w_next_ids], [w_counts] and [w_tiles] are the static maps of the file;
    [w_allocs] lists the instances requested and [w_destroyed] those destroyed,
    with the precondition; [w_copies] the copies issued; [w_regions] the calls of
    [ProfileRegion]. *)
Record World `{RealmEvents} `{!RealmMemory} : Type := mkWorld {
  w_rt : Runtime (@Value nat);
  w_heap : list ShardedArray;
  w_next_ids : list (GlobalIdKey * Z);
  w_counts : list (Processor * list (ShardedShape * Z));
  w_tiles : list (Processor * list (TileShape * list (Event * ArrayTile)));
  w_allocs : list (AllocRequest Memory);
  w_destroyed : list (nat * Event);
  w_copies : list Copy;
  w_regions : list RegionCall;
}.

Section Setters.
Context `{RealmMemory}.
Implicit Types w : World.

Definition set_rt rt w : World :=
  mkWorld _ _ rt (w_heap w) (w_next_ids w) (w_counts w) (w_tiles w) (w_allocs w)
    (w_destroyed w) (w_copies w) (w_regions w).
Definition set_heap h w : World :=
  mkWorld _ _ (w_rt w) h (w_next_ids w) (w_counts w) (w_tiles w) (w_allocs w)
    (w_destroyed w) (w_copies w) (w_regions w).
Definition set_next_ids n w : World :=
  mkWorld _ _ (w_rt w) (w_heap w) n (w_counts w) (w_tiles w) (w_allocs w)
    (w_destroyed w) (w_copies w) (w_regions w).
Definition set_counts c w : World :=
  mkWorld _ _ (w_rt w) (w_heap w) (w_next_ids w) c (w_tiles w) (w_allocs w)
    (w_destroyed w) (w_copies w) (w_regions w).
Definition set_tiles t w : World :=
  mkWorld _ _ (w_rt w) (w_heap w) (w_next_ids w) (w_counts w) t (w_allocs w)
    (w_destroyed w) (w_copies w) (w_regions w).
Definition set_allocs a w : World :=
  mkWorld _ _ (w_rt w) (w_heap w) (w_next_ids w) (w_counts w) (w_tiles w) a
    (w_destroyed w) (w_copies w) (w_regions w).
Definition set_destroyed d w : World :=
  mkWorld _ _ (w_rt w) (w_heap w) (w_next_ids w) (w_counts w) (w_tiles w) (w_allocs w)
    d (w_copies w) (w_regions w).
Definition set_copies c w : World :=
  mkWorld _ _ (w_rt w) (w_heap w) (w_next_ids w) (w_counts w) (w_tiles w) (w_allocs w)
    (w_destroyed w) c (w_regions w).
Definition set_regions r w : World :=
  mkWorld _ _ (w_rt w) (w_heap w) (w_next_ids w) (w_counts w) (w_tiles w) (w_allocs w)
    (w_destroyed w) (w_copies w) r.

(** An operation on the runtime alone. *)
Definition sm_rt {A} (f : Runtime (@Value nat) -> A * Runtime (@Value nat)) : SM World A :=
  fun w => let '(a, rt) := f (w_rt w) in (Ret a, set_rt rt w).

(** [*p] for a shared pointer. *)
Definition heap_get (p : option nat) : SM World ShardedArray :=
  fun w => ((i ← deref p; deref (w_heap w !! i)), w).
End Setters.

(** The tile cache exists when the macro is defined. *)
Class BuildFlags := ZUKU_USE_TILE_CACHE : bool.

(** ** Allocation *)
Section Allocation.
Context `{RealmMemory} `{!BuildFlags} (procs : ProcState).

(** [ArrayTile::DeferredDeleteInstances]. *)
Definition Tile_DeferredDeleteInstances (t : ArrayTile) (ev : Event) : SM World unit :=
  match instance_ t with
  | Some i => sm_modify (fun w => set_destroyed (w_destroyed w ++ [(i, ev)]) w)
  | None => mret tt
  end.

(** [TileCache()[p]]. *)
Definition tiles_of (p : Processor) (w : World) : list (TileShape * list (Event * ArrayTile)) :=
  alist_get proc_eqb [] p (w_tiles w).
Definition set_tiles_of p c : SM World unit :=
  sm_modify (fun w => set_tiles (alist_set proc_eqb p c (w_tiles w)) w).

Definition GetTile (shape : TileShape) (p : Processor) : SM World (option (Event * ArrayTile)) :=
  if ZUKU_USE_TILE_CACHE then
    w ← sm_get;
    let cache := tiles_of p w in
    _ ← set_tiles_of p cache;
    match alist_find tile_shape_eqb shape cache with
    | None | Some [] => mret None
    | Some (front :: rest) =>
        _ ← set_tiles_of p (alist_set tile_shape_eqb shape rest cache); mret (Some front)
    end
  else mret None.

Definition FreeTile (tile : ArrayTile) (free : Event) (p : Processor) : SM World unit :=
  if ZUKU_USE_TILE_CACHE then
    w ← sm_get;
    let cache := tiles_of p w in
    set_tiles_of p (alist_set tile_shape_eqb (shape_ tile)
      (alist_get tile_shape_eqb [] (shape_ tile) cache ++ [(free, tile)]) cache)
  else Tile_DeferredDeleteInstances tile free.

Fixpoint delete_tiles (l : list (Event * ArrayTile)) : SM World unit :=
  match l with
  | [] => mret tt
  | (ev, tile) :: l => _ ← Tile_DeferredDeleteInstances tile ev; delete_tiles l
  end.

Fixpoint clear_queues (cache : list (TileShape * list (Event * ArrayTile))) : SM World unit :=
  match cache with
  | [] => mret tt
  | (_, deq) :: cache => _ ← delete_tiles deq; clear_queues cache
  end.

Definition ClearTiles (p : Processor) : SM World unit :=
  if ZUKU_USE_TILE_CACHE then
    w ← sm_get; _ ← clear_queues (tiles_of p w); set_tiles_of p []
  else mret tt.

(** [TryAllocation]: the ready event, the instance and whether the request
    succeeded.  The profiling request names the first utility processor. *)
Definition TryAllocation (rect : RealmShape) (memory : Memory) (field_size : Z)
    : SM World (Event * nat * bool) :=
  _ ← sm_lift (Processor_Util procs);
  w ← sm_get;
  let request := mkAlloc memory rect field_size in
  let i := length (w_allocs w) in
  _ ← sm_modify (set_allocs (w_allocs w ++ [request]));
  mret (alloc_ready i, i, alloc_succeeds (w_allocs w) (w_destroyed w) request).

(** Allocate, and once more after the tile cache was cleared. *)
Definition allocate (rect : RealmShape) (memory : Memory) (field_size : Z) (p : Processor)
    : SM World (Event * nat) :=
  '(event, instance, success) ← TryAllocation rect memory field_size;
  if (success : bool) then mret (event, instance)
  else
    _ ← ClearTiles p;
    '(event, instance, success) ← TryAllocation rect memory field_size;
    if (success : bool) then mret (event, instance)
    else sm_lift (Throw AllocationFailureExn).

(** [ArrayTile::Create]. *)
Definition Tile_Create (shape : TileShape) (ctor : TileCtor) : SM World (Event * ArrayTile) :=
  p ← sm_lift (match tc_processor ctor with
               | Some p => mret p
               | None => Processor_Default procs
               end);
  cached_tile ← GetTile shape p;
  match cached_tile with
  | Some tile => mret tile
  | None =>
      _ ← sm_lift (ToRealmTypeVariant (ts_type shape));
      let field_size := SupportedTypeSizeOf (ts_type shape) in
      let memory := memory_query (proc_ p) (tc_memory ctor) in
      '(event, instance) ← allocate (ts_bounds shape) memory field_size p;
      type_variant ← sm_lift (ToRealmTypeVariant (ts_type shape));
      mret (event, mkTile (Some instance) shape type_variant)
  end.

(** [next_ids[key]++], of [uint64_t]. *)
Definition AllocateNextGlobalId (p : Processor) (shape : ShardedShape) (assigned_id : option Z)
    : SM World Z :=
  match assigned_id with
  | Some id => mret id
  | None =>
      let key := mkGlobalIdKey (devices (ss_sharding shape)) (local_id_ p) (type_ p) in
      w ← sm_get;
      let id := alist_get global_id_key_eqb 0 key (w_next_ids w) in
      _ ← sm_modify (set_next_ids (alist_set global_id_key_eqb key (to_u64 (id + 1)) (w_next_ids w)));
      mret id
  end.

(** The constructor of [ShardedArray], on the heap ([std::make_shared]). *)
Definition new_array (shape : ShardedShape) (ctor : ArrayCtor) (array : option ArrayTile)
    : SM World nat :=
  id ← AllocateNextGlobalId (ctor_processor ctor) shape (assigned_id ctor);
  w ← sm_get;
  _ ← sm_modify (set_heap (w_heap w ++
        [mkArray id shape (default (-1) (ctor_shard_id ctor)) (ctor_processor ctor)
                 (ctor_name ctor) array]));
  mret (length (w_heap w)).

(** [AllocationCounts()[p][shape] += d]. *)
Definition count_array (p : Processor) (shape : ShardedShape) (d : Z) : SM World unit :=
  w ← sm_get;
  let counts := alist_get proc_eqb [] p (w_counts w) in
  n ← sm_lift (add64 (alist_get shape_eqb 0 shape counts) d);
  sm_modify (set_counts (alist_set proc_eqb p (alist_set shape_eqb shape n counts) (w_counts w))).

(** The total that the failure message reports. *)
Definition report_allocations (p : Processor) (w : World) : outcome Z :=
  foldM (fun total '(shape, count) =>
           if 0 <? count then
             n ← ShardingOps.ShardSize shape; t ← mul64 n count; add64 total t
           else mret total)
        0 (alist_get proc_eqb [] p (w_counts w)).

(** The first checks of [ShardedArray::Create]. *)
Definition total_shards (s : Sharding) : outcome Z :=
  foldM (fun total dim => mul64 total (sd_sharding dim)) 1 (dims s).

Definition own_shard (s : Sharding) (ctor : ArrayCtor) : outcome (option Z) :=
  match ctor_shard_id ctor with
  | Some i => mret (Some i)
  | None =>
      b ← DeviceListOps.Contains (devices s) (global_id_ (ctor_processor ctor));
      if (b : bool)
      then i ← sub64 (global_id_ (ctor_processor ctor)) (DeviceListOps.start (devices s)); mret (Some i)
      else mret None
  end.

Definition tiled_dims (s : Sharding) : outcome (list Z) :=
  foldM (fun l dim =>
           if sd_sharding dim <=? sd_size dim
           then q ← div64 (sd_size dim) (sd_sharding dim); mret (l ++ [q])
           else mret l)
        [] (dims s).

Definition with_shard (ctor : ArrayCtor) (i : option Z) : ArrayCtor :=
  mkArrayCtor (assigned_id ctor) (ctor_name ctor) i (ctor_processor ctor) (ctor_memory ctor).

(** The [try] block of [Create]: an allocation failure is reported and thrown
    again. *)
Definition try_create {A} (p : Processor) (m : SM World A) : SM World A :=
  fun w =>
    match m w with
    | (Throw AllocationFailureExn, w) =>
        (_ ← report_allocations p w; Throw AllocationFailureExn, w)
    | r => r
    end.

Context `{!RealmLimits}.

Definition ShardedArray_Create (shape : ShardedShape) (ctor : ArrayCtor) : SM World (@Store _ nat) :=
  let s := ss_sharding shape in
  total ← sm_lift (total_shards s);
  if negb (total =? DeviceListOps.size (devices s))
  then sm_lift (Throw (RuntimeError "sharding differs from number of devices in mesh"))
  else
    shard ← sm_lift (own_shard s ctor);
    let ctor := with_shard ctor shard in
    match shard with
    | None => o ← new_array shape ctor None; mret (Store_Create o)
    | Some shard =>
        tdims ← sm_lift (tiled_dims s);
        bounds ← sm_lift (ComputeTileBounds shard s);
        try_create (ctor_processor ctor)
          ('(event, array) ← Tile_Create (mkTileShape (ss_type shape) tdims bounds)
                               (mkTileCtor (ctor_memory ctor) (Some (ctor_processor ctor)));
           _ ← count_array (ctor_processor ctor) shape 1;
           o ← new_array shape ctor (Some array);
           mret (Store_DeferredCreate event o))
    end.

(** [~ShardedArray]. *)
Definition ShardedArray_dtor (a : ShardedArray) : SM World unit :=
  count_array (sa_proc a) (sa_shape a) (-1).

Definition Array_DeferredDeleteInstances (a : ShardedArray) (ev : Event) : SM World unit :=
  match array_ a with
  | Some tile => FreeTile tile ev (sa_proc a)
  | None => mret tt
  end.

(** [ArrayTile::CreateStore]. *)
Definition Tile_CreateStore (shape : TileShape) (ctor : TileCtor) : SM World (@Store _ ArrayTile) :=
  '(event, array) ← Tile_Create shape ctor; mret (Store_DeferredCreate event array).

(** [ArrayTile::CreateFuture]; [cells] are the shared optionals, of which
    [std::make_shared] adds one. *)
Definition Tile_CreateFuture (shape : TileShape) (ctor : TileCtor)
    : SM (World * list (option ArrayTile)) (@Future _ ArrayTile) := fun '(w, cells) =>
  match Tile_Create shape ctor w with
  | (Ret (event, array), w) =>
      (Ret (Future_new event (VOptional (length cells))), (w, cells ++ [Some array]))
  | (Throw e, w) => (Throw e, (w, cells))
  | (Undef u, w) => (Undef u, (w, cells))
  | (NoFuel, w) => (NoFuel, (w, cells))
  end.
End Allocation.

(** ** Moves between memories *)
Section Moves.
Context `{RealmMemory} `{!RealmOps} `{!BuildFlags} (procs : ProcState) `{!RealmLimits}.

(** [bounds.copy(srcs, dsts, requests, precondition)] on a rectangle. *)
Definition issue_copy (shape : RealmShape) (field_size : Z) (src dst : Instance_) (pre : Event)
    : SM World Event :=
  w ← sm_get;
  _ ← sm_modify (set_copies (w_copies w ++ [mkCopy _ shape field_size src dst pre]));
  mret (copy_event (length (w_copies w))).

(** [ProfileRegion(p, name, start, stop)], as its callers see it. *)
Definition profile_region (p : Processor) (name : string) (start stop : Event) : SM World unit :=
  sm_modify (fun w => set_regions (w_regions w ++ [mkRegionCall _ p name start stop]) w).

(** [ReassignId], on the object a store refers to. *)
Definition ReassignId (dst : option nat) (id : Z) : SM World unit :=
  a ← heap_get dst;
  i ← sm_lift (deref dst);
  sm_modify (fun w => set_heap (<[i := mkArray id (sa_shape a) (shard_id_ a) (sa_proc a) (name_ a)
                                         (array_ a)]> (w_heap w)) w).

(** [MoveToMemory(src, dst, precondition)]: the stores afterwards. *)
Definition MoveToMemory (src dst : @Store _ nat) (precondition : option Event)
    : SM World (@Store _ nat * @Store _ nat) :=
  s ← heap_get (store_value src);
  '(src', dst') ←
    (if HasTile s then
       st ← sm_lift (sa_tile s);
       d ← heap_get (store_value dst);
       dt ← sm_lift (sa_tile d);
       let combined_precondition :=
         merge_events [Store_Precondition src; Store_Precondition dst; default NO_EVENT precondition] in
       postcondition ← issue_copy (realm_shape st) (SupportedTypeSizeOf (ss_type (sa_shape s)))
         (instance_ st) (instance_ dt) combined_precondition;
       _ ← profile_region (sa_proc s) "copy" combined_precondition postcondition;
       mret (Store_ReadyAfter postcondition postcondition src,
             Store_ReadyAfter postcondition postcondition dst)
     else mret (src, dst));
  _ ← ReassignId (store_value dst') (mesh_unique_id_ s);
  mret (src', dst').

(** [ArrayCache]: the instance cache of arrays on one processor and memory. *)
Abbreviation ArrayCache := (@Cache ShardedShape (@Store _ nat)).

Definition array_factory (memory : MemoryKind) (p : Processor) (shape : ShardedShape)
    : SM World (@Store _ nat) :=
  ShardedArray_Create procs shape (mkArrayCtor None None None p (Some memory)).

(** The overload that takes the target from a cache of [(memory, p)]: the source
    store afterwards, and the new one. *)
Definition MoveToMemory_cached (memory : MemoryKind) (p : Processor) (src : @Store _ nat)
    (precondition : option Event) : SM (ArrayCache * World) (@Store _ nat * @Store _ nat) :=
  s ← sm_snd (heap_get (store_value src));
  new_array ← Cache_Get shape_eqb (array_factory memory p) (sa_shape s) None;
  sm_snd (MoveToMemory src new_array precondition).

(** The overload that also frees the source to another cache. *)
Definition MoveToMemory_saved (memory : MemoryKind) (p : Processor) (src : @Store _ nat)
    (precondition : option Event) : SM (ArrayCache * (ArrayCache * World)) (@Store _ nat) :=
  '(src, new_array) ← sm_snd (MoveToMemory_cached memory p src precondition);
  a ← sm_snd (sm_snd (heap_get (store_value src)));
  _ ← Cache_Free shape_eqb (sa_shape a) src;
  mret new_array.
End Moves.

Section HostForShard.
Context `{RealmMachine} (procs : ProcState).

(** [ShardedArray::HostForShard]. *)
Definition HostForShard (a : ShardedArray) (shard_id : Z) : outcome RealmProc :=
  global_device_id ← add64 shard_id (DeviceListOps.start (devices (sa_sharding a)));
  GetAttachedHost procs global_device_id (Some (type_ (sa_proc a))).
End HostForShard.

(** ** Lemmas *)

(** *** Sizes *)
Lemma to_u64_mul a b : to_u64 (to_u64 a * to_u64 b) = to_u64 (a * b).
Proof. unfold to_u64. by rewrite <- Z.mul_mod by lia. Qed.

Lemma to_u64_idem a : to_u64 (to_u64 a) = to_u64 a.
Proof. unfold to_u64. by rewrite Z.mod_mod by lia. Qed.

Lemma to_i64_to_u64 a : 0 <= a <= i64_max -> to_i64 (to_u64 a) = a.
Proof.
  intros Ha. unfold to_i64, to_u64. rewrite Z.mod_mod, Z.mod_small by lia.
  by rewrite (proj2 (Z.leb_le _ _)) by lia.
Qed.

Lemma foldl_size l a :
  foldl (fun size dim => to_u64 (size * to_u64 dim)) (to_u64 a) l = to_u64 (a * prodZ l).
Proof.
  revert a. induction l as [|x l IH]; intros a; cbn [foldl].
  - by rewrite Z.mul_1_r.
  - rewrite to_u64_mul, IH, prodZ_cons. f_equal. lia.
Qed.

Lemma num_elements_prod (a : ArrayTile) : 0 <= prodZ (ts_dims (shape_ a)) <= i64_max ->
  num_elements a = prodZ (ts_dims (shape_ a)).
Proof.
  intros H. unfold num_elements. change 1 with (to_u64 1) at 1.
  rewrite foldl_size, Z.mul_1_l. by apply to_i64_to_u64.
Qed.

(** *** The checks of [Create] on a well-formed sharding *)
Section WellFormed.
Context (s : Sharding) (Hwf : ShardingOps.wf s).

Lemma total_shards_ok : total_shards s = Ret (num_devices_ (devices s)).
Proof.
  pose proof (ShardingOps.num_devices_i64 s Hwf).
  assert (Hd : prodZ (sd_sharding <$> dims s) = num_devices_ (devices s)) by apply Hwf.
  unfold total_shards. rewrite <- Hd, <- (Z.mul_1_l (prodZ _)).
  apply (foldM_prod _ sd_sharding).
  - intros. by apply mul64_ok.
  - intros d Hin. by apply (ShardingOps.wf_sharding_pos s Hwf).
  - lia.
  - unfold i64. lia.
Qed.

Lemma tiled_dims_ok :
  tiled_dims s = Ret (ShardingOps.tile_extent <$> ShardingOps.reals (dims s)).
Proof.
  unfold tiled_dims.
  destruct (foldM_inv
    (fun l dim => if sd_sharding dim <=? sd_size dim
                  then q ← div64 (sd_size dim) (sd_sharding dim); mret (l ++ [q]) else mret l)
    (fun done l => l = ShardingOps.tile_extent <$> ShardingOps.reals done) (dims s) [])
    as (l & -> & ->); [done| |done].
  intros d dim rest l Heq ->. assert (Hin : dim ∈ dims s) by (rewrite Heq; set_solver).
  pose proof (ShardingOps.wf_dims s Hwf dim Hin) as Hd.
  pose proof (ShardingOps.replica_size_lt dim Hd) as Hr.
  rewrite Z.leb_antisym, Hr, ShardingOps.reals_app, fmap_app, ShardingOps.reals_cons.
  destruct (ShardingOps.is_replica dim); cbn [negb].
  - eexists; split; [done|]. by rewrite app_nil_r.
  - pose proof (wf_size_i64 s Hwf dim Hin). destruct Hd as (?&?&_).
    rewrite div64_ok by (unfold i64; lia). eexists; split; [done|]. done.
Qed.

Lemma tile_elements_i64 : 1 <= ShardingOps.tile_elements s <= i64_max.
Proof.
  pose proof (ShardingOps.tile_elements_pos s Hwf). pose proof (ShardingOps.tiles_elements s Hwf).
  pose proof (ShardingOps.sizes_i64 s Hwf). pose proof (ShardingOps.num_tiles_pos s Hwf). nia.
Qed.
End WellFormed.

(** *** Processors and shapes as keys *)
Lemma proc_eqb_refl p : proc_eqb p p = true.
Proof. unfold proc_eqb. by rewrite bool_decide_true, Z.eqb_refl by done. Qed.

Lemma proc_eqb_trans a b c : proc_eqb a b = true -> proc_eqb a c = proc_eqb b c.
Proof.
  unfold proc_eqb. rewrite andb_true_iff, bool_decide_eq_true, Z.eqb_eq. by intros [-> ->].
Qed.

Lemma proc_eqb_same_r a b c : proc_eqb a b = true -> proc_eqb c a = proc_eqb c b.
Proof.
  unfold proc_eqb. intros [->%bool_decide_eq_true ->%Z.eqb_eq]%andb_true_iff. done.
Qed.

Lemma alist_find_proc {A} p p' (l : list (Processor * A)) : proc_eqb p p' = true ->
  alist_find proc_eqb p' l = alist_find proc_eqb p l.
Proof.
  intros He. induction l as [|[q a] l IH]; cbn; [done|]. by rewrite (proc_eqb_same_r _ _ q He), IH.
Qed.

Lemma shape_eqb_refl s : shape_eqb s s = true.
Proof. by apply ShardingOps.shape_eqb_eq. Qed.

Lemma global_id_key_eqb_eq a b : global_id_key_eqb a b = true <-> a = b.
Proof.
  unfold global_id_key_eqb.
  rewrite !andb_true_iff, DeviceListOps.eqb_eq, Z.eqb_eq, bool_decide_eq_true.
  destruct a, b; cbn. split; [by intros [[-> ->] ->]|by intros [= -> -> ->]].
Qed.

(** *** Allocation *)
Section AllocationLemmas.
Context `{RealmMemory} `{!BuildFlags} (procs : ProcState).
Context (u : Processor) (Hutil : Processor_Util procs = Ret u).
Implicit Types w : World.

(** The instances in a list of cached tiles, with the events they wait for. *)
Definition cached_instances (l : list (Event * ArrayTile)) : list (nat * Event) :=
  omap (fun '(ev, tile) => i ← instance_ tile; Some (i, ev)) l.

(** All the instances that the cache keeps for a processor. *)
Definition reclaimable (p : Processor) w : list (nat * Event) :=
  if ZUKU_USE_TILE_CACHE then cached_instances (concat (snd <$> tiles_of p w)) else [].

(** The state after the cache of [p] was cleared. *)
Definition cleared (p : Processor) w : World :=
  if ZUKU_USE_TILE_CACHE
  then set_tiles (alist_set proc_eqb p [] (w_tiles w))
         (set_destroyed (w_destroyed w ++ reclaimable p w) w)
  else w.

Lemma set_destroyed_same w : set_destroyed (w_destroyed w) w = w.
Proof. by destruct w. Qed.

Lemma delete_tiles_ok l w :
  delete_tiles l w = (Ret tt, set_destroyed (w_destroyed w ++ cached_instances l) w).
Proof.
  revert w. induction l as [|[ev tile] l IH]; intros w; cbn [delete_tiles].
  - cbn. by rewrite app_nil_r, set_destroyed_same.
  - unfold Tile_DeferredDeleteInstances. rewrite sm_bind_unfold.
    destruct (instance_ tile) as [i|] eqn:E; cbn [sm_modify]; cbn; rewrite IH, E; cbn.
    + by rewrite <- (assoc_L (++)).
    + done.
Qed.

Lemma clear_queues_ok cache w :
  clear_queues cache w =
  (Ret tt, set_destroyed (w_destroyed w ++ cached_instances (concat (snd <$> cache))) w).
Proof.
  revert w. induction cache as [|[sh q] cache IH]; intros w; cbn [clear_queues].
  - cbn. by rewrite app_nil_r, set_destroyed_same.
  - rewrite sm_bind_unfold, delete_tiles_ok, IH. cbn.
    unfold cached_instances. by rewrite omap_app, (assoc_L (++)).
Qed.

Lemma ClearTiles_ok p w : ClearTiles p w = (Ret tt, cleared p w).
Proof.
  unfold ClearTiles, cleared, reclaimable. destruct ZUKU_USE_TILE_CACHE; [|done].
  rewrite sm_get_bind, sm_bind_unfold, clear_queues_ok. done.
Qed.

Lemma TryAllocation_ok rect memory fs w :
  let request := mkAlloc memory rect fs in
  TryAllocation procs rect memory fs w =
  (Ret (alloc_ready (length (w_allocs w)), length (w_allocs w),
        alloc_succeeds (w_allocs w) (w_destroyed w) request),
   set_allocs (w_allocs w ++ [request]) w).
Proof. unfold TryAllocation. by rewrite Hutil. Qed.

(** The outcomes of the two attempts. *)
Definition first_attempt (request : AllocRequest Memory) w : bool :=
  alloc_succeeds (w_allocs w) (w_destroyed w) request.
Definition second_attempt (request : AllocRequest Memory) (p : Processor) w : bool :=
  alloc_succeeds (w_allocs w ++ [request]) (w_destroyed (cleared p w)) request.

Lemma cleared_allocs p w l : cleared p (set_allocs l w) = set_allocs l (cleared p w).
Proof. unfold cleared. by destruct ZUKU_USE_TILE_CACHE. Qed.

Lemma w_allocs_cleared p w : w_allocs (cleared p w) = w_allocs w.
Proof. unfold cleared. by destruct ZUKU_USE_TILE_CACHE. Qed.

Lemma allocate_ok rect memory fs p w :
  let request := mkAlloc memory rect fs in
  let n := length (w_allocs w) in
  allocate procs rect memory fs p w =
  if first_attempt request w
  then (Ret (alloc_ready n, n), set_allocs (w_allocs w ++ [request]) w)
  else
    ((if second_attempt request p w then Ret (alloc_ready (S n), S n)
      else Throw AllocationFailureExn),
     set_allocs (w_allocs w ++ [request; request]) (cleared p w)).
Proof.
  intros request n. unfold allocate. rewrite sm_bind_unfold, TryAllocation_ok.
  fold request. fold n. unfold first_attempt.
  destruct (alloc_succeeds (w_allocs w) _ _); [done|].
  rewrite sm_bind_unfold, ClearTiles_ok, sm_bind_unfold, TryAllocation_ok.
  fold request. rewrite cleared_allocs. unfold second_attempt. cbn [w_allocs set_allocs].
  rewrite length_app, Nat.add_1_r, <- (assoc_L (++)). cbn [app].
  change (w_destroyed (set_allocs _ (cleared p w))) with (w_destroyed (cleared p w)).
  fold n. by destruct (alloc_succeeds _ _ _).
Qed.
End AllocationLemmas.

(** *** Creating an array *)
Section CreateLemmas.
Context `{RealmMemory} `{!BuildFlags} (procs : ProcState) `{!RealmLimits}.
Context (u : Processor) (Hutil : Processor_Util procs = Ret u).
Implicit Types w : World.

(** The tile that [GetTile] finds in the cache. *)
Definition cache_front (shape : TileShape) (p : Processor) w : option (Event * ArrayTile) :=
  if ZUKU_USE_TILE_CACHE then
    match alist_find tile_shape_eqb shape (tiles_of p w) with
    | Some (tile :: _) => Some tile
    | _ => None
    end
  else None.

(** The state after a miss: the processor has an entry in the cache. *)
Definition touched (p : Processor) w : World :=
  if ZUKU_USE_TILE_CACHE then set_tiles (alist_set proc_eqb p (tiles_of p w) (w_tiles w)) w else w.

Lemma GetTile_miss shape p w : cache_front shape p w = None ->
  GetTile shape p w = (Ret None, touched p w).
Proof.
  unfold cache_front, GetTile, touched. destruct ZUKU_USE_TILE_CACHE; [|done].
  intros Hm. rewrite sm_get_bind. erewrite sm_bind_ret by done.
  by destruct (alist_find _ _ _) as [[|]|].
Qed.

Lemma touched_reclaimable p w : reclaimable p (touched p w) = reclaimable p w.
Proof.
  unfold reclaimable, touched. destruct ZUKU_USE_TILE_CACHE; [|done].
  unfold tiles_of at 1, alist_get. cbn [set_tiles w_tiles].
  by rewrite alist_find_set by apply proc_eqb_refl.
Qed.

Lemma touched_same p w :
  w_allocs (touched p w) = w_allocs w /\ w_destroyed (touched p w) = w_destroyed w /\
  w_heap (touched p w) = w_heap w /\ w_counts (touched p w) = w_counts w /\
  w_next_ids (touched p w) = w_next_ids w /\ w_copies (touched p w) = w_copies w /\
  w_rt (touched p w) = w_rt w.
Proof. unfold touched. by destruct ZUKU_USE_TILE_CACHE. Qed.

Lemma second_attempt_touched request p w :
  second_attempt request p (touched p w) = second_attempt request p w.
Proof.
  destruct (touched_same p w) as (Ha & Hd & _).
  unfold second_attempt. rewrite Ha. f_equal. unfold cleared. pose proof (touched_reclaimable p w) as Hr.
  destruct ZUKU_USE_TILE_CACHE; [|done]. cbn [w_destroyed set_tiles set_destroyed]. by rewrite Hr, Hd.
Qed.

(** The tile of a shard, and the request for its instance. *)
Definition tile_shape_of (shape : ShardedShape) (i : Z) : TileShape :=
  let s := ss_sharding shape in
  mkTileShape (ss_type shape) (ShardingOps.tile_extent <$> ShardingOps.reals (dims s))
    (tile_rect s (TileIndex.tile_index s i)).

Definition tile_request (shape : ShardedShape) (ctor : ArrayCtor) (i : Z) : AllocRequest Memory :=
  mkAlloc (memory_query (proc_ (ctor_processor ctor)) (ctor_memory ctor))
    (ts_bounds (tile_shape_of shape i)) (SupportedTypeSizeOf (ss_type shape)).

(** The number of live arrays of a shape. *)
Definition live (p : Processor) (shape : ShardedShape) w : Z :=
  alist_get shape_eqb 0 shape (alist_get proc_eqb [] p (w_counts w)).

Lemma count_array_ok p shape d w : i64 (live p shape w + d) ->
  exists w', count_array p shape d w = (Ret tt, w') /\
    (forall p' shape', live p' shape' w' =
       live p' shape' w + if proc_eqb p p' && shape_eqb shape shape' then d else 0) /\
    w_heap w' = w_heap w /\ w_allocs w' = w_allocs w /\ w_tiles w' = w_tiles w /\
    w_destroyed w' = w_destroyed w /\ w_next_ids w' = w_next_ids w.
Proof.
  intros Hi. unfold count_array. rewrite sm_get_bind.
  fold (live p shape w). rewrite (add64_ok _ _ Hi). eexists. split; [done|].
  cbn. split_and!; try done. intros p' shape'. unfold live, alist_get. cbn [w_counts set_counts].
  destruct (proc_eqb p p') eqn:Ep; cbn [andb].
  - rewrite !(alist_find_proc p p') by done. rewrite (alist_find_set _ proc_eqb_refl p). cbn [default from_option id].
    destruct (shape_eqb shape shape') eqn:Es.
    + apply ShardingOps.shape_eqb_eq in Es as <-. by rewrite (alist_find_set _ shape_eqb_refl shape).
    + rewrite (alist_find_set_ne _ shape_eqb_refl); [lia|].
      by intros x ->%ShardingOps.shape_eqb_eq.
  - rewrite (alist_find_set_ne _ proc_eqb_refl); [lia|].
    intros x Hx. by rewrite (proc_eqb_trans _ _ p' Hx).
Qed.

Lemma new_array_ok shape ctor array w :
  exists id w', new_array shape ctor array w = (Ret (length (w_heap w)), w') /\
    w_heap w' = w_heap w ++ [mkArray id shape (default (-1) (ctor_shard_id ctor))
                               (ctor_processor ctor) (ctor_name ctor) array] /\
    w_counts w' = w_counts w /\ w_allocs w' = w_allocs w /\ w_tiles w' = w_tiles w /\
    w_destroyed w' = w_destroyed w.
Proof.
  unfold new_array, AllocateNextGlobalId. destruct (assigned_id ctor) as [id|].
  - exists id. eexists. split; [done|]. done.
  - eexists _, _. split; [done|]. done.
Qed.

(** [Create] up to the allocation. *)
Lemma Create_unfold shape ctor i w :
  let s := ss_sharding shape in
  ShardingOps.wf s -> rank_supported s -> own_shard s ctor = Ret (Some i) ->
  0 <= i < num_devices_ (devices s) ->
  ShardedArray_Create procs shape ctor w =
  try_create (ctor_processor ctor)
    ('(event, array) ← Tile_Create procs (tile_shape_of shape i)
                         (mkTileCtor (ctor_memory ctor) (Some (ctor_processor ctor)));
     _ ← count_array (ctor_processor ctor) shape 1;
     o ← new_array shape (with_shard ctor (Some i)) (Some array);
     mret (Store_DeferredCreate event o)) w.
Proof.
  intros s Hwf Hr Ho Hi. unfold ShardedArray_Create. fold s.
  rewrite (total_shards_ok s Hwf). cbn [sm_lift]. erewrite sm_bind_ret by done.
  unfold DeviceListOps.size. rewrite Z.eqb_refl. cbn [negb].
  erewrite sm_bind_ret by (unfold sm_lift; by rewrite Ho).
  cbn iota beta zeta. erewrite sm_bind_ret by (unfold sm_lift; by rewrite tiled_dims_ok).
  erewrite sm_bind_ret by (unfold sm_lift; by rewrite (ComputeTileBounds_ok s i)). done.
Qed.
End CreateLemmas.

Lemma ToRealmTypeVariant_ok type : type <> C128 -> exists v, ToRealmTypeVariant type = Ret v.
Proof. destruct type; [eexists; reflexivity..|done]. Qed.

(** ** Theorems *)
Section Creation.
Context `{RealmMemory} `{!BuildFlags} (procs : ProcState) `{!RealmLimits}.
Context (u : Processor) (Hutil : Processor_Util procs = Ret u).
Implicit Types w : World.

(** [Create] for shard [i] may proceed: the sharding is well formed, its rank
    and type are supported, and no cached tile has the tile's shape. *)
Definition creatable (shape : ShardedShape) (ctor : ArrayCtor) (i : Z) w : Prop :=
  let s := ss_sharding shape in
  ShardingOps.wf s /\ rank_supported s /\ ss_type shape <> C128 /\
  own_shard s ctor = Ret (Some i) /\ 0 <= i < num_devices_ (devices s) /\
  cache_front (tile_shape_of shape i) (ctor_processor ctor) w = None.

Lemma Tile_Create_miss shape ctor i v w :
  creatable shape ctor i w -> ToRealmTypeVariant (ss_type shape) = Ret v ->
  Tile_Create procs (tile_shape_of shape i)
    (mkTileCtor (ctor_memory ctor) (Some (ctor_processor ctor))) w =
  let '(r, w1) := allocate procs (ts_bounds (tile_shape_of shape i))
                    (memory_query (proc_ (ctor_processor ctor)) (ctor_memory ctor))
                    (SupportedTypeSizeOf (ss_type shape)) (ctor_processor ctor)
                    (touched (ctor_processor ctor) w) in
  (p ← r; Ret (p.1, mkTile (Some p.2) (tile_shape_of shape i) v), w1).
Proof.
  intros (_ & _ & _ & _ & _ & Hc) Hv. unfold Tile_Create. cbn [tc_processor tc_memory].
  erewrite sm_bind_ret by done. erewrite sm_bind_ret by (by apply GetTile_miss).
  cbn iota. erewrite sm_bind_ret by (unfold sm_lift; by cbn; rewrite Hv).
  rewrite sm_bind_unfold. cbn [ts_type tile_shape_of]. rewrite Hv.
  by destruct (allocate _ _ _ _ _ _) as [[[ev inst]| | |] w1].
Qed.

(** The state between the allocation and the end of [Create]. *)
Lemma allocate_same request p fs rect memory w r w1 :
  request = mkAlloc memory rect fs ->
  allocate procs rect memory fs p (touched p w) = (r, w1) ->
  w_heap w1 = w_heap w /\ w_counts w1 = w_counts w /\ w_next_ids w1 = w_next_ids w /\
  r = (if first_attempt request w
       then Ret (alloc_ready (length (w_allocs w)), length (w_allocs w))
       else if second_attempt request p w
       then Ret (alloc_ready (S (length (w_allocs w))), S (length (w_allocs w)))
       else Throw AllocationFailureExn) /\
  w_allocs w1 = w_allocs w ++ (if first_attempt request w then [request] else [request; request]) /\
  w_destroyed w1 = w_destroyed w ++ (if first_attempt request w then [] else reclaimable p w).
Proof.
  intros -> E. rewrite (allocate_ok procs u Hutil) in E.
  destruct (touched_same p w) as (Ha & Hd & Hh & Hc & Hn & _).
  rewrite second_attempt_touched, Ha in E. unfold first_attempt in *. rewrite Ha, Hd in E.
  pose proof (touched_reclaimable p w) as Hr.
  destruct (alloc_succeeds _ _ _).
  - injection E as <- <-. cbn. by rewrite app_nil_r.
  - injection E as <- <-. unfold cleared. destruct ZUKU_USE_TILE_CACHE eqn:Ez.
    + cbn. rewrite Hr, Hd. destruct (second_attempt _ _ _); done.
    + cbn. assert (reclaimable p w = []) as -> by (unfold reclaimable; by rewrite Ez).
      rewrite app_nil_r. by destruct (second_attempt _ _ _).
Qed.

(** C20: creating an array that is [creatable] on a processor that owns shard [i] (the
    sharding is well formed, rank and type are supported, and the tile cache keeps no
    tile of this shape for the processor), when the first or the second request
    succeeds, returns a store that waits for the allocation of a new instance.  Exactly
    one instance is requested if the first request succeeds; a failed one is retried
    once, after every cached instance of the processor was destroyed.  The instance was
    requested for the rectangle that [ComputeTileBounds] gives the shard, the tile has
    as many elements as that rectangle and as [NumLocalElements], and the array is
    counted once, under its processor and shape only. *)
Theorem create_array (shape : ShardedShape) (ctor : ArrayCtor) (i : Z) w
    (Hok : creatable shape ctor i w)
    (Hcount : i64 (live (ctor_processor ctor) shape w + 1)) :
  let request := tile_request shape ctor i in
  let p := ctor_processor ctor in
  first_attempt request w = true \/ second_attempt request p w = true ->
  exists k id tile w',
    ShardedArray_Create procs shape ctor w =
      (Ret (Store_DeferredCreate (alloc_ready k) (length (w_heap w))), w') /\
    w_heap w' = w_heap w ++ [mkArray id shape i p (ctor_name ctor) (Some tile)] /\
    w_allocs w' = w_allocs w ++ (if first_attempt request w then [request] else [request; request]) /\
    length (w_allocs w') = S k /\ instance_ tile = Some k /\
    ComputeTileBounds i (ss_sharding shape) = Ret (realm_shape tile) /\
    ComputeRealmShapeSize (realm_shape tile) = Ret (num_elements tile) /\
    ShardingOps.NumLocalElements (ss_sharding shape) = Ret (num_elements tile) /\
    (forall p' shape', live p' shape' w' =
       live p' shape' w + if proc_eqb p p' && shape_eqb shape shape' then 1 else 0) /\
    w_destroyed w' = w_destroyed w ++ (if first_attempt request w then [] else reclaimable p w).
Proof.
  intros request p Hsucc. pose proof Hok as (Hwf & Hr & Ht & Ho & Hi & _).
  destruct (ToRealmTypeVariant_ok _ Ht) as [v Hv].
  rewrite (Create_unfold procs shape ctor i w Hwf Hr Ho Hi). unfold try_create.
  rewrite sm_bind_unfold, (Tile_Create_miss _ _ _ _ _ Hok Hv).
  destruct (allocate _ _ _ _ _ _) as [r w1] eqn:E.
  destruct (allocate_same request p _ _ _ _ _ _ eq_refl E) as (Hh & Hc & _ & -> & Ha & Hd).
  assert (Hk : exists k, (if first_attempt request w
       then Ret (alloc_ready (length (w_allocs w)), length (w_allocs w))
       else if second_attempt request p w
       then Ret (alloc_ready (S (length (w_allocs w))), S (length (w_allocs w)))
       else Throw AllocationFailureExn) = Ret (alloc_ready k, k) /\ length (w_allocs w1) = S k).
  { rewrite Ha. destruct (first_attempt request w).
    - eexists; split; [done|]. rewrite length_app. cbn. lia.
    - destruct Hsucc as [?| ->]; [done|]. eexists; split; [done|]. rewrite length_app. cbn. lia. }
  destruct Hk as (k & -> & Hk). cbn [mbind outcome_bind fst snd].
  set (tile := mkTile (Some k) (tile_shape_of shape i) v).
  assert (Hlive : forall p' shape', live p' shape' w1 = live p' shape' w) by (intros; unfold live; by rewrite Hc).
  destruct (count_array_ok p shape 1 w1) as (w2 & E2 & Hl2 & Hh2 & Ha2 & _ & Hd2 & _);
    [by rewrite Hlive|].
  fold p. erewrite sm_bind_ret by exact E2.
  destruct (new_array_ok shape (with_shard ctor (Some i)) (Some tile) w2)
    as (id & w3 & E3 & Hh3 & Hc3 & Ha3 & _ & Hd3).
  erewrite sm_bind_ret by exact E3. exists k, id, tile, w3.
  pose proof (tile_elements_i64 _ Hwf) as He. unfold ShardingOps.tile_elements in He.
  assert (Hn : num_elements tile = ShardingOps.tile_elements (ss_sharding shape))
    by (apply (num_elements_prod tile); split; [apply Z.le_trans with 1; [done|]|]; apply He).
  rewrite Hn. split_and!.
  - by rewrite Hh2, Hh.
  - by rewrite Hh3, Hh2, Hh.
  - by rewrite Ha3, Ha2, Ha.
  - by rewrite Ha3, Ha2.
  - done.
  - by apply ComputeTileBounds_ok.
  - apply tile_rect_size; [done|]. by apply TileIndex.tile_index_valid.
  - by apply ShardingOps.NumLocalElements_ok.
  - intros p' shape'. transitivity (live p' shape' w2); [unfold live; by rewrite Hc3|].
    by rewrite Hl2, Hlive.
  - by rewrite Hd3, Hd2, Hd.
Qed.

(** C38: when neither request succeeds for an array that is [creatable], [Create] makes
    exactly two equal requests and throws [AllocationFailure] (if the report of the live
    arrays does not overflow): nothing but the cache of the
    processor is lost, no array is made, and no count or id is used. *)
Theorem create_array_fails (shape : ShardedShape) (ctor : ArrayCtor) (i : Z) w
    (Hok : creatable shape ctor i w) (total : Z)
    (Hreport : report_allocations (ctor_processor ctor) w = Ret total) :
  let request := tile_request shape ctor i in
  let p := ctor_processor ctor in
  first_attempt request w = false -> second_attempt request p w = false ->
  exists w',
    ShardedArray_Create procs shape ctor w = (Throw AllocationFailureExn, w') /\
    w_heap w' = w_heap w /\ w_counts w' = w_counts w /\ w_next_ids w' = w_next_ids w /\
    w_allocs w' = w_allocs w ++ [request; request] /\
    w_destroyed w' = w_destroyed w ++ reclaimable p w.
Proof.
  intros request p Hf Hs. pose proof Hok as (Hwf & Hr & Ht & Ho & Hi & _).
  destruct (ToRealmTypeVariant_ok _ Ht) as [v Hv].
  rewrite (Create_unfold procs shape ctor i w Hwf Hr Ho Hi). unfold try_create.
  rewrite sm_bind_unfold, (Tile_Create_miss _ _ _ _ _ Hok Hv).
  destruct (allocate _ _ _ _ _ _) as [r w1] eqn:E.
  destruct (allocate_same request p _ _ _ _ _ _ eq_refl E) as (Hh & Hc & Hn & -> & Ha & Hd).
  rewrite Hf in Ha, Hd |- *. rewrite Hs. cbn [mbind outcome_bind]. exists w1.
  assert (report_allocations (ctor_processor ctor) w1 = Ret total) as ->
    by (unfold report_allocations in *; by rewrite Hc).
  done.
Qed.
End Creation.

(** ** The ids of arrays

    An array's id is the number of arrays created before it on the same devices
    by the same processor, so processes that create arrays in the same order
    agree on their ids without communicating. *)
Section Ids.
Context `{RealmMemory}.
Implicit Types w : World.

Definition id_key (p : Processor) (shape : ShardedShape) : GlobalIdKey :=
  mkGlobalIdKey (devices (ss_sharding shape)) (local_id_ p) (type_ p).

Definition next_id (p : Processor) (shape : ShardedShape) w : Z :=
  alist_get global_id_key_eqb 0 (id_key p shape) (w_next_ids w).

(** The ids of the arrays that a processor creates with these shapes. *)
Fixpoint allocate_ids (p : Processor) (shapes : list ShardedShape) : SM World (list Z) :=
  match shapes with
  | [] => mret []
  | shape :: shapes =>
      id ← AllocateNextGlobalId p shape None; ids ← allocate_ids p shapes; mret (id :: ids)
  end.

(** The shapes of a list with the devices of [shape]. *)
Definition same_devices (shape : ShardedShape) (l : list ShardedShape) : list ShardedShape :=
  filter (fun sh => devices (ss_sharding sh) = devices (ss_sharding shape)) l.

Lemma next_id_after p shape shape' w id w' :
  AllocateNextGlobalId p shape' None w = (Ret id, w') ->
  id = next_id p shape' w /\
  next_id p shape w' =
    if bool_decide (devices (ss_sharding shape') = devices (ss_sharding shape))
    then to_u64 (next_id p shape w + 1) else next_id p shape w.
Proof.
  unfold AllocateNextGlobalId. rewrite sm_get_bind. intros [= <- <-]. split; [done|].
  unfold next_id, alist_get. cbn [w_next_ids set_next_ids sm_modify].
  assert (Hrefl : forall k, global_id_key_eqb k k = true) by (intros; by apply global_id_key_eqb_eq).
  case_bool_decide as Hd.
  - assert (id_key p shape = id_key p shape') as -> by (unfold id_key; by rewrite Hd).
    unfold id_key. by rewrite alist_find_set.
  - rewrite alist_find_set_ne; [done|done|].
    intros k ->%global_id_key_eqb_eq. apply not_true_is_false.
    rewrite global_id_key_eqb_eq. unfold id_key. congruence.
Qed.

Lemma allocate_ids_ok p shapes w :
  (forall shape, to_u64 (next_id p shape w) = next_id p shape w) ->
  exists ids w', allocate_ids p shapes w = (Ret ids, w') /\
    length ids = length shapes /\
    forall k shape id, shapes !! k = Some shape -> ids !! k = Some id ->
      id = to_u64 (next_id p shape w + Z.of_nat (length (same_devices shape (take k shapes)))).
Proof.
  revert w. induction shapes as [|sh shapes IH]; intros w Hw.
  - by exists [], w.
  - cbn [allocate_ids]. destruct (AllocateNextGlobalId p sh None w) as [r w1] eqn:E1.
    assert (exists id, r = Ret id) as [id ->]
      by (unfold AllocateNextGlobalId in E1; rewrite sm_get_bind in E1; injection E1; eauto).
    assert (Hw1 : forall shape, to_u64 (next_id p shape w1) = next_id p shape w1).
    { intros shape. rewrite (proj2 (next_id_after p shape sh w id w1 E1)).
      case_bool_decide; [by rewrite to_u64_idem|done]. }
    destruct (IH w1 Hw1) as (ids & w2 & E2 & Hl & Hids). exists (id :: ids), w2.
    erewrite sm_bind_ret by exact E1. erewrite sm_bind_ret by exact E2.
    split; [done|]. split; [cbn; lia|]. intros [|k] shape id' Hs Hid; cbn in Hs, Hid.
    + injection Hs as <-. injection Hid as <-. cbn.
      by rewrite (proj1 (next_id_after p sh sh w id w1 E1)), Z.add_0_r, Hw.
    + rewrite (Hids k shape id' Hs Hid).
      rewrite (proj2 (next_id_after p shape sh w id w1 E1)). unfold same_devices. cbn [take].
      rewrite filter_cons. case_bool_decide as Hd; [rewrite decide_True by done|by rewrite decide_False].
      cbn [length]. unfold to_u64. rewrite Zplus_mod_idemp_l. f_equal. lia.
Qed.

(** C34: two processes that create the same sequence of arrays, each on its own
    processor, give the arrays the same ids, and two arrays of one mesh get the
    same id only 2^64 creations apart. *)
Theorem spmd_ids_agree (p q : Processor) (wp wq : World) (shapes : list ShardedShape)
    (Hp : w_next_ids wp = []) (Hq : w_next_ids wq = []) :
  exists ids wp' wq',
    allocate_ids p shapes wp = (Ret ids, wp') /\ allocate_ids q shapes wq = (Ret ids, wq') /\
    length ids = length shapes /\
    (forall j k sj sk id id', (j < k)%nat -> Z.of_nat (length shapes) <= u64_modulus ->
       shapes !! j = Some sj -> shapes !! k = Some sk ->
       devices (ss_sharding sj) = devices (ss_sharding sk) ->
       ids !! j = Some id -> ids !! k = Some id' -> id <> id').
Proof.
  assert (Hz : forall p w, w_next_ids w = [] -> forall shape, next_id p shape w = 0)
    by (intros r w Hw shape; unfold next_id; by rewrite Hw).
  destruct (allocate_ids_ok p shapes wp) as (ids & wp' & E & Hl & Hids); [by intros; rewrite Hz|].
  destruct (allocate_ids_ok q shapes wq) as (ids' & wq' & E' & Hl' & Hids'); [by intros; rewrite Hz|].
  assert (ids' = ids) as ->.
  { apply list_eq_same_length with (length shapes); [done|done|]. intros k id id' Hk Hid Hid'.
    destruct (lookup_lt_is_Some_2 shapes k Hk) as [sh Hsh].
    by rewrite (Hids k sh id' Hsh Hid'), (Hids' k sh id Hsh Hid), !Hz. }
  exists ids, wp', wq'. split_and!; try done.
  intros j k sj sk id id' Hjk Hn Hj Hk Hd Hid Hid' <-.
  pose proof (Hids j sj id Hj Hid) as H1. pose proof (Hids k sk id Hk Hid') as H2.
  rewrite H1, !Hz in H2 by done.
  assert (Hsame : same_devices sj (take k shapes) = same_devices sk (take k shapes))
    by (unfold same_devices; by rewrite Hd).
  rewrite <- Hsame in H2.
  assert (Hlt : (length (same_devices sj (take j shapes)) <
                 length (same_devices sj (take k shapes)))%nat).
  { rewrite <- (take_drop_middle (take k shapes) j sj) by (by rewrite lookup_take_lt).
    unfold same_devices. rewrite take_take, Nat.min_l, filter_app, filter_cons_True by (done || lia).
    rewrite length_app. cbn. lia. }
  assert (Hle : (length (same_devices sj (take k shapes)) < length shapes)%nat).
  { apply lookup_lt_Some in Hk. unfold same_devices.
    pose proof (length_filter (fun sh => devices (ss_sharding sh) = devices (ss_sharding sj)) (take k shapes)).
    rewrite length_take in *. lia. }
  unfold to_u64 in H2. rewrite !Z.mod_small in H2 by lia. lia.
Qed.
End Ids.

(** ** Moves *)
Section MoveProperties.
Context `{RealmMemory} `{!RealmOps}.
Implicit Types w : World.

Lemma heap_get_ok p i a w : p = Some i -> w_heap w !! i = Some a -> heap_get p w = (Ret a, w).
Proof. intros -> Ha. unfold heap_get. cbn. by rewrite Ha. Qed.

Lemma fired_after_ready (fired : Event -> Prop) `{!Moment fired} e (s : @Store _ nat) :
  fired (Store_Precondition (Store_ReadyAfter e e s)) <-> fired e /\ fired (rw_event s).
Proof.
  rewrite (fired_precondition fired), (fired_ready_after fired). unfold war_event. cbn.
  pose proof (fired_no_event (fired := fired)). tauto.
Qed.

(** The object [a] with another id. *)
Definition with_id (id : Z) (a : ShardedArray) : ShardedArray :=
  mkArray id (sa_shape a) (shard_id_ a) (sa_proc a) (name_ a) (array_ a).

Lemma ReassignId_ok p i a id w : p = Some i -> w_heap w !! i = Some a ->
  ReassignId p id w = (Ret tt, set_heap (<[i := with_id id a]> (w_heap w)) w).
Proof.
  intros -> Ha. unfold ReassignId. erewrite sm_bind_ret by (by apply (heap_get_ok _ i a)). done.
Qed.

(** C30: a move copies the source's tile once, after everything the source and the
    target wait for and after the given precondition; both stores are then
    ready only after the copy; and the target takes the source's id.  Without a
    tile only the id moves.  The profiler is asked for one region, on the source's
    processor, for the time of the copy. *)
Theorem move_to_memory (src dst : @Store _ nat) (pre : option Event) (i j : nat)
    (a b : ShardedArray) w
    (Hsrc : store_value src = Some i) (Ha : w_heap w !! i = Some a)
    (Hdst : store_value dst = Some j) (Hb : w_heap w !! j = Some b)
    (Hboth : is_Some (array_ a) -> is_Some (array_ b)) :
  exists src' dst' w',
    MoveToMemory src dst pre w = (Ret (src', dst'), w') /\
    w_heap w' = <[j := with_id (mesh_unique_id_ a) b]> (w_heap w) /\
    match array_ a, array_ b with
    | Some ta, Some tb =>
        exists before,
          w_copies w' = w_copies w ++
            [mkCopy _ (realm_shape ta) (SupportedTypeSizeOf (ss_type (sa_shape a)))
                    (instance_ ta) (instance_ tb) before] /\
          w_regions w' = w_regions w ++
            [mkRegionCall _ (sa_proc a) "copy" before (copy_event (length (w_copies w)))] /\
          forall fired, Moment fired ->
            (fired before <-> fired (Store_Precondition src) /\ fired (Store_Precondition dst) /\
                              fired (default NO_EVENT pre)) /\
            (fired (Store_Precondition src') <->
               fired (copy_event (length (w_copies w))) /\ fired (rw_event src)) /\
            (fired (Store_Precondition dst') <->
               fired (copy_event (length (w_copies w))) /\ fired (rw_event dst))
    | _, _ => src' = src /\ dst' = dst /\ w_copies w' = w_copies w /\ w_regions w' = w_regions w
    end.
Proof.
  unfold MoveToMemory. erewrite sm_bind_ret by (by apply (heap_get_ok _ i a)).
  unfold HasTile. destruct (array_ a) as [ta|] eqn:Eta; cycle 1.
  { exists src, dst, (set_heap (<[j := with_id (mesh_unique_id_ a) b]> (w_heap w)) w).
    rewrite sm_bind_unfold. cbn [bool_decide]. rewrite bool_decide_false by (by intros [? ?]).
    cbn. erewrite sm_bind_ret by (by apply (ReassignId_ok _ j b)). done. }
  destruct (Hboth (mk_is_Some _ _ eq_refl)) as [tb Etb]. rewrite Etb.
  rewrite bool_decide_true by done.
  set (before := merge_events [Store_Precondition src; Store_Precondition dst; default NO_EVENT pre]).
  set (e := copy_event (length (w_copies w))).
  set (c := mkCopy _ (realm_shape ta) (SupportedTypeSizeOf (ss_type (sa_shape a)))
                   (instance_ ta) (instance_ tb) before).
  set (w1 := set_regions (w_regions w ++ [mkRegionCall _ (sa_proc a) "copy" before e])
               (set_copies (w_copies w ++ [c]) w)).
  exists (Store_ReadyAfter e e src), (Store_ReadyAfter e e dst),
    (set_heap (<[j := with_id (mesh_unique_id_ a) b]> (w_heap w)) w1).
  split.
  { erewrite (sm_bind_ret _ _ w (Store_ReadyAfter e e src, Store_ReadyAfter e e dst) w1).
    - cbn iota beta. erewrite sm_bind_ret by (by apply (ReassignId_ok _ j b)). done.
    - erewrite sm_bind_ret by (unfold sm_lift, sa_tile; by rewrite Eta).
      erewrite sm_bind_ret by (by apply (heap_get_ok _ j b)).
      erewrite sm_bind_ret by (unfold sm_lift, sa_tile; by rewrite Etb).
      unfold issue_copy. rewrite sm_bind_unfold, sm_get_bind. done. }
  split; [done|]. exists before. split; [done|]. split; [done|]. intros fired HM. split_and!.
  - unfold before. rewrite (@fired_merge _ fired HM), !Forall_cons, Forall_nil. tauto.
  - by apply (fired_after_ready fired).
  - by apply (fired_after_ready fired).
Qed.
End MoveProperties.

(** ** A concrete memory

    A memory that is full until an instance is destroyed, and a process with one
    utility processor and the GPU with global id 15. *)
#[local] Instance full_memory : RealmMemory := {|
  Memory := option MemoryKind;
  memory_query _ kind := kind;
  alloc_ready := op;
  alloc_succeeds _ destroyed _ := match destroyed with [] => false | _ => true end;
|}.

#[local] Instance three_dims : RealmLimits := 3.

Definition example_util : Processor := mkProc UTIL 0 0 7.
Definition example_gpu : Processor := mkProc GPU 1 15 9.
Definition example_procs : ProcState :=
  mkProcState GPU (fun t => match t with UTIL => [example_util] | GPU => [example_gpu] | _ => [] end)
    (fun _ => []) (fun _ => []).

Definition example_shape : ShardedShape := mkShape F32 ShardingOps.example_sharding.
Definition example_ctor : ArrayCtor := mkArrayCtor None None None example_gpu (Some GPU_FB_MEM).

(** A tile of 5 bytes that waits in the cache for the event of operation 3. *)
Definition example_old_tile : ArrayTile := mkTile (Some 0%nat) (mkTileShape S8 [5] (mkRect [0] [4])) INT8.

Definition example_world (cached : list (Event * ArrayTile)) : World :=
  mkWorld _ _ initial_runtime [] [] []
    [(example_gpu, [(shape_ example_old_tile, cached)])] [mkAlloc None (mkRect [0] [4]) 1] [] [] [].

Lemma create_array_witness :
  let _ : BuildFlags := true in
  exists w', ShardedArray_Create example_procs example_shape example_ctor
               (example_world [(op 3, example_old_tile)]) =
             (Ret (Store_DeferredCreate (op 2) 0%nat), w') /\
    w_destroyed w' = [(0%nat, op 3)].
Proof.
  intros F.
  edestruct (create_array example_procs example_util eq_refl example_shape example_ctor 15
    (example_world [(op 3, example_old_tile)])) as (k & id & tile & w' & E & _ & _ & _ & _ & _ & _ & _ & _ & Hd).
  - split_and!; try reflexivity; try discriminate.
    + apply ShardingOps.example_sharding_wf.
    + by apply (bool_decide_unpack _).
  - vm_compute; split; discriminate.
  - right. reflexivity.
  - exists w'. split; [|exact Hd].
    assert (k = 2%nat) as -> by (apply (f_equal fst) in E; vm_compute in E; congruence).
    exact E.
Defined.

Lemma create_array_fails_witness :
  let _ : BuildFlags := true in
  exists w', ShardedArray_Create example_procs example_shape example_ctor (example_world []) =
             (Throw AllocationFailureExn, w') /\ w_heap w' = [].
Proof.
  intros F.
  edestruct (create_array_fails example_procs example_util eq_refl example_shape example_ctor 15
    (example_world [])) as (w' & E & Hh & _).
  - split_and!; try reflexivity; try discriminate.
    + apply ShardingOps.example_sharding_wf.
    + by apply (bool_decide_unpack _).
  - reflexivity.
  - reflexivity.
  - reflexivity.
  - exists w'. split; [exact E|exact Hh].
Defined.

Lemma spmd_ids_agree_witness :
  exists wp' wq',
    allocate_ids example_gpu [example_shape; example_shape] (example_world []) = (Ret [0; 1], wp') /\
    allocate_ids example_util [example_shape; example_shape] (example_world []) = (Ret [0; 1], wq').
Proof.
  destruct (spmd_ids_agree example_gpu example_util (example_world []) (example_world [])
    [example_shape; example_shape] eq_refl eq_refl) as (ids & wp' & wq' & Ep & Eq & _).
  exists wp', wq'. assert (ids = [0; 1]) as -> by (apply (f_equal fst) in Ep; vm_compute in Ep; congruence).
  split; [exact Ep|exact Eq].
Defined.

(** Two tiles of one shape, in different memories. *)
Lemma move_to_memory_witness :
  let tile i := mkTile (Some i) (mkTileShape F32 [4] (mkRect [0] [3])) INT32 in
  let array id i := mkArray id example_shape 15 example_gpu None (Some (tile i)) in
  let w := set_heap [array 7 0%nat; array 8 1%nat] (example_world []) in
  let src := Store_DeferredCreate (op 0) 0%nat in
  let dst := Store_DeferredCreate (op 1) 1%nat in
  exists src' dst' w',
    MoveToMemory src dst None w = (Ret (src', dst'), w') /\
    w_heap w' = [array 7 0%nat; array 7 1%nat] /\ length (w_copies w') = 1%nat.
Proof.
  intros tile array w src dst.
  destruct (move_to_memory src dst None 0%nat 1%nat (array 7 0%nat) (array 8 1%nat) w
    eq_refl eq_refl eq_refl eq_refl (fun _ => mk_is_Some _ _ eq_refl))
    as (src' & dst' & w' & E & Hh & before & Hc & _).
  exists src', dst', w'. split; [exact E|]. split; [exact Hh|]. by rewrite Hc.
Defined.

(** ** What the code gets wrong *)

(** [TileShape]'s equality does not look at the bounds, so the tile cache
    gives a shard the tile that another shard of the same sharding freed: the
    new array's tile then has the bounds of the wrong shard, and copies with
    [realm_shape()] address the wrong rectangle. *)
Theorem tile_cache_confuses_bounds :
  let _ : BuildFlags := true in
  let tile := mkTile (Some 0%nat) (tile_shape_of example_shape 14) INT32 in
  exists w w' o a tile',
    FreeTile tile NO_EVENT example_gpu (example_world []) = (Ret tt, w) /\
    ShardedArray_Create example_procs example_shape example_ctor w = (Ret (Store_DeferredCreate NO_EVENT o), w') /\
    w_heap w' !! o = Some a /\ shard_id_ a = 15 /\ array_ a = Some tile' /\
    ComputeTileBounds 15 ShardingOps.example_sharding <> Ret (realm_shape tile').
Proof.
  intros F tile. set (w := (FreeTile tile NO_EVENT example_gpu (example_world [])).2).
  exists w, (ShardedArray_Create example_procs example_shape example_ctor w).2, 0%nat.
  exists (mkArray 0 example_shape 15 example_gpu None (Some tile)), tile.
  do 5 (split; [by vm_compute|]). vm_compute. discriminate.
Qed.

(** An array that holds no tile is not counted when it is created, but its
    destructor still takes one off the count: it becomes negative. *)
Theorem tileless_array_miscounts :
  let _ : BuildFlags := false in
  let ctor := mkArrayCtor None None None (mkProc GPU 0 40 9) None in
  exists w a w',
    ShardedArray_Create example_procs example_shape ctor (example_world []) = (Ret (Store_Create 0%nat), w) /\
    w_heap w = [a] /\ array_ a = None /\
    ShardedArray_dtor a w = (Ret tt, w') /\ live (sa_proc a) (sa_shape a) w' = -1.
Proof.
  intros F ctor. set (a := mkArray 0 example_shape (-1) (mkProc GPU 0 40 9) None None).
  set (w := (ShardedArray_Create example_procs example_shape ctor (example_world [])).2).
  exists w, a, (ShardedArray_dtor a w).2. do 4 (split; [by vm_compute|]). by vm_compute.
Qed.

(** Arrays of [C128] cannot be allocated, although the type is supported. *)
Theorem c128_not_allocatable `{RealmMemory} `{!BuildFlags} (procs : ProcState) shape ctor p w :
  ts_type shape = C128 -> tc_processor ctor = Some p -> cache_front shape p w = None ->
  exists w', Tile_Create procs shape ctor w =
    (Throw (RuntimeError "unsupported SupportedType"), w').
Proof.
  intros Ht Hp Hc. unfold Tile_Create. rewrite Hp. erewrite sm_bind_ret by done.
  erewrite sm_bind_ret by (by apply GetTile_miss). cbn iota. rewrite Ht. by eexists.
Qed.
