(* ===== verification/Hashing.v ===== *)
(** Hashing (src/zuku/hash.h and the specialisations of [std::hash] in mesh.h,
    shape.h, processor.h, tiled_array.h, tiled_array.cc).  The maps of the code are
    [std::unordered_map]s; the other files model them as association lists that are
    searched with the key's equality.  [hash_maps_faithful] is what makes this the
    same: a search by hash and equality finds the same entry. *)
From stdpp Require Import base tactics list numbers option.
From Stdlib Require Import ZArith Lia.
From S2P Require Import Prelude Mesh Shape Processor Tiles Arrays.
Open Scope Z_scope.

(** [std::hash] of integers and enumerations belongs to the C++ implementation; a
    hash is a [size_t]. *)
Class StdHash : Type := {
  hash_int : Z -> Z;
  hash_int_u64 n : 0 <= hash_int n < u64_modulus;
}.

(** The enumerators in the order of their declarations. *)
Definition type_code (t : SupportedType) : Z :=
  match t with
  | PRED => 0 | F16 => 1 | BF16 => 2 | F32 => 3 | F64 => 4 | S8 => 5 | S16 => 6 | S32 => 7
  | S64 => 8 | U8 => 9 | U16 => 10 | U32 => 11 | U64 => 12 | C64 => 13 | C128 => 14
  end.

Definition proc_code (t : ProcType) : Z :=
  match t with UTIL => 0 | CPU => 1 | GPU => 2 | TEST => 3 | NUM_TYPES => 4 end.

Section Hashing.
Context `{StdHash}.

(** [hash_combine(target, v)] for a value with hash [h]: [size_t] arithmetic. *)
Definition hash_combine (target h : Z) : Z :=
  Z.lxor target
    (to_u64 (h + 0x9e3779b9 + to_u64 (Z.shiftl target 6) + Z.shiftr target 2)).

(** [zuku::hash(v, vs...)], of the hashes of the arguments. *)
Definition hash (v : Z) (vs : list Z) : Z := foldl hash_combine v vs.

(** [std::hash<std::vector<T>>], of the hashes of the elements. *)
Definition hash_vector (vs : list Z) : Z :=
  foldl hash_combine (hash_int (Z.of_nat (length vs))) vs.

Definition hash_DeviceList (devices : DeviceList) : Z :=
  hash (hash_int (DeviceListOps.start devices)) [hash_int (DeviceListOps.size devices)].

Definition hash_ShardingDim (dim : ShardingDim) : Z :=
  hash (hash_int (sd_sharding dim)) [hash_int (sd_size dim); hash_int (sd_permutation dim)].

Definition hash_Sharding (s : Sharding) : Z :=
  hash (hash_vector (hash_ShardingDim <$> dims s)) [hash_DeviceList (devices s)].

Definition hash_ShardedShape (s : ShardedShape) : Z :=
  hash (hash_Sharding (ss_sharding s)) [hash_int (type_code (ss_type s))].

Definition hash_Processor (p : Processor) : Z :=
  hash (hash_int (proc_code (type_ p))) [hash_int (global_id_ p)].

Definition hash_TileShape (s : TileShape) : Z :=
  hash (hash_vector (hash_int <$> ts_dims s)) [hash_int (type_code (ts_type s))].

Definition hash_UniqueId (key : UniqueId) : Z :=
  hash (hash_DeviceList (uid_devices key)) [hash_int (uid_id key)].

Definition hash_ReshardKey (key : ReshardKey) : Z :=
  hash (hash_UniqueId (src_id key))
    [hash_UniqueId (dst_id key); hash_int (src_shard_id key); hash_int (dst_shard_id key)].

Definition hash_ScatterGatherKey (key : ScatterGatherKey) : Z :=
  hash (hash_UniqueId (sg_src_id key)) [hash_UniqueId (sg_dst_id key)].

Definition hash_GlobalIdKey (key : GlobalIdKey) : Z :=
  hash (hash_DeviceList (gk_devices key))
    [hash_int (gk_local_proc_id key); hash_int (proc_code (gk_proc_type key))].

(** ** Search by hash

    An [unordered_map] with [n] buckets: an entry is in the bucket of its key's
    hash, and a key is searched with its equality in the bucket of its hash. *)
Section Buckets.
Context {K A : Type} (eqb : K -> K -> bool) (hash_of : K -> Z).

Definition bucket (n : Z) (k : K) (l : list (K * A)) : list (K * A) :=
  filter (fun e => hash_of e.1 mod n = hash_of k mod n) l.

Definition find_by_hash (n : Z) (k : K) (l : list (K * A)) : option A :=
  alist_find eqb k (bucket n k l).

Definition respects_equality : Prop := forall a b, eqb a b = true -> hash_of a = hash_of b.

Lemma find_by_hash_ok n k l : respects_equality -> find_by_hash n k l = alist_find eqb k l.
Proof.
  intros Hr. unfold find_by_hash, bucket. induction l as [|[k' a] l IH]; [done|]. cbn [alist_find].
  rewrite filter_cons. case_decide as Hd; cbn in *.
  - by rewrite IH.
  - destruct (eqb k' k) eqn:E; [|done]. by rewrite (Hr _ _ E) in Hd.
Qed.
End Buckets.

(** Keys that are equal in all fields have the same hash. *)
Lemma respects_eq {K} (eqb : K -> K -> bool) hash_of :
  (forall a b, eqb a b = true -> a = b) -> respects_equality eqb hash_of.
Proof. intros He a b E. by rewrite (He a b E). Qed.

Lemma unique_id_eqb_eq a b : unique_id_eqb a b = true <-> a = b.
Proof.
  unfold unique_id_eqb. destruct a, b; cbn. rewrite andb_true_iff, Z.eqb_eq, DeviceListOps.eqb_eq.
  split; [by intros [-> ->]|]. by intros [= -> ->].
Qed.

Lemma reshard_key_eqb_true a b : reshard_key_eqb a b = true -> a = b.
Proof.
  unfold reshard_key_eqb. destruct a, b; cbn.
  rewrite !andb_true_iff, !unique_id_eqb_eq, !Z.eqb_eq. by intros [[[-> ->] ->] ->].
Qed.

Lemma sg_key_eqb_true a b : sg_key_eqb a b = true -> a = b.
Proof.
  unfold sg_key_eqb. destruct a, b; cbn. rewrite andb_true_iff, !unique_id_eqb_eq.
  by intros [-> ->].
Qed.

Lemma tile_shape_respects : respects_equality tile_shape_eqb hash_TileShape.
Proof.
  intros a b E. unfold tile_shape_eqb in E. unfold hash_TileShape.
  apply andb_true_iff in E as [->%bool_decide_eq_true ->%bool_decide_eq_true]. done.
Qed.

Lemma processor_respects : respects_equality proc_eqb hash_Processor.
Proof.
  intros a b E. unfold proc_eqb in E. unfold hash_Processor.
  apply andb_true_iff in E as [->%bool_decide_eq_true ->%Z.eqb_eq]. done.
Qed.

(** The maps of the code find by hash what the model finds by equality: for every
    type of keys, any content and any number of buckets. The equalities of processors
    and of tile shapes ignore fields, and so do their hashes. *)
Theorem hash_maps_faithful {A : Type} (n : Z) :
  (forall k (l : list (ShardedShape * A)),
     find_by_hash shape_eqb hash_ShardedShape n k l = alist_find shape_eqb k l) /\
  (forall k (l : list (TileShape * A)),
     find_by_hash tile_shape_eqb hash_TileShape n k l = alist_find tile_shape_eqb k l) /\
  (forall k (l : list (Processor * A)),
     find_by_hash proc_eqb hash_Processor n k l = alist_find proc_eqb k l) /\
  (forall k (l : list (GlobalIdKey * A)),
     find_by_hash global_id_key_eqb hash_GlobalIdKey n k l = alist_find global_id_key_eqb k l) /\
  (forall k (l : list (ReshardKey * A)),
     find_by_hash reshard_key_eqb hash_ReshardKey n k l = alist_find reshard_key_eqb k l) /\
  (forall k (l : list (ScatterGatherKey * A)),
     find_by_hash sg_key_eqb hash_ScatterGatherKey n k l = alist_find sg_key_eqb k l).
Proof.
  split_and!; intros k l; apply find_by_hash_ok.
  - apply respects_eq. intros; by apply ShardingOps.shape_eqb_eq.
  - apply tile_shape_respects.
  - apply processor_respects.
  - apply respects_eq. intros; by apply global_id_key_eqb_eq.
  - apply respects_eq, reshard_key_eqb_true.
  - apply respects_eq, sg_key_eqb_true.
Qed.

(** No two hashes of the value that is combined last collide. *)
Lemma hash_combine_inj target h h' :
  0 <= h < u64_modulus -> 0 <= h' < u64_modulus ->
  hash_combine target h = hash_combine target h' -> h = h'.
Proof.
  unfold hash_combine, to_u64. intros Hh Hh' E.
  apply (f_equal (Z.lxor target)) in E. rewrite <- !Z.lxor_assoc in E.
  rewrite !Z.lxor_nilpotent, !Z.lxor_0_l in E.
  set (c := 0x9e3779b9 + (Z.shiftl target 6 mod u64_modulus + Z.shiftr target 2)).
  rewrite <- !Z.add_assoc in E. fold c in E.
  clearbody c. change u64_modulus with 18446744073709551616 in *.
  assert (Hz : (h - h') mod 18446744073709551616 = 0).
  { replace (h - h') with ((h + c) - (h' + c)) by lia. by rewrite Zminus_mod, E, Z.sub_diag. }
  apply Z.mod_divide in Hz as [q Hq]; lia.
Qed.

Lemma hash_snoc_inj v vs x x' :
  0 <= x < u64_modulus -> 0 <= x' < u64_modulus -> hash v (vs ++ [x]) = hash v (vs ++ [x']) -> x = x'.
Proof. unfold hash. rewrite !foldl_app. by apply hash_combine_inj. Qed.

(** Hashes stay in [size_t]. *)
Lemma hash_combine_u64 target h :
  0 <= target < u64_modulus -> 0 <= hash_combine target h < u64_modulus.
Proof.
  intros Ht. unfold hash_combine, to_u64. set (x := _ mod _).
  assert (0 <= x < u64_modulus) as Hx by (apply Z.mod_pos_bound; done).
  split; [apply Z.lxor_nonneg; lia|].
  destruct (decide (Z.lxor target x = 0)) as [->|Hn]; [done|].
  change u64_modulus with (2 ^ 64). apply Z.log2_lt_pow2.
  { pose proof (proj2 (Z.lxor_nonneg target x) ltac:(lia)). lia. }
  eapply Z.le_lt_trans; [apply Z.log2_lxor; lia|].
  apply Z.max_lub_lt.
  - destruct (decide (target = 0)) as [->|]; [done|]. apply Z.log2_lt_pow2; [lia|].
    change (2 ^ 64) with u64_modulus. lia.
  - destruct (decide (x = 0)) as [->|]; [done|]. apply Z.log2_lt_pow2; [lia|].
    change (2 ^ 64) with u64_modulus. lia.
Qed.

Lemma hash_u64 v vs : 0 <= v < u64_modulus -> 0 <= hash v vs < u64_modulus.
Proof.
  unfold hash. revert v. induction vs as [|x vs IH]; intros v Hv; cbn; [done|].
  by apply IH, hash_combine_u64.
Qed.
End Hashing.

(** Hashes of integers as the common implementations have them. *)
Lemma to_u64_bound n : 0 <= to_u64 n < u64_modulus.
Proof. by apply Z.mod_pos_bound. Qed.

#[export] Instance example_hash : StdHash :=
  {| hash_int := to_u64; hash_int_u64 := to_u64_bound |}.

(** Processors with different local ids are equal, and so are their hashes; device
    lists that differ have different ones here. *)
Example example_hashes :
  hash_Processor (mkProc GPU 0 3 7) = hash_Processor (mkProc GPU 1 3 9) /\
  hash_DeviceList (mkDeviceList 0 4) <> hash_DeviceList (mkDeviceList 4 0).
Proof. split; [by vm_compute|]. by vm_compute. Qed.
