(* ===== verification/Printing.v ===== *)
(** Output: the operators [<<] of the program's types (src/zuku/mesh.h, shape.h,
    processor.h, tiled_array.h, tiled_array.cc, realm_variants.h, reshard_broadcast.h,
    reshard_scatter_gather.cc, reshard_gather_shards.cc, zuku_utils.h), [ShortString]
    and the message of [AllocationFailure].  They write the log and the messages of
    exceptions; what matters is that a value can be told from what is written
    ([output_tells_values]).  How Realm writes a rectangle is a parameter. *)
From stdpp Require Import base tactics list numbers option strings pretty.
From Stdlib Require Import ZArith Lia Ascii.
From S2P Require Import Prelude Mesh Shape Processor Tiles Arrays Hashing ScatterGather Broadcast ReshardConfig.
Open Scope Z_scope.
Open Scope string_scope.

Declare Scope out_scope.
Delimit Scope out_scope with out.
Open Scope out_scope.

(** ** The operators

    What a chain of [<<] writes, from left to right: an insertion can be undefined
    because the expression it inserts is. *)
Definition lit (s : string) : outcome string := mret s.
Definition int (z : Z) : outcome string := mret (pretty z).
Definition put (a b : outcome string) : outcome string := x ← a; y ← b; mret (x +:+ y).
Notation "a << b" := (put a b) (at level 45, right associativity) : out_scope.

(** [for (const auto& x : l) os << x << sep;] and what follows. *)
Definition put_each {A} (p : A -> outcome string) (sep : string) (l : list A) (rest : outcome string) : outcome string :=
  foldr (fun x rest => p x << lit sep << rest) rest l.

(** [os << optional<T>] and [os << vector<T>] *)
Definition put_optional {A} (p : A -> outcome string) (t : option A) : outcome string :=
  match t with Some x => p x | None => lit "nullopt" end.

Definition put_vector {A} (p : A -> outcome string) (v : list A) : outcome string :=
  lit "{ " << put_each p " " v (lit "}").

Definition put_DeviceList (devices : DeviceList) : outcome string :=
  lit "devices[" << int (DeviceListOps.start devices) << lit "..."
  << (stop ← DeviceListOps.stop devices; int stop) << lit ")".

Definition put_ShardingDim (dim : ShardingDim) : outcome string :=
  lit "ShardingDim(size=" << int (sd_size dim) << lit ",shard=" << int (sd_sharding dim)
  << lit ",perm=" << int (sd_permutation dim) << lit ")".

Definition put_Sharding (sharding : Sharding) : outcome string :=
  lit "Sharding(" << put_DeviceList (devices sharding) << lit ",dims={"
  << put_each put_ShardingDim "," (dims sharding) (lit "})").

Definition put_ShardedShape (shape : ShardedShape) : outcome string :=
  lit "ShardedShape(type=" << int (type_code (ss_type shape)) << lit ","
  << put_Sharding (ss_sharding shape) << lit ")".

Definition ShortString (shape : ShardedShape) : outcome string :=
  lit "TYPE=" << lit (SupportedTypeToString (ss_type shape)) << lit " [ "
  << put_each (fun dim => int (sd_size dim)) " " (dims (ss_sharding shape))
       (lit "] % [ "
        << put_each (fun dim => int (sd_sharding dim)) " " (dims (ss_sharding shape)) (lit "]")).

Definition AllocationFailureMessage (shape : ShardedShape) : outcome string :=
  lit "Failed to allocate sharded shape " << put_ShardedShape shape.

Definition put_Processor (p : Processor) : outcome string :=
  lit "Processor(type=" << int (proc_code (type_ p)) << lit ",global_id=" << int (global_id_ p) << lit ")".

Definition put_TileShape (shape : TileShape) : outcome string :=
  lit "TileShape(type=" << int (type_code (ts_type shape)) << lit ",dims={"
  << put_each int "," (ts_dims shape) (lit "})").

Definition put_UniqueId (id : UniqueId) : outcome string :=
  lit "UniqueId(" << put_DeviceList (uid_devices id) << lit "," << int (uid_id id) << lit ")".

Definition put_ReshardKey (key : ReshardKey) : outcome string :=
  lit "ReshardKey(" << put_UniqueId (src_id key) << lit "," << put_UniqueId (dst_id key) << lit ","
  << int (src_shard_id key) << lit "," << int (dst_shard_id key) << lit ")".

Definition put_SourceConfig (config : SourceConfig) : outcome string :=
  lit "SourceConfig{ .dst_root_shards = " << put_vector int (dst_root_shards config) << lit " }".

Definition put_TargetConfig (config : TargetConfig) : outcome string :=
  lit "TargetConfig{ .src_shard = " << put_optional int (tc_src_shard config)
  << lit ", .dst_root_shard = " << put_optional int (tc_dst_root_shard config)
  << lit ", .dst_leaf_shards = " << put_vector int (tc_dst_leaf_shards config) << lit " }".

Definition put_BroadcastConfig (config : BroadcastConfig) : outcome string :=
  lit "BroadcastConfig{ .source = " << put_optional put_SourceConfig (bc_source config)
  << lit ", .target = " << put_optional put_TargetConfig (bc_target config) << lit " }".

(** [os << rect] for a [Realm::Rect], which is Realm's; two laws are relied on: a
    rectangle begins with the bracket of its first point and can be read back. *)
Class RealmOutput : Type := print_rect : RealmShape -> string.

Section Rectangles.
Context `{RealmOutput}.

Definition put_RealmShape (shape : RealmShape) : outcome string := lit (print_rect shape).

Definition put_SliceConfig (config : SliceConfig) : outcome string :=
  lit "SliceConfig { .src_shard = " << int (slice_src_shard config)
  << lit ", .dst_shard = " << int (slice_dst_shard config)
  << lit ", .bounds = " << put_RealmShape (slice_bounds config) << lit " }".

Definition put_ScatterGatherConfig (config : ScatterGatherConfig) : outcome string :=
  lit "ScatterGatherConfig { .from_source = " << put_vector put_SliceConfig (from_source config)
  << lit ", .to_target = " << put_vector put_SliceConfig (to_target config) << lit " }".

Definition put_GatherShardsConfig (config : GatherShardsConfig) : outcome string :=
  lit "GatherShardsConfig{ .src_shard = " << put_optional int (gs_src_shard config)
  << lit ", .dst_shard = " << put_optional int (gs_dst_shard config)
  << lit ", .source_to_target_bounds = " << put_optional put_RealmShape (source_to_target_bounds config)
  << lit ", .target_from_source_bounds = " << put_vector put_RealmShape (target_from_source_bounds config)
  << lit " }".
End Rectangles.

(** ** Texts *)
Definition is_digit (c : ascii) : bool :=
  match c with
  | "0" | "1" | "2" | "3" | "4" | "5" | "6" | "7" | "8" | "9" => true
  | _ => false
  end%char.

Definition no_digit (r : string) : Prop :=
  match r with EmptyString => True | String c _ => is_digit c = false end.

(** The first character of what is written satisfies [P]. *)
Definition starts (P : ascii -> bool) (s : string) : Prop :=
  match s with EmptyString => False | String c _ => P c = true end.

(** stdpp keeps [cbn] from reducing concatenations. *)
Lemma string_app_cons c (a b : string) : String c a +:+ b = String c (a +:+ b).
Proof. done. Qed.

Lemma string_app_empty (b : string) : "" +:+ b = b.
Proof. done. Qed.

Lemma string_app_assoc (a b c : string) : (a +:+ b) +:+ c = a +:+ (b +:+ c).
Proof. induction a as [|x a IH]; [done|]. by rewrite !string_app_cons, IH. Qed.

Lemma string_app_nil (a : string) : a +:+ "" = a.
Proof. induction a as [|x a IH]; [done|]. by rewrite string_app_cons, IH. Qed.

Lemma string_app_cancel (a b c : string) : a +:+ b = a +:+ c -> b = c.
Proof. induction a as [|x a IH]; [done|]. intros [= E]. auto. Qed.

(** *** Integers *)
Definition digits (s : string) : Prop := Forall (fun c => is_digit c = true) (String.list_ascii_of_string s).

Lemma digits_split s s' r r' :
  digits s -> digits s' -> no_digit r -> no_digit r' -> s +:+ r = s' +:+ r' -> s = s' /\ r = r'.
Proof.
  unfold digits. revert s'. induction s as [|c s IH]; intros [|c' s'] Hs Hs' Hr Hr' E;
    rewrite ?string_app_cons, ?string_app_empty in E; cbn in *.
  - done.
  - subst r. inversion Hs'; subst. cbn in Hr. congruence.
  - subst r'. inversion Hs; subst. cbn in Hr'. congruence.
  - injection E as -> E. inversion Hs; inversion Hs'; subst.
    destruct (IH s' ltac:(done) ltac:(done) Hr Hr' E) as [-> ->]. done.
Qed.

Lemma pretty_N_go_digits x s : digits s -> digits (pretty_N_go x s).
Proof.
  revert s. induction (N.lt_wf_0 x) as [x _ IH]; intros s Hs.
  destruct (decide (0 < x)%N) as [Hx|Hx].
  - rewrite pretty_N_go_step by done. apply IH; [by apply N.div_lt|].
    constructor; [|done]. unfold pretty_N_char. by repeat case_match.
  - by replace x with 0%N by lia.
Qed.

Lemma pretty_N_digits (x : N) : digits (pretty x).
Proof.
  unfold pretty, pretty_N. case_decide; [by repeat constructor|]. apply pretty_N_go_digits. constructor.
Qed.

Lemma pretty_N_go_nonempty x s : s <> "" -> pretty_N_go x s <> "".
Proof.
  revert s. induction (N.lt_wf_0 x) as [x _ IH]; intros s Hs.
  destruct (decide (0 < x)%N) as [Hx|Hx].
  - rewrite pretty_N_go_step by done. by apply IH; [apply N.div_lt|].
  - by replace x with 0%N by lia.
Qed.

Lemma pretty_N_starts (x : N) : starts is_digit (pretty x).
Proof.
  pose proof (pretty_N_digits x) as Hd.
  assert (pretty x <> "") as Hn.
  { unfold pretty, pretty_N. case_decide; [done|]. rewrite pretty_N_go_step by lia.
    by apply pretty_N_go_nonempty. }
  destruct (pretty x) as [|c s]; [done|]. by inversion Hd.
Qed.

Definition is_integer (c : ascii) : bool := is_digit c || bool_decide (c = "-"%char).

Lemma starts_app P a b : starts P a -> starts P (a +:+ b).
Proof. by destruct a. Qed.

Lemma starts_weaken (P Q : ascii -> bool) s : (forall c, P c = true -> Q c = true) -> starts P s -> starts Q s.
Proof. destruct s; cbn; auto. Qed.

Lemma pretty_Z_starts (x : Z) : starts is_integer (pretty x).
Proof.
  unfold pretty, pretty_Z. destruct x as [|x|x]; [done| |done].
  eapply starts_weaken; [|apply (pretty_N_starts (Npos x))]. unfold is_integer. by intros c ->.
Qed.

(** What starts differently differs. *)
Lemma starts_differ (P Q : ascii -> bool) a b :
  starts P a -> starts Q b -> (forall c, P c = true -> Q c = true -> False) -> a <> b.
Proof. destruct a as [|c a], b as [|c' b]; cbn; try done. intros Ha Hb Hpq [= -> ->]. eauto. Qed.

Lemma digits_pretty_read (x y : N) r r' :
  no_digit r -> no_digit r' -> pretty x +:+ r = pretty y +:+ r' -> x = y /\ r = r'.
Proof.
  intros Hr Hr' E. destruct (digits_split (pretty x) (pretty y) r r') as [E' ->]; try done;
    try apply pretty_N_digits. split; [|done]. by apply (inj pretty).
Qed.

Lemma dash_digits (x : N) r r' : ("-" +:+ r)%string <> pretty x +:+ r'.
Proof.
  apply (starts_differ (fun c => bool_decide (c = "-"%char)) is_digit); [done| |].
  - apply starts_app, pretty_N_starts.
  - intros c ->%bool_decide_eq_true. done.
Qed.

Lemma pretty_Z_reads (x y : Z) r r' :
  no_digit r -> no_digit r' -> pretty x +:+ r = pretty y +:+ r' -> x = y /\ r = r'.
Proof.
  intros Hr Hr'.
  assert (forall z t, pretty z +:+ t = match z with Zneg p => "-" +:+ (pretty (Npos p) +:+ t)
                                       | _ => pretty (Z.to_N z) +:+ t end) as Hz.
  { intros [|p|p] t; done. }
  rewrite !Hz.
  destruct x as [|x|x], y as [|y|y]; intros E;
    try (exfalso; revert E; first [apply dash_digits | apply not_eq_sym, dash_digits]).
  5: apply string_app_cancel in E.
  all: apply digits_pretty_read in E as [E ->]; try done; split; try done; lia.
Qed.

(** ** What is written tells what was inserted

    [tells a b P]: when a text that starts with [a], and goes on with anything but a
    digit, is also a text that starts with [b] and goes on so, then [P] holds and
    they go on with the same. *)
Definition tells (a b : outcome string) (P : Prop) : Prop :=
  forall s t r r', a = Ret s -> b = Ret t -> no_digit r -> no_digit r' -> s +:+ r = t +:+ r' -> P /\ r = r'.

(** A printer whose texts can be read back up to [R]. *)
Definition reads {A} (R : A -> A -> Prop) (p : A -> outcome string) : Prop :=
  forall x y, tells (p x) (p y) (R x y).

Definition opens (P : ascii -> bool) (a : outcome string) : Prop := forall s, a = Ret s -> starts P s.

(** No text of an element of a list begins as the end of the list or as
    [nullopt]. *)
Definition is_element (c : ascii) : bool := match c with "}" | "]" | "n" => false | _ => true end%char.

Lemma put_inv a b s : a << b = Ret s -> exists u v, a = Ret u /\ b = Ret v /\ s = u +:+ v.
Proof. unfold put. intros (u & -> & (v & -> & [= <-])%bind_ret_inv)%bind_ret_inv. eauto. Qed.

Lemma put_assoc a b c : (a << b) << c = a << (b << c).
Proof. unfold put. destruct a as [u| | |]; [|done..]. destruct b as [v| | |]; [|done..]. destruct c; [|done..].
  cbn. by rewrite string_app_assoc. Qed.

Lemma opens_lit P c s : P c = true -> opens P (lit (String c s)).
Proof. by intros Hc ? [= <-]. Qed.

Lemma opens_put P a b : opens P a -> opens P (a << b).
Proof. intros Ha s (u & v & Eu & _ & ->)%put_inv. by apply starts_app, Ha. Qed.

Lemma opens_weaken (P Q : ascii -> bool) a : (forall c, P c = true -> Q c = true) -> opens P a -> opens Q a.
Proof. intros HPQ Ha s E. eapply starts_weaken; [done|]. by apply Ha. Qed.

Lemma opens_int z : opens is_element (int z).
Proof.
  intros s [= <-]. eapply starts_weaken; [|apply pretty_Z_starts].
  intros c [Hc| ->%bool_decide_eq_true]%orb_true_iff; [|done].
  destruct c as [[] [] [] [] [] [] [] []]; cbn in *; done.
Qed.

Lemma opens_no_digit a s r : opens (fun c => negb (is_digit c)) a -> a = Ret s -> no_digit (s +:+ r).
Proof. intros Ha E. specialize (Ha s E). destruct s as [|c s]; [done|]. cbn in *. by apply negb_true_iff. Qed.

Lemma tells_imp a b P Q : (P -> Q) -> tells a b P -> tells a b Q.
Proof. intros HPQ H s t r r' Es Et Hr Hr' E. destruct (H s t r r') as [? ?]; auto. Qed.

Lemma tells_lit s : tells (lit s) (lit s) True.
Proof. intros u v r r' [= <-] [= <-] _ _ E. split; [done|]. by eapply string_app_cancel. Qed.

Lemma tells_int x y : tells (int x) (int y) (x = y).
Proof. intros u v r r' [= <-] [= <-]. apply pretty_Z_reads. Qed.

(** What begins differently is told apart. *)
Lemma tells_differ (P Q : ascii -> bool) a b (R : Prop) :
  opens P a -> opens Q b -> (forall c, P c = true -> Q c = true -> False) -> tells a b R.
Proof.
  intros Ha Hb Hpq s t r r' Es Et _ _ E. exfalso. revert E.
  by eapply (starts_differ P Q); [apply starts_app, Ha|apply starts_app, Hb|].
Qed.

(** An insertion followed by [b], where the text of [b] does not begin with a digit. *)
Lemma tells_put a a' b b' P Q :
  tells a a' P -> opens (fun c => negb (is_digit c)) b -> opens (fun c => negb (is_digit c)) b' ->
  tells b b' Q -> tells (a << b) (a' << b') (P /\ Q).
Proof.
  intros Ha Ob Ob' Hb s t r r' (u & v & Eu & Ev & ->)%put_inv (u' & v' & Eu' & Ev' & ->)%put_inv Hr Hr'.
  rewrite !string_app_assoc. intros E.
  destruct (Ha u u' (v +:+ r) (v' +:+ r') Eu Eu') as [HP E2]; [by apply (opens_no_digit b)|by apply (opens_no_digit b')|done|].
  destruct (Hb v v' r r' Ev Ev' Hr Hr' E2) as [HQ ->]. done.
Qed.

(** The same text followed by [b]. *)
Lemma tells_same s b b' Q : tells b b' Q -> tells (lit s << b) (lit s << b') Q.
Proof.
  intros Hb u v r r' (x & y & [= <-] & Ey & ->)%put_inv (x' & y' & [= <-] & Ey' & ->)%put_inv Hr Hr'.
  rewrite !string_app_assoc. intros E%string_app_cancel. by apply (Hb y y').
Qed.

(** Texts with a common beginning, as it is usual: [<< x << ",..."]. *)
Lemma tells_field a a' c s b b' P Q :
  tells a a' P -> is_digit c = false -> tells b b' Q ->
  tells (a << lit (String c s) << b) (a' << lit (String c s) << b') (P /\ Q).
Proof.
  intros Ha Hc Hb. apply tells_put; [done| | |by apply tells_same];
    apply opens_put, opens_lit; by rewrite Hc.
Qed.

Lemma tells_last a a' c s P :
  tells a a' P -> is_digit c = false -> tells (a << lit (String c s)) (a' << lit (String c s)) P.
Proof.
  intros Ha Hc. eapply tells_imp; [|apply tells_put; [exact Ha| | |apply tells_lit]]; [tauto|..];
    apply opens_lit; by rewrite Hc.
Qed.

(** A loop over elements whose texts do not begin as what follows it. *)
Lemma tells_each {A} (R : A -> A -> Prop) (p : A -> outcome string) c sep d l l' rest rest' Q :
  reads R p -> (forall x, opens is_element (p x)) -> is_digit c = false -> is_element d = false ->
  opens (Ascii.eqb d) rest -> opens (Ascii.eqb d) rest' -> tells rest rest' Q ->
  tells (put_each p (String c sep) l rest) (put_each p (String c sep) l' rest') (Forall2 R l l' /\ Q).
Proof.
  intros Hp Ho Hc Hd Or Or' Hr. unfold put_each. revert l'. induction l as [|x l IH]; intros [|x' l']; cbn [foldr].
  - eapply tells_imp; [|exact Hr]. intros HQ. split; [constructor|done].
  - eapply tells_differ; [exact Or|apply opens_put, Ho|]. intros k <-%Ascii.eqb_eq Hk. congruence.
  - eapply tells_differ; [apply opens_put, Ho|exact Or'|]. intros k Hk <-%Ascii.eqb_eq. congruence.
  - eapply tells_imp; [|apply tells_field; [apply (Hp x x')|done|apply (IH l')]].
    intros (Hx & Hl & HQ). split; [by constructor|done].
Qed.

Lemma reads_vector {A} (R : A -> A -> Prop) (p : A -> outcome string) :
  reads R p -> (forall x, opens is_element (p x)) -> reads (Forall2 R) (put_vector p).
Proof.
  intros Hp Ho l l'. apply tells_same.
  eapply tells_imp; [|apply (tells_each R p _ _ "}"%char); try done; try by apply opens_lit].
  - intros [Hl _]. exact Hl.
  - apply tells_lit.
Qed.

Lemma reads_optional {A} (R : A -> A -> Prop) (p : A -> outcome string) :
  reads R p -> (forall x, opens is_element (p x)) -> reads (option_Forall2 R) (put_optional p).
Proof.
  intros Hp Ho [x|] [y|]; cbn [put_optional].
  - eapply tells_imp; [|apply Hp]. by constructor.
  - eapply tells_differ; [apply Ho|apply (opens_lit (Ascii.eqb "n")); done|]. by intros k Hk <-%Ascii.eqb_eq.
  - eapply tells_differ; [apply (opens_lit (Ascii.eqb "n")); done|apply Ho|]. by intros k <-%Ascii.eqb_eq.
  - eapply tells_imp; [|apply tells_lit]. by constructor.
Qed.

Lemma reads_eq_inj {A} (R : A -> A -> Prop) (p : A -> outcome string) x y s :
  reads R p -> p x = Ret s -> p y = Ret s -> R x y.
Proof. intros Hp Ex Ey. by apply (Hp x y s s "" ""). Qed.

(** The automation: a chain of insertions is taken apart at its constant texts. *)
Create HintDb reads.
#[export] Hint Resolve tells_lit tells_int : reads.

Ltac tells_loop d :=
  eapply (tells_each eq _ _ _ d); [eauto with reads|eauto with reads|reflexivity|reflexivity
    |first [apply opens_put, opens_lit|apply opens_lit]; reflexivity
    |first [apply opens_put, opens_lit|apply opens_lit]; reflexivity|].

Ltac tells_chain :=
  lazymatch goal with
  | |- tells (lit _) (lit _) _ => apply tells_lit
  | |- tells (lit ?s << _) (lit ?s << _) _ => apply tells_same; tells_chain
  | |- tells (_ << lit _ << _) (_ << lit _ << _) _ =>
      eapply tells_field; [eauto with reads|reflexivity|tells_chain]
  | |- tells (_ << lit _) (_ << lit _) _ => eapply tells_last; [eauto with reads|reflexivity]
  | |- tells (put_each _ _ _ (lit (String ?d _))) _ _ => tells_loop d; apply tells_lit
  | |- tells (put_each _ _ _ (lit (String ?d _) << _)) _ _ => tells_loop d; tells_chain
  end.

(** [reads R p] for a chain: the fields that are told determine the value. *)
Tactic Notation "reads_chain" reference(p) := intros ? ?; unfold p; eapply tells_imp; [|tells_chain].

Lemma reads_int : reads eq int.
Proof. intros x y. apply tells_int. Qed.

Lemma opens_struct c s a : is_element c = true -> opens is_element (lit (String c s) << a).
Proof. intros Hc. by apply opens_put, opens_lit. Qed.

#[export] Hint Resolve reads_int opens_int : reads.
#[export] Hint Extern 1 (opens is_element _) => apply opens_struct; reflexivity : reads.

Lemma type_code_inj : Inj (=) (=) type_code.
Proof. intros x y. by destruct x, y. Qed.

Lemma proc_code_inj : Inj (=) (=) proc_code.
Proof. intros x y. by destruct x, y. Qed.

(** An inserted expression that can be undefined. *)
Lemma tells_bind_int (m m' : outcome Z) P :
  (forall x y, m = Ret x -> m' = Ret y -> x = y -> P) ->
  tells (x ← m; int x) (x ← m'; int x) P.
Proof.
  intros HP s t r r' (x & Ex & [= <-])%bind_ret_inv (y & Ey & [= <-])%bind_ret_inv Hr Hr' E.
  apply pretty_Z_reads in E as [-> ->]; [|done..]. eauto.
Qed.

Lemma add64_inv x y z : add64 x y = Ret z -> z = (x + y)%Z.
Proof. unfold add64, chk64. case_match; [by intros [= <-]|done]. Qed.

Lemma tells_stop x y :
  tells (stop ← DeviceListOps.stop x; int stop) (stop ← DeviceListOps.stop y; int stop)
    (start_ x + num_devices_ x = start_ y + num_devices_ y)%Z.
Proof. apply tells_bind_int. intros ? ? ->%add64_inv ->%add64_inv. done. Qed.
#[export] Hint Resolve tells_stop : reads.

Lemma reads_DeviceList : reads eq put_DeviceList.
Proof.
  reads_chain put_DeviceList. unfold DeviceListOps.start. destruct x, y; cbn. intros (-> & ?). f_equal. lia.
Qed.
#[export] Hint Extern 1 (tells (put_DeviceList _) (put_DeviceList _) _) => apply reads_DeviceList : reads.

Lemma reads_ShardingDim : reads eq put_ShardingDim.
Proof. reads_chain put_ShardingDim. destruct x, y; cbn. by intros (-> & -> & ->). Qed.
#[export] Hint Resolve reads_ShardingDim : reads.

Lemma Forall2_eq_list {A} (l k : list A) : Forall2 eq l k -> l = k.
Proof. by induction 1; subst. Qed.

Lemma reads_Sharding : reads eq put_Sharding.
Proof. reads_chain put_Sharding. destruct x, y; cbn. intros (-> & ->%Forall2_eq_list & _). done. Qed.
#[export] Hint Extern 1 (tells (put_Sharding _) (put_Sharding _) _) => apply reads_Sharding : reads.

Lemma reads_ShardedShape : reads eq put_ShardedShape.
Proof. reads_chain put_ShardedShape. destruct x, y; cbn. intros (->%type_code_inj & ->). done. Qed.

Lemma reads_AllocationFailureMessage : reads eq AllocationFailureMessage.
Proof. intros x y. apply tells_same, reads_ShardedShape. Qed.

Lemma reads_Processor :
  reads (fun p q => type_ p = type_ q /\ global_id_ p = global_id_ q) put_Processor.
Proof. reads_chain put_Processor. by intros (->%proc_code_inj & ->). Qed.

Lemma reads_TileShape :
  reads (fun s t => ts_type s = ts_type t /\ ts_dims s = ts_dims t) put_TileShape.
Proof. reads_chain put_TileShape. by intros (->%type_code_inj & ->%Forall2_eq_list & _). Qed.

Lemma reads_UniqueId : reads eq put_UniqueId.
Proof. reads_chain put_UniqueId. destruct x, y; cbn. by intros (-> & ->). Qed.
#[export] Hint Extern 1 (tells (put_UniqueId _) (put_UniqueId _) _) => apply reads_UniqueId : reads.

Lemma reads_ReshardKey : reads eq put_ReshardKey.
Proof. reads_chain put_ReshardKey. destruct x, y; cbn. by intros (-> & -> & -> & ->). Qed.

Lemma option_Forall2_eq {A} (a b : option A) : option_Forall2 eq a b -> a = b.
Proof. by intros []; subst. Qed.

Lemma reads_eq_vector {A} (p : A -> outcome string) :
  reads eq p -> (forall x, opens is_element (p x)) -> reads eq (put_vector p).
Proof. intros Hp Ho l k. eapply tells_imp; [apply Forall2_eq_list|by apply reads_vector]. Qed.

Lemma reads_eq_optional {A} (p : A -> outcome string) :
  reads eq p -> (forall x, opens is_element (p x)) -> reads eq (put_optional p).
Proof. intros Hp Ho l k. eapply tells_imp; [apply option_Forall2_eq|by apply reads_optional]. Qed.
#[export] Hint Extern 2 (tells (put_vector _ _) (put_vector _ _) _) => apply reads_eq_vector : reads.
#[export] Hint Extern 2 (tells (put_optional _ _) (put_optional _ _) _) => apply reads_eq_optional : reads.

Lemma reads_SourceConfig : reads eq put_SourceConfig.
Proof. reads_chain put_SourceConfig. destruct x, y; cbn. by intros ->. Qed.

Lemma reads_TargetConfig : reads eq put_TargetConfig.
Proof. reads_chain put_TargetConfig. destruct x, y; cbn. by intros (-> & -> & ->). Qed.
#[export] Hint Resolve reads_SourceConfig reads_TargetConfig : reads.

Lemma reads_BroadcastConfig : reads eq put_BroadcastConfig.
Proof. reads_chain put_BroadcastConfig. destruct x, y; cbn. by intros (-> & ->). Qed.

(** *** The short form: the type, the sizes and the numbers of shards *)
Definition same_layout (s t : ShardedShape) : Prop :=
  ss_type s = ss_type t /\
  Forall2 (fun d e => sd_size d = sd_size e /\ sd_sharding d = sd_sharding e)
    (dims (ss_sharding s)) (dims (ss_sharding t)).

(** No name of a type is the beginning of another. *)
Lemma tells_type (x y : SupportedType) c s b b' Q :
  c = " "%char -> tells b b' Q ->
  tells (lit (SupportedTypeToString x) << lit (String c s) << b)
        (lit (SupportedTypeToString y) << lit (String c s) << b') (x = y /\ Q).
Proof.
  intros -> Hb. apply tells_field; [|done|done].
  intros u v r r' [= <-] [= <-] _ _ E.
  destruct x, y; cbn [SupportedTypeToString] in E;
    first [by split; [done|injection E as E] | exfalso; discriminate E].
Qed.

(** The numbers of the dimensions, in brackets. *)
Lemma tells_numbers {A} (f : A -> Z) l l' s rest rest' Q :
  rest = lit (String "]" s) \/ (exists b, rest = lit (String "]" s) << b) ->
  rest' = lit (String "]" s) \/ (exists b, rest' = lit (String "]" s) << b) ->
  tells rest rest' Q ->
  tells (put_each (fun x => int (f x)) " " l rest) (put_each (fun x => int (f x)) " " l' rest')
    (Forall2 (fun x y => f x = f y) l l' /\ Q).
Proof.
  intros Hr Hr' Hq. apply (tells_each (fun x y => f x = f y) _ _ _ "]"%char); [| |reflexivity|reflexivity| | |exact Hq].
  - intros x y. apply tells_int.
  - intros x. apply opens_int.
  - destruct Hr as [-> |[b ->]]; [by apply opens_lit|by apply opens_put, opens_lit].
  - destruct Hr' as [-> |[b ->]]; [by apply opens_lit|by apply opens_put, opens_lit].
Qed.

Lemma reads_ShortString : reads same_layout ShortString.
Proof.
  intros x y. apply tells_same. unfold same_layout.
  eapply tells_imp; [|apply tells_type; [reflexivity|]].
  2:{ eapply tells_numbers; [right; by eexists|right; by eexists|].
      apply tells_same. eapply tells_numbers; [by left|by left|apply tells_lit]. }
  intros (-> & Hs & Hn & _). split; [done|]. apply Forall2_lookup. intros i.
  rewrite Forall2_lookup in Hs, Hn. specialize (Hs i). specialize (Hn i).
  destruct (_ !! i), (_ !! i); inversion Hs; inversion Hn; by constructor.
Qed.

(** *** Rectangles *)
Class RectangleText `{RealmOutput} : Prop := {
  rect_opens s : starts (Ascii.eqb "<") (print_rect s);
  rect_reads s t r r' :
    no_digit r -> no_digit r' -> print_rect s +:+ r = print_rect t +:+ r' -> s = t /\ r = r';
}.

Section RectangleTexts.
Context `{RectangleText}.

Lemma reads_RealmShape : reads eq put_RealmShape.
Proof. intros x y s t r r' [= <-] [= <-]. apply rect_reads. Qed.

Lemma opens_RealmShape s : opens is_element (put_RealmShape s).
Proof. intros t [= <-]. eapply starts_weaken; [|apply rect_opens]. by intros c <-%Ascii.eqb_eq. Qed.
Local Hint Resolve reads_RealmShape opens_RealmShape : reads.
Local Hint Extern 1 (tells (put_RealmShape _) (put_RealmShape _) _) => apply reads_RealmShape : reads.

Lemma reads_SliceConfig : reads eq put_SliceConfig.
Proof. reads_chain put_SliceConfig. destruct x, y; cbn. by intros (-> & -> & ->). Qed.
Local Hint Resolve reads_SliceConfig : reads.

Lemma reads_ScatterGatherConfig : reads eq put_ScatterGatherConfig.
Proof. reads_chain put_ScatterGatherConfig. destruct x, y; cbn. by intros (-> & ->). Qed.

Lemma reads_GatherShardsConfig : reads eq put_GatherShardsConfig.
Proof. reads_chain put_GatherShardsConfig. destruct x, y; cbn. by intros (-> & -> & -> & ->). Qed.

(** Values have the same text exactly when they are related by [R]. *)
Definition tells_exactly {A} (R : A -> A -> Prop) (p : A -> outcome string) : Prop :=
  reads R p /\ forall x y, R x y -> p x = p y.

Lemma put_each_ext {A} (f : A -> Z) sep l l' rest rest' :
  Forall2 (fun x y => f x = f y) l l' -> rest = rest' ->
  put_each (fun x => int (f x)) sep l rest = put_each (fun x => int (f x)) sep l' rest'.
Proof.
  intros Hl ->. unfold put_each. induction Hl as [|x y l l' E _ IH]; [done|]. cbn [foldr]. by rewrite E, IH.
Qed.

Lemma ShortString_ext s t : same_layout s t -> ShortString s = ShortString t.
Proof.
  intros [Et Hd]. unfold ShortString. rewrite Et. do 3 f_equal.
  apply put_each_ext; [|f_equal; apply put_each_ext; [|done]];
    (eapply Forall2_impl; [exact Hd|]); by intros ? ? [].
Qed.

Lemma proc_eqb_iff p q : proc_eqb p q = true <-> type_ p = type_ q /\ global_id_ p = global_id_ q.
Proof. unfold proc_eqb. by rewrite andb_true_iff, bool_decide_eq_true, Z.eqb_eq. Qed.

Lemma tile_shape_eqb_iff s t : tile_shape_eqb s t = true <-> ts_type s = ts_type t /\ ts_dims s = ts_dims t.
Proof. unfold tile_shape_eqb. by rewrite andb_true_iff, !bool_decide_eq_true. Qed.

Lemma tells_exactly_eq {A} (p : A -> outcome string) : reads eq p -> tells_exactly eq p.
Proof. intros Hp. split; [done|]. by intros x y ->. Qed.

(** C37: what the operators [<<] write tells the value: two shapes, keys, or
    configurations of a reshard have the same text exactly when they are equal, two
    processors or shapes of tiles exactly when the code's [==] holds, also inside a
    longer text; the short form of a shape tells its type, sizes and numbers of
    shards. *)
Theorem output_tells_values :
  tells_exactly eq put_ShardedShape /\ tells_exactly eq AllocationFailureMessage /\
  tells_exactly eq put_ReshardKey /\ tells_exactly eq put_BroadcastConfig /\
  tells_exactly eq put_ScatterGatherConfig /\ tells_exactly eq put_GatherShardsConfig /\
  tells_exactly (fun p q => proc_eqb p q = true) put_Processor /\
  tells_exactly (fun s t => tile_shape_eqb s t = true) put_TileShape /\
  tells_exactly same_layout ShortString.
Proof.
  repeat match goal with |- _ /\ _ => split end; try apply tells_exactly_eq;
    eauto using reads_ShardedShape, reads_AllocationFailureMessage, reads_ReshardKey,
      reads_BroadcastConfig, reads_ScatterGatherConfig, reads_GatherShardsConfig.
  - split.
    + intros p q. eapply tells_imp; [|apply reads_Processor]. apply proc_eqb_iff.
    + intros p q [Et Eg]%proc_eqb_iff. unfold put_Processor. by rewrite Et, Eg.
  - split.
    + intros s t. eapply tells_imp; [|apply reads_TileShape]. apply tile_shape_eqb_iff.
    + intros s t [Et Ed]%tile_shape_eqb_iff. unfold put_TileShape. by rewrite Et, Ed.
  - split; [apply reads_ShortString|apply ShortString_ext].
Qed.
End RectangleTexts.

(** ** Realm's texts of rectangles

    [<x,y>..<x,y>]: the corners as points. *)
Definition realm_point (p : list Z) : string :=
  "<" +:+ match p with
          | [] => ">"
          | x :: p => pretty x +:+ foldr (fun y t => "," +:+ pretty y +:+ t) ">" p
          end.

Definition realm_rect (s : RealmShape) : string := realm_point (lo s) +:+ ".." +:+ realm_point (hi s).

Fixpoint put_rest (p : list Z) : outcome string :=
  match p with [] => lit ">" | y :: p => lit "," << int y << put_rest p end.

Lemma put_rest_text p : put_rest p = lit (foldr (fun y t => "," +:+ pretty y +:+ t) ">" p).
Proof. induction p as [|y p IH]; [done|]. cbn [put_rest foldr]. by rewrite IH. Qed.

Lemma put_rest_opens p : opens (fun c => negb (is_digit c)) (put_rest p).
Proof. destruct p; [by apply opens_lit|by apply opens_put, opens_lit]. Qed.

Lemma tells_rest p q : tells (put_rest p) (put_rest q) (p = q).
Proof.
  revert q. induction p as [|x p IH]; intros [|y q]; cbn [put_rest].
  - eapply tells_imp; [|apply tells_lit]. done.
  - eapply tells_differ; [apply (opens_lit (Ascii.eqb ">")); reflexivity
      |apply opens_put, (opens_lit (Ascii.eqb ",")); reflexivity|]. by intros c <-%Ascii.eqb_eq.
  - eapply tells_differ; [apply opens_put, (opens_lit (Ascii.eqb ",")); reflexivity
      |apply (opens_lit (Ascii.eqb ">")); reflexivity|]. by intros c <-%Ascii.eqb_eq.
  - apply tells_same. eapply tells_imp; [|apply tells_put; [apply tells_int|apply put_rest_opens..|apply IH]].
    by intros [-> ->].
Qed.

Lemma tells_point p q : tells (lit (realm_point p)) (lit (realm_point q)) (p = q).
Proof.
  assert (forall p, lit (realm_point p) = lit "<" << match p with [] => lit ">" | x :: p => int x << put_rest p end)
    as Hp. { intros [|x k]; [done|]. by rewrite put_rest_text. }
  rewrite !Hp. apply tells_same. destruct p as [|x p], q as [|y q].
  - eapply tells_imp; [|apply tells_lit]. done.
  - eapply tells_differ; [apply (opens_lit (Ascii.eqb ">")); reflexivity|apply opens_put; intros s [= <-]; apply pretty_Z_starts|].
    by intros c <-%Ascii.eqb_eq.
  - eapply tells_differ; [apply opens_put; intros s [= <-]; apply pretty_Z_starts|apply (opens_lit (Ascii.eqb ">")); reflexivity|].
    by intros c Hc <-%Ascii.eqb_eq.
  - eapply tells_imp; [|apply tells_put; [apply tells_int|apply put_rest_opens..|apply tells_rest]].
    by intros [-> ->].
Qed.

#[local] Instance realm_output : RealmOutput := realm_rect.

Lemma tells_rect s t : tells (lit (realm_rect s)) (lit (realm_rect t)) (s = t).
Proof.
  change (tells (lit (realm_point (lo s)) << lit ".." << lit (realm_point (hi s)))
                (lit (realm_point (lo t)) << lit ".." << lit (realm_point (hi t))) (s = t)).
  eapply tells_imp; [|apply tells_field; [apply tells_point|reflexivity|apply tells_point]].
  destruct s, t; cbn. by intros [-> ->].
Qed.

#[local] Instance realm_text : RectangleText.
Proof.
  split; [done|]. intros s t r r' Hr Hr' E. by apply (tells_rect s t (realm_rect s) (realm_rect t) r r').
Qed.

Definition example_slice : SliceConfig := mkSlice 0 3 (mkRect [0; 0] [3; 15]).

Lemma output_tells_values_witness :
  put_ScatterGatherConfig (mkScatterGather [example_slice] []) =
    Ret "ScatterGatherConfig { .from_source = { SliceConfig { .src_shard = 0, .dst_shard = 3, .bounds = <0,0>..<3,15> } }, .to_target = { } }" /\
  ShortString (mkShape F32 (mkSharding [mkDim 16 4 0; mkDim 8 1 0] (mkDeviceList 0 4))) =
    Ret "TYPE=F32 [ 16 8 ] % [ 4 1 ]" /\
  put_DeviceList (mkDeviceList i64_max 1) = Undef IntOverflow /\
  tells_exactly eq put_ReshardKey.
Proof.
  split; [vm_compute; reflexivity|]. split; [vm_compute; reflexivity|]. split; [vm_compute; reflexivity|].
  apply output_tells_values.
Defined.
