(* ===== verification/ReshardManager.v ===== *)
(** The reshard manager (src/zuku/reshard_manager.{h,cc}): it pairs the sends
    and receives of a reshard and issues a copy for each pair.  Every process
    has a manager; processes exchange names by tasks spawned on each other's
    processors.  [Comm] is the state of all managers, of the barriers and of the
    messages in flight; every member function runs under the manager's lock and
    so is one step. *)
From stdpp Require Import base tactics list numbers option strings sets gmap pretty.
From Stdlib Require Import ZArith Lia.
From S2P Require Import Prelude Events Mesh Shape Processor Tiles Handles Arrays.
Open Scope Z_scope.

Inductive Protocol : Type := RENDEZVOUS | EAGER.

Definition kEagerCutoffBytes : Z := 0.

Definition GetProtocol (tile : ArrayTile) : Protocol :=
  if byte_size tile <? kEagerCutoffBytes then EAGER else RENDEZVOUS.

(** The name of a reshard in profiles. *)
Definition ReshardName (src dst : ShardedArray) : outcome string :=
  let from := if HasTile src then src else dst in
  tile ← sa_tile from;
  src_device ← DeviceListOps.index (devices (sa_sharding src)) (shard_id_ from);
  dst_device ← DeviceListOps.index (devices (sa_sharding dst)) (shard_id_ from);
  name ← (if HasName dst then sa_name src else mret "");
  let join f := String.concat "," ((fun d => pretty (f d : Z)) <$> dims (sa_sharding dst)) in
  mret ("reshard " +:+ name +:+ " [" +:+ join sd_size +:+ "]%[" +:+ join sd_sharding +:+ "]: "
        +:+ pretty (byte_size tile) +:+ " bytes " +:+ pretty src_device +:+ "->"
        +:+ pretty dst_device).

(** A barrier is a number and a generation; [NO_BARRIER] is [None]. *)
Abbreviation Barrier := (nat * nat)%type.

Record PendingOp `{RealmEvents} : Type := mkPendingOp {
  precondition : Event;
  postcondition_to_trigger : option nat;
  partner_instance : Instance_;
}.

(** The shape is indeterminate until a local call sets it. *)
Record PointToPointReshard `{RealmEvents} : Type := mkReshard {
  target_ready_barrier : option Barrier;
  ack_done_barrier : option Barrier;
  p2p_shape : option RealmShape;
  field_size : Z;
  pending_source_reshards : list PendingOp;
  pending_dest_reshards : list PendingOp;
  exists_ : bool;
  p2p_name : option string;
}.

Record PointToPointNameArgs : Type := mkNameArgs {
  msg_key : ReshardKey;
  msg_barrier : option Barrier;
  msg_instance : Instance_;
}.

(** [c_managers n] is the map of the manager of process [n]; [c_barriers] counts
    the barriers created; [c_arrivals] lists the arrivals, with the generation
    and the precondition; [c_messages] are the spawned tasks that did not run
    yet, with their processor. *)
Record Comm `{RealmEvents} : Type := mkComm {
  c_managers : Z -> list (ReshardKey * PointToPointReshard);
  c_barriers : nat;
  c_arrivals : list (Barrier * Event);
  c_messages : list (RealmProc * PointToPointNameArgs);
}.

Arguments mkPendingOp {_}. Arguments mkReshard {_}. Arguments mkComm {_}.

Section Entries.
Context `{RealmEvents}.

Definition no_reshard : PointToPointReshard := mkReshard None None None 0 [] [] false None.

(** [point_to_point_reshards_[key]]. *)
Definition entry (n : Z) (key : ReshardKey) (c : Comm) : PointToPointReshard :=
  alist_get reshard_key_eqb no_reshard key (c_managers c n).

Definition put_entry (n : Z) (key : ReshardKey) (r : PointToPointReshard) (c : Comm) : Comm :=
  mkComm (fun n' => if n' =? n then alist_set reshard_key_eqb key r (c_managers c n)
                      else c_managers c n')
    (c_barriers c) (c_arrivals c) (c_messages c).

Definition with_ack (r : PointToPointReshard) b : PointToPointReshard :=
  mkReshard (target_ready_barrier r) b (p2p_shape r) (field_size r)
    (pending_source_reshards r) (pending_dest_reshards r) (exists_ r) (p2p_name r).
Definition with_target_ready (r : PointToPointReshard) b : PointToPointReshard :=
  mkReshard b (ack_done_barrier r) (p2p_shape r) (field_size r)
    (pending_source_reshards r) (pending_dest_reshards r) (exists_ r) (p2p_name r).
Definition with_sources (r : PointToPointReshard) l : PointToPointReshard :=
  mkReshard (target_ready_barrier r) (ack_done_barrier r) (p2p_shape r) (field_size r)
    l (pending_dest_reshards r) (exists_ r) (p2p_name r).
Definition with_dests (r : PointToPointReshard) l : PointToPointReshard :=
  mkReshard (target_ready_barrier r) (ack_done_barrier r) (p2p_shape r) (field_size r)
    (pending_source_reshards r) l (exists_ r) (p2p_name r).

(** The first local call fills in the description of the reshard. *)
Definition describe (r : PointToPointReshard) (fs : Z) (shape : RealmShape) (name : outcome string)
    : outcome PointToPointReshard :=
  if exists_ r then mret r
  else
    n ← name;
    mret (mkReshard (target_ready_barrier r) (ack_done_barrier r) (Some shape) fs
            (pending_source_reshards r) (pending_dest_reshards r) true (Some n)).

(** Realm's barriers with one arrival per generation, and spawned tasks. *)
Definition create_barrier (c : Comm) : Barrier * Comm :=
  ((c_barriers c, 0%nat),
   mkComm (c_managers c) (S (c_barriers c)) (c_arrivals c) (c_messages c)).
Definition advance_barrier (b : Barrier) : Barrier := (b.1, S b.2).
Definition arrive (b : Barrier) (e : Event) (c : Comm) : Comm :=
  mkComm (c_managers c) (c_barriers c) (c_arrivals c ++ [(b, e)]) (c_messages c).
Definition spawn (target : RealmProc) (args : PointToPointNameArgs) (c : Comm) : Comm :=
  mkComm (c_managers c) (c_barriers c) (c_arrivals c) (c_messages c ++ [(target, args)]).

Definition barrier_ev `{!RealmOps} (b : Barrier) : Event := barrier_event b.1 b.2.
End Entries.

Section Manager.
Context `{RealmMemory} `{!RealmOps} `{!RealmMachine} (procs : ProcState).
(** The contents of the shared optionals that views may refer to. *)
Context (cells : nat -> option nat).

Abbreviation MM := (SM (Comm * World)).

Definition comm_get {A} (f : Comm -> A) : MM A := fun s => (Ret (f s.1), s).
Definition comm_modify (f : Comm -> Comm) : MM unit := fun '(c, w) => (Ret tt, (f c, w)).
Definition comm_state {A} (f : Comm -> A * Comm) : MM A :=
  fun '(c, w) => let '(a, c) := f c in (Ret a, (c, w)).

(** Realm's user events. *)
Definition new_user_event : MM nat := sm_snd (sm_rt create_user_event).
Definition trigger_event (u : option nat) (e : Event) : MM unit :=
  match u with
  | Some u => sm_snd (sm_rt (fun rt => (tt, trigger u e rt)))
  | None => sm_lift (Undef AssertFailed)
  end.

(** [*src] for a view. *)
Definition view_deref (v : @View _ nat) : MM ShardedArray :=
  o ← sm_lift (View_get cells v); sm_snd (heap_get (Some o)).

Definition space (p : RealmProc) : Z := rm_space p.

Definition IssueCopy (shape : option RealmShape) (fs : Z) (src dst : Instance_) (pre : Event) : MM Event :=
  match shape with
  | Some shape => sm_snd (issue_copy shape fs src dst pre)
  | None => sm_lift (Undef Indeterminate)
  end.

(** The copy's event and the reshard with its ack barrier advanced. *)
Definition RemoteCopyNextPendingToTarget (reshard : PointToPointReshard) (src dst : Instance_)
    (ready_barrier src_precondition : Event) : MM (Event * PointToPointReshard) :=
  postcondition ← IssueCopy (p2p_shape reshard) (field_size reshard) src dst
                    (merge_events [ready_barrier; src_precondition]);
  match ack_done_barrier reshard with
  | Some b =>
      _ ← comm_modify (arrive b postcondition);
      mret (postcondition, with_ack reshard (Some (advance_barrier b)))
  | None => sm_lift (Undef AssertFailed)
  end.

(** The loop that serves the targets that waited for the ack barrier. *)
Fixpoint ack_pending (ack : Barrier) (l : list PendingOp) : MM Barrier :=
  match l with
  | [] => mret ack
  | op :: l =>
      _ ← trigger_event (postcondition_to_trigger op) (barrier_ev ack);
      ack_pending (advance_barrier ack) l
  end.

(** [n] is the process that runs the function. *)
Definition ReceivePointToPointNames (n : Z) (key : ReshardKey) (barrier : option Barrier)
    (instance : Instance_) : MM unit :=
  reshard ← comm_get (entry n key);
  match instance, barrier with
  | _, None => sm_lift (Undef AssertFailed)
  | Some _, Some b =>
      match pending_source_reshards reshard with
      | op :: rest =>
          '(postcondition, reshard) ← RemoteCopyNextPendingToTarget reshard (partner_instance op)
                                        instance (barrier_ev b) (precondition op);
          _ ← trigger_event (postcondition_to_trigger op) postcondition;
          comm_modify (put_entry n key (with_sources reshard rest))
      | [] =>
          comm_modify (put_entry n key (with_dests reshard
            (pending_dest_reshards reshard ++ [mkPendingOp (barrier_ev b) None instance])))
      end
  | None, Some b =>
      b ← ack_pending b (pending_dest_reshards reshard);
      comm_modify (put_entry n key (with_dests (with_ack reshard (Some b)) []))
  end.

(** The task of a message runs on its processor. *)
Definition PointToPointNameHandler (target : RealmProc) (args : PointToPointNameArgs) : MM unit :=
  ReceivePointToPointNames (space target) (msg_key args) (msg_barrier args) (msg_instance args).

(** [if (reshard.name.has_value()) { ProfileRegion(p, *reshard.name, start, stop); }] *)
Definition profile_reshard (p : Processor) (name : option string) (start stop : Event) : MM unit :=
  match name with Some name => sm_snd (profile_region p name start stop) | None => mret tt end.

(** The ack barrier is created by the first source call of a remote reshard. *)
Definition announce_ack (key : ReshardKey) (remote : bool) (target : RealmProc)
    (reshard : PointToPointReshard) : MM PointToPointReshard :=
  match ack_done_barrier reshard with
  | None =>
      if remote then
        b ← comm_state create_barrier;
        _ ← comm_modify (spawn target (mkNameArgs key (Some b) None));
        mret (with_ack reshard (Some b))
      else mret reshard
  | Some _ => mret reshard
  end.

Definition RendezvousReshardFromLocalSource (p : Processor) (shape : RealmShape) (key : ReshardKey)
    (src : @View _ nat) (dst : ShardedArray) : MM Event :=
  a ← view_deref src;
  let n := space (proc_ p) in
  reshard ← comm_get (entry n key);
  reshard ← sm_lift (describe reshard (SupportedTypeSizeOf (ss_type (sa_shape a))) shape
                       (ReshardName a dst));
  target ← sm_lift (HostForShard procs dst (dst_shard_id key));
  let remote := negb (n =? space target) in
  reshard ← announce_ack key remote target reshard;
  tile ← sm_lift (sa_tile a);
  postcondition ←
    match pending_dest_reshards reshard with
    | [] =>
        pending ← new_user_event;
        _ ← comm_modify (put_entry n key (with_sources reshard
              (pending_source_reshards reshard ++
                 [mkPendingOp (View_Precondition src) (Some pending) (instance_ tile)])));
        mret (user_event pending)
    | op :: rest =>
        '(postcondition, reshard) ←
          (if remote then
             RemoteCopyNextPendingToTarget reshard (instance_ tile) (partner_instance op)
               (precondition op) (View_Precondition src)
           else
             postcondition ← IssueCopy (p2p_shape reshard) (field_size reshard) (instance_ tile)
               (partner_instance op) (merge_events [precondition op; View_Precondition src]);
             _ ← sm_lift (assertM (bool_decide (ack_done_barrier reshard = None)));
             _ ← trigger_event (postcondition_to_trigger op) postcondition;
             mret (postcondition, reshard));
        _ ← comm_modify (put_entry n key (with_dests reshard rest));
        mret postcondition
    end;
  _ ← profile_reshard p (p2p_name reshard) (View_Precondition src) postcondition;
  mret postcondition.

Definition EagerReshardFromLocalSource : MM Event :=
  sm_lift (Throw (RuntimeError "ReshardManager::EagerReshardFromLocalSource: not implemented")).

Definition ReshardFromLocalSource (p : Processor) (shape : RealmShape) (key : ReshardKey)
    (src : @View _ nat) (dst : ShardedArray) : MM Event :=
  a ← view_deref src;
  tile ← sm_lift (sa_tile a);
  match GetProtocol tile with
  | EAGER => EagerReshardFromLocalSource
  | RENDEZVOUS => RendezvousReshardFromLocalSource p shape key src dst
  end.

(** The ready barrier of a remote target: sent by name, then arrived at. *)
Definition announce_target (key : ReshardKey) (target : RealmProc) (instance : Instance_)
    (pre : Event) (reshard : PointToPointReshard) : MM PointToPointReshard :=
  b ← (match target_ready_barrier reshard with
       | Some b => mret b
       | None => comm_state create_barrier
       end);
  _ ← comm_modify (spawn target (mkNameArgs key (Some b) instance));
  _ ← comm_modify (arrive b pre);
  mret (with_target_ready reshard (Some (advance_barrier b))).

Definition RendezvousReshardToLocalTarget (p : Processor) (shape : RealmShape) (key : ReshardKey)
    (src : ShardedArray) (dst : @Store _ nat) : MM Event :=
  a ← sm_snd (heap_get (store_value dst));
  let n := space (proc_ p) in
  reshard ← comm_get (entry n key);
  reshard ← sm_lift (describe reshard (SupportedTypeSizeOf (ss_type (sa_shape src))) shape
                       (ReshardName src a));
  tile ← sm_lift (sa_tile a);
  match pending_source_reshards reshard with
  | op :: rest =>
      postcondition ← IssueCopy (p2p_shape reshard) (field_size reshard) (partner_instance op)
        (instance_ tile) (merge_events [precondition op; Store_Precondition dst]);
      _ ← trigger_event (postcondition_to_trigger op) postcondition;
      _ ← comm_modify (put_entry n key (with_sources reshard rest));
      mret postcondition
  | [] =>
      target ← sm_lift (HostForShard procs src (src_shard_id key));
      reshard ← (if space target =? n then mret reshard
                 else announce_target key target (instance_ tile) (Store_Precondition dst) reshard);
      match ack_done_barrier reshard with
      | None =>
          pending ← new_user_event;
          _ ← comm_modify (put_entry n key (with_dests reshard
                (pending_dest_reshards reshard ++
                   [mkPendingOp (Store_Precondition dst) (Some pending) (instance_ tile)])));
          mret (user_event pending)
      | Some b =>
          _ ← comm_modify (put_entry n key (with_ack reshard (Some (advance_barrier b))));
          mret (barrier_ev b)
      end
  end.

Definition EagerReshardToLocalTarget : MM Event :=
  sm_lift (Throw (RuntimeError "ReshardManager::EagerReshardToLocalTarget: not implemented")).

Definition ReshardToLocalTarget (p : Processor) (shape : RealmShape) (key : ReshardKey)
    (src : ShardedArray) (dst : @Store _ nat) : MM Event :=
  a ← sm_snd (heap_get (store_value dst));
  tile ← sm_lift (sa_tile a);
  match GetProtocol tile with
  | EAGER => EagerReshardToLocalTarget
  | RENDEZVOUS => RendezvousReshardToLocalTarget p shape key src dst
  end.

(** [~ReshardManager]: the ack barriers that it destroys. *)
Definition ReshardManager_dtor (n : Z) (c : Comm) : list Barrier :=
  omap (fun '(_, r) => ack_done_barrier r) (c_managers c n).
End Manager.
