(* ===== verification/Rendezvous.v ===== *)
(** The rendezvous protocol of the reshard manager, between any number of
    processes.  A schedule is any sequence of sends, receives and deliveries of
    messages, where the messages of one reshard are delivered in the order in
    which they were sent.  The theorem [rendezvous]: the [i]-th send of a
    reshard is paired with its [i]-th receive, and the events returned to them
    trigger only when the copy between the two tiles is done. *)
From stdpp Require Import base tactics list numbers option strings sets gmap.
From Stdlib Require Import ZArith Lia.
From S2P Require Import Prelude Events Mesh Shape Processor Tiles Handles Arrays.
From S2P Require Import ReshardManager.
Open Scope Z_scope.

(** ** Schedules *)
Section Schedules.
Context `{RealmMemory} `{!RealmOps} `{!RealmMachine} (procs : ProcState).
Context (cells : nat -> option nat).

Abbreviation State := (Comm * World)%type.

(** The arguments of [ReshardFromLocalSource] and [ReshardToLocalTarget]. *)
Record SourceCall : Type := mkSourceCall {
  s_proc : Processor;
  s_shape : RealmShape;
  s_key : ReshardKey;
  s_src : @View _ nat;
  s_dst : ShardedArray;
}.

Record TargetCall : Type := mkTargetCall {
  t_proc : Processor;
  t_shape : RealmShape;
  t_key : ReshardKey;
  t_src : ShardedArray;
  t_dst : @Store _ nat;
}.

(** [Deliver key names] runs the task of the first message in flight of the
    reshard [key]: of a target's name, or of the ack barrier. *)
Inductive Step : Type :=
| DoSource (c : SourceCall)
| DoTarget (c : TargetCall)
| Deliver (key : ReshardKey) (names : bool).

Definition is_name (args : PointToPointNameArgs) : bool :=
  bool_decide (is_Some (msg_instance args)).

Definition selects (key : ReshardKey) (names : bool) (m : RealmProc * PointToPointNameArgs) : bool :=
  bool_decide (msg_key m.2 = key) && Bool.eqb (is_name m.2) names.

(** The first message that is selected, and the others. *)
Fixpoint take_message (key : ReshardKey) (names : bool) (l : list (RealmProc * PointToPointNameArgs))
    : option ((RealmProc * PointToPointNameArgs) * list (RealmProc * PointToPointNameArgs)) :=
  match l with
  | [] => None
  | m :: l =>
      if selects key names m then Some (m, l)
      else '(m', l) ← take_message key names l; Some (m', m :: l)
  end.

Definition with_messages (l : list (RealmProc * PointToPointNameArgs)) (c : Comm) : Comm :=
  mkComm (c_managers c) (c_barriers c) (c_arrivals c) l.

Definition do_step (st : Step) : SM State Event :=
  match st with
  | DoSource c => ReshardFromLocalSource procs cells (s_proc c) (s_shape c) (s_key c) (s_src c) (s_dst c)
  | DoTarget c => ReshardToLocalTarget procs (t_proc c) (t_shape c) (t_key c) (t_src c) (t_dst c)
  | Deliver key names =>
      fun s =>
        match take_message key names (c_messages s.1) with
        | None => (Ret NO_EVENT, s)
        | Some ((target, args), rest) =>
            (_ ← PointToPointNameHandler target args; mret NO_EVENT) (with_messages rest s.1, s.2)
        end
  end.

(** A schedule, and the event that every step returned. *)
Fixpoint run (l : list Step) : SM State (list (Step * Event)) :=
  match l with
  | [] => mret []
  | st :: l => e ← do_step st; log ← run l; mret ((st, e) :: log)
  end.

(** A call as its peer sees it: its tile's instance, what it waits for, and the
    event returned to it. *)
Record End_ : Type := mkEnd { e_inst : Instance_; e_pre : Event; e_ret : Event }.

Definition array_tile (h : list ShardedArray) (o : option nat) : option ArrayTile :=
  i ← o; a ← h !! i; array_ a.

Definition view_object (v : @View _ nat) : option nat :=
  match View_get cells v with Ret o => Some o | _ => None end.

Definition tile_instance (t : option ArrayTile) : Instance_ := t ≫= instance_.

Definition source_end (h : list ShardedArray) (c : SourceCall) (e : Event) : End_ :=
  mkEnd (tile_instance (array_tile h (view_object (s_src c)))) (View_Precondition (s_src c)) e.
Definition target_end (h : list ShardedArray) (c : TargetCall) (e : Event) : End_ :=
  mkEnd (tile_instance (array_tile h (store_value (t_dst c)))) (Store_Precondition (t_dst c)) e.

(** The sends and the receives of a reshard in a log. *)
Definition sends (h : list ShardedArray) (key : ReshardKey) (log : list (Step * Event)) : list End_ :=
  omap (fun '(st, e) =>
          match st with
          | DoSource c => if bool_decide (s_key c = key) then Some (source_end h c e) else None
          | _ => None
          end) log.
Definition receives (h : list ShardedArray) (key : ReshardKey) (log : list (Step * Event)) : list End_ :=
  omap (fun '(st, e) =>
          match st with
          | DoTarget c => if bool_decide (t_key c = key) then Some (target_end h c e) else None
          | _ => None
          end) log.

(** ** Placement

    A reshard has a source process, a target process, a shape and an element
    size, and every call for it agrees with them. *)
Record Placement : Type := mkPlacement {
  src_space : Z;
  dst_space : Z;
  pl_shape : RealmShape;
  pl_size : Z;
}.
Context (place : ReshardKey -> Placement).

Definition valid_source (h : list ShardedArray) (c : SourceCall) : Prop :=
  exists o a tile name target,
    View_get cells (s_src c) = Ret o /\ h !! o = Some a /\ array_ a = Some tile /\
    is_Some (instance_ tile) /\
    ReshardName a (s_dst c) = Ret name /\
    HostForShard procs (s_dst c) (dst_shard_id (s_key c)) = Ret target /\
    place (s_key c) = mkPlacement (rm_space (proc_ (s_proc c))) (rm_space target) (s_shape c)
                        (SupportedTypeSizeOf (ss_type (sa_shape a))).

Definition valid_target (h : list ShardedArray) (c : TargetCall) : Prop :=
  exists o a tile name target,
    store_value (t_dst c) = Some o /\ h !! o = Some a /\ array_ a = Some tile /\
    is_Some (instance_ tile) /\
    ReshardName (t_src c) a = Ret name /\
    HostForShard procs (t_src c) (src_shard_id (t_key c)) = Ret target /\
    place (t_key c) = mkPlacement (rm_space target) (rm_space (proc_ (t_proc c))) (t_shape c)
                        (SupportedTypeSizeOf (ss_type (sa_shape (t_src c)))).

Definition valid_step (h : list ShardedArray) (st : Step) : Prop :=
  match st with
  | DoSource c => valid_source h c
  | DoTarget c => valid_target h c
  | Deliver _ _ => True
  end.

(** ** Moments of an execution

    What the logs say about a moment: a user event has triggered only if it was
    triggered with an event that has; a barrier generation only if it has an
    arrival whose precondition has; a copy is done only if its precondition
    has triggered. *)
Definition possible_state (fired : Event -> Prop) (s : State) : Prop :=
  possible fired (triggered (w_rt s.2)) /\
  (forall b g, fired (barrier_event b g) -> exists e, ((b, g), e) ∈ c_arrivals s.1 /\ fired e) /\
  (forall i c, w_copies s.2 !! i = Some c -> fired (copy_event i) -> fired (cp_pre c)).

(** A moment at which nothing more happens by itself: what the logs tell Realm to
    trigger has triggered, and the copies that need not wait are done.  The
    generations of a barrier trigger in order. *)
Definition settled_state (fired : Event -> Prop) (s : State) : Prop :=
  (forall u e, (u, e) ∈ triggered (w_rt s.2) -> fired e -> fired (user_event u)) /\
  (forall b g, (forall g', (g' <= g)%nat -> exists e, ((b, g'), e) ∈ c_arrivals s.1 /\ fired e) ->
     fired (barrier_event b g)) /\
  (forall i c, w_copies s.2 !! i = Some c -> fired (cp_pre c) -> fired (copy_event i)).

(** An event that the logs connect to another: it triggers with it. *)
Inductive leads (s : State) : Event -> Event -> Prop :=
| leads_refl e : leads s e e
| leads_user u e e' : (u, e) ∈ triggered (w_rt s.2) -> leads s e e' -> leads s (user_event u) e'
| leads_barrier b g e e' :
    ((b, g), e) ∈ c_arrivals s.1 -> leads s e e' -> leads s (barrier_event b g) e'.
End Schedules.

(** ** Calls with their arguments resolved *)
Section Cores.
Context `{RealmMemory} `{!RealmOps} `{!RealmMachine} (procs : ProcState).
Context (cells : nat -> option nat) (place : ReshardKey -> Placement).

Abbreviation State := (Comm * World)%type.

Lemma byte_size_nonneg t : (byte_size t <? kEagerCutoffBytes) = false.
Proof. apply Z.ltb_ge. unfold byte_size, to_u64. apply Z.mod_pos_bound. lia. Qed.

(** The eager protocol, which is not implemented, is never chosen. *)
Lemma GetProtocol_rendezvous t : GetProtocol t = RENDEZVOUS.
Proof. unfold GetProtocol. by rewrite byte_size_nonneg. Qed.

Definition described (r : PointToPointReshard) (fs : Z) (shape : RealmShape) (name : string)
    : PointToPointReshard :=
  if exists_ r then r
  else mkReshard (target_ready_barrier r) (ack_done_barrier r) (Some shape) fs
         (pending_source_reshards r) (pending_dest_reshards r) true (Some name).

Definition source_core (key : ReshardKey) (name : string) (target : RealmProc) (inst : Instance_)
    (pre : Event) : SM State Event :=
  let n := src_space (place key) in
  let remote := negb (n =? dst_space (place key)) in
  r ← comm_get (entry n key);
  r ← announce_ack key remote target (described r (pl_size (place key)) (pl_shape (place key)) name);
  match pending_dest_reshards r with
  | [] =>
      pending ← new_user_event;
      _ ← comm_modify (put_entry n key (with_sources r
            (pending_source_reshards r ++ [mkPendingOp pre (Some pending) inst])));
      mret (user_event pending)
  | op :: rest =>
      '(postcondition, r) ←
        (if remote then
           RemoteCopyNextPendingToTarget r inst (partner_instance op) (precondition op) pre
         else
           postcondition ← IssueCopy (p2p_shape r) (field_size r) inst
             (partner_instance op) (merge_events [precondition op; pre]);
           _ ← sm_lift (assertM (bool_decide (ack_done_barrier r = None)));
           _ ← trigger_event (postcondition_to_trigger op) postcondition;
           mret (postcondition, r));
      _ ← comm_modify (put_entry n key (with_dests r rest));
      mret postcondition
  end.

Definition target_core (key : ReshardKey) (name : string) (target : RealmProc) (inst : Instance_)
    (pre : Event) : SM State Event :=
  let n := dst_space (place key) in
  r ← comm_get (entry n key);
  let r := described r (pl_size (place key)) (pl_shape (place key)) name in
  match pending_source_reshards r with
  | op :: rest =>
      postcondition ← IssueCopy (p2p_shape r) (field_size r) (partner_instance op) inst
                        (merge_events [precondition op; pre]);
      _ ← trigger_event (postcondition_to_trigger op) postcondition;
      _ ← comm_modify (put_entry n key (with_sources r rest));
      mret postcondition
  | [] =>
      r ← (if src_space (place key) =? n then mret r
           else announce_target key target inst pre r);
      match ack_done_barrier r with
      | None =>
          pending ← new_user_event;
          _ ← comm_modify (put_entry n key (with_dests r
                (pending_dest_reshards r ++ [mkPendingOp pre (Some pending) inst])));
          mret (user_event pending)
      | Some b =>
          _ ← comm_modify (put_entry n key (with_ack r (Some (advance_barrier b))));
          mret (barrier_ev b)
      end
  end.

Lemma describe_ok r fs shape name n : name = Ret n ->
  describe r fs shape name = Ret (described r fs shape n).
Proof. intros ->. unfold describe, described. by destruct (exists_ r). Qed.

Lemma view_deref_ok v o a (s : State) : View_get cells v = Ret o -> w_heap s.2 !! o = Some a ->
  view_deref cells v s = (Ret a, s).
Proof.
  intros Hv Ha. unfold view_deref. erewrite sm_bind_ret by (unfold sm_lift; by rewrite Hv).
  destruct s as [c w]. unfold sm_snd. cbn in Ha. by rewrite (heap_get_ok _ o a w eq_refl Ha).
Qed.

Lemma heap_deref_ok p o a (s : State) : p = Some o -> w_heap s.2 !! o = Some a ->
  sm_snd (heap_get p) s = (Ret a, s).
Proof.
  intros Hp Ha. destruct s as [c w]. unfold sm_snd. by rewrite (heap_get_ok _ o a w Hp Ha).
Qed.

Lemma source_call_core c (s : State) : valid_source procs cells place (w_heap s.2) c ->
  exists name target inst, 
    inst = e_inst (source_end cells (w_heap s.2) c NO_EVENT) /\ is_Some inst /\
    rm_space target = dst_space (place (s_key c)) /\
    exists profiled, do_step procs cells (DoSource c) s =
      (e ← source_core (s_key c) name target inst (View_Precondition (s_src c));
       _ ← profile_reshard (s_proc c) profiled (View_Precondition (s_src c)) e; mret e) s.
Proof.
  intros (o & a & tile & name & target & Hv & Ha & Ht & Hi & Hn & Hh & Hp).
  exists name, target, (instance_ tile). split_and!; [|done|by rewrite Hp|].
  { unfold source_end, view_object, array_tile, tile_instance. cbn. rewrite Hv. cbn.
    rewrite Ha. cbn. by rewrite Ht. }
  set (n := src_space (place (s_key c))).
  set (announced := announce_ack (s_key c) (negb (n =? dst_space (place (s_key c)))) target
    (described (entry n (s_key c) s.1) (pl_size (place (s_key c))) (pl_shape (place (s_key c))) name) s).
  exists (match announced.1 with Ret r => p2p_name r | _ => None end).
  subst announced n. cbn [do_step]. unfold ReshardFromLocalSource.
  erewrite sm_bind_ret by (by apply (view_deref_ok _ o a)).
  erewrite sm_bind_ret by (unfold sm_lift, sa_tile; by rewrite Ht).
  rewrite GetProtocol_rendezvous. unfold RendezvousReshardFromLocalSource, source_core.
  erewrite sm_bind_ret by (by apply (view_deref_ok _ o a)).
  rewrite Hp. cbn [src_space dst_space pl_size pl_shape]. unfold space.
  erewrite sm_bind_ret by done.
  erewrite sm_bind_ret by (unfold sm_lift; by rewrite (describe_ok _ _ _ _ _ Hn)).
  erewrite sm_bind_ret by (unfold sm_lift; by rewrite Hh).
  symmetry. rewrite sm_bind_unfold. erewrite sm_bind_ret by done.
  rewrite !sm_bind_unfold. destruct (announce_ack _ _ _ _ _) as [[r| | |] s']; [|done..].
  cbn [fst]. symmetry. erewrite sm_bind_ret by (unfold sm_lift, sa_tile; by rewrite Ht).
  by rewrite sm_bind_unfold.
Qed.

Lemma target_call_core c (s : State) : valid_target procs place (w_heap s.2) c ->
  exists name target inst,
    inst = e_inst (target_end (w_heap s.2) c NO_EVENT) /\ is_Some inst /\
    rm_space target = src_space (place (t_key c)) /\
    do_step procs cells (DoTarget c) s =
      target_core (t_key c) name target inst (Store_Precondition (t_dst c)) s.
Proof.
  intros (o & a & tile & name & target & Hv & Ha & Ht & Hi & Hn & Hh & Hp).
  exists name, target, (instance_ tile). split_and!; [|done|by rewrite Hp|].
  { unfold target_end, array_tile, tile_instance. cbn. rewrite Hv. cbn.
    rewrite Ha. cbn. by rewrite Ht. }
  cbn [do_step]. unfold ReshardToLocalTarget.
  erewrite sm_bind_ret by (by apply (heap_deref_ok _ o a)).
  erewrite sm_bind_ret by (unfold sm_lift, sa_tile; by rewrite Ht).
  rewrite GetProtocol_rendezvous. unfold RendezvousReshardToLocalTarget, target_core.
  erewrite sm_bind_ret by (by apply (heap_deref_ok _ o a)).
  rewrite Hp. cbn [src_space dst_space pl_size pl_shape]. unfold space.
  erewrite sm_bind_ret by done.
  erewrite sm_bind_ret by (unfold sm_lift; by rewrite (describe_ok _ _ _ _ _ Hn)).
  erewrite sm_bind_ret by (unfold sm_lift, sa_tile; by rewrite Ht).
  symmetry. erewrite sm_bind_ret by done. symmetry. cbn zeta.
  destruct (pending_source_reshards _) as [|op rest]; [|done].
  erewrite sm_bind_ret by (unfold sm_lift; by rewrite Hh). done.
Qed.
End Cores.

(** ** Lemmas on managers and messages *)
Lemma reshard_key_eqb_eq a b : reshard_key_eqb a b = true <-> a = b.
Proof.
  assert (Hu : forall a b, unique_id_eqb a b = true <-> a = b).
  { intros [] []. unfold unique_id_eqb. rewrite andb_true_iff, Z.eqb_eq, DeviceListOps.eqb_eq. cbn.
    split; [by intros [-> ->]|by intros [= -> ->]]. }
  destruct a, b. unfold reshard_key_eqb. rewrite !andb_true_iff, !Hu, !Z.eqb_eq. cbn.
  split; [by intros [[[-> ->] ->] ->]|by intros [= -> -> -> ->]].
Qed.

Lemma entry_put `{RealmEvents} n k n' k' r (c : Comm) :
  entry n k (put_entry n' k' r c) =
  if decide (n = n' /\ k = k') then r else entry n k c.
Proof.
  assert (Hrefl : forall x, reshard_key_eqb x x = true) by (intros; by apply reshard_key_eqb_eq).
  unfold entry, put_entry, alist_get. cbn. destruct (Z.eqb_spec n n') as [->|Hn].
  - destruct (decide _) as [[_ ->]|Hne]; [by rewrite alist_find_set|].
    rewrite alist_find_set_ne; [done|done|]. intros x ->%reshard_key_eqb_eq.
    apply not_true_is_false. rewrite reshard_key_eqb_eq. naive_solver.
  - rewrite decide_False by naive_solver. done.
Qed.

Section Messages.
Context `{!RealmMachine}.

(** What a message carries, with the process it goes to. *)
Definition carried (m : RealmProc * PointToPointNameArgs) : Z * option Barrier * Instance_ :=
  (rm_space m.1, msg_barrier m.2, msg_instance m.2).

Definition in_flight (key : ReshardKey) (names : bool) (l : list (RealmProc * PointToPointNameArgs))
    : list (Z * option Barrier * Instance_) :=
  omap (fun m => if selects key names m then Some (carried m) else None) l.

Lemma in_flight_cons key names m l :
  in_flight key names (m :: l) =
  if selects key names m then carried m :: in_flight key names l else in_flight key names l.
Proof. unfold in_flight. cbn. by destruct (selects key names m). Qed.

Lemma in_flight_app key names l k :
  in_flight key names (l ++ k) = in_flight key names l ++ in_flight key names k.
Proof. apply omap_app. Qed.

Lemma selects_unique key names key' names' m :
  selects key names m = true -> selects key' names' m = true -> key = key' /\ names = names'.
Proof.
  unfold selects. rewrite !andb_true_iff, !bool_decide_eq_true, !eqb_true_iff. naive_solver.
Qed.

(** Delivering the first message of a kind changes only what is in flight of that
    kind. *)
Lemma take_message_ok key names l :
  match in_flight key names l with
  | [] => take_message key names l = None
  | x :: rest =>
      exists m l', take_message key names l = Some (m, l') /\ carried m = x /\ msg_key m.2 = key /\
        in_flight key names l' = rest /\
        forall key' names', (key', names') <> (key, names) ->
          in_flight key' names' l' = in_flight key' names' l
  end.
Proof.
  induction l as [|m l IH]; [done|]. rewrite in_flight_cons. cbn [take_message].
  destruct (selects key names m) eqn:E.
  - exists m, l. split_and!; try done.
    + unfold selects in E. rewrite andb_true_iff, bool_decide_eq_true in E. naive_solver.
    + intros key' names' Hne. rewrite in_flight_cons.
      destruct (selects key' names' m) eqn:E'; [|done].
      destruct (selects_unique _ _ _ _ _ E E') as [-> ->]. done.
  - destruct (in_flight key names l) as [|x rest] eqn:Hl; [by rewrite IH|].
    destruct IH as (m' & l' & -> & Hx & Hk & Hr & Ho). exists m', (m :: l').
    split_and!; try done.
    + by rewrite in_flight_cons, E.
    + intros key' names' Hne. by rewrite !in_flight_cons, Ho.
Qed.
End Messages.
