(* ===== verification/Pairing.v ===== *)
(** The invariant of the rendezvous protocol and its proof.  For every reshard a
    ghost state splits its sends into those matched and those waiting, and its
    receives into those matched, those whose names wait at the source and those
    whose names are in flight; user events and barriers have an owner. *)
From stdpp Require Import base tactics list numbers option strings sets gmap.
From Stdlib Require Import ZArith Lia.
From S2P Require Import Prelude Events Mesh Shape Processor Tiles Handles Arrays.
From S2P Require Import ReshardManager Rendezvous.
Open Scope Z_scope.

Inductive Side : Type := Src | Tgt.

Section Invariant.
Context `{RealmMemory} `{!RealmOps} `{!RealmMachine} (place : ReshardKey -> Placement).

Abbreviation State := (Comm * World)%type.

Record KeyGhost : Type := mkGhost {
  s_matched : list End_;
  s_waiting : list End_;
  t_matched : list End_;
  t_named : list End_;
  t_flying : list End_;
  matches : list nat;          (* the copies of the matched pairs *)
  announced : bool;            (* the source process has created the ack barrier *)
  readied : bool;              (* the target process has created the ready barrier *)
  acked : bool;                (* the target process knows the ack barrier *)
  ack_id : nat;
  ready_id : nat;
}.

Definition all_s (g : KeyGhost) : list End_ := s_matched g ++ s_waiting g.
Definition all_t (g : KeyGhost) : list End_ := t_matched g ++ t_named g ++ t_flying g.

(** The owner of a user event is the call that created it; the owner of a
    barrier is the reshard whose ack ([true]) or ready barrier it is; the copies
    [older] were issued before and have no owner. *)
Record Owners (older : list Copy) : Type := mkOwners {
  user_owner : nat -> option (ReshardKey * Side * nat);
  barrier_owner : nat -> option (ReshardKey * bool);
}.
Context {older : list Copy}.
#[local] Arguments user_owner {older} _ _.
#[local] Arguments barrier_owner {older} _ _.

Definition triggers (s : State) : list (nat * Event) := triggered (w_rt s.2).
Definition users (s : State) : nat := next_user (w_rt s.2).
Definition is_local (k : ReshardKey) : bool := src_space (place k) =? dst_space (place k).

(** *** Events: what the logs say about the calls of a reshard *)
Record KeyLog (k : ReshardKey) (g : KeyGhost) (o : Owners older) (s : State) : Prop := {
  log_source u i e : user_owner o u = Some (k, Src, i) -> (u, e) ∈ triggers s ->
    exists c, matches g !! i = Some c /\ e = copy_event c;
  log_target u i e : user_owner o u = Some (k, Tgt, i) -> (u, e) ∈ triggers s ->
    if is_local k then exists c, matches g !! i = Some c /\ e = copy_event c
    else barrier_owner o (ack_id g) = Some (k, true) /\ e = barrier_event (ack_id g) i;
  log_ack b i e : barrier_owner o b = Some (k, true) -> ((b, i), e) ∈ c_arrivals s.1 ->
    exists c, matches g !! i = Some c /\ e = copy_event c;
  log_ready b i e : barrier_owner o b = Some (k, false) -> ((b, i), e) ∈ c_arrivals s.1 ->
    exists t, all_t g !! i = Some t /\ e = e_pre t;
  log_copy i c : matches g !! i = Some c ->
    exists x t pre, s_matched g !! i = Some x /\ t_matched g !! i = Some t /\
      w_copies s.2 !! c =
        Some (mkCopy _ (pl_shape (place k)) (pl_size (place k)) (e_inst x) (e_inst t) pre) /\
      exists ready,
        (pre = merge_events [ready; e_pre x] \/ pre = merge_events [e_pre x; ready]) /\
        if is_local k then ready = e_pre t
        else barrier_owner o (ready_id g) = Some (k, false) /\ ready = barrier_event (ready_id g) i;
  log_s_ret i x : all_s g !! i = Some x ->
    (exists c, matches g !! i = Some c /\ e_ret x = copy_event c) \/
    (exists u, e_ret x = user_event u /\ user_owner o u = Some (k, Src, i));
  log_t_ret i t : all_t g !! i = Some t ->
    (is_local k = true /\ exists c, matches g !! i = Some c /\ e_ret t = copy_event c) \/
    (exists u, e_ret t = user_event u /\ user_owner o u = Some (k, Tgt, i)) \/
    (is_local k = false /\ barrier_owner o (ack_id g) = Some (k, true) /\
     e_ret t = barrier_event (ack_id g) i);
  log_s_done i c x : matches g !! i = Some c -> s_matched g !! i = Some x ->
    e_ret x = copy_event c \/ exists u, e_ret x = user_event u /\ (u, copy_event c) ∈ triggers s;
  log_t_done i c t : is_local k = true -> matches g !! i = Some c -> t_matched g !! i = Some t ->
    e_ret t = copy_event c \/ exists u, e_ret t = user_event u /\ (u, copy_event c) ∈ triggers s;
  log_arrived i c : is_local k = false -> matches g !! i = Some c ->
    ((ack_id g, i), copy_event c) ∈ c_arrivals s.1;
  log_acked i t : is_local k = false -> acked g = true -> all_t g !! i = Some t ->
    e_ret t = barrier_event (ack_id g) i \/
    exists u, e_ret t = user_event u /\ (u, barrier_event (ack_id g) i) ∈ triggers s;
  log_readied i t : is_local k = false -> all_t g !! i = Some t ->
    ((ready_id g, i), e_pre t) ∈ c_arrivals s.1;
}.

(** *** Queues: where the calls of a reshard wait *)

(** Operations that wait with the user event of their call. *)
Fixpoint waiting (o : Owners older) (k : ReshardKey) (side : Side) (i : nat) (l : list End_)
    (ops : list PendingOp) : Prop :=
  match l, ops with
  | [], [] => True
  | x :: l, op :: ops =>
      (exists u, op = mkPendingOp (e_pre x) (Some u) (e_inst x) /\ e_ret x = user_event u /\
                 user_owner o u = Some (k, side, i)) /\
      waiting o k side (S i) l ops
  | _, _ => False
  end.

(** The names of targets at the source, and in flight. *)
Fixpoint named (b : nat) (i : nat) (l : list End_) : list PendingOp :=
  match l with
  | [] => []
  | t :: l => mkPendingOp (barrier_event b i) None (e_inst t) :: named b (S i) l
  end.
Fixpoint flying (space : Z) (b : nat) (i : nat) (l : list End_) : list (Z * option Barrier * Instance_) :=
  match l with
  | [] => []
  | t :: l => (space, Some (b, i), e_inst t) :: flying space b (S i) l
  end.

Definition described_ok (k : ReshardKey) (r : PointToPointReshard) : Prop :=
  exists_ r = true -> p2p_shape r = Some (pl_shape (place k)) /\ field_size r = pl_size (place k).

Definition on_source (k : ReshardKey) (s : State) : PointToPointReshard :=
  entry (src_space (place k)) k s.1.
Definition on_target (k : ReshardKey) (s : State) : PointToPointReshard :=
  entry (dst_space (place k)) k s.1.

Record KeyQueue (k : ReshardKey) (g : KeyGhost) (o : Owners older) (s : State) : Prop := {
  q_sources : waiting o k Src (length (matches g)) (s_waiting g)
                (pending_source_reshards (on_source k s));
  q_one_side : s_waiting g = [] \/ t_named g = [];
  q_s_length : length (s_matched g) = length (matches g);
  q_t_length : length (t_matched g) = length (matches g);
  q_insts t : t ∈ all_t g -> is_Some (e_inst t);
  q_described : described_ok k (on_source k s);
  q_exists : s_waiting g <> [] -> exists_ (on_source k s) = true;
  q_names : in_flight k true (c_messages s.1) =
    flying (src_space (place k)) (ready_id g) (length (matches g) + length (t_named g)) (t_flying g);
  q_local : is_local k = true ->
    waiting o k Tgt (length (matches g)) (t_named g) (pending_dest_reshards (on_source k s)) /\
    t_flying g = [] /\ ack_done_barrier (on_source k s) = None /\
    in_flight k false (c_messages s.1) = [];
  q_named : is_local k = false ->
    pending_dest_reshards (on_source k s) = named (ready_id g) (length (matches g)) (t_named g);
  q_ack : is_local k = false ->
    ack_done_barrier (on_source k s) =
      (if announced g then Some (ack_id g, length (matches g)) else None) /\
    (announced g = true -> barrier_owner o (ack_id g) = Some (k, true)) /\
    (announced g = false -> all_s g = [] /\ forall b, barrier_owner o b <> Some (k, true));
  q_target : is_local k = false ->
    pending_source_reshards (on_target k s) = [] /\
    target_ready_barrier (on_target k s) =
      (if readied g then Some (ready_id g, length (all_t g)) else None) /\
    (readied g = true -> barrier_owner o (ready_id g) = Some (k, false)) /\
    (readied g = false -> all_t g = [] /\ forall b, barrier_owner o b <> Some (k, false));
  q_acked : is_local k = false -> acked g = true ->
    ack_done_barrier (on_target k s) = Some (ack_id g, length (all_t g)) /\
    pending_dest_reshards (on_target k s) = [] /\ announced g = true /\
    in_flight k false (c_messages s.1) = [];
  q_unacked : is_local k = false -> acked g = false ->
    ack_done_barrier (on_target k s) = None /\
    waiting o k Tgt 0 (all_t g) (pending_dest_reshards (on_target k s)) /\
    in_flight k false (c_messages s.1) =
      if announced g then [(dst_space (place k), Some (ack_id g, 0%nat), None)] else [];
}.

(** *** The invariant *)
Record Inv (h : list ShardedArray) (G : ReshardKey -> KeyGhost) (o : Owners older) (s : State) : Prop := {
  inv_heap : w_heap s.2 = h;
  inv_user u x : user_owner o u = Some x -> (u < users s)%nat;
  inv_triggers u e : (u, e) ∈ triggers s -> (u < users s)%nat;
  inv_barrier b x : barrier_owner o b = Some x -> (b < c_barriers s.1)%nat;
  inv_arrivals b i e : ((b, i), e) ∈ c_arrivals s.1 -> (b < c_barriers s.1)%nat;
  inv_queue k : KeyQueue k (G k) o s;
  inv_log k : KeyLog k (G k) o s;
  inv_older : older `prefix_of` w_copies s.2;
  inv_copies n x : w_copies s.2 !! n = Some x -> (length older <= n)%nat ->
    exists k i, matches (G k) !! i = Some n;
}.

(** ** Lists *)
Lemma waiting_snoc o k side i l ops x u :
  waiting o k side i l ops -> e_ret x = user_event u ->
  user_owner o u = Some (k, side, (i + length l)%nat) ->
  waiting o k side i (l ++ [x]) (ops ++ [mkPendingOp (e_pre x) (Some u) (e_inst x)]).
Proof.
  revert i ops. induction l as [|y l IH]; intros i [|op ops] Hw He Hu; try done; cbn in *.
  - split; [|done]. exists u. by rewrite Nat.add_0_r in Hu.
  - destruct Hw as [Hy Hw]. split; [done|]. apply IH; [done|done|].
    rewrite Hu. do 2 f_equal. lia.
Qed.

Lemma waiting_mono o o' k side i l ops :
  (forall u x, user_owner o u = Some x -> user_owner o' u = Some x) ->
  waiting o k side i l ops -> waiting o' k side i l ops.
Proof.
  intros Ho. revert i ops. induction l as [|y l IH]; intros i [|op ops] Hw; try done; cbn in *.
  destruct Hw as [(u & -> & He & Hu) Hw]. split; [|by apply IH]. exists u. by auto.
Qed.

Lemma named_snoc b i l t :
  named b i (l ++ [t]) = named b i l ++ [mkPendingOp (barrier_event b (i + length l)) None (e_inst t)].
Proof.
  revert i. induction l as [|y l IH]; intros i; cbn; [by rewrite Nat.add_0_r|].
  rewrite IH. by replace (S i + length l)%nat with (i + S (length l))%nat by lia.
Qed.

Lemma flying_snoc space b i l t :
  flying space b i (l ++ [t]) = flying space b i l ++ [(space, Some (b, (i + length l)%nat), e_inst t)].
Proof.
  revert i. induction l as [|y l IH]; intros i; cbn; [by rewrite Nat.add_0_r|].
  rewrite IH. by replace (S i + length l)%nat with (i + S (length l))%nat by lia.
Qed.
End Invariant.
Arguments mkOwners {_ older} _ _.
Arguments user_owner {_ older} _ _.
Arguments barrier_owner {_ older} _ _.

(** ** A step that only adds to the logs

    A step adds calls and matches to a reshard, entries to the logs and owners
    of fresh events; what the invariant says of the old ones stays true. *)
Section LogExtension.
Context `{RealmMemory} `{!RealmOps} `{!RealmMachine} (place : ReshardKey -> Placement).
Context {older : list Copy} (k : ReshardKey) (g g' : KeyGhost) (o o' : Owners older) (s s' : (Comm * World)%type).

Record Extends (sn tn smn tmn : list End_) (mn : list nat) (tg : list (nat * Event))
    (an : list (Barrier * Event)) (cn : list Copy) : Prop := {
  ex_s : all_s g' = all_s g ++ sn;
  ex_t : all_t g' = all_t g ++ tn;
  ex_sm : s_matched g' = s_matched g ++ smn;
  ex_tm : t_matched g' = t_matched g ++ tmn;
  ex_m : matches g' = matches g ++ mn;
  ex_s_length : length (s_matched g) = length (matches g);
  ex_t_length : length (t_matched g) = length (matches g);
  ex_triggers : triggers s' = triggers s ++ tg;
  ex_arrivals : c_arrivals s'.1 = c_arrivals s.1 ++ an;
  ex_copies : w_copies s'.2 = w_copies s.2 ++ cn;
  ex_users u x : user_owner o u = Some x -> user_owner o' u = Some x;
  ex_fresh_user u x : user_owner o' u = Some x ->
    user_owner o u = Some x \/ forall e, (u, e) ∉ triggers s;
  ex_barriers b x : barrier_owner o b = Some x -> barrier_owner o' b = Some x;
  ex_fresh_barrier b x : barrier_owner o' b = Some x ->
    barrier_owner o b = Some x \/ forall i e, ((b, i), e) ∉ c_arrivals s.1;
  ex_ack : ack_id g' = ack_id g \/
    matches g = [] /\ acked g' = false /\ forall b, barrier_owner o b <> Some (k, true);
  ex_ready : ready_id g' = ready_id g \/
    all_t g = [] /\ forall b, barrier_owner o b <> Some (k, false);
}.

(** What the new entries must satisfy. *)
Record NewLog (tg : list (nat * Event)) (an : list (Barrier * Event)) : Prop := {
  new_source u i e : (u, e) ∈ tg -> user_owner o' u = Some (k, Src, i) ->
    exists c, matches g' !! i = Some c /\ e = copy_event c;
  new_target u i e : (u, e) ∈ tg -> user_owner o' u = Some (k, Tgt, i) ->
    if is_local place k then exists c, matches g' !! i = Some c /\ e = copy_event c
    else barrier_owner o' (ack_id g') = Some (k, true) /\ e = barrier_event (ack_id g') i;
  new_ack b i e : ((b, i), e) ∈ an -> barrier_owner o' b = Some (k, true) ->
    exists c, matches g' !! i = Some c /\ e = copy_event c;
  new_ready b i e : ((b, i), e) ∈ an -> barrier_owner o' b = Some (k, false) ->
    exists t, all_t g' !! i = Some t /\ e = e_pre t;
  new_copy i c : (length (matches g) <= i)%nat -> matches g' !! i = Some c ->
    exists x t pre, s_matched g' !! i = Some x /\ t_matched g' !! i = Some t /\
      w_copies s'.2 !! c =
        Some (mkCopy _ (pl_shape (place k)) (pl_size (place k)) (e_inst x) (e_inst t) pre) /\
      exists ready,
        (pre = merge_events [ready; e_pre x] \/ pre = merge_events [e_pre x; ready]) /\
        if is_local place k then ready = e_pre t
        else barrier_owner o' (ready_id g') = Some (k, false) /\ ready = barrier_event (ready_id g') i;
  new_s_ret i x : (length (all_s g) <= i)%nat -> all_s g' !! i = Some x ->
    (exists c, matches g' !! i = Some c /\ e_ret x = copy_event c) \/
    (exists u, e_ret x = user_event u /\ user_owner o' u = Some (k, Src, i));
  new_t_ret i t : (length (all_t g) <= i)%nat -> all_t g' !! i = Some t ->
    (is_local place k = true /\ exists c, matches g' !! i = Some c /\ e_ret t = copy_event c) \/
    (exists u, e_ret t = user_event u /\ user_owner o' u = Some (k, Tgt, i)) \/
    (is_local place k = false /\ barrier_owner o' (ack_id g') = Some (k, true) /\
     e_ret t = barrier_event (ack_id g') i);
  new_s_done i c x : (length (matches g) <= i)%nat ->
    matches g' !! i = Some c -> s_matched g' !! i = Some x ->
    e_ret x = copy_event c \/ exists u, e_ret x = user_event u /\ (u, copy_event c) ∈ triggers s';
  new_t_done i c t : is_local place k = true -> (length (matches g) <= i)%nat ->
    matches g' !! i = Some c -> t_matched g' !! i = Some t ->
    e_ret t = copy_event c \/ exists u, e_ret t = user_event u /\ (u, copy_event c) ∈ triggers s';
  new_arrived i c : is_local place k = false -> (length (matches g) <= i)%nat ->
    matches g' !! i = Some c -> ((ack_id g', i), copy_event c) ∈ c_arrivals s'.1;
  new_acked i t : is_local place k = false -> acked g' = true -> all_t g' !! i = Some t ->
    acked g = true /\ (i < length (all_t g))%nat \/
    e_ret t = barrier_event (ack_id g') i \/
    exists u, e_ret t = user_event u /\ (u, barrier_event (ack_id g') i) ∈ triggers s';
  new_readied i t : is_local place k = false -> (length (all_t g) <= i)%nat -> all_t g' !! i = Some t ->
    ((ready_id g', i), e_pre t) ∈ c_arrivals s'.1;
}.

Lemma lookup_old {A} (l l' n : list A) i x :
  l' = l ++ n -> l' !! i = Some x -> l !! i = Some x \/ (length l <= i)%nat.
Proof.
  intros -> Hx. destruct (decide (i < length l)%nat); [left|right; lia].
  by rewrite lookup_app_l in Hx.
Qed.

Lemma lookup_more {A} (l l' n : list A) i x : l' = l ++ n -> l !! i = Some x -> l' !! i = Some x.
Proof. intros ->. apply lookup_app_l_Some. Qed.

Lemma elem_more {A} (l l' n : list A) x : l' = l ++ n -> x ∈ l -> x ∈ l'.
Proof. intros ->. set_solver. Qed.

Context (sn tn smn tmn : list End_) (mn : list nat) (tg : list (nat * Event))
    (an : list (Barrier * Event)) (cn : list Copy).
Context (E : Extends sn tn smn tmn mn tg an cn) (N : NewLog tg an) (L : KeyLog place k g o s).

Lemma trigger_cases u e x : (u, e) ∈ triggers s' -> user_owner o' u = Some x ->
  (user_owner o u = Some x /\ (u, e) ∈ triggers s) \/ (u, e) ∈ tg.
Proof.
  rewrite (ex_triggers _ _ _ _ _ _ _ _ E), elem_of_app. intros [Ho|Hn] Hu; [|by right].
  destruct (ex_fresh_user _ _ _ _ _ _ _ _ E u x Hu) as [?|Hno]; [by left|by destruct (Hno e)].
Qed.

Lemma arrival_cases b i e x : ((b, i), e) ∈ c_arrivals s'.1 -> barrier_owner o' b = Some x ->
  (barrier_owner o b = Some x /\ ((b, i), e) ∈ c_arrivals s.1) \/ ((b, i), e) ∈ an.
Proof.
  rewrite (ex_arrivals _ _ _ _ _ _ _ _ E), elem_of_app. intros [Ho|Hn] Hu; [|by right].
  destruct (ex_fresh_barrier _ _ _ _ _ _ _ _ E b x Hu) as [?|Hno]; [by left|by destruct (Hno i e)].
Qed.

Lemma old_match i c : matches g !! i = Some c -> matches g' !! i = Some c.
Proof. eapply lookup_more, E. Qed.

Lemma old_trigger x : x ∈ triggers s -> x ∈ triggers s'.
Proof. eapply elem_more, E. Qed.

Lemma match_cases i c : matches g' !! i = Some c ->
  matches g !! i = Some c \/ (length (matches g) <= i)%nat.
Proof. eapply lookup_old, E. Qed.

Lemma owned_ack : barrier_owner o (ack_id g) = Some (k, true) ->
  ack_id g' = ack_id g /\ barrier_owner o' (ack_id g') = Some (k, true).
Proof.
  intros Hb. destruct (ex_ack _ _ _ _ _ _ _ _ E) as [->|(_ & _ & Hno)]; [|by apply Hno in Hb].
  split; [done|]. by eapply ex_barriers.
Qed.

Lemma owned_ready : barrier_owner o (ready_id g) = Some (k, false) ->
  ready_id g' = ready_id g /\ barrier_owner o' (ready_id g') = Some (k, false).
Proof.
  intros Hb. destruct (ex_ready _ _ _ _ _ _ _ _ E) as [->|[_ Hno]]; [|by apply Hno in Hb].
  split; [done|]. by eapply ex_barriers.
Qed.

Lemma matched_old {A} (l l' n : list A) i c x :
  l' = l ++ n -> length l = length (matches g) -> matches g !! i = Some c -> l' !! i = Some x ->
  l !! i = Some x.
Proof.
  intros -> Hl Hc Hx. apply lookup_lt_Some in Hc. by rewrite lookup_app_l in Hx by lia.
Qed.

Lemma match_grows i e :
  (exists c, matches g !! i = Some c /\ e = copy_event c) ->
  exists c, matches g' !! i = Some c /\ e = copy_event c.
Proof. intros (c & Hc & ->). exists c. by auto using old_match. Qed.

Lemma log_copy_extend i c : matches g' !! i = Some c ->
  exists x t pre, s_matched g' !! i = Some x /\ t_matched g' !! i = Some t /\
    w_copies s'.2 !! c =
      Some (mkCopy _ (pl_shape (place k)) (pl_size (place k)) (e_inst x) (e_inst t) pre) /\
    exists ready,
      (pre = merge_events [ready; e_pre x] \/ pre = merge_events [e_pre x; ready]) /\
      if is_local place k then ready = e_pre t
      else barrier_owner o' (ready_id g') = Some (k, false) /\ ready = barrier_event (ready_id g') i.
Proof.
  intros Hc'. destruct (match_cases i c Hc') as [Hc|Hi]; [|by apply (new_copy _ _ N)].
  destruct (log_copy _ _ _ _ _ L i c Hc) as (x & t & pre & Hx & Ht & Hcp & ready & Hpre & Hr).
  exists x, t, pre. split_and!.
  - eapply lookup_more; [apply E|done].
  - eapply lookup_more; [apply E|done].
  - eapply lookup_more; [apply E|done].
  - exists ready. split; [done|]. destruct (is_local place k); [done|].
    destruct Hr as [Hr ->]. destruct (owned_ready Hr) as [Heq ?]. by rewrite Heq at 2.
Qed.

Lemma log_t_ret_extend i t : all_t g' !! i = Some t ->
  (is_local place k = true /\ exists c, matches g' !! i = Some c /\ e_ret t = copy_event c) \/
  (exists u, e_ret t = user_event u /\ user_owner o' u = Some (k, Tgt, i)) \/
  (is_local place k = false /\ barrier_owner o' (ack_id g') = Some (k, true) /\
   e_ret t = barrier_event (ack_id g') i).
Proof.
  intros Ht'. destruct (lookup_old _ _ _ i t (ex_t _ _ _ _ _ _ _ _ E) Ht') as [Ht|Hi]; [|by apply (new_t_ret _ _ N)].
  destruct (log_t_ret _ _ _ _ _ L i t Ht) as [(Hl & c & Hc & He)|[(u & He & Hu)|(Hl & Hb & He)]].
  - left. split; [done|]. exists c. by auto using old_match.
  - right; left. exists u. split; [done|]. by eapply ex_users.
  - right; right. destruct (owned_ack Hb) as [Heq ?]. by rewrite Heq at 2.
Qed.

Lemma KeyLog_extend : KeyLog place k g' o' s'.
Proof.
  split.
  - intros u i e Hu Hin. destruct (trigger_cases u e _ Hin Hu) as [[Ho Hin']|Hn]; [|by eapply (new_source _ _ N)].
    apply match_grows. by eapply log_source.
  - intros u i e Hu Hin. destruct (trigger_cases u e _ Hin Hu) as [[Ho Hin']|Hn]; [|by eapply (new_target _ _ N)].
    pose proof (log_target _ _ _ _ _ L u i e Ho Hin') as Hl. destruct (is_local place k).
    + by apply match_grows.
    + destruct Hl as [Hb ->]. destruct (owned_ack Hb) as [Heq ?]. by rewrite Heq at 2.
  - intros b i e Hb Hin. destruct (arrival_cases b i e _ Hin Hb) as [[Ho Hin']|Hn]; [|by eapply (new_ack _ _ N)].
    apply match_grows. by eapply log_ack.
  - intros b i e Hb Hin. destruct (arrival_cases b i e _ Hin Hb) as [[Ho Hin']|Hn]; [|by eapply (new_ready _ _ N)].
    destruct (log_ready _ _ _ _ _ L b i e Ho Hin') as (t & Ht & ->). exists t. split; [|done].
    eapply lookup_more; [apply E|done].
  - apply log_copy_extend.
  - intros i x Hx'. destruct (lookup_old _ _ _ i x (ex_s _ _ _ _ _ _ _ _ E) Hx') as [Hx|Hi]; [|by apply (new_s_ret _ _ N)].
    destruct (log_s_ret _ _ _ _ _ L i x Hx) as [?|(u & He & Hu)].
    + left. by apply match_grows.
    + right. exists u. split; [done|]. by eapply ex_users.
  - apply log_t_ret_extend.
  - intros i c x Hc' Hx'. destruct (match_cases i c Hc') as [Hc|Hi]; [|by eapply (new_s_done _ _ N)].
    assert (Hx : s_matched g !! i = Some x) by (eapply matched_old; try apply E; done).
    destruct (log_s_done _ _ _ _ _ L i c x Hc Hx) as [?|(u & He & Hu)]; [by left|].
    right. exists u. by auto using old_trigger.
  - intros i c t Hl Hc' Ht'. destruct (match_cases i c Hc') as [Hc|Hi]; [|by eapply (new_t_done _ _ N)].
    assert (Ht : t_matched g !! i = Some t) by (eapply matched_old; try apply E; done).
    destruct (log_t_done _ _ _ _ _ L i c t Hl Hc Ht) as [?|(u & He & Hu)]; [by left|].
    right. exists u. by auto using old_trigger.
  - intros i c Hl Hc'. destruct (match_cases i c Hc') as [Hc|Hi]; [|by eapply (new_arrived _ _ N)].
    pose proof (log_arrived _ _ _ _ _ L i c Hl Hc) as Ha.
    destruct (ex_ack _ _ _ _ _ _ _ _ E) as [->|(Hm & _)]; [|by rewrite Hm in Hc].
    eapply elem_more; [apply E|done].
  - intros i t Hl Ha' Ht'. destruct (new_acked _ _ N i t Hl Ha' Ht') as [[Ha Hi]|?]; [|done].
    assert (Ht : all_t g !! i = Some t).
    { rewrite (ex_t _ _ _ _ _ _ _ _ E) in Ht'. by rewrite lookup_app_l in Ht'. }
    destruct (ex_ack _ _ _ _ _ _ _ _ E) as [->|(_ & Hf & _)]; [|congruence].
    destruct (log_acked _ _ _ _ _ L i t Hl Ha Ht) as [?|(u & He & Hu)]; [by left|].
    right. exists u. by auto using old_trigger.
  - intros i t Hl Ht'.
    destruct (lookup_old _ _ _ i t (ex_t _ _ _ _ _ _ _ _ E) Ht') as [Ht|Hi]; [|by apply (new_readied _ _ N)].
    destruct (ex_ready _ _ _ _ _ _ _ _ E) as [->|[Hno _]]; [|by rewrite Hno in Ht].
    eapply elem_more; [apply E|]. by apply (log_readied _ _ _ _ _ L).
Qed.
End LogExtension.

(** ** A step that touches one reshard *)
Section Steps.
Context `{RealmMemory} `{!RealmOps} `{!RealmMachine} (place : ReshardKey -> Placement).
Context (h : list ShardedArray) {older : list Copy}.

Abbreviation State := (Comm * World)%type.

(** What a step of the reshard [k] may change. *)
Record Only (k : ReshardKey) (o o' : Owners older) (s s' : State) (tg : list (nat * Event))
    (an : list (Barrier * Event)) (cn : list Copy) : Prop := {
  on_heap : w_heap s'.2 = w_heap s.2;
  on_triggers : triggers s' = triggers s ++ tg;
  on_arrivals : c_arrivals s'.1 = c_arrivals s.1 ++ an;
  on_copies : w_copies s'.2 = w_copies s.2 ++ cn;
  on_tg u e : (u, e) ∈ tg -> exists x, user_owner o' u = Some (k, x.1, x.2);
  on_an b i e : ((b, i), e) ∈ an -> exists x, barrier_owner o' b = Some (k, x);
  on_users u x : user_owner o u = Some x -> user_owner o' u = Some x;
  on_barriers b x : barrier_owner o b = Some x -> barrier_owner o' b = Some x;
  on_fresh_user u x : user_owner o' u = Some x ->
    user_owner o u = Some x \/ x.1.1 = k /\ (users s <= u < users s')%nat;
  on_fresh_barrier b x : barrier_owner o' b = Some x ->
    barrier_owner o b = Some x \/ x.1 = k /\ (c_barriers s.1 <= b < c_barriers s'.1)%nat;
  on_next_user : (users s <= users s')%nat;
  on_next_barrier : (c_barriers s.1 <= c_barriers s'.1)%nat;
  on_entry n k' : k' <> k -> entry n k' s'.1 = entry n k' s.1;
  on_flight k' names : k' <> k ->
    in_flight k' names (c_messages s'.1) = in_flight k' names (c_messages s.1);
}.

(** How the ghost state of a reshard grows. *)
Record Grows (k : ReshardKey) (g g' : KeyGhost) (o : Owners older) (sn tn smn tmn : list End_)
    (mn : list nat) : Prop := {
  gr_s : all_s g' = all_s g ++ sn;
  gr_t : all_t g' = all_t g ++ tn;
  gr_sm : s_matched g' = s_matched g ++ smn;
  gr_tm : t_matched g' = t_matched g ++ tmn;
  gr_m : matches g' = matches g ++ mn;
  gr_ack : ack_id g' = ack_id g \/
    matches g = [] /\ acked g' = false /\ forall b, barrier_owner o b <> Some (k, true);
  gr_ready : ready_id g' = ready_id g \/
    all_t g = [] /\ forall b, barrier_owner o b <> Some (k, false);
}.

Lemma Extends_of k G o o' s s' g g' tg an cn sn tn smn tmn mn :
  Inv place h G o s -> Only k o o' s s' tg an cn ->
  length (s_matched g) = length (matches g) -> length (t_matched g) = length (matches g) ->
  forall k', Grows k' g g' o sn tn smn tmn mn ->
  Extends k' g g' o o' s s' sn tn smn tmn mn tg an cn.
Proof.
  intros I On Hls Hlt k' Gr. split; try apply On; try apply Gr; try done.
  - intros u x Hu. destruct (on_fresh_user _ _ _ _ _ _ _ _ On u x Hu) as [?|[_ Hge]]; [by left|].
    right. intros e He%(inv_triggers _ _ _ _ _ I). lia.
  - intros b x Hu. destruct (on_fresh_barrier _ _ _ _ _ _ _ _ On b x Hu) as [?|[_ Hge]]; [by left|].
    right. intros i e He%(inv_arrivals _ _ _ _ _ I). lia.
Qed.

(** The other reshards see nothing of the step. *)
Lemma KeyLog_other k G o o' s s' tg an cn k' :
  Inv place h G o s -> Only k o o' s s' tg an cn -> k' <> k -> KeyLog place k' (G k') o' s'.
Proof.
  intros I On Hne. pose proof (inv_queue _ _ _ _ _ I k') as Q.
  apply (KeyLog_extend place k' (G k') (G k') o o' s s' [] [] [] [] [] tg an cn); [| |apply I].
  - apply (Extends_of k G); try done; try apply Q.
    split; rewrite ?app_nil_r; try done; by left.
  - split.
    + intros u i e Hin Hu. destruct (on_tg _ _ _ _ _ _ _ _ On u e Hin) as [x Hx]. congruence.
    + intros u i e Hin Hu. destruct (on_tg _ _ _ _ _ _ _ _ On u e Hin) as [x Hx]. congruence.
    + intros b i e Hin Hu. destruct (on_an _ _ _ _ _ _ _ _ On b i e Hin) as [x Hx]. congruence.
    + intros b i e Hin Hu. destruct (on_an _ _ _ _ _ _ _ _ On b i e Hin) as [x Hx]. congruence.
    + intros i c Hi Hc%lookup_lt_Some. lia.
    + intros i c Hi Hc%lookup_lt_Some. lia.
    + intros i c Hi Hc%lookup_lt_Some. lia.
    + intros i c x Hi Hc%lookup_lt_Some. lia.
    + intros i c x _ Hi Hc%lookup_lt_Some. lia.
    + intros i c _ Hi Hc%lookup_lt_Some. lia.
    + intros i t _ Ha Ht%lookup_lt_Some. by left.
    + intros i t _ Hi Ht%lookup_lt_Some. lia.
Qed.

Lemma KeyQueue_other k G o o' s s' tg an cn k' :
  Inv place h G o s -> Only k o o' s s' tg an cn -> k' <> k -> KeyQueue place k' (G k') o' s'.
Proof.
  intros I On Hne. pose proof (inv_queue _ _ _ _ _ I k') as Q.
  assert (Hs : on_source place k' s' = on_source place k' s) by (unfold on_source; by eapply on_entry).
  assert (Ht : on_target place k' s' = on_target place k' s) by (unfold on_target; by eapply on_entry).
  assert (Hf : forall names, in_flight k' names (c_messages s'.1) = in_flight k' names (c_messages s.1))
    by (intros; by eapply on_flight).
  assert (Hno : forall b x, (forall b, barrier_owner o b <> Some (k', x)) ->
                            barrier_owner o' b <> Some (k', x)).
  { intros b x Hn Hb. destruct (on_fresh_barrier _ _ _ _ _ _ _ _ On b _ Hb) as [?|[? _]];
      [by eapply Hn|done]. }
  pose proof (on_users _ _ _ _ _ _ _ _ On) as Hu. pose proof (on_barriers _ _ _ _ _ _ _ _ On) as Hb.
  destruct Q as [Q1 Q2 Q3 Q4 Q5 Q6 Q7 Q8 Q9 Q10 Q11 Q12 Q13 Q14].
  split; rewrite ?Hs, ?Ht, ?Hf; try done.
  - by eapply waiting_mono.
  - intros Hl. destruct (Q9 Hl) as (?&?&?&?). split_and!; try done. by eapply waiting_mono.
  - intros Hl. destruct (Q11 Hl) as (?&?&Hn). split_and!; auto.
    intros Ha. destruct (Hn Ha). auto.
  - intros Hl. destruct (Q12 Hl) as (?&?&?&Hn). split_and!; auto.
    intros Ha. destruct (Hn Ha). auto.
  - intros Hl Ha. destruct (Q14 Hl Ha) as (?&?&?). split_and!; try done. by eapply waiting_mono.
Qed.

Definition upd (G : ReshardKey -> KeyGhost) (k : ReshardKey) (g : KeyGhost) : ReshardKey -> KeyGhost :=
  fun k' => if decide (k' = k) then g else G k'.

Lemma Inv_step G o s k g' o' s' tg an cn sn tn smn tmn mn :
  Inv place h G o s -> Only k o o' s s' tg an cn -> Grows k (G k) g' o sn tn smn tmn mn ->
  NewLog place k (G k) g' o' s' tg an -> KeyQueue place k g' o' s' ->
  mn = seq (length (w_copies s.2)) (length cn) -> Inv place h (upd G k g') o' s'.
Proof.
  intros I On Gr N Q Hmn. pose proof (inv_queue _ _ _ _ _ I k) as Qk.
  pose proof (on_next_user _ _ _ _ _ _ _ _ On). pose proof (on_next_barrier _ _ _ _ _ _ _ _ On).
  assert (Hu : forall u x, user_owner o' u = Some x -> (u < users s')%nat).
  { intros u x Hu. destruct (on_fresh_user _ _ _ _ _ _ _ _ On u x Hu) as [Ho|[_ ?]]; [|lia].
    apply (inv_user _ _ _ _ _ I) in Ho. lia. }
  assert (Hb : forall b x, barrier_owner o' b = Some x -> (b < c_barriers s'.1)%nat).
  { intros b x Hb. destruct (on_fresh_barrier _ _ _ _ _ _ _ _ On b x Hb) as [Ho|[_ ?]]; [|lia].
    apply (inv_barrier _ _ _ _ _ I) in Ho. lia. }
  split; try done.
  - rewrite (on_heap _ _ _ _ _ _ _ _ On). apply I.
  - intros u e. rewrite (on_triggers _ _ _ _ _ _ _ _ On), elem_of_app.
    intros [Hin%(inv_triggers _ _ _ _ _ I)|Hin]; [lia|].
    destruct (on_tg _ _ _ _ _ _ _ _ On u e Hin) as [x Hx]. by eapply Hu.
  - intros b i e. rewrite (on_arrivals _ _ _ _ _ _ _ _ On), elem_of_app.
    intros [Hin%(inv_arrivals _ _ _ _ _ I)|Hin]; [lia|].
    destruct (on_an _ _ _ _ _ _ _ _ On b i e Hin) as [x Hx]. by eapply Hb.
  - intros k'. unfold upd. destruct (decide (k' = k)) as [->|Hne]; [done|].
    by eapply (KeyQueue_other k G o o' s s').
  - intros k'. unfold upd. destruct (decide (k' = k)) as [->|Hne].
    + eapply KeyLog_extend; [|done|apply I]. eapply (Extends_of k G); try done; apply Qk.
    + by eapply (KeyLog_other k G o o' s s').
  - rewrite (on_copies _ _ _ _ _ _ _ _ On). apply prefix_app_r, I.
  - intros n x Hx Hn. rewrite (on_copies _ _ _ _ _ _ _ _ On) in Hx. unfold upd.
    apply lookup_app_Some in Hx as [Hx|[Hge Hx]].
    + destruct (inv_copies _ _ _ _ _ I n x Hx Hn) as (k' & i & Hi). exists k', i.
      destruct (decide (k' = k)) as [->|]; [|done]. rewrite (gr_m _ _ _ _ _ _ _ _ _ Gr).
      by apply lookup_app_l_Some.
    + exists k, (length (matches (G k)) + (n - length (w_copies s.2)))%nat.
      rewrite decide_True by done. rewrite (gr_m _ _ _ _ _ _ _ _ _ Gr), lookup_app_r, Hmn by lia.
      apply lookup_lt_Some in Hx. rewrite lookup_seq. lia.
Qed.
End Steps.
