(* ===== verification/PairingSteps.v ===== *)
(** Every step of a schedule preserves the invariant of the rendezvous protocol,
    and returns: the cases of [source_core], [target_core] and of the two
    kinds of messages. *)
From stdpp Require Import base tactics list numbers option strings sets gmap.
From Stdlib Require Import ZArith Lia.
From S2P Require Import Prelude Events Mesh Shape Processor Tiles Handles Arrays.
From S2P Require Import ReshardManager Rendezvous Pairing.
Open Scope Z_scope.

Section Steps.
Context `{RealmMemory} `{!RealmOps} `{!RealmMachine} (place : ReshardKey -> Placement).
Context (h : list ShardedArray) {older : list Copy}.

Abbreviation State := (Comm * World)%type.
Implicit Types (k : ReshardKey) (g : KeyGhost) (o : Owners older) (c : Comm) (w : World).

(** *** Entries *)
Lemma on_source_put k r c w : on_source place k (put_entry (src_space (place k)) k r c, w) = r.
Proof. unfold on_source. cbn [fst]. by rewrite entry_put, decide_True. Qed.

Lemma on_target_put k r c w : on_target place k (put_entry (dst_space (place k)) k r c, w) = r.
Proof. unfold on_target. cbn [fst]. by rewrite entry_put, decide_True. Qed.

Lemma is_local_false k : is_local place k = false -> src_space (place k) <> dst_space (place k).
Proof. unfold is_local. by intros ?%Z.eqb_neq. Qed.

Lemma is_local_true k : is_local place k = true -> src_space (place k) = dst_space (place k).
Proof. unfold is_local. by intros ?%Z.eqb_eq. Qed.

Lemma on_target_put_source k r c w : is_local place k = false ->
  on_target place k (put_entry (src_space (place k)) k r c, w) = entry (dst_space (place k)) k c.
Proof.
  intros Hl%is_local_false. unfold on_target. cbn [fst]. rewrite entry_put, decide_False; [done|].
  intros [? _]. congruence.
Qed.

Lemma on_source_put_target k r c w : is_local place k = false ->
  on_source place k (put_entry (dst_space (place k)) k r c, w) = entry (src_space (place k)) k c.
Proof.
  intros Hl%is_local_false. unfold on_source. cbn [fst]. rewrite entry_put, decide_False; [done|].
  intros [? _]. congruence.
Qed.

Lemma put_other n k r c k' n' : k' <> k -> entry n' k' (put_entry n k r c) = entry n' k' c.
Proof. intros Hne. rewrite entry_put, decide_False; [done|]. naive_solver. Qed.

Lemma described_fields r fs shape name :
  let d := described r fs shape name in
  target_ready_barrier d = target_ready_barrier r /\ ack_done_barrier d = ack_done_barrier r /\
  pending_source_reshards d = pending_source_reshards r /\
  pending_dest_reshards d = pending_dest_reshards r /\ exists_ d = true.
Proof. unfold described. by destruct (exists_ r) eqn:?. Qed.

Lemma described_describes k r name : described_ok place k r ->
  let d := described r (pl_size (place k)) (pl_shape (place k)) name in
  p2p_shape d = Some (pl_shape (place k)) /\ field_size d = pl_size (place k).
Proof. unfold described_ok, described. destruct (exists_ r).
  - intros Hd. exact (Hd eq_refl).
  - done. Qed.

(** *** Steps without new log entries *)
Lemma NewLog_none k g g' o' s' :
  matches g' = matches g -> all_s g' = all_s g -> all_t g' = all_t g ->
  (acked g' = true -> acked g = true) -> NewLog place k g g' o' s' [] [].
Proof.
  intros Hm Hs Ht Ha. split; try by intros ??? ?%elem_of_nil.
  - intros i c Hi Hc%lookup_lt_Some. rewrite Hm in Hc. lia.
  - intros i x Hi Hc%lookup_lt_Some. rewrite Hs in Hc. lia.
  - intros i x Hi Hc%lookup_lt_Some. rewrite Ht in Hc. lia.
  - intros i c x Hi Hc%lookup_lt_Some. rewrite Hm in Hc. lia.
  - intros i c x _ Hi Hc%lookup_lt_Some. rewrite Hm in Hc. lia.
  - intros i c _ Hi Hc%lookup_lt_Some. rewrite Hm in Hc. lia.
  - intros i t _ Hac Hc%lookup_lt_Some. rewrite Ht in Hc. left. by auto.
  - intros i t _ Hi Hc%lookup_lt_Some. rewrite Ht in Hc. lia.
Qed.

(** The goals of [Only], with the trivial ones solved. *)
Ltac split_only :=
  split;
  lazymatch goal with
  | |- forall n k', k' <> _ -> entry _ _ _ = _ => intros ?n' ?k' ?Hne; cbn [fst snd]; rewrite ?put_other by done
  | _ => cbn -[in_flight]; rewrite ?app_nil_r
  end;
  try done; try lia;
  try (by intros ?? ?%elem_of_nil);
  try (by intros ??? ?%elem_of_nil);
  try (by left).

(** The state is only changed in the entries of [k]. *)
Lemma Only_put k n r o c w : Only k o o (c, w) (put_entry n k r c, w) [] [] [].
Proof. split_only. Qed.

Lemma Grows_none k g g' o :
  all_s g' = all_s g -> all_t g' = all_t g -> s_matched g' = s_matched g ->
  t_matched g' = t_matched g -> matches g' = matches g ->
  (ack_id g' = ack_id g \/
   matches g = [] /\ acked g' = false /\ forall b, barrier_owner o b <> Some (k, true)) ->
  (ready_id g' = ready_id g \/ all_t g = [] /\ forall b, barrier_owner o b <> Some (k, false)) ->
  Grows k g g' o [] [] [] [] [].
Proof. intros. split; by rewrite ?app_nil_r. Qed.

(** The calls of every reshard are the same. *)
Definition same_calls (G G' : ReshardKey -> KeyGhost) : Prop :=
  forall k, all_s (G' k) = all_s (G k) /\ all_t (G' k) = all_t (G k).

Lemma same_calls_upd G k g : all_s g = all_s (G k) -> all_t g = all_t (G k) ->
  same_calls G (upd G k g).
Proof. intros Hs Ht k'. unfold upd. by destruct (decide _) as [->|]. Qed.

(** Describing the reshard on the source's process. *)
Lemma describe_source k name G o c w :
  let d := described (entry (src_space (place k)) k c) (pl_size (place k)) (pl_shape (place k)) name in
  Inv place h G o (c, w) ->
  Inv place h (upd G k (G k)) o (put_entry (src_space (place k)) k d c, w).
Proof.
  intros d I. pose proof (inv_queue _ _ _ _ _ I k) as Q.
  destruct (described_fields (entry (src_space (place k)) k c) (pl_size (place k))
              (pl_shape (place k)) name) as (F1 & F2 & F3 & F4 & F5). fold d in F1, F2, F3, F4, F5.
  pose proof (described_describes k _ name (q_described _ _ _ _ _ Q)) as F6.
  eapply (Inv_step place h G o (c, w) k).
  - done.
  - apply Only_put.
  - by apply Grows_none; auto.
  - by apply NewLog_none.
  - destruct Q as [Q1 Q2 Q3 Q4 Q5 Q6 Q7 Q8 Q9 Q10 Q11 Q12 Q13 Q14].
    split; rewrite ?on_source_put, ?F3, ?F4, ?F5, ?F2; cbn [fst c_messages put_entry]; try done.
    + intros _. exact F6.
    + intros Hl. rewrite on_target_put_source by done. by apply Q12.
    + intros Hl. rewrite on_target_put_source by done. by apply Q13.
    + intros Hl. rewrite on_target_put_source by done. by apply Q14.
  - done.
Qed.

(** Describing the reshard on the target's process. *)
Lemma describe_target k name G o c w :
  let d := described (entry (dst_space (place k)) k c) (pl_size (place k)) (pl_shape (place k)) name in
  Inv place h G o (c, w) ->
  Inv place h (upd G k (G k)) o (put_entry (dst_space (place k)) k d c, w).
Proof.
  intros d I. destruct (is_local place k) eqn:Hl.
  { unfold d. rewrite <- (is_local_true k Hl). by apply describe_source. }
  pose proof (inv_queue _ _ _ _ _ I k) as Q.
  destruct (described_fields (entry (dst_space (place k)) k c) (pl_size (place k))
              (pl_shape (place k)) name) as (F1 & F2 & F3 & F4 & F5). fold d in F1, F2, F3, F4, F5.
  eapply (Inv_step place h G o (c, w) k).
  - done.
  - apply Only_put.
  - by apply Grows_none; auto.
  - by apply NewLog_none.
  - destruct Q as [Q1 Q2 Q3 Q4 Q5 Q6 Q7 Q8 Q9 Q10 Q11 Q12 Q13 Q14].
    split; rewrite ?on_target_put, ?F3, ?F4, ?F2, ?F1; cbn [fst c_messages put_entry];
      rewrite ?on_source_put_target by done; try done.
  - done.
Qed.

(** *** Barriers *)
Definition own_barrier (o : Owners older) (b : nat) (x : ReshardKey * bool) : Owners older :=
  mkOwners (user_owner o) (fun b' => if decide (b' = b) then Some x else barrier_owner o b').

Definition own_user (o : Owners older) (u : nat) (x : ReshardKey * Side * nat) : Owners older :=
  mkOwners (fun u' => if decide (u' = u) then Some x else user_owner o u') (barrier_owner o).

Definition g_announced (b : nat) g : KeyGhost :=
  mkGhost (s_matched g) (s_waiting g) (t_matched g) (t_named g) (t_flying g) (matches g)
    true (readied g) (acked g) b (ready_id g).
#[local] Arguments g_announced b g /.
Definition g_readied (b : nat) g : KeyGhost :=
  mkGhost (s_matched g) (s_waiting g) (t_matched g) (t_named g) (t_flying g) (matches g)
    (announced g) true (acked g) (ack_id g) b.
#[local] Arguments g_readied b g /.

(** Reduce the accessors of a state that was just built. *)
Ltac cbn_state :=
  cbn [fst snd c_messages c_arrivals c_barriers with_messages put_entry spawn arrive create_barrier
       s_matched s_waiting t_matched t_named t_flying matches announced readied acked ack_id ready_id
       g_announced g_readied with_ack with_target_ready with_sources with_dests target_ready_barrier
       pending_source_reshards pending_dest_reshards ack_done_barrier exists_ p2p_shape field_size
       w_heap w_copies w_rt set_rt set_copies].

Lemma no_owner_fresh G o c w b : Inv place h G o (c, w) -> (c_barriers c <= b)%nat ->
  barrier_owner o b = None.
Proof.
  intros I Hb. destruct (barrier_owner o b) as [x|] eqn:E; [|done].
  apply (inv_barrier _ _ _ _ _ I) in E. cbn in E. lia.
Qed.

Lemma own_barrier_new o b x : barrier_owner (own_barrier o b x) b = Some x.
Proof. cbn. by rewrite decide_True. Qed.

Lemma own_barrier_inv o b x b' y : barrier_owner (own_barrier o b x) b' = Some y ->
  (b' = b /\ y = x) \/ barrier_owner o b' = Some y.
Proof. cbn. destruct (decide _); [|by right]. intros [= <-]. by left. Qed.

Lemma own_barrier_old G o c w x b' y : Inv place h G o (c, w) ->
  barrier_owner o b' = Some y -> barrier_owner (own_barrier o (c_barriers c) x) b' = Some y.
Proof.
  intros I Hy. cbn. destruct (decide _) as [->|]; [|done].
  by rewrite (no_owner_fresh G o c w) in Hy.
Qed.

Lemma own_barrier_waiting o b x k side i l ops :
  waiting o k side i l ops -> waiting (own_barrier o b x) k side i l ops.
Proof. by apply waiting_mono. Qed.

Lemma no_user_fresh G o c w u : Inv place h G o (c, w) -> (next_user (w_rt w) <= u)%nat ->
  user_owner o u = None.
Proof.
  intros I Hb. destruct (user_owner o u) as [x|] eqn:E; [|done].
  apply (inv_user _ _ _ _ _ I) in E. unfold users in E. cbn in E. lia.
Qed.

Lemma in_flight_snoc k names k' l target b i :
  in_flight k' names (l ++ [(target, mkNameArgs k b i)]) =
  in_flight k' names l ++
    (if bool_decide (k = k') && Bool.eqb (bool_decide (is_Some i)) names
     then [(rm_space target, b, i)] else []).
Proof.
  rewrite in_flight_app. f_equal. rewrite in_flight_cons. unfold selects, is_name. cbn.
  by destruct (_ && _).
Qed.

Lemma in_flight_ack k names l target b :
  in_flight k names (l ++ [(target, mkNameArgs k b None)]) =
  in_flight k names l ++ (if names then [] else [(rm_space target, b, None)]).
Proof.
  rewrite in_flight_snoc, bool_decide_true, bool_decide_false by (done || by intros [? ?]).
  by destruct names.
Qed.

Lemma in_flight_name k names l target b i : is_Some i ->
  in_flight k names (l ++ [(target, mkNameArgs k b i)]) =
  in_flight k names l ++ (if names then [(rm_space target, b, i)] else []).
Proof. intros Hi. rewrite in_flight_snoc, !bool_decide_true by done. by destruct names. Qed.

Lemma in_flight_snoc_other k k' names l target b i : k' <> k ->
  in_flight k' names (l ++ [(target, mkNameArgs k b i)]) = in_flight k' names l.
Proof. intros Hne. rewrite in_flight_snoc, bool_decide_false by congruence. by rewrite app_nil_r. Qed.

Lemma all_s_nil_matches k g o s : KeyQueue place k g o s -> all_s g = [] -> matches g = [].
Proof.
  intros Q Hs. apply app_eq_nil in Hs as [Hm _]. apply nil_length_inv.
  by rewrite <- (q_s_length _ _ _ _ _ Q), Hm.
Qed.

(** The source's process creates the ack barrier and sends it. *)
Lemma announce_source k target G o r c w :
  Inv place h G o (put_entry (src_space (place k)) k r c, w) ->
  rm_space target = dst_space (place k) -> is_local place k = false -> ack_done_barrier r = None ->
  let b := c_barriers c in
  Inv place h (upd G k (g_announced b (G k))) (own_barrier o b (k, true))
    (put_entry (src_space (place k)) k (with_ack r (Some (b, 0%nat)))
       (spawn target (mkNameArgs k (Some (b, 0%nat)) None) (create_barrier c).2), w).
Proof.
  intros I Ht Hl Hr b. pose proof (inv_queue _ _ _ _ _ I k) as Q.
  destruct (q_ack _ _ _ _ _ Q Hl) as (Ha & _ & Hno). rewrite on_source_put, Hr in Ha.
  destruct (announced (G k)) eqn:Han; [done|]. destruct (Hno eq_refl) as [Hs Hnone].
  pose proof (all_s_nil_matches _ _ _ _ Q Hs) as Hm.
  assert (Hac : acked (G k) = false).
  { destruct (acked (G k)) eqn:E; [|done].
    destruct (q_acked _ _ _ _ _ Q Hl E) as (_ & _ & ? & _). congruence. }
  destruct (q_unacked _ _ _ _ _ Q Hl Hac) as (U1 & U2 & U3). rewrite Han in U3.
  cbn [fst c_messages put_entry] in U3. rewrite on_target_put_source in U1, U2 by done.
  eapply (Inv_step place h G o _ k).
  - done.
  - split_only.
    + intros b' y Hy. by apply (own_barrier_old _ _ _ _ (k, true) _ _ I).
    + intros b' y [[-> ->]|?]%own_barrier_inv; [right|by left]. unfold b. cbn. split; [done|lia].
    + intros k' names Hne. by rewrite in_flight_snoc_other.
  - apply Grows_none; auto; right; auto.
  - by apply NewLog_none.
  - destruct Q as [Q1 Q2 Q3 Q4 Q5 Q6 Q7 Q8 Q9 Q10 Q11 Q12 Q13 Q14]. rewrite on_source_put in *.
    split; rewrite ?on_source_put, ?on_target_put_source by done; cbn_state;
      rewrite ?in_flight_ack; try done.
    + by apply own_barrier_waiting.
    + by rewrite app_nil_r.
    + congruence.
    + rewrite own_barrier_new, Hm. done.
    + intros _. rewrite on_target_put_source in Q12 by done. destruct (Q12 Hl) as (T1 & T2 & T3 & T4).
      split_and!; [done|done| |].
      * intros Hd. by apply (own_barrier_old _ _ _ _ _ _ _ I), T3.
      * intros Hd. destruct (T4 Hd) as [? Hn]. split; [done|].
        intros b' [[_ ?]|Ho]%own_barrier_inv; [done|by apply Hn in Ho].
    + congruence.
    + intros _ _. split_and!; [done|by apply own_barrier_waiting|]. by rewrite U3, Ht.
  - done.
Qed.

Lemma all_t_nil_matches k g o s : KeyQueue place k g o s -> all_t g = [] -> matches g = [].
Proof.
  intros Q Ht. apply app_eq_nil in Ht as [Hm _]. apply nil_length_inv.
  by rewrite <- (q_t_length _ _ _ _ _ Q), Hm.
Qed.

(** The target's process creates the ready barrier. *)
Lemma ready_target k G o r c w :
  Inv place h G o (put_entry (dst_space (place k)) k r c, w) ->
  is_local place k = false -> target_ready_barrier r = None ->
  let b := c_barriers c in
  Inv place h (upd G k (g_readied b (G k))) (own_barrier o b (k, false))
    (put_entry (dst_space (place k)) k (with_target_ready r (Some (b, 0%nat))) (create_barrier c).2, w).
Proof.
  intros I Hl Hr b. pose proof (inv_queue _ _ _ _ _ I k) as Q.
  destruct (q_target _ _ _ _ _ Q Hl) as (T1 & T2 & _ & Hno). rewrite on_target_put in T1, T2.
  rewrite Hr in T2. destruct (readied (G k)) eqn:Hre; [done|]. destruct (Hno eq_refl) as [Ht Hnone].
  eapply (Inv_step place h G o _ k).
  - done.
  - split_only.
    + intros b' y Hy. by apply (own_barrier_old _ _ _ _ (k, false) _ _ I).
    + intros b' y [[-> ->]|?]%own_barrier_inv; [right|by left]. unfold b. cbn. split; [done|lia].
  - apply Grows_none; auto; right; auto.
  - by apply NewLog_none.
  - assert (Htf : t_flying (G k) = []) by (apply app_eq_nil in Ht as [_ [_ ?]%app_eq_nil]; done).
    assert (Htn : t_named (G k) = []) by (apply app_eq_nil in Ht as [_ [? _]%app_eq_nil]; done).
    destruct Q as [Q1 Q2 Q3 Q4 Q5 Q6 Q7 Q8 Q9 Q10 Q11 Q12 Q13 Q14].
    rewrite on_source_put_target, on_target_put in * by done.
    split; rewrite ?on_target_put, ?on_source_put_target by done; cbn_state; try done.
    + by apply own_barrier_waiting.
    + etransitivity; [exact Q8|]. by rewrite Htf.
    + congruence.
    + intros _. etransitivity; [exact (Q10 Hl)|]. by rewrite Htn.
    + intros _. destruct (Q11 Hl) as (A1 & A2 & A3). split_and!; [done| |].
      * intros Ha. by apply (own_barrier_old _ _ _ _ _ _ _ I), A2.
      * intros Ha. destruct (A3 Ha) as [? Hn]. split; [done|].
        intros b' [[_ ?]|Ho]%own_barrier_inv; [done|by apply Hn in Ho].
    + intros _. split_and!; [done| |by intros _; rewrite own_barrier_new|done].
      change (all_t (mkGhost _ _ _ _ _ _ _ _ _ _ _)) with (all_t (G k)). by rewrite Ht.
    + intros _ Ha. destruct (Q14 Hl Ha) as (U1 & U2 & U3).
      split_and!; [done|by apply own_barrier_waiting|done].
  - done.
Qed.

(** *** New calls *)
Lemma lookup_snoc_new {A} (l l' : list A) x i y :
  l' = l ++ [x] -> (length l <= i)%nat -> l' !! i = Some y -> i = length l /\ y = x.
Proof.
  intros -> Hi Hy. rewrite lookup_app_r in Hy by done.
  destruct (i - length l)%nat eqn:E; [|done]. injection Hy as <-. split; [lia|done].
Qed.

Lemma NewLog_source k g g' o' s' x u :
  matches g' = matches g -> all_s g' = all_s g ++ [x] -> all_t g' = all_t g ->
  (acked g' = true -> acked g = true) -> e_ret x = user_event u ->
  user_owner o' u = Some (k, Src, length (all_s g)) -> NewLog place k g g' o' s' [] [].
Proof.
  intros Hm Hs Ht Ha Hx Hu. split; try by intros ??? ?%elem_of_nil.
  - intros i c Hi Hc%lookup_lt_Some. rewrite Hm in Hc. lia.
  - intros i y Hi Hy. destruct (lookup_snoc_new _ _ _ _ _ Hs Hi Hy) as [-> ->]. right. by exists u.
  - intros i y Hi Hc%lookup_lt_Some. rewrite Ht in Hc. lia.
  - intros i c y Hi Hc%lookup_lt_Some. rewrite Hm in Hc. lia.
  - intros i c y _ Hi Hc%lookup_lt_Some. rewrite Hm in Hc. lia.
  - intros i c _ Hi Hc%lookup_lt_Some. rewrite Hm in Hc. lia.
  - intros i t _ Hac Hc%lookup_lt_Some. rewrite Ht in Hc. left. by auto.
  - intros i t _ Hi Hc%lookup_lt_Some. rewrite Ht in Hc. lia.
Qed.

Lemma NewLog_target k g g' o' s' x an :
  matches g' = matches g -> all_s g' = all_s g -> all_t g' = all_t g ++ [x] ->
  (forall b i e, ((b, i), e) ∈ an ->
     barrier_owner o' b = Some (k, false) /\ i = length (all_t g) /\ e = e_pre x) ->
  (is_local place k = false -> acked g' = true ->
     acked g = true /\ e_ret x = barrier_event (ack_id g') (length (all_t g))) ->
  (exists u, e_ret x = user_event u /\ user_owner o' u = Some (k, Tgt, length (all_t g))) \/
  (is_local place k = false /\ barrier_owner o' (ack_id g') = Some (k, true) /\
   e_ret x = barrier_event (ack_id g') (length (all_t g))) ->
  (is_local place k = false -> ((ready_id g', length (all_t g)), e_pre x) ∈ c_arrivals s'.1) ->
  NewLog place k g g' o' s' [] an.
Proof.
  intros Hm Hs Ht Han Ha Hx Hready. split; try by intros ??? ?%elem_of_nil.
  - intros b i e Hin Hb. destruct (Han b i e Hin) as (? & _ & _). congruence.
  - intros b i e Hin Hb. destruct (Han b i e Hin) as (_ & -> & ->). exists x.
    by rewrite Ht, list_lookup_middle.
  - intros i c Hi Hc%lookup_lt_Some. rewrite Hm in Hc. lia.
  - intros i y Hi Hc%lookup_lt_Some. rewrite Hs in Hc. lia.
  - intros i y Hi Hy. destruct (lookup_snoc_new _ _ _ _ _ Ht Hi Hy) as [-> ->]. by right.
  - intros i c y Hi Hc%lookup_lt_Some. rewrite Hm in Hc. lia.
  - intros i c y _ Hi Hc%lookup_lt_Some. rewrite Hm in Hc. lia.
  - intros i c _ Hi Hc%lookup_lt_Some. rewrite Hm in Hc. lia.
  - intros i t Hl Hac Hy. destruct (Ha Hl Hac) as [? He].
    destruct (decide (i < length (all_t g))%nat) as [?|Hi%Nat.nlt_ge]; [by left|right; left].
    by destruct (lookup_snoc_new _ _ _ _ _ Ht Hi Hy) as [-> ->].
  - intros i t Hl Hi Hy. destruct (lookup_snoc_new _ _ _ _ _ Ht Hi Hy) as [-> ->]. by apply Hready.
Qed.

(** Owners of fresh user events. *)
Lemma own_user_new o u x : user_owner (own_user o u x) u = Some x.
Proof. cbn. by rewrite decide_True. Qed.

Lemma own_user_old G o c w x u y : Inv place h G o (c, w) ->
  user_owner o u = Some y -> user_owner (own_user o (next_user (w_rt w)) x) u = Some y.
Proof.
  intros I Hy. cbn. destruct (decide _) as [->|]; [|done].
  by rewrite (no_user_fresh G o c w) in Hy.
Qed.

Lemma own_user_inv o u x u' y : user_owner (own_user o u x) u' = Some y ->
  (u' = u /\ y = x) \/ user_owner o u' = Some y.
Proof. cbn. destruct (decide _); [|by right]. intros [= <-]. by left. Qed.

Definition after_user_event (w : World) : World := set_rt (create_user_event (w_rt w)).2 w.

Definition g_source (x : End_) g : KeyGhost :=
  mkGhost (s_matched g) (s_waiting g ++ [x]) (t_matched g) (t_named g) (t_flying g) (matches g)
    (announced g) (readied g) (acked g) (ack_id g) (ready_id g).

Lemma length_all_s k g o s : KeyQueue place k g o s ->
  length (all_s g) = (length (matches g) + length (s_waiting g))%nat.
Proof. intros Q. unfold all_s. by rewrite length_app, (q_s_length _ _ _ _ _ Q). Qed.

Lemma length_all_t k g o s : KeyQueue place k g o s ->
  length (all_t g) = (length (matches g) + length (t_named g) + length (t_flying g))%nat.
Proof. intros Q. unfold all_t. rewrite !length_app, (q_t_length _ _ _ _ _ Q). lia. Qed.

(** A send that finds no target waits with a new user event. *)
Lemma source_push k inst pre G o r c w :
  let u := next_user (w_rt w) in
  let x := mkEnd inst pre (user_event u) in
  Inv place h G o (put_entry (src_space (place k)) k r c, w) ->
  exists_ r = true -> pending_dest_reshards r = [] ->
  (is_local place k = false -> announced (G k) = true) ->
  Inv place h (upd G k (g_source x (G k))) (own_user o u (k, Src, length (all_s (G k))))
    (put_entry (src_space (place k)) k
       (with_sources r (pending_source_reshards r ++ [mkPendingOp pre (Some u) inst])) c,
     after_user_event w).
Proof.
  intros u x I Hex Hd Han. pose proof (inv_queue _ _ _ _ _ I k) as Q.
  assert (Htn : t_named (G k) = []).
  { destruct (is_local place k) eqn:Hl.
    - destruct (q_local _ _ _ _ _ Q Hl) as (Hw & _). rewrite on_source_put, Hd in Hw.
      by destruct (t_named (G k)).
    - pose proof (q_named _ _ _ _ _ Q Hl) as Hw. rewrite on_source_put, Hd in Hw.
      by destruct (t_named (G k)). }
  assert (Hall : all_s (g_source x (G k)) = all_s (G k) ++ [x])
    by (unfold all_s; cbn; by rewrite (assoc_L (++))).
  pose proof (length_all_s _ _ _ _ Q) as Hlen.
  eapply (Inv_step place h G o _ k _ _ _ _ _ _ [x] [] [] [] []).
  - done.
  - split_only.
    + intros u' y Hy. by apply (own_user_old _ _ _ _ _ _ _ I).
    + intros u' y [[-> ->]|?]%own_user_inv; [right|by left]. unfold users, u. cbn. split; [done|lia].
    + unfold users. cbn. lia.
  - split; rewrite ?app_nil_r; auto.
  - apply (NewLog_source k _ _ _ _ x u); auto. by rewrite own_user_new.
  - assert (Hmono : forall side i l ops, waiting o k side i l ops ->
      waiting (own_user o u (k, Src, length (all_s (G k)))) k side i l ops).
    { intros side i l ops. apply waiting_mono. intros. by apply (own_user_old _ _ _ _ _ _ _ I). }
    destruct Q as [Q1 Q2 Q3 Q4 Q5 Q6 Q7 Q8 Q9 Q10 Q11 Q12 Q13 Q14]. rewrite on_source_put in *.
    split; rewrite ?on_source_put; cbn_state; try done.
    + apply (waiting_snoc _ _ _ _ _ _ x); [by apply Hmono|done|].
      by rewrite own_user_new, Hlen.
    + by right.
    + intros Hl. destruct (Q9 Hl) as (L1 & L2). split_and!; [by apply Hmono|apply L2..].
    + intros Hl. destruct (Q11 Hl) as (A1 & A2 & A3). split_and!; [done|done|].
      intros Ha. specialize (Han Hl). cbn in Ha. congruence.
    + intros Hl. rewrite on_target_put_source in * by done. by apply Q12.
    + intros Hl. rewrite on_target_put_source in * by done. by apply Q13.
    + intros Hl Ha. rewrite on_target_put_source in * by done.
      destruct (Q14 Hl Ha) as (U1 & U2 & U3). split_and!; [done|by apply Hmono|done].
  - done.
Qed.

Definition g_named (x : End_) g : KeyGhost :=
  mkGhost (s_matched g) (s_waiting g) (t_matched g) (t_named g ++ [x]) (t_flying g) (matches g)
    (announced g) (readied g) (acked g) (ack_id g) (ready_id g).
Definition g_flying (x : End_) g : KeyGhost :=
  mkGhost (s_matched g) (s_waiting g) (t_matched g) (t_named g) (t_flying g ++ [x]) (matches g)
    (announced g) (readied g) (acked g) (ack_id g) (ready_id g).

Lemma all_t_flying x g : all_t (g_flying x g) = all_t g ++ [x].
Proof. unfold all_t. cbn. by rewrite !(assoc_L (++)). Qed.

Lemma insts_snoc (l l' : list End_) x : (forall t, t ∈ l -> is_Some (e_inst t)) ->
  l' = l ++ [x] -> is_Some (e_inst x) -> forall t, t ∈ l' -> is_Some (e_inst t).
Proof. intros Hl -> Hx t [Ht| ->%list_elem_of_singleton]%elem_of_app; auto. Qed.

(** A receive that finds no source waits, in the same process. *)
Lemma target_push_local k inst pre G o r c w :
  let u := next_user (w_rt w) in
  let x := mkEnd inst pre (user_event u) in
  Inv place h G o (put_entry (src_space (place k)) k r c, w) ->
  is_local place k = true -> pending_source_reshards r = [] -> is_Some inst ->
  Inv place h (upd G k (g_named x (G k))) (own_user o u (k, Tgt, length (all_t (G k))))
    (put_entry (src_space (place k)) k
       (with_dests r (pending_dest_reshards r ++ [mkPendingOp pre (Some u) inst])) c,
     after_user_event w).
Proof.
  intros u x I Hl Hd Hinst. pose proof (inv_queue _ _ _ _ _ I k) as Q.
  destruct (q_local _ _ _ _ _ Q Hl) as (L1 & L2 & L3 & L4).
  assert (Hsw : s_waiting (G k) = []).
  { pose proof (q_sources _ _ _ _ _ Q) as Hw. rewrite on_source_put, Hd in Hw.
    by destruct (s_waiting (G k)). }
  assert (Hall : all_t (g_named x (G k)) = all_t (G k) ++ [x])
    by (unfold all_t; cbn; by rewrite L2, !app_nil_r, (assoc_L (++))).
  pose proof (length_all_t _ _ _ _ Q) as Hlen. rewrite L2, Nat.add_0_r in Hlen.
  eapply (Inv_step place h G o _ k _ _ _ _ _ _ [] [x] [] [] []).
  - done.
  - split_only.
    + intros u' y Hy. by apply (own_user_old _ _ _ _ _ _ _ I).
    + intros u' y [[-> ->]|?]%own_user_inv; [right|by left]. unfold users, u. cbn. split; [done|lia].
    + unfold users. cbn. lia.
  - split; rewrite ?app_nil_r; auto.
  - apply (NewLog_target k _ _ _ _ x); auto.
    + by intros ??? ?%elem_of_nil.
    + congruence.
    + left. exists u. by rewrite own_user_new.
    + congruence.
  - assert (Hmono : forall side i l ops, waiting o k side i l ops ->
      waiting (own_user o u (k, Tgt, length (all_t (G k)))) k side i l ops).
    { intros side i l ops. apply waiting_mono. intros. by apply (own_user_old _ _ _ _ _ _ _ I). }
    destruct Q as [Q1 Q2 Q3 Q4 Q5 Q6 Q7 Q8 Q9 Q10 Q11 Q12 Q13 Q14]. rewrite on_source_put in *.
    split; rewrite ?on_source_put; cbn_state; try done; try congruence.
    + by apply Hmono.
    + by left.
    + by eapply insts_snoc.
    + etransitivity; [exact Q8|]. cbn. by rewrite L2.
    + intros _. split_and!; [|done|done|done].
      apply (waiting_snoc _ _ _ _ _ _ x); [by apply Hmono|done|]. by rewrite own_user_new, Hlen.
  - done.
Qed.

(** What a remote receive does before it returns: its name is sent and the ready
    barrier arrived at. *)
Definition after_ready k (target : RealmProc) (inst : Instance_) (pre : Event) (b : Barrier) c : Comm :=
  arrive b pre (spawn target (mkNameArgs k (Some b) inst) c).

(** A remote receive that does not know the ack barrier yet waits for it. *)
Lemma target_push_unacked k target inst pre G o r b c w :
  let u := next_user (w_rt w) in
  let x := mkEnd inst pre (user_event u) in
  Inv place h G o (put_entry (dst_space (place k)) k r c, w) ->
  is_local place k = false -> rm_space target = src_space (place k) -> is_Some inst ->
  target_ready_barrier r = Some b -> ack_done_barrier r = None ->
  Inv place h (upd G k (g_flying x (G k))) (own_user o u (k, Tgt, length (all_t (G k))))
    (put_entry (dst_space (place k)) k
       (with_dests (with_target_ready r (Some (advance_barrier b)))
          (pending_dest_reshards r ++ [mkPendingOp pre (Some u) inst]))
       (after_ready k target inst pre b c),
     after_user_event w).
Proof.
  intros u x I Hl Htgt Hinst Hb Hack. pose proof (inv_queue _ _ _ _ _ I k) as Q.
  destruct (q_target _ _ _ _ _ Q Hl) as (T1 & T2 & T3 & T4). rewrite on_target_put in T1, T2.
  rewrite Hb in T2. destruct (readied (G k)) eqn:Hre; [|done]. injection T2 as ->.
  specialize (T3 eq_refl).
  assert (Hac : acked (G k) = false).
  { destruct (acked (G k)) eqn:E; [|done].
    destruct (q_acked _ _ _ _ _ Q Hl E) as (Ha & _). rewrite on_target_put in Ha. congruence. }
  pose proof (all_t_flying x (G k)) as Hall.
  pose proof (length_all_t _ _ _ _ Q) as Hlen.
  eapply (Inv_step place h G o _ k _ _ _ []
    [((ready_id (G k), length (all_t (G k))), pre)] [] [] [x] [] [] []).
  - done.
  - split_only.
    + intros b' i e [= -> -> ->]%list_elem_of_singleton. exists false. exact T3.
    + intros u' y Hy. by apply (own_user_old _ _ _ _ _ _ _ I).
    + intros u' y [[-> ->]|?]%own_user_inv; [right|by left]. unfold users, u. cbn. split; [done|lia].
    + unfold users. cbn. lia.
    + intros k' names Hne. by rewrite in_flight_snoc_other.
  - split; rewrite ?app_nil_r; auto.
  - apply (NewLog_target k _ _ _ _ x); auto.
    + by intros b' i e [= -> -> ->]%list_elem_of_singleton.
    + cbn. congruence.
    + left. exists u. by rewrite own_user_new.
    + intros _. cbn. apply elem_of_app. right. by left.
  - assert (Hmono : forall side i l ops, waiting o k side i l ops ->
      waiting (own_user o u (k, Tgt, length (all_t (G k)))) k side i l ops).
    { intros side i l ops. apply waiting_mono. intros. by apply (own_user_old _ _ _ _ _ _ _ I). }
    destruct Q as [Q1 Q2 Q3 Q4 Q5 Q6 Q7 Q8 Q9 Q10 Q11 Q12 Q13 Q14].
    rewrite on_source_put_target, on_target_put in * by done.
    destruct (Q14 Hl Hac) as (U1 & U2 & U3).
    split; rewrite ?on_source_put_target, ?on_target_put by done; unfold after_ready;
      cbn_state; rewrite ?in_flight_name by done; try done; try congruence.
    + by apply Hmono.
    + by eapply insts_snoc.
    + rewrite Htgt. cbn. rewrite flying_snoc, <- Hlen. by rewrite <- Q8.
    + intros _. rewrite Hall, length_app, Nat.add_1_r. cbn. rewrite Hre. split_and!; try done.
    + intros _ Hf. cbn in Hf. congruence.
    + intros _ _. split_and!; [done| |by rewrite app_nil_r].
      rewrite Hall. apply (waiting_snoc _ _ _ _ _ _ x); [by apply Hmono|done|].
      by rewrite own_user_new.
  - done.
Qed.

(** A remote receive that knows the ack barrier returns its generation. *)
Lemma target_push_acked k target inst pre G o r b a c w :
  let x := mkEnd inst pre (barrier_ev a) in
  Inv place h G o (put_entry (dst_space (place k)) k r c, w) ->
  is_local place k = false -> rm_space target = src_space (place k) -> is_Some inst ->
  target_ready_barrier r = Some b -> ack_done_barrier r = Some a ->
  Inv place h (upd G k (g_flying x (G k))) o
    (put_entry (dst_space (place k)) k
       (with_ack (with_target_ready r (Some (advance_barrier b))) (Some (advance_barrier a)))
       (after_ready k target inst pre b c), w).
Proof.
  intros x I Hl Htgt Hinst Hb Hack. pose proof (inv_queue _ _ _ _ _ I k) as Q.
  destruct (q_target _ _ _ _ _ Q Hl) as (T1 & T2 & T3 & T4). rewrite on_target_put in T1, T2.
  rewrite Hb in T2. destruct (readied (G k)) eqn:Hre; [|done]. injection T2 as ->.
  specialize (T3 eq_refl).
  destruct (acked (G k)) eqn:Hac; cycle 1.
  { destruct (q_unacked _ _ _ _ _ Q Hl Hac) as (Ha & _). rewrite on_target_put in Ha. congruence. }
  destruct (q_acked _ _ _ _ _ Q Hl Hac) as (A1 & A2 & A3 & A4). rewrite on_target_put in A1, A2.
  rewrite Hack in A1. injection A1 as ->.
  destruct (q_ack _ _ _ _ _ Q Hl) as (_ & Hown & _). specialize (Hown A3).
  pose proof (all_t_flying x (G k)) as Hall.
  pose proof (length_all_t _ _ _ _ Q) as Hlen.
  eapply (Inv_step place h G o _ k _ _ _ []
    [((ready_id (G k), length (all_t (G k))), pre)] [] [] [x] [] [] []).
  - done.
  - split_only.
    + intros b' i e [= -> -> ->]%list_elem_of_singleton. by exists false.
    + intros k' names Hne. by rewrite in_flight_snoc_other.
  - split; rewrite ?app_nil_r; auto.
  - apply (NewLog_target k _ _ _ _ x); auto.
    + by intros b' i e [= -> -> ->]%list_elem_of_singleton.
    + intros _. cbn. apply elem_of_app. right. by left.
  - destruct Q as [Q1 Q2 Q3 Q4 Q5 Q6 Q7 Q8 Q9 Q10 Q11 Q12 Q13 Q14].
    rewrite on_source_put_target, on_target_put in * by done.
    split; rewrite ?on_source_put_target, ?on_target_put by done; unfold after_ready;
      cbn_state; rewrite ?in_flight_name by done; try done; try congruence.
    + by eapply insts_snoc.
    + rewrite Htgt. cbn. rewrite flying_snoc, <- Hlen. by rewrite <- Q8.
    + intros _. rewrite Hall, length_app, Nat.add_1_r. cbn. rewrite Hre. split_and!; try done.
    + intros _ _. rewrite Hall, length_app, Nat.add_1_r, app_nil_r. split_and!; done.
    + intros _ Hf. cbn in Hf. congruence.
  - done.
Qed.

(** *** Matches *)
Definition after_copy (cp : Copy) w : World := set_copies (w_copies w ++ [cp]) w.
Definition after_trigger (u : nat) (e : Event) w : World := set_rt (trigger u e (w_rt w)) w.

(** The copy of a matched pair. *)
Definition pair_copy k (x t : End_) (pre : Event) : Copy :=
  mkCopy _ (pl_shape (place k)) (pl_size (place k)) (e_inst x) (e_inst t) pre.

(** The event of a call is the copy's, or it is triggered with it. *)
Definition done_with (e : Event) (c : nat) (tg : list (nat * Event)) : Prop :=
  e = copy_event c \/ exists u, e = user_event u /\ (u, copy_event c) ∈ tg.

Definition ready_for k o g (t : End_) (i : nat) (ready : Event) : Prop :=
  if is_local place k then ready = e_pre t
  else barrier_owner o (ready_id g) = Some (k, false) /\ ready = barrier_event (ready_id g) i.

(** What a match must satisfy: [x] and [t] are paired by the copy [c]. *)
Lemma NewLog_match k g g' o (s s' : State) x t (c : nat) pre ready sn tn tg an :
  let n := length (matches g) in
  length (s_matched g) = n -> length (t_matched g) = n ->
  matches g' = matches g ++ [c] -> s_matched g' = s_matched g ++ [x] ->
  t_matched g' = t_matched g ++ [t] ->
  all_s g' = all_s g ++ sn -> all_t g' = all_t g ++ tn ->
  (sn = [] \/ sn = [x] /\ length (all_s g) = n /\ e_ret x = copy_event c) ->
  (tn = [] \/ tn = [t] /\ is_local place k = true /\ length (all_t g) = n /\ e_ret t = copy_event c) ->
  w_copies s'.2 !! c = Some (pair_copy k x t pre) ->
  (pre = merge_events [ready; e_pre x] \/ pre = merge_events [e_pre x; ready]) ->
  ready_for k o g' t n ready ->
  triggers s' = triggers s ++ tg -> c_arrivals s'.1 = c_arrivals s.1 ++ an ->
  (forall u e, (u, e) ∈ tg -> e = copy_event c /\
     (user_owner o u = Some (k, Src, n) \/
      is_local place k = true /\ user_owner o u = Some (k, Tgt, n))) ->
  (if is_local place k then an = []
   else an = [((ack_id g', n), copy_event c)] /\ barrier_owner o (ack_id g') = Some (k, true)) ->
  done_with (e_ret x) c tg ->
  (is_local place k = true -> done_with (e_ret t) c tg) ->
  acked g' = acked g -> NewLog place k g g' o s' tg an.
Proof.
  intros n Hls Hlt Hm Hs Ht Has Hat Hsn Htn Hc Hpre Hready Htr Harr Htg Han Hx Hy Hac.
  assert (Hnew : forall i (c' : nat), (n <= i)%nat -> matches g' !! i = Some c' -> i = n /\ c' = c)
    by (intros i c' Hi Hc'; by apply (lookup_snoc_new _ _ _ _ _ Hm)).
  assert (Hn : matches g' !! n = Some c) by (rewrite Hm; by apply list_lookup_middle).
  assert (Hxn : s_matched g' !! n = Some x) by (rewrite Hs; by apply list_lookup_middle).
  assert (Htn' : t_matched g' !! n = Some t) by (rewrite Ht; by apply list_lookup_middle).
  assert (Hdone : forall e, done_with e c tg ->
    e = copy_event c \/ exists u, e = user_event u /\ (u, copy_event c) ∈ triggers s').
  { intros e [?|(u & ? & ?)]; [by left|right]. exists u. rewrite Htr. set_solver. }
  split.
  - intros u i e Hin Hu. destruct (Htg u e Hin) as [-> [Ho|[_ Ho]]]; [|congruence].
    assert (i = n) as -> by congruence. by exists c.
  - intros u i e Hin Hu. destruct (Htg u e Hin) as [-> [Ho|[Hl Ho]]]; [congruence|].
    assert (i = n) as -> by congruence. rewrite Hl. by exists c.
  - intros b i e Hin Hb. destruct (is_local place k); [by rewrite Han in Hin; apply elem_of_nil in Hin|].
    destruct Han as [-> Ho]. apply list_elem_of_singleton in Hin as [= -> -> ->]. by exists c.
  - intros b i e Hin Hb. destruct (is_local place k); [by rewrite Han in Hin; apply elem_of_nil in Hin|].
    destruct Han as [-> Ho]. apply list_elem_of_singleton in Hin as [= -> -> ->]. congruence.
  - intros i c' Hi Hc'. destruct (Hnew i c' Hi Hc') as [-> ->]. exists x, t, pre.
    split_and!; try done. by exists ready.
  - intros i y Hi Hy'. destruct Hsn as [->|(-> & Hlen & He)].
    + rewrite app_nil_r in Has. apply lookup_lt_Some in Hy'. rewrite Has in Hy'. lia.
    + destruct (lookup_snoc_new _ _ _ _ _ Has Hi Hy') as [-> ->]. left. exists c. by rewrite Hlen.
  - intros i y Hi Hy'. destruct Htn as [->|(-> & Hl & Hlen & He)].
    + rewrite app_nil_r in Hat. apply lookup_lt_Some in Hy'. rewrite Hat in Hy'. lia.
    + destruct (lookup_snoc_new _ _ _ _ _ Hat Hi Hy') as [-> ->]. left. split; [done|].
      exists c. by rewrite Hlen.
  - intros i c' y Hi Hc' Hy'. destruct (Hnew i c' Hi Hc') as [-> ->].
    rewrite Hxn in Hy'. injection Hy' as <-. by apply Hdone.
  - intros i c' y Hl Hi Hc' Hy'. destruct (Hnew i c' Hi Hc') as [-> ->].
    rewrite Htn' in Hy'. injection Hy' as <-. by apply Hdone, Hy.
  - intros i c' Hl Hi Hc'. destruct (Hnew i c' Hi Hc') as [-> ->]. rewrite Hl in Han.
    destruct Han as [-> _]. rewrite Harr. set_solver.
  - intros i y Hl Ha Hy'. left. split; [congruence|].
    destruct Htn as [->|(_ & Hl' & _)]; [|congruence].
    rewrite app_nil_r in Hat. rewrite <- Hat. by eapply lookup_lt_Some.
  - intros i y Hl Hi Hy'. destruct Htn as [->|(_ & Hl' & _)]; [|congruence].
    rewrite app_nil_r in Hat. apply lookup_lt_Some in Hy'. rewrite Hat in Hy'. lia.
Qed.

(** The ghost state after the match of [x] and [t]; the other lists are what is
    left of the queues. *)
Definition g_pair (x t : End_) (i : nat) (sw tn tf : list End_) g : KeyGhost :=
  mkGhost (s_matched g ++ [x]) sw (t_matched g ++ [t]) tn tf (matches g ++ [i])
    (announced g) (readied g) (acked g) (ack_id g) (ready_id g).

Lemma Only_match k o c w cp tg an n r c' w' :
  w_heap w' = w_heap w -> triggered (w_rt w') = triggered (w_rt w) ++ tg ->
  next_user (w_rt w') = next_user (w_rt w) -> w_copies w' = w_copies w ++ [cp] ->
  c_arrivals c' = c_arrivals c ++ an -> c_barriers c' = c_barriers c ->
  (forall n' k', k' <> k -> entry n' k' c' = entry n' k' c) ->
  (forall k' names, k' <> k -> in_flight k' names (c_messages c') = in_flight k' names (c_messages c)) ->
  (forall u e, (u, e) ∈ tg -> exists x, user_owner o u = Some (k, x.1, x.2)) ->
  (forall b i e, ((b, i), e) ∈ an -> exists x, barrier_owner o b = Some (k, x)) ->
  Only k o o (c, w) (put_entry n k r c', w') tg an [cp].
Proof.
  intros Hh Ht Hn Hc Ha Hb He Hf Hu Hbo. split; try done; try (by left).
  - unfold users. cbn. lia.
  - cbn. lia.
  - intros n' k' Hne. cbn [fst]. rewrite put_other by done. by apply He.
Qed.

(** A send finds a receive that waits, in the same process. *)
Lemma source_match_local k inst pre G o r op rest c w :
  let i := length (w_copies w) in
  let x := mkEnd inst pre (copy_event i) in
  Inv place h G o (put_entry (src_space (place k)) k r c, w) ->
  is_local place k = true -> pending_dest_reshards r = op :: rest ->
  exists u t, op = mkPendingOp (e_pre t) (Some u) (e_inst t) /\
    let g' := g_pair x t i [] (tail (t_named (G k))) [] (G k) in
    all_s g' = all_s (G k) ++ [x] /\ all_t g' = all_t (G k) /\
    Inv place h (upd G k g') o
      (put_entry (src_space (place k)) k (with_dests r rest) c,
       after_trigger u (copy_event i)
         (after_copy (pair_copy k x t (merge_events [e_pre t; pre])) w)).
Proof.
  intros i x I Hl Hd. pose proof (inv_queue _ _ _ _ _ I k) as Q.
  destruct (q_local _ _ _ _ _ Q Hl) as (L1 & L2 & L3 & L4). rewrite on_source_put in L1, L3.
  rewrite Hd in L1. destruct (t_named (G k)) as [|t tn] eqn:Htn; [done|].
  destruct L1 as [(u & -> & Hret & Hown) L1].
  assert (Hsw : s_waiting (G k) = []) by (destruct (q_one_side _ _ _ _ _ Q); congruence).
  exists u, t. split; [done|]. intros g'. cbn [tail] in g'.
  assert (Has : all_s g' = all_s (G k) ++ [x]) by (unfold all_s; cbn; by rewrite Hsw, !app_nil_r).
  assert (Hat : all_t g' = all_t (G k)).
  { unfold all_t. cbn. by rewrite Htn, L2, !app_nil_r, <- (assoc_L (++)). }
  split; [done|]. split; [done|].
  assert (Hls := q_s_length _ _ _ _ _ Q). assert (Hlt := q_t_length _ _ _ _ _ Q).
  eapply (Inv_step place h G o _ k _ _ _ [(u, copy_event i)] [] [_] [x] [] [x] [t] [i]).
  - done.
  - apply Only_match; try done.
    + cbn. by rewrite app_nil_r.
    + intros n' k' Hne. by rewrite put_other.
    + intros u' e [= -> ->]%list_elem_of_singleton. by exists (Tgt, length (matches (G k))).
    + by intros ??? ?%elem_of_nil.
  - split; rewrite ?app_nil_r; try done; by left.
  - apply (NewLog_match k _ _ _ (put_entry (src_space (place k)) k r c, w) _ x t i
      (merge_events [e_pre t; pre]) (e_pre t) [x] []); try done; rewrite ?app_nil_r; try done.
    + right. split_and!; try done. rewrite (length_all_s _ _ _ _ Q), Hsw. cbn. lia.
    + by left.
    + cbn. by rewrite list_lookup_middle.
    + by left.
    + unfold ready_for. by rewrite Hl.
    + intros u' e [= -> ->]%list_elem_of_singleton. split; [done|]. by right.
    + by rewrite Hl.
    + by left.
    + intros _. right. exists u. split; [done|]. by apply list_elem_of_singleton.
  - destruct Q as [Q1 Q2 Q3 Q4 Q5 Q6 Q7 Q8 Q9 Q10 Q11 Q12 Q13 Q14]. rewrite on_source_put in *.
    rewrite Hsw in Q1.
    split; rewrite ?on_source_put; cbn_state; try congruence.
    + cbn. by destruct (pending_source_reshards r).
    + by left.
    + cbn. rewrite !length_app. cbn. lia.
    + cbn. rewrite !length_app. cbn. lia.
    + by rewrite Hat.
    + done.
    + done.
    + etransitivity; [exact Q8|]. by rewrite L2.
    + intros _. split_and!; [|done|done|done]. cbn. by rewrite length_app, Nat.add_1_r.
  - done.
Qed.

(** A receive finds a send that waits, in the same process. *)
Lemma target_match_local k inst pre G o r op rest c w :
  let i := length (w_copies w) in
  let t := mkEnd inst pre (copy_event i) in
  Inv place h G o (put_entry (src_space (place k)) k r c, w) ->
  is_local place k = true -> pending_source_reshards r = op :: rest -> is_Some inst ->
  exists u x, op = mkPendingOp (e_pre x) (Some u) (e_inst x) /\
    let g' := g_pair x t i (tail (s_waiting (G k))) [] [] (G k) in
    all_s g' = all_s (G k) /\ all_t g' = all_t (G k) ++ [t] /\
    Inv place h (upd G k g') o
      (put_entry (src_space (place k)) k (with_sources r rest) c,
       after_trigger u (copy_event i)
         (after_copy (pair_copy k x t (merge_events [e_pre x; pre])) w)).
Proof.
  intros i t I Hl Hd Hinst. pose proof (inv_queue _ _ _ _ _ I k) as Q.
  destruct (q_local _ _ _ _ _ Q Hl) as (L1 & L2 & L3 & L4). rewrite on_source_put in L1, L3.
  pose proof (q_sources _ _ _ _ _ Q) as Hw. rewrite on_source_put, Hd in Hw.
  destruct (s_waiting (G k)) as [|x sw] eqn:Hsw; [done|].
  destruct Hw as [(u & -> & Hret & Hown) Hw].
  assert (Htn : t_named (G k) = []) by (destruct (q_one_side _ _ _ _ _ Q); congruence).
  exists u, x. split; [done|]. intros g'. cbn [tail] in g'.
  assert (Has : all_s g' = all_s (G k)) by (unfold all_s; cbn; by rewrite Hsw, <- (assoc_L (++))).
  assert (Hat : all_t g' = all_t (G k) ++ [t]) by (unfold all_t; cbn; by rewrite Htn, L2, !app_nil_r).
  split; [done|]. split; [done|].
  assert (Hls := q_s_length _ _ _ _ _ Q). assert (Hlt := q_t_length _ _ _ _ _ Q).
  eapply (Inv_step place h G o _ k _ _ _ [(u, copy_event i)] [] [_] [] [t] [x] [t] [i]).
  - done.
  - apply Only_match; try done.
    + cbn. by rewrite app_nil_r.
    + intros n' k' Hne. by rewrite put_other.
    + intros u' e [= -> ->]%list_elem_of_singleton. by exists (Src, length (matches (G k))).
    + by intros ??? ?%elem_of_nil.
  - split; rewrite ?app_nil_r; try done; by left.
  - apply (NewLog_match k _ _ _ (put_entry (src_space (place k)) k r c, w) _ x t i
      (merge_events [e_pre x; pre]) pre [] [t]); try done; rewrite ?app_nil_r; try done.
    + by left.
    + right. split_and!; try done. rewrite (length_all_t _ _ _ _ Q), Htn, L2. cbn. lia.
    + cbn. by rewrite list_lookup_middle.
    + by right.
    + unfold ready_for. by rewrite Hl.
    + intros u' e [= -> ->]%list_elem_of_singleton. split; [done|]. by left.
    + by rewrite Hl.
    + right. exists u. split; [done|]. by apply list_elem_of_singleton.
    + intros _. by left.
  - destruct Q as [Q1 Q2 Q3 Q4 Q5 Q6 Q7 Q8 Q9 Q10 Q11 Q12 Q13 Q14]. rewrite on_source_put in *.
    rewrite Htn in L1.
    split; rewrite ?on_source_put; cbn_state; try congruence.
    + cbn. by rewrite length_app, Nat.add_1_r.
    + by right.
    + cbn. rewrite !length_app. cbn. lia.
    + cbn. rewrite !length_app. cbn. lia.
    + by eapply insts_snoc.
    + done.
    + intros _. apply Q7. by rewrite Hsw.
    + etransitivity; [exact Q8|]. by rewrite L2.
    + intros _. split_and!; [|done|done|done]. cbn. by destruct (pending_dest_reshards r).
  - done.
Qed.

(** A send finds the name of a remote receive. *)
(** A target that was called has made its ready barrier. *)
Lemma ready_owned k g o s : KeyQueue place k g o s -> is_local place k = false -> all_t g <> [] ->
  barrier_owner o (ready_id g) = Some (k, false).
Proof.
  intros Q Hl Hne. destruct (q_target _ _ _ _ _ Q Hl) as (_ & _ & T3 & T4).
  apply T3. destruct (readied g) eqn:E; [done|]. by destruct (T4 eq_refl) as [Hnil _].
Qed.

(** The queues after a source took the first target whose name it has. *)
Lemma queue_source_match k r c w w' x t tn i e g o :
  KeyQueue place k g o (put_entry (src_space (place k)) k r c, w) ->
  is_local place k = false -> announced g = true -> s_waiting g = [] -> t_named g = t :: tn ->
  let g' := g_pair x t i [] tn (t_flying g) g in
  all_t g' = all_t g ->
  KeyQueue place k g' o
    (put_entry (src_space (place k)) k
       (with_dests (with_ack r (Some (advance_barrier (ack_id g, length (matches g)))))
          (named (ready_id g) (S (length (matches g))) tn))
       (arrive (ack_id g, length (matches g)) e c), w').
Proof.
  intros Q Hl Han Hsw Htn g' Hat.
  assert (Hls := q_s_length _ _ _ _ _ Q). assert (Hlt := q_t_length _ _ _ _ _ Q).
  destruct (q_ack _ _ _ _ _ Q Hl) as (_ & A2 & _). specialize (A2 Han).
  destruct Q as [Q1 Q2 Q3 Q4 Q5 Q6 Q7 Q8 Q9 Q10 Q11 Q12 Q13 Q14]. rewrite on_source_put in *.
  rewrite on_target_put_source in * by done. rewrite Hsw in Q1.
  split; rewrite ?on_source_put, ?on_target_put_source by done; cbn_state; try congruence.
  - cbn. by destruct (pending_source_reshards r).
  - by left.
  - cbn. rewrite !length_app. cbn. lia.
  - cbn. rewrite !length_app. cbn. lia.
  - by rewrite Hat.
  - done.
  - done.
  - etransitivity; [exact Q8|]. f_equal. cbn. rewrite length_app, Htn. cbn. lia.
  - intros _. cbn. by rewrite length_app, Nat.add_1_r.
  - intros _. cbn. rewrite Han, length_app, Nat.add_1_r. split_and!; done.
  - intros _. rewrite Hat. by apply Q12.
  - intros _ Ha. rewrite Hat. by apply (Q13 Hl).
  - intros _ Ha. rewrite Hat. by apply (Q14 Hl).
Qed.

Lemma source_match_remote k inst pre G o r op rest c w :
  let i := length (w_copies w) in
  let x := mkEnd inst pre (copy_event i) in
  Inv place h G o (put_entry (src_space (place k)) k r c, w) ->
  is_local place k = false -> announced (G k) = true -> pending_dest_reshards r = op :: rest ->
  exists b t, ack_done_barrier r = Some b /\
    op = mkPendingOp (barrier_event (ready_id (G k)) (length (matches (G k)))) None (e_inst t) /\
    let g' := g_pair x t i [] (tail (t_named (G k))) (t_flying (G k)) (G k) in
    all_s g' = all_s (G k) ++ [x] /\ all_t g' = all_t (G k) /\
    Inv place h (upd G k g') o
      (put_entry (src_space (place k)) k (with_dests (with_ack r (Some (advance_barrier b))) rest)
         (arrive b (copy_event i) c),
       after_copy (pair_copy k x t (merge_events [precondition op; pre])) w).
Proof.
  intros i x I Hl Han Hd. pose proof (inv_queue _ _ _ _ _ I k) as Q.
  pose proof (q_named _ _ _ _ _ Q Hl) as Hn. rewrite on_source_put, Hd in Hn.
  destruct (q_ack _ _ _ _ _ Q Hl) as (A1 & A2 & A3). rewrite on_source_put, Han in A1.
  specialize (A2 Han).
  destruct (t_named (G k)) as [|t tn] eqn:Htn; [done|]. injection Hn as -> ->.
  assert (Hsw : s_waiting (G k) = []) by (destruct (q_one_side _ _ _ _ _ Q); congruence).
  exists (ack_id (G k), length (matches (G k))), t. split; [done|]. split; [done|].
  intros g'. cbn [tail] in g'.
  assert (Has : all_s g' = all_s (G k) ++ [x]) by (unfold all_s; cbn; by rewrite Hsw, !app_nil_r).
  assert (Hat : all_t g' = all_t (G k)).
  { unfold all_t. cbn. by rewrite Htn, <- (assoc_L (++)). }
  split; [done|]. split; [done|].
  assert (Hls := q_s_length _ _ _ _ _ Q). assert (Hlt := q_t_length _ _ _ _ _ Q).
  assert (Hown : barrier_owner o (ready_id (G k)) = Some (k, false)).
  { apply (ready_owned _ _ _ _ Q Hl). unfold all_t. rewrite Htn. by destruct (t_matched (G k)). }
  eapply (Inv_step place h G o _ k _ _ _ []
    [((ack_id (G k), length (matches (G k))), copy_event i)] [_] [x] [] [x] [t] [i]).
  - done.
  - apply Only_match; try done.
    + cbn. by rewrite app_nil_r.
    + intros n' k' Hne. by rewrite put_other.
    + by intros ?? ?%elem_of_nil.
    + intros b' j e [= -> -> ->]%list_elem_of_singleton. by exists true.
  - split; rewrite ?app_nil_r; try done; by left.
  - apply (NewLog_match k _ _ _ (put_entry (src_space (place k)) k r c, w) _ x t i
      (merge_events [barrier_event (ready_id (G k)) (length (matches (G k))); pre])
      (barrier_event (ready_id (G k)) (length (matches (G k)))) [x] []);
      try done; rewrite ?app_nil_r; try done.
    + right. split_and!; try done. rewrite (length_all_s _ _ _ _ Q), Hsw. cbn. lia.
    + by left.
    + cbn. by rewrite list_lookup_middle.
    + by left.
    + unfold ready_for. by rewrite Hl.
    + by intros ?? ?%elem_of_nil.
    + by rewrite Hl.
    + by left.
    + congruence.
  - by apply (queue_source_match k r c w).
  - done.
Qed.

(** *** Messages *)
Definition g_arrived (t : End_) (tf : list End_) g : KeyGhost :=
  mkGhost (s_matched g) (s_waiting g) (t_matched g) (t_named g ++ [t]) tf (matches g)
    (announced g) (readied g) (acked g) (ack_id g) (ready_id g).
Definition g_acked g : KeyGhost :=
  mkGhost (s_matched g) (s_waiting g) (t_matched g) (t_named g) (t_flying g) (matches g)
    (announced g) (readied g) true (ack_id g) (ready_id g).

(** The first name in flight. *)
Lemma name_in_flight k g o s x rest : KeyQueue place k g o s ->
  in_flight k true (c_messages s.1) = x :: rest ->
  exists t tf, t_flying g = t :: tf /\ is_local place k = false /\ is_Some (e_inst t) /\
    x = (src_space (place k), Some (ready_id g, (length (matches g) + length (t_named g))%nat), e_inst t) /\
    rest = flying (src_space (place k)) (ready_id g) (S (length (matches g) + length (t_named g))) tf.
Proof.
  intros Q Hx. rewrite (q_names _ _ _ _ _ Q) in Hx.
  destruct (t_flying g) as [|t tf] eqn:Htf; [done|]. injection Hx as <- <-. exists t, tf.
  assert (Hl : is_local place k = false).
  { destruct (is_local place k) eqn:E; [|done]. destruct (q_local _ _ _ _ _ Q E) as (_ & ? & _). congruence. }
  split_and!; try done. apply (q_insts _ _ _ _ _ Q). unfold all_t. rewrite Htf. set_solver.
Qed.

(** A name arrives before the send. *)
Lemma deliver_name_push k G o x rest l' c w :
  let r := entry (src_space (place k)) k c in
  Inv place h G o (c, w) -> in_flight k true (c_messages c) = x :: rest ->
  in_flight k true l' = rest ->
  (forall k' names, (k', names) <> (k, true) -> in_flight k' names l' = in_flight k' names (c_messages c)) ->
  pending_source_reshards r = [] ->
  exists b t, x = (src_space (place k), Some b, e_inst t) /\ is_Some (e_inst t) /\
    let g' := g_arrived t (tail (t_flying (G k))) (G k) in
    all_s g' = all_s (G k) /\ all_t g' = all_t (G k) /\
    Inv place h (upd G k g') o
      (put_entry (src_space (place k)) k
         (with_dests r (pending_dest_reshards r ++ [mkPendingOp (barrier_ev b) None (e_inst t)]))
         (with_messages l' c), w).
Proof.
  intros r I Hx Hrest Hother Hd. pose proof (inv_queue _ _ _ _ _ I k) as Q.
  destruct (name_in_flight _ _ _ _ _ _ Q Hx) as (t & tf & Htf & Hl & Hi & -> & ->).
  eexists _, t. split; [done|]. split; [done|]. rewrite Htf. intros g'. cbn [tail] in g'.
  assert (Hat : all_t g' = all_t (G k)) by (unfold all_t; cbn; by rewrite Htf, <- (assoc_L (++))).
  split; [done|]. split; [done|].
  assert (Hsw : s_waiting (G k) = []).
  { pose proof (q_sources _ _ _ _ _ Q) as Hw. change (on_source place k (c, w)) with r in Hw.
    rewrite Hd in Hw. by destruct (s_waiting (G k)). }
  eapply (Inv_step place h G o _ k _ _ _ [] [] [] [] [] [] [] []).
  - done.
  - split_only. intros k' names Hne. apply Hother. congruence.
  - apply Grows_none; auto.
  - by apply NewLog_none.
  - destruct Q as [Q1 Q2 Q3 Q4 Q5 Q6 Q7 Q8 Q9 Q10 Q11 Q12 Q13 Q14].
    change (on_source place k (c, w)) with r in *.
    assert (Hacks : in_flight k false l' = in_flight k false (c_messages c)) by by apply Hother.
    split; rewrite ?on_source_put, ?on_target_put_source by done; cbn_state; try done; try congruence.
    + by left.
    + by rewrite Hat.
    + rewrite Hrest. f_equal. cbn. rewrite length_app. cbn. lia.
    + intros _. cbn. rewrite (Q10 Hl), named_snoc. done.
    + intros _. rewrite Hat. by apply Q12.
    + intros _ Ha. rewrite Hat, Hacks. by apply Q13.
    + intros _ Ha. rewrite Hat, Hacks. by apply Q14.
  - done.
Qed.

(** A name meets a send that waits. *)
(** The queues after a name met the first send that waited for one. *)
Lemma queue_name_match k r l' c w w' y t sw tf i e g o op ops :
  KeyQueue place k g o (c, w) -> entry (src_space (place k)) k c = r ->
  is_local place k = false -> announced g = true ->
  s_waiting g = y :: sw -> t_named g = [] -> t_flying g = t :: tf ->
  pending_source_reshards r = op :: ops ->
  in_flight k true l' = flying (src_space (place k)) (ready_id g) (S (length (matches g))) tf ->
  in_flight k false l' = in_flight k false (c_messages c) ->
  let g' := g_pair y t i sw [] tf g in
  all_s g' = all_s g -> all_t g' = all_t g ->
  KeyQueue place k g' o
    (put_entry (src_space (place k)) k
       (with_sources (with_ack r (Some (advance_barrier (ack_id g, length (matches g))))) ops)
       (arrive (ack_id g, length (matches g)) e (with_messages l' c)), w').
Proof.
  intros Q Hr Hl Han Hsw Htn Htf Hd Hrest Hacks g' Has Hat.
  assert (Hls := q_s_length _ _ _ _ _ Q). assert (Hlt := q_t_length _ _ _ _ _ Q).
  pose proof (q_sources _ _ _ _ _ Q) as Hw. change (on_source place k (c, w)) with (entry (src_space (place k)) k c) in Hw.
  rewrite Hr, Hd, Hsw in Hw. destruct Hw as [_ Hw].
  assert (Hex : exists_ r = true) by (rewrite <- Hr; apply (q_exists _ _ _ _ _ Q); by rewrite Hsw).
  destruct (q_ack _ _ _ _ _ Q Hl) as (_ & A2 & _). specialize (A2 Han).
  destruct Q as [Q1 Q2 Q3 Q4 Q5 Q6 Q7 Q8 Q9 Q10 Q11 Q12 Q13 Q14].
  change (on_source place k (c, w)) with (entry (src_space (place k)) k c) in *. rewrite Hr in *.
  split; rewrite ?on_source_put, ?on_target_put_source by done; cbn_state; try congruence.
  - cbn. by rewrite length_app, Nat.add_1_r.
  - by right.
  - cbn. rewrite !length_app. cbn. lia.
  - cbn. rewrite !length_app. cbn. lia.
  - by rewrite Hat.
  - done.
  - rewrite Hrest. f_equal. cbn. rewrite length_app. cbn. lia.
  - intros _. cbn. by rewrite (Q10 Hl), Htn.
  - intros _. cbn. rewrite Han, length_app, Nat.add_1_r. split_and!; done.
  - intros _. rewrite Hat. by apply Q12.
  - intros _ Ha. rewrite Hat, Hacks. by apply Q13.
  - intros _ Ha. rewrite Hat, Hacks. destruct (Q14 Hl Ha) as (?&?&?).
    by split_and!.
Qed.

Lemma deliver_name_match k G o x rest l' op ops c w :
  let r := entry (src_space (place k)) k c in
  let i := length (w_copies w) in
  Inv place h G o (c, w) -> in_flight k true (c_messages c) = x :: rest ->
  in_flight k true l' = rest ->
  (forall k' names, (k', names) <> (k, true) -> in_flight k' names l' = in_flight k' names (c_messages c)) ->
  pending_source_reshards r = op :: ops ->
  exists b a t y u, x = (src_space (place k), Some b, e_inst t) /\ is_Some (e_inst t) /\
    op = mkPendingOp (e_pre y) (Some u) (e_inst y) /\ ack_done_barrier r = Some a /\
    p2p_shape r = Some (pl_shape (place k)) /\ field_size r = pl_size (place k) /\
    let g' := g_pair y t i (tail (s_waiting (G k))) [] (tail (t_flying (G k))) (G k) in
    all_s g' = all_s (G k) /\ all_t g' = all_t (G k) /\
    Inv place h (upd G k g') o
      (put_entry (src_space (place k)) k (with_sources (with_ack r (Some (advance_barrier a))) ops)
         (arrive a (copy_event i) (with_messages l' c)),
       after_trigger u (copy_event i)
         (after_copy (pair_copy k y t (merge_events [barrier_ev b; e_pre y])) w)).
Proof.
  intros r i I Hx Hrest Hother Hd. pose proof (inv_queue _ _ _ _ _ I k) as Q.
  destruct (name_in_flight _ _ _ _ _ _ Q Hx) as (t & tf & Htf & Hl & Hi & -> & ->).
  pose proof (q_sources _ _ _ _ _ Q) as Hw. change (on_source place k (c, w)) with r in Hw.
  rewrite Hd in Hw. destruct (s_waiting (G k)) as [|y sw] eqn:Hsw; [done|].
  destruct Hw as [(u & -> & Hret & Hown) Hw].
  assert (Htn : t_named (G k) = []) by (destruct (q_one_side _ _ _ _ _ Q); congruence).
  destruct (q_ack _ _ _ _ _ Q Hl) as (A1 & A2 & A3).
  destruct (announced (G k)) eqn:Han; cycle 1.
  { destruct (A3 eq_refl) as [Hnil _]. unfold all_s in Hnil. rewrite Hsw in Hnil.
    by apply app_eq_nil in Hnil as [_ ?]. }
  specialize (A2 eq_refl). change (on_source place k (c, w)) with r in A1.
  assert (Hex : exists_ r = true) by (apply (q_exists _ _ _ _ _ Q); by rewrite Hsw).
  destruct (q_described _ _ _ _ _ Q Hex) as [Hsh Hfs].
  eexists _, _, t, y, u. do 6 (split; [done|]). rewrite Htf. intros g'. cbn [tail] in g'.
  assert (Has : all_s g' = all_s (G k)) by (unfold all_s; cbn; by rewrite Hsw, <- (assoc_L (++))).
  assert (Hat : all_t g' = all_t (G k)) by (unfold all_t; cbn; by rewrite Htn, Htf, <- (assoc_L (++))).
  split; [done|]. split; [done|].
  assert (Hls := q_s_length _ _ _ _ _ Q). assert (Hlt := q_t_length _ _ _ _ _ Q).
  assert (Hready : barrier_owner o (ready_id (G k)) = Some (k, false)).
  { apply (ready_owned _ _ _ _ Q Hl). unfold all_t. rewrite Htn, Htf. by destruct (t_matched (G k)). }
  rewrite Htn, Nat.add_0_r in *.
  eapply (Inv_step place h G o _ k _ _ _ [(u, copy_event i)]
    [((ack_id (G k), length (matches (G k))), copy_event i)] [_] [] [] [y] [t] [i]).
  - done.
  - apply Only_match; try done.
    + intros k' names Hne. apply Hother. congruence.
    + intros u' e [= -> ->]%list_elem_of_singleton. by exists (Src, length (matches (G k))).
    + intros b' j e [= -> -> ->]%list_elem_of_singleton. by exists true.
  - split; rewrite ?app_nil_r; try done; by left.
  - apply (NewLog_match k _ _ _ (c, w) _ y t i
      (merge_events [barrier_event (ready_id (G k)) (length (matches (G k))); e_pre y])
      (barrier_event (ready_id (G k)) (length (matches (G k)))) [] []);
      try done; rewrite ?app_nil_r; try done.
    + by left.
    + by left.
    + cbn. by rewrite list_lookup_middle.
    + by left.
    + unfold ready_for. by rewrite Hl.
    + intros u' e [= -> ->]%list_elem_of_singleton. split; [done|]. by left.
    + by rewrite Hl.
    + right. exists u. split; [done|]. by apply list_elem_of_singleton.
    + congruence.
  - apply (queue_name_match k r l' c w _ y t sw tf i _ (G k) o (mkPendingOp (e_pre y) (Some u) (e_inst y))); try done.
    by apply Hother.
  - done.
Qed.

(** The state after several triggers. *)
Definition after_triggers (tg : list (nat * Event)) w : World :=
  set_rt (mkRuntime (next_user (w_rt w)) (triggered (w_rt w) ++ tg) (released (w_rt w))
            (deleted (w_rt w)) (pending_ops (w_rt w))) w.

Lemma after_triggers_nil w : after_triggers [] w = w.
Proof. unfold after_triggers. rewrite app_nil_r. by destruct w as [[] ? ? ? ? ? ? ? ?]. Qed.

(** Serving the receives that wait for the ack barrier. *)
Lemma ack_pending_ok k o a i l ops c w :
  waiting o k Tgt i l ops ->
  exists tg, ack_pending (a, i) ops (c, w) = (Ret (a, (i + length l)%nat), (c, after_triggers tg w)) /\
    (forall u e, (u, e) ∈ tg -> exists j, user_owner o u = Some (k, Tgt, j) /\ e = barrier_event a j) /\
    (forall j t, l !! j = Some t ->
       exists u, e_ret t = user_event u /\ (u, barrier_event a (i + j)) ∈ tg).
Proof.
  revert i ops w. induction l as [|t l IH]; intros i [|op ops] w Hw; try done.
  - exists []. cbn. rewrite after_triggers_nil, Nat.add_0_r. split; [done|]. split.
    + by intros ?? ?%elem_of_nil.
    + by intros [].
  - destruct Hw as [(u & -> & Hret & Hown) Hw].
    destruct (IH (S i) ops (after_trigger u (barrier_event a i) w) Hw) as (tg & E & Htg & Hl).
    exists ((u, barrier_event a i) :: tg). split; [|split].
    + cbn [ack_pending]. erewrite sm_bind_ret by done. cbn [length].
      rewrite Nat.add_succ_r. etransitivity; [exact E|]. do 2 f_equal.
      unfold after_triggers, after_trigger. cbn. by rewrite <- (assoc_L (++)).
    + intros u' e [[= -> ->]|Hin]%elem_of_cons; [by exists i|by apply Htg].
    + intros [|j] t' Hj; cbn in Hj.
      * injection Hj as <-. exists u. rewrite Nat.add_0_r. split; [done|]. set_solver.
      * destruct (Hl j t' Hj) as (u' & He & Hin). exists u'. rewrite <- Nat.add_succ_comm.
        split; [done|]. set_solver.
Qed.

(** The ack barrier arrives at the target's process. *)
Lemma deliver_ack k G o x rest l' c w :
  let r := entry (dst_space (place k)) k c in
  Inv place h G o (c, w) -> in_flight k false (c_messages c) = x :: rest ->
  in_flight k false l' = rest ->
  (forall k' names, (k', names) <> (k, false) -> in_flight k' names l' = in_flight k' names (c_messages c)) ->
  exists a tg, x = (dst_space (place k), Some a, None) /\
    ack_pending a (pending_dest_reshards r) (with_messages l' c, w) =
      (Ret (a.1, length (all_t (G k))), (with_messages l' c, after_triggers tg w)) /\
    Inv place h (upd G k (g_acked (G k))) o
      (put_entry (dst_space (place k)) k
         (with_dests (with_ack r (Some (a.1, length (all_t (G k))))) []) (with_messages l' c),
       after_triggers tg w).
Proof.
  intros r I Hx Hrest Hother. pose proof (inv_queue _ _ _ _ _ I k) as Q.
  cbn [fst] in *.
  assert (Hl : is_local place k = false).
  { destruct (is_local place k) eqn:E; [|done]. destruct (q_local _ _ _ _ _ Q E) as (_&_&_&Hn).
    cbn [fst] in Hn. congruence. }
  destruct (acked (G k)) eqn:Hac.
  { destruct (q_acked _ _ _ _ _ Q Hl Hac) as (_&_&_&Hn). cbn [fst] in Hn. congruence. }
  destruct (q_unacked _ _ _ _ _ Q Hl Hac) as (U1 & U2 & U3). cbn [fst] in U3.
  change (on_target place k (c, w)) with r in U1, U2.
  rewrite Hx in U3. destruct (announced (G k)) eqn:Han; [|done]. injection U3 as -> ->.
  destruct (q_ack _ _ _ _ _ Q Hl) as (_ & A2 & _). specialize (A2 Han).
  destruct (ack_pending_ok k o (ack_id (G k)) 0 (all_t (G k)) _ (with_messages l' c) w U2)
    as (tg & E & Htg & Hdone).
  exists (ack_id (G k), 0%nat), tg. split; [done|]. split; [exact E|]. cbn [fst].
  eapply (Inv_step place h G o _ k _ _ _ tg [] [] [] [] [] [] []).
  - done.
  - split; try done; try (by left).
    + cbn. by rewrite app_nil_r.
    + cbn. by rewrite app_nil_r.
    + intros u e Hin. destruct (Htg u e Hin) as (j & Hj & _). by exists (Tgt, j).
    + by intros ??? ?%elem_of_nil.
    + intros n' k' Hne. cbn [fst]. by rewrite put_other.
    + intros k' names Hne. apply Hother. congruence.
  - by apply Grows_none; auto.
  - split.
    + intros u i e Hin Hu. destruct (Htg u e Hin) as (j & Hj & _). congruence.
    + intros u i e Hin Hu. destruct (Htg u e Hin) as (j & Hj & ->).
      assert (j = i) as -> by congruence. by rewrite Hl.
    + by intros ??? ?%elem_of_nil.
    + by intros ??? ?%elem_of_nil.
    + intros i c' Hi Hc%lookup_lt_Some. cbn in Hc. lia.
    + intros i y Hi Hc%lookup_lt_Some. change (all_s (g_acked (G k))) with (all_s (G k)) in Hc. lia.
    + intros i y Hi Hc%lookup_lt_Some. change (all_t (g_acked (G k))) with (all_t (G k)) in Hc. lia.
    + intros i c' y Hi Hc%lookup_lt_Some. cbn in Hc. lia.
    + intros i c' y _ Hi Hc%lookup_lt_Some. cbn in Hc. lia.
    + intros i c' _ Hi Hc%lookup_lt_Some. cbn in Hc. lia.
    + intros i t _ _ Ht. right; right. destruct (Hdone i t Ht) as (u & He & Hin). exists u.
      split; [done|]. unfold triggers. cbn. set_solver.
    + intros i y _ Hi Hc%lookup_lt_Some. change (all_t (g_acked (G k))) with (all_t (G k)) in Hc. lia.
  - destruct Q as [Q1 Q2 Q3 Q4 Q5 Q6 Q7 Q8 Q9 Q10 Q11 Q12 Q13 Q14].
    assert (Hnames : in_flight k true l' = in_flight k true (c_messages c)) by by apply Hother.
    split; rewrite ?on_target_put, ?on_source_put_target by done; cbn_state; try done; try congruence.
    by etransitivity; [exact Hnames|].
  - done.
Qed.
End Steps.
