(* ===== verification/Matching.v ===== *)
(** Schedules of the rendezvous protocol: every step of a valid schedule returns
    and preserves the invariant, and the theorem [rendezvous_pairs] that
    follows. *)
From stdpp Require Import base tactics list numbers option strings sets gmap.
From Stdlib Require Import ZArith Lia.
From S2P Require Import Prelude Events Mesh Shape Processor Tiles Handles Arrays.
From S2P Require Import ReshardManager Rendezvous Pairing PairingSteps.
Open Scope Z_scope.

Section Schedule.
Context `{RealmMemory} `{!RealmOps} `{!RealmMachine} (procs : ProcState).
Context (cells : nat -> option nat) (place : ReshardKey -> Placement) (h : list ShardedArray) {older : list Copy}.

Abbreviation State := (Comm * World)%type.
Implicit Types (k : ReshardKey) (o : Owners older) (c : Comm) (w : World).

(** The invariant does not depend on how the managers' maps are represented. *)
Lemma Inv_managers G o c c' w :
  Inv place h G o (c, w) -> (forall n k, entry n k c' = entry n k c) ->
  c_barriers c' = c_barriers c -> c_arrivals c' = c_arrivals c -> c_messages c' = c_messages c ->
  Inv place h G o (c', w).
Proof.
  intros I He Hb Ha Hm.
  assert (Hs : forall k, on_source place k (c', w) = on_source place k (c, w)) by (intros; apply He).
  assert (Ht : forall k, on_target place k (c', w) = on_target place k (c, w)) by (intros; apply He).
  split; cbn [fst snd]; rewrite ?Hb, ?Ha; try apply I.
  - intros k. pose proof (inv_queue _ _ _ _ _ I k) as Q. destruct Q.
    split; rewrite ?Hs, ?Ht; cbn [fst snd]; rewrite ?Hm; done.
  - intros k. pose proof (inv_log _ _ _ _ _ I k) as L. destruct L.
    split; cbn [fst snd]; rewrite ?Ha; done.
Qed.

Lemma entry_put_put n k r r' c n' k' :
  entry n' k' (put_entry n k r' c) = entry n' k' (put_entry n k r' (put_entry n k r c)).
Proof. rewrite !entry_put. by destruct (decide _). Qed.

Lemma entry_put_managers n k r c c' : c_managers c = c_managers c' ->
  forall n' k', entry n' k' (put_entry n k r c) = entry n' k' (put_entry n k r c').
Proof. intros Hm n' k'. rewrite !entry_put. destruct (decide _); [done|]. unfold entry. by rewrite Hm. Qed.

(** *** Operations *)
Lemma IssueCopy_ok shape sh fs a b pre c w : shape = Some sh ->
  IssueCopy shape fs a b pre (c, w) =
  (Ret (copy_event (length (w_copies w))), (c, after_copy (mkCopy _ sh fs a b pre) w)).
Proof. by intros ->. Qed.

Lemma trigger_event_ok u e c w : trigger_event (Some u) e (c, w) = (Ret tt, (c, after_trigger u e w)).
Proof. done. Qed.

Lemma new_user_event_ok c w :
  new_user_event (c, w) = (Ret (next_user (w_rt w)), (c, after_user_event w)).
Proof. done. Qed.

Lemma new_user_event_ok_bind {A} (f : nat -> SM State A) c w :
  (new_user_event ≫= f) (c, w) = f (next_user (w_rt w)) (c, after_user_event w).
Proof. done. Qed.

Lemma comm_modify_ok f c w : comm_modify f (c, w) = (Ret tt, (f c, w)).
Proof. done. Qed.

(** *** A send *)
Lemma upd_same G k g : upd G k g k = g.
Proof. unfold upd. by rewrite decide_True. Qed.

Lemma upd_other G k g k' : k' <> k -> upd G k g k' = G k'.
Proof. intros. unfold upd. by rewrite decide_False. Qed.

Lemma same_calls_refl G k : same_calls G (upd G k (G k)).
Proof. by apply same_calls_upd. Qed.

Lemma same_calls_trans G1 G2 G3 : same_calls G1 G2 -> same_calls G2 G3 -> same_calls G1 G3.
Proof. intros Ha Hb k. destruct (Ha k), (Hb k). split; congruence. Qed.

Lemma source_prepare k name target G o c w :
  let n := src_space (place k) in
  let d := described (entry n k c) (pl_size (place k)) (pl_shape (place k)) name in
  Inv place h G o (c, w) -> rm_space target = dst_space (place k) ->
  exists r c1 G1 o1,
    announce_ack k (negb (n =? dst_space (place k))) target d (c, w) = (Ret r, (c1, w)) /\
    Inv place h G1 o1 (put_entry n k r c1, w) /\ same_calls G G1 /\
    exists_ r = true /\ (is_local place k = false -> announced (G1 k) = true).
Proof.
  intros n d I Ht. pose proof (describe_source place h k name G o c w I) as I1. fold n d in I1.
  destruct (described_fields (entry n k c) (pl_size (place k)) (pl_shape (place k)) name)
    as (_ & _ & _ & _ & Hex). fold d in Hex.
  unfold announce_ack. change (n =? dst_space (place k)) with (is_local place k).
  pose proof (inv_queue _ _ _ _ _ I1 k) as Q. rewrite upd_same in Q.
  destruct (ack_done_barrier d) as [b|] eqn:Hack.
  - exists d, c, (upd G k (G k)), o. split_and!; try done; [apply same_calls_refl|].
    intros Hl. rewrite upd_same. destruct (q_ack _ _ _ _ _ Q Hl) as (A1 & _).
    rewrite on_source_put, Hack in A1. by destruct (announced (G k)).
  - destruct (is_local place k) eqn:Hl; cbn [negb].
    + exists d, c, (upd G k (G k)), o. split_and!; try done. apply same_calls_refl.
    + pose proof (announce_source place h k target _ o d c w I1 Ht Hl Hack) as I2. cbn zeta in I2.
      eexists _, _, _, _. split; [reflexivity|]. split_and!; [eapply Inv_managers; [exact I2|..]| | |].
      * intros n' k'. rewrite !entry_put. destruct (decide _) as [|Hne]; done.
      * done.
      * done.
      * done.
      * eapply same_calls_trans; [apply same_calls_refl|]. by apply same_calls_upd; rewrite upd_same.
      * done.
      * intros _. by rewrite upd_same.
Qed.

(** The ghost state grows by the calls of a log. *)
Definition grows_by (log : list (Step * Event)) (G G' : ReshardKey -> KeyGhost) : Prop :=
  forall k, all_s (G' k) = all_s (G k) ++ sends cells h k log /\
            all_t (G' k) = all_t (G k) ++ receives h k log.

Lemma grows_by_source G G1 k g sc e :
  s_key sc = k -> same_calls G G1 ->
  all_s g = all_s (G1 k) ++ [source_end cells h sc e] -> all_t g = all_t (G1 k) ->
  grows_by [(DoSource sc, e)] G (upd G1 k g).
Proof.
  intros <- Hsame Hs Ht k'. unfold sends, receives. cbn. rewrite app_nil_r.
  destruct (Hsame k') as [Es Et]. destruct (decide (k' = s_key sc)) as [->|Hne].
  - rewrite upd_same, bool_decide_true by done. cbn. by rewrite Hs, Ht, Es, Et.
  - rewrite upd_other, bool_decide_false by congruence. cbn. by rewrite app_nil_r, Es, Et.
Qed.

Lemma grows_by_target G G1 k g sc e :
  t_key sc = k -> same_calls G G1 ->
  all_s g = all_s (G1 k) -> all_t g = all_t (G1 k) ++ [target_end h sc e] ->
  grows_by [(DoTarget sc, e)] G (upd G1 k g).
Proof.
  intros <- Hsame Hs Ht k'. unfold sends, receives. cbn. rewrite app_nil_r.
  destruct (Hsame k') as [Es Et]. destruct (decide (k' = t_key sc)) as [->|Hne].
  - rewrite upd_same, bool_decide_true by done. cbn. by rewrite Hs, Ht, Es, Et.
  - rewrite upd_other, bool_decide_false by congruence. cbn. by rewrite app_nil_r, Es, Et.
Qed.

Lemma put_shape G o k r c w : Inv place h G o (put_entry (src_space (place k)) k r c, w) ->
  exists_ r = true -> p2p_shape r = Some (pl_shape (place k)) /\ field_size r = pl_size (place k).
Proof.
  intros I Hex. pose proof (inv_queue _ _ _ _ _ I k) as Q.
  pose proof (q_described _ _ _ _ _ Q) as Hd. rewrite on_source_put in Hd. by apply Hd.
Qed.

Lemma source_core_step G o sc name target inst c w :
  let k := s_key sc in
  let pre := View_Precondition (s_src sc) in
  Inv place h G o (c, w) -> inst = e_inst (source_end cells h sc NO_EVENT) ->
  rm_space target = dst_space (place k) ->
  exists e s' G' o', source_core place k name target inst pre (c, w) = (Ret e, s') /\
    Inv place h G' o' s' /\ grows_by [(DoSource sc, e)] G G'.
Proof.
  intros k pre I Hinst Ht.
  unfold source_core. erewrite sm_bind_ret by done. cbn [fst].
  destruct (source_prepare k name target G o c w I Ht) as (r & c1 & G1 & o1 & E & I1 & Hsame & Hex & Han).
  erewrite sm_bind_ret by exact E. clear E.
  assert (Hend : forall e, source_end cells h sc e = mkEnd inst pre e) by (intros; by rewrite Hinst).
  destruct (put_shape _ _ _ _ _ _ I1 Hex) as [Hsh Hfs].
  destruct (pending_dest_reshards r) as [|op rest] eqn:Hd.
  - rewrite new_user_event_ok_bind. eexists _, _, _, _. split; [reflexivity|]. split.
    + by apply (source_push place h k inst pre G1 o1 r c1 w).
    + apply grows_by_source; [done|done| |done]. rewrite Hend. unfold all_s. cbn. by rewrite (assoc_L (++)).
  - change (src_space (place k) =? dst_space (place k)) with (is_local place k).
    destruct (is_local place k) eqn:Hl; cbn [negb].
    + destruct (source_match_local place h k inst pre G1 o1 r op rest c1 w I1 Hl Hd)
        as (u & t & -> & Hs & Ht' & I2).
      destruct (q_local _ _ _ _ _ (inv_queue _ _ _ _ _ I1 k) Hl) as (_ & _ & Hack & _).
      rewrite on_source_put in Hack. rewrite Hsh, Hfs, Hack.
      eexists _, _, _, _. split; [reflexivity|]. split; [exact I2|].
      apply grows_by_source; [done|done| |done]. by rewrite Hend.
    + destruct (source_match_remote place h k inst pre G1 o1 r op rest c1 w I1 Hl (Han eq_refl) Hd)
        as (b & t & Hack & -> & Hs & Ht' & I2).
      unfold RemoteCopyNextPendingToTarget. rewrite Hsh, Hfs, Hack.
      eexists _, _, _, _. split; [reflexivity|]. split; [exact I2|].
      apply grows_by_source; [done|done| |done]. by rewrite Hend.
Qed.

(** The regions that the profiler is asked for are no part of the protocol. *)
Lemma Inv_profiled G o p name start stop c w :
  Inv place h G o (c, w) ->
  exists w', profile_reshard p name start stop (c, w) = (Ret tt, (c, w')) /\
    Inv place h G o (c, w').
Proof.
  intros I. destruct name as [name|]; eexists; (split; [done|]); [|done].
  destruct I as [? ? ? ? ? Q L ? ?]. split; try done.
  - intros k. by destruct (Q k).
  - intros k. by destruct (L k).
Qed.

Lemma source_step G o sc c w :
  Inv place h G o (c, w) -> valid_source procs cells place h sc ->
  exists e s' G' o', do_step procs cells (DoSource sc) (c, w) = (Ret e, s') /\
    Inv place h G' o' s' /\ grows_by [(DoSource sc, e)] G G'.
Proof.
  intros I Hv. rewrite <- (inv_heap _ _ _ _ _ I) in Hv.
  destruct (source_call_core procs cells place sc (c, w) Hv)
    as (name & target & inst & Hinst & _ & Ht & profiled & ->).
  rewrite (inv_heap _ _ _ _ _ I) in Hinst.
  destruct (source_core_step G o sc name target inst c w I Hinst Ht) as (e & [c1 w1] & G' & o' & E & I' & Hg).
  destruct (Inv_profiled G' o' (s_proc sc) profiled (View_Precondition (s_src sc)) e c1 w1 I') as (w2 & E2 & I2).
  erewrite sm_bind_ret by exact E. erewrite sm_bind_ret by exact E2. by eexists _, _, _, _.
Qed.

(** *** A receive *)
Lemma target_end_eq sc inst e : inst = e_inst (target_end h sc NO_EVENT) ->
  target_end h sc e = mkEnd inst (Store_Precondition (t_dst sc)) e.
Proof. by intros ->. Qed.

(** A receive in the process of the source. *)
Lemma target_step_local G o sc c w :
  Inv place h G o (c, w) -> valid_target procs place h sc -> is_local place (t_key sc) = true ->
  exists e s' G' o', do_step procs cells (DoTarget sc) (c, w) = (Ret e, s') /\
    Inv place h G' o' s' /\ grows_by [(DoTarget sc, e)] G G'.
Proof.
  intros I Hv Hl. rewrite <- (inv_heap _ _ _ _ _ I) in Hv.
  destruct (target_call_core procs cells place sc (c, w) Hv)
    as (name & target & inst & Hinst & Hi & Ht & ->).
  rewrite (inv_heap _ _ _ _ _ I) in Hinst. clear Hv.
  set (k := t_key sc) in *. set (pre := Store_Precondition (t_dst sc)).
  pose proof (is_local_true place k Hl) as Hsd.
  unfold target_core. erewrite sm_bind_ret by done. cbn [fst]. rewrite <- Hsd, Z.eqb_refl.
  pose proof (describe_source place h k name G o c w I) as I1. cbn zeta in I1.
  destruct (described_fields (entry (src_space (place k)) k c) (pl_size (place k))
    (pl_shape (place k)) name) as (_ & _ & _ & _ & Hex). cbn zeta in Hex.
  cbn zeta. set (r := described _ _ _ _) in *.
  destruct (put_shape _ _ _ _ _ _ I1 Hex) as [Hsh Hfs].
  destruct (q_local _ _ _ _ _ (inv_queue _ _ _ _ _ I1 k) Hl) as (_ & _ & Hack & _).
  rewrite on_source_put in Hack.
  assert (Hend : forall e, target_end h sc e = mkEnd inst pre e) by (intros; by apply target_end_eq).
  destruct (pending_source_reshards r) as [|op rest] eqn:Hd.
  - erewrite sm_bind_ret by done. rewrite Hack, new_user_event_ok_bind.
    eexists _, _, _, _. split; [reflexivity|]. split.
    + by apply (target_push_local place h k inst pre (upd G k (G k)) o r c w).
    + apply (grows_by_target G (upd G k (G k))); [done|apply same_calls_refl|done|].
      rewrite Hend, upd_same. unfold all_t. cbn.
      destruct (q_local _ _ _ _ _ (inv_queue _ _ _ _ _ I k) Hl) as (_ & -> & _).
      by rewrite !app_nil_r, (assoc_L (++)).
  - destruct (target_match_local place h k inst pre (upd G k (G k)) o r op rest c w I1 Hl Hd Hi)
      as (u & x & -> & Hs & Ht' & I2).
    rewrite Hsh, Hfs. eexists _, _, _, _. split; [reflexivity|]. split; [exact I2|].
    apply (grows_by_target G (upd G k (G k))); [done|apply same_calls_refl|done|]. by rewrite Hend.
Qed.

(** The ready barrier of a remote receive exists, or is created. *)
Lemma ready_prepare k G o r c w :
  let n := dst_space (place k) in
  Inv place h G o (put_entry n k r c, w) -> is_local place k = false ->
  exists b c1 r1 G1 o1,
    (match target_ready_barrier r with
     | Some b => mret b
     | None => comm_state create_barrier
     end : SM State Barrier) (c, w) = (Ret b, (c1, w)) /\
    Inv place h G1 o1 (put_entry n k r1 c1, w) /\ same_calls G G1 /\
    target_ready_barrier r1 = Some b /\
    forall b', with_target_ready r1 b' = with_target_ready r b'.
Proof.
  intros n I Hl. destruct (target_ready_barrier r) as [b|] eqn:Hb.
  - exists b, c, r, G, o. by split_and!.
  - pose proof (ready_target place h k G o r c w I Hl Hb) as I2. cbn zeta in I2.
    eexists _, _, _, _, _. split; [reflexivity|]. split_and!; [eapply Inv_managers; [exact I2|..]| | |].
    + intros n' k'. rewrite !entry_put. destruct (decide _) as [|Hne]; done.
    + done.
    + done.
    + done.
    + by apply same_calls_upd.
    + done.
    + done.
Qed.

(** A receive in another process than the source's. *)
Lemma target_step_remote G o sc c w :
  Inv place h G o (c, w) -> valid_target procs place h sc -> is_local place (t_key sc) = false ->
  exists e s' G' o', do_step procs cells (DoTarget sc) (c, w) = (Ret e, s') /\
    Inv place h G' o' s' /\ grows_by [(DoTarget sc, e)] G G'.
Proof.
  intros I Hv Hl. rewrite <- (inv_heap _ _ _ _ _ I) in Hv.
  destruct (target_call_core procs cells place sc (c, w) Hv)
    as (name & target & inst & Hinst & Hi & Ht & ->).
  rewrite (inv_heap _ _ _ _ _ I) in Hinst. clear Hv.
  set (k := t_key sc) in *. set (pre := Store_Precondition (t_dst sc)).
  unfold target_core. erewrite sm_bind_ret by done. cbn [fst].
  change (src_space (place k) =? dst_space (place k)) with (is_local place k). rewrite Hl.
  pose proof (describe_target place h k name G o c w I) as I1. cbn zeta in I1.
  cbn zeta. set (r := described _ _ _ _) in *.
  destruct (q_target _ _ _ _ _ (inv_queue _ _ _ _ _ I1 k) Hl) as (Hsrc & _).
  rewrite on_target_put in Hsrc. rewrite Hsrc.
  destruct (ready_prepare k _ o r c w I1 Hl) as (b & c1 & r1 & G1 & o1 & E & I2 & Hsame & Hb & Hr1).
  assert (Hs : same_calls G G1) by (eapply same_calls_trans; [apply same_calls_refl|exact Hsame]).
  assert (Hend : forall e, target_end h sc e = mkEnd inst pre e) by (intros; by apply target_end_eq).
  assert (Ha : announce_target k target inst pre r (c, w) =
    (Ret (with_target_ready r1 (Some (advance_barrier b))), (after_ready k target inst pre b c1, w))).
  { unfold announce_target. erewrite sm_bind_ret by exact E. by rewrite Hr1. }
  erewrite sm_bind_ret by exact Ha. cbn [ack_done_barrier with_target_ready].
  destruct (ack_done_barrier r1) as [a|] eqn:Hack.
  - eexists _, _, _, _. split; [reflexivity|]. split.
    + by apply (target_push_acked place h k target inst pre G1 o1 r1 b a c1 w).
    + apply (grows_by_target G G1); [done|done|done|]. by rewrite Hend, all_t_flying.
  - rewrite new_user_event_ok_bind. eexists _, _, _, _. split; [reflexivity|]. split.
    + by apply (target_push_unacked place h k target inst pre G1 o1 r1 b c1 w).
    + apply (grows_by_target G G1); [done|done|done|]. by rewrite Hend, all_t_flying.
Qed.

(** *** A message *)
Lemma grows_by_none G G' k names e : same_calls G G' -> grows_by [(Deliver k names, e)] G G'.
Proof. intros Hs k'. destruct (Hs k') as [-> ->]. by rewrite !app_nil_r. Qed.

Lemma deliver_step G o k names c w :
  Inv place h G o (c, w) ->
  exists e s' G' o', do_step procs cells (Deliver k names) (c, w) = (Ret e, s') /\
    Inv place h G' o' s' /\ grows_by [(Deliver k names, e)] G G'.
Proof.
  intros I. pose proof (take_message_ok k names (c_messages c)) as Htake. cbn [do_step fst].
  destruct (in_flight k names (c_messages c)) as [|x rest] eqn:Hx.
  { rewrite Htake. exists NO_EVENT, (c, w), G, o. split_and!; [done|done|].
    apply grows_by_none. by intros k'. }
  destruct Htake as ([target args] & l' & -> & Hm & Hk & Hrest & Hother). cbn [snd] in *.
  unfold PointToPointNameHandler. rewrite Hk. unfold space.
  pose proof (inv_queue _ _ _ _ _ I k) as Q. unfold carried in Hm. cbn [fst snd] in Hm.
  destruct names.
  - destruct (pending_source_reshards (entry (src_space (place k)) k c)) as [|op ops] eqn:Hd.
    + destruct (deliver_name_push place h k G o x rest l' c w I Hx Hrest Hother Hd)
        as (b & t & -> & [i Hi] & Hs & Ht & I2). injection Hm as -> -> ->.
      unfold ReceivePointToPointNames. rewrite Hi in *.
      eexists _, _, _, _. split; [|split; [exact I2|by apply grows_by_none, same_calls_upd]].
      erewrite sm_bind_ret; [done|]. erewrite sm_bind_ret by done.
      cbn [fst]. change (entry _ k (with_messages l' c)) with (entry (src_space (place k)) k c).
      by rewrite Hd.
    + destruct (deliver_name_match place h k G o x rest l' op ops c w I Hx Hrest Hother Hd)
        as (b & a & t & y & u & -> & [i Hi] & -> & Hack & Hsh & Hfs & Hs & Ht & I2).
      injection Hm as -> -> ->. unfold ReceivePointToPointNames. rewrite Hi in *.
      eexists _, _, _, _. split; [|split; [exact I2|by apply grows_by_none, same_calls_upd]].
      erewrite sm_bind_ret; [done|]. erewrite sm_bind_ret by done.
      cbn [fst]. change (entry _ k (with_messages l' c)) with (entry (src_space (place k)) k c).
      rewrite Hd. unfold RemoteCopyNextPendingToTarget. rewrite Hsh, Hfs, Hack.
      unfold pair_copy. rewrite Hi. reflexivity.
  - destruct (deliver_ack place h k G o x rest l' c w I Hx Hrest Hother) as (a & tg & -> & E & I2).
    injection Hm as -> -> ->. unfold ReceivePointToPointNames.
    eexists _, _, _, _. split; [|split; [exact I2|by apply grows_by_none, same_calls_upd]].
    erewrite sm_bind_ret; [done|]. erewrite sm_bind_ret by done. cbn [fst].
    change (entry _ k (with_messages l' c)) with (entry (dst_space (place k)) k c).
    erewrite sm_bind_ret by exact E. done.
Qed.

(** *** Schedules *)
Lemma step_ok G o st s :
  Inv place h G o s -> valid_step procs cells place h st ->
  exists e s' G' o', do_step procs cells st s = (Ret e, s') /\
    Inv place h G' o' s' /\ grows_by [(st, e)] G G'.
Proof.
  destruct s as [c w]. intros I Hv. destruct st as [sc|sc|k names].
  - by apply source_step with o.
  - destruct (is_local place (t_key sc)) eqn:Hl.
    + by apply target_step_local with o.
    + by apply target_step_remote with o.
  - by apply deliver_step with o.
Qed.

Lemma grows_by_trans l1 l2 G1 G2 G3 :
  grows_by l1 G1 G2 -> grows_by l2 G2 G3 -> grows_by (l1 ++ l2) G1 G3.
Proof.
  intros Ha Hb k. destruct (Ha k) as [Es Et], (Hb k) as [Es' Et']. unfold sends, receives in *.
  rewrite !omap_app. split; [by rewrite Es', Es, (assoc_L (++))|by rewrite Et', Et, (assoc_L (++))].
Qed.

Lemma run_ok l G o s :
  Inv place h G o s -> Forall (valid_step procs cells place h) l ->
  exists log s' G' o', run procs cells l s = (Ret log, s') /\ log.*1 = l /\
    Inv place h G' o' s' /\ grows_by log G G'.
Proof.
  revert G o s. induction l as [|st l IH]; intros G o s I Hv.
  - exists [], s, G, o. split_and!; try done. intros k. by rewrite !app_nil_r.
  - apply Forall_cons in Hv as [Hst Hv].
    destruct (step_ok G o st s I Hst) as (e & s1 & G1 & o1 & E1 & I1 & Hg1).
    destruct (IH G1 o1 s1 I1 Hv) as (log & s2 & G2 & o2 & E2 & Hlog & I2 & Hg2).
    exists ((st, e) :: log), s2, G2, o2. split_and!.
    + cbn [run]. erewrite sm_bind_ret by exact E1. by erewrite sm_bind_ret by exact E2.
    + cbn. by rewrite Hlog.
    + done.
    + by apply (grows_by_trans [(st, e)] log G G1 G2).
Qed.
End Schedule.

(** ** The theorem *)
Section Theorem_.
Context `{RealmMemory} `{!RealmOps} `{!RealmMachine} (procs : ProcState).
Context (cells : nat -> option nat) (place : ReshardKey -> Placement).

Abbreviation State := (Comm * World)%type.

(** A state in which no reshard has begun; the runtime may have been used. *)
Definition quiet (s : State) : Prop :=
  (forall n, c_managers s.1 n = []) /\ c_messages s.1 = [] /\
  (forall b i e, ((b, i), e) ∈ c_arrivals s.1 -> (b < c_barriers s.1)%nat) /\
  (forall u e, (u, e) ∈ triggered (w_rt s.2) -> (u < next_user (w_rt s.2))%nat).

Definition no_ghost : KeyGhost := mkGhost [] [] [] [] [] [] false false false 0 0.
Definition no_owners (older : list Copy) : Owners older := mkOwners (fun _ => None) (fun _ => None).

Lemma quiet_Inv s : quiet s -> Inv place (w_heap s.2) (fun _ => no_ghost) (no_owners (w_copies s.2)) s.
Proof.
  intros (Hm & Hf & Ha & Ht).
  assert (He : forall n k, entry n k s.1 = no_reshard) by (intros; unfold entry; by rewrite Hm).
  split; try done; intros k.
  - assert (Hs : on_source place k s = no_reshard) by apply He.
    assert (Hd : on_target place k s = no_reshard) by apply He.
    split; rewrite ?Hs, ?Hd, ?Hf; try done; try (by left).
    intros t Hin. by apply elem_of_nil in Hin.
  - intros x Hx%lookup_lt_Some Hn. lia.
Qed.

(** The copy [c] is from the tile of [x] to the tile of [t], on the reshard's
    shape. *)
Definition copies_pair (k : ReshardKey) (x t : End_) (c : nat) (s : State) : Prop :=
  exists pre, w_copies s.2 !! c =
    Some (mkCopy _ (pl_shape (place k)) (pl_size (place k)) (e_inst x) (e_inst t) pre).

Section Consequences.
Context (h : list ShardedArray) {older : list Copy} (G : ReshardKey -> KeyGhost) (o : Owners older) (s : State).
Context (I : Inv place h G o s) (k : ReshardKey).
Let g := G k.
Let L := inv_log _ _ _ _ _ I k.
Let Q := inv_queue _ _ _ _ _ I k.

Lemma fired_ack fired i : possible_state fired s ->
  barrier_owner o (ack_id g) = Some (k, true) -> fired (barrier_event (ack_id g) i) ->
  exists c, matches g !! i = Some c /\ fired (copy_event c).
Proof.
  intros (_ & Hb & _) Ho Hf. destruct (Hb _ _ Hf) as (e & Hin & He).
  destruct (log_ack _ _ _ _ _ L _ _ _ Ho Hin) as (c & Hc & ->). by exists c.
Qed.

(** A call's event triggers only after the copy of a match. *)
Lemma fired_send fired i x : possible_state fired s -> all_s g !! i = Some x -> fired (e_ret x) ->
  exists c, matches g !! i = Some c /\ fired (copy_event c).
Proof.
  intros P Hx Hf. destruct (log_s_ret _ _ _ _ _ L i x Hx) as [(c & Hc & He)|(u & He & Hu)].
  - exists c. by rewrite <- He.
  - rewrite He in Hf. destruct P as (Hp & _). destruct (Hp u Hf) as (e & Hin & Hfe).
    destruct (log_source _ _ _ _ _ L u i e Hu Hin) as (c & Hc & ->). by exists c.
Qed.

Lemma fired_receive fired i t : possible_state fired s -> all_t g !! i = Some t -> fired (e_ret t) ->
  exists c, matches g !! i = Some c /\ fired (copy_event c).
Proof.
  intros P Ht Hf.
  destruct (log_t_ret _ _ _ _ _ L i t Ht) as [(_ & c & Hc & He)|[(u & He & Hu)|(_ & Ho & He)]];
    rewrite He in Hf.
  - by exists c.
  - destruct (proj1 P u Hf) as (e & Hin & Hfe).
    pose proof (log_target _ _ _ _ _ L u i e Hu Hin) as Hl. destruct (is_local place k).
    + destruct Hl as (c & Hc & ->). by exists c.
    + destruct Hl as [Ho ->]. by apply fired_ack.
  - by apply fired_ack.
Qed.

(** The copy of a match, and what it waits for. *)
Lemma match_copy i c : matches g !! i = Some c ->
  exists x t cp, all_s g !! i = Some x /\ all_t g !! i = Some t /\
    w_copies s.2 !! c = Some cp /\ copies_pair k x t c s /\
    forall fired, Moment fired -> possible_state fired s -> fired (cp_pre cp) ->
      fired (e_pre x) /\ fired (e_pre t).
Proof.
  intros Hc.
  destruct (log_copy _ _ _ _ _ L i c Hc) as (x & t & pre & Hx & Ht & Hcp & ready & Hpre & Hr).
  assert (Hat : all_t g !! i = Some t) by (by apply lookup_app_l_Some).
  exists x, t. eexists. split_and!; [by apply lookup_app_l_Some|done|exact Hcp|by exists pre|].
  cbn. intros fired HM (_ & Hb & _) Hfp.
  assert (Hfr : fired ready /\ fired (e_pre x)).
  { destruct Hpre as [->| ->]; apply (fired_merge2 (fired := fired)) in Hfp; tauto. }
  destruct Hfr as [Hfr Hfx]. split; [done|].
  destruct (is_local place k); [by rewrite <- Hr|]. destruct Hr as [Ho ->].
  destruct (Hb _ _ Hfr) as (e & Hin & He).
  destruct (log_ready _ _ _ _ _ L _ _ _ Ho Hin) as (t' & Ht' & ->).
  change (all_t (G k)) with (all_t g) in Ht'. rewrite Hat in Ht'. by injection Ht' as <-.
Qed.

Lemma fired_match fired i c `{!Moment fired} : possible_state fired s ->
  matches g !! i = Some c -> fired (copy_event c) ->
  exists x t, all_s g !! i = Some x /\ all_t g !! i = Some t /\ copies_pair k x t c s /\
    fired (e_pre x) /\ fired (e_pre t).
Proof.
  intros P Hc Hf. destruct (match_copy i c Hc) as (x & t & cp & Hx & Ht & Hcp & Hp & Hpre).
  exists x, t. destruct P as (Pu & Pb & Pc). pose proof (Pc _ _ Hcp Hf) as Hfp.
  split_and!; [done..|by apply (Hpre fired)|by apply (Hpre fired)].
Qed.

(** When no message of the reshard is in flight, the pairs are matched, and the target
    knows the ack barrier. *)
Lemma all_matched i x t : (forall m, m ∈ c_messages s.1 -> msg_key m.2 <> k) ->
  all_s g !! i = Some x -> all_t g !! i = Some t ->
  (i < length (matches g))%nat /\ (is_local place k = false -> acked g = true).
Proof.
  intros Hmsg Hx Ht.
  assert (Hnone : forall names, in_flight k names (c_messages s.1) = []).
  { intros names. induction (c_messages s.1) as [|m l IH]; [done|]. rewrite in_flight_cons.
    unfold selects. rewrite bool_decide_false by (apply Hmsg; set_solver). cbn.
    apply IH. intros m' Hm'. apply Hmsg. set_solver. }
  assert (Htf : t_flying g = []).
  { pose proof (q_names _ _ _ _ _ Q) as Hn. rewrite Hnone in Hn. fold g in Hn.
    by destruct (t_flying g). }
  split.
  - pose proof (length_all_s place k _ _ _ Q) as Ls. pose proof (length_all_t place k _ _ _ Q) as Lt.
    fold g in Ls, Lt. rewrite Htf in Lt. cbn in Lt. apply lookup_lt_Some in Hx, Ht.
    destruct (q_one_side _ _ _ _ _ Q) as [E|E]; fold g in E; rewrite E in *; cbn in *; lia.
  - intros Hl. destruct (acked g) eqn:E; [done|]. destruct (q_unacked _ _ _ _ _ Q Hl E) as (_ & _ & Hn).
    rewrite Hnone in Hn. destruct (announced (G k)) eqn:Ea; [done|].
    destruct (q_ack _ _ _ _ _ Q Hl) as (_ & _ & A3). destruct (A3 Ea) as [Hs _].
    unfold g in Hx. by rewrite Hs in Hx.
Qed.

Lemma settled i x t : (forall m, m ∈ c_messages s.1 -> msg_key m.2 <> k) ->
  all_s g !! i = Some x -> all_t g !! i = Some t ->
  exists c, copies_pair k x t c s /\ leads s (e_ret x) (copy_event c) /\
            leads s (e_ret t) (copy_event c).
Proof.
  intros Hmsg Hx Ht. destruct (all_matched i x t Hmsg Hx Ht) as [Hi Hacked].
  destruct (lookup_lt_is_Some_2 _ _ Hi) as [c Hc].
  destruct (log_copy _ _ _ _ _ L i c Hc) as (x' & t' & pre & Hx' & Ht' & Hcp & _).
  assert (Hx2 : all_s g !! i = Some x') by exact (lookup_app_l_Some _ _ _ _ Hx').
  assert (Ht2 : all_t g !! i = Some t') by exact (lookup_app_l_Some _ _ _ _ Ht').
  assert (x' = x) as -> by congruence. assert (t' = t) as -> by congruence.
  assert (Hlead : forall e, (e = copy_event c \/ exists u, e = user_event u /\ (u, copy_event c) ∈ triggers s) ->
    leads s e (copy_event c)).
  { intros e [->|(u & -> & Hin)]; [by apply leads_refl|]. eapply leads_user; [done|apply leads_refl]. }
  exists c. split; [by exists pre|]. split; [by apply Hlead, (log_s_done _ _ _ _ _ L i c x)|].
  destruct (is_local place k) eqn:Hl; [by apply Hlead, (log_t_done _ _ _ _ _ L i c t)|].
  pose proof (Hacked eq_refl) as Hac.
  pose proof (log_arrived _ _ _ _ _ L i c Hl Hc) as Harr.
  assert (Hb : leads s (barrier_event (ack_id g) i) (copy_event c))
    by (eapply leads_barrier; [done|apply leads_refl]).
  destruct (log_acked _ _ _ _ _ L i t Hl Hac Ht) as [->|(u & -> & Hin)]; [done|].
  by eapply leads_user.
Qed.

(** In a settled moment the copies of the pairs whose calls, and those before, need not
    wait any more are over, and so are the calls. *)
Lemma live_copy fired i c : Moment fired -> settled_state fired s -> matches g !! i = Some c ->
  (forall i' x t, (i' <= i)%nat -> all_s g !! i' = Some x -> all_t g !! i' = Some t ->
     fired (e_pre x) /\ fired (e_pre t)) ->
  fired (copy_event c).
Proof.
  intros HM (_ & Hb & Hcp) Hc Hpre.
  destruct (log_copy _ _ _ _ _ L i c Hc) as (x & t & pre & Hx & Ht & Hw & ready & Hp & Hr).
  assert (Has : all_s g !! i = Some x) by (by apply lookup_app_l_Some).
  assert (Hat : all_t g !! i = Some t) by (by apply lookup_app_l_Some).
  destruct (Hpre i x t ltac:(lia) Has Hat) as [Hfx Hft].
  assert (Hready : fired ready).
  { destruct (is_local place k) eqn:Hl; [by rewrite Hr|]. destruct Hr as [_ ->]. apply Hb. intros i' Hi'.
    assert (Hlt : (i' < length (all_s g) /\ i' < length (all_t g))%nat).
    { apply lookup_lt_Some in Has, Hat. lia. }
    destruct Hlt as [[x' Hx']%lookup_lt_is_Some_2 [t' Ht']%lookup_lt_is_Some_2].
    exists (e_pre t'). split; [by apply (log_readied _ _ _ _ _ L)|].
    by apply (Hpre i' x' t'). }
  apply (Hcp _ _ Hw). cbn. by destruct Hp as [->| ->]; apply fired_merge2.
Qed.

Lemma live_pair fired i x t : Moment fired -> settled_state fired s ->
  (forall m, m ∈ c_messages s.1 -> msg_key m.2 <> k) ->
  all_s g !! i = Some x -> all_t g !! i = Some t ->
  (forall i' x t, (i' <= i)%nat -> all_s g !! i' = Some x -> all_t g !! i' = Some t ->
     fired (e_pre x) /\ fired (e_pre t)) ->
  fired (e_ret x) /\ fired (e_ret t).
Proof.
  intros HM P Hmsg Hx Ht Hpre. destruct (all_matched i x t Hmsg Hx Ht) as [Hi Hacked].
  assert (Hcopy : forall i' c, (i' <= i)%nat -> matches g !! i' = Some c -> fired (copy_event c)).
  { intros i' c Hle Hc. apply (live_copy fired i' c HM P Hc). intros i2 x2 t2 Hle2. apply Hpre. lia. }
  destruct (lookup_lt_is_Some_2 _ _ Hi) as [c Hc].
  destruct (log_copy _ _ _ _ _ L i c Hc) as (x' & t' & pre & Hx' & Ht' & _).
  assert (Hx2 : all_s g !! i = Some x') by exact (lookup_app_l_Some _ _ _ _ Hx').
  assert (Ht2 : all_t g !! i = Some t') by exact (lookup_app_l_Some _ _ _ _ Ht').
  assert (x' = x) as -> by congruence. assert (t' = t) as -> by congruence.
  destruct P as (Pu & Pb & _). specialize (Hcopy i c ltac:(lia) Hc) as Hf.
  assert (Hdone : forall e, e = copy_event c \/ (exists u, e = user_event u /\ (u, copy_event c) ∈ triggers s) ->
    fired e) by (intros e [->|(u & -> & Hin)]; [done|by apply (Pu u (copy_event c))]).
  split; [by apply Hdone, (log_s_done _ _ _ _ _ L i c x)|].
  destruct (is_local place k) eqn:Hl; [by apply Hdone, (log_t_done _ _ _ _ _ L i c t)|].
  assert (Hack : fired (barrier_event (ack_id g) i)).
  { apply Pb. intros i' Hi'. destruct (lookup_lt_is_Some_2 (matches g) i' ltac:(lia)) as [c' Hc'].
    exists (copy_event c'). split; [by apply (log_arrived _ _ _ _ _ L)|by apply (Hcopy i')]. }
  destruct (log_acked _ _ _ _ _ L i t Hl (Hacked eq_refl) Ht) as [->|(u & -> & Hin)]; [done|].
  by apply (Pu u (barrier_event (ack_id g) i)).
Qed.
End Consequences.

(** C3: for every schedule of sends, receives and deliveries in any number of
    processes, the manager returns from every call; the [i]-th receive of a
    reshard is paired with its [i]-th send: the event returned to either of
    them can only have triggered when a copy from the send's tile to the
    receive's, on the shape of the reshard, is done, after what both waited
    for had triggered; and once no message of the reshard is in flight, the
    copy of every pair was issued and both events trigger with it. *)
Theorem rendezvous_pairs (s0 : State) (schedule : list Step) (Hquiet : quiet s0)
    (Hvalid : Forall (valid_step procs cells place (w_heap s0.2)) schedule) :
  exists log s, run procs cells schedule s0 = (Ret log, s) /\ log.*1 = schedule /\
    forall k i,
      (forall x t, sends cells (w_heap s0.2) k log !! i = Some x ->
         receives (w_heap s0.2) k log !! i = Some t ->
         (forall m, m ∈ c_messages s.1 -> msg_key m.2 <> k) ->
         exists c, copies_pair k x t c s /\ leads s (e_ret x) (copy_event c) /\
                   leads s (e_ret t) (copy_event c)) /\
      forall fired, Moment fired -> possible_state fired s ->
        (exists x, sends cells (w_heap s0.2) k log !! i = Some x /\ fired (e_ret x)) \/
        (exists t, receives (w_heap s0.2) k log !! i = Some t /\ fired (e_ret t)) ->
        exists x t c, sends cells (w_heap s0.2) k log !! i = Some x /\
          receives (w_heap s0.2) k log !! i = Some t /\ copies_pair k x t c s /\
          fired (copy_event c) /\ fired (e_pre x) /\ fired (e_pre t).
Proof.
  destruct (run_ok procs cells place (w_heap s0.2) schedule (fun _ => no_ghost) (no_owners (w_copies s0.2)) s0)
    as (log & s & G & o & E & Hlog & I & Hg); [by apply quiet_Inv|done|].
  exists log, s. split; [done|]. split; [done|]. intros k i. destruct (Hg k) as [Hs Ht]. cbn in Hs, Ht.
  split.
  - intros x t Hx Hy Hm. apply (settled _ G o s I k i x t Hm); congruence.
  - intros fired HM P Hf.
    assert (Hc : exists c, matches (G k) !! i = Some c /\ fired (copy_event c)).
    { destruct Hf as [(x & Hx & Hf)|(t & Hx & Hf)].
      - apply (fired_send _ G o s I k fired i x P); congruence.
      - apply (fired_receive _ G o s I k fired i t P); congruence. }
    destruct Hc as (c & Hc & Hfc).
    destruct (fired_match _ G o s I k fired i c P Hc Hfc) as (x & t & Hx & Hy & Hcp & Hfx & Hft).
    exists x, t, c. split_and!; [congruence|congruence|done..].
Qed.
End Theorem_.

(** ** A concrete run: two processes with one processor each *)
#[local] Instance example_memory : RealmMemory := {|
  Memory := unit;
  memory_query _ _ := tt;
  alloc_ready := op;
  alloc_succeeds _ _ _ := true;
|}.

#[local] Instance example_machine : RealmMachine := {|
  rm_kind _ := LOC_PROC;
  rm_space p := p;
  rm_spaces := 2;
  rm_query _ := [0; 1];
  rm_local _ := ∅;
|}.

Definition example_procs : ProcState :=
  mkProcState CPU (fun _ => []) (fun _ => [0; 1]) (fun _ => []).

Definition example_rect : RealmShape := mkRect [0] [3].

(** An array of four floats on the device [d], with or without its tile. *)
Definition example_array (d : Z) (tile : option nat) : ShardedArray :=
  mkArray d (mkShape F32 (mkSharding [mkDim 4 1 0] (mkDeviceList d 1))) 0 (mkProc CPU 0 d d) None
    (i ← tile; Some (mkTile (Some i) (mkTileShape F32 [4] example_rect) INT32)).

Definition example_key : ReshardKey :=
  mkKey (mkUniqueId 0 (mkDeviceList 0 1)) (mkUniqueId 1 (mkDeviceList 1 1)) 0 0.

Definition example_place (_ : ReshardKey) : Placement := mkPlacement 0 1 example_rect 4.

(** The source has two tiles to send, the target two to receive. *)
Definition example_state : Comm * World :=
  (mkComm (fun _ => []) 0 [] [],
   mkWorld _ _ initial_runtime
     [example_array 0 (Some 10%nat); example_array 1 (Some 20%nat);
      example_array 0 (Some 11%nat); example_array 1 (Some 21%nat)] [] [] [] [] [] [] []).

Definition example_send (o : nat) : Step :=
  DoSource (mkSourceCall (mkProc CPU 0 0 0) example_rect example_key
    (View_new None None (VShared o)) (example_array 1 None)).
Definition example_receive (o : nat) : Step :=
  DoTarget (mkTargetCall (mkProc CPU 0 1 1) example_rect example_key (example_array 0 None)
    (Store_Create o)).

Lemma rendezvous_pairs_witness :
  exists log s,
    run example_procs (fun _ => None)
      [example_receive 1; example_send 0; Deliver example_key true; Deliver example_key false]
      example_state = (Ret log, s) /\
    exists x t c, copies_pair example_place example_key x t c s /\
      e_inst x = Some 10%nat /\ e_inst t = Some 20%nat /\
      leads s (e_ret x) (copy_event c) /\ leads s (e_ret t) (copy_event c).
Proof.
  destruct (rendezvous_pairs example_procs (fun _ => None) example_place example_state
    [example_receive 1; example_send 0; Deliver example_key true; Deliver example_key false])
    as (log & s & E & _ & Hall).
  - split_and!; [done|done| |]; cbn; intros; by eapply not_elem_of_nil in H.
  - repeat constructor.
    + exists 1%nat. do 4 eexists. split_and!; reflexivity || (by eexists).
    + exists 0%nat. do 4 eexists. split_and!; reflexivity || (by eexists).
  - exists log, s. split; [exact E|].
    destruct (Hall example_key 0%nat) as [Hpair _]. vm_compute in E. injection E as <- <-.
    destruct (Hpair _ _ eq_refl eq_refl) as (c & Hc & Hx & Ht).
    + intros m Hm. by apply not_elem_of_nil in Hm.
    + eexists _, _, c. split; [exact Hc|]. split; [done|]. split; [done|]. by split.
Defined.

(** The pairing needs the names of a reshard to be delivered in order: two
    receives whose names are delivered in the wrong order are paired with the
    wrong sends, and the event of the first receive triggers with the copy to
    the second tile. *)
Theorem reordered_names_mispair :
  let '(r, s) := run example_procs (fun _ => None) [example_receive 1; example_receive 3] example_state in
  match r, c_messages s.1 with
  | Ret [(_, e1); (_, e2)], [m1; m2] =>
      let '(r', s') :=
        (_ ← PointToPointNameHandler m2.1 m2.2; _ ← PointToPointNameHandler m1.1 m1.2;
         run example_procs (fun _ => None) [example_send 0; Deliver example_key false])
          (with_messages [] s.1, s.2) in
      is_Some (match r' with Ret l => Some l | _ => None end) /\
      leads s' e1 (copy_event 0) /\
      exists pre, w_copies s'.2 = [mkCopy _ example_rect 4 (Some 10%nat) (Some 21%nat) pre]
  | _, _ => False
  end.
Proof.
  vm_compute. split; [by eexists|]. split; [|by eexists].
  refine (leads_user _ 0%nat (barrier_event 1 0) (copy_event 0) _ _); [by left|].
  refine (leads_barrier _ 1%nat 0%nat (copy_event 0) (copy_event 0) _ _); [|apply leads_refl].
  cbn. set_solver.
Qed.
