(* ===== verification/Reshard.v ===== *)
(** Reshards (src/zuku/reshard.cc, reshard_point_to_point.cc,
    reshard_scatter_gather.cc, reshard_broadcast.cc, reshard_gather_shards.cc,
    reshard_scatter_shards.cc): what a processor does to reshard an array.  The
    operations use the reshard manager through its interface, [Manager]: they
    ask it for sends from a view and receives into a store, and make the view
    and the store wait for the events it returns. *)
From stdpp Require Import base tactics list list_numbers numbers option strings sets.
From Stdlib Require Import ZArith Lia.
From S2P Require Import Prelude Events Mesh Shape Processor Tiles ScatterGather Broadcast.
From S2P Require Import ReshardConfig Handles Arrays ReshardManager.
Open Scope Z_scope.

(** ** The interface of the reshard manager

    [C] is the manager's own state. *)
Class Manager `{RealmMemory} (C : Type) : Type := {
  m_send : Processor -> RealmShape -> ReshardKey -> @View _ nat -> ShardedArray -> SM (C * World) Event;
  m_recv : Processor -> RealmShape -> ReshardKey -> ShardedArray -> @Store _ nat -> SM (C * World) Event;
}.

#[export] Instance reshard_manager `{RealmMemory} `{!RealmOps} `{!RealmMachine} (procs : ProcState)
    (cells : nat -> option nat) : Manager Comm := {|
  m_send := ReshardFromLocalSource procs cells;
  m_recv := ReshardToLocalTarget procs;
|}.

Section Reshard.
Context `{RealmMemory} `{!RealmLimits} {C : Type} `{!Manager C} (cells : nat -> option nat).

(** The state of a reshard: the view of the source that the running function
    owns, the store it reshards to, and the rest of the process. *)
Record Frame : Type := mkFrame {
  fr_view : @View _ nat;
  fr_store : @Store _ nat;
  fr_sys : C * World;
}.

Abbreviation RM := (SM Frame).

Definition sys {A} (m : SM (C * World) A) : RM A := fun f =>
  let '(r, s) := m (fr_sys f) in (r, mkFrame (fr_view f) (fr_store f) s).

(** The view [v] is local to [m]; it is destroyed when [m] ends, by an
    exception too, and then the outer view is [outer]. *)
Definition with_view {A} (v outer : @View _ nat) (m : RM A) : RM A := fun f =>
  let '(r, f) := m (mkFrame v (fr_store f) (fr_sys f)) in
  let '(c, w) := fr_sys f in
  (r, mkFrame outer (fr_store f) (c, set_rt (View_dtor (fr_view f) (w_rt w)) w)).

(** A call with [std::move(src)], with [src.view()] and with [dst.view()]. *)
Definition with_moved {A} (m : RM A) : RM A := fun f =>
  let '(v, old) := View_move (fr_view f) in with_view v old m f.

Definition with_subview {A} (m : RM A) : RM A := fun f =>
  let '(c, w) := fr_sys f in
  let '(v, outer, rt) := View_view (fr_view f) (w_rt w) in
  with_view v outer m (mkFrame outer (fr_store f) (c, set_rt rt w)).

Definition with_store_view {A} (m : RM A) : RM A := fun f =>
  let '(c, w) := fr_sys f in
  let '(v, dst, rt) := Store_view (fr_store f) (w_rt w) in
  with_view v (fr_view f) m (mkFrame (fr_view f) dst (c, set_rt rt w)).

(** [*src], [*dst], [src.DoneAfter(e)] and [dst.ReadyAfter(e)]. *)
Definition src_array : RM ShardedArray :=
  f ← sm_get; o ← sm_lift (View_get cells (fr_view f)); sys (sm_snd (heap_get (Some o))).
Definition dst_array : RM ShardedArray :=
  f ← sm_get; sys (sm_snd (heap_get (store_value (fr_store f)))).
Definition done_after (e : Event) : RM unit :=
  sm_modify (fun f => mkFrame (View_DoneAfter (fr_view f) e) (fr_store f) (fr_sys f)).
Definition ready_after (e : Event) : RM unit :=
  sm_modify (fun f => mkFrame (fr_view f) (Store_ReadyAfter e e (fr_store f)) (fr_sys f)).

(** The calls of the manager. *)
Definition send (p : Processor) (shape : RealmShape) (key : ReshardKey) (dst : ShardedArray) : RM Event :=
  f ← sm_get; sys (m_send p shape key (fr_view f) dst).
Definition recv (p : Processor) (shape : RealmShape) (key : ReshardKey) (src : ShardedArray) : RM Event :=
  f ← sm_get; sys (m_recv p shape key src (fr_store f)).

Definition key_of (src dst : ShardedArray) (src_shard dst_shard : Z) : ReshardKey :=
  mkKey (unique_id src) (unique_id dst) src_shard dst_shard.

(** A loop that collects events in a [std::set]; merging the events of a set or
    of the list of its insertions is the same. *)
Fixpoint for_events {A} (f : A -> RM Event) (l : list A) : RM (list Event) :=
  match l with
  | [] => mret []
  | x :: l => e ← f x; es ← for_events f l; mret (e :: es)
  end.

Definition when (b : bool) (m : RM unit) : RM unit := if b then m else mret tt.

(** ** reshard_point_to_point.cc *)
Definition P2PFromLocalSource (p : Processor) (shape : RealmShape) (dst : ShardedArray)
    (src_shard_id dst_shard_id : Z) : RM Event :=
  a ← src_array;
  postcondition ← send p shape (key_of a dst src_shard_id dst_shard_id) dst;
  _ ← done_after postcondition;
  mret postcondition.

Definition P2PToLocalTarget (p : Processor) (shape : RealmShape) (src : ShardedArray)
    (src_shard_id dst_shard_id : Z) : RM Event :=
  d ← dst_array;
  postcondition ← recv p shape (key_of src d src_shard_id dst_shard_id) src;
  _ ← ready_after postcondition;
  mret postcondition.

Definition ReshardToFrom : RM unit :=
  sm_lift (Throw (RuntimeError "do not currently support non-disjoint shardings")).

Definition ReshardPointToPoint (p : Processor) : RM unit :=
  d ← dst_array;
  _ ← when (HasTile d)
        (t ← sm_lift (sa_tile d);
         a ← src_array;
         _ ← P2PToLocalTarget p (realm_shape t) a (shard_id_ d) (shard_id_ d);
         mret tt);
  a ← src_array;
  when (HasTile a)
    (t ← sm_lift (sa_tile a);
     d ← dst_array;
     _ ← with_moved (P2PFromLocalSource p (realm_shape t) d (shard_id_ a) (shard_id_ a));
     mret tt).

(** ** reshard_scatter_gather.cc *)
Definition ReshardScatterGatherFromLocalSource (p : Processor) (config : ScatterGatherConfig)
    (dst : ShardedArray) : RM unit :=
  slice_events ← for_events (fun sl =>
      a ← src_array;
      send p (slice_bounds sl) (key_of a dst (slice_src_shard sl) (slice_dst_shard sl)) dst)
    (from_source config);
  done_after (merge_events slice_events).

Definition ReshardScatterGatherToLocalTarget (p : Processor) (config : ScatterGatherConfig)
    (src : ShardedArray) : RM unit :=
  slice_events ← for_events (fun sl =>
      d ← dst_array;
      recv p (slice_bounds sl) (key_of src d (slice_src_shard sl) (slice_dst_shard sl)) src)
    (to_target config);
  ready_after (merge_events slice_events).

Definition ReshardScatterGather (p : Processor) (config : ScatterGatherConfig) : RM unit :=
  a ← src_array;
  _ ← when (HasTile a)
        (d ← dst_array; with_subview (ReshardScatterGatherFromLocalSource p config d));
  d ← dst_array;
  when (HasTile d) (a ← src_array; ReshardScatterGatherToLocalTarget p config a).

(** ** reshard_broadcast.cc *)
Definition ReshardBroadcastFromLocalSource (p : Processor) (config : BroadcastConfig)
    (dst : ShardedArray) : RM unit :=
  source ← sm_lift (deref (bc_source config));
  sends ← for_events (fun dst_shard =>
      a ← src_array;
      t ← sm_lift (sa_tile a);
      send p (realm_shape t) (key_of a dst (shard_id_ a) dst_shard) dst)
    (dst_root_shards source);
  done_after (merge_events sends).

(** The copy that the target waits for before it forwards. *)
Definition initial_precondition (p : Processor) (target : TargetConfig) (src : ShardedArray) : RM Event :=
  match tc_src_shard target, tc_dst_root_shard target with
  | Some s, _ =>
      d ← dst_array;
      t ← sm_lift (sa_tile d);
      recv p (realm_shape t) (key_of src d s (shard_id_ d)) src
  | None, Some r =>
      d ← dst_array;
      t ← sm_lift (sa_tile d);
      recv p (realm_shape t) (key_of d d r (shard_id_ d)) d
  | None, None => mret NO_EVENT
  end.

Definition ReshardBroadcastToLocalTarget (p : Processor) (config : BroadcastConfig)
    (src : ShardedArray) : RM unit :=
  target ← sm_lift (deref (bc_target config));
  e ← initial_precondition p target src;
  _ ← ready_after e;
  when (negb (bool_decide (tc_dst_leaf_shards target = [])))
    (with_store_view
       (_ ← for_events (fun shard =>
            d ← dst_array;
            t ← sm_lift (sa_tile d);
            copy ← send p (realm_shape t) (key_of d d (shard_id_ d) shard) d;
            _ ← done_after copy;
            mret copy)
          (tc_dst_leaf_shards target);
        mret tt)).

Definition ReshardBroadcast (p : Processor) (config : BroadcastConfig) : RM unit :=
  d ← dst_array;
  _ ← when (HasTile d) (a ← src_array; ReshardBroadcastToLocalTarget p config a);
  a ← src_array;
  when (HasTile a)
    (d ← dst_array; with_moved (ReshardBroadcastFromLocalSource p config d)).

(** ** reshard_gather_shards.cc *)
Definition GatherShardsToLocalTarget (p : Processor) (config : GatherShardsConfig)
    (src : ShardedArray) : RM unit :=
  let num_shards := DeviceListOps.size (devices (sa_sharding src)) in
  dst_shard_id ← sm_lift (deref (gs_dst_shard config));
  all_events ← for_events (fun shard =>
      d ← dst_array;
      bounds ← sm_lift (vec_get (target_from_source_bounds config) shard);
      recv p bounds (key_of src d shard dst_shard_id) src)
    (seqZ 0 num_shards);
  ready_after (merge_events all_events).

Definition GatherShardsFromLocalSource (p : Processor) (config : GatherShardsConfig)
    (dst : ShardedArray) : RM unit :=
  let num_shards := DeviceListOps.size (devices (sa_sharding dst)) in
  a ← src_array;
  shard ← sm_lift (DeviceListOps.ShardId (devices (sa_sharding a)) (global_id_ p));
  src_shard_id ← sm_lift (deref shard);
  all_events ← for_events (fun shard =>
      a ← src_array;
      bounds ← sm_lift (deref (source_to_target_bounds config));
      send p bounds (key_of a dst src_shard_id shard) dst)
    (seqZ 0 num_shards);
  done_after (merge_events all_events).

Definition ReshardGatherShards (p : Processor) (config : GatherShardsConfig) : RM unit :=
  a ← src_array;
  _ ← when (HasTile a)
        (match gs_src_shard config with
         | None => sm_lift (Throw (RuntimeError
             "ReshardGatherShards: unexpected mismatch between source tile and config"))
         | Some _ => d ← dst_array; GatherShardsFromLocalSource p config d
         end);
  d ← dst_array;
  when (HasTile d)
    (match gs_dst_shard config with
     | None => sm_lift (Throw (RuntimeError
         "ReshardGatherShards: unexpected mismatch between destination tile and config"))
     | Some _ => a ← src_array; GatherShardsToLocalTarget p config a
     end).

(** ** reshard_scatter_shards.cc *)
Definition shards_per_source (src dst : ShardedArray) : outcome Z :=
  div64 (DeviceListOps.size (devices (sa_sharding dst))) (DeviceListOps.size (devices (sa_sharding src))).

Definition ScatterShardsToLocalTarget (p : Processor) (src : ShardedArray) : RM unit :=
  d ← dst_array;
  shard ← sm_lift (DeviceListOps.ShardId (devices (sa_sharding d)) (global_id_ p));
  dst_shard_id ← sm_lift (deref shard);
  per_source ← sm_lift (shards_per_source src d);
  src_shard_id ← sm_lift (div64 dst_shard_id per_source);
  t ← sm_lift (sa_tile d);
  copy ← recv p (realm_shape t) (key_of src d src_shard_id dst_shard_id) src;
  ready_after copy.

Definition ScatterShardsFromLocalSource (p : Processor) (dst : ShardedArray) : RM unit :=
  a ← src_array;
  per_source ← sm_lift (shards_per_source a dst);
  shard ← sm_lift (DeviceListOps.ShardId (devices (sa_sharding a)) (global_id_ p));
  src_shard_id ← sm_lift (deref shard);
  shard_offset ← sm_lift (mul64 per_source src_shard_id);
  all_events ← for_events (fun shard =>
      dst_shard_id ← sm_lift (add64 shard_offset shard);
      a ← src_array;
      bounds ← sm_lift (ComputeTileBounds dst_shard_id (sa_sharding dst));
      send p bounds (key_of a dst src_shard_id dst_shard_id) dst)
    (seqZ 0 per_source);
  done_after (merge_events all_events).

Definition ReshardScatterShards (p : Processor) (config : ScatterShardsConfig) : RM unit :=
  a ← src_array;
  _ ← when (HasTile a) (d ← dst_array; ScatterShardsFromLocalSource p d);
  d ← dst_array;
  when (HasTile d) (a ← src_array; ScatterShardsToLocalTarget p a).

(** ** reshard.cc *)
Definition Reshard_body (p : Processor) : RM unit :=
  a ← src_array;
  d ← dst_array;
  variant ← sm_lift (DetermineShardingConfig p (sa_sharding a) (sa_sharding d));
  match variant with
  | PointToPointConfig => with_moved (ReshardPointToPoint p)
  | ScatterGatherVariant cfg => with_moved (ReshardScatterGather p cfg)
  | BroadcastVariant cfg => with_moved (ReshardBroadcast p cfg)
  | NoOpConfig => mret tt
  | ScatterShardsVariant cfg => with_moved (ReshardScatterShards p cfg)
  | GatherShardsVariant cfg => with_moved (ReshardGatherShards p cfg)
  | UnsupportedConfig => sm_lift (Throw (RuntimeError "unsupported resharding pattern requested"))
  end.

(** [Reshard(p, View src, Store& dst)]: the view is destroyed at the end. *)
Definition Reshard (p : Processor) (src : @View _ nat) : SM (@Store _ nat * (C * World)) unit :=
  fun '(dst, s) =>
    let '(r, f) := with_view src src (Reshard_body p) (mkFrame src dst s) in
    (r, (fr_store f, fr_sys f)).

(** [Reshard(p, Store& src, Store& dst)]. *)
Definition Reshard_stores (p : Processor)
    : SM (@Store _ nat * @Store _ nat * (C * World)) unit :=
  fun '(src, dst, (c, w)) =>
    let '(v, src, rt) := Store_view src (w_rt w) in
    let '(r, (dst, s)) := Reshard p v (dst, (c, set_rt rt w)) in
    (r, (src, dst, s)).
End Reshard.
