(* ===== verification/ReshardPlan.v ===== *)
(** What a reshard asks of the manager.  [plan] is the specification: the calls
    that a processor makes to reshard an array, as a function of the two arrays
    and of the pattern.  [reshard_follows_plan] shows that the operations of
    [Reshard] make exactly these calls, for any manager, that the manager is told to
    wait for the right events ([waits_as_planned]), and that the two stores wait for
    the events that the manager returned. *)
From stdpp Require Import base tactics list list_numbers numbers option strings sets.
From Stdlib Require Import ZArith Lia.
From S2P Require Import Prelude Events Mesh Shape Processor Tiles ScatterGather Broadcast.
From S2P Require Import ReshardConfig Handles Arrays ReshardManager Rendezvous Reshard.
Open Scope Z_scope.

(** ** Plans

    A call is made for the source array, or for the target array, which
    receives and, in a broadcast, forwards. *)
Inductive Role : Type := FromSource | ToTarget | Forward.

Record PlannedCall : Type := mkCall {
  call_role : Role;
  call_shape : RealmShape;
  call_key : ReshardKey;
}.

#[export] Instance Role_eq_dec : EqDecision Role.
Proof. solve_decision. Defined.

(** A call of the manager, as its log records it. *)
Inductive ManagerCall : Type :=
| CallSend (shape : RealmShape) (key : ReshardKey)
| CallRecv (shape : RealmShape) (key : ReshardKey).

Definition manager_call (c : PlannedCall) : ManagerCall :=
  match call_role c with
  | ToTarget => CallRecv (call_shape c) (call_key c)
  | FromSource | Forward => CallSend (call_shape c) (call_key c)
  end.

Section Plans.
Context `{!RealmLimits}.

Definition plan_point_to_point (a d : ShardedArray) : list PlannedCall :=
  match array_ d with
  | Some t => [mkCall ToTarget (realm_shape t) (key_of a d (shard_id_ d) (shard_id_ d))]
  | None => []
  end ++
  match array_ a with
  | Some t => [mkCall FromSource (realm_shape t) (key_of a d (shard_id_ a) (shard_id_ a))]
  | None => []
  end.

Definition slice_call (role : Role) (a d : ShardedArray) (sl : SliceConfig) : PlannedCall :=
  mkCall role (slice_bounds sl) (key_of a d (slice_src_shard sl) (slice_dst_shard sl)).

Definition plan_scatter_gather (c : ScatterGatherConfig) (a d : ShardedArray) : list PlannedCall :=
  (if HasTile a then slice_call FromSource a d <$> from_source c else []) ++
  (if HasTile d then slice_call ToTarget a d <$> to_target c else []).

Definition broadcast_target_calls (c : TargetConfig) (a d : ShardedArray) (t : ArrayTile)
    : list PlannedCall :=
  match tc_src_shard c, tc_dst_root_shard c with
  | Some s, _ => [mkCall ToTarget (realm_shape t) (key_of a d s (shard_id_ d))]
  | None, Some r => [mkCall ToTarget (realm_shape t) (key_of d d r (shard_id_ d))]
  | None, None => []
  end ++
  ((fun leaf => mkCall Forward (realm_shape t) (key_of d d (shard_id_ d) leaf))
     <$> tc_dst_leaf_shards c).

Definition plan_broadcast (c : BroadcastConfig) (a d : ShardedArray) : outcome (list PlannedCall) :=
  target ← match array_ d with
           | Some t => c ← deref (bc_target c); mret (broadcast_target_calls c a d t)
           | None => mret []
           end;
  source ← match array_ a with
           | Some t =>
               c ← deref (bc_source c);
               mret ((fun root => mkCall FromSource (realm_shape t) (key_of a d (shard_id_ a) root))
                       <$> dst_root_shards c)
           | None => mret []
           end;
  mret (target ++ source).

Definition plan_gather (p : Processor) (c : GatherShardsConfig) (a d : ShardedArray)
    : outcome (list PlannedCall) :=
  source ← match array_ a with
           | Some _ =>
               _ ← deref (gs_src_shard c);
               shard ← DeviceListOps.ShardId (devices (sa_sharding a)) (global_id_ p);
               shard ← deref shard;
               mapO (fun i => b ← deref (source_to_target_bounds c);
                              mret (mkCall FromSource b (key_of a d shard i)))
                 (seqZ 0 (DeviceListOps.size (devices (sa_sharding d))))
           | None => mret []
           end;
  target ← match array_ d with
           | Some _ =>
               shard ← deref (gs_dst_shard c);
               mapO (fun i => b ← vec_get (target_from_source_bounds c) i;
                              mret (mkCall ToTarget b (key_of a d i shard)))
                 (seqZ 0 (DeviceListOps.size (devices (sa_sharding a))))
           | None => mret []
           end;
  mret (source ++ target).

Definition plan_scatter (p : Processor) (a d : ShardedArray) : outcome (list PlannedCall) :=
  source ← match array_ a with
           | Some _ =>
               n ← shards_per_source a d;
               shard ← DeviceListOps.ShardId (devices (sa_sharding a)) (global_id_ p);
               shard ← deref shard;
               offset ← mul64 n shard;
               mapO (fun i =>
                   to ← add64 offset i;
                   b ← ComputeTileBounds to (sa_sharding d);
                   mret (mkCall FromSource b (key_of a d shard to)))
                 (seqZ 0 n)
           | None => mret []
           end;
  target ← match array_ d with
           | Some t =>
               shard ← DeviceListOps.ShardId (devices (sa_sharding d)) (global_id_ p);
               shard ← deref shard;
               n ← shards_per_source a d;
               from ← div64 shard n;
               mret [mkCall ToTarget (realm_shape t) (key_of a d from shard)]
           | None => mret []
           end;
  mret (source ++ target).

(** The calls of a reshard from [a] to [d] on the processor [p]. *)
Definition plan (p : Processor) (a d : ShardedArray) : outcome (list PlannedCall) :=
  variant ← DetermineShardingConfig p (sa_sharding a) (sa_sharding d);
  match variant with
  | PointToPointConfig => mret (plan_point_to_point a d)
  | ScatterGatherVariant c => mret (plan_scatter_gather c a d)
  | BroadcastVariant c => plan_broadcast c a d
  | NoOpConfig => mret []
  | ScatterShardsVariant _ => plan_scatter p a d
  | GatherShardsVariant c => plan_gather p c a d
  | UnsupportedConfig => Throw (RuntimeError "unsupported resharding pattern requested")
  end.
End Plans.

(** ** Waiting for the calls

    In Realm a user event is triggered at most once, so when it has triggered
    the precondition of its trigger has. *)
Definition honoured `{RealmEvents} (fired : Event -> Prop) (log : list (nat * Event)) : Prop :=
  forall u e, (u, e) ∈ log -> fired (user_event u) -> fired e.

(** What the manager is asked, with the handle that it is given. *)
Inductive Request `{RealmEvents} : Type :=
| ReqSend (c : SourceCall)
| ReqRecv (c : TargetCall).

Definition request_call `{RealmEvents} (r : Request) : ManagerCall :=
  match r with
  | ReqSend c => CallSend (s_shape c) (s_key c)
  | ReqRecv c => CallRecv (t_shape c) (t_key c)
  end.

(** The event that the manager is told to wait for, and the object of the handle. *)
Definition request_ask `{RealmEvents} (r : Request) : Event * Value :=
  match r with
  | ReqSend c => (View_Precondition (s_src c), view_value (s_src c))
  | ReqRecv c => (Store_Precondition (t_dst c), store_view_value (t_dst c))
  end.

(** A call that returned: the planned call, the request, and the event returned. *)
Record Answer `{RealmEvents} : Type := mkAnswer {
  a_call : PlannedCall;
  a_request : Request;
  a_event : Event;
}.
Arguments mkAnswer {_} _ _ _.

Definition a_ask `{RealmEvents} (x : Answer) : Event * Value := request_ask (a_request x).
Definition asked `{RealmEvents} (x : Answer) : Prop :=
  request_call (a_request x) = manager_call (a_call x).

(** The events returned by the calls that satisfy [P] have triggered. *)
Definition covers `{RealmEvents} (fired : Event -> Prop) (P : PlannedCall -> Prop)
    (ans : list Answer) : Prop :=
  Forall (fun x => P (a_call x) -> fired (a_event x)) ans.

Definition all_done `{RealmEvents} (fired : Event -> Prop) (ans : list Answer) : Prop :=
  Forall (fun x => fired (a_event x)) ans.

Definition for_source (c : PlannedCall) : Prop := call_role c = FromSource.
Definition for_target (c : PlannedCall) : Prop := call_role c <> FromSource.
Definition receives_data (c : PlannedCall) : Prop := call_role c = ToTarget.

(** What a call moves and waits for: a send of the source as [src] says, a receive as
    [dst], and a forward the object of [rw], for the event of [rw] and for the data it
    forwards. *)
Definition waits_as_planned `{RealmEvents} (src dst rw : Event * Value) (ans : list Answer)
    (x : Answer) : Prop :=
  match call_role (a_call x) with
  | FromSource => a_ask x = src
  | ToTarget => a_ask x = dst
  | Forward => (a_ask x).2 = rw.2 /\
      forall fired, Moment fired ->
        (fired (a_ask x).1 <-> fired rw.1 /\ covers fired receives_data ans)
  end.

(** ** A manager with a log *)
Section Logged.
Context `{RealmMemory} {C : Type} (M : Manager C).

Definition Log : Type := list (Request * outcome Event).

Definition log_call (req : Request) (m : SM (C * World) Event) : SM (C * Log * World) Event :=
  fun '(c, l, w) => let '(r, (c, w)) := m (c, w) in (r, (c, l ++ [(req, r)], w)).

Definition logged : Manager (C * Log) := {|
  m_send p shape key src dst :=
    log_call (ReqSend (mkSourceCall p shape key src dst)) (m_send p shape key src dst);
  m_recv p shape key src dst :=
    log_call (ReqRecv (mkTargetCall p shape key src dst)) (m_recv p shape key src dst);
|}.

(** The log of calls that returned. *)
Definition log_of (ans : list Answer) : Log := (fun x => (a_request x, Ret (a_event x))) <$> ans.

(** What a reshard relies on: a call leaves the arrays alone and does not take
    back a trigger. *)
Definition keeps_world (w w' : World) : Prop :=
  w_heap w' = w_heap w /\ triggered (w_rt w) `prefix_of` triggered (w_rt w').

Class ManagerLaws : Prop := {
  send_keeps p shape key src dst c w : keeps_world w (m_send p shape key src dst (c, w)).2.2;
  recv_keeps p shape key src dst c w : keeps_world w (m_recv p shape key src dst (c, w)).2.2;
}.
End Logged.

(** ** Running with the log *)
Section Runs.
Context `{RealmMemory} `{!RealmLimits} {C : Type} {M : Manager C} {Hlaws : ManagerLaws M}.
#[local] Existing Instance logged.

Abbreviation F := (@Frame _ _ (C * Log)).

Definition fr_log (f : F) : Log := (fr_sys f).1.2.
Definition fr_world (f : F) : World := (fr_sys f).2.

(** A run that ends with the failure of the last call it made. *)
Definition failed {A} (r : outcome A) (o : outcome Event) : Prop :=
  match o with
  | Ret _ => False
  | Throw e => r = Throw e
  | Undef u => r = Undef u
  | NoFuel => r = NoFuel
  end.

Definition stopped {A} (r : outcome A) (calls : list ManagerCall) (l : Log) : Prop :=
  exists n req o, request_call <$> l.*1 = take n calls /\ last l = Some (req, o) /\ failed r o.

(** [runs f m calls Q]: from [f], [m] makes the calls and returns with [Q], of
    its value, of the answers to the calls and of the state; or one of the calls
    fails, and [m] stops there with its failure. *)
Definition runs (f : F) {A} (m : SM F A) (calls : list PlannedCall)
    (Q : A -> list Answer -> F -> Prop) : Prop :=
  exists r f' l, m f = (r, f') /\ fr_log f' = fr_log f ++ l /\
    keeps_world (fr_world f) (fr_world f') /\
    ((exists x ans, r = Ret x /\ a_call <$> ans = calls /\ Forall asked ans /\ l = log_of ans /\
        Q x ans f') \/
     stopped r (manager_call <$> calls) l).

#[export] Instance keeps_world_preorder : PreOrder keeps_world.
Proof.
  split; [by split|]. intros w1 w2 w3 [Eh1 T1] [Eh2 T2].
  split; [congruence|by etrans].
Qed.

Lemma runs_mono {A} f (m : SM F A) calls (Q Q' : A -> list Answer -> F -> Prop) :
  runs f m calls Q ->
  (forall x ans f', a_call <$> ans = calls -> Q x ans f' -> Q' x ans f') -> runs f m calls Q'.
Proof.
  intros (r & f' & l & Em & El & Hk & Hr) HQ. exists r, f', l. split_and!; [done..|].
  destruct Hr as [(x & ans & ? & ? & ? & ? & ?)|Hr]; [left|by right]. exists x, ans. auto 10.
Qed.

Lemma runs_ret {A} f (x : A) (Q : A -> list Answer -> F -> Prop) :
  Q x [] f -> runs f (mret x) [] Q.
Proof.
  intros HQ. exists (Ret x), f, []. rewrite app_nil_r. split_and!; [done..|].
  left. by exists x, [].
Qed.

Lemma log_of_calls ans calls : a_call <$> ans = calls -> Forall asked ans ->
  request_call <$> (log_of ans).*1 = manager_call <$> calls.
Proof.
  intros <- Hk. unfold log_of. rewrite <- !list_fmap_compose.
  induction Hk as [|x ans Hx _ IH]; [done|]. cbn. rewrite <- Hx. by f_equal.
Qed.

Lemma runs_bind {A B} f (m : SM F A) (k : A -> SM F B) calls calls' Q Q' :
  runs f m calls Q ->
  (forall x ans f', a_call <$> ans = calls -> Q x ans f' ->
     keeps_world (fr_world f) (fr_world f') -> runs f' (k x) calls' (fun y ans' => Q' y (ans ++ ans'))) ->
  runs f (m ≫= k) (calls ++ calls') Q'.
Proof.
  intros (r & f1 & l & Em & El & Hk & Hr) Hcont. destruct Hr as [(x & ans & -> & Hc & Hk1 & -> & HQ)|Hr].
  - destruct (Hcont x ans f1 Hc HQ Hk) as (r2 & f2 & l2 & Em2 & El2 & Hk2 & Hr2).
    exists r2, f2, (log_of ans ++ l2).
    rewrite (sm_bind_ret _ _ _ _ _ Em), El2, El, (assoc_L (++)).
    split_and!; [done..|by etrans|].
    destruct Hr2 as [(y & ans2 & -> & Hc2 & Hk3 & -> & HQ2)|(n & req & o & Hn & Hlast & Ho)].
    + left. exists y, (ans ++ ans2). unfold log_of. rewrite !fmap_app, Hc, Hc2.
      split_and!; [done..|by apply Forall_app|done|done].
    + right. exists (length calls + n)%nat, req, o.
      pose proof (log_of_calls ans calls Hc Hk1) as Hl1.
      rewrite !fmap_app, Hl1, take_app_add' by (by rewrite length_fmap).
      split_and!; [by rewrite Hn| |done].
      rewrite last_app, Hlast. done.
  - destruct Hr as (n & req & o & Hn & Hlast & Ho).
    exists (match r with Ret x => NoFuel | Throw e => Throw e | Undef u => Undef u | NoFuel => NoFuel end), f1, l.
    split_and!; [|done|done|].
    + unfold mbind, sm_bind. rewrite Em. destruct o; cbn in Ho; by subst.
    + right. exists (n `min` length calls)%nat, req, o. split_and!; [|done|].
      * rewrite fmap_app, take_app_le by (rewrite length_fmap; lia). rewrite Hn.
        destruct (decide (n <= length calls)%nat); [by rewrite Nat.min_l|].
        rewrite Nat.min_r, !take_ge by (rewrite ?length_fmap; lia). done.
      * destruct o; cbn in Ho |- *; by subst.
Qed.

(** A step that makes no call. *)
Lemma runs_pure {A B} f (m : SM F A) (k : A -> SM F B) x calls Q :
  m f = (Ret x, f) -> runs f (k x) calls Q -> runs f (m ≫= k) calls Q.
Proof.
  intros Em (r & f' & l & Ek & Hr). exists r, f', l. by rewrite (sm_bind_ret _ _ _ _ _ Em).
Qed.

(** The state after a call of the manager. *)
Definition after_call (f f' : F) : Prop :=
  fr_view f' = fr_view f /\ fr_store f' = fr_store f /\ keeps_world (fr_world f) (fr_world f').

Lemma runs_call f call req (m : SM (C * Log * World) Event) m0 (Q : Event -> list Answer -> F -> Prop) :
  m = log_call req m0 -> request_call req = manager_call call ->
  (forall c w, keeps_world w (m0 (c, w)).2.2) ->
  (forall ev f', after_call f f' -> Q ev [mkAnswer call req ev] f') ->
  runs f (sys m) [call] Q.
Proof.
  intros -> Hreq Hm HQ. destruct f as [v st [[c l] w]]. specialize (Hm c w).
  destruct (m0 (c, w)) as [r [c' w']] eqn:E. cbn in Hm.
  exists r, (mkFrame v st (c', l ++ [(req, r)], w')), [(req, r)].
  split_and!; [unfold sys, log_call; cbn; by rewrite E|done|done|].
  destruct r as [ev|e|u|]; [left|right..].
  { exists ev, [mkAnswer call req ev]. split_and!; [done|done|by apply Forall_singleton|done|by apply HQ]. }
  all: exists 1%nat, req; eexists; split_and!; [cbn; by rewrite Hreq|done|done].
Qed.

(** The event and the object of the view, of the store and of the store's writes. *)
Definition view_event (f : F) : Event * Value := (View_Precondition (fr_view f), view_value (fr_view f)).
Definition store_event (f : F) : Event * Value :=
  (Store_Precondition (fr_store f), store_view_value (fr_store f)).
Definition write_event (f : F) : Event * Value := (rw_event (fr_store f), store_view_value (fr_store f)).

Lemma runs_send f p shape key dst role (Q : Event -> list Answer -> F -> Prop) :
  role <> ToTarget ->
  (forall x f', a_ask x = view_event f -> after_call f f' -> Q (a_event x) [x] f') ->
  runs f (send p shape key dst) [mkCall role shape key] Q.
Proof.
  intros Hrole HQ. unfold send. eapply runs_pure; [done|].
  eapply (runs_call _ _ (ReqSend _)); [done| |intros; apply Hlaws|].
  - by destruct role.
  - intros ev f' Hf'. by apply (HQ (mkAnswer _ (ReqSend _) ev)).
Qed.

Lemma runs_recv f p shape key src (Q : Event -> list Answer -> F -> Prop) :
  (forall x f', a_ask x = store_event f -> after_call f f' -> Q (a_event x) [x] f') ->
  runs f (recv p shape key src) [mkCall ToTarget shape key] Q.
Proof.
  intros HQ. unfold recv. eapply runs_pure; [done|].
  eapply (runs_call _ _ (ReqRecv _)); [done|done|intros; apply Hlaws|].
  intros ev f' Hf'. by apply (HQ (mkAnswer _ (ReqRecv _) ev)).
Qed.

(** A loop that makes one call per element, with an invariant over the answers so
    far. *)
Lemma runs_for_events {A} (body : A -> SM F Event) (h : A -> outcome PlannedCall)
    (I : list Answer -> F -> Prop) l : forall calls f ans,
  mapO h l = Ret calls ->
  (forall x c ans f, h x = Ret c -> I ans f ->
     runs f (body x) [c] (fun ev ans' f' => exists y, ans' = [y] /\ a_event y = ev /\ I (ans ++ [y]) f')) ->
  I ans f ->
  runs f (for_events body l) calls (fun es ans' f' => es = a_event <$> ans' /\ I (ans ++ ans') f').
Proof.
  induction l as [|x l IH]; intros calls f ans Hl Hbody HI; cbn in Hl |- *.
  { injection Hl as <-. apply runs_ret. by rewrite app_nil_r. }
  destruct (h x) as [c| | |] eqn:Hc; cbn in Hl; try done.
  destruct (mapO h l) as [calls'| | |] eqn:Hl'; cbn in Hl; try done. injection Hl as <-.
  apply (runs_bind _ _ _ [c] calls' _ _ (Hbody x c ans f Hc HI)).
  intros ev ans' f' _ (y & -> & <- & HI') _. rewrite <- (app_nil_r calls').
  eapply runs_bind; [by apply (IH _ _ (ans ++ [y]))|].
  cbn. intros es ans2 f2 _ [-> HI2] _. apply runs_ret. rewrite !app_nil_r. cbn.
  by rewrite <- (assoc_L (++)) in HI2.
Qed.

(** The end of a view's scope. *)
Definition close (outer : @View _ nat) (f : F) : F :=
  mkFrame outer (fr_store f)
    ((fr_sys f).1, set_rt (View_dtor (fr_view f) (w_rt (fr_world f))) (fr_world f)).

Lemma View_dtor_triggered (v : @View _ nat) rt :
  triggered (View_dtor v rt) =
    triggered rt ++ match war_dependency v with
                    | Some u => [(u, match views v with [] => NO_EVENT | l => merge_events l end)]
                    | None => []
                    end.
Proof.
  unfold View_dtor. destruct (war_dependency v); [|by rewrite app_nil_r].
  by destruct (views v).
Qed.

Lemma keeps_close outer f : keeps_world (fr_world f) (fr_world (close outer f)).
Proof. split; [done|]. cbn. rewrite View_dtor_triggered. by eexists. Qed.

Lemma runs_with_view {A} f v outer (m : SM F A) calls (Q : A -> list Answer -> F -> Prop) :
  runs (mkFrame v (fr_store f) (fr_sys f)) m calls (fun x ans f' => Q x ans (close outer f')) ->
  runs f (with_view v outer m) calls Q.
Proof.
  intros (r & f' & l & Em & El & Hk & Hr). exists r, (close outer f'), l.
  split_and!; [|done| |done].
  - unfold with_view. rewrite Em. unfold close, fr_world. by destruct (fr_sys f') as [[c l'] w].
  - etrans; [exact Hk|apply keeps_close].
Qed.

(** *** What the frame refers to *)
Definition src_is (cells : nat -> option nat) (f : F) (a : ShardedArray) : Prop :=
  exists i, View_get cells (fr_view f) = Ret i /\ w_heap (fr_world f) !! i = Some a.
Definition dst_is (f : F) (d : ShardedArray) : Prop :=
  exists j, store_value (fr_store f) = Some j /\ w_heap (fr_world f) !! j = Some d.

Lemma src_array_ret cells f a : src_is cells f a -> src_array cells f = (Ret a, f).
Proof.
  intros (i & Hi & Ha). unfold src_array. rewrite sm_get_bind.
  erewrite sm_bind_ret by (unfold sm_lift; by rewrite Hi).
  destruct f as [v st [c w]]. unfold sys, sm_snd, heap_get. cbn in *. by rewrite Ha.
Qed.

Lemma dst_array_ret f d : dst_is f d -> dst_array f = (Ret d, f).
Proof.
  intros (j & Hj & Hd). unfold dst_array. rewrite sm_get_bind.
  destruct f as [v st [c w]]. unfold sys, sm_snd, heap_get. cbn in *. rewrite Hj. cbn. by rewrite Hd.
Qed.

Lemma src_is_keeps cells f f' a :
  src_is cells f a -> view_value (fr_view f') = view_value (fr_view f) ->
  keeps_world (fr_world f) (fr_world f') -> src_is cells f' a.
Proof. intros (i & Hi & Ha) Hv [Hh _]. exists i. unfold View_get in *. by rewrite Hv, Hh. Qed.

Lemma dst_is_keeps f f' d :
  dst_is f d -> store_value (fr_store f') = store_value (fr_store f) ->
  keeps_world (fr_world f) (fr_world f') -> dst_is f' d.
Proof. intros (j & Hj & Hd) Hv [Hh _]. exists j. by rewrite Hv, Hh. Qed.

Lemma sa_tile_ret d t : array_ d = Some t -> sa_tile d = Ret t.
Proof. intros E. unfold sa_tile. by rewrite E. Qed.

(** *** The two kinds of phases

    A source phase leaves the store alone; when the view's operations are over
    the calls are.  A target phase leaves the view alone; when the store is
    ready the calls are over. *)
Definition triggers (f : F) : list (nat * Event) := triggered (w_rt (fr_world f)).

(** The calls were made with the object, and waited for the event. *)
Definition waited (ask : Event * Value) (ans : list Answer) : Prop := Forall (fun x => a_ask x = ask) ans.

(** When the calls are over, so are the operations of the view, and the view
    is released; and the store is ready. *)
Definition source_live (f : F) (ans : list Answer) (f' : F) : Prop :=
  forall fired, Moment fired -> prompt fired (triggers f') ->
    Forall fired (views (fr_view f)) -> all_done fired ans -> Forall fired (views (fr_view f')).

Definition closed_live (f : F) (ans : list Answer) (f' : F) : Prop :=
  forall u, war_dependency (fr_view f) = Some u ->
    forall fired, Moment fired -> prompt fired (triggers (close (fr_view f') f')) ->
      Forall fired (views (fr_view f)) -> all_done fired ans -> fired (user_event u).

Definition target_live (f : F) (ans : list Answer) (f' : F) : Prop :=
  forall fired, Moment fired -> prompt fired (triggers f') ->
    fired (Store_Precondition (fr_store f)) -> all_done fired ans ->
    fired (Store_Precondition (fr_store f')).

Definition source_open (f : F) (ans : list Answer) (f' : F) : Prop :=
  fr_store f' = fr_store f /\
  war_dependency (fr_view f') = war_dependency (fr_view f) /\
  view_value (fr_view f') = view_value (fr_view f) /\
  View_Precondition (fr_view f') = View_Precondition (fr_view f) /\
  waited (view_event f) ans /\
  (forall fired, Moment fired -> honoured fired (triggers f') ->
    Forall fired (views (fr_view f')) -> all_done fired ans) /\
  source_live f ans f'.

(** The same once the view is destroyed, of the event that it triggers. *)
Definition source_done (f : F) (ans : list Answer) (f' : F) : Prop :=
  fr_store f' = fr_store f /\ waited (view_event f) ans /\
  (forall u, war_dependency (fr_view f) = Some u ->
    forall fired, Moment fired -> honoured fired (triggers (close (fr_view f') f')) ->
      fired (user_event u) -> all_done fired ans) /\
  closed_live f ans f'.

Definition target_part (f : F) (ans : list Answer) (f' : F) : Prop :=
  fr_view f' = fr_view f /\ store_value (fr_store f') = store_value (fr_store f) /\
  (forall fired, Moment fired -> honoured fired (triggers f') ->
    fired (Store_Precondition (fr_store f')) ->
    fired (rw_event (fr_store f)) /\ all_done fired ans) /\
  target_live f ans f'.

(** What the calls of a reshard that began in [f] waited for. *)
Definition all_waited (f : F) (ans : list Answer) : Prop :=
  Forall (waits_as_planned (view_event f) (store_event f) (write_event f) ans) ans.

Definition target_done (f : F) (ans : list Answer) (f' : F) : Prop :=
  target_part f ans f' /\ all_waited f ans.

(** Receives wait for the target store, sends of the source for its view. *)
Lemma Forall_calls (P : PlannedCall -> Prop) ans calls :
  a_call <$> ans = calls -> Forall P calls -> Forall (fun x => P (a_call x)) ans.
Proof. intros <-. by rewrite Forall_fmap. Qed.

Lemma receives_waited f ans : Forall (fun x => receives_data (a_call x)) ans ->
  waited (store_event f) ans -> all_waited f ans.
Proof.
  unfold waited, all_waited. rewrite !Forall_forall. intros Hr Hw x Hx.
  unfold waits_as_planned. rewrite (Hr x Hx). by apply Hw.
Qed.

Lemma honoured_prefix fired (l l' : list (nat * Event)) :
  l `prefix_of` l' -> honoured fired l' -> honoured fired l.
Proof. intros [k ->] Hh u e Hu. apply Hh. set_solver. Qed.

Lemma honoured_keeps fired f f' :
  keeps_world (fr_world f) (fr_world f') -> honoured fired (triggers f') -> honoured fired (triggers f).
Proof. intros [_ Hp]. by apply honoured_prefix. Qed.

Lemma prompt_keeps fired f f' :
  keeps_world (fr_world f) (fr_world f') -> prompt fired (triggers f') -> prompt fired (triggers f).
Proof. intros [_ [k E]] Hp u e Hu. apply Hp. unfold triggers. rewrite E. set_solver. Qed.

Lemma source_open_done f ans f' : source_open f ans f' -> source_done f ans f'.
Proof.
  intros (Hs & Hw & _ & _ & Hpre & Hev & Hlive). split; [done|]. split; [done|].
  assert (Htr : forall u, war_dependency (fr_view f) = Some u ->
    (u, match views (fr_view f') with [] => NO_EVENT | l => merge_events l end)
      ∈ triggers (close (fr_view f') f')).
  { intros u Hu. unfold triggers. cbn. rewrite View_dtor_triggered, Hw, Hu. set_solver. }
  split; intros u Hu fired Hm Hh.
  - intros Hfu. apply Hev; [done|by apply (honoured_keeps _ _ _ (keeps_close _ _) Hh)|].
    specialize (Hh u _ (Htr u Hu) Hfu). destruct (views (fr_view f')); [done|]. by apply fired_merge in Hh.
  - intros Hv Hd. apply (Hh u _ (Htr u Hu)).
    specialize (Hlive fired Hm (prompt_keeps _ _ _ (keeps_close _ _) Hh) Hv Hd).
    destruct (views (fr_view f')); [apply fired_no_event|by apply fired_merge].
Qed.

(** A call with the moved view: the view is destroyed at its end. *)
Lemma runs_with_moved {A} f (m : SM F A) calls (Q : A -> list Answer -> F -> Prop) :
  (forall f1, fr_store f1 = fr_store f -> fr_world f1 = fr_world f ->
     war_dependency (fr_view f1) = war_dependency (fr_view f) ->
     view_value (fr_view f1) = view_value (fr_view f) ->
     View_Precondition (fr_view f1) = View_Precondition (fr_view f) ->
     views (fr_view f1) = [] ->
     runs f1 m calls (fun x ans f' => source_done f1 ans f' /\ Q x ans (close (View_move (fr_view f)).2 f'))) ->
  runs f (with_moved m) calls (fun x ans f' => source_done f ans f' /\ Q x ans f').
Proof.
  intros Hm. unfold with_moved. cbn. apply runs_with_view.
  eapply runs_mono; [by apply Hm|]. cbn. intros x ans f' _ [(Hs & Hpre & Hd & Hl) HQ]. split; [|done].
  split; [done|]. split; [done|]. split; intros u Hu fired Hmm Hh.
  - apply (Hd u Hu fired Hmm). exact Hh.
  - intros _. apply (Hl u Hu fired Hmm); [exact Hh|constructor].
Qed.

Lemma runs_from {A} f f1 (m m1 : SM F A) calls (Q : A -> list Answer -> F -> Prop) :
  m f = m1 f1 -> fr_log f1 = fr_log f -> keeps_world (fr_world f) (fr_world f1) ->
  runs f1 m1 calls Q -> runs f m calls Q.
Proof.
  intros Em Hl Hk (r & f' & l & E & El & Hk' & Hr). exists r, f', l.
  rewrite Em, <- Hl. split_and!; [done..|by etrans|done].
Qed.

(** A call with a subview: its release is an operation of the view. *)
Lemma runs_with_subview {A} f (m : SM F A) calls :
  (forall f1, fr_store f1 = fr_store f -> keeps_world (fr_world f) (fr_world f1) ->
     view_value (fr_view f1) = view_value (fr_view f) ->
     View_Precondition (fr_view f1) = View_Precondition (fr_view f) ->
     runs f1 m calls (fun _ ans f' => source_done f1 ans f')) ->
  runs f (with_subview m) calls (fun _ ans f' => source_open f ans f').
Proof.
  intros Hm. destruct f as [v st [[c l] w]].
  set (u := next_user (w_rt w)). set (f1 := mkFrame (View_view v (w_rt w)).1.2 st
    (c, l, set_rt (create_user_event (w_rt w)).2 w)).
  eapply (runs_from _ f1); [unfold with_subview; cbn; reflexivity|done|by split|].
  apply runs_with_view. eapply runs_mono; [by apply Hm|].
  cbn. intros _ ans f' _ (Hs & Hpre & Hd & Hl). split_and!; [done..| |].
  - intros fired Hmm Hh Hv. apply (Hd u); [done..|].
    apply Forall_app in Hv as [_ Hu]. by apply Forall_cons in Hu as [Hu _].
  - intros fired Hmm Hh Hv Hdone. apply Forall_app. split; [exact Hv|]. apply Forall_singleton.
    by apply (Hl u eq_refl fired Hmm Hh).
Qed.

(** A scope with a view of the store: the store waits for its release. *)
Lemma runs_with_store_view {A} f (m : SM F A) calls :
  (forall f1, store_value (fr_store f1) = store_value (fr_store f) ->
     keeps_world (fr_world f) (fr_world f1) ->
     view_value (fr_view f1) = store_view_value (fr_store f) ->
     runs f1 m calls (fun _ ans f' => source_done f1 ans f')) ->
  runs f (with_store_view m) calls
    (fun _ ans f' => target_part f ans f' /\ waited (write_event f) ans).
Proof.
  intros Hm. destruct f as [v st [[c l] w]].
  set (u := next_user (w_rt w)). set (f1 := mkFrame v (store_add_reader (user_event u) (user_event u) st)
    (c, l, set_rt (create_user_event (w_rt w)).2 w)).
  eapply (runs_from _ f1); [unfold with_store_view; cbn; reflexivity|done|by split|].
  apply runs_with_view. eapply runs_mono; [by apply Hm|].
  cbn. intros _ ans f' _ (Hs & Hpre & Hd & Hl). split; [|exact Hpre].
  change (fr_store f' = store_add_reader (user_event u) (user_event u) st) in Hs.
  split_and!; [done|cbn; by rewrite Hs| |].
  - intros fired Hmm Hh Hp. change (fr_store (close v f')) with (fr_store f') in Hp.
    rewrite Hs in Hp. apply fired_precondition in Hp as [Hwar Hrw]; [|done].
    apply (fired_add_reader fired OnEffects) in Hwar as [_ Hu]. split; [done|]. by apply (Hd u).
  - intros fired Hmm Hh Hp Hdone. change (fr_store (close v f')) with (fr_store f'). rewrite Hs.
    apply fired_precondition in Hp as [Hwar Hrw]; [|done]. apply fired_precondition; [done|].
    split; [|done]. apply (fired_add_reader fired OnEffects). split; [done|].
    by apply (Hl u eq_refl fired Hmm Hh).
Qed.

Lemma ready_after_live fired `{!Moment fired} e (st : @Store _ nat) :
  fired (Store_Precondition st) -> fired e -> fired (Store_Precondition (Store_ReadyAfter e e st)).
Proof.
  intros [_ Hrw]%fired_precondition He; [|done]. apply fired_precondition; [done|].
  split; [apply fired_no_event|]. by apply fired_ready_after.
Qed.

(** *** The loops *)
Lemma after_call_trans f f1 f2 : after_call f f1 -> after_call f1 f2 -> after_call f f2.
Proof. intros (E1 & S1 & K1) (E2 & S2 & K2). split_and!; [congruence..|by etrans]. Qed.

Lemma after_call_src cells f f' a : src_is cells f a -> after_call f f' -> src_is cells f' a.
Proof. intros Hs (Hv & _ & Hk). apply (src_is_keeps _ f); [done|by rewrite Hv|done]. Qed.

Lemma after_call_dst f f' d : dst_is f d -> after_call f f' -> dst_is f' d.
Proof. intros Hs (_ & Hv & Hk). apply (dst_is_keeps f); [done|by rewrite Hv|done]. Qed.

(** A call of a loop, with what it waits for. *)
Definition one_call (pre : F -> Event * Value) (f1 : F) (ev : Event) (ans : list Answer) (f2 : F) : Prop :=
  exists y, ans = [y] /\ a_event y = ev /\ a_ask y = pre f1 /\ after_call f1 f2.

Lemma runs_calls {A} (pre : F -> Event * Value) (body : A -> SM F Event) (h : A -> outcome PlannedCall) l calls f :
  (forall f1, after_call f f1 -> pre f1 = pre f) -> mapO h l = Ret calls ->
  (forall x c f1, h x = Ret c -> after_call f f1 -> runs f1 (body x) [c] (one_call pre f1)) ->
  runs f (for_events body l) calls
    (fun es ans f' => es = a_event <$> ans /\ waited (pre f) ans /\ after_call f f').
Proof.
  intros Hpre Hl Hbody.
  apply (runs_for_events body h (fun ans f' => waited (pre f) ans /\ after_call f f') l calls f []);
    [done| |split; [constructor|by split_and!]].
  intros x c ans f1 Hc [Hw Hf1]. eapply runs_mono; [by apply (Hbody x c)|].
  intros ev ans' f2 _ (y & -> & He & Hy & Hf2). exists y. split_and!; [done..| |].
  - apply Forall_app. split; [done|]. apply Forall_singleton. by rewrite Hy, Hpre.
  - by apply (after_call_trans _ f1).
Qed.

Lemma all_done_fmap fired ans : all_done fired ans <-> Forall fired (a_event <$> ans).
Proof. unfold all_done. by rewrite Forall_fmap. Qed.

Lemma runs_send_phase {A} (body : A -> SM F Event) (h : A -> outcome PlannedCall) l calls f :
  mapO h l = Ret calls ->
  (forall x c f1, h x = Ret c -> after_call f f1 -> runs f1 (body x) [c] (one_call view_event f1)) ->
  runs f (es ← for_events body l; done_after (merge_events es)) calls
    (fun _ ans f' => source_open f ans f').
Proof.
  intros Hl Hbody. rewrite <- (app_nil_r calls). eapply runs_bind; [apply (runs_calls view_event body h)|];
    [|done|done|].
  { intros f1 (Hv & _). unfold view_event. by rewrite Hv. }
  cbn. intros es ans f1 _ (-> & Hw & Hv & Hs & Hk) _. eapply (runs_from _ _ _ (mret tt)); [done|done|done|]. apply runs_ret.
  rewrite app_nil_r. split_and!; cbn; [done|by rewrite Hv..|exact Hw| |].
  - intros fired Hm _ Hviews. apply Forall_app in Hviews as [_ He].
    apply Forall_cons in He as [He _]. apply fired_merge in He. by apply all_done_fmap.
  - intros fired Hm _ Hviews Hdone. cbn. rewrite Hv. apply Forall_app. split; [done|].
    apply Forall_singleton, fired_merge. by apply all_done_fmap.
Qed.

Lemma runs_recv_phase {A} (body : A -> SM F Event) (h : A -> outcome PlannedCall) l calls f :
  mapO h l = Ret calls -> Forall receives_data calls ->
  (forall x c f1, h x = Ret c -> after_call f f1 -> runs f1 (body x) [c] (one_call store_event f1)) ->
  runs f (es ← for_events body l; ready_after (merge_events es)) calls
    (fun _ ans f' => target_done f ans f').
Proof.
  intros Hl Hr Hbody. rewrite <- (app_nil_r calls).
  eapply runs_bind; [apply (runs_calls store_event body h)|]; [|done|done|].
  { intros f1 (_ & Hs & _). unfold store_event. by rewrite Hs. }
  cbn. intros es ans f1 Hcalls (-> & Hw & Hv & Hs & Hk) _. eapply (runs_from _ _ _ (mret tt)); [done|done|done|]. apply runs_ret.
  rewrite app_nil_r. split; [|by apply receives_waited; [eapply Forall_calls|]].
  split_and!; [done|cbn; by rewrite Hs|..].
  - intros fired Hm _ Hp.
    change (fired (Store_Precondition
      (Store_ReadyAfter (merge_events (a_event <$> ans)) (merge_events (a_event <$> ans)) (fr_store f1)))) in Hp.
    apply fired_precondition in Hp as [_ Hrw]; [|done].
    apply fired_ready_after in Hrw as [He Hrw]; [|done]. rewrite Hs in Hrw.
    split; [done|]. apply fired_merge in He. by apply all_done_fmap.
  - intros fired Hm _ Hp Hdone. cbn [fr_store]. rewrite Hs. apply ready_after_live; [done|done|].
    apply fired_merge. by apply all_done_fmap.
Qed.
End Runs.
