(* ===== verification/ReshardFollows.v ===== *)
(** The operations of [Reshard] follow the plan: [reshard_follows_plan] and its
    corollary for the reshard manager of the repository. *)
From stdpp Require Import base tactics list list_numbers numbers option strings sets.
From Stdlib Require Import ZArith Lia.
From S2P Require Import Prelude Events Mesh Shape Processor Tiles ScatterGather Broadcast.
From S2P Require Import ReshardConfig Handles Arrays ReshardManager Rendezvous Matching Reshard.
From S2P Require Import ReshardPlan.
Open Scope Z_scope.

Section Follows.
Context `{RealmMemory} `{!RealmLimits} {C : Type} {M : Manager C} {Hlaws : ManagerLaws M}.
Context (cells : nat -> option nat) (p : Processor).
#[local] Existing Instance logged.

Abbreviation F := (@Frame _ _ (C * Log)).

(** ** Single steps *)
Lemma runs_modify {B} (f : F) g (k : SM F B) calls Q :
  fr_sys (g f) = fr_sys f -> runs (g f) k calls Q ->
  runs f (_ ← sm_modify g; k) calls Q.
Proof.
  intros Hg. apply runs_from; [done|unfold fr_log; by rewrite Hg|unfold fr_world; by rewrite Hg].
Qed.

Lemma target_ready (f f1 : F) x : receives_data (a_call x) -> a_ask x = store_event f ->
  after_call f f1 ->
  target_done f [x] (mkFrame (fr_view f1) (Store_ReadyAfter (a_event x) (a_event x) (fr_store f1)) (fr_sys f1)).
Proof.
  intros Hc Hx (Hv & Hs & Hk). split.
  - split_and!; [done|cbn; by rewrite Hs|..].
    + intros fired Hm _ Hp.
      change (fired (Store_Precondition (Store_ReadyAfter (a_event x) (a_event x) (fr_store f1)))) in Hp.
      apply fired_precondition in Hp as [_ Hrw]; [|done].
      apply fired_ready_after in Hrw as [He Hrw]; [|done]. rewrite Hs in Hrw.
      split; [done|]. by apply Forall_singleton.
    + intros fired Hm _ Hp [He _]%Forall_cons. cbn [fr_store]. rewrite Hs. by apply ready_after_live.
  - apply receives_waited; by apply Forall_singleton.
Qed.

Lemma source_sent (f f1 : F) x : a_ask x = view_event f -> after_call f f1 ->
  source_open f [x] (mkFrame (View_DoneAfter (fr_view f1) (a_event x)) (fr_store f1) (fr_sys f1)).
Proof.
  intros Hx (Hv & Hs & Hk). split_and!; cbn; [done|by rewrite Hv|by rewrite Hv|by rewrite Hv|by apply Forall_singleton|..].
  - intros fired Hm _ Hviews. apply Forall_app in Hviews as [_ He].
    apply Forall_cons in He as [He _]. by apply Forall_singleton.
  - intros fired Hm _ Hviews [He _]%Forall_cons. cbn. rewrite Hv. apply Forall_app.
    split; [done|]. by apply Forall_singleton.
Qed.

Lemma no_target_call (f : F) : target_done f [] f.
Proof.
  split; [|constructor]. split_and!; [done..| |by intros fired Hm _ Hp _].
  intros fired Hm _ Hp. apply fired_precondition in Hp as [_ Hrw]; [|done]. split; [done|constructor].
Qed.

Lemma no_source_call (f : F) : source_open f [] f.
Proof. split_and!; try done; [constructor|intros; constructor|by intros fired Hm _ Hv _]. Qed.

Lemma HasTile_some d t : array_ d = Some t -> HasTile d = true.
Proof. intros E. unfold HasTile. by rewrite E. Qed.
Lemma HasTile_none d : array_ d = None -> HasTile d = false.
Proof. intros E. unfold HasTile. by rewrite E. Qed.

(** Reads of the two arrays and of their tiles, then the rest. *)
Ltac read :=
  lazymatch goal with
  | |- runs _ (src_array _ ≫= _) _ _ => eapply runs_pure; [apply src_array_ret|]
  | |- runs _ (dst_array ≫= _) _ _ => eapply runs_pure; [apply dst_array_ret|]
  | |- runs _ (sm_lift (sa_tile _) ≫= _) _ _ => eapply runs_pure; [unfold sm_lift; by erewrite sa_tile_ret|]
  | |- runs _ (sm_lift _ ≫= _) _ _ => eapply runs_pure; [unfold sm_lift; by f_equal|]
  end.

(** A single call. *)
Lemma loop_send f1 shape key d role c :
  role <> ToTarget -> c = mkCall role shape key ->
  runs f1 (send p shape key d) [c] (one_call view_event f1).
Proof. intros Hr ->. apply runs_send; [done|]. intros x f' Hx Hf'. by exists x. Qed.

Lemma loop_recv f1 shape key a c :
  c = mkCall ToTarget shape key ->
  runs f1 (recv p shape key a) [c] (one_call store_event f1).
Proof. intros ->. apply runs_recv. intros x f' Hx Hf'. by exists x. Qed.

(** ** The phases of every pattern *)
Lemma mapO_forall {A B} (f : A -> outcome B) (P : B -> Prop) l : forall k,
  mapO f l = Ret k -> (forall x y, f x = Ret y -> P y) -> Forall P k.
Proof.
  induction l as [|x l IH]; intros k Hk HP; cbn in Hk; [by injection Hk as <-|].
  destruct (f x) eqn:E; try done. cbn in Hk. destruct (mapO f l); try done. injection Hk as <-.
  constructor; [by eapply HP|by apply IH].
Qed.

Lemma p2p_target f a d t : src_is cells f a -> dst_is f d -> array_ d = Some t ->
  runs f (t ← sm_lift (sa_tile d);
          a ← src_array cells;
          _ ← P2PToLocalTarget p (realm_shape t) a (shard_id_ d) (shard_id_ d);
          mret tt)
    [mkCall ToTarget (realm_shape t) (key_of a d (shard_id_ d) (shard_id_ d))]
    (fun _ ans f' => target_done f ans f').
Proof.
  intros Ha Hd Ht. read. read; [done|]. unfold P2PToLocalTarget.
  rewrite <- (app_nil_r [_]). eapply (runs_bind _ _ _ _ _ (fun _ ans f' => target_done f ans f')).
  - read; [done|]. rewrite <- (app_nil_r [_]). eapply runs_bind.
    + by apply loop_recv.
    + intros ev ans f1 Hc (x & -> & <- & Hx & Hf1) _. apply runs_modify; [done|]. apply runs_ret. cbn.
      injection Hc as Hc. by apply target_ready; [unfold receives_data; rewrite Hc|..].
  - cbn. intros ev ans f1 _ Hf1 _. apply runs_ret. by rewrite app_nil_r.
Qed.

Lemma p2p_source f a d t : src_is cells f a -> dst_is f d -> array_ a = Some t ->
  runs f (t ← sm_lift (sa_tile a);
          d ← dst_array;
          _ ← with_moved (P2PFromLocalSource cells p (realm_shape t) d (shard_id_ a) (shard_id_ a));
          mret tt)
    [mkCall FromSource (realm_shape t) (key_of a d (shard_id_ a) (shard_id_ a))]
    (fun _ ans f' => source_done f ans f').
Proof.
  intros Ha Hd Ht. read. read; [done|]. rewrite <- (app_nil_r [_]).
  eapply (runs_bind _ _ _ _ _ (fun _ ans f' => source_done f ans f' /\ True)).
  - apply (runs_with_moved _ _ _ (fun _ _ _ => True)). intros f1 Hs Hw Hwar Hval _ _.
    unfold P2PFromLocalSource. read.
    { apply (src_is_keeps _ f); [done|done|by rewrite Hw]. }
    rewrite <- (app_nil_r [_]). eapply runs_bind.
    + by apply (loop_send _ _ _ _ FromSource).
    + intros ev ans f2 _ (x & -> & <- & Hx & Hf2) _. apply runs_modify; [done|]. apply runs_ret.
      split; [|done]. cbn. by apply source_open_done, source_sent.
  - cbn. intros _ ans f1 _ [Hf1 _] _. apply runs_ret. by rewrite app_nil_r.
Qed.

Lemma runs_open_done {A} (f : F) (m : SM F A) calls :
  runs f m calls (fun _ ans f' => source_open f ans f') ->
  runs f m calls (fun _ ans f' => source_done f ans f').
Proof. intros Hr. eapply runs_mono; [exact Hr|]. intros x ans f' _. apply source_open_done. Qed.

Lemma runs_and_true {A} (f : F) (m : SM F A) calls (Q : list Answer -> F -> Prop) :
  runs f m calls (fun _ ans f' => Q ans f') <-> runs f m calls (fun _ ans f' => Q ans f' /\ True).
Proof. split; intros Hr; (eapply runs_mono; [exact Hr|naive_solver]). Qed.

Lemma mapO_pure {A B} (g : A -> B) l : mapO (fun x => mret (g x)) l = Ret (g <$> l).
Proof. by apply mapO_ok. Qed.

Lemma sg_source f c a d : src_is cells f a -> dst_is f d ->
  runs f (d ← dst_array; with_subview (ReshardScatterGatherFromLocalSource cells p c d))
    (slice_call FromSource a d <$> from_source c) (fun _ ans f' => source_open f ans f').
Proof.
  intros Ha Hd. read; [done|]. apply runs_with_subview. intros f1 Hs Hk Hv _.
  apply runs_open_done.
  eapply runs_send_phase; [apply mapO_pure|]. intros sl call f2 [= <-] Hf2. read.
  - eapply after_call_src, Hf2. by apply (src_is_keeps _ f).
  - by apply (loop_send _ _ _ _ FromSource).
Qed.

Lemma sg_target f c a d : src_is cells f a -> dst_is f d ->
  runs f (a ← src_array cells; ReshardScatterGatherToLocalTarget p c a)
    (slice_call ToTarget a d <$> to_target c) (fun _ ans f' => target_done f ans f').
Proof.
  intros Ha Hd. read; [done|].
  eapply runs_recv_phase; [apply mapO_pure|by apply Forall_fmap, Forall_true|].
  intros sl call f2 [= <-] Hf2. read; [by eapply after_call_dst|]. by apply loop_recv.
Qed.

Lemma broadcast_source f c s a d t : src_is cells f a -> dst_is f d -> array_ a = Some t ->
  bc_source c = Some s ->
  runs f (d ← dst_array; with_moved (ReshardBroadcastFromLocalSource cells p c d))
    ((fun root => mkCall FromSource (realm_shape t) (key_of a d (shard_id_ a) root)) <$> dst_root_shards s)
    (fun _ ans f' => source_done f ans f').
Proof.
  intros Ha Hd Ht Hc. read; [done|]. 
  apply runs_and_true, (runs_with_moved _ _ _ (fun _ _ _ => True)). intros f1 Hs Hw Hwar Hv _ _.
  unfold ReshardBroadcastFromLocalSource. rewrite Hc. read.
  apply (runs_and_true _ _ _ (source_done f1)), runs_open_done.
  eapply runs_send_phase; [apply mapO_pure|]. intros root call f2 [= <-] Hf2. read.
  - eapply after_call_src, Hf2. apply (src_is_keeps _ f); [done|done|by rewrite Hw].
  - read. by apply (loop_send _ _ _ _ FromSource).
Qed.

Lemma gather_source f c a d s : src_is cells f a -> dst_is f d ->
  gs_src_shard c = Some s -> forall shard calls,
  DeviceListOps.ShardId (devices (sa_sharding a)) (global_id_ p) = Ret (Some shard) ->
  mapO (fun i => b ← deref (source_to_target_bounds c);
                 mret (mkCall FromSource b (key_of a d shard i)))
    (seqZ 0 (DeviceListOps.size (devices (sa_sharding d)))) = Ret calls ->
  runs f (d ← dst_array; GatherShardsFromLocalSource cells p c d) calls
    (fun _ ans f' => source_open f ans f').
Proof.
  intros Ha Hd Hs shard calls Hshard Hcalls. read; [done|].
  unfold GatherShardsFromLocalSource. read; [done|]. read. cbn [deref]. read.
  eapply runs_send_phase; [exact Hcalls|]. intros i call f1 Hi Hf1. read.
  - by eapply after_call_src.
  - destruct (source_to_target_bounds c) as [b'|]; [|done]. injection Hi as <-. cbn [deref]. read.
    by apply (loop_send _ _ _ _ FromSource).
Qed.

Lemma gather_target f c a d shard calls : src_is cells f a -> dst_is f d ->
  gs_dst_shard c = Some shard ->
  mapO (fun i => b ← vec_get (target_from_source_bounds c) i;
                 mret (mkCall ToTarget b (key_of a d i shard)))
    (seqZ 0 (DeviceListOps.size (devices (sa_sharding a)))) = Ret calls ->
  runs f (a ← src_array cells; GatherShardsToLocalTarget p c a) calls
    (fun _ ans f' => target_done f ans f').
Proof.
  intros Ha Hd Hs Hcalls. read; [done|]. unfold GatherShardsToLocalTarget. rewrite Hs. read.
  eapply runs_recv_phase; [exact Hcalls| |].
  { eapply mapO_forall; [exact Hcalls|]. by intros i y (b & _ & [= <-])%bind_ret_inv. }
  intros i call f1 Hi Hf1. read; [by eapply after_call_dst|].
  cbn in Hi. destruct (vec_get (target_from_source_bounds c) i) as [b| | |]; try done. injection Hi as <-. read.
  by apply loop_recv.
Qed.

Lemma scatter_source f a d n shard offset calls : src_is cells f a -> dst_is f d ->
  shards_per_source a d = Ret n ->
  DeviceListOps.ShardId (devices (sa_sharding a)) (global_id_ p) = Ret (Some shard) ->
  mul64 n shard = Ret offset ->
  mapO (fun i =>
      to ← add64 offset i;
      b ← ComputeTileBounds to (sa_sharding d);
      mret (mkCall FromSource b (key_of a d shard to)))
    (seqZ 0 n) = Ret calls ->
  runs f (d ← dst_array; ScatterShardsFromLocalSource cells p d) calls
    (fun _ ans f' => source_open f ans f').
Proof.
  intros Ha Hd Hn Hs Ho Hcalls. read; [done|]. unfold ScatterShardsFromLocalSource.
  read; [done|]. do 4 (read; cbn [deref]).
  eapply runs_send_phase; [exact Hcalls|]. intros i call f1 Hi Hf1.
  cbn in Hi. destruct (add64 offset i) as [to| | |]; try done. cbn in Hi. read. read; [by eapply after_call_src|].
  destruct (ComputeTileBounds to (sa_sharding d)) as [b| | |]; try done. injection Hi as <-. read.
  by apply (loop_send _ _ _ _ FromSource).
Qed.

Lemma scatter_target f a d t n shard from : src_is cells f a -> dst_is f d ->
  array_ d = Some t ->
  DeviceListOps.ShardId (devices (sa_sharding d)) (global_id_ p) = Ret (Some shard) ->
  shards_per_source a d = Ret n -> div64 shard n = Ret from ->
  runs f (a ← src_array cells; ScatterShardsToLocalTarget p a)
    [mkCall ToTarget (realm_shape t) (key_of a d from shard)]
    (fun _ ans f' => target_done f ans f').
Proof.
  intros Ha Hd Ht Hs Hn Hf. read; [done|]. unfold ScatterShardsToLocalTarget.
  read; [done|]. do 5 (read; cbn [deref]). rewrite <- (app_nil_r [_]).
  eapply runs_bind; [by apply loop_recv|].
  intros ev ans f1 Hc (x & -> & <- & Hx & Hf1) _. eapply (runs_from _ _ _ (mret tt)); [done..|].
  apply runs_ret. injection Hc as Hc. by apply target_ready; [unfold receives_data; rewrite Hc|..].
Qed.

(** The target of a broadcast: it receives, then forwards. *)
Lemma broadcast_receive f c a d t : src_is cells f a -> dst_is f d -> array_ d = Some t ->
  runs f (initial_precondition p c a)
    (match tc_src_shard c, tc_dst_root_shard c with
     | Some s, _ => [mkCall ToTarget (realm_shape t) (key_of a d s (shard_id_ d))]
     | None, Some r => [mkCall ToTarget (realm_shape t) (key_of d d r (shard_id_ d))]
     | None, None => []
     end)
    (fun ev ans f' => after_call f f' /\ waited (store_event f) ans /\
       Forall (fun x => receives_data (a_call x)) ans /\
       forall fired, Moment fired -> (fired ev <-> all_done fired ans)).
Proof.
  intros Ha Hd Ht. unfold initial_precondition. destruct (tc_src_shard c), (tc_dst_root_shard c).
  4: { apply runs_ret. split_and!; [by split_and!|constructor..|].
       intros fired Hm. split; [constructor|intros _; apply fired_no_event]. }
  all: read; [done|]; read; eapply runs_mono; [by apply loop_recv|];
    intros ev ans f' Hc (x & -> & <- & Hx & Hf'); injection Hc as Hc;
    split_and!; [done|by apply Forall_singleton|apply Forall_singleton; unfold receives_data; by rewrite Hc|];
    intros fired Hm; unfold all_done; by rewrite Forall_singleton.
Qed.

(** Forwarding: every copy is an operation of the view. *)
Lemma broadcast_forward f d t leaves : dst_is f d -> array_ d = Some t ->
  runs f (_ ← for_events (fun shard =>
             d ← dst_array;
             t ← sm_lift (sa_tile d);
             copy ← send p (realm_shape t) (key_of d d (shard_id_ d) shard) d;
             _ ← done_after copy;
             mret copy) leaves;
          mret tt)
    ((fun leaf => mkCall Forward (realm_shape t) (key_of d d (shard_id_ d) leaf)) <$> leaves)
    (fun _ ans f' => source_open f ans f').
Proof.
  intros Hd Ht. rewrite <- (app_nil_r (_ <$> leaves)).
  set (I ans f' := source_open f ans f' /\ keeps_world (fr_world f) (fr_world f')).
  eapply (runs_bind _ _ _ _ _ (fun _ ans f' => I ans f')).
  - eapply runs_mono; [eapply (runs_for_events _ _ I leaves _ f []); [exact (mapO_pure (fun leaf => mkCall Forward (realm_shape t) (key_of d d (shard_id_ d) leaf)) leaves)| |]|].
    + intros leaf call ans f1 [= <-] [(Hs & Hw & Hv & Hpe & Hpre & Hev & Hlive) Hk].
      read; [apply (dst_is_keeps f); [done|by rewrite Hs|done]|]. read. rewrite <- (app_nil_r [_]).
      eapply runs_bind; [by apply (loop_send _ _ _ _ Forward)|].
      intros ev ans1 f2 _ (x & -> & <- & Hx & Hv2 & Hs2 & Hk2) _. apply runs_modify; [done|]. apply runs_ret.
      exists x. split; [done|]. split; [done|]. split; [|by etrans].
      split_and!; cbn [fr_view fr_store View_DoneAfter war_dependency view_value]; [congruence..| | | |].
      * rewrite <- Hpe, <- Hv2. done.
      * apply Forall_app. split; [done|]. apply Forall_singleton. rewrite Hx. unfold view_event. by rewrite <- Hpe, <- Hv.
      * intros fired Hm Hh. rewrite Hv2. cbn. intros [Hl Hr]%Forall_app. apply Forall_app.
        apply Forall_cons in Hr as [Hr _]. split; [|by apply Forall_singleton].
        apply Hev; [done| |done]. by apply (honoured_keeps _ _ _ Hk2).
      * intros fired Hm Hh Hv0 [Hd0 Hdx]%Forall_app. cbn. rewrite Hv2. apply Forall_app.
        apply Forall_cons in Hdx as [Hdx _]. split; [|by apply Forall_singleton].
        apply Hlive; [done| |done|done]. by apply (prompt_keeps _ _ _ Hk2).
    + split; [apply no_source_call|done].
    + by intros _ ans f' _ [_ HI].
  - cbn. intros _ ans f' _ [HI _] _. apply runs_ret. by rewrite app_nil_r.
Qed.

(** Forwards wait for the data that was received before. *)
Lemma receive_then_forward (f f2 : F) ans1 ans2 :
  waited (store_event f) ans1 -> Forall (fun x => receives_data (a_call x)) ans1 ->
  waited (write_event f2) ans2 -> store_value (fr_store f2) = store_value (fr_store f) ->
  Forall (fun x => call_role (a_call x) = Forward) ans2 ->
  (forall fired, Moment fired -> (fired (rw_event (fr_store f2)) <->
     fired (rw_event (fr_store f)) /\ all_done fired ans1)) ->
  all_waited f (ans1 ++ ans2).
Proof.
  unfold waited, all_waited. rewrite !Forall_forall. intros Hw1 Hr1 Hw2 Hs2 Hr2 Hf2 x Hx.
  unfold waits_as_planned. apply elem_of_app in Hx as [Hx|Hx].
  - rewrite (Hr1 x Hx). by apply Hw1.
  - rewrite (Hr2 x Hx), (Hw2 x Hx). split; [cbn; unfold store_view_value; by rewrite Hs2|].
    intros fired Hm. change (write_event f2).1 with (rw_event (fr_store f2)). rewrite (Hf2 fired Hm).
    unfold covers, all_done. rewrite Forall_app. apply and_iff_compat_l. split.
    + intros Hall. split; [by eapply Forall_impl; [exact Hall|]|]. apply Forall_forall.
      intros y Hy Hry. unfold receives_data in Hry. by rewrite (Hr2 y Hy) in Hry.
    + intros [Hall _]. rewrite !Forall_forall in *. intros y Hy. by apply Hall, Hr1.
Qed.

Lemma broadcast_target f c tc a d t : src_is cells f a -> dst_is f d -> array_ d = Some t ->
  bc_target c = Some tc ->
  runs f (a ← src_array cells; ReshardBroadcastToLocalTarget p c a)
    (broadcast_target_calls tc a d t) (fun _ ans f' => target_done f ans f').
Proof.
  intros Ha Hd Ht Htc. read; [done|]. unfold ReshardBroadcastToLocalTarget. rewrite Htc. read.
  eapply runs_bind; [by apply (broadcast_receive _ tc a d t)|].
  intros ev ans1 f1 _ ((Hv & Hs & Hk) & Hw & Hr & Hev) _. apply runs_modify; [done|].
  set (f2 := mkFrame (fr_view f1) (Store_ReadyAfter ev ev (fr_store f1)) (fr_sys f1)).
  assert (Hd2 : dst_is f2 d) by (apply (dst_is_keeps f); [done|cbn; by rewrite Hs|done]).
  assert (Hf2 : forall fired, Moment fired -> (fired (rw_event (fr_store f2)) <->
            fired (rw_event (fr_store f)) /\ all_done fired ans1)).
  { intros fired Hm. change (rw_event (fr_store f2)) with (rw_event (Store_ReadyAfter ev ev (fr_store f1))).
    rewrite (fired_ready_after fired ev ev (fr_store f1)), Hs, (Hev fired Hm). tauto. }
  eapply (runs_mono _ _ _ (fun _ ans f' => target_part f2 ans f' /\ waited (write_event f2) ans)).
  - destruct (tc_dst_leaf_shards tc) as [|leaf leaves] eqn:El.
    { apply runs_ret. split; [apply no_target_call|constructor]. }
    apply runs_with_store_view. intros f3 Hs3 Hk3 _. apply runs_open_done, broadcast_forward; [|done].
    by apply (dst_is_keeps f2).
  - intros _ ans2 f3 Hc2 [(Hv3 & Hs3 & Ht3 & Hl3) Hw2].
    split; [split_and!|].
    + by rewrite Hv3.
    + rewrite Hs3. cbn. by rewrite Hs.
    + intros fired Hm Hh [Hrw He2]%Ht3; [|done..]. apply (Hf2 fired Hm) in Hrw as [Hrw0 He1].
      split; [done|]. by apply Forall_app.
    + intros fired Hm Hh Hp [He1 He2]%Forall_app. apply Hl3; [done|done| |done].
      refine (ready_after_live fired ev (fr_store f1) _ _); [by rewrite Hs|by apply Hev].
    + assert (Hfw : Forall (fun x => call_role (a_call x) = Forward) ans2).
      { apply (Forall_calls (fun c => call_role c = Forward) _ _ Hc2). by apply Forall_fmap, Forall_true. }
      apply (receive_then_forward f f2); try done. cbn. by rewrite Hs.
Qed.

Lemma runs_keeps {A} (f : F) (m : SM F A) calls (Q : A -> list Answer -> F -> Prop) :
  runs f m calls Q ->
  runs f m calls (fun x ans f' => Q x ans f' /\ keeps_world (fr_world f) (fr_world f')).
Proof.
  intros (r & f' & l & Em & El & Hk & Hr). exists r, f', l. split_and!; [done..|].
  destruct Hr as [(x & ans & Hx)|Hr]; [left|by right]. exists x, ans. naive_solver.
Qed.

(** ** Both phases *)
(** When all calls are over, so is the view, and the store is ready. *)
Definition reshard_live (f : F) (ans : list Answer) (f' : F) : Prop :=
  forall fired, Moment fired -> prompt fired (triggers (close (fr_view f') f')) ->
    all_done fired ans ->
    (forall u, war_dependency (fr_view f) = Some u -> Forall fired (views (fr_view f)) ->
       fired (user_event u)) /\
    (fired (Store_Precondition (fr_store f)) -> fired (Store_Precondition (fr_store f'))).

Definition reshard_done (f : F) (ans : list Answer) (f' : F) : Prop :=
  all_waited f ans /\
  (forall fired, Moment fired -> honoured fired (triggers (close (fr_view f') f')) ->
    (forall u, war_dependency (fr_view f) = Some u -> fired (user_event u) ->
       covers fired for_source ans) /\
    (fired (Store_Precondition (fr_store f')) ->
       fired (rw_event (fr_store f)) /\ covers fired for_target ans)) /\
  reshard_live f ans f'.

Lemma covers_fired fired P ans : all_done fired ans -> covers fired P ans.
Proof. intros Ha. eapply Forall_impl; [exact Ha|]. by intros x Hx _. Qed.

Lemma covers_none fired (P : PlannedCall -> Prop) ans :
  Forall (fun x => ~ P (a_call x)) ans -> covers fired P ans.
Proof. intros Ha. eapply Forall_impl; [exact Ha|]. by intros x Hx HP. Qed.

(** A target phase and a source phase waited as planned. *)
Lemma phases_waited (f f1 : F) ans1 ans2 :
  Forall (fun x => for_target (a_call x)) ans1 -> Forall (fun x => for_source (a_call x)) ans2 ->
  all_waited f1 ans1 -> store_event f1 = store_event f -> write_event f1 = write_event f ->
  waited (view_event f) ans2 ->
  forall ans, ans ≡ₚ ans1 ++ ans2 -> all_waited f ans.
Proof.
  unfold all_waited, waited. rewrite !Forall_forall. intros Ht Hs Hw1 Est Erw Hw2 ans Hans.
  apply Forall_forall. intros x Hx.
  rewrite Hans in Hx. apply elem_of_app in Hx as [Hx|Hx].
  - specialize (Ht x Hx). specialize (Hw1 x Hx). revert Hw1. unfold waits_as_planned, for_target in *.
    rewrite Est, Erw. destruct (call_role (a_call x)) eqn:Er; [done|done|].
    intros [Ho Hf]. split; [done|]. intros fired Hm. rewrite (Hf fired Hm). apply and_iff_compat_l.
    unfold covers. rewrite Hans, Forall_app. split; [|by intros [Hc _]].
    intros Hc. split; [done|]. apply Forall_forall. intros y Hy Hr. specialize (Hs y Hy).
    unfold receives_data, for_source in *. congruence.
  - unfold waits_as_planned. rewrite (Hs x Hx). by apply Hw2.
Qed.

(** A target phase, then a source phase that destroys the view. *)
Lemma target_then_source f (m1 m2 : SM F unit) c1 c2 :
  Forall for_target c1 -> Forall for_source c2 ->
  runs f m1 c1 (fun _ ans f' => target_done f ans f') ->
  (forall f1, fr_view f1 = fr_view f -> store_value (fr_store f1) = store_value (fr_store f) ->
     keeps_world (fr_world f) (fr_world f1) ->
     runs f1 m2 c2 (fun _ ans f' => source_done f1 ans f')) ->
  runs f (_ ← m1; m2) (c1 ++ c2) (fun _ ans f' => reshard_done f ans f').
Proof.
  intros Hc1 Hc2 Hm1 Hm2. eapply runs_bind; [exact Hm1|].
  intros _ ans1 f1 Ha1 [(Hv1 & Hs1 & Ht & Hlt) Hw1] Hk1. eapply runs_mono; [by apply runs_keeps, Hm2|].
  intros _ ans2 f2 Ha2 [(Hs2 & Hw2 & Hd2 & Hl2) Hk2].
  apply (Forall_calls _ _ _ Ha1) in Hc1. apply (Forall_calls _ _ _ Ha2) in Hc2.
  split; [by apply (phases_waited f f ans1 ans2); try done; unfold view_event; rewrite <- Hv1|].
  split; intros fired Hm Hh.
  2: { intros [Hd1 Hdd]%Forall_app. split.
       - intros u Hu Hv0. apply (Hl2 u); [by rewrite Hv1|done|done|by rewrite Hv1|done].
       - intros Hp. rewrite Hs2. apply Hlt; [done| |done|done].
         eapply prompt_keeps, Hh. etrans; [exact Hk2|apply keeps_close]. }
  assert (Hh1 : honoured fired (triggers f1)).
  { eapply honoured_keeps, Hh. etrans; [exact Hk2|apply keeps_close]. }
  split.
  - intros u Hu Hfu. apply Forall_app. split; [apply covers_none|].
    + eapply Forall_impl; [exact Hc1|]. by intros c Hc Hs.
    + apply covers_fired. apply (Hd2 u); [by rewrite Hv1|done..].
  - rewrite Hs2. intros [Hrw He]%(Ht fired Hm Hh1). split; [done|].
    apply Forall_app. split; [by apply covers_fired|]. apply covers_none.
    eapply Forall_impl; [exact Hc2|]. by intros c Hc Hn.
Qed.

(** A source phase, then a target phase. *)
Lemma source_then_target f (m1 m2 : SM F unit) c1 c2 :
  Forall for_source c1 -> Forall for_target c2 ->
  runs f m1 c1 (fun _ ans f' => source_open f ans f') ->
  (forall f1, view_value (fr_view f1) = view_value (fr_view f) -> fr_store f1 = fr_store f ->
     keeps_world (fr_world f) (fr_world f1) ->
     runs f1 m2 c2 (fun _ ans f' => target_done f1 ans f')) ->
  runs f (_ ← m1; m2) (c1 ++ c2) (fun _ ans f' => reshard_done f ans f').
Proof.
  intros Hc1 Hc2 Hm1 Hm2. eapply runs_bind; [exact Hm1|].
  intros _ ans1 f1 Ha1 (Hs1 & Hw1 & Hv1 & Hpe1 & Hpre1 & Hev1 & Hl1) Hk1.
  eapply runs_mono; [by apply runs_keeps, Hm2|].
  intros _ ans2 f2 Ha2 [[(Hv2 & Hsv2 & Ht & Hl2) Hw2] Hk2].
  apply (Forall_calls _ _ _ Ha1) in Hc1. apply (Forall_calls _ _ _ Ha2) in Hc2. split.
  { apply (phases_waited f f1 ans2 ans1); try done; [unfold store_event, write_event; by rewrite Hs1..|].
    apply Permutation_app_comm. }
  destruct (source_open_done f ans1 (mkFrame (fr_view f2) (fr_store f1) (fr_sys f2))) as (_ & _ & Hd & Hld).
  { split_and!; cbn; [done|by rewrite Hv2|by rewrite Hv2|by rewrite Hv2|done|..].
    - intros fired' Hm' Hh'. rewrite Hv2. apply Hev1; [done|]. by apply (honoured_keeps _ _ _ Hk2).
    - intros fired' Hm' Hh'. cbn. rewrite Hv2. apply Hl1; [done|]. by apply (prompt_keeps _ _ _ Hk2). }
  split; intros fired Hm Hh.
  2: { intros [Hd1 Hdd]%Forall_app. split.
       - intros u Hu Hv0. by apply (Hld u Hu fired Hm Hh Hv0).
       - intros Hp. apply Hl2; [done| |by rewrite Hs1|done].
         eapply prompt_keeps, Hh. apply keeps_close. }
  split.
  - intros u Hu Hfu.
    apply Forall_app. split; [apply covers_fired|apply covers_none].
    + by apply (Hd u).
    + eapply Forall_impl; [exact Hc2|]. by intros c Hc Hn.
  - rewrite <- Hs1. intros [Hrw He]%(Ht fired Hm).
    2: { eapply honoured_keeps, Hh. apply keeps_close. }
    split; [done|]. apply Forall_app. split; [apply covers_none|by apply covers_fired].
    eapply Forall_impl; [exact Hc1|]. by intros c Hc Hs.
Qed.

(** The pattern runs with the moved view. *)
Lemma runs_moved_reshard {A} f (m : SM F A) calls :
  (forall f1, fr_store f1 = fr_store f -> fr_world f1 = fr_world f ->
     war_dependency (fr_view f1) = war_dependency (fr_view f) ->
     view_value (fr_view f1) = view_value (fr_view f) -> views (fr_view f1) = [] ->
     runs f1 m calls (fun _ ans f' => reshard_done f1 ans f')) ->
  runs f (with_moved m) calls (fun _ ans f' => reshard_done f ans f').
Proof.
  intros Hm. unfold with_moved. cbn. apply runs_with_view.
  eapply runs_mono; [by apply Hm|]. cbn. intros _ ans f' _ (Hw & Hd & Hl). split; [exact Hw|].
  split; [exact Hd|]. intros fired Hmm Hp Ha. destruct (Hl fired Hmm Hp Ha) as [Hu Hst].
  split; [|exact Hst]. intros u Hw0 _. by apply Hu.
Qed.

(** ** The patterns *)
Lemma source_calls role a d l : role = FromSource -> Forall for_source (slice_call role a d <$> l).
Proof. intros ->. apply Forall_fmap, Forall_true. done. Qed.

Ltac frames f := first [by apply (src_is_keeps _ f)|by apply (dst_is_keeps f)].

Lemma follows_point_to_point f a d : src_is cells f a -> dst_is f d ->
  runs f (ReshardPointToPoint cells p) (plan_point_to_point a d)
    (fun _ ans f' => reshard_done f ans f').
Proof.
  intros Ha Hd. unfold ReshardPointToPoint, plan_point_to_point. read; [done|].
  apply target_then_source.
  - destruct (array_ d); by repeat constructor.
  - destruct (array_ a); by repeat constructor.
  - destruct (array_ d) as [t|] eqn:Ht.
    + rewrite (HasTile_some _ _ Ht). by apply p2p_target.
    + rewrite (HasTile_none _ Ht). apply runs_ret, no_target_call.
  - intros f1 Hv Hs Hk.
    assert (Ha1 : src_is cells f1 a) by (apply (src_is_keeps _ f); [done|by rewrite Hv|done]).
    assert (Hd1 : dst_is f1 d) by (by apply (dst_is_keeps f)). read; [done|].
    destruct (array_ a) as [t|] eqn:Ht.
    + rewrite (HasTile_some _ _ Ht). by apply p2p_source.
    + rewrite (HasTile_none _ Ht). apply runs_ret, source_open_done, no_source_call.
Qed.

Lemma follows_scatter_gather f c a d : src_is cells f a -> dst_is f d ->
  runs f (ReshardScatterGather cells p c) (plan_scatter_gather c a d)
    (fun _ ans f' => reshard_done f ans f').
Proof.
  intros Ha Hd. unfold ReshardScatterGather, plan_scatter_gather. read; [done|].
  apply source_then_target.
  - destruct (HasTile a); [|done]. by apply Forall_fmap, Forall_true.
  - destruct (HasTile d); [|done]. by apply Forall_fmap, Forall_true.
  - destruct (HasTile a); [by apply sg_source|apply runs_ret, no_source_call].
  - intros f1 Hv Hs Hk.
    assert (Ha1 : src_is cells f1 a) by (by apply (src_is_keeps _ f)).
    assert (Hd1 : dst_is f1 d) by (apply (dst_is_keeps f); [done|by rewrite Hs|done]). read; [done|].
    destruct (HasTile d); [by apply sg_target|apply runs_ret, no_target_call].
Qed.

Lemma follows_broadcast f c a d calls : src_is cells f a -> dst_is f d ->
  plan_broadcast c a d = Ret calls ->
  runs f (ReshardBroadcast cells p c) calls (fun _ ans f' => reshard_done f ans f').
Proof.
  intros Ha Hd (tcalls & Ht & (scalls & Hs & [= <-])%bind_ret_inv)%bind_ret_inv.
  unfold ReshardBroadcast. read; [done|]. apply target_then_source.
  - destruct (array_ d); [|by injection Ht as <-]. apply bind_ret_inv in Ht as (tc & _ & [= <-]).
    unfold broadcast_target_calls. apply Forall_app. split; [|by apply Forall_fmap, Forall_true].
    destruct (tc_src_shard tc), (tc_dst_root_shard tc); by repeat constructor.
  - destruct (array_ a); [|by injection Hs as <-]. apply bind_ret_inv in Hs as (sc & _ & [= <-]).
    by apply Forall_fmap, Forall_true.
  - destruct (array_ d) as [t|] eqn:Htd.
    + apply bind_ret_inv in Ht as (tc & Htc & [= <-]). destruct (bc_target c) eqn:Hc; [|done].
      injection Htc as ->. rewrite (HasTile_some _ _ Htd). by apply broadcast_target.
    + injection Ht as <-. rewrite (HasTile_none _ Htd). apply runs_ret, no_target_call.
  - intros f1 Hv Hs1 Hk.
    assert (Ha1 : src_is cells f1 a) by (apply (src_is_keeps _ f); [done|by rewrite Hv|done]).
    assert (Hd1 : dst_is f1 d) by (by apply (dst_is_keeps f)). read; [done|].
    destruct (array_ a) as [t|] eqn:Hta.
    + apply bind_ret_inv in Hs as (sc & Hsc & [= <-]). destruct (bc_source c) eqn:Hc; [|done].
      injection Hsc as ->. rewrite (HasTile_some _ _ Hta). by apply broadcast_source.
    + injection Hs as <-. rewrite (HasTile_none _ Hta). apply runs_ret, source_open_done, no_source_call.
Qed.

Lemma follows_gather f c a d calls : src_is cells f a -> dst_is f d ->
  plan_gather p c a d = Ret calls ->
  runs f (ReshardGatherShards cells p c) calls (fun _ ans f' => reshard_done f ans f').
Proof.
  intros Ha Hd (scalls & Hs & (tcalls & Ht & [= <-])%bind_ret_inv)%bind_ret_inv.
  unfold ReshardGatherShards. read; [done|]. apply source_then_target.
  - destruct (array_ a); [|by injection Hs as <-].
    apply bind_ret_inv in Hs as (? & _ & (? & _ & (? & _ & Hs)%bind_ret_inv)%bind_ret_inv).
    eapply mapO_forall; [exact Hs|]. by intros i y (b & _ & [= <-])%bind_ret_inv.
  - destruct (array_ d); [|by injection Ht as <-]. apply bind_ret_inv in Ht as (? & _ & Ht).
    eapply mapO_forall; [exact Ht|]. by intros i y (b & _ & [= <-])%bind_ret_inv.
  - destruct (array_ a) as [t|] eqn:Hta.
    + rewrite (HasTile_some _ _ Hta). destruct (gs_src_shard c) as [s|] eqn:Hc; [|done].
      apply bind_ret_inv in Hs as (? & _ & (o & Ho & (i & Hi & Hs)%bind_ret_inv)%bind_ret_inv).
      destruct o as [o|]; [|done]. injection Hi as ->. by eapply gather_source.
    + injection Hs as <-. rewrite (HasTile_none _ Hta). apply runs_ret, no_source_call.
  - intros f1 Hv Hs1 Hk.
    assert (Ha1 : src_is cells f1 a) by (by apply (src_is_keeps _ f)).
    assert (Hd1 : dst_is f1 d) by (apply (dst_is_keeps f); [done|by rewrite Hs1|done]). read; [done|].
    destruct (array_ d) as [t|] eqn:Htd.
    + rewrite (HasTile_some _ _ Htd). destruct (gs_dst_shard c) as [s|] eqn:Hc; [|done].
      by eapply gather_target.
    + injection Ht as <-. rewrite (HasTile_none _ Htd). apply runs_ret, no_target_call.
Qed.

Lemma follows_scatter f c a d calls : src_is cells f a -> dst_is f d ->
  plan_scatter p a d = Ret calls ->
  runs f (ReshardScatterShards cells p c) calls (fun _ ans f' => reshard_done f ans f').
Proof.
  intros Ha Hd (scalls & Hs & (tcalls & Ht & [= <-])%bind_ret_inv)%bind_ret_inv.
  unfold ReshardScatterShards. read; [done|]. apply source_then_target.
  - destruct (array_ a); [|by injection Hs as <-].
    apply bind_ret_inv in Hs as (? & _ & (? & _ & (? & _ & (? & _ & Hs)%bind_ret_inv)%bind_ret_inv)%bind_ret_inv).
    eapply mapO_forall; [exact Hs|]. by intros i y (to & _ & (b & _ & [= <-])%bind_ret_inv)%bind_ret_inv.
  - destruct (array_ d); [|by injection Ht as <-].
    apply bind_ret_inv in Ht as (? & _ & (? & _ & (? & _ & (? & _ & [= <-])%bind_ret_inv)%bind_ret_inv)%bind_ret_inv).
    by repeat constructor.
  - destruct (array_ a) as [t|] eqn:Hta.
    + rewrite (HasTile_some _ _ Hta).
      apply bind_ret_inv in Hs as (n & Hn & (o & Ho & (i & Hi & (off & Hoff & Hs)%bind_ret_inv)%bind_ret_inv)%bind_ret_inv).
      destruct o as [o|]; [|done]. injection Hi as ->. by eapply scatter_source.
    + injection Hs as <-. rewrite (HasTile_none _ Hta). apply runs_ret, no_source_call.
  - intros f1 Hv Hs1 Hk.
    assert (Ha1 : src_is cells f1 a) by (by apply (src_is_keeps _ f)).
    assert (Hd1 : dst_is f1 d) by (apply (dst_is_keeps f); [done|by rewrite Hs1|done]). read; [done|].
    destruct (array_ d) as [t|] eqn:Htd.
    + rewrite (HasTile_some _ _ Htd).
      apply bind_ret_inv in Ht as (o & Ho & (i & Hi & (n & Hn & (from & Hfrom & [= <-])%bind_ret_inv)%bind_ret_inv)%bind_ret_inv).
      destruct o as [o|]; [|done]. injection Hi as ->. by eapply scatter_target.
    + injection Ht as <-. rewrite (HasTile_none _ Htd). apply runs_ret, no_target_call.
Qed.

(** ** The dispatch *)
Lemma follows_body f a d calls : src_is cells f a -> dst_is f d -> plan p a d = Ret calls ->
  runs f (Reshard_body cells p) calls (fun _ ans f' => reshard_done f ans f').
Proof.
  intros Ha Hd (variant & Hvar & Hcalls)%bind_ret_inv. unfold Reshard_body.
  read; [done|]. read; [done|]. rewrite Hvar. read.
  assert (Hmoved : forall m : SM F unit,
            (forall f1, src_is cells f1 a -> dst_is f1 d ->
               runs f1 m calls (fun _ ans f' => reshard_done f1 ans f')) ->
            runs f (with_moved m) calls (fun _ ans f' => reshard_done f ans f')).
  { intros m Hm. apply runs_moved_reshard. intros f1 Hs Hw Hwar Hv _. apply Hm.
    - apply (src_is_keeps _ f); [done|done|by rewrite Hw].
    - apply (dst_is_keeps f); [done|by rewrite Hs|by rewrite Hw]. }
  destruct variant; cbn in Hcalls; try done.
  - injection Hcalls as <-. apply Hmoved. intros f1. apply follows_point_to_point.
  - injection Hcalls as <-. apply Hmoved. intros f1. apply follows_scatter_gather.
  - apply Hmoved. intros f1 ??. by apply (follows_broadcast _ _ a d).
  - apply Hmoved. intros f1 ??. by apply (follows_gather _ _ a d).
  - apply Hmoved. intros f1 ??. by apply (follows_scatter _ _ a d).
  - injection Hcalls as <-. apply runs_ret. split; [constructor|]. split; intros fired Hm Hh.
    + split; [by constructor|].
      intros Hp. apply fired_precondition in Hp as [_ Hrw]; [|done]. split; [done|by constructor].
    + intros Hdone. split; [|done]. intros u Hu Hv0.
      destruct (source_open_done f [] f (no_source_call f)) as (_ & _ & _ & Hl). by apply (Hl u).
Qed.
End Follows.

(** ** Erasing the log

    With and without the log a reshard does the same. *)
Section Erasure.
Context `{RealmMemory} `{!RealmLimits} {C : Type} (M : Manager C).
Context (cells : nat -> option nat) (p : Processor).

Abbreviation F := (@Frame _ _ C).
Abbreviation FL := (@Frame _ _ (C * Log)).

Definition forget (f : FL) : F :=
  mkFrame (fr_view f) (fr_store f) ((fr_sys f).1.1, (fr_sys f).2).

Definition erases {A} (m : SM FL A) (m' : SM F A) : Prop :=
  forall f, m' (forget f) = ((m f).1, forget (m f).2).

Lemma erases_ret {A} (x : A) : erases (mret x) (mret x).
Proof. done. Qed.
Lemma erases_lift {A} (o : outcome A) : erases (sm_lift o) (sm_lift o).
Proof. done. Qed.

Lemma erases_bind {A B} (m : SM FL A) m' (k : A -> SM FL B) k' :
  erases m m' -> (forall x, erases (k x) (k' x)) -> erases (m ≫= k) (m' ≫= k').
Proof.
  intros Hm Hk f. unfold mbind, sm_bind. rewrite (Hm f).
  destruct (m f) as [[x|e|u|] f'] eqn:E; try done. cbn. apply Hk.
Qed.

Lemma erases_when b m m' : erases m m' -> erases (when b m) (when b m').
Proof. by destruct b. Qed.

Lemma erases_src : erases (src_array cells) (src_array cells).
Proof.
  intros [v st [[c l] w]]. unfold src_array. rewrite !sm_get_bind. cbn.
  unfold mbind, sm_bind, sm_lift. destruct (View_get cells v); try done.
Qed.
Lemma erases_dst : erases dst_array dst_array.
Proof. by intros [v st [[c l] w]]. Qed.
Lemma erases_done e : erases (done_after e) (done_after e).
Proof. done. Qed.
Lemma erases_ready e : erases (ready_after e) (ready_after e).
Proof. done. Qed.

Lemma erases_send shape key d :
  erases (send (Manager0 := logged M) p shape key d) (send (Manager0 := M) p shape key d).
Proof.
  intros [v st [[c l] w]]. unfold send. rewrite !sm_get_bind. unfold sys. cbn.
  by destruct (m_send p shape key v d (c, w)) as [r [c' w']].
Qed.
Lemma erases_recv shape key a :
  erases (recv (Manager0 := logged M) p shape key a) (recv (Manager0 := M) p shape key a).
Proof.
  intros [v st [[c l] w]]. unfold recv. rewrite !sm_get_bind. unfold sys. cbn.
  by destruct (m_recv p shape key a st (c, w)) as [r [c' w']].
Qed.

Lemma erases_for_events {A} (body : A -> SM FL Event) body' l :
  (forall x, erases (body x) (body' x)) -> erases (for_events body l) (for_events body' l).
Proof.
  intros Hb. induction l as [|x l IH]; [done|]. cbn. apply erases_bind; [done|]. intros e.
  apply erases_bind; [done|]. done.
Qed.

Lemma erases_with_view {A} v outer (m : SM FL A) m' :
  erases m m' -> forall f, with_view v outer m' (forget f) =
    ((with_view v outer m f).1, forget (with_view v outer m f).2).
Proof.
  intros Hm [v0 st [[c l] w]]. unfold with_view. cbn.
  rewrite (Hm (mkFrame v st (c, l, w)) : m' (mkFrame v st (c, w)) = _).
  by destruct (m _) as [r [v1 st1 [[c1 l1] w1]]].
Qed.

Lemma erases_with_moved {A} (m : SM FL A) m' : erases m m' -> erases (with_moved m) (with_moved m').
Proof. intros Hm f. unfold with_moved. cbn. by apply erases_with_view. Qed.

Lemma erases_with_subview {A} (m : SM FL A) m' : erases m m' -> erases (with_subview m) (with_subview m').
Proof.
  intros Hm [v st [[c l] w]].
  exact (erases_with_view (View_view v (w_rt w)).1.1 (View_view v (w_rt w)).1.2 m m' Hm
    (mkFrame (View_view v (w_rt w)).1.2 st (c, l, set_rt (View_view v (w_rt w)).2 w))).
Qed.

Lemma erases_with_store_view {A} (m : SM FL A) m' :
  erases m m' -> erases (with_store_view m) (with_store_view m').
Proof.
  intros Hm [v st [[c l] w]].
  exact (erases_with_view (Store_view st (w_rt w)).1.1 v m m' Hm
    (mkFrame v (Store_view st (w_rt w)).1.2 (c, l, set_rt (Store_view st (w_rt w)).2 w))).
Qed.

Create HintDb erases.
#[local] Hint Resolve erases_ret erases_lift erases_bind erases_when erases_src erases_dst
  erases_done erases_ready erases_send erases_recv erases_for_events erases_with_moved
  erases_with_subview erases_with_store_view : erases.
#[local] Ltac erase :=
  repeat (first [ progress intros
                | apply erases_bind | apply erases_when | apply erases_for_events
                | apply erases_with_moved | apply erases_with_subview | apply erases_with_store_view
                | solve [eauto 2 with erases]
                | case_match ]).

Lemma erases_body :
  erases (Reshard_body (Manager0 := logged M) cells p) (Reshard_body (Manager0 := M) cells p).
Proof.
  unfold Reshard_body, ReshardPointToPoint, P2PToLocalTarget, P2PFromLocalSource,
    ReshardScatterGather, ReshardScatterGatherFromLocalSource, ReshardScatterGatherToLocalTarget,
    ReshardBroadcast, ReshardBroadcastToLocalTarget, ReshardBroadcastFromLocalSource,
    initial_precondition, ReshardGatherShards, GatherShardsFromLocalSource, GatherShardsToLocalTarget,
    ReshardScatterShards, ScatterShardsFromLocalSource, ScatterShardsToLocalTarget.
  erase.
Qed.
End Erasure.

(** ** The reshard manager of the repository *)
Section ManagerKeeps.
Context `{RealmMemory} `{!RealmOps} `{!RealmMachine} (procs : ProcState) (cells : nat -> option nat).

Definition keeps {A} (m : SM (Comm * World) A) : Prop := forall c w, keeps_world w (m (c, w)).2.2.

Lemma keeps_ret {A} (x : A) : keeps (mret x).
Proof. by intros c w. Qed.
Lemma keeps_lift {A} (o : outcome A) : keeps (sm_lift o).
Proof. by intros c w. Qed.
Lemma keeps_get {A} (f : Comm -> A) : keeps (comm_get f).
Proof. by intros c w. Qed.
Lemma keeps_modify f : keeps (comm_modify f).
Proof. by intros c w. Qed.
Lemma keeps_state {A} (f : Comm -> A * Comm) : keeps (comm_state f).
Proof. intros c w. unfold comm_state. by destruct (f c). Qed.
Lemma keeps_user_event : keeps new_user_event.
Proof. intros c w. by split. Qed.
Lemma keeps_trigger u e : keeps (trigger_event u e).
Proof. destruct u; [|apply keeps_lift]. intros c w. split; [done|]. cbn. by eexists. Qed.
Lemma keeps_heap_get o : keeps (sm_snd (heap_get o)).
Proof. by intros c w. Qed.
Lemma keeps_issue_copy shape fs src dst pre : keeps (IssueCopy shape fs src dst pre).
Proof. destruct shape; [|apply keeps_lift]. by intros c w. Qed.

Lemma keeps_profile p name start stop : keeps (profile_reshard p name start stop).
Proof. destruct name; [|apply keeps_ret]. by intros c w. Qed.

Lemma keeps_bind {A B} (m : SM (Comm * World) A) (k : A -> SM (Comm * World) B) :
  keeps m -> (forall x, keeps (k x)) -> keeps (m ≫= k).
Proof.
  intros Hm Hk c w. specialize (Hm c w). unfold mbind, sm_bind.
  destruct (m (c, w)) as [[x|e|u|] [c' w']] eqn:E; try done.
  etrans; [exact Hm|apply Hk].
Qed.

Create HintDb keeps.
#[local] Hint Resolve keeps_ret keeps_lift keeps_get keeps_modify keeps_state keeps_user_event
  keeps_trigger keeps_heap_get keeps_issue_copy keeps_profile : keeps.
#[local] Ltac keep :=
  repeat (first [progress intros | apply keeps_bind | solve [eauto 2 with keeps] | case_match]).

#[export] Instance reshard_manager_laws : ManagerLaws (reshard_manager procs cells).
Proof.
  split; intros p shape key a b; change (keeps (m_send (Manager := reshard_manager procs cells) p shape key a b))
    || change (keeps (m_recv (Manager := reshard_manager procs cells) p shape key a b)); cbn;
  unfold ReshardFromLocalSource, ReshardToLocalTarget, EagerReshardFromLocalSource,
    EagerReshardToLocalTarget, RendezvousReshardFromLocalSource, RendezvousReshardToLocalTarget,
    view_deref, announce_ack, announce_target, RemoteCopyNextPendingToTarget; keep.
Qed.
End ManagerKeeps.

(** ** The property *)
(** The event and the object of a store: of its writes, and of all its accesses. *)
Definition writes_of `{RealmEvents} (s : @Store _ nat) : Event * Value := (rw_event s, store_view_value s).
Definition accesses_of `{RealmEvents} (s : @Store _ nat) : Event * Value :=
  (Store_Precondition s, store_view_value s).

Lemma follows_stores `{RealmMemory} `{!RealmLimits} {C : Type} (M : Manager C) `{!ManagerLaws M}
    (cells : nat -> option nat) (p : Processor) (src dst : @Store _ nat) (i j : nat)
    (a d : ShardedArray) (calls : list PlannedCall) (c : C) (w : World) :
  store_value src = Some i -> w_heap w !! i = Some a ->
  store_value dst = Some j -> w_heap w !! j = Some d -> plan p a d = Ret calls ->
  let u := next_user (w_rt w) in
  let v := (Store_view src (w_rt w)).1.1 in
  runs (C := C) (mkFrame v dst (c, [], set_rt (create_user_event (w_rt w)).2 w))
    (with_view v v (Reshard_body (Manager0 := logged M) cells p)) calls
    (fun _ ans f' =>
       Forall (waits_as_planned (writes_of src) (accesses_of dst) (writes_of dst) ans) ans /\
       (forall fired, Moment fired -> honoured fired (triggers f') ->
         (fired (user_event u) -> covers fired for_source ans) /\
         (fired (Store_Precondition (fr_store f')) ->
            fired (rw_event dst) /\ covers fired for_target ans)) /\
       forall fired, Moment fired -> prompt fired (triggers f') -> all_done fired ans ->
         fired (user_event u) /\
         (fired (Store_Precondition dst) -> fired (Store_Precondition (fr_store f')))).
Proof.
  intros Hi Ha Hj Hd Hplan u v. apply runs_with_view.
  eapply runs_mono; [apply (follows_body (M := M) cells p _ a d calls); [| |done]|].
  - exists i. split; [|done]. cbn. unfold View_get, store_view_value. cbn. by rewrite Hi.
  - by exists j.
  - intros x ans f' _ (Hw & Hdone & Hl). split; [exact Hw|]. split; intros fired Hm Hh.
    + destruct (Hdone fired Hm Hh) as [Hs Ht]. split; [by apply Hs|done].
    + intros Ha'. destruct (Hl fired Hm Hh Ha') as [Hu Ht]. split; [by apply Hu|done].
Qed.

(** What [Reshard_stores] returns from the end of [Reshard_body]'s scope. *)
Definition finish `{RealmMemory} {C : Type} (src : @Store _ nat) (x : outcome unit * @Frame _ _ C)
    : outcome unit * (@Store _ nat * @Store _ nat * (C * World)) :=
  let '(r, (dst, s)) := (let '(r, f) := x in (r, (fr_store f, fr_sys f))) in (r, (src, dst, s)).

Section Stores.
Context `{RealmMemory} `{!RealmLimits} {C : Type} (M : Manager C) (cells : nat -> option nat).

(** The manager that logs the calls does what the manager itself does. *)
Lemma stores_erased (p : Processor) (src dst : @Store _ nat) (c : C) (w : World) r src' dst' c' l w' :
  Reshard_stores (Manager0 := logged M) cells p (src, dst, ((c, []), w)) = (r, (src', dst', ((c', l), w'))) ->
  Reshard_stores (Manager0 := M) cells p (src, dst, (c, w)) = (r, (src', dst', (c', w'))).
Proof.
  intros E. set (v := (Store_view src (w_rt w)).1.1).
  set (f := mkFrame v dst ((c, []), set_rt (create_user_event (w_rt w)).2 w) : @Frame _ _ (C * Log)).
  pose proof (erases_with_view v v _ _ (erases_body M cells p) f) as E0.
  change (finish (Store_view src (w_rt w)).1.2 (with_view v v (Reshard_body (Manager0 := logged M) cells p) f)
    = (r, (src', dst', ((c', l), w')))) in E.
  change (finish (Store_view src (w_rt w)).1.2
    (with_view v v (Reshard_body (Manager0 := M) cells p) (forget f)) = (r, (src', dst', (c', w')))).
  rewrite E0. destruct (with_view v v _ f) as [r1 [v1 st1 [[c1 l1] w1]]].
  injection E as <- <- <- <- _ <-. reflexivity.
Qed.

Context `{!ManagerLaws M}.

(** What a reshard between two stores does. *)
Lemma stores_follow (p : Processor) (src dst : @Store _ nat) (i j : nat)
    (a d : ShardedArray) (calls : list PlannedCall) (c : C) (w : World) :
  store_value src = Some i -> w_heap w !! i = Some a ->
  store_value dst = Some j -> w_heap w !! j = Some d -> plan p a d = Ret calls ->
  exists r src' dst' c' l w',
    Reshard_stores (Manager0 := logged M) cells p (src, dst, ((c, []), w)) =
      (r, (src', dst', ((c', l), w'))) /\
    ((r = Ret tt /\ exists ans, a_call <$> ans = calls /\ Forall asked ans /\ l = log_of ans /\
        Forall (waits_as_planned (writes_of src) (accesses_of dst) (writes_of dst) ans) ans /\
        (forall fired, Moment fired -> honoured fired (triggered (w_rt w')) ->
          (fired (Store_Precondition src') ->
             fired (Store_Precondition src) /\ covers fired for_source ans) /\
          (fired (Store_Precondition dst') ->
             fired (rw_event dst) /\ covers fired for_target ans)) /\
        forall fired, Moment fired -> prompt fired (triggered (w_rt w')) -> all_done fired ans ->
          (fired (Store_Precondition src) -> fired (Store_Precondition src')) /\
          (fired (Store_Precondition dst) -> fired (Store_Precondition dst'))) \/
     stopped r (manager_call <$> calls) l).
Proof.
  intros Hi Ha Hj Hd Hplan.
  destruct (follows_stores M cells p src dst i j a d calls c w Hi Ha Hj Hd Hplan)
    as (r & f' & l & E & El & Hk & Hr).
  destruct f' as [v' dst' [[c' l'] w']]. cbn in El. subst l'.
  set (src' := (Store_view src (w_rt w)).1.2). exists r, src', dst', c', l, w'.
  split; [exact (f_equal (finish src') E)|].
  destruct Hr as [([] & ans & -> & Hc & Hak & -> & Hw & HQ & HL)|Hr]; [left|by right].
  split; [done|]. exists ans. split_and!; [done..| |]; intros fired Hm Hh.
  - destruct (HQ fired Hm Hh) as [Hs Ht]. split; [|done].
    intros [Hwar Hrw]%fired_precondition; [|done].
    apply (fired_add_reader fired OnEffects (user_event (next_user (w_rt w))) (user_event (next_user (w_rt w))) src)
      in Hwar as [Hwar Hu]. split; [|by apply Hs]. by apply fired_precondition.
  - intros Hdone. destruct (HL fired Hm Hh Hdone) as [Hu Ht]. split; [|exact Ht].
    intros [Hwar Hrw]%fired_precondition; [|done]. apply fired_precondition; [done|]. split; [|exact Hrw].
    apply (fired_add_reader fired OnEffects (user_event (next_user (w_rt w))) (user_event (next_user (w_rt w))) src).
    by split.
Qed.
End Stores.

(** C5: a reshard between two stores makes exactly the planned calls, in order,
    unless one of them fails, and then it stops there with the failure.  The
    manager is told to send the source's object after its writes, to receive into the
    target's after everything the target store granted, and to forward from it only
    after it has the data.  After the reshard the source store's precondition has only triggered when it had before
    and every send of the source is done; the target store's only when its own
    operations are done and so is every receive and forward.  And once every call is
    done and every trigger carried out, the two preconditions trigger if they had
    before.  The manager that
    logs the calls does what the manager itself does, whatever manager it is. *)
Theorem reshard_follows_plan `{RealmMemory} `{!RealmLimits} {C : Type} (M : Manager C)
    (Hlaws : ManagerLaws M) (cells : nat -> option nat) (p : Processor) (src dst : @Store _ nat)
    (i j : nat) (a d : ShardedArray) (calls : list PlannedCall) (c : C) (w : World)
    (Hsrc : store_value src = Some i) (Ha : w_heap w !! i = Some a)
    (Hdst : store_value dst = Some j) (Hd : w_heap w !! j = Some d)
    (Hplan : plan p a d = Ret calls) :
  exists r src' dst' c' l w',
    Reshard_stores (Manager0 := logged M) cells p (src, dst, ((c, []), w)) =
      (r, (src', dst', ((c', l), w'))) /\
    Reshard_stores (Manager0 := M) cells p (src, dst, (c, w)) = (r, (src', dst', (c', w'))) /\
    ((r = Ret tt /\ exists ans, a_call <$> ans = calls /\ Forall asked ans /\ l = log_of ans /\
        Forall (waits_as_planned (writes_of src) (accesses_of dst) (writes_of dst) ans) ans /\
        (forall fired, Moment fired -> honoured fired (triggered (w_rt w')) ->
          (fired (Store_Precondition src') ->
             fired (Store_Precondition src) /\ covers fired for_source ans) /\
          (fired (Store_Precondition dst') ->
             fired (rw_event dst) /\ covers fired for_target ans)) /\
        forall fired, Moment fired -> prompt fired (triggered (w_rt w')) -> all_done fired ans ->
          (fired (Store_Precondition src) -> fired (Store_Precondition src')) /\
          (fired (Store_Precondition dst) -> fired (Store_Precondition dst'))) \/
     stopped r (manager_call <$> calls) l).
Proof.
  destruct (stores_follow M cells p src dst i j a d calls c w Hsrc Ha Hdst Hd Hplan)
    as (r & src' & dst' & c' & l & w' & E & Hr).
  exists r, src', dst', c', l, w'. split; [done|]. split; [by apply stores_erased in E|done].
Qed.

(** ** A concrete reshard: the target's process, with the repository's manager *)
#[local] Existing Instance Matching.example_machine.
#[local] Existing Instance Matching.example_memory.
#[local] Instance three_dims : RealmLimits := 3.

Definition example_manager : Manager Comm := reshard_manager Matching.example_procs (fun _ => None).
Definition example_world : World := set_heap [example_array 0 None; example_array 1 (Some 20%nat)] example_state.2.

Lemma reshard_follows_plan_witness :
  exists src' dst' c' w',
    Reshard_stores (Manager0 := logged example_manager) (fun _ => None) (mkProc CPU 0 1 1)
      (Store_Create 0%nat, Store_Create 1%nat, ((example_state.1, []), example_world)) =
    (Ret tt, (src', dst', ((c', [(ReqRecv (mkTargetCall (mkProc CPU 0 1 1) example_rect example_key
        (example_array 0 None) (Store_Create 1%nat)), Ret (user_event 1))]), w'))) /\
    forall fired, Moment fired -> honoured fired (triggered (w_rt w')) ->
      fired (Store_Precondition dst') -> fired (user_event 1).
Proof.
  destruct (reshard_follows_plan example_manager _ (fun _ => None) (mkProc CPU 0 1 1)
    (Store_Create 0%nat) (Store_Create 1%nat) 0%nat 1%nat (example_array 0 None)
    (example_array 1 (Some 20%nat)) [mkCall ToTarget example_rect example_key] example_state.1
    example_world eq_refl eq_refl eq_refl eq_refl eq_refl)
    as (r & src' & dst' & c' & l & w' & E & _ & Hr).
  exists src', dst', c', w'. pose proof E as E'. vm_compute in E'. injection E' as <- <- <- <- <- <-.
  split; [exact E|]. destruct Hr as [(_ & ans & _ & Hak & Hl & Hw & Hev & _)|(n & req & o & _ & Hlast & Ho)].
  - intros fired Hm Hh Hf. destruct (Hev fired Hm Hh) as [_ Ht]. destruct (Ht Hf) as [_ Hc].
    destruct ans as [|x [|]]; try discriminate. injection Hl as Hx Hr0.
    apply Forall_cons in Hc as [He _]. apply Forall_cons in Hak as [Hk _]. cbn. rewrite Hr0. apply He.
    unfold for_target. intros Er. unfold asked, manager_call in Hk. by rewrite <- Hx, Er in Hk.
  - cbn in Hlast. injection Hlast as <- <-. by destruct Ho.
Defined.
