(* ===== verification/PlanPattern.v ===== *)
(** The patterns of a reshard as tables.  A [Pattern] lists, for every shard of
    the source, the target shards it sends to, and for every shard of the target
    the shards that it forwards to and that it receives from, with the bounds of
    what is moved.  [agrees] says that the two sides of the table agree and that
    the receives of a target shard tile it.  For the pattern of each
    configuration it is shown that the plan of a processor consists of the
    entries of its shards, and that the pattern agrees. *)
From stdpp Require Import base tactics list list_numbers numbers option strings sets.
From Stdlib Require Import ZArith Lia Wf_Z Zwf.
From S2P Require Import Prelude Events Mesh Shape Processor TileIndex Tiles ScatterGather Broadcast.
From S2P Require Import ReshardConfig Handles Arrays ReshardManager Reshard ReshardPlan.
Import ShardingOps.
Open Scope Z_scope.

(** A send comes from the source array, or from another shard of the target
    that already has the data. *)
Inductive Hop : Type := Direct | Relay.

#[export] Instance Hop_eq_dec : EqDecision Hop.
Proof. solve_decision. Defined.

Definition send_role (h : Hop) : Role := match h with Direct => FromSource | Relay => Forward end.

Record Pattern : Type := mkPattern {
  outs : Z -> list (Z * RealmShape);
  relays : Z -> list (Z * RealmShape);
  ins : Z -> list (Hop * Z * RealmShape);
}.

(** ** The calls of a pattern *)
Section Calls.
Context (sid did : UniqueId).

Definition hop_key (h : Hop) (i j : Z) : ReshardKey :=
  mkKey (match h with Direct => sid | Relay => did end) did i j.

Definition send_call (h : Hop) (i : Z) (x : Z * RealmShape) : PlannedCall :=
  mkCall (send_role h) x.2 (hop_key h i x.1).
Definition recv_call (j : Z) (x : Hop * Z * RealmShape) : PlannedCall :=
  mkCall ToTarget x.2 (hop_key x.1.1 x.1.2 j).

Definition of_shard {A} (f : Z -> list A) (o : option Z) : list A :=
  match o with Some i => f i | None => [] end.

(** What a processor with these shards does. *)
Definition source_part (pat : Pattern) : option Z -> list PlannedCall :=
  of_shard (fun i => send_call Direct i <$> outs pat i).
Definition target_part (pat : Pattern) : option Z -> list PlannedCall :=
  of_shard (fun j => (recv_call j <$> ins pat j) ++ (send_call Relay j <$> relays pat j)).
Definition pattern_calls (pat : Pattern) (si sj : option Z) : list PlannedCall :=
  source_part pat si ++ target_part pat sj.
End Calls.

(** ** Agreement *)
Section Agrees.
Context (src dst : Sharding).

Definition source_shard (i : Z) : Prop := 0 <= i < num_devices_ (devices src).
Definition target_shard (j : Z) : Prop := 0 <= j < num_devices_ (devices dst).

Definition shard_rect (s : Sharding) (i : Z) : RealmShape := tile_rect s (tile_index s i).

Definition within (a b : RealmShape) : Prop := forall pt, contains a pt -> contains b pt.

(** A relay goes to a greater shard, so no shard forwards before it has the
    data. *)
Record agrees (pat : Pattern) : Prop := {
  outs_range i j s : source_shard i -> (j, s) ∈ outs pat i -> target_shard j;
  relays_range i j s : target_shard i -> (j, s) ∈ relays pat i -> i < j /\ target_shard j;
  ins_direct i j s : target_shard j -> (Direct, i, s) ∈ ins pat j ->
    source_shard i /\ (j, s) ∈ outs pat i;
  ins_relay i j s : target_shard j -> (Relay, i, s) ∈ ins pat j ->
    target_shard i /\ (j, s) ∈ relays pat i;
  outs_ins i j s : source_shard i -> (j, s) ∈ outs pat i -> (Direct, i, s) ∈ ins pat j;
  relays_ins i j s : target_shard i -> (j, s) ∈ relays pat i -> (Relay, i, s) ∈ ins pat j;
  outs_NoDup i : source_shard i -> NoDup (outs pat i).*1;
  relays_NoDup i : target_shard i -> NoDup (relays pat i).*1;
  ins_NoDup j : target_shard j -> NoDup (ins pat j).*1;
  relay_devices i : target_shard i -> relays pat i <> [] -> devices src <> devices dst;
  outs_within i j s : source_shard i -> (j, s) ∈ outs pat i -> within s (shard_rect src i);
  relays_within i j s : target_shard i -> (j, s) ∈ relays pat i -> within s (shard_rect dst i);
  ins_cover j pt : target_shard j -> contains (shard_rect dst j) pt ->
    exists x, x ∈ ins pat j /\ contains x.2 pt /\
      forall y, y ∈ ins pat j -> contains y.2 pt -> y = x;
}.
End Agrees.

(** The way of the data: a property of target shards that is passed along the
    receives holds wherever the tile has the point. *)
Lemma agrees_ind src dst pat (Hag : agrees src dst pat) (P : Z -> Prop) pt :
  (forall i j s, source_shard src i -> target_shard dst j -> (Direct, i, s) ∈ ins pat j ->
     contains s pt -> contains (shard_rect src i) pt -> P j) ->
  (forall i j s, target_shard dst i -> target_shard dst j -> (Relay, i, s) ∈ ins pat j ->
     contains s pt -> P i -> P j) ->
  forall j, target_shard dst j -> contains (shard_rect dst j) pt -> P j.
Proof.
  intros Hdirect Hrelay j. induction j as [j IH] using (well_founded_induction (Zwf_well_founded 0)).
  intros Hj Hpt. destruct (ins_cover _ _ _ Hag j pt Hj Hpt) as ([[[] i] s] & Hx & Hc & _); cbn in Hc.
  - destruct (ins_direct _ _ _ Hag i j s Hj Hx) as [Hi Ho]. eapply Hdirect; [done..|].
    by apply (outs_within _ _ _ Hag i j s).
  - destruct (ins_relay _ _ _ Hag i j s Hj Hx) as [Hi Hr]. eapply Hrelay; [exact Hi|done..|].
    destruct (relays_range _ _ _ Hag i j s Hi Hr) as [Hlt _].
    apply IH; [unfold Zwf, target_shard in *; cbn; lia|done|by apply (relays_within _ _ _ Hag i j s)].
Qed.

(** ** The view that a processor has of a sharded array

    The tile is the one of the processor's shard, as [ShardedArray_Create] makes
    it; without a shard there is no tile. *)
Section Views.
Context `{!RealmLimits}.

Definition local_array (p : Processor) (u : Z) (shape : ShardedShape) (a : ShardedArray) : Prop :=
  mesh_unique_id_ a = u /\ sa_shape a = shape /\
  match shard_in p (devices (ss_sharding shape)) with
  | Some i => shard_id_ a = i /\ exists t, array_ a = Some t /\
                ComputeTileBounds i (ss_sharding shape) = Ret (realm_shape t)
  | None => array_ a = None
  end.

Lemma local_array_tile p u shape a : wf (ss_sharding shape) -> rank_supported (ss_sharding shape) ->
  local_array p u shape a ->
  match shard_in p (devices (ss_sharding shape)) with
  | Some i => shard_id_ a = i /\ source_shard (ss_sharding shape) i /\
      exists t, array_ a = Some t /\ realm_shape t = shard_rect (ss_sharding shape) i
  | None => array_ a = None
  end.
Proof.
  intros Hwf Hr (_ & _ & Hv). destruct (shard_in p _) as [i|] eqn:Hi; [|done].
  destruct Hv as (Hs & t & Ht & Hb). pose proof (shard_in_range _ _ _ Hi).
  rewrite ComputeTileBounds_ok in Hb by done. injection Hb as Hb. eauto.
Qed.

Lemma local_array_key p us ud ss sd a d i j : local_array p us ss a -> local_array p ud sd d ->
  key_of a d i j = hop_key (mkUniqueId us (devices (ss_sharding ss)))
                     (mkUniqueId ud (devices (ss_sharding sd))) Direct i j /\
  key_of d d i j = hop_key (mkUniqueId us (devices (ss_sharding ss)))
                     (mkUniqueId ud (devices (ss_sharding sd))) Relay i j.
Proof.
  intros (Hu & Hs & _) (Hu' & Hs' & _). unfold key_of, hop_key, unique_id, sa_sharding.
  by rewrite Hu, Hs, Hu', Hs'.
Qed.
End Views.

(** ** The patterns *)
Section Patterns.
Context (src dst : Sharding).

Let S := num_devices_ (devices src).
Let D := num_devices_ (devices dst).

Definition point_to_point_pattern : Pattern := {|
  outs i := if decide (i < D) then [(i, shard_rect src i)] else [];
  relays _ := [];
  ins j := [(Direct, j, shard_rect dst j)];
|}.

(** Every target shard receives [part i] of source shard [i]. *)
Definition gather_pattern (part : Z -> RealmShape) : Pattern := {|
  outs i := (fun j => (j, part i)) <$> seqZ 0 D;
  relays _ := [];
  ins _ := (fun i => (Direct, i, part i)) <$> seqZ 0 S;
|}.

Definition scatter_pattern (n : Z) : Pattern := {|
  outs i := (fun k => (n * i + k, shard_rect dst (n * i + k))) <$> seqZ 0 n;
  relays _ := [];
  ins j := [(Direct, j / n, shard_rect dst j)];
|}.

Definition broadcast_pattern : Pattern := {|
  outs i := (fun root => (root, shard_rect src i)) <$>
            match source_of src dst i with Some s => dst_root_shards s | None => [] end;
  relays j := (fun leaf => (leaf, shard_rect dst j)) <$> tc_dst_leaf_shards (target_of src dst j);
  ins j := let t := target_of src dst j in
           match tc_src_shard t, tc_dst_root_shard t with
           | Some i, _ => [(Direct, i, shard_rect dst j)]
           | None, Some i => [(Relay, i, shard_rect dst j)]
           | None, None => []
           end;
|}.

(** From the finer sharding to the coarser one, and back. *)
Definition merge_pattern (dim : nat) (k : Z) : Pattern := {|
  outs i := [sg_single dim k src dst i];
  relays _ := [];
  ins j := (fun x => (Direct, x.1, x.2)) <$> sg_multi dim k src dst j;
|}.
Definition split_pattern (dim : nat) (k : Z) : Pattern := {|
  outs i := sg_multi dim k dst src i;
  relays _ := [];
  ins j := let x := sg_single dim k dst src j in [(Direct, x.1, x.2)];
|}.
End Patterns.

(** ** Tiles of replicated arrays *)
Lemma prodZ_one l x : Forall (Z.le 1) l -> prodZ l = 1 -> x ∈ l -> x = 1.
Proof.
  intros Hl H1 Hx. pose proof (prodZ_elem_le l x Hl Hx).
  rewrite Forall_forall in Hl. pose proof (Hl x Hx). lia.
Qed.

Lemma whole_ivals l idx : (forall d, d ∈ l -> wf_dim d) ->
  (forall d, d ∈ reals l -> sd_sharding d = 1) -> in_range l idx ->
  tile_ivals l idx = (fun d => (0, sd_size d - 1)) <$> reals l.
Proof.
  intros Hd H1 Hv. revert Hd H1. induction Hv as [|d x l idx Hx Hv IH]; intros Hd H1; [done|].
  rewrite reals_cons in H1 |- *. cbn [tile_ivals]. destruct (is_replica d) eqn:Hr.
  - apply IH; [set_solver|done].
  - destruct (is_replica_false d (Hd d ltac:(set_solver)) Hr) as [Hs _].
    pose proof (H1 d ltac:(set_solver)) as Hone. rewrite fmap_cons. f_equal.
    + assert (x = 0) as -> by lia. rewrite Hs, Hone. f_equal; lia.
    + apply IH; set_solver.
Qed.

Section Replicated.
Context (s : Sharding) (Hwf : wf s).

Lemma shard_rect_replicated i : num_tiles s = 1 -> shard_rect s i = array_rect s.
Proof.
  intros H1. unfold shard_rect, tile_rect, array_rect. do 2 f_equal.
  apply whole_ivals; [apply (wf_dims s Hwf)| |apply (tile_index_valid s Hwf)].
  intros d Hd. apply (prodZ_one (sd_sharding <$> reals (dims s))); [|done|by apply list_elem_of_fmap_2].
  apply Forall_fmap, Forall_forall. intros e [He _]%elem_of_reals. by apply (wf_sharding_pos s Hwf).
Qed.

Lemma shard_rect_within i : within (shard_rect s i) (array_rect s).
Proof. intros pt. apply (tile_in_array s Hwf), (tile_index_valid s Hwf). Qed.

Lemma ComputeTileBounds_shard `{!RealmLimits} i : rank_supported s -> source_shard s i ->
  ComputeTileBounds i s = Ret (shard_rect s i).
Proof. intros Hr Hi. by apply ComputeTileBounds_ok. Qed.
End Replicated.

(** ** The patterns agree *)
Lemma elem_of_pairs {A B} (f : A -> B) (l : list A) x y : (x, y) ∈ (fun x => (x, f x)) <$> l <-> x ∈ l /\ y = f x.
Proof. rewrite list_elem_of_fmap. naive_solver. Qed.

Lemma NoDup_pairs {A B} (f : A -> B) (l : list A) : NoDup l -> NoDup ((fun x => (x, f x)) <$> l).*1.
Proof. intros H. by rewrite <- list_fmap_compose, list_fmap_id. Qed.

Lemma within_refl a : within a a.
Proof. by intros pt. Qed.

(** A single receive of the whole tile. *)
Lemma cover_single dst (x : Hop * Z * RealmShape) j : x.2 = shard_rect dst j ->
  forall pt, contains (shard_rect dst j) pt ->
  exists y, y ∈ [x] /\ contains y.2 pt /\ forall z, z ∈ [x] -> contains z.2 pt -> z = y.
Proof. intros Hx pt Hpt. exists x. rewrite Hx. set_solver. Qed.

(** Patterns without relays. *)
Lemma agrees_direct src dst (pat : Pattern) :
  (forall i, relays pat i = []) ->
  (forall h i j s, target_shard dst j -> (h, i, s) ∈ ins pat j ->
     h = Direct /\ source_shard src i /\ (j, s) ∈ outs pat i) ->
  (forall i j s, source_shard src i -> (j, s) ∈ outs pat i ->
     target_shard dst j /\ (Direct, i, s) ∈ ins pat j /\ within s (shard_rect src i)) ->
  (forall i, source_shard src i -> NoDup (outs pat i).*1) ->
  (forall j, target_shard dst j -> NoDup (ins pat j).*1) ->
  (forall j pt, target_shard dst j -> contains (shard_rect dst j) pt ->
     exists x, x ∈ ins pat j /\ contains x.2 pt /\
       forall y, y ∈ ins pat j -> contains y.2 pt -> y = x) ->
  agrees src dst pat.
Proof.
  intros Hr Hin Hout Hno Hni Hc.
  assert (Hnone : forall j s i, (j, s) ∉ relays pat i) by (intros j s i; rewrite Hr; apply not_elem_of_nil).
  split.
  - intros i j s Hi Hx. by apply (Hout i j s).
  - intros i j s _ Hx. by apply Hnone in Hx.
  - intros i j s Hj Hx. by destruct (Hin _ _ _ _ Hj Hx) as (_ & ? & ?).
  - intros i j s Hj Hx. by destruct (Hin _ _ _ _ Hj Hx).
  - intros i j s Hi Hx. by apply Hout.
  - intros i j s _ Hx. by apply Hnone in Hx.
  - done.
  - intros i _. rewrite Hr. apply NoDup_nil_2.
  - done.
  - intros i _ Hx. by rewrite Hr in Hx.
  - intros i j s Hi Hx. by destruct (Hout i j s Hi Hx) as (_ & _ & ?).
  - intros i j s _ Hx. by apply Hnone in Hx.
  - done.
Qed.

Section PatternsAgree.
Context (src dst : Sharding) (Hsrc : wf src) (Hdst : wf dst).

Let S := num_devices_ (devices src).
Let D := num_devices_ (devices dst).

Lemma point_to_point_agrees : D <= S ->
  (forall i, target_shard dst i -> shard_rect src i = shard_rect dst i) ->
  agrees src dst (point_to_point_pattern src dst).
Proof.
  intros HDS Heq. unfold target_shard in Heq. fold D in Heq.
  apply agrees_direct; unfold source_shard, target_shard; fold S D; [done| | | | |].
  - intros h i j s Hj [= -> -> ->]%list_elem_of_singleton. split; [done|]. split; [lia|].
    cbn. fold D. rewrite decide_True by lia. rewrite Heq by done. by apply list_elem_of_singleton.
  - intros i j s Hi. cbn. fold D. case_decide; [|by intros ?%not_elem_of_nil].
    intros [= -> ->]%list_elem_of_singleton. split; [lia|]. rewrite Heq by lia.
    split; [by apply list_elem_of_singleton|apply within_refl].
  - intros i Hi. cbn. case_decide; cbn; [apply NoDup_singleton|apply NoDup_nil_2].
  - intros. apply NoDup_singleton.
  - intros j pt Hj. by apply cover_single.
Qed.

Lemma gather_agrees (part : Z -> RealmShape) : num_tiles dst = 1 ->
  (forall i, source_shard src i -> within (part i) (shard_rect src i)) ->
  (forall pt, contains (array_rect dst) pt ->
     exists i, source_shard src i /\ contains (part i) pt /\
       forall k, source_shard src k -> contains (part k) pt -> k = i) ->
  agrees src dst (gather_pattern src dst part).
Proof.
  intros H1 Hw Hc. unfold source_shard in *. fold S in Hw, Hc.
  assert (Hout : forall i j s, (j, s) ∈ outs (gather_pattern src dst part) i <->
    0 <= j < D /\ s = part i).
  { intros i j s. cbn. rewrite (elem_of_pairs (fun _ => part i)), elem_of_seqZ. fold D. naive_solver lia. }
  assert (Hin : forall h i j s, (h, i, s) ∈ ins (gather_pattern src dst part) j <->
    h = Direct /\ 0 <= i < S /\ s = part i).
  { intros h i j s. cbn. rewrite list_elem_of_fmap. setoid_rewrite elem_of_seqZ. fold S.
    split; [intros (? & [= -> -> ->] & ?); split_and!; lia || done|].
    intros (-> & Hi & ->). exists i. split; [done|lia]. }
  apply agrees_direct; unfold source_shard, target_shard; fold S D; [done| | | | |].
  - intros h i j s Hj (-> & ? & ->)%Hin. by rewrite Hout.
  - intros i j s Hi (? & ->)%Hout. rewrite Hin. auto.
  - intros i Hi. apply (NoDup_pairs (fun _ => part i)), NoDup_seqZ.
  - intros j Hj. cbn. rewrite <- list_fmap_compose.
    apply (NoDup_fmap_2 (fun i => (Direct, i))), NoDup_seqZ.
  - intros j pt Hj Hpt. rewrite shard_rect_replicated in Hpt by done.
    destruct (Hc pt Hpt) as (i & Hi & Hci & Hu). exists (Direct, i, part i).
    split; [by apply Hin|]. split; [done|].
    intros [[h k] s] (-> & Hk & ->)%Hin Hp. cbn in Hp. by rewrite (Hu k).
Qed.

Lemma scatter_agrees n : num_tiles src = 1 -> array_rect src = array_rect dst -> D = n * S ->
  agrees src dst (scatter_pattern dst n).
Proof.
  intros H1 Heq HD. pose proof (num_devices_i64 src Hsrc) as HS1. fold S in HS1.
  pose proof (num_devices_i64 dst Hdst) as HD1. fold D in HD1. assert (Hn : 1 <= n) by nia.
  assert (Hout : forall i j s, (j, s) ∈ outs (scatter_pattern dst n) i <->
    n * i <= j < n * i + n /\ s = shard_rect dst j).
  { intros i j s. cbn. rewrite list_elem_of_fmap. setoid_rewrite elem_of_seqZ. split.
    - intros (k & [= -> ->] & Hk). split; [lia|done].
    - intros [Hj ->]. exists (j - n * i).
      replace (n * i + (j - n * i)) with j by lia. split; [done|lia]. }
  assert (Hin : forall h i j s, (h, i, s) ∈ ins (scatter_pattern dst n) j <->
    h = Direct /\ i = j / n /\ s = shard_rect dst j).
  { intros h i j s. cbn. rewrite list_elem_of_singleton. naive_solver. }
  assert (Hdiv : forall i j, n * i <= j < n * i + n <-> i = j / n).
  { intros i j. pose proof (Z.div_mod j n ltac:(lia)). pose proof (Z.mod_pos_bound j n ltac:(lia)).
    split; [|nia]. intros Hj. apply Z.div_unique with (j - n * i); lia. }
  apply agrees_direct; unfold source_shard, target_shard; fold S D; [done| | | | |].
  - intros h i j s Hj (-> & Hi & ->)%Hin. apply Hdiv in Hi. rewrite Hout. split_and!; try nia; done.
  - intros i j s Hi (Hj & ->)%Hout. split; [nia|]. apply Hdiv in Hj. split; [by apply Hin|].
    rewrite (shard_rect_replicated src Hsrc i H1), Heq. by apply shard_rect_within.
  - intros i Hi. cbn. rewrite <- list_fmap_compose.
    apply (NoDup_fmap_2_strong (fun k => n * i + k)); [lia|apply NoDup_seqZ].
  - intros. apply NoDup_singleton.
  - intros j pt Hj. by apply cover_single.
Qed.
End PatternsAgree.

(** *** One dimension *)
Section OneDimension.
Context (dim : nat) (k : Z) (f c : Sharding) (Href : refines dim k f c).

Lemma sg_multi_NoDup i : NoDup (sg_multi dim k f c i).*1.
Proof.
  pose proof (refines_wf_fine _ _ _ _ Href) as Hf.
  pose proof (tile_index_valid c (refines_wf_coarse _ _ _ _ Href) i) as Hv.
  unfold sg_multi. rewrite <- list_fmap_compose. apply NoDup_fmap_2_strong; [|apply NoDup_seqZ].
  intros j j' Hj%elem_of_seqZ Hj'%elem_of_seqZ Heq. cbn in Heq.
  apply (f_equal (tile_index f)) in Heq.
  rewrite !(tile_index_owner f Hf) in Heq by (apply (child_valid _ _ _ _ Href); [done|lia]).
  destruct (refines_dim _ _ _ _ Href) as (d & d' & _ & Hd' & _).
  destruct (Forall2_lookup_l _ _ _ _ _ Hv Hd') as (x & Hx & _).
  apply (f_equal (fun l => l !!! dim)) in Heq. unfold child in Heq.
  rewrite !list_lookup_total_insert_eq in Heq by (by eapply lookup_lt_Some). lia.
Qed.

Lemma sg_multi_within i x : x ∈ sg_multi dim k f c i -> within x.2 (shard_rect c i).
Proof.
  intros (j & -> & Hj%elem_of_seqZ)%list_elem_of_fmap pt Hp. cbn in Hp.
  pose proof (tile_index_valid c (refines_wf_coarse _ _ _ _ Href) i) as Hv.
  pose proof (child_valid _ _ _ _ Href _ j Hv ltac:(lia)) as Hvj.
  destruct (coarsen_tile _ _ _ _ Href _ pt Hvj Hp) as [Hc _].
  by rewrite (coarsen_child _ _ _ _ Href) in Hc by (done || lia).
Qed.

Lemma sg_multi_cover i pt : contains (shard_rect c i) pt ->
  exists x, x ∈ sg_multi dim k f c i /\ contains x.2 pt /\
    forall y, y ∈ sg_multi dim k f c i -> contains y.2 pt -> y = x.
Proof.
  intros Hp. pose proof (tile_index_valid c (refines_wf_coarse _ _ _ _ Href) i) as Hv.
  destruct (children_partition _ _ _ _ Href _ pt Hv Hp) as (j & Hj & Hin & Hu).
  eexists. split; [apply list_elem_of_fmap_2, elem_of_seqZ; by rewrite Z.add_0_l|].
  split; [done|]. intros y (j' & -> & Hj'%elem_of_seqZ)%list_elem_of_fmap Hy.
  by rewrite (Hu j' ltac:(lia) Hy).
Qed.

Lemma sg_single_agree i b s : source_shard f i -> sg_single dim k f c i = (b, s) ->
  target_shard c b /\ (i, s) ∈ sg_multi dim k f c b.
Proof.
  intros Hi E. pose proof (sg_single_range _ _ _ _ Href i) as Hb. rewrite E in Hb.
  split; [done|]. by apply (sg_match _ _ _ _ Href).
Qed.

Lemma sg_multi_agree b i s : target_shard c b -> (i, s) ∈ sg_multi dim k f c b ->
  source_shard f i /\ sg_single dim k f c i = (b, s).
Proof.
  intros Hb Hx. pose proof (sg_multi_range _ _ _ _ Href b _ Hx) as Hi. split; [done|].
  by apply (sg_match _ _ _ _ Href).
Qed.

Lemma merge_agrees : agrees f c (merge_pattern f c dim k).
Proof.
  apply agrees_direct; [done| | | | |].
  - intros h i j s Hj ([i' s'] & [= -> -> ->] & Hx)%list_elem_of_fmap.
    apply sg_multi_agree in Hx as [Hi E]; [|done]. rewrite <- E. cbn [outs merge_pattern].
    by rewrite list_elem_of_singleton.
  - intros i j s Hi E%list_elem_of_singleton. symmetry in E.
    destruct (sg_single_agree i j s Hi E) as [Hj Hx]. split; [done|].
    split; [by apply (list_elem_of_fmap_2 (fun x => (Direct, x.1, x.2))) in Hx|].
    injection E as _ <-. apply within_refl.
  - intros. apply NoDup_singleton.
  - intros j _. cbn. rewrite <- list_fmap_compose.
    change (NoDup (((fun i => (Direct, i)) ∘ fst) <$> sg_multi dim k f c j)).
    rewrite list_fmap_compose.
    apply NoDup_fmap_2; [intros ?? [= ?]; done|apply sg_multi_NoDup].
  - intros j pt _ Hp. destruct (sg_multi_cover j pt Hp) as ([i s] & Hx & Hc & Hu).
    exists (Direct, i, s). split; [by apply (list_elem_of_fmap_2 (fun x => (Direct, x.1, x.2))) in Hx|].
    split; [done|]. intros y ([i' s'] & -> & Hy)%list_elem_of_fmap Hcy.
    by injection (Hu _ Hy Hcy) as -> ->.
Qed.

Lemma split_agrees : agrees c f (split_pattern c f dim k).
Proof.
  apply agrees_direct; [done| | | | |].
  - intros h i j s Hj [= -> -> ->]%list_elem_of_singleton. split; [done|].
    by destruct (sg_single_agree j _ _ Hj eq_refl).
  - intros i j s Hi Hx. destruct (sg_multi_agree i j s Hi Hx) as [Hj E]. split; [done|].
    split; [cbn [ins split_pattern]; rewrite E; by apply list_elem_of_singleton|].
    by apply (sg_multi_within _ _ Hx).
  - intros i _. apply sg_multi_NoDup.
  - intros. apply NoDup_singleton.
  - intros j pt Hj. by apply cover_single.
Qed.
End OneDimension.

(** *** Broadcasts *)
Lemma leaf_list_NoDup base n : NoDup (leaf_list base n).
Proof.
  induction n as [|n IH]; [apply NoDup_nil_2|]. cbn. constructor; [|done].
  intros (i & Hi & E)%elem_of_leaf_list.
  pose proof (Z.pow_lt_mono_r 2 i (Z.of_nat n) ltac:(lia)). lia.
Qed.

(** A target shard expects its data from exactly one shard. *)
Lemma target_of_expects src dst b :
  (exists i, tc_src_shard (target_of src dst b) = Some i) \/
  (tc_src_shard (target_of src dst b) = None /\
   exists i, tc_dst_root_shard (target_of src dst b) = Some i).
Proof. unfold target_of. cbn zeta. destruct (_ =? 0); [left|right]; eauto. Qed.

Section BroadcastAgrees.
Context (src dst : Sharding) (Hok : broadcast_ok src dst).

Let pat := broadcast_pattern src dst.

Lemma broadcast_outs i j s :
  (j, s) ∈ outs pat i <-> group_root src dst i < num_devices_ (devices dst) /\
    j = group_root src dst i /\ s = shard_rect src i.
Proof.
  cbn. rewrite (elem_of_pairs (fun _ => shard_rect src i)). unfold source_of.
  destruct (Z.ltb_spec (group_root src dst i) (num_devices_ (devices dst))); cbn.
  - rewrite list_elem_of_singleton. naive_solver.
  - split; [intros [?%not_elem_of_nil _]; done|lia].
Qed.

Lemma broadcast_relays i j s : target_shard dst i ->
  (j, s) ∈ relays pat i <-> sends_leaf src dst i j /\ s = shard_rect dst i.
Proof.
  intros Hi. cbn. rewrite (elem_of_pairs (fun _ => shard_rect dst i)). unfold sends_leaf.
  assert ((exists t, target_config src dst i t /\ j ∈ tc_dst_leaf_shards t) <->
    j ∈ tc_dst_leaf_shards (target_of src dst i)) as ->; [|done].
  split; [intros (t & ->%(target_config_of src dst Hok) & ?); done|].
  intros Hj. exists (target_of src dst i). by rewrite (target_config_of src dst Hok).
Qed.

Lemma broadcast_ins j : target_shard dst j ->
  exists h i, ins pat j = [(h, i, shard_rect dst j)] /\
    match h with
    | Direct => expects_source src dst j i
    | Relay => expects_leaf src dst j i
    end.
Proof.
  intros Hj. unfold expects_source, expects_leaf.
  pose proof (proj2 (target_config_of src dst Hok j _ Hj) eq_refl) as Ht.
  destruct (target_of_expects src dst j) as [(i & E)|(E & i & E')]; cbn.
  - exists Direct, i. rewrite E. split; [done|]. by eexists.
  - exists Relay, i. rewrite E, E'. split; [done|]. by eexists.
Qed.

Lemma broadcast_ins_iff h i j s : target_shard dst j ->
  (h, i, s) ∈ ins pat j <->
  s = shard_rect dst j /\
  match h with Direct => expects_source src dst j i | Relay => expects_leaf src dst j i end.
Proof.
  intros Hj. destruct (broadcast_ins j Hj) as (h' & i' & -> & He). rewrite list_elem_of_singleton.
  split; [by intros [= -> -> ->]|]. intros [-> He'].
  destruct h, h'; repeat match goal with
    | H : expects_source _ _ _ _ |- _ =>
        apply (expects_source_iff src dst Hok) in H as [? ->]; [|done]
    | H : expects_leaf _ _ _ _ |- _ => apply (expects_leaf_iff src dst Hok) in H as [? ->]; [|done]
    end; done || lia.
Qed.

Lemma leaves_NoDup j : NoDup (relays pat j).*1.
Proof.
  cbn. rewrite <- list_fmap_compose, list_fmap_id. unfold target_of. cbn zeta.
  assert (forall root n r, NoDup (leaves root n r)) as Hl.
  { intros root n r. unfold leaves. destruct (_ <? n); [apply leaf_list_NoDup|apply NoDup_nil_2]. }
  destruct (_ =? 0); apply Hl.
Qed.

Lemma broadcast_agrees : wf src -> wf dst -> num_tiles src = 1 -> num_tiles dst = 1 ->
  array_rect src = array_rect dst -> num_devices_ (devices src) < num_devices_ (devices dst) ->
  full_groups src dst -> agrees src dst pat.
Proof.
  intros Hsrc Hdst H1 H1' Heq HSD Hfull.
  assert (Hrect : forall i j, shard_rect src i = shard_rect dst j).
  { intros i j. by rewrite !shard_rect_replicated. }
  pose proof (leaves_per_root_bounds src dst Hok) as [Hl _].
  split.
  - intros i j s Hi (Hlt & -> & _)%broadcast_outs. unfold source_shard, target_shard, group_root in *. nia.
  - intros i j s Hi Hx. apply broadcast_relays in Hx as [Hx _]; [|done].
    pose proof (sends_leaf_range src dst Hok i j Hi Hx) as Hj.
    apply (sends_leaf_iff src dst Hok) in Hx as (_ & Hx & _); [|done..].
    split; [|done]. by apply (full_leaf_sent src dst Hok i j Hfull Hj Hx).
  - intros i j s Hj [-> [Hj1 Hi1]%(expects_source_iff src dst Hok j i Hj)]%broadcast_ins_iff; [|done].
    destruct (target_group src dst Hok j Hj) as (Hg & _ & Hlt & _). rewrite <- Hi1 in Hg, Hlt.
    split; [done|]. by apply broadcast_outs.
  - intros i j s Hj [-> He]%broadcast_ins_iff; [|done].
    destruct (full_leaf_sent src dst Hok i j Hfull Hj He) as (Hi & _ & Hs). split; [done|].
    apply broadcast_relays; [done|]. split; [done|]. by rewrite <- (Hrect 0 i), <- (Hrect 0 j).
  - intros i j s Hi (Hlt & Ej & ->)%broadcast_outs.
    assert (Hj : target_shard dst j) by (unfold source_shard, target_shard, group_root in *; nia).
    apply broadcast_ins_iff; [done|]. split; [apply Hrect|]. apply (expects_source_iff src dst Hok); [done|].
    split; [done|]. rewrite Ej. unfold group_root. rewrite Z.div_mul; lia.
  - intros i j s Hi Hx. apply broadcast_relays in Hx as [Hx ->]; [|done].
    pose proof (sends_leaf_range src dst Hok i j Hi Hx) as Hj.
    apply broadcast_ins_iff; [done|]. split; [by rewrite <- (Hrect 0 i), (Hrect 0 j)|].
    by apply (sends_leaf_iff src dst Hok) in Hx as (_ & Hx & _).
  - intros i _. cbn. rewrite <- list_fmap_compose, list_fmap_id. unfold source_of.
    destruct (_ <? _); [apply NoDup_singleton|apply NoDup_nil_2].
  - intros i _. apply leaves_NoDup.
  - intros j Hj. destruct (broadcast_ins j Hj) as (h & i & -> & _). apply NoDup_singleton.
  - intros i _ _ E. rewrite E in HSD. lia.
  - intros i j s Hi (_ & _ & ->)%broadcast_outs. apply within_refl.
  - intros i j s Hi Hx. apply broadcast_relays in Hx as [_ ->]; [apply within_refl|done].
  - intros j pt Hj. destruct (broadcast_ins j Hj) as (h & i & -> & _). by apply cover_single.
Qed.
End BroadcastAgrees.

Section BroadcastConfigs.
Context (src dst : Sharding).

(** What [GetBroadcastConfig] returns for the two shards of the processor. *)
Definition broadcast_config (oi oj : option Z) : BroadcastConfig :=
  match oi with
  | Some i => match source_of src dst i with
              | Some s => mkBroadcast (Some s) (target_of src dst <$> oj)
              | None => mkBroadcast None None
              end
  | None => mkBroadcast None (target_of src dst <$> oj)
  end.

End BroadcastConfigs.

(** ** The plans consist of the entries of the patterns *)
Section Plans.
Context `{!RealmLimits} (p : Processor) (us ud : Z) (ss sd : ShardedShape) (a d : ShardedArray).
Let src := ss_sharding ss.
Let dst := ss_sharding sd.
Context (Hsrc : wf src) (Hdst : wf dst) (Hrs : rank_supported src) (Hrd : rank_supported dst).
Context (Hp : i64 (global_id_ p)) (Ha : local_array p us ss a) (Hd : local_array p ud sd d).

Context (si sj : option Z) (Hsi : shard_in p (devices src) = si) (Hsj : shard_in p (devices dst) = sj).
Let sid := mkUniqueId us (devices src).
Let did := mkUniqueId ud (devices dst).

(** The calls are those of the pattern, in some order. *)
Definition yields (m : outcome (list PlannedCall)) (l : list PlannedCall) : Prop :=
  exists calls, m = Ret calls /\ calls ≡ₚ l.
Definition follows (pat : Pattern) (m : outcome (list PlannedCall)) : Prop :=
  yields m (pattern_calls sid did pat si sj).

Lemma yields_ret l : yields (mret l) l.
Proof. by exists l. Qed.

Lemma source_view :
  sa_sharding a = src /\
  match si with
  | Some i => shard_id_ a = i /\ source_shard src i /\
      exists t, array_ a = Some t /\ realm_shape t = shard_rect src i
  | None => array_ a = None
  end.
Proof.
  split; [by unfold sa_sharding; rewrite (proj1 (proj2 Ha))|].
  rewrite <- Hsi. by apply (local_array_tile p us ss a).
Qed.

Lemma target_view :
  sa_sharding d = dst /\
  match sj with
  | Some j => shard_id_ d = j /\ target_shard dst j /\
      exists t, array_ d = Some t /\ realm_shape t = shard_rect dst j
  | None => array_ d = None
  end.
Proof.
  split; [by unfold sa_sharding; rewrite (proj1 (proj2 Hd))|].
  rewrite <- Hsj. by apply (local_array_tile p ud sd d).
Qed.

Lemma direct_key i j : key_of a d i j = hop_key sid did Direct i j.
Proof. by apply (local_array_key p us ud ss sd). Qed.
Lemma relay_key i j : key_of d d i j = hop_key sid did Relay i j.
Proof. by apply (local_array_key p us ud ss sd a). Qed.

Lemma follows_source_target pat m1 m2 :
  yields m1 (source_part sid did pat si) -> yields m2 (target_part sid did pat sj) ->
  follows pat (l1 ← m1; l2 ← m2; mret (l1 ++ l2)).
Proof. intros (l1 & -> & H1) (l2 & -> & H2). eexists. split; [done|]. unfold pattern_calls. by rewrite H1, H2. Qed.

Lemma follows_target_source pat m1 m2 :
  yields m1 (target_part sid did pat sj) -> yields m2 (source_part sid did pat si) ->
  follows pat (l1 ← m1; l2 ← m2; mret (l1 ++ l2)).
Proof.
  intros (l1 & -> & H1) (l2 & -> & H2). eexists. split; [done|]. unfold pattern_calls.
  rewrite H1, H2. apply Permutation_app_comm.
Qed.

Definition follows_source_target_ret pat l1 l2 := follows_source_target pat (mret l1) (mret l2).
Definition follows_target_source_ret pat l1 l2 := follows_target_source pat (mret l1) (mret l2).

Lemma plans_point_to_point : (forall i, si = Some i -> i < num_devices_ (devices dst)) ->
  follows (point_to_point_pattern src dst) (mret (plan_point_to_point a d)).
Proof.
  intros Hi. destruct source_view as [_ Vs], target_view as [_ Vt].
  unfold plan_point_to_point. apply follows_target_source_ret.
  - destruct sj as [j|]; [|rewrite Vt; apply yields_ret]. destruct Vt as (-> & _ & t & -> & ->).
    rewrite direct_key. apply yields_ret.
  - destruct si as [i|]; [|rewrite Vs; apply yields_ret]. destruct Vs as (-> & _ & t & -> & ->).
    cbn. rewrite decide_True by auto. rewrite direct_key. apply yields_ret.
Qed.

Lemma follows_nothing : sj = None -> (forall i, si = Some i -> num_devices_ (devices dst) <= i) ->
  follows (point_to_point_pattern src dst) (mret []).
Proof.
  intros E Hi. exists []. split; [done|]. rewrite E. unfold pattern_calls, source_part, target_part.
  destruct si as [i|]; [|done]. cbn. specialize (Hi i eq_refl). by rewrite decide_False by lia.
Qed.

Lemma plans_scatter_gather pat : (forall j, relays pat j = []) ->
  (forall j x, x ∈ ins pat j -> x.1.1 = Direct) ->
  follows pat (mret (plan_scatter_gather (mkScatterGather
    (of_shard (fun i => (fun '(j, s) => mkSlice i j s) <$> outs pat i) si)
    (of_shard (fun j => (fun '(_, i, s) => mkSlice i j s) <$> ins pat j) sj)) a d)).
Proof.
  intros Hr Hin. destruct source_view as [_ Vs], target_view as [_ Vt].
  unfold plan_scatter_gather, HasTile. apply follows_source_target_ret.
  - destruct si as [i|]; [|rewrite Vs; apply yields_ret]. destruct Vs as (_ & _ & t & -> & _).
    cbn. rewrite <- list_fmap_compose. erewrite list_fmap_ext; [apply yields_ret|].
    intros _ [j s] _. unfold compose, slice_call, send_call. cbn. by rewrite direct_key.
  - destruct sj as [j|]; [|rewrite Vt; apply yields_ret]. destruct Vt as (_ & _ & t & -> & _).
    cbn. rewrite Hr, app_nil_r, <- list_fmap_compose. erewrite list_fmap_ext; [apply yields_ret|].
    intros n [[h i] s] Hx. apply list_elem_of_lookup_2, Hin in Hx. cbn in Hx. subst h.
    unfold compose, slice_call, recv_call. cbn. by rewrite direct_key.
Qed.

Lemma broadcast_target_pattern j t : realm_shape t = shard_rect dst j -> shard_id_ d = j ->
  broadcast_target_calls (target_of src dst j) a d t =
  (recv_call sid did j <$> ins (broadcast_pattern src dst) j) ++
  (send_call sid did Relay j <$> relays (broadcast_pattern src dst) j).
Proof.
  intros Ht Hj. unfold broadcast_target_calls. rewrite Ht, Hj. cbn [ins relays broadcast_pattern]. f_equal.
  - destruct (tc_src_shard _); [cbn; by rewrite direct_key|].
    destruct (tc_dst_root_shard _); [cbn; by rewrite relay_key|done].
  - rewrite <- list_fmap_compose. apply list_fmap_ext. intros _ leaf _.
    unfold compose, send_call. cbn. by rewrite relay_key.
Qed.

Lemma plans_broadcast : (forall i, si = Some i -> is_Some (source_of src dst i)) ->
  follows (broadcast_pattern src dst) (plan_broadcast (broadcast_config src dst si sj) a d).
Proof.
  intros Hi. destruct source_view as [_ Vs], target_view as [_ Vt]. unfold plan_broadcast.
  apply follows_target_source.
  - destruct sj as [j|]; [|rewrite Vt; apply yields_ret]. destruct Vt as (Hj & _ & t & -> & Ht).
    assert (bc_target (broadcast_config src dst si (Some j)) = Some (target_of src dst j)) as ->.
    { unfold broadcast_config. destruct si as [i|]; [|done].
      by destruct (Hi i eq_refl) as [s ->]. }
    cbn [deref mbind outcome_bind mret outcome_ret].
    rewrite (broadcast_target_pattern j t Ht Hj). apply yields_ret.
  - unfold broadcast_config. destruct si as [i|]; [|rewrite Vs; apply yields_ret].
    destruct Vs as (-> & _ & t & -> & ->). unfold source_part. cbn. destruct (Hi i eq_refl) as [s ->].
    cbn. rewrite <- list_fmap_compose. unfold compose, send_call. cbn.
    setoid_rewrite direct_key. apply yields_ret.
Qed.

(** A processor whose source shard has no root to send to dereferences the
    missing half of its configuration. *)
Lemma broadcast_extra_source i : si = Some i -> source_of src dst i = None -> sj = None ->
  plan_broadcast (broadcast_config src dst si sj) a d = Undef NullOptional.
Proof.
  intros Ei Es Ej. destruct source_view as [_ Vs], target_view as [_ Vt]. unfold plan_broadcast.
  unfold broadcast_config. rewrite Ei in Vs |- *. rewrite Ej in Vt. rewrite Es, Vt.
  by destruct Vs as (_ & _ & t & -> & _).
Qed.

Lemma own_shard_id l o : DeviceListOps.wf l -> shard_in p l = o ->
  DeviceListOps.ShardId l (global_id_ p) = Ret o.
Proof. intros Hl <-. by apply ShardId_in. Qed.

Lemma plans_gather (part : Z -> RealmShape) :
  follows (gather_pattern src dst part) (plan_gather p
    (mkGather si sj (part <$> si) (part <$> seqZ 0 (num_devices_ (devices src)))) a d).
Proof.
  destruct source_view as [Es Vs], target_view as [Et Vt]. unfold plan_gather. rewrite Es, Et.
  rewrite (own_shard_id _ si (wf_devices src Hsrc) Hsi). cbn [gs_src_shard gs_dst_shard].
  apply follows_source_target.
  - destruct si as [i|]; [|rewrite Vs; apply yields_ret]. destruct Vs as (_ & _ & t & -> & _).
    cbn [deref mbind outcome_bind mret outcome_ret].
    rewrite (mapO_ok _ (fun j => mkCall FromSource (part i) (key_of a d i j))) by done.
    unfold source_part. cbn. rewrite <- list_fmap_compose. unfold compose, send_call. cbn.
    setoid_rewrite direct_key. apply yields_ret.
  - destruct sj as [j|]; [|rewrite Vt; apply yields_ret]. destruct Vt as (_ & _ & t & -> & _).
    cbn [deref mbind outcome_bind mret outcome_ret target_from_source_bounds].
    rewrite (mapO_ok _ (fun i => mkCall ToTarget (part i) (key_of a d i j))).
    + unfold target_part. cbn. rewrite app_nil_r, <- list_fmap_compose. unfold compose, recv_call. cbn.
      setoid_rewrite direct_key. apply yields_ret.
    + intros i Hi%elem_of_seqZ. unfold DeviceListOps.size in Hi. erewrite vec_get_ok; [done|lia|].
      rewrite list_lookup_fmap, lookup_seqZ_lt by lia. cbn. do 2 f_equal. lia.
Qed.

Lemma plans_scatter n : 0 < n -> num_devices_ (devices dst) = n * num_devices_ (devices src) ->
  follows (scatter_pattern dst n) (plan_scatter p a d).
Proof.
  intros Hn HD. destruct source_view as [Es Vs], target_view as [Et Vt].
  pose proof (num_devices_i64 src Hsrc) as HSi. pose proof (num_devices_i64 dst Hdst) as HDi.
  unfold plan_scatter, shards_per_source, DeviceListOps.size. rewrite Es, Et.
  rewrite (own_shard_id _ si (wf_devices src Hsrc) Hsi), (own_shard_id _ sj (wf_devices dst Hdst) Hsj).
  rewrite div64_ok, HD, Z.div_mul by (unfold i64; lia). cbn [mbind outcome_bind].
  apply follows_source_target.
  - destruct si as [i|]; [|rewrite Vs; apply yields_ret]. destruct Vs as (_ & Hi & t & -> & _).
    unfold source_shard in Hi. cbn [deref mbind outcome_bind mret outcome_ret].
    rewrite mul64_ok by (unfold i64; nia). cbn [mbind outcome_bind].
    rewrite (mapO_ok _ (fun k => mkCall FromSource (shard_rect dst (n * i + k)) (key_of a d i (n * i + k)))).
    + unfold source_part. cbn. rewrite <- list_fmap_compose. unfold compose, send_call. cbn.
      setoid_rewrite direct_key. apply yields_ret.
    + intros k Hk%elem_of_seqZ. rewrite add64_ok by (unfold i64; nia). cbn [mbind outcome_bind].
      by rewrite ComputeTileBounds_shard by (done || unfold source_shard; nia).
  - destruct sj as [j|]; [|rewrite Vt; apply yields_ret]. destruct Vt as (_ & Hj & t & -> & ->).
    unfold target_shard in Hj. cbn [deref mbind outcome_bind mret outcome_ret].
    rewrite div64_ok by (unfold i64; lia). cbn [mbind outcome_bind].
    rewrite direct_key. apply yields_ret.
Qed.
End Plans.
