(* ===== verification/PlanMatch.v ===== *)
(** The plans of all processors of a reshard fit together.  For the pairs of
    shardings that [fits] lists, the plan of every processor is defined, every
    planned send has its receive with the same key and shape on the processor
    that the key names and the other way round, and the receives tile every
    target shard with data that is in the source. *)
From stdpp Require Import base tactics list list_numbers numbers option strings sets.
From Stdlib Require Import ZArith Lia.
From S2P Require Import Prelude Events Mesh Shape Processor TileIndex Tiles ScatterGather Broadcast.
From S2P Require Import ReshardConfig Handles Arrays ReshardManager Reshard ReshardPlan PlanPattern.
Import ShardingOps.
Open Scope Z_scope.

(** ** The pairs of shardings

    [fits_copy]: a source shard without a target of its number must not be on a
    processor of the target.  [fits_broadcast]: every source shard has a root to
    send to, and the trees are complete. *)
Inductive fits `{!RealmLimits} (src dst : Sharding) : Prop :=
| fits_gather :
    num_tiles src = num_devices_ (devices src) -> num_tiles dst = 1 -> fits src dst
| fits_slices :
    1 < num_tiles src -> num_tiles dst = 1 ->
    existsb (can_slice (replication src)) (reals (dims src)) = true -> fits src dst
| fits_scatter n :
    num_tiles src = 1 -> num_tiles dst = num_devices_ (devices dst) ->
    num_devices_ (devices dst) = n * num_devices_ (devices src) -> fits src dst
| fits_copy :
    num_tiles src = 1 -> num_tiles dst = 1 ->
    1 < num_devices_ (devices dst) <= num_devices_ (devices src) ->
    (forall g, source_shard src (g - start_ (devices src)) ->
       target_shard dst (g - start_ (devices dst)) ->
       g - start_ (devices src) < num_devices_ (devices dst)) -> fits src dst
| fits_broadcast :
    num_tiles src = 1 -> num_tiles dst = 1 ->
    1 < num_devices_ (devices src) < num_devices_ (devices dst) ->
    num_devices_ (devices dst) <= 2 ^ 61 ->
    (forall i, source_shard src i -> group_root src dst i < num_devices_ (devices dst)) ->
    full_groups src dst -> fits src dst
| fits_same :
    1 < num_tiles dst -> dims src = dims dst ->
    num_devices_ (devices src) = num_devices_ (devices dst) -> fits src dst
| fits_one_dim dim k :
    1 < num_tiles src -> 1 < num_tiles dst -> one_dim_reshard dim k src dst -> fits src dst.

(** ** Which configuration is chosen *)
Section Determine.
Context `{!RealmLimits} (p : Processor) (src dst : Sharding).
Context (Hsrc : wf src) (Hdst : wf dst) (Hp : 0 <= global_id_ p <= i64_max).

Let NS := num_devices_ (devices src).
Let ND := num_devices_ (devices dst).

Lemma DetermineShardingConfig_cases :
  DetermineShardingConfig p src dst =
  if bool_decide (num_tiles src = NS /\ num_tiles dst = 1) then
    c ← GetGatherShardsConfig p src dst; mret (GatherShardsVariant c)
  else if bool_decide (num_tiles dst = ND /\ num_tiles src = 1) then
    c ← GetScatterShardsConfig p src dst; mret (ScatterShardsVariant c)
  else if bool_decide (num_tiles src = 1 /\ num_tiles dst = 1) then
    DetermineShardingConfigFullyReplicated p src dst
  else if bool_decide (1 < num_tiles src < NS /\ num_tiles dst = 1) then
    DeterminePartialToReplicatedConfig p src dst
  else if negb (num_dims src =? num_dims dst) then mret UnsupportedConfig
  else if (NS =? ND) && dims_eqb (dims src) (dims dst) then mret PointToPointConfig
  else DetermineScatterGatherConfig p src dst.
Proof.
  unfold DetermineShardingConfig, FullySharded, IsReplicated, IsPartiallyReplicated.
  rewrite (TotalSharding_ok src Hsrc), (TotalSharding_ok dst Hdst).
  unfold andM, DeviceListOps.size. fold NS ND. cbn [mbind outcome_bind mret outcome_ret].
  destruct (Z.eqb_spec (num_tiles src) NS), (Z.eqb_spec (num_tiles dst) 1),
    (Z.eqb_spec (num_tiles dst) ND), (Z.eqb_spec (num_tiles src) 1),
    (Z.ltb_spec 1 (num_tiles src)), (Z.ltb_spec (num_tiles src) NS); try lia;
    cbn [andb mbind outcome_bind mret outcome_ret];
    repeat (first [rewrite bool_decide_eq_true_2 by lia | rewrite bool_decide_eq_false_2 by lia]); done.
Qed.

(** Replicated to replicated. *)
Lemma DetermineShardingConfig_replicated :
  num_tiles src = 1 -> num_tiles dst = 1 -> 1 < NS -> 1 < ND ->
  DetermineShardingConfig p src dst =
  if ND <=? NS then
    mret (if bool_decide (~ target_shard dst (global_id_ p - start_ (devices dst)) /\
                          ND <= global_id_ p - start_ (devices src))
          then NoOpConfig else PointToPointConfig)
  else
    c ← GetBroadcastConfig (shard_in p (devices src)) (shard_in p (devices dst)) src dst;
    mret (BroadcastVariant c).
Proof.
  intros Hs Hd HS HD. rewrite DetermineShardingConfig_cases.
  rewrite (bool_decide_eq_false_2 (num_tiles src = NS /\ _)), (bool_decide_eq_false_2 (num_tiles dst = ND /\ _)) by lia.
  rewrite bool_decide_eq_true_2 by done. unfold DetermineShardingConfigFullyReplicated, DeviceListOps.size.
  fold NS ND. pose proof (wf_devices src Hsrc) as Hws. pose proof (wf_devices dst Hdst) as Hwd.
  assert (Hp' : i64 (global_id_ p)) by (unfold i64; lia).
  destruct (ND <=? NS).
  - rewrite (DeviceListOps.Contains_ok _ _ Hwd). destruct Hws as (Hst & _ & Hsi).
    unfold DeviceListOps.start. rewrite sub64_ok by (unfold i64 in *; lia).
    cbn [mbind outcome_bind mret outcome_ret]. unfold target_shard. fold ND.
    case_bool_decide; destruct (Z.leb_spec ND (global_id_ p - start_ (devices src))); cbn;
      repeat (first [rewrite bool_decide_eq_true_2 by lia | rewrite bool_decide_eq_false_2 by lia]); done.
  - by rewrite !ShardId_in by done.
Qed.

(** One dimension: both are tiled. *)
Lemma DetermineShardingConfig_tiled : 1 < num_tiles src -> 1 < num_tiles dst ->
  length (dims src) = length (dims dst) ->
  DetermineShardingConfig p src dst =
  if (NS =? ND) && dims_eqb (dims src) (dims dst) then mret PointToPointConfig
  else DetermineScatterGatherConfig p src dst.
Proof.
  intros Hs Hd Hl. rewrite DetermineShardingConfig_cases.
  repeat (rewrite bool_decide_eq_false_2 by lia). unfold num_dims. by rewrite Hl, Z.eqb_refl.
Qed.

Lemma differing_loop dim d d' :
  dims src !! dim = Some d -> dims dst !! dim = Some d' -> d <> d' ->
  length (dims src) = length (dims dst) ->
  (forall j, j <> dim -> dims src !! j = dims dst !! j) ->
  foldM (differing_step src dst) (0, -1) (seqZ 0 (num_dims src)) = Ret (1, Z.of_nat dim).
Proof.
  intros Hd Hd' Hne Hl Hj. pose proof (lookup_lt_Some _ _ _ Hd). unfold num_dims.
  destruct (foldM_range (differing_step src dst)
    (fun k st => st = if decide (dim < k)%nat then (1, Z.of_nat dim) else (0, -1))
    0 (length (dims src)) (0, -1)) as (r & -> & ->); [done| |by rewrite decide_True].
  intros k st Hk ->. rewrite Z.add_0_l. destruct (lookup_lt_is_Some_2 _ _ Hk) as [x Hx].
  destruct (lookup_lt_is_Some_2 (dims dst) k ltac:(lia)) as [y Hy].
  unfold differing_step. destruct (decide (dim = k)) as [->|Hk'].
  - rewrite decide_False by lia. rewrite (vec_get_lookup _ _ _ Hx), (vec_get_lookup _ _ _ Hy).
    cbn [mbind outcome_bind]. simplify_eq. unfold dim_neqb.
    destruct (dim_eqb d d') eqn:E; [by apply dim_eqb_eq in E|]. cbn.
    rewrite decide_True by lia. by eexists.
  - assert (x = y) as <- by (rewrite (Hj k ltac:(done)) in Hx; congruence).
    assert (Hsame : dim_neqb x x = false) by (unfold dim_neqb; apply negb_false_iff, dim_eqb_eq; done).
    destruct (decide (dim < k)%nat); rewrite (vec_get_lookup _ _ _ Hx), (vec_get_lookup _ _ _ Hy);
      cbn [mbind outcome_bind]; rewrite Hsame; eexists; (split; [done|]); by rewrite ?decide_True, ?decide_False by lia.
Qed.

Lemma shard_of_ok l : DeviceListOps.wf l -> shard_of l (global_id_ p) = Ret (shard_in p l).
Proof.
  intros Hl. unfold shard_of, shard_in. rewrite (DeviceListOps.Contains_ok _ _ Hl).
  cbn [mbind outcome_bind]. destruct Hl as (Hst & _ & Hi). case_decide.
  - rewrite bool_decide_eq_true_2 by done. unfold DeviceListOps.start.
    by rewrite sub64_ok by (unfold i64 in *; lia).
  - by rewrite bool_decide_eq_false_2.
Qed.

Lemma DetermineScatterGatherConfig_ok dim d d' c :
  dims src !! dim = Some d -> dims dst !! dim = Some d' -> d <> d' ->
  length (dims src) = length (dims dst) ->
  (forall j, j <> dim -> dims src !! j = dims dst !! j) ->
  GetScatterGatherConfig (Z.of_nat dim) (shard_in p (devices src)) (shard_in p (devices dst)) src dst = Ret c ->
  DetermineScatterGatherConfig p src dst = Ret (ScatterGatherVariant c).
Proof.
  intros Hd Hd' Hne Hl Hj Hc. unfold DetermineScatterGatherConfig.
  rewrite (differing_loop dim d d') by done. cbn [mbind outcome_bind Z.eqb Pos.eqb].
  rewrite (vec_get_lookup _ _ _ Hd), (vec_get_lookup _ _ _ Hd'). cbn [mbind outcome_bind].
  rewrite !shard_of_ok by by apply wf_devices. cbn [mbind outcome_bind]. by rewrite Hc.
Qed.
End Determine.

(** The shardings of a one-dimensional reshard differ in that dimension. *)
Lemma refines_differ dim k f c : refines dim k f c ->
  exists d d', dims f !! dim = Some d /\ dims c !! dim = Some d' /\ d <> d' /\
    length (dims f) = length (dims c) /\ forall j, j <> dim -> dims f !! j = dims c !! j.
Proof.
  intros Href. destruct (refines_dim _ _ _ _ Href) as (d & d' & Hd & Hd' & _ & _ & _ & _ & Hs & Hs').
  pose proof (refines_k _ _ _ _ Href). exists d, d'. split_and!; [done|done| | |].
  - intros ->. nia.
  - symmetry. by apply (refines_length _ _ _ _ Href).
  - intros j Hj. symmetry. by apply (refines_other _ _ _ _ Href).
Qed.

(** ** Every fitting pair is moved by a pattern that agrees *)
Section Moves.
Context `{!RealmLimits} (ss sd : ShardedShape).
Let src := ss_sharding ss.
Let dst := ss_sharding sd.
Context (Hsrc : wf src) (Hdst : wf dst) (Hrs : rank_supported src) (Hrd : rank_supported dst).

Definition moves (pat : Pattern) : Prop :=
  agrees src dst pat /\
  forall p us ud a d, 0 <= global_id_ p <= i64_max ->
    local_array p us ss a -> local_array p ud sd d ->
    follows us ud ss sd (shard_in p (devices src)) (shard_in p (devices dst)) pat (plan p a d).

Lemma moves_intro pat (variant : Processor -> ReshardConfigVariant) :
  agrees src dst pat ->
  (forall p, 0 <= global_id_ p <= i64_max -> DetermineShardingConfig p src dst = Ret (variant p)) ->
  (forall p us ud a d, 0 <= global_id_ p <= i64_max -> i64 (global_id_ p) ->
    local_array p us ss a -> local_array p ud sd d ->
    follows us ud ss sd (shard_in p (devices src)) (shard_in p (devices dst)) pat
      (match variant p with
       | PointToPointConfig => mret (plan_point_to_point a d)
       | ScatterGatherVariant c => mret (plan_scatter_gather c a d)
       | BroadcastVariant c => plan_broadcast c a d
       | NoOpConfig => mret []
       | ScatterShardsVariant _ => plan_scatter p a d
       | GatherShardsVariant c => plan_gather p c a d
       | UnsupportedConfig => Throw (RuntimeError "unsupported resharding pattern requested")
       end)) ->
  moves pat.
Proof.
  intros Hag Hdet Hpl. split; [done|]. intros p us ud a d Hp Ha Hd. unfold plan, sa_sharding.
  rewrite (proj1 (proj2 Ha)), (proj1 (proj2 Hd)). fold src dst. rewrite Hdet by done.
  apply Hpl; [done|unfold i64; lia|done..].
Qed.

Lemma shard_rects_cover s : wf s -> num_tiles s = num_devices_ (devices s) ->
  forall pt, contains (array_rect s) pt ->
  exists i, source_shard s i /\ contains (shard_rect s i) pt /\
    forall k, source_shard s k -> contains (shard_rect s k) pt -> k = i.
Proof.
  intros Hwf Ht pt Hpt. pose proof (tiles_replication s Hwf) as Hr. pose proof (num_tiles_pos s Hwf).
  assert (H1 : replication s = 1) by nia.
  destruct (tiles_partition s pt 0 Hwf Hpt ltac:(lia)) as (i & Hi & Hc & _ & Hu).
  exists i. split; [done|]. split; [done|]. intros k Hk Hck. apply Hu; [done|done|].
  pose proof (replica_coord_valid s Hwf _ (tile_index_valid s Hwf k)). lia.
Qed.

Lemma moves_gather : array_rect src = array_rect dst ->
  num_tiles src = num_devices_ (devices src) -> num_tiles dst = 1 ->
  moves (gather_pattern src dst (shard_rect src)).
Proof.
  intros Heq Hs Hd. apply (moves_intro _ (fun p => GatherShardsVariant
    (mkGather (shard_in p (devices src)) (shard_in p (devices dst))
       (shard_rect src <$> shard_in p (devices src))
       (shard_rect src <$> seqZ 0 (num_devices_ (devices src)))))).
  - apply gather_agrees; [done|done|intros i _; apply within_refl|].
    rewrite <- Heq. by apply shard_rects_cover.
  - intros p Hp. rewrite DetermineShardingConfig_cases by done. rewrite bool_decide_eq_true_2 by done.
    by rewrite GetGatherShardsConfig_ok by (done || unfold i64; lia).
  - intros p us ud a d Hp Hp' Ha Hd'. by apply (plans_gather p us ud ss sd a d).
Qed.

Lemma moves_slices : array_rect src = array_rect dst -> 1 < num_tiles src -> num_tiles dst = 1 ->
  existsb (can_slice (replication src)) (reals (dims src)) = true -> exists pat, moves pat.
Proof.
  intros Heq Hs Hd Hex. destruct (decide (num_tiles src = num_devices_ (devices src))) as [Hfull|Hpart].
  { eexists. by apply moves_gather. }
  pose proof (tiles_replication src Hsrc) as Hrep. pose proof (replication_pos src Hsrc).
  assert (Hr : replicas (dims src) <> []).
  { intros Hr. unfold replication in *. rewrite Hr in *. cbn in *. lia. }
  pose proof (slice_choice_ok src Hsrc) as [_ Ho]. destruct (slice_choice src) as [n|] eqn:En.
  2:{ exfalso. apply existsb_exists in Hex as (e & He%list_elem_of_In & Hc). by rewrite Ho in Hc. }
  destruct Ho as (e & Hn & Hc). set (part i := slice_rect src n (tile_index src i)).
  exists (gather_pattern src dst part). apply (moves_intro _ (fun p => GatherShardsVariant
    (mkGather (shard_in p (devices src)) (shard_in p (devices dst)) (part <$> shard_in p (devices src))
       (part <$> seqZ 0 (num_devices_ (devices src)))))).
  - apply gather_agrees; [done|done| |].
    + intros i _ pt Hp. by apply (contains_slice src Hsrc n e Hn Hc) in Hp as [? _];
        [|apply tile_index_valid].
    + intros pt Hpt. rewrite <- Heq in Hpt. by apply (slices_partition src Hsrc n e Hn Hc).
  - intros p Hp. rewrite DetermineShardingConfig_cases by done.
    do 3 (rewrite bool_decide_eq_false_2 by lia). rewrite bool_decide_eq_true_2 by nia.
    rewrite DeterminePartialToReplicatedConfig_ok by (done || unfold i64; lia). by rewrite En.
  - intros p us ud a d Hp Hp' Ha Hd'. by apply (plans_gather p us ud ss sd a d).
Qed.

Lemma moves_scatter n : array_rect src = array_rect dst -> num_tiles src = 1 ->
  num_tiles dst = num_devices_ (devices dst) ->
  num_devices_ (devices dst) = n * num_devices_ (devices src) -> exists pat, moves pat.
Proof.
  intros Heq Hs Hd Hn. pose proof (num_devices_i64 src Hsrc) as HS1. pose proof (num_devices_i64 dst Hdst) as HD1.
  destruct (decide (num_tiles src = num_devices_ (devices src) /\ num_tiles dst = 1)) as [[H1 H2]|Hng].
  { eexists. by apply moves_gather. }
  exists (scatter_pattern dst n). apply (moves_intro _ (fun p => ScatterShardsVariant
    (mkScatter (shard_in p (devices dst)) (bool_decide (start_ (devices src) <= global_id_ p <
      start_ (devices src) + num_devices_ (devices src)))))).
  - by apply scatter_agrees.
  - intros p Hp. rewrite DetermineShardingConfig_cases by done.
    rewrite bool_decide_eq_false_2, bool_decide_eq_true_2 by done. unfold GetScatterShardsConfig.
    rewrite ShardId_in by (apply (wf_devices dst Hdst) || unfold i64; lia).
    by rewrite (DeviceListOps.Contains_ok _ _ (wf_devices src Hsrc)).
  - intros p us ud a d Hp Hp' Ha Hd'. apply (plans_scatter p us ud ss sd a d); try done. nia.
Qed.

Lemma moves_copy : array_rect src = array_rect dst -> num_tiles src = 1 -> num_tiles dst = 1 ->
  1 < num_devices_ (devices dst) <= num_devices_ (devices src) ->
  (forall g, source_shard src (g - start_ (devices src)) ->
     target_shard dst (g - start_ (devices dst)) ->
     g - start_ (devices src) < num_devices_ (devices dst)) -> exists pat, moves pat.
Proof.
  intros Heq Hs Hd HD Hg. exists (point_to_point_pattern src dst).
  set (idle p := ~ target_shard dst (global_id_ p - start_ (devices dst)) /\
    num_devices_ (devices dst) <= global_id_ p - start_ (devices src)).
  apply (moves_intro _ (fun p => if bool_decide (idle p) then NoOpConfig else PointToPointConfig)).
  - apply point_to_point_agrees; [lia|]. intros i _. by rewrite !shard_rect_replicated.
  - intros p Hp. rewrite DetermineShardingConfig_replicated by (done || lia).
    by rewrite (proj2 (Z.leb_le _ _)) by lia.
  - intros p us ud a d Hp Hp' Ha Hd'. case_bool_decide as Hi.
    + apply (follows_nothing p us ud ss sd); [done|..].
      * unfold shard_in. rewrite decide_False; [done|]. destruct Hi as [Hi _]. unfold target_shard in Hi. fold dst. lia.
      * intros i Ei. unfold shard_in in Ei. case_decide; [|done]. injection Ei as <-. apply Hi.
    + apply (plans_point_to_point p us ud ss sd a d); try done. intros i Ei.
      unfold shard_in in Ei. case_decide; [|done]. injection Ei as <-.
      destruct (decide (target_shard dst (global_id_ p - start_ (devices dst)))) as [Ht|Ht].
      * apply Hg; [|done]. unfold source_shard. fold src in H. lia.
      * unfold idle in Hi. fold src dst. destruct (Z.lt_ge_cases (global_id_ p - start_ (devices src))
          (num_devices_ (devices dst))); [done|]. exfalso. by apply Hi.
Qed.

Lemma moves_broadcast : array_rect src = array_rect dst -> num_tiles src = 1 -> num_tiles dst = 1 ->
  1 < num_devices_ (devices src) < num_devices_ (devices dst) ->
  num_devices_ (devices dst) <= 2 ^ 61 ->
  (forall i, source_shard src i -> group_root src dst i < num_devices_ (devices dst)) ->
  full_groups src dst -> exists pat, moves pat.
Proof.
  intros Heq Hs Hd HD Hmax Hroot Hfull. exists (broadcast_pattern src dst).
  assert (Hok : broadcast_ok src dst) by (split; [by apply wf_devices|lia]).
  apply (moves_intro _ (fun p => BroadcastVariant
    (broadcast_config src dst (shard_in p (devices src)) (shard_in p (devices dst))))).
  - apply broadcast_agrees; try done. lia.
  - intros p Hp. rewrite DetermineShardingConfig_replicated by (done || lia).
    rewrite (proj2 (Z.leb_gt _ _)) by lia.
    rewrite (GetBroadcastConfig_ok src dst Hok) by (intros ?; apply shard_in_range). done.
  - intros p us ud a d Hp Hp' Ha Hd'. apply (plans_broadcast p us ud ss sd a d); try done.
    intros i Ei. apply shard_in_range in Ei. unfold source_of.
    rewrite (proj2 (Z.ltb_lt _ _)) by (by apply Hroot). by eexists.
Qed.

Lemma moves_same : 1 < num_tiles dst -> dims src = dims dst ->
  num_devices_ (devices src) = num_devices_ (devices dst) -> exists pat, moves pat.
Proof.
  intros Hd Hdims HS. exists (point_to_point_pattern src dst).
  apply (moves_intro _ (fun p => PointToPointConfig)).
  - apply point_to_point_agrees; [lia|]. intros i _. unfold shard_rect, tile_rect, tile_index.
    by rewrite Hdims.
  - intros p Hp. rewrite DetermineShardingConfig_tiled; [|done..| |done|by rewrite Hdims].
    + rewrite HS, Z.eqb_refl. by rewrite (proj2 (dims_eqb_eq _ _) Hdims).
    + unfold num_tiles in *. by rewrite Hdims.
  - intros p us ud a d Hp Hp' Ha Hd'. apply (plans_point_to_point p us ud ss sd a d); try done.
    intros i Ei. apply shard_in_range in Ei. unfold dst, src in *. lia.
Qed.

(** The configuration of a processor in a pattern without relays. *)
Definition slices_of (pat : Pattern) (p : Processor) : ScatterGatherConfig :=
  mkScatterGather
    (of_shard (fun i => (fun '(j, s) => mkSlice i j s) <$> outs pat i) (shard_in p (devices src)))
    (of_shard (fun j => (fun '(_, i, s) => mkSlice i j s) <$> ins pat j) (shard_in p (devices dst))).

Lemma moves_sliced pat : 1 < num_tiles src -> 1 < num_tiles dst ->
  (exists dim d d', dims src !! dim = Some d /\ dims dst !! dim = Some d' /\ d <> d' /\
     length (dims src) = length (dims dst) /\
     (forall j, j <> dim -> dims src !! j = dims dst !! j) /\
     forall p, GetScatterGatherConfig (Z.of_nat dim) (shard_in p (devices src)) (shard_in p (devices dst)) src dst =
       Ret (slices_of pat p)) ->
  agrees src dst pat -> (forall j, relays pat j = []) -> (forall j x, x ∈ ins pat j -> x.1.1 = Direct) ->
  moves pat.
Proof.
  intros Hs Hd (dim & e & e' & He & He' & Hne & Hl & Hj & Hc) Hag Hr Hin.
  apply (moves_intro _ (fun p => ScatterGatherVariant (slices_of pat p)) Hag).
  - intros p Hp. rewrite DetermineShardingConfig_tiled by done.
    destruct (dims_eqb (dims src) (dims dst)) eqn:E.
    { apply dims_eqb_eq in E. congruence. }
    rewrite andb_false_r. by apply (DetermineScatterGatherConfig_ok p src dst Hsrc Hdst dim e e').
  - intros p us ud a d Hp Hp' Ha Hd'. by apply (plans_scatter_gather p us ud ss sd a d).
Qed.

Lemma shard_in_ok s p : shard_ok s (shard_in p (devices s)).
Proof. unfold shard_ok. destruct (shard_in p (devices s)) eqn:E; [|done]. by apply shard_in_range in E. Qed.

Lemma moves_one_dim dim k : 1 < num_tiles src -> 1 < num_tiles dst ->
  one_dim_reshard dim k src dst -> exists pat, moves pat.
Proof.
  intros Hs Hd [[Href Hr]|[Href Hr]].
  - exists (merge_pattern src dst dim k). destruct (refines_differ _ _ _ _ Href) as (e & e' & He & He' & Hne & Hl & Hj).
    apply moves_sliced; try done.
    + exists dim, e, e'. split_and!; try done. intros p.
      rewrite (GetScatterGatherConfig_gather dim k) by (done || apply shard_in_ok). unfold slices_of. do 2 f_equal.
      unfold of_shard. destruct (shard_in p (devices dst)) as [j|]; [|done]. cbn [ins merge_pattern].
      rewrite <- list_fmap_compose. apply list_fmap_ext. by intros _ [i s] _.
    + by apply merge_agrees.
    + by intros j x (y & -> & _)%list_elem_of_fmap.
  - exists (split_pattern src dst dim k). destruct (refines_differ _ _ _ _ Href) as (e & e' & He & He' & Hne & Hl & Hj).
    apply moves_sliced; try done.
    + exists dim, e', e. split_and!; try done; [intros j Hj'; symmetry; by apply Hj|]. intros p.
      rewrite (GetScatterGatherConfig_scatter dim k) by (done || apply shard_in_ok). f_equal.
    + by apply split_agrees.
    + by intros j x ->%list_elem_of_singleton.
Qed.

(** Every fitting pair. *)
Lemma fits_moves : array_rect src = array_rect dst -> fits src dst -> exists pat, moves pat.
Proof.
  intros Heq []; eauto using moves_gather, moves_slices, moves_scatter, moves_copy, moves_broadcast,
    moves_same, moves_one_dim.
Qed.
End Moves.

(** The calls of a processor, as the manager sees them. *)
Lemma elem_of_pattern_calls sid did pat si sj m :
  m ∈ manager_call <$> pattern_calls sid did pat si sj <->
  (exists i j s, si = Some i /\ (j, s) ∈ outs pat i /\ m = CallSend s (hop_key sid did Direct i j)) \/
  (exists i j s, sj = Some i /\ (j, s) ∈ relays pat i /\ m = CallSend s (hop_key sid did Relay i j)) \/
  (exists h i j s, sj = Some j /\ (h, i, s) ∈ ins pat j /\ m = CallRecv s (hop_key sid did h i j)).
Proof.
  unfold pattern_calls, source_part, target_part, of_shard. rewrite fmap_app, elem_of_app. split.
  - intros [Hm|Hm].
    + destruct si as [i|]; [|by apply not_elem_of_nil in Hm]. rewrite <- list_fmap_compose in Hm.
      apply list_elem_of_fmap in Hm as ([j s] & -> & Hx). left. by exists i, j, s.
    + destruct sj as [j|]; [|by apply not_elem_of_nil in Hm].
      rewrite fmap_app, elem_of_app, <- !list_fmap_compose in Hm.
      destruct Hm as [([[h i] s] & -> & Hx)%list_elem_of_fmap|([l s] & -> & Hx)%list_elem_of_fmap]; right.
      * right. by exists h, i, j, s.
      * left. by exists j, l, s.
  - intros [(i & j & s & -> & Hx & ->)|[(i & j & s & -> & Hx & ->)|(h & i & j & s & -> & Hx & ->)]].
    + left. rewrite <- list_fmap_compose.
      by apply (list_elem_of_fmap_2 (manager_call ∘ send_call sid did Direct i) _ (j, s)).
    + right. rewrite fmap_app, elem_of_app, <- !list_fmap_compose. right.
      by apply (list_elem_of_fmap_2 (manager_call ∘ send_call sid did Relay i) _ (j, s)).
    + right. rewrite fmap_app, elem_of_app, <- !list_fmap_compose. left.
      by apply (list_elem_of_fmap_2 (manager_call ∘ recv_call sid did j) _ (h, i, s)).
Qed.

(** ** All processors

    [procs] numbers the processors of one type; every one of them holds its view
    of the two arrays and resharding makes the calls of its plan. *)
Section AllProcessors.
Context `{!RealmLimits} (procs : Z -> Processor) (A B : Z -> ShardedArray).

(** Processor [g] asks the manager of its process for this. *)
Definition asks (g : Z) (m : ManagerCall) : Prop :=
  0 <= g <= i64_max /\
  exists calls, plan (procs g) (A g) (B g) = Ret calls /\ m ∈ (manager_call <$> calls).

(** The processors that a key names. *)
Definition sender (k : ReshardKey) : Z := start_ (uid_devices (src_id k)) + src_shard_id k.
Definition receiver (k : ReshardKey) : Z := start_ (uid_devices (dst_id k)) + dst_shard_id k.

Definition call_side (m : ManagerCall) : bool * ReshardKey :=
  match m with CallSend _ k => (true, k) | CallRecv _ k => (false, k) end.

Definition placed (u : Z) (shape : ShardedShape) (X : Z -> ShardedArray) : Prop :=
  forall g, 0 <= g <= i64_max -> local_array (procs g) u shape (X g).

(** The point [pt] of the array gets to the target shard: from a source shard
    whose tile holds it, or from a target shard that it got to. *)
Inductive delivered (us ud : Z) (src dst : Sharding) (pt : list Z) : Z -> Prop :=
| delivered_source k shape rect :
    src_id k = mkUniqueId us (devices src) -> dst_id k = mkUniqueId ud (devices dst) ->
    asks (sender k) (CallSend shape k) -> asks (receiver k) (CallRecv shape k) ->
    contains shape pt -> ComputeTileBounds (src_shard_id k) src = Ret rect -> contains rect pt ->
    delivered us ud src dst pt (dst_shard_id k)
| delivered_relay k shape :
    src_id k = mkUniqueId ud (devices dst) -> dst_id k = mkUniqueId ud (devices dst) ->
    asks (sender k) (CallSend shape k) -> asks (receiver k) (CallRecv shape k) ->
    contains shape pt -> delivered us ud src dst pt (src_shard_id k) ->
    delivered us ud src dst pt (dst_shard_id k).

Context (us ud : Z) (ss sd : ShardedShape) (pat : Pattern).
Let src := ss_sharding ss.
Let dst := ss_sharding sd.
Context (Hprocs : forall g, global_id_ (procs g) = g).
Context (Hsrc : wf src) (Hdst : wf dst) (Hrs : rank_supported src) (Hrd : rank_supported dst).
Context (HA : placed us ss A) (HB : placed ud sd B) (Hpat : moves ss sd pat).

Let key := hop_key (mkUniqueId us (devices src)) (mkUniqueId ud (devices dst)).

Lemma shard_at l g i : shard_in (procs g) l = Some i <-> g = start_ l + i /\ 0 <= i < num_devices_ l.
Proof.
  unfold shard_in. rewrite Hprocs. case_decide.
  - split; [intros [= <-]; lia|intros [-> _]; f_equal; lia].
  - split; [done|lia].
Qed.

Lemma plan_at g : 0 <= g <= i64_max ->
  exists calls, plan (procs g) (A g) (B g) = Ret calls /\
    calls ≡ₚ pattern_calls (mkUniqueId us (devices src)) (mkUniqueId ud (devices dst)) pat
      (shard_in (procs g) (devices src)) (shard_in (procs g) (devices dst)).
Proof. intros Hg. apply Hpat; [by rewrite Hprocs|by apply HA|by apply HB]. Qed.

Lemma asks_in g m : asks g m <-> 0 <= g <= i64_max /\
  m ∈ manager_call <$> pattern_calls (mkUniqueId us (devices src)) (mkUniqueId ud (devices dst)) pat
      (shard_in (procs g) (devices src)) (shard_in (procs g) (devices dst)).
Proof.
  unfold asks. split; intros [Hg Hm]; (split; [done|]); destruct (plan_at g Hg) as (calls & E & Hp).
  - destruct Hm as (calls' & E' & Hm). rewrite E in E'. injection E' as <-. by rewrite <- Hp.
  - exists calls. split; [done|]. by rewrite Hp.
Qed.

Lemma in_range_i64 s i : wf s -> source_shard s i -> 0 <= start_ (devices s) + i <= i64_max.
Proof.
  intros Hwf Hi. destruct (wf_devices s Hwf) as (? & _ & Hr). unfold source_shard, i64 in *. lia.
Qed.

Lemma asks_send g shape k : asks g (CallSend shape k) <->
  (exists i j, g = start_ (devices src) + i /\ source_shard src i /\
     (j, shape) ∈ outs pat i /\ k = key Direct i j) \/
  (exists i j, g = start_ (devices dst) + i /\ target_shard dst i /\
     (j, shape) ∈ relays pat i /\ k = key Relay i j).
Proof.
  rewrite asks_in, elem_of_pattern_calls. split.
  - intros [Hg [(i & j & s & Hi & Hx & [= -> ->])|[(i & j & s & Hi & Hx & [= -> ->])|(h & i & j & s & _ & _ & [=])]]];
      apply shard_at in Hi as [-> Hi]; eauto 10.
  - intros [(i & j & -> & Hi & Hx & ->)|(i & j & -> & Hi & Hx & ->)].
    + split; [by apply in_range_i64|]. left. exists i, j, shape. by rewrite shard_at.
    + split; [by apply in_range_i64|]. right. left. exists i, j, shape. by rewrite shard_at.
Qed.

Lemma asks_recv g shape k : asks g (CallRecv shape k) <->
  exists h i j, g = start_ (devices dst) + j /\ target_shard dst j /\
    (h, i, shape) ∈ ins pat j /\ k = key h i j.
Proof.
  rewrite asks_in, elem_of_pattern_calls. split.
  - intros [Hg [(i & j & s & _ & _ & [=])|[(i & j & s & _ & _ & [=])|(h & i & j & s & Hj & Hx & [= -> ->])]]].
    apply shard_at in Hj as [-> Hj]. eauto 10.
  - intros (h & i & j & -> & Hj & Hx & ->). split; [by apply in_range_i64|].
    right. right. exists h, i, j, shape. by rewrite shard_at.
Qed.

Lemma sends_received g shape k : asks g (CallSend shape k) ->
  g = sender k /\ asks (receiver k) (CallRecv shape k).
Proof.
  destruct Hpat as [Hag _]. fold src dst in Hag. rewrite asks_send, asks_recv.
  intros [(i & j & -> & Hi & Hx & ->)|(i & j & -> & Hi & Hx & ->)]; (split; [done|]).
  - exists Direct, i, j. split_and!; [done|by eapply outs_range|by apply (outs_ins _ _ _ Hag)|done].
  - exists Relay, i, j.
    split_and!; [done|by eapply relays_range|by apply (relays_ins _ _ _ Hag)|done].
Qed.

Lemma receives_sent g shape k : asks g (CallRecv shape k) ->
  g = receiver k /\ asks (sender k) (CallSend shape k).
Proof.
  destruct Hpat as [Hag _]. fold src dst in Hag. rewrite asks_send, asks_recv.
  intros ([] & i & j & -> & Hj & Hx & ->); (split; [done|]).
  - apply (ins_direct _ _ _ Hag) in Hx as [Hi Hx]; [|done]. left. by exists i, j.
  - apply (ins_relay _ _ _ Hag) in Hx as [Hi Hx]; [|done]. right. by exists i, j.
Qed.

Lemma side_inj (b b' : bool) h h' i i' j j' : (b, key h i j) = (b', key h' i' j') ->
  b = b' /\ i = i' /\ j = j' /\ (h = h' \/ mkUniqueId us (devices src) = mkUniqueId ud (devices dst)).
Proof.
  unfold key, hop_key. intros E. destruct h, h'; injection E; intros; split_and!;
    first [congruence|left; congruence|right; congruence].
Qed.

(** Relays only exist between different devices. *)
Lemma relays_differ j s i : target_shard dst i -> (j, s) ∈ relays pat i ->
  mkUniqueId us (devices src) <> mkUniqueId ud (devices dst).
Proof.
  destruct Hpat as [Hag _]. intros Hi Hx [= _ E].
  apply (relay_devices _ _ _ Hag i Hi); [|done]. intros En. rewrite En in Hx. by apply not_elem_of_nil in Hx.
Qed.

(** The sides of the calls of a shard. *)
Lemma sides_of h i l : call_side <$> (manager_call <$> (send_call
    (mkUniqueId us (devices src)) (mkUniqueId ud (devices dst)) h i <$> l)) =
  (fun j => (true, key h i j)) <$> l.*1.
Proof. rewrite <- !list_fmap_compose. apply list_fmap_ext. intros _ [j s] _. by destruct h. Qed.

Lemma sides_of_receives j l : call_side <$> (manager_call <$> (recv_call
    (mkUniqueId us (devices src)) (mkUniqueId ud (devices dst)) j <$> l)) =
  (fun x => (false, key x.1 x.2 j)) <$> l.*1.
Proof. rewrite <- !list_fmap_compose. apply list_fmap_ext. by intros _ [[h i] s] _. Qed.

Lemma target_sides_NoDup j : target_shard dst j ->
  NoDup (((fun x => (false, key x.1 x.2 j)) <$> (ins pat j).*1) ++
         ((fun l => (true, key Relay j l)) <$> (relays pat j).*1)).
Proof.
  destruct Hpat as [Hag _]. fold src dst in Hag. intros Hj. apply NoDup_app. split_and!.
  - apply NoDup_fmap_2_strong; [|by apply (ins_NoDup _ _ _ Hag)].
    intros [h i] [h' i'] Hx Hx' (_ & Hi & _ & Hu)%side_inj. cbn in Hi, Hu. subst i'.
    destruct Hu as [->|Hu]; [done|].
    assert (Hd : forall h i, (h, i) ∈ (ins pat j).*1 -> h = Direct).
    { intros [] i0; [done|]. intros ([[h0 i1] s] & [= <- <-] & Hin)%list_elem_of_fmap.
      apply (ins_relay _ _ _ Hag) in Hin as [Hi Hr]; [|done]. by apply relays_differ in Hr. }
    by rewrite (Hd h i), (Hd h' i).
  - intros x (y & -> & _)%list_elem_of_fmap (z & [=] & _)%list_elem_of_fmap.
  - apply NoDup_fmap_2; [|by apply (relays_NoDup _ _ _ Hag)]. by intros l l' (_ & _ & -> & _)%side_inj.
Qed.

(** No processor asks for the same reshard twice. *)
Lemma calls_distinct g calls : 0 <= g <= i64_max -> plan (procs g) (A g) (B g) = Ret calls ->
  NoDup (call_side <$> (manager_call <$> calls)).
Proof.
  destruct Hpat as [Hag _]. fold src dst in Hag. intros Hg E.
  destruct (plan_at g Hg) as (calls' & E' & Hp). rewrite E in E'. injection E' as <-.
  rewrite Hp. unfold pattern_calls, source_part, target_part, of_shard. rewrite !fmap_app.
  apply NoDup_app. split_and!.
  - destruct (shard_in (procs g) (devices src)) as [i|] eqn:Hi; [|apply NoDup_nil_2].
    apply shard_at in Hi as [_ Hi]. rewrite sides_of.
    apply NoDup_fmap_2; [|by apply (outs_NoDup _ _ _ Hag)]. by intros l l' (_ & _ & -> & _)%side_inj.
  - destruct (shard_in (procs g) (devices src)) as [i|]; [|by intros ? ?%not_elem_of_nil].
    destruct (shard_in (procs g) (devices dst)) as [j|] eqn:Hj; [|by intros ? _ ?%not_elem_of_nil].
    apply shard_at in Hj as [_ Hj].
    rewrite !fmap_app, sides_of, sides_of, sides_of_receives. intros x (l & -> & _)%list_elem_of_fmap.
    intros [(y & [=] & _)%list_elem_of_fmap|(l' & Hk & Hl)%list_elem_of_fmap]%elem_of_app.
    apply list_elem_of_fmap in Hl as ([l0 s] & -> & Hl). apply relays_differ in Hl; [|done].
    by apply side_inj in Hk as (_ & _ & _ & [[=]|Hk]).
  - destruct (shard_in (procs g) (devices dst)) as [j|] eqn:Hj; [|apply NoDup_nil_2].
    apply shard_at in Hj as [_ Hj]. rewrite !fmap_app, sides_of, sides_of_receives.
    by apply target_sides_NoDup.
Qed.

(** Every point gets to every target shard whose tile holds it. *)
Lemma tile_delivered pt j : target_shard dst j -> contains (shard_rect dst j) pt ->
  delivered us ud src dst pt j.
Proof.
  pose proof (proj1 Hpat) as Hag. fold src dst in Hag. revert j. apply (agrees_ind src dst pat Hag).
  - intros i j s Hi Hj Hx Hc Ht.
    assert (Hr : asks (receiver (key Direct i j)) (CallRecv s (key Direct i j)))
      by (apply asks_recv; by exists Direct, i, j).
    destruct (receives_sent _ _ _ Hr) as [_ Hs].
    refine (delivered_source us ud src dst pt (key Direct i j) s (shard_rect src i) eq_refl eq_refl Hs Hr Hc _ Ht).
    by apply ComputeTileBounds_shard.
  - intros i j s Hi Hj Hx Hc HP.
    assert (Hr : asks (receiver (key Relay i j)) (CallRecv s (key Relay i j)))
      by (apply asks_recv; by exists Relay, i, j).
    destruct (receives_sent _ _ _ Hr) as [_ Hs].
    exact (delivered_relay us ud src dst pt (key Relay i j) s eq_refl eq_refl Hs Hr Hc HP).
Qed.

(** ... in exactly one receive. *)
Lemma received_once pt j : target_shard dst j -> contains (shard_rect dst j) pt ->
  exists shape k, asks (start_ (devices dst) + j) (CallRecv shape k) /\ contains shape pt /\
    forall shape' k', asks (start_ (devices dst) + j) (CallRecv shape' k') -> contains shape' pt ->
      shape' = shape /\ k' = k.
Proof.
  destruct Hpat as [Hag _]. fold src dst in Hag. intros Hj Hpt.
  destruct (ins_cover _ _ _ Hag j pt Hj Hpt) as ([[h i] s] & Hx & Hc & Hu).
  exists s, (key h i j). split_and!; [apply asks_recv; by exists h, i, j|done|].
  intros s' k' (h' & i' & j' & Ej & Hj' & Hx' & ->)%asks_recv Hc'.
  assert (j' = j) as -> by lia. by injection (Hu _ Hx' Hc') as -> -> ->.
Qed.
End AllProcessors.

(** ** Properties *)
Section Properties.
Context `{!RealmLimits} (procs : Z -> Processor) (A B : Z -> ShardedArray).
Context (us ud : Z) (ss sd : ShardedShape).
Context (Hprocs : forall g, global_id_ (procs g) = g).
Context (Hsrc : wf (ss_sharding ss)) (Hdst : wf (ss_sharding sd)).
Context (Hrs : rank_supported (ss_sharding ss)) (Hrd : rank_supported (ss_sharding sd)).
Context (Hsame : array_rect (ss_sharding ss) = array_rect (ss_sharding sd)).
Context (Hfits : fits (ss_sharding ss) (ss_sharding sd)).
Context (HA : placed procs us ss A) (HB : placed procs ud sd B).

(** C6: when the shardings fit, every processor has a plan, in which no reshard
    is asked for twice; every planned send is made by the processor that its key
    names as the sender and has its receive, with the same key and shape, in the
    plan of the processor named as the receiver; and every planned receive has
    its send in the same way. *)
Theorem plans_match :
  (forall g, 0 <= g <= i64_max -> exists calls,
     plan (procs g) (A g) (B g) = Ret calls /\ NoDup (call_side <$> (manager_call <$> calls))) /\
  (forall g shape k, asks procs A B g (CallSend shape k) ->
     g = sender k /\ asks procs A B (receiver k) (CallRecv shape k)) /\
  (forall g shape k, asks procs A B g (CallRecv shape k) ->
     g = receiver k /\ asks procs A B (sender k) (CallSend shape k)).
Proof.
  destruct (fits_moves ss sd Hsrc Hdst Hrs Hrd Hsame Hfits) as [pat Hpat]. split_and!.
  - intros g Hg. destruct (plan_at procs A B us ud ss sd pat Hprocs HA HB Hpat g Hg) as (calls & E & _).
    exists calls. split; [done|]. by apply (calls_distinct procs A B us ud ss sd pat) in E.
  - by apply (sends_received procs A B us ud ss sd pat).
  - by apply (receives_sent procs A B us ud ss sd pat).
Qed.

(** C7: the data gets everywhere: when the shardings are well formed, of one array, and
    fit, a point of the tile of a target shard is in
    exactly one receive that the shard's processor plans, and it comes from a
    source shard whose tile holds it, directly or over target shards that have
    received it. *)
Theorem reshard_delivers (j : Z) (rect : RealmShape) (pt : list Z)
    (Hj : 0 <= j < num_devices_ (devices (ss_sharding sd)))
    (Hrect : ComputeTileBounds j (ss_sharding sd) = Ret rect) (Hpt : contains rect pt) :
  delivered procs A B us ud (ss_sharding ss) (ss_sharding sd) pt j /\
  exists shape k,
    asks procs A B (start_ (devices (ss_sharding sd)) + j) (CallRecv shape k) /\ contains shape pt /\
    forall shape' k', asks procs A B (start_ (devices (ss_sharding sd)) + j) (CallRecv shape' k') ->
      contains shape' pt -> shape' = shape /\ k' = k.
Proof.
  destruct (fits_moves ss sd Hsrc Hdst Hrs Hrd Hsame Hfits) as [pat Hpat].
  rewrite ComputeTileBounds_shard in Hrect by done. injection Hrect as <-. split.
  - by apply (tile_delivered procs A B us ud ss sd pat).
  - by apply (received_once procs A B us ud ss sd pat).
Qed.
End Properties.

(** Views of an array with the tiles of its shards. *)
Definition view_of (u : Z) (shape : ShardedShape) (p : Processor) : ShardedArray :=
  let o := shard_in p (devices (ss_sharding shape)) in
  mkArray u shape (default (-1) o) p None
    ((fun i => mkTile (Some 0%nat) (tile_shape_of shape i) INT32) <$> o).

Lemma view_of_placed `{!RealmLimits} procs u shape :
  wf (ss_sharding shape) -> rank_supported (ss_sharding shape) ->
  placed procs u shape (fun g => view_of u shape (procs g)).
Proof.
  intros Hwf Hr g _. unfold local_array, view_of. cbn. split; [done|]. split; [done|].
  destruct (shard_in (procs g) _) as [i|] eqn:Hi; [|done]. apply shard_in_range in Hi.
  split; [done|]. eexists. split; [done|]. by apply ComputeTileBounds_shard.
Qed.

Definition gpu (g : Z) : Processor := mkProc GPU 0 g g.

(** A 4 x 2 tiling in two copies from the 2 x 2 tiling of [example_coarse]. *)
Lemma plans_match_witness :
  let _ : RealmLimits := 3 in
  let ss := mkShape F32 example_coarse in
  let sd := mkShape F32 example_fine in
  let k := mkKey (mkUniqueId 7 (devices example_coarse)) (mkUniqueId 0 (devices example_fine)) 5 13 in
  asks gpu (fun g => view_of 7 ss (gpu g)) (fun g => view_of 0 sd (gpu g)) 21
    (CallRecv (mkRect [6; 0] [7; 2]) k).
Proof.
  intros L ss sd k.
  assert (Hs : wf example_coarse) by by apply (bool_decide_unpack _).
  assert (Hd : wf example_fine) by by apply (bool_decide_unpack _).
  assert (Hrs : rank_supported example_coarse) by by apply (bool_decide_unpack _).
  assert (Hrd : rank_supported example_fine) by by apply (bool_decide_unpack _).
  destruct (plans_match gpu (fun g => view_of 7 ss (gpu g)) (fun g => view_of 0 sd (gpu g)) 7 0 ss sd)
    as (_ & H & _); [done..|done| |by apply view_of_placed|by apply view_of_placed|].
  { apply (fits_one_dim _ _ 0 2); [done|done|by apply (bool_decide_unpack _)]. }
  destruct (H 5 (mkRect [6; 0] [7; 2]) k) as [_ Hr]; [|exact Hr].
  split; [done|]. eexists. split; [vm_compute; reflexivity|]. cbn.
  repeat first [by left|right].
Defined.

(** A broadcast from two devices to sixteen. *)
Definition example_copies (start n : Z) : Sharding :=
  mkSharding [mkDim 4 1 0; mkDim 1 n 1] (mkDeviceList start n).

Lemma example_copies_fits : let _ : RealmLimits := 3 in fits (example_copies 0 2) (example_copies 2 16).
Proof.
  apply fits_broadcast; try done.
  - unfold source_shard, group_root. cbn. change (leaves_per_root _ _) with 8. lia.
  - intros g Hg Hlt. change (g * 8 < 16) in Hlt.
    assert (g = 0 \/ g = 1) as [-> | ->] by lia; apply (full_tree_pow2 3); lia.
Qed.

Lemma reshard_delivers_witness :
  let _ : RealmLimits := 3 in
  let ss := mkShape F32 (example_copies 0 2) in
  let sd := mkShape F32 (example_copies 2 16) in
  delivered gpu (fun g => view_of 7 ss (gpu g)) (fun g => view_of 0 sd (gpu g)) 7 0
    (example_copies 0 2) (example_copies 2 16) [3] 15.
Proof.
  intros L ss sd.
  assert (Hs : wf (example_copies 0 2)) by by apply (bool_decide_unpack _).
  assert (Hd : wf (example_copies 2 16)) by by apply (bool_decide_unpack _).
  assert (Hrs : rank_supported (example_copies 0 2)) by by apply (bool_decide_unpack _).
  assert (Hrd : rank_supported (example_copies 2 16)) by by apply (bool_decide_unpack _).
  destruct (reshard_delivers gpu (fun g => view_of 7 ss (gpu g)) (fun g => view_of 0 sd (gpu g)) 7 0 ss sd
    (fun _ => eq_refl) Hs Hd Hrs Hrd eq_refl example_copies_fits
    (view_of_placed _ _ ss Hs Hrs) (view_of_placed _ _ sd Hd Hrd) 15 (mkRect [0] [3]) [3]) as [H _].
  - done.
  - reflexivity.
  - by apply (bool_decide_unpack _).
  - exact H.
Defined.
