(* ===== verification/PlanCompletes.v ===== *)
(** The plans and the managers together.  When the processors make the calls of
    their plans, in any interleaving, and the messages of the managers have been
    delivered, the copy of every planned receive was issued: from the tile of
    the planned send, on the planned shape. *)
From stdpp Require Import base tactics list list_numbers numbers option strings sets gmap.
From Stdlib Require Import ZArith Lia.
From S2P Require Import Prelude Events Mesh Shape Processor TileIndex Tiles ScatterGather Broadcast.
From S2P Require Import ReshardConfig Handles Arrays ReshardManager Rendezvous Pairing Matching Reshard.
From S2P Require Import ReshardPlan ReshardFollows PlanPattern PlanMatch.
Open Scope Z_scope.

(** ** The calls for a reshard in a schedule *)
Section Calls.
Context `{RealmMemory} (cells : nat -> option nat).

Definition source_steps (k : ReshardKey) (l : list Step) : list SourceCall :=
  omap (fun st => match st with
                  | DoSource c => if bool_decide (s_key c = k) then Some c else None
                  | _ => None
                  end) l.
Definition target_steps (k : ReshardKey) (l : list Step) : list TargetCall :=
  omap (fun st => match st with
                  | DoTarget c => if bool_decide (t_key c = k) then Some c else None
                  | _ => None
                  end) l.

Lemma elem_of_source_calls k l c : c ∈ source_steps k l <-> DoSource c ∈ l /\ s_key c = k.
Proof.
  unfold source_steps. rewrite list_elem_of_omap. split.
  - intros ([c'|c'|k' n] & Hin & E); try done. case_bool_decide; [|done]. by injection E as <-.
  - intros [Hin <-]. exists (DoSource c). by rewrite bool_decide_true.
Qed.

Lemma elem_of_target_calls k l c : c ∈ target_steps k l <-> DoTarget c ∈ l /\ t_key c = k.
Proof.
  unfold target_steps. rewrite list_elem_of_omap. split.
  - intros ([c'|c'|k' n] & Hin & E); try done. case_bool_decide; [|done]. by injection E as <-.
  - intros [Hin <-]. exists (DoTarget c). by rewrite bool_decide_true.
Qed.
End Calls.

(** A selection of the steps of a log that finds one step. *)
Section Selected.
Context `{HE : RealmEvents} {St X E : Type} (sel : St -> option X) (mk : X -> @Event HE -> E).

Definition pick (x : St * @Event HE) : option E := (fun a => mk a x.2) <$> sel x.1.

Lemma pick_none log : omap sel log.*1 = [] -> omap pick log = [].
Proof.
  induction log as [|[st e] log IH]; [done|]. cbn. unfold pick at 1. cbn.
  destruct (sel st); [done|]. apply IH.
Qed.

Lemma pick_one log a : omap sel log.*1 = [a] ->
  exists st e, (st, e) ∈ log /\ sel st = Some a /\ omap pick log = [mk a e].
Proof.
  induction log as [|[st e] log IH]; [done|]. cbn. unfold pick at 1. cbn.
  destruct (sel st) as [x|] eqn:Hx; cbn.
  - intros [= -> Hl]. exists st, e. rewrite (pick_none _ Hl). split_and!; [by left|done|done].
  - intros Hl. destruct (IH Hl) as (st' & e' & Hin & Hs & Hp). exists st', e'.
    split_and!; [by right|done|done].
Qed.
End Selected.

Section Ends.
Context `{RealmMemory} (cells : nat -> option nat) (h : list ShardedArray).

Lemma one_send k log c : source_steps k log.*1 = [c] ->
  exists e, (DoSource c, e) ∈ log /\ sends cells h k log = [source_end cells h c e].
Proof.
  intros Hc. destruct (pick_one _ (source_end cells h) log c Hc) as (st & e & Hin & Hs & Hp).
  exists e. split; [destruct st; try done; case_bool_decide; [by injection Hs as ->|done]|].
  rewrite <- Hp. clear. induction log as [|[[] e] log IH]; [done|..]; cbn; unfold pick at 1; cbn;
    try case_bool_decide; first [exact IH|cbn; f_equal; exact IH].
Qed.

Lemma one_receive k log c : target_steps k log.*1 = [c] ->
  exists e, (DoTarget c, e) ∈ log /\ receives h k log = [target_end h c e].
Proof.
  intros Hc. destruct (pick_one _ (target_end h) log c Hc) as (st & e & Hin & Hs & Hp).
  exists e. split; [destruct st; try done; case_bool_decide; [by injection Hs as ->|done]|].
  rewrite <- Hp. clear. induction log as [|[[] e] log IH]; [done|..]; cbn; unfold pick at 1; cbn;
    try case_bool_decide; first [exact IH|cbn; f_equal; exact IH].
Qed.
End Ends.

(** ** A schedule that carries out the plans *)
Section Completes.
Context `{RealmMemory} `{!RealmOps} `{!RealmMachine} `{!RealmLimits} (machine : ProcState).
Context (cells : nat -> option nat) (place : ReshardKey -> Placement).
Context (procs : Z -> Processor) (A B : Z -> ShardedArray).

Abbreviation State := (Comm * World)%type.

(** Every planned call is made once, with the tile of its processor. *)
Definition carried_out (h : list ShardedArray) (l : list Step) : Prop :=
  forall g calls c, 0 <= g <= i64_max -> plan (procs g) (A g) (B g) = Ret calls -> c ∈ calls ->
    let sent (X : ShardedArray) := exists s, source_steps (call_key c) l = [s] /\
      s_shape s = call_shape c /\ array_tile h (view_object cells (s_src s)) = array_ X in
    match call_role c with
    | FromSource => sent (A g)
    | Forward => sent (B g)
    | ToTarget => exists t, target_steps (call_key c) l = [t] /\
        t_shape t = call_shape c /\ array_tile h (store_value (t_dst t)) = array_ (B g)
    end.

(** A copy was issued from the tile of [X] to the tile of [Y]. *)
Definition copy_issued (s : State) (shape : RealmShape) (X Y : ShardedArray) (n : nat) : Prop :=
  exists size pre, w_copies s.2 !! n =
    Some (mkCopy _ shape size (tile_instance (array_ X)) (tile_instance (array_ Y)) pre).

(** The copies bring the point to the tile of a target shard. *)
Inductive arrived (src dst : Sharding) (s : State) (pt : list Z) : Z -> Prop :=
| arrived_source i j shape rect n :
    copy_issued s shape (A (start_ (devices src) + i)) (B (start_ (devices dst) + j)) n ->
    contains shape pt -> ComputeTileBounds i src = Ret rect -> contains rect pt ->
    arrived src dst s pt j
| arrived_relay i j shape n :
    copy_issued s shape (B (start_ (devices dst) + i)) (B (start_ (devices dst) + j)) n ->
    contains shape pt -> arrived src dst s pt i -> arrived src dst s pt j.

Context (us ud : Z) (ss sd : ShardedShape) (pat : Pattern).
Let src := ss_sharding ss.
Let dst := ss_sharding sd.
Context (Hprocs : forall g, global_id_ (procs g) = g).
Context (Hsrc : ShardingOps.wf src) (Hdst : ShardingOps.wf dst).
Context (Hrs : rank_supported src) (Hrd : rank_supported dst).
Context (HA : placed procs us ss A) (HB : placed procs ud sd B) (Hpat : moves ss sd pat).

Let key := hop_key (mkUniqueId us (devices src)) (mkUniqueId ud (devices dst)).

(** The entries of the pattern are planned. *)
Lemma planned_part g c : 0 <= g <= i64_max ->
  c ∈ pattern_calls (mkUniqueId us (devices src)) (mkUniqueId ud (devices dst)) pat
      (shard_in (procs g) (devices src)) (shard_in (procs g) (devices dst)) ->
  exists calls, plan (procs g) (A g) (B g) = Ret calls /\ c ∈ calls.
Proof.
  intros Hg Hc. destruct (plan_at procs A B us ud ss sd pat Hprocs HA HB Hpat g Hg) as (calls & E & Hp).
  exists calls. split; [done|]. by rewrite Hp.
Qed.

Lemma planned_out i j s : source_shard src i -> (j, s) ∈ outs pat i ->
  exists calls, plan (procs (start_ (devices src) + i)) (A (start_ (devices src) + i))
    (B (start_ (devices src) + i)) = Ret calls /\ mkCall FromSource s (key Direct i j) ∈ calls.
Proof.
  intros Hi Hx. apply planned_part; [by apply in_range_i64|].
  rewrite (proj2 (shard_at procs Hprocs (devices src) _ i)) by done.
  unfold pattern_calls. rewrite elem_of_app. left.
  by apply (list_elem_of_fmap_2 (send_call _ _ Direct i) _ (j, s)).
Qed.

Lemma planned_relay i j s : target_shard dst i -> (j, s) ∈ relays pat i ->
  exists calls, plan (procs (start_ (devices dst) + i)) (A (start_ (devices dst) + i))
    (B (start_ (devices dst) + i)) = Ret calls /\ mkCall Forward s (key Relay i j) ∈ calls.
Proof.
  intros Hi Hx. apply planned_part; [by apply in_range_i64|].
  rewrite (proj2 (shard_at procs Hprocs (devices dst) _ i)) by done.
  unfold pattern_calls. rewrite elem_of_app. right. cbn. rewrite elem_of_app. right.
  by apply (list_elem_of_fmap_2 (send_call _ _ Relay i) _ (j, s)).
Qed.

Lemma planned_in h i j s : target_shard dst j -> (h, i, s) ∈ ins pat j ->
  exists calls, plan (procs (start_ (devices dst) + j)) (A (start_ (devices dst) + j))
    (B (start_ (devices dst) + j)) = Ret calls /\ mkCall ToTarget s (key h i j) ∈ calls.
Proof.
  intros Hj Hx. apply planned_part; [by apply in_range_i64|].
  rewrite (proj2 (shard_at procs Hprocs (devices dst) _ j)) by done.
  unfold pattern_calls. rewrite elem_of_app. right. cbn. rewrite elem_of_app. left.
  by apply (list_elem_of_fmap_2 (recv_call _ _ j) _ (h, i, s)).
Qed.

Definition hop_array (h : Hop) (i : Z) : ShardedArray :=
  match h with Direct => A (start_ (devices src) + i) | Relay => B (start_ (devices dst) + i) end.

(** The send of a receive is carried out. *)
Lemma send_carried_out heap schedule h i j s : carried_out heap schedule ->
  target_shard dst j -> (h, i, s) ∈ ins pat j ->
  exists c, source_steps (key h i j) schedule = [c] /\ s_shape c = s /\
    array_tile heap (view_object cells (s_src c)) = array_ (hop_array h i).
Proof.
  destruct Hpat as [Hag _]. fold src dst in Hag. intros Hco Hj Hx. destruct h; cbn [hop_array].
  - apply (ins_direct _ _ _ Hag) in Hx as [Hi Hx]; [|done].
    destruct (planned_out i j s Hi Hx) as (calls & E & Hc).
    exact (Hco _ _ _ (in_range_i64 src i Hsrc Hi) E Hc).
  - apply (ins_relay _ _ _ Hag) in Hx as [Hi Hx]; [|done].
    destruct (planned_relay i j s Hi Hx) as (calls & E & Hc).
    exact (Hco _ _ _ (in_range_i64 dst i Hdst Hi) E Hc).
Qed.

(** The copy of a receive. *)
Lemma receive_copied s0 schedule log s h i j shape :
  quiet s0 -> Forall (valid_step machine cells place (w_heap s0.2)) schedule ->
  carried_out (w_heap s0.2) schedule ->
  run machine cells schedule s0 = (Ret log, s) -> c_messages s.1 = [] ->
  target_shard dst j -> (h, i, shape) ∈ ins pat j ->
  exists t e n, target_steps (key h i j) schedule = [t] /\ (DoTarget t, e) ∈ log /\
    copy_issued s shape (hop_array h i) (B (start_ (devices dst) + j)) n /\ leads s e (copy_event n).
Proof.
  intros Hq Hv Hco E Hm Hj Hx.
  destruct (run_ok machine cells place (w_heap s0.2) schedule (fun _ => no_ghost) (no_owners (w_copies s0.2)) s0)
    as (log' & s' & G & o & E' & Hlog & I & Hg); [by apply quiet_Inv|done|].
  rewrite E in E'. injection E' as <- <-. destruct (Hg (key h i j)) as [Hs Ht]. cbn in Hs, Ht.
  destruct (send_carried_out _ _ h i j shape Hco Hj Hx) as (c & Hc & Hcs & Hct).
  destruct (planned_in h i j shape Hj Hx) as (calls & Ep & Hin).
  destruct (Hco _ _ _ (in_range_i64 dst j Hdst Hj) Ep Hin) as (t & Htc & Hts & Htt). cbn in Htc, Hts.
  rewrite <- Hlog in Hc, Htc.
  destruct (one_send cells (w_heap s0.2) _ log c Hc) as (es & _ & Es).
  destruct (one_receive (w_heap s0.2) _ log t Htc) as (et & Hte & Et).
  destruct (settled cells place (w_heap s0.2) G o s I (key h i j) 0 (source_end cells (w_heap s0.2) c es)
    (target_end (w_heap s0.2) t et)) as (n & (pre & Hn) & _ & Hl).
  - rewrite Hm. by intros m ?%not_elem_of_nil.
  - by rewrite Hs, Es.
  - by rewrite Ht, Et.
  - exists t, et, n. rewrite <- Hlog. split_and!; [done|done| |done].
    exists (pl_size (place (key h i j))), pre. rewrite Hn. cbn [source_end target_end e_inst].
    rewrite Hct, Htt. do 2 f_equal.
    assert (Hin' : t ∈ target_steps (key h i j) log.*1) by (rewrite Htc; by left).
    apply elem_of_target_calls in Hin' as [Hin' Hk]. rewrite Hlog in Hin'.
    rewrite Forall_forall in Hv. destruct (Hv _ Hin') as (? & ? & ? & ? & ? & _ & _ & _ & _ & _ & _ & Hp).
    by rewrite Hk in Hp; rewrite Hp.
Qed.

Lemma tile_arrived s pt :
  (forall h i j shape, target_shard dst j -> (h, i, shape) ∈ ins pat j ->
     exists n, copy_issued s shape (hop_array h i) (B (start_ (devices dst) + j)) n) ->
  forall j, target_shard dst j -> contains (shard_rect dst j) pt -> arrived src dst s pt j.
Proof.
  intros Hcp. pose proof (proj1 Hpat) as Hag. fold src dst in Hag. apply (agrees_ind src dst pat Hag).
  - intros i j shape Hi Hj Hx Hc Ht. destruct (Hcp _ _ _ _ Hj Hx) as [n Hn].
    eapply arrived_source; [exact Hn|done| |exact Ht]. by apply ComputeTileBounds_shard.
  - intros i j shape Hi Hj Hx Hc HP. destruct (Hcp _ _ _ _ Hj Hx) as [n Hn].
    by eapply arrived_relay.
Qed.
End Completes.

(** ** Properties *)

(** C2: resharding completes, over all processors and processes: when the
    shardings fit and the processors make the calls of their plans, once each
    and with the tiles of their arrays, in any interleaving with each other and
    with the deliveries of the managers' messages, every call returns; and once
    no message is in flight, every planned receive has its copy, with which the
    event returned to it triggers, and the issued copies bring every point of
    the array to every target shard whose tile holds it. *)
Theorem reshard_completes `{RealmMemory} `{!RealmOps} `{!RealmMachine} `{!RealmLimits}
    (machine : ProcState) (cells : nat -> option nat) (place : ReshardKey -> Placement)
    (procs : Z -> Processor) (A B : Z -> ShardedArray) (us ud : Z) (ss sd : ShardedShape)
    (s0 : Comm * World) (schedule : list Step)
    (Hprocs : forall g, global_id_ (procs g) = g)
    (Hsrc : ShardingOps.wf (ss_sharding ss)) (Hdst : ShardingOps.wf (ss_sharding sd))
    (Hrs : rank_supported (ss_sharding ss)) (Hrd : rank_supported (ss_sharding sd))
    (Hsame : array_rect (ss_sharding ss) = array_rect (ss_sharding sd))
    (Hfits : fits (ss_sharding ss) (ss_sharding sd))
    (HA : placed procs us ss A) (HB : placed procs ud sd B) (Hquiet : quiet s0)
    (Hvalid : Forall (valid_step machine cells place (w_heap s0.2)) schedule)
    (Hcarried : carried_out cells procs A B (w_heap s0.2) schedule) :
  exists log s, run machine cells schedule s0 = (Ret log, s) /\ log.*1 = schedule /\
    (c_messages s.1 = [] ->
     (forall g shape k, asks procs A B g (CallRecv shape k) ->
        exists t e n X, target_steps k schedule = [t] /\ (DoTarget t, e) ∈ log /\
          copy_issued s shape X (B g) n /\ leads s e (copy_event n)) /\
     (forall j rect pt, 0 <= j < num_devices_ (devices (ss_sharding sd)) ->
        ComputeTileBounds j (ss_sharding sd) = Ret rect -> contains rect pt ->
        arrived A B (ss_sharding ss) (ss_sharding sd) s pt j)).
Proof.
  destruct (fits_moves ss sd Hsrc Hdst Hrs Hrd Hsame Hfits) as [pat Hpat].
  destruct (run_ok machine cells place (w_heap s0.2) schedule (fun _ => no_ghost) (no_owners (w_copies s0.2)) s0)
    as (log & s & _ & _ & E & Hlog & _); [by apply quiet_Inv|done|].
  exists log, s. split; [done|]. split; [done|]. intros Hm. split.
  - intros g shape k Hk. apply (asks_recv procs A B us ud ss sd pat) in Hk; try done.
    destruct Hk as (h & i & j & -> & Hj & Hx & ->).
    destruct (receive_copied machine cells place procs A B us ud ss sd pat Hprocs Hsrc Hdst HA HB Hpat
      s0 schedule log s h i j shape Hquiet Hvalid Hcarried E Hm Hj Hx) as (t & e & n & ? & ? & ? & ?).
    by exists t, e, n, (hop_array A B ss sd h i).
  - intros j rect pt Hj Hrect Hpt. rewrite ComputeTileBounds_shard in Hrect by done. injection Hrect as <-.
    apply (tile_arrived A B ss sd pat); try done. intros h i j' shape Hj' Hx.
    destruct (receive_copied machine cells place procs A B us ud ss sd pat Hprocs Hsrc Hdst HA HB Hpat
      s0 schedule log s h i j' shape Hquiet Hvalid Hcarried E Hm Hj' Hx) as (_ & _ & n & _ & _ & ? & _).
    by exists n.
Qed.

(** ** Broadcasts with more roots than trees

    A source shard whose tree would start behind the last target shard gets an
    empty configuration, and the processor that holds it dereferences it. *)

(** A processor with an extra source shard of a broadcast gets an empty
    configuration; whatever else it holds, sending its tile dereferences the
    missing source half, and so does its target shard, if it has one, with the
    missing target half.  There are such shards when the rounded-up number of
    targets per source does not need all the sources. *)
Theorem broadcast_extra_source_undefined `{RealmMemory} `{!RealmLimits} (C : Type) (M : Manager C)
    (cells : nat -> option nat) (p : Processor) (src dst : Sharding) (i : Z) (sj : option Z)
    (a : ShardedArray) (f : Frame)
    (Hok : broadcast_ok src dst) (Hi : 0 <= i < num_devices_ (devices src))
    (Hsj : forall j, sj = Some j -> 0 <= j < num_devices_ (devices dst))
    (Hextra : num_devices_ (devices dst) <= group_root src dst i) :
  exists c, GetBroadcastConfig (Some i) sj src dst = Ret c /\
    ReshardBroadcastFromLocalSource cells p c a f = (Undef NullOptional, f) /\
    ReshardBroadcastToLocalTarget p c a f = (Undef NullOptional, f).
Proof.
  rewrite (GetBroadcastConfig_ok src dst Hok) by (auto || by intros ? [= <-]).
  unfold source_of. rewrite (proj2 (Z.ltb_ge _ _)) by done. eexists. by split_and!.
Qed.

(** ** A concrete reshard between two processes *)
#[local] Existing Instance Matching.example_machine.
#[local] Existing Instance Matching.example_memory.
#[local] Instance three_dims : RealmLimits := 3.

Definition cpu (g : Z) : Processor := mkProc CPU 0 g g.
Definition one_device (d : Z) : Sharding := mkSharding [mkDim 4 1 0] (mkDeviceList d 1).

(** The array with id [d] on the device [d], as processor [g] sees it. *)
Definition example_side (d : Z) (inst : nat) (g : Z) : ShardedArray :=
  example_array d (if decide (g = d) then Some inst else None).

Lemma example_sides_placed d inst : d = 0 \/ d = 1 ->
  placed cpu d (mkShape F32 (one_device d)) (example_side d inst).
Proof.
  intros Hd g _. unfold example_side, local_array, shard_in. split; [done|]. split; [done|]. cbn.
  case_decide as Hg; case_decide; try lia; [|done]. subst g.
  rewrite Z.sub_diag. split; [done|]. eexists. split; [done|]. by destruct Hd as [-> | ->].
Qed.

Lemma example_plan g : 0 <= g <= i64_max ->
  plan (cpu g) (example_side 0 10 g) (example_side 1 20 g) =
  Ret (if decide (g = 0) then [mkCall FromSource example_rect example_key]
       else if decide (g = 1) then [mkCall ToTarget example_rect example_key] else []).
Proof.
  intros Hg. destruct (decide (g = 0)) as [->|H0]; [reflexivity|].
  destruct (decide (g = 1)) as [->|H1]; [reflexivity|]. unfold plan.
  change (sa_sharding (example_side 0 10 g)) with (one_device 0).
  change (sa_sharding (example_side 1 20 g)) with (one_device 1).
  assert (Hwf : forall d, d = 0 \/ d = 1 -> ShardingOps.wf (one_device d))
    by (intros d [-> | ->]; by apply (bool_decide_unpack _)).
  rewrite DetermineShardingConfig_cases by auto. rewrite bool_decide_eq_true_2 by done.
  rewrite GetGatherShardsConfig_ok;
    [|by auto|by auto|by apply (bool_decide_unpack _)|unfold i64; cbn; lia].
  cbn [mbind outcome_bind mret outcome_ret]. unfold plan_gather, example_side.
  by rewrite !decide_False.
Qed.

Definition example_schedule : list Step :=
  [example_receive 1; example_send 0; Deliver example_key true; Deliver example_key false].

Lemma example_carried_out :
  carried_out (fun _ => None) cpu (example_side 0 10) (example_side 1 20) (w_heap example_state.2)
    example_schedule.
Proof.
  intros g calls c Hg E Hc. rewrite example_plan in E by done. injection E as <-.
  destruct (decide (g = 0)) as [->|H0]; [apply list_elem_of_singleton in Hc as ->|].
  { eexists. by split_and!. }
  destruct (decide (g = 1)) as [->|H1]; [apply list_elem_of_singleton in Hc as ->|].
  { eexists. by split_and!. }
  by apply not_elem_of_nil in Hc.
Qed.

Lemma reshard_completes_witness :
  exists log s, run example_procs (fun _ => None) example_schedule example_state = (Ret log, s) /\
    arrived (example_side 0 10) (example_side 1 20) (one_device 0) (one_device 1) s [3] 0.
Proof.
  assert (Hwf : forall d, d = 0 \/ d = 1 -> ShardingOps.wf (one_device d))
    by (intros d [-> | ->]; by apply (bool_decide_unpack _)).
  assert (Hrank : forall d, rank_supported (one_device d)) by (intros d; left; by apply Nat.leb_le).
  destruct (reshard_completes example_procs (fun _ => None) example_place cpu (example_side 0 10)
    (example_side 1 20) 0 1 (mkShape F32 (one_device 0)) (mkShape F32 (one_device 1)) example_state
    example_schedule (fun _ => eq_refl) (Hwf 0 (or_introl eq_refl)) (Hwf 1 (or_intror eq_refl)) (Hrank 0) (Hrank 1)
    eq_refl (fits_gather (one_device 0) (one_device 1) eq_refl eq_refl) (example_sides_placed 0 10 (or_introl eq_refl))
    (example_sides_placed 1 20 (or_intror eq_refl)))
    as (log & s & E & _ & Hall).
  - split_and!; [done|done| |]; cbn; intros; by eapply not_elem_of_nil in H.
  - repeat constructor.
    + exists 1%nat. do 4 eexists. split_and!; reflexivity || (by eexists).
    + exists 0%nat. do 4 eexists. split_and!; reflexivity || (by eexists).
  - exact example_carried_out.
  - exists log, s. split; [exact E|]. destruct Hall as [_ Harr].
    + vm_compute in E. by injection E as <- <-.
    + apply (Harr 0 (mkRect [0] [3]) [3]); [done|reflexivity|by apply (bool_decide_unpack _)].
Defined.

(** Five copies to six: the fourth source shard has no root to send to. *)
Lemma broadcast_extra_source_undefined_witness :
  exists c, GetBroadcastConfig (Some 3) (Some 3) (example_copies 0 5) (example_copies 0 6) = Ret c /\
    ReshardBroadcastFromLocalSource (Manager0 := example_manager) (fun _ => None) (cpu 3) c
      (example_array 0 None) (mkFrame (View_new None None VNull) (Store_Create 0%nat) example_state) =
    (Undef NullOptional, mkFrame (View_new None None VNull) (Store_Create 0%nat) example_state).
Proof.
  destruct (broadcast_extra_source_undefined Comm example_manager (fun _ => None) (cpu 3)
    (example_copies 0 5) (example_copies 0 6) 3 (Some 3) (example_array 0 None)
    (mkFrame (View_new None None VNull) (Store_Create 0%nat) example_state)) as (c & E & Hs & _).
  - split; [by apply (bool_decide_unpack _)|cbn; lia].
  - cbn; lia.
  - intros j [= <-]. cbn; lia.
  - by apply Z.leb_le.
  - by exists c.
Defined.
