(* ===== verification/Contents.v ===== *)
(** What a reshard does to the contents of memory.  Realm performs the issued
    copies in some order in which every copy comes after the event it waits for;
    whatever that order is, when the receives of a target shard are over its tile
    holds the array ([contents_delivered]). *)
From stdpp Require Import base tactics list list_numbers numbers option strings sets gmap.
From Stdlib Require Import ZArith Lia.
From S2P Require Import Prelude Events Mesh Shape Processor TileIndex Tiles ScatterGather Broadcast.
From S2P Require Import ReshardConfig Handles Arrays ReshardManager Rendezvous Pairing Matching Reshard.
From S2P Require Import ReshardPlan ReshardFollows PlanPattern PlanMatch PlanCompletes.
Open Scope Z_scope.

(** ** Memory

    The contents of an instance at the points of the array; a copy writes the points
    of its shape. *)
Section Memory.
Context `{RealmEvents} {X : Type}.

Definition Memory : Type := Instance_ -> list Z -> X.

Definition perform (c : Copy) (m : Memory) : Memory := fun inst pt =>
  if decide (inst = cp_dst c /\ contains (cp_shape c) pt) then m (cp_src c) pt else m inst pt.

Definition perform_nth (copies : list Copy) (m : Memory) (n : nat) : Memory :=
  match copies !! n with Some c => perform c m | None => m end.

(** The copies that were issued, performed in the order of their numbers in [order]. *)
Definition perform_all (copies : list Copy) (order : list nat) (m : Memory) : Memory :=
  foldl (perform_nth copies) m order.

Lemma perform_all_snoc copies order n m :
  perform_all copies (order ++ [n]) m = perform_nth copies (perform_all copies order m) n.
Proof. unfold perform_all. by rewrite foldl_app. Qed.

Lemma perform_other c m inst pt : cp_dst c <> inst -> perform c m inst pt = m inst pt.
Proof. intros Hne. unfold perform. rewrite decide_False; [done|]. naive_solver. Qed.

(** The tiles hold the array [value]. *)
Definition tile_holds (T : Z -> ShardedArray) (sh : Sharding) (value : list Z -> X) (m : Memory)
    `{!RealmLimits} (i : Z) : Prop :=
  forall rect pt, ComputeTileBounds i sh = Ret rect -> contains rect pt ->
    m (tile_instance (array_ (T (start_ (devices sh) + i)))) pt = value pt.
End Memory.

Section Orders.
Context `{RealmMemory} `{!RealmOps} `{!RealmMachine} `{!RealmLimits}.

Abbreviation State := (Comm * World)%type.

(** When the copies [done] have been performed, the copy [n] may be: there is a moment at
    which no other copy is over and the event the copy waits for has triggered. *)
Definition may_run (s : State) (done : list nat) (n : nat) : Prop :=
  exists c fired, w_copies s.2 !! n = Some c /\ Moment fired /\ possible_state fired s /\
    (forall i, fired (copy_event i) -> i ∈ done) /\ fired (cp_pre c).

Definition respects (s : State) (order : list nat) : Prop :=
  forall k n, order !! k = Some n -> may_run s (take k order) n.

Lemma respects_snoc s order n : respects s (order ++ [n]) -> respects s order /\ may_run s order n.
Proof.
  intros Ho. split.
  - intros k m Hk. specialize (Ho k m (lookup_app_l_Some _ _ _ _ Hk)).
    rewrite take_app_le in Ho; [done|]. apply lookup_lt_Some in Hk. lia.
  - specialize (Ho (length order) n). rewrite take_app_length in Ho. apply Ho.
    by rewrite list_lookup_middle.
Qed.

Context (procs : Z -> Processor) (A B : Z -> ShardedArray) (src dst : Sharding).

(** Only the receives of the reshard write the tiles of the target, and nothing writes
    those of the source. *)
Record separate (h : list ShardedArray) (older : list Copy) (schedule : list Step) : Prop := {
  sep_older_source c i : c ∈ older -> 0 <= i < num_devices_ (devices src) ->
    cp_dst c <> tile_instance (array_ (A (start_ (devices src) + i)));
  sep_older_target c j : c ∈ older -> 0 <= j < num_devices_ (devices dst) ->
    cp_dst c <> tile_instance (array_ (B (start_ (devices dst) + j)));
  sep_source t i : DoTarget t ∈ schedule -> 0 <= i < num_devices_ (devices src) ->
    tile_instance (array_tile h (store_value (t_dst t))) <>
    tile_instance (array_ (A (start_ (devices src) + i)));
  sep_target t j : DoTarget t ∈ schedule -> 0 <= j < num_devices_ (devices dst) ->
    tile_instance (array_tile h (store_value (t_dst t))) =
    tile_instance (array_ (B (start_ (devices dst) + j))) ->
    exists shape, asks procs A B (start_ (devices dst) + j) (CallRecv shape (t_key t));
}.

(** A forward waits for the receives of its processor. *)
Definition forwards_wait (log : list (Step * Event)) : Prop :=
  forall g calls c r x t e, 0 <= g <= i64_max -> plan (procs g) (A g) (B g) = Ret calls ->
    c ∈ calls -> call_role c = Forward -> r ∈ calls -> receives_data r ->
    DoSource x ∈ log.*1 -> s_key x = call_key c ->
    (DoTarget t, e) ∈ log -> t_key t = call_key r ->
    forall fired, Moment fired -> fired (View_Precondition (s_src x)) -> fired e.

(** The receives of a target shard are over. *)
Definition received (log : list (Step * Event)) (fired : Event -> Prop) (j : Z) : Prop :=
  forall shape t e, asks procs A B (start_ (devices dst) + j) (CallRecv shape (t_key t)) ->
    (DoTarget t, e) ∈ log -> fired e.
End Orders.

(** ** The copies of a schedule *)
Section Filled.
Context `{RealmMemory} `{!RealmOps} `{!RealmMachine} `{!RealmLimits} (machine : ProcState).
Context (cells : nat -> option nat) (place : ReshardKey -> Placement).
Context (procs : Z -> Processor) (A B : Z -> ShardedArray).
Context (us ud : Z) (ss sd : ShardedShape) (pat : Pattern).
Let src := ss_sharding ss.
Let dst := ss_sharding sd.
Context (Hprocs : forall g, global_id_ (procs g) = g).
Context (Hsrc : ShardingOps.wf src) (Hdst : ShardingOps.wf dst).
Context (Hrs : rank_supported src) (Hrd : rank_supported dst).
Context (HA : placed procs us ss A) (HB : placed procs ud sd B) (Hpat : moves ss sd pat).
Context (s0 s : (Comm * World)%type) (log : list (Step * Event)).
Let h := w_heap s0.2.
Context (G : ReshardKey -> KeyGhost) (o : Owners (w_copies s0.2)) (I : Inv place h G o s).
Context (Hg : forall k, all_s (G k) = sends cells h k log /\ all_t (G k) = receives h k log).
Context (Hv : Forall (valid_step machine cells place h) log.*1).
Context (Hco : carried_out cells procs A B h log.*1).
Context (Hsep : separate procs A B src dst h (w_copies s0.2) log.*1).

Let key := hop_key (mkUniqueId us (devices src)) (mkUniqueId ud (devices dst)).
Let A_inst i := tile_instance (array_ (A (start_ (devices src) + i))).
Let B_inst j := tile_instance (array_ (B (start_ (devices dst) + j))).

Lemma elem_of_receives k t : t ∈ receives h k log ->
  exists c e, (DoTarget c, e) ∈ log /\ t_key c = k /\ t = target_end h c e.
Proof.
  unfold receives. rewrite list_elem_of_omap. intros ([[] e] & Hin & E); try done.
  case_bool_decide; [|done]. injection E as <-. eauto.
Qed.

Lemma receives_elem c e : (DoTarget c, e) ∈ log -> target_end h c e ∈ receives h (t_key c) log.
Proof.
  intros Hin. unfold receives. apply list_elem_of_omap. exists (DoTarget c, e).
  by rewrite bool_decide_true.
Qed.

(** The copy of a planned receive. *)
Lemma receive_match hp i j shape idx n :
  target_shard dst j -> (hp, i, shape) ∈ ins pat j -> matches (G (key hp i j)) !! idx = Some n ->
  exists c x, w_copies s.2 !! n = Some c /\ cp_shape c = shape /\
    cp_src c = tile_instance (array_ (hop_array A B ss sd hp i)) /\ cp_dst c = B_inst j /\
    DoSource x ∈ log.*1 /\ s_key x = key hp i j /\
    forall fired, Moment fired -> possible_state fired s -> fired (cp_pre c) ->
      fired (View_Precondition (s_src x)).
Proof.
  intros Hj Hx Hn. destruct (Hg (key hp i j)) as [Hs Ht].
  destruct (match_copy cells place h G o s I _ idx n Hn) as (xe & te & c & Hxe & Hte & Hc & (pre & Hcp) & Hpre).
  rewrite Hc in Hcp. injection Hcp as ->. rewrite Hs in Hxe. rewrite Ht in Hte.
  destruct (send_carried_out cells procs A B us ud ss sd pat Hprocs Hsrc Hdst HA HB Hpat h log.*1 hp i j shape
    Hco Hj Hx) as (x & Hxs & _ & Hxt).
  destruct (one_send cells h _ log x Hxs) as (es & Hin & Es).
  change (sends cells h (key hp i j) log = [source_end cells h x es]) in Es. rewrite Es in Hxe.
  apply list_lookup_singleton_Some in Hxe as [-> <-].
  destruct (elem_of_receives _ _ (list_elem_of_lookup_2 _ _ _ Hte)) as (t & et & Hint & Htk & ->).
  destruct (planned_in procs A B us ud ss sd pat Hprocs Hdst HA HB Hpat hp i j shape Hj Hx) as (calls & Ep & Hcl).
  destruct (Hco _ _ _ (in_range_i64 dst j Hdst Hj) Ep Hcl) as (t' & Hts & Hsh & Htt). cbn in Hts, Hsh.
  assert (t = t') as <-.
  { apply list_elem_of_singleton. unfold dst, src in Hts. rewrite <- Hts. apply elem_of_target_calls.
    split; [|done]. by apply (list_elem_of_fmap_2 fst _ (DoTarget t, et)). }
  exists (mkCopy _ (pl_shape (place (key hp i j))) (pl_size (place (key hp i j)))
    (e_inst (source_end cells h x es)) (e_inst (target_end h t et)) pre), x.
  assert (Hx' : x ∈ source_steps (key hp i j) log.*1) by (unfold key, src, dst; rewrite Hxs; by left).
  apply elem_of_source_calls in Hx' as [Hin' Hk].
  split_and!; [done| | | |done|done|].
  - cbn. rewrite Forall_forall in Hv.
    destruct (Hv (DoTarget t)) as (? & ? & ? & ? & ? & _ & _ & _ & _ & _ & _ & Hp).
    { by apply (list_elem_of_fmap_2 fst _ (DoTarget t, et)). }
    rewrite <- Htk, Hp. exact Hsh.
  - cbn. by rewrite Hxt.
  - cbn. by rewrite Htt.
  - intros fired HM P Hf. by apply (Hpre fired HM P Hf).
Qed.
(** A receive that is over has its copy. *)
Lemma receive_done fired t e : possible_state fired s -> (DoTarget t, e) ∈ log -> fired e ->
  exists idx n, matches (G (t_key t)) !! idx = Some n /\ fired (copy_event n).
Proof.
  intros P Hin He. pose proof (receives_elem t e Hin) as Hr. rewrite <- (proj2 (Hg (t_key t))) in Hr.
  apply list_elem_of_lookup in Hr as [idx Hi]. exists idx.
  by apply (fired_receive place h G o s I _ fired idx _ P Hi).
Qed.

(** The copies of the schedule are those of its receives. *)
Lemma issued_copy n c : w_copies s.2 !! n = Some c ->
  c ∈ w_copies s0.2 \/
  exists t idx, DoTarget t ∈ log.*1 /\ matches (G (t_key t)) !! idx = Some n /\
    cp_dst c = tile_instance (array_tile h (store_value (t_dst t))).
Proof.
  intros Hc. destruct (decide (length (w_copies s0.2) <= n)%nat) as [Hn|Hn].
  - right. destruct (inv_copies _ _ _ _ _ I n c Hc Hn) as (k & idx & Hm).
    destruct (match_copy cells place h G o s I _ idx n Hm) as (xe & te & c' & _ & Hte & Hc' & (pre & Hcp) & _).
    assert (c' = c) as -> by congruence. rewrite Hc in Hcp. injection Hcp as ->.
    rewrite (proj2 (Hg k)) in Hte.
    destruct (elem_of_receives _ _ (list_elem_of_lookup_2 _ _ _ Hte)) as (t & et & Hint & <- & ->).
    exists t, idx. split_and!; [|done|done]. by apply (list_elem_of_fmap_2 fst _ (DoTarget t, et)).
  - left. destruct (inv_older _ _ _ _ _ I) as [l E]. rewrite E, lookup_app_l in Hc by lia.
    by eapply list_elem_of_lookup_2.
Qed.

Lemma source_unwritten n c i : w_copies s.2 !! n = Some c -> source_shard src i -> cp_dst c <> A_inst i.
Proof.
  intros Hc Hi. destruct (issued_copy n c Hc) as [Hold|(t & idx & Ht & _ & ->)].
  - by apply (sep_older_source _ _ _ _ _ _ _ _ Hsep).
  - by apply (sep_source _ _ _ _ _ _ _ _ Hsep).
Qed.

Lemma target_written n c j : w_copies s.2 !! n = Some c -> target_shard dst j -> cp_dst c = B_inst j ->
  exists hp i shape idx, (hp, i, shape) ∈ ins pat j /\ matches (G (key hp i j)) !! idx = Some n.
Proof.
  intros Hc Hj Hd. destruct (issued_copy n c Hc) as [Hold|(t & idx & Ht & Hm & Hdst')].
  - exfalso. by apply (sep_older_target _ _ _ _ _ _ _ _ Hsep c j Hold Hj).
  - rewrite Hdst' in Hd. destruct (sep_target _ _ _ _ _ _ _ _ Hsep t j Ht Hj Hd) as [shape Hask].
    apply (asks_recv procs A B us ud ss sd pat) in Hask; try done.
    destruct Hask as (hp & i & j' & Hj' & _ & Hx & Hk). assert (j' = j) as -> by (unfold dst in Hj'; lia).
    exists hp, i, shape, idx. split; [done|]. unfold key, src, dst. by rewrite <- Hk.
Qed.

(** *** The order of the copies *)
Context {X : Type} (value : list Z -> X) (m0 : @Memory X).
Context (Hwait : forwards_wait procs A B log).
Context (Hholds : forall i, source_shard src i -> tile_holds A src value m0 i).

Abbreviation after order := (perform_all (w_copies s.2) order m0).

Definition sources_kept (order : list nat) : Prop :=
  forall i pt, source_shard src i -> contains (shard_rect src i) pt -> after order (A_inst i) pt = value pt.

Definition targets_filled (order : list nat) : Prop :=
  forall hp i j shape idx n pt, target_shard dst j -> (hp, i, shape) ∈ ins pat j ->
    matches (G (key hp i j)) !! idx = Some n -> n ∈ order -> contains shape pt ->
    after order (B_inst j) pt = value pt.

(** A shard that has received everything holds every point. *)
Lemma received_holds order fired j pt : possible_state fired s ->
  (forall i, fired (copy_event i) -> i ∈ order) -> targets_filled order ->
  target_shard dst j -> contains (shard_rect dst j) pt ->
  (forall hp i shape t e, (hp, i, shape) ∈ ins pat j -> (DoTarget t, e) ∈ log -> t_key t = key hp i j ->
     fired e) ->
  after order (B_inst j) pt = value pt.
Proof.
  intros P Hdone Hfill Hj Hpt Hrec. pose proof (proj1 Hpat) as Hag. fold src dst in Hag.
  destruct (ins_cover _ _ _ Hag j pt Hj Hpt) as ([[hp i] shape] & Hx & Hc & _). cbn in Hc.
  destruct (planned_in procs A B us ud ss sd pat Hprocs Hdst HA HB Hpat hp i j shape Hj Hx) as (calls & Ep & Hcl).
  destruct (Hco _ _ _ (in_range_i64 dst j Hdst Hj) Ep Hcl) as (t & Hts & _). cbn in Hts.
  change (target_steps (key hp i j) log.*1 = [t]) in Hts.
  assert (Ht : t ∈ target_steps (key hp i j) log.*1) by (rewrite Hts; by left).
  apply elem_of_target_calls in Ht as [Ht Hk]. apply list_elem_of_fmap in Ht as ([st e] & E & Hin).
  cbn in E. subst st. destruct (receive_done fired t e P Hin) as (idx & n & Hm & Hf).
  { by apply (Hrec hp i shape t e). }
  rewrite Hk in Hm. by apply (Hfill hp i j shape idx n pt); auto.
Qed.

(** What a copy that may run reads from is the array. *)
Lemma copy_reads order n hp i j shape idx c pt :
  sources_kept order -> targets_filled order -> may_run s order n ->
  target_shard dst j -> (hp, i, shape) ∈ ins pat j -> matches (G (key hp i j)) !! idx = Some n ->
  w_copies s.2 !! n = Some c -> contains shape pt -> after order (cp_src c) pt = value pt.
Proof.
  intros Hsrc' Hfill (c' & fired & Hc' & HM & P & Hdone & Hf) Hj Hx Hm Hc Hpt.
  assert (c' = c) as -> by congruence. pose proof (proj1 Hpat) as Hag. fold src dst in Hag.
  destruct (receive_match hp i j shape idx n Hj Hx Hm) as (c' & x & Hc2 & _ & Hcs & _ & Hxin & Hxk & Hpre).
  assert (c' = c) as -> by congruence. rewrite Hcs. destruct hp; cbn [hop_array].
  - destruct (ins_direct _ _ _ Hag i j shape Hj Hx) as [Hi Ho].
    apply Hsrc'; [done|]. by apply (outs_within _ _ _ Hag i j shape).
  - destruct (ins_relay _ _ _ Hag i j shape Hj Hx) as [Hi Hr].
    apply (received_holds order fired i pt P Hdone Hfill Hi).
    { by apply (relays_within _ _ _ Hag i j shape). }
    intros hp' i' shape' t e Hx' Hin Hk.
    destruct (planned_relay procs A B us ud ss sd pat Hprocs Hdst HA HB Hpat i j shape Hi Hr) as (calls & Ep & Hcl).
    destruct (planned_in procs A B us ud ss sd pat Hprocs Hdst HA HB Hpat hp' i' i shape' Hi Hx') as (calls' & Ep' & Hcl').
    assert (calls' = calls) as -> by congruence.
    by apply (Hwait _ _ _ _ _ _ _ (in_range_i64 dst i Hdst Hi) Ep Hcl eq_refl Hcl' eq_refl Hxin Hxk Hin Hk fired HM), Hpre.
Qed.

Lemma order_fills order : respects s order -> sources_kept order /\ targets_filled order.
Proof.
  induction order as [|n order IH] using rev_ind; intros Hr.
  { split.
    - intros i pt Hi Hpt. apply (Hholds i Hi (shard_rect src i) pt); [|done]. by apply ComputeTileBounds_shard.
    - by intros hp i j shape idx n pt _ _ _ ?%not_elem_of_nil. }
  apply respects_snoc in Hr as [Hr Hrun]. destruct (IH Hr) as [Hs Ht].
  pose proof Hrun as (c & _ & Hc & _). split.
  - intros i pt Hi Hpt. rewrite perform_all_snoc. unfold perform_nth. rewrite Hc, perform_other; [by apply Hs|].
    by apply (source_unwritten n).
  - intros hp i j shape idx n' pt Hj Hx Hm Hn' Hpt. rewrite perform_all_snoc. unfold perform_nth. rewrite Hc.
    unfold perform. destruct (decide (B_inst j = cp_dst c /\ contains (cp_shape c) pt)) as [[Hd Hsh]|Hno].
    + destruct (target_written n c j Hc Hj (eq_sym Hd)) as (hp' & i' & shape' & idx' & Hx' & Hm').
      destruct (receive_match hp' i' j shape' idx' n Hj Hx' Hm') as (c' & _ & Hc' & Hcs & _).
      assert (c' = c) as -> by congruence. rewrite Hcs in Hsh.
      by apply (copy_reads order n hp' i' j shape' idx').
    + apply elem_of_app in Hn' as [Hn'|Hn']; [by apply (Ht hp i j shape idx n')|].
      apply list_elem_of_singleton in Hn' as ->. exfalso. apply Hno.
      destruct (receive_match hp i j shape idx n Hj Hx Hm) as (c' & _ & Hc' & Hsh & _ & Hd & _).
      assert (c' = c) as -> by congruence. by rewrite Hsh.
Qed.

(** A target shard whose receives are over holds the array. *)
Lemma contents_delivered order fired j : respects s order -> Moment fired -> possible_state fired s ->
  (forall i, fired (copy_event i) -> i ∈ order) -> target_shard dst j -> received procs A B dst log fired j ->
  tile_holds B dst value (after order) j.
Proof.
  intros Hr HM P Hdone Hj Hrec rect pt Hrect Hpt.
  rewrite ComputeTileBounds_shard in Hrect by done. injection Hrect as <-.
  destruct (order_fills order Hr) as [_ Hfill].
  apply (received_holds order fired j pt P Hdone Hfill Hj Hpt).
  intros hp i shape t e Hx Hin Hk. apply (Hrec shape t e); [|done]. rewrite Hk.
  apply (asks_recv procs A B us ud ss sd pat); try done. by exists hp, i, j.
Qed.
End Filled.
