(* ===== verification/Collective.v ===== *)
(** A reshard as its processors execute it.  Every processor runs [Reshard] on its
    stores; the calls of the managers interleave in any way, with each other and with
    the messages.  What a processor does between two calls concerns its own stores and
    views only, so its part of an execution is a run of [Reshard] that gets, call by
    call, the events that the managers returned to it. *)
From stdpp Require Import base tactics list list_numbers numbers option strings sets gmap.
From Stdlib Require Import ZArith Lia.
From S2P Require Import Prelude Events Mesh Shape Processor TileIndex Tiles ScatterGather Broadcast.
From S2P Require Import ReshardConfig Handles Arrays ReshardManager Rendezvous Pairing Matching Reshard.
From S2P Require Import ReshardPlan ReshardFollows PlanPattern PlanMatch PlanCompletes Contents.
Open Scope Z_scope.

(** An element that a selection picks, when the others it picks from have another key. *)
Lemma omap_one {A B K} (f : A -> option B) (key : A -> K) (l : list A) x b :
  NoDup (key <$> l) -> x ∈ l -> f x = Some b ->
  (forall y, y ∈ l -> is_Some (f y) -> key y = key x) -> omap f l = [b].
Proof.
  intros Hd Hx Hf Hkey. apply list_elem_of_split in Hx as (l1 & l2 & ->).
  rewrite fmap_app, fmap_cons in Hd. apply NoDup_app in Hd as (_ & Hd1 & [Hd2 _]%NoDup_cons).
  assert (Hno : forall l', l' ⊆ l1 ++ x :: l2 -> key x ∉ key <$> l' -> omap f l' = []).
  { intros l' Hl Hk. induction l' as [|y l' IH]; [done|]. cbn.
    destruct (f y) eqn:E; [exfalso; apply Hk; rewrite <- (Hkey y); [by left|apply Hl; by left|done]|].
    apply IH; set_solver. }
  rewrite omap_app. cbn. rewrite Hf, !Hno; [done| | | |]; try set_solver.
Qed.

(** ** The part of a processor *)
Section Parts.
Context `{RealmMemory} `{!RealmLimits}.

(** The managers as a processor sees them: the events that they return to it. *)
Definition next_answer : SM (list Event * World) Event := fun '(answers, w) =>
  match answers with e :: rest => (Ret e, (rest, w)) | [] => (NoFuel, ([], w)) end.

Definition scripted : Manager (list Event) := {|
  m_send _ _ _ _ _ := next_answer;
  m_recv _ _ _ _ _ := next_answer;
|}.

#[export] Instance scripted_laws : ManagerLaws scripted.
Proof. split; intros; by destruct c. Qed.

(** The stores of a processor and its part of the runtime, before and after. *)
Record Part : Type := mkPart {
  part_src : @Store _ nat;
  part_dst : @Store _ nat;
  part_world : World;
  part_src' : @Store _ nat;
  part_dst' : @Store _ nat;
  part_world' : World;
}.

(** The keys of the reshard of the arrays with these ids. *)
Context (ua ub : UniqueId).

Definition in_reshard (k : ReshardKey) : bool :=
  bool_decide (dst_id k = ub) && (bool_decide (src_id k = ua) || bool_decide (src_id k = ub)).

Definition request_of (st : Step) : option Request :=
  match st with DoSource c => Some (ReqSend c) | DoTarget c => Some (ReqRecv c) | Deliver _ _ => None end.
Definition request_step (r : Request) : Step :=
  match r with ReqSend c => DoSource c | ReqRecv c => DoTarget c end.
Definition request_proc (r : Request) : Processor :=
  match r with ReqSend c => s_proc c | ReqRecv c => t_proc c end.
Definition request_key (r : Request) : ReshardKey :=
  match r with ReqSend c => s_key c | ReqRecv c => t_key c end.

(** The calls that the processor [g] made for the reshard, and what was returned. *)
Definition own (g : Z) (r : Request) : bool :=
  bool_decide (global_id_ (request_proc r) = g) && in_reshard (request_key r).

Definition own_calls (g : Z) (log : list (Step * Event)) : list (Request * Event) :=
  omap (fun x => r ← request_of x.1; if own g r then Some (r, x.2) else None) log.

Context (cells : nat -> option nat) (procs : Z -> Processor) (A B : Z -> ShardedArray).
Context (h : list ShardedArray).

(** The processor [g] ran [Reshard] on its stores, with the calls of the log. *)
Record takes_part (log : list (Step * Event)) (g : Z) (P : Part) : Prop := {
  tp_heap : w_heap (part_world P) = h;
  tp_src : exists i, store_value (part_src P) = Some i /\ h !! i = Some (A g);
  tp_dst : exists j, store_value (part_dst P) = Some j /\ h !! j = Some (B g);
  tp_run : Reshard_stores (Manager0 := logged scripted) cells (procs g)
      (part_src P, part_dst P, (((own_calls g log).*2, []), part_world P)) =
    (Ret tt, (part_src' P, part_dst' P,
       (([], (fun c => (c.1, Ret c.2)) <$> own_calls g log), part_world' P)));
}.

(** What its part tells about the calls of a processor. *)
Lemma takes_part_calls log g P calls : takes_part log g P -> plan (procs g) (A g) (B g) = Ret calls ->
  exists ans, a_call <$> ans = calls /\ Forall asked ans /\
    own_calls g log = (fun x => (a_request x, a_event x)) <$> ans /\
    Forall (waits_as_planned (writes_of (part_src P)) (accesses_of (part_dst P))
              (writes_of (part_dst P)) ans) ans /\
    (forall fired, Moment fired -> honoured fired (triggered (w_rt (part_world' P))) ->
      fired (Store_Precondition (part_dst' P)) -> covers fired for_target ans) /\
    forall fired, Moment fired -> prompt fired (triggered (w_rt (part_world' P))) -> all_done fired ans ->
      (fired (Store_Precondition (part_src P)) -> fired (Store_Precondition (part_src' P))) /\
      (fired (Store_Precondition (part_dst P)) -> fired (Store_Precondition (part_dst' P))).
Proof.
  intros [Hh (i & Hi & Ha) (j & Hj & Hd) Hrun] Hplan. rewrite <- Hh in Ha, Hd.
  destruct (stores_follow scripted cells (procs g) (part_src P) (part_dst P) i j (A g) (B g) calls
    (own_calls g log).*2 (part_world P) Hi Ha Hj Hd Hplan) as (r & src' & dst' & c' & l & w' & E & Hr).
  rewrite Hrun in E. injection E as <- <- <- <- El <-.
  destruct Hr as [(_ & ans & Hc & Hk & -> & Hw & Hev & Hl)|(n & req & o & _ & _ & Ho)]; [|by destruct o].
  exists ans. split_and!; [done|done| |done| |exact Hl].
  - clear -El. revert El. unfold log_of. generalize (own_calls g log). intros l.
    revert ans. induction l as [|[r e] l IH]; intros [|x ans]; try done. cbn. intros [= -> -> El].
    f_equal. by apply IH.
  - intros fired Hm Hho Hf. by apply (proj2 (Hev fired Hm Hho) Hf).
Qed.
Lemma own_true g r : own g r = true <-> global_id_ (request_proc r) = g /\ in_reshard (request_key r) = true.
Proof. unfold own. by rewrite andb_true_iff, bool_decide_eq_true. Qed.

Lemma elem_of_own g log r e :
  (r, e) ∈ own_calls g log <-> (request_step r, e) ∈ log /\ own g r = true.
Proof.
  unfold own_calls. rewrite list_elem_of_omap. split.
  - intros ([st e'] & Hin & E). destruct st as [c|c|k n]; cbn in E; try done;
      (destruct (own g _) eqn:Ho; [|done]); injection E as <- ->; auto.
  - intros [Hin Ho]. exists (request_step r, e). split; [done|]. destruct r; cbn; by rewrite Ho.
Qed.

(** The calls of a selection are calls of the processor, when nobody else makes them. *)
Lemma select_own {X} (sel : Request -> option X) g log :
  (forall r e, (request_step r, e) ∈ log -> is_Some (sel r) -> own g r = true) ->
  omap (fun st => request_of st ≫= sel) log.*1 = omap (fun x => sel x.1) (own_calls g log).
Proof.
  induction log as [|[st e] log IH]; intros Hg; [done|].
  assert (IH' := IH (fun r e' Hin => Hg r e' ltac:(by right))). clear IH.
  assert (Hst : forall r, request_of st = Some r -> is_Some (sel r) -> own g r = true).
  { intros r Hr. apply (Hg r e). destruct st; try done; injection Hr as <-; by left. }
  cbn. destruct (request_of st) as [r|]; cbn; [|done]. destruct (own g r) eqn:Ho; cbn.
  - destruct (sel r); [by f_equal|done].
  - destruct (sel r) eqn:Er; [|done]. rewrite (Hst r) in Ho; done.
Qed.

Definition send_for (k : ReshardKey) (r : Request) : option SourceCall :=
  match r with ReqSend c => if bool_decide (s_key c = k) then Some c else None | ReqRecv _ => None end.
Definition recv_for (k : ReshardKey) (r : Request) : option TargetCall :=
  match r with ReqRecv c => if bool_decide (t_key c = k) then Some c else None | ReqSend _ => None end.

Lemma source_steps_for k l : source_steps k l = omap (fun st => request_of st ≫= send_for k) l.
Proof. induction l as [|[] l IH]; [done|..]; cbn; try case_bool_decide; by rewrite <- IH. Qed.
Lemma target_steps_for k l : target_steps k l = omap (fun st => request_of st ≫= recv_for k) l.
Proof. induction l as [|[] l IH]; [done|..]; cbn; try case_bool_decide; by rewrite <- IH. Qed.
End Parts.

(** ** All processors *)
Section Together.
Context `{RealmMemory} `{!RealmLimits} (cells : nat -> option nat).
Context (procs : Z -> Processor) (A B : Z -> ShardedArray) (h : list ShardedArray).
Context (us ud : Z) (src dst : Sharding).

Let ua := mkUniqueId us (devices src).
Let ub := mkUniqueId ud (devices dst).

(** The processors that hold a shard of one of the arrays. *)
Definition participant (g : Z) : Prop :=
  (exists i, source_shard src i /\ g = start_ (devices src) + i) \/
  (exists j, target_shard dst j /\ g = start_ (devices dst) + j).

(** Every processor of the two arrays took part, and the calls with the keys of the
    reshard are theirs. *)
Record together (log : list (Step * Event)) (P : Z -> Part) : Prop := {
  tg_part g : participant g -> takes_part ua ub cells procs A B h log g (P g);
  tg_only r e : (request_step r, e) ∈ log -> in_reshard ua ub (request_key r) = true ->
    participant (global_id_ (request_proc r));
}.

(** The reshard has its tiles for itself: they are distinct, and neither older copies
    nor the receives of other reshards write them. *)
Record alone (older : list Copy) (schedule : list Step) : Prop := {
  al_source i j : source_shard src i -> target_shard dst j ->
    tile_instance (array_ (B (start_ (devices dst) + j))) <>
    tile_instance (array_ (A (start_ (devices src) + i)));
  al_target j j' : target_shard dst j -> target_shard dst j' ->
    tile_instance (array_ (B (start_ (devices dst) + j))) =
    tile_instance (array_ (B (start_ (devices dst) + j'))) -> j = j';
  al_older c g : c ∈ older -> participant g ->
    cp_dst c <> tile_instance (array_ (A g)) /\ cp_dst c <> tile_instance (array_ (B g));
  al_others t g : DoTarget t ∈ schedule -> in_reshard ua ub (t_key t) = false -> participant g ->
    tile_instance (array_tile h (store_value (t_dst t))) <> tile_instance (array_ (A g)) /\
    tile_instance (array_tile h (store_value (t_dst t))) <> tile_instance (array_ (B g));
}.
End Together.

Section Executed.
Context `{RealmMemory} `{!RealmOps} `{!RealmMachine} `{!RealmLimits} (cells : nat -> option nat).
Context (procs : Z -> Processor) (A B : Z -> ShardedArray) (h : list ShardedArray).
Context (us ud : Z) (ss sd : ShardedShape) (pat : Pattern).
Let src := ss_sharding ss.
Let dst := ss_sharding sd.
Context (Hprocs : forall g, global_id_ (procs g) = g).
Context (Hsrc : ShardingOps.wf src) (Hdst : ShardingOps.wf dst).
Context (Hrs : rank_supported src) (Hrd : rank_supported dst).
Context (HA : placed procs us ss A) (HB : placed procs ud sd B) (Hpat : moves ss sd pat).
Context (log : list (Step * Event)) (P : Z -> Part).
Context (Htog : together cells procs A B h us ud src dst log P).

Let ua := mkUniqueId us (devices src).
Let ub := mkUniqueId ud (devices dst).
Let key := hop_key ua ub.

Lemma key_in_reshard hp i j : in_reshard ua ub (key hp i j) = true.
Proof.
  unfold in_reshard. destruct hp; cbn; rewrite !(bool_decide_true (_ = _)) by done;
    by rewrite ?orb_true_r.
Qed.

Lemma participant_range g : participant src dst g -> 0 <= g <= i64_max.
Proof. intros [(i & Hi & ->)|(j & Hj & ->)]; by apply in_range_i64. Qed.

(** The answers of a participant. *)
Definition answers_of (g : Z) (calls : list PlannedCall) (ans : list Answer) : Prop :=
  plan (procs g) (A g) (B g) = Ret calls /\ a_call <$> ans = calls /\ Forall asked ans /\
  own_calls ua ub g log = (fun x => (a_request x, a_event x)) <$> ans /\
  Forall (waits_as_planned (writes_of (part_src (P g))) (accesses_of (part_dst (P g)))
            (writes_of (part_dst (P g))) ans) ans /\
  (forall fired, Moment fired -> honoured fired (triggered (w_rt (part_world' (P g)))) ->
    fired (Store_Precondition (part_dst' (P g))) -> covers fired for_target ans) /\
  forall fired, Moment fired -> prompt fired (triggered (w_rt (part_world' (P g)))) -> all_done fired ans ->
    (fired (Store_Precondition (part_src (P g))) -> fired (Store_Precondition (part_src' (P g)))) /\
    (fired (Store_Precondition (part_dst (P g))) -> fired (Store_Precondition (part_dst' (P g)))).

Lemma participant_answers g : participant src dst g -> exists calls ans, answers_of g calls ans.
Proof.
  intros Hg. destruct (plan_at procs A B us ud ss sd pat Hprocs HA HB Hpat g (participant_range g Hg))
    as (calls & E & _).
  destruct (takes_part_calls ua ub cells procs A B h log g (P g) calls
    (tg_part _ _ _ _ _ _ _ _ _ _ _ Htog g Hg) E) as (ans & Hans).
  exists calls, ans. split; [done|]. exact Hans.
Qed.

Lemma answer_of_own g calls ans r e : answers_of g calls ans -> (r, e) ∈ own_calls ua ub g log ->
  exists x, x ∈ ans /\ a_request x = r /\ a_event x = e /\ a_call x ∈ calls /\
    request_call r = manager_call (a_call x).
Proof.
  intros (_ & <- & Hk & -> & _) Hin. apply list_elem_of_fmap in Hin as (x & [= -> ->] & Hx).
  exists x. split_and!; [done..| |].
  - by apply list_elem_of_fmap_2.
  - rewrite Forall_forall in Hk. by apply Hk.
Qed.

(** A call with a key of the reshard was asked of its processor. *)
Lemma own_asks r e : (request_step r, e) ∈ log -> in_reshard ua ub (request_key r) = true ->
  asks procs A B (global_id_ (request_proc r)) (request_call r).
Proof.
  intros Hin Hk. set (g := global_id_ (request_proc r)).
  assert (Hg : participant src dst g) by (by apply (tg_only _ _ _ _ _ _ _ _ _ _ _ Htog r e)).
  destruct (participant_answers g Hg) as (calls & ans & Ha).
  destruct (answer_of_own g calls ans r e Ha) as (x & _ & _ & _ & Hx & ->).
  { apply elem_of_own. split; [done|]. by apply own_true. }
  split; [by apply participant_range|]. exists calls. split; [by apply Ha|]. by apply list_elem_of_fmap_2.
Qed.

(** Only the processor that is asked for a call makes it. *)
Lemma caller_unique g r e m : asks procs A B g m -> call_side m = call_side (request_call r) ->
  (request_step r, e) ∈ log -> in_reshard ua ub (request_key r) = true -> own ua ub g r = true.
Proof.
  intros Hm Hs Hin Hk. pose proof (own_asks r e Hin Hk) as Hr. apply own_true. split; [|done].
  destruct m as [s k|s k], r as [c|c]; try discriminate Hs; cbn in Hs; injection Hs as ->.
  - destruct (sends_received procs A B us ud ss sd pat Hprocs Hsrc Hdst HA HB Hpat _ _ _ Hm) as [-> _].
    by destruct (sends_received procs A B us ud ss sd pat Hprocs Hsrc Hdst HA HB Hpat _ _ _ Hr) as [-> _].
  - destruct (receives_sent procs A B us ud ss sd pat Hprocs Hsrc Hdst HA HB Hpat _ _ _ Hm) as [-> _].
    by destruct (receives_sent procs A B us ud ss sd pat Hprocs Hsrc Hdst HA HB Hpat _ _ _ Hr) as [-> _].
Qed.
Lemma answer_own g calls ans x : answers_of g calls ans -> x ∈ ans ->
  (a_request x, a_event x) ∈ own_calls ua ub g log /\ a_call x ∈ calls /\
  request_call (a_request x) = manager_call (a_call x).
Proof.
  intros (_ & <- & Hk & -> & _) Hx. split_and!.
  - by apply (list_elem_of_fmap_2 (fun x => (a_request x, a_event x))).
  - by apply list_elem_of_fmap_2.
  - rewrite Forall_forall in Hk. by apply Hk.
Qed.

Lemma same_side_key r r' : call_side (request_call r) = call_side (request_call r') ->
  request_key r = request_key r'.
Proof. by destruct r, r'; intros [=]. Qed.

(** A planned call is in the log once. *)
Lemma selected_once {X} (sel : Request -> option X) g calls ans x a :
  answers_of g calls ans -> 0 <= g <= i64_max -> x ∈ ans -> sel (a_request x) = Some a ->
  (forall r, is_Some (sel r) -> call_side (request_call r) = call_side (request_call (a_request x))) ->
  omap (fun st => request_of st ≫= sel) log.*1 = [a].
Proof.
  intros Ha Hg Hx Hsel Hside. destruct (answer_own g calls ans x Ha Hx) as (Hin & Hc & Hk).
  apply elem_of_own in Hin as [_ Hown]. apply own_true in Hown as [_ Hres].
  rewrite (select_own ua ub sel g log).
  2: { intros r e Hr Hs. apply (caller_unique g r e (manager_call (a_call x))); [| |done|].
    - split; [done|]. exists calls. split; [by apply Ha|]. by apply list_elem_of_fmap_2.
    - rewrite <- Hk. symmetry. by apply Hside.
    - by rewrite (same_side_key _ _ (Hside r Hs)). }
  destruct Ha as (Hplan & Hcalls & Hasked & -> & _).
  transitivity (omap (fun x => sel (a_request x)) ans).
  { clear. induction ans as [|y ans IH]; [done|]. cbn. destruct (sel _); [by f_equal|done]. }
  apply (omap_one _ (fun x => call_side (manager_call (a_call x))) ans x a); [|done|done|].
  - pose proof (calls_distinct procs A B us ud ss sd pat Hprocs HA HB Hpat g calls Hg Hplan) as Hd.
    by rewrite <- Hcalls, <- !list_fmap_compose in Hd.
  - intros y Hy Hs. rewrite Forall_forall in Hasked. rewrite <- (Hasked y Hy), <- (Hasked x Hx).
    by apply Hside.
Qed.

Lemma planned_participant g calls c : 0 <= g <= i64_max -> plan (procs g) (A g) (B g) = Ret calls ->
  c ∈ calls -> participant src dst g.
Proof.
  intros Hg E Hc. assert (Hm : asks procs A B g (manager_call c)).
  { split; [done|]. exists calls. split; [done|]. by apply list_elem_of_fmap_2. }
  destruct (manager_call c) as [s k|s k].
  - apply (asks_send procs A B us ud ss sd pat) in Hm; try done.
    destruct Hm as [(i & j & -> & Hi & _)|(i & j & -> & Hi & _)]; [left|right]; by exists i.
  - apply (asks_recv procs A B us ud ss sd pat) in Hm; try done.
    destruct Hm as (hp & i & j & -> & Hj & _). right. by exists j.
Qed.
(** The answer to a planned call. *)
Lemma planned_answer g calls c : 0 <= g <= i64_max -> plan (procs g) (A g) (B g) = Ret calls ->
  c ∈ calls -> exists ans x, answers_of g calls ans /\ x ∈ ans /\ a_call x = c /\
    request_call (a_request x) = manager_call c /\
    waits_as_planned (writes_of (part_src (P g))) (accesses_of (part_dst (P g)))
      (writes_of (part_dst (P g))) ans x.
Proof.
  intros Hg E Hc. destruct (participant_answers g (planned_participant g calls c Hg E Hc)) as (calls' & ans & Ha).
  assert (calls' = calls) as -> by (destruct Ha as [E' _]; congruence).
  pose proof Ha as (_ & Hcalls & Hk & _ & Hw & _). rewrite <- Hcalls in Hc.
  apply list_elem_of_fmap in Hc as (x & -> & Hx). rewrite Forall_forall in Hk, Hw.
  exists ans, x. split_and!; [done|done|done|by apply Hk|by apply Hw].
Qed.

Lemma send_request g calls ans x : answers_of g calls ans -> 0 <= g <= i64_max -> x ∈ ans ->
  call_role (a_call x) <> ToTarget ->
  exists s, a_request x = ReqSend s /\ s_shape s = call_shape (a_call x) /\
    source_steps (call_key (a_call x)) log.*1 = [s].
Proof.
  intros Ha Hg Hx Hr. destruct (answer_own g calls ans x Ha Hx) as (_ & _ & Hk).
  assert (Hm : manager_call (a_call x) = CallSend (call_shape (a_call x)) (call_key (a_call x)))
    by (unfold manager_call; by destruct (call_role _)).
  rewrite Hm in Hk. destruct (a_request x) as [s|t] eqn:Ex; [|done]. injection Hk as Hsh Hkey.
  exists s. split_and!; [done..|]. rewrite source_steps_for.
  apply (selected_once _ g calls ans x s); [done..| |].
  - rewrite Ex. cbn. by rewrite bool_decide_true.
  - intros r [y Hy]. rewrite Ex. cbn. rewrite Hkey. destruct r as [c|c]; cbn in *; [|done].
    case_bool_decide; [congruence|done].
Qed.

Lemma recv_request g calls ans x : answers_of g calls ans -> 0 <= g <= i64_max -> x ∈ ans ->
  call_role (a_call x) = ToTarget ->
  exists t, a_request x = ReqRecv t /\ t_shape t = call_shape (a_call x) /\
    target_steps (call_key (a_call x)) log.*1 = [t].
Proof.
  intros Ha Hg Hx Hr. destruct (answer_own g calls ans x Ha Hx) as (_ & _ & Hk).
  unfold manager_call in Hk. rewrite Hr in Hk.
  destruct (a_request x) as [s|t] eqn:Ex; [done|]. injection Hk as Hsh Hkey.
  exists t. split_and!; [done..|]. rewrite target_steps_for.
  apply (selected_once _ g calls ans x t); [done..| |].
  - rewrite Ex. cbn. by rewrite bool_decide_true.
  - intros r [y Hy]. rewrite Ex. cbn. rewrite Hkey. destruct r as [c|c]; cbn in *; [done|].
    case_bool_decide; [congruence|done].
Qed.

(** The objects of the handles are those of the two stores. *)
Lemma sent_object (v : View) (s : Store) i : store_value s = Some i -> view_value v = store_view_value s ->
  view_object cells v = Some i.
Proof. unfold store_view_value, view_object, View_get. intros -> Hv. by rewrite Hv. Qed.

Lemma received_object (s s' : @Store _ nat) i : store_value s = Some i -> store_view_value s' = store_view_value s ->
  store_value s' = Some i.
Proof. unfold store_view_value. intros ->. destruct (store_value s'); [|done]. by intros [= ->]. Qed.

Lemma held_tile i a : h !! i = Some a -> array_tile h (Some i) = array_ a.
Proof. intros E. unfold array_tile. cbn. by rewrite E. Qed.

(** Every planned call is made once, with the tile of its processor. *)
Lemma together_carried_out : carried_out cells procs A B h log.*1.
Proof.
  intros g calls c Hg E Hc. destruct (planned_answer g calls c Hg E Hc) as (ans & x & Ha & Hx & <- & _ & Hw).
  destruct (tg_part _ _ _ _ _ _ _ _ _ _ _ Htog g (planned_participant g calls _ Hg E Hc))
    as [_ (i & Hi & Hia) (j & Hj & Hjb) _].
  unfold waits_as_planned in Hw. destruct (call_role (a_call x)) eqn:Hr; cbn zeta.
  - destruct (send_request g calls ans x Ha Hg Hx ltac:(by rewrite Hr)) as (s & Es & Hsh & Hst).
    exists s. split_and!; [done..|]. unfold a_ask in Hw. rewrite Es in Hw. injection Hw as _ Hv.
    by rewrite (sent_object _ _ i Hi Hv), (held_tile i (A g)).
  - destruct (recv_request g calls ans x Ha Hg Hx Hr) as (t & Et & Hsh & Hst).
    exists t. split_and!; [done..|]. unfold a_ask in Hw. rewrite Et in Hw. injection Hw as _ Hv.
    by rewrite (received_object _ _ j Hj Hv), (held_tile j (B g)).
  - destruct (send_request g calls ans x Ha Hg Hx ltac:(by rewrite Hr)) as (s & Es & Hsh & Hst).
    exists s. split_and!; [done..|]. destruct Hw as [Hv _]. unfold a_ask in Hv. rewrite Es in Hv. cbn in Hv.
    by rewrite (sent_object _ _ j Hj Hv), (held_tile j (B g)).
Qed.

(** A receive of a participant is one of its answers. *)
Lemma received_answer g calls ans t e m : answers_of g calls ans -> asks procs A B g m ->
  call_side m = (false, t_key t) -> (DoTarget t, e) ∈ log -> in_reshard ua ub (t_key t) = true ->
  exists y, y ∈ ans /\ a_event y = e /\ receives_data (a_call y).
Proof.
  intros Ha Hm Hs Hin Hk.
  destruct (answer_of_own g calls ans (ReqRecv t) e Ha) as (y & Hy & _ & He & _ & Hc).
  - apply elem_of_own. split; [done|]. by apply (caller_unique g (ReqRecv t) e m).
  - exists y. split_and!; [done..|]. unfold receives_data. unfold manager_call in Hc.
    by destruct (call_role _).
Qed.

Lemma asked_in_reshard g m : asks procs A B g m -> in_reshard ua ub (call_side m).2 = true.
Proof.
  destruct m as [s k|s k]; intros Hm; cbn.
  - apply (asks_send procs A B us ud ss sd pat) in Hm; try done.
    destruct Hm as [(i & j & _ & _ & _ & ->)|(i & j & _ & _ & _ & ->)]; apply key_in_reshard.
  - apply (asks_recv procs A B us ud ss sd pat) in Hm; try done.
    destruct Hm as (hp & i & j & _ & _ & _ & ->). apply key_in_reshard.
Qed.

Lemma together_forwards_wait : forwards_wait procs A B log.
Proof.
  intros g calls c r x t e Hg E Hc Hf Hr Hdata Hx Hk Ht Hkt fired HM Hp.
  destruct (planned_answer g calls c Hg E Hc) as (ans & z & Ha & Hz & <- & _ & Hw).
  destruct (send_request g calls ans z Ha Hg Hz ltac:(by rewrite Hf)) as (s & Es & _ & Hst).
  assert (x = s) as ->.
  { apply list_elem_of_singleton. rewrite <- Hst. by apply elem_of_source_calls. }
  unfold waits_as_planned in Hw. rewrite Hf in Hw. destruct Hw as [_ Hw].
  unfold a_ask in Hw. rewrite Es in Hw. destruct (proj1 (Hw fired HM) Hp) as [_ Hcov].
  assert (Hm : asks procs A B g (manager_call r)).
  { split; [done|]. exists calls. split; [done|]. by apply list_elem_of_fmap_2. }
  assert (Hs : call_side (manager_call r) = (false, t_key t)).
  { unfold manager_call. rewrite Hdata. cbn. by rewrite Hkt. }
  destruct (received_answer g calls ans t e _ Ha Hm Hs Ht) as (y & Hy & <- & Hyr).
  { pose proof (asked_in_reshard g _ Hm) as Hin. by rewrite Hs in Hin. }
  unfold covers in Hcov. rewrite Forall_forall in Hcov. by apply Hcov.
Qed.

(** When a target store is ready, its processor's receives are over. *)
Lemma together_received j fired : target_shard dst j -> Moment fired ->
  honoured fired (triggered (w_rt (part_world' (P (start_ (devices dst) + j))))) ->
  fired (Store_Precondition (part_dst' (P (start_ (devices dst) + j)))) ->
  received procs A B dst log fired j.
Proof.
  intros Hj HM Hh Hf shape t e Hm Hin. set (g := start_ (devices dst) + j) in *.
  destruct (participant_answers g ltac:(right; by exists j)) as (calls & ans & Ha).
  destruct (received_answer g calls ans t e _ Ha Hm eq_refl Hin) as (y & Hy & <- & Hyr).
  { by apply (asked_in_reshard g (CallRecv shape (t_key t))). }
  pose proof Ha as (_ & _ & _ & _ & _ & Hcov & _). specialize (Hcov fired HM Hh Hf).
  unfold covers in Hcov. rewrite Forall_forall in Hcov. apply (Hcov y Hy).
  unfold for_target. by rewrite Hyr.
Qed.
(** A receive of the reshard writes the tile of its processor. *)
Lemma receive_writes t e : (DoTarget t, e) ∈ log -> in_reshard ua ub (t_key t) = true ->
  exists j, target_shard dst j /\
    array_tile h (store_value (t_dst t)) = array_ (B (start_ (devices dst) + j)) /\
    asks procs A B (start_ (devices dst) + j) (CallRecv (t_shape t) (t_key t)).
Proof.
  intros Hin Hk. pose proof (own_asks (ReqRecv t) e Hin Hk) as Hm. cbn in Hm.
  pose proof Hm as Hj. apply (asks_recv procs A B us ud ss sd pat) in Hj; try done.
  destruct Hj as (_ & _ & j & Hg & Hj & _). fold dst in Hg. rewrite Hg in Hm.
  exists j. split_and!; [done| |done].
  set (g := start_ (devices dst) + j) in *. assert (Hpg : participant src dst g) by (right; by exists j).
  destruct (participant_answers g Hpg) as (calls & ans & Ha).
  destruct (answer_of_own g calls ans (ReqRecv t) e Ha) as (y & Hy & Er & _ & _ & Hc).
  { apply elem_of_own. split; [done|]. by apply own_true. }
  pose proof Ha as (_ & _ & _ & _ & Hw & _). rewrite Forall_forall in Hw. specialize (Hw y Hy).
  unfold waits_as_planned, manager_call, a_ask in Hw, Hc.
  destruct (call_role (a_call y)); [done| |done]. rewrite Er in Hw. injection Hw as _ Hv.
  destruct (tg_part _ _ _ _ _ _ _ _ _ _ _ Htog g Hpg) as [_ _ (o & Ho & Hob) _].
  by rewrite (received_object _ _ o Ho Hv), (held_tile o (B g)).
Qed.

Lemma together_separate older : alone A B h us ud src dst older log.*1 ->
  separate procs A B src dst h older log.*1.
Proof.
  intros [Hab Hbb Hold Hoth].
  assert (Hcase : forall t, DoTarget t ∈ log.*1 -> in_reshard ua ub (t_key t) = false \/
    exists j, target_shard dst j /\
      array_tile h (store_value (t_dst t)) = array_ (B (start_ (devices dst) + j)) /\
      asks procs A B (start_ (devices dst) + j) (CallRecv (t_shape t) (t_key t))).
  { intros t Ht. apply list_elem_of_fmap in Ht as ([st e] & E & Hin). cbn in E. subst st.
    destruct (in_reshard ua ub (t_key t)) eqn:Hk; [right|by left]. by apply (receive_writes t e). }
  split.
  - intros c i Hc Hi. apply (Hold c); [done|]. left. by exists i.
  - intros c j Hc Hj. apply (Hold c); [done|]. right. by exists j.
  - intros t i Ht Hi. destruct (Hcase t Ht) as [Hk|(j & Hj & -> & _)]; [|by apply Hab].
    apply Hoth; [done..|]. left. by exists i.
  - intros t j Ht Hj E. destruct (Hcase t Ht) as [Hk|(j' & Hj' & E' & Hm)].
    + exfalso. apply (Hoth t (start_ (devices dst) + j)); [done..| |done]. right. by exists j.
    + rewrite E' in E. apply Hbb in E as ->; [|done..]. by eexists.
Qed.
End Executed.

(** ** Property *)

(** C1: a reshard that its processors execute together delivers the array.  Take two
    shardings that fit, and let every processor that holds a shard run [Reshard] on its
    two stores; the calls that these runs make of the managers interleave in any way,
    with each other, with calls for other arrays and with the messages.  Then all calls
    return, and if the source tiles hold an array and nobody else writes the tiles, then
    for whatever order in which Realm performs the copies, as long as each comes after
    the event it waits for: as soon as the precondition of a target store has triggered,
    the tile of the store holds the array at every point, whatever the other processors
    have done by then. *)
Theorem reshard_fills_targets `{RealmMemory} `{!RealmOps} `{!RealmMachine} `{!RealmLimits}
    {X : Type} (machine : ProcState) (cells : nat -> option nat) (place : ReshardKey -> Placement)
    (procs : Z -> Processor) (A B : Z -> ShardedArray) (us ud : Z) (ss sd : ShardedShape)
    (s0 : Comm * World) (schedule : list Step)
    (Hprocs : forall g, global_id_ (procs g) = g)
    (Hsrc : ShardingOps.wf (ss_sharding ss)) (Hdst : ShardingOps.wf (ss_sharding sd))
    (Hrs : rank_supported (ss_sharding ss)) (Hrd : rank_supported (ss_sharding sd))
    (Hsame : array_rect (ss_sharding ss) = array_rect (ss_sharding sd))
    (Hfits : fits (ss_sharding ss) (ss_sharding sd))
    (HA : placed procs us ss A) (HB : placed procs ud sd B) (Hquiet : quiet s0)
    (Hvalid : Forall (valid_step machine cells place (w_heap s0.2)) schedule)
    (Halone : alone A B (w_heap s0.2) us ud (ss_sharding ss) (ss_sharding sd) (w_copies s0.2) schedule) :
  exists log s, run machine cells schedule s0 = (Ret log, s) /\ log.*1 = schedule /\
    forall P, together cells procs A B (w_heap s0.2) us ud (ss_sharding ss) (ss_sharding sd) log P ->
    forall (value : list Z -> X) (m0 : Memory) (order : list nat) (fired : Event -> Prop) (j : Z),
      (forall i, 0 <= i < num_devices_ (devices (ss_sharding ss)) ->
         tile_holds A (ss_sharding ss) value m0 i) ->
      respects s order -> Moment fired -> possible_state fired s ->
      (forall i, fired (copy_event i) -> i ∈ order) ->
      0 <= j < num_devices_ (devices (ss_sharding sd)) ->
      let part := P (start_ (devices (ss_sharding sd)) + j) in
      honoured fired (triggered (w_rt (part_world' part))) ->
      fired (Store_Precondition (part_dst' part)) ->
      tile_holds B (ss_sharding sd) value (perform_all (w_copies s.2) order m0) j.
Proof.
  destruct (fits_moves ss sd Hsrc Hdst Hrs Hrd Hsame Hfits) as [pat Hpat].
  destruct (run_ok machine cells place (w_heap s0.2) schedule (fun _ => no_ghost) (no_owners (w_copies s0.2)) s0)
    as (log & s & G & o & E & Hlog & I & Hg); [by apply quiet_Inv|done|].
  exists log, s. split; [done|]. split; [done|]. rewrite <- Hlog in Hvalid, Halone.
  intros P Htog value m0 order fired j Hholds Hr HM Hp Hdone Hj part Hh Hf.
  apply (contents_delivered machine cells place procs A B us ud ss sd pat Hprocs Hsrc Hdst Hrs Hrd HA HB
    Hpat s0 s log G o I Hg Hvalid) with (fired := fired); try done.
  - by apply (together_carried_out cells procs A B (w_heap s0.2) us ud ss sd pat) with (P := P).
  - by apply (together_separate cells procs A B (w_heap s0.2) us ud ss sd pat) with (P := P).
  - by apply (together_forwards_wait cells procs A B (w_heap s0.2) us ud ss sd pat) with (P := P).
  - by apply (together_received cells procs A B (w_heap s0.2) us ud ss sd pat) with (P := P).
Qed.

(** ** A concrete broadcast

    Two copies of an array on the processors 0 and 1 are broadcast to the processors
    2 to 5 of the same process: the shards 0 and 2 of the target receive from the
    sources and forward to the shards 1 and 3. *)
#[local] Existing Instance Matching.example_memory.
#[local] Instance six_processors : RealmMachine := {|
  rm_kind _ := LOC_PROC;
  rm_space _ := 0;
  rm_spaces := 1;
  rm_query _ := [0; 1; 2; 3; 4; 5];
  rm_local _ := ∅;
|}.
#[local] Instance three_dims : RealmLimits := 3.

Definition example_machine : ProcState :=
  mkProcState CPU (fun _ => []) (fun _ => [0; 1; 2; 3; 4; 5]) (fun _ => []).

Definition example_from : Sharding := example_copies 0 2.
Definition example_to : Sharding := example_copies 2 4.

(** The array with the id [u], as a processor sees it that has the shard [i]. *)
Definition copy_of (u : Z) (sh : Sharding) (i : Z) (tile : option nat) : ShardedArray :=
  mkArray u (mkShape F32 sh) i (mkProc CPU 0 i i) None
    (i ← tile; Some (mkTile (Some i) (mkTileShape F32 [4] (mkRect [0] [3])) INT32)).

Definition example_A (g : Z) : ShardedArray :=
  copy_of 0 example_from g (if decide (0 <= g < 2) then Some (Z.to_nat (10 + g)) else None).
Definition example_B (g : Z) : ShardedArray :=
  copy_of 1 example_to (g - 2) (if decide (2 <= g < 6) then Some (Z.to_nat (18 + g)) else None).

(** The objects of all processors: the source arrays, then the target arrays. *)
Definition example_heap : list ShardedArray := (example_A <$> seqZ 0 6) ++ (example_B <$> seqZ 0 6).

Definition broadcast_state : Comm * World :=
  (mkComm (fun _ => []) 0 [] [], mkWorld _ _ initial_runtime example_heap [] [] [] [] [] [] []).

(** What the managers return to the processors. *)
Definition example_answers (g : Z) : list (@Event example_events) :=
  match Z.to_nat g with
  | 0 => [Copied 1] | 1 => [Copied 2] | 2 => [User 0; User 1]
  | 3 => [Copied 0] | 4 => [User 2; User 3] | _ => [Copied 3]
  end%nat.

(** The processors number the user events of their views from 100, 200, ... *)
Definition example_world (g : Z) : World :=
  mkWorld _ _ (mkRuntime (100 * S (Z.to_nat g)) [] [] [] 0) example_heap [] [] [] [] [] [] [].

Definition example_run (g : Z) :=
  Reshard_stores (Manager0 := logged scripted) (fun _ => None) (cpu g)
    (Store_Create (Z.to_nat g), Store_Create (Z.to_nat (6 + g)), ((example_answers g, []), example_world g)).

Definition example_part (g : Z) : Part :=
  let '(_, (src', dst', (_, w'))) := example_run g in
  mkPart (Store_Create (Z.to_nat g)) (Store_Create (Z.to_nat (6 + g))) (example_world g) src' dst' w'.

(** The [n]-th call of a processor. *)
Definition call_of (g : Z) (n : nat) : option Step :=
  let '(_, (_, _, ((_, l), _))) := example_run g in request_step <$> l.*1 !! n.

Definition broadcast_schedule : list Step :=
  Eval vm_compute in omap id
    [call_of 2 0; call_of 2 1; call_of 3 0; call_of 0 0; call_of 4 0; call_of 4 1; call_of 1 0; call_of 5 0].

Definition broadcast_place (_ : ReshardKey) : Placement := mkPlacement 0 0 (mkRect [0] [3]) 4.

Lemma example_from_wf : ShardingOps.wf example_from.
Proof. by apply (bool_decide_unpack _). Qed.
Lemma example_to_wf : ShardingOps.wf example_to.
Proof. by apply (bool_decide_unpack _). Qed.
Lemma example_ranks : rank_supported example_from /\ rank_supported example_to.
Proof. split; by apply (bool_decide_unpack _). Qed.

Lemma broadcast_fits : fits example_from example_to.
Proof.
  apply fits_broadcast; try done.
  - unfold source_shard, group_root. cbn. change (leaves_per_root _ _) with 2. lia.
  - intros g Hg Hlt. change (g * 2 < 4) in Hlt.
    assert (g = 0 \/ g = 1) as [-> | ->] by lia; apply (full_tree_pow2 1); lia.
Qed.

Lemma example_A_placed : placed cpu 0 (mkShape F32 example_from) example_A.
Proof.
  intros g Hg. split; [done|]. split; [done|]. unfold shard_in, example_A. cbn.
  destruct (decide (0 <= g < 0 + 2)), (decide (0 <= g < 2)); try lia; [|done].
  split; [cbn; lia|]. eexists. split; [done|]. by assert (g = 0 \/ g = 1) as [-> | ->] by lia.
Qed.

Lemma example_B_placed : placed cpu 1 (mkShape F32 example_to) example_B.
Proof.
  intros g Hg. split; [done|]. split; [done|]. unfold shard_in, example_B. cbn.
  destruct (decide (2 <= g < 2 + 4)), (decide (2 <= g < 6)); try lia; [|done].
  split; [cbn; lia|]. eexists. split; [done|].
  by assert (g = 2 \/ g = 3 \/ g = 4 \/ g = 5) as [->|[->|[->| ->]]] by lia.
Qed.

Lemma broadcast_valid :
  Forall (valid_step example_machine (fun _ => None) broadcast_place (w_heap broadcast_state.2))
    broadcast_schedule.
Proof. repeat constructor; do 5 eexists; split_and!; reflexivity || (by eexists). Qed.

(** The moment at which the copies [l] are over. *)
Definition copied (l : list nat) (e : @Event example_events) : Prop :=
  fires_all (fun _ => true)
    (fun u => match u with
              | 0 => bool_decide (1 ∈ l) | 1 => bool_decide (0 ∈ l)
              | 2 => bool_decide (2 ∈ l) | 3 => bool_decide (3 ∈ l) | _ => false
              end)%nat
    (fun c => bool_decide (c ∈ l)) (fun _ _ => false) e = true.

#[local] Instance copied_moment l : Moment (copied l).
Proof. apply fires_all_moment. Qed.

Definition broadcast_end : Comm * World :=
  (run example_machine (fun _ => None) broadcast_schedule broadcast_state).2.
Definition example_order : list nat := [1; 0; 2; 3]%nat.

(** What the copies wait for: the forwards for the copies of their receives. *)
Lemma broadcast_pres : cp_pre <$> w_copies broadcast_end.2 =
  [Merged (User 0) (Merged Nothing Nothing); Merged Nothing (Merged Nothing Nothing);
   Merged Nothing (Merged Nothing Nothing); Merged (User 2) (Merged Nothing Nothing)].
Proof. vm_compute. reflexivity. Qed.

(** The copies trigger the events of the rendezvous they answer. *)
Lemma broadcast_triggers : triggered (w_rt broadcast_end.2) =
  [(1, Copied 0); (0, Copied 1); (2, Copied 2); (3, Copied 3)]%nat.
Proof. vm_compute. reflexivity. Qed.

Lemma copied_done l i : copied l (copy_event i) -> i ∈ l.
Proof. apply bool_decide_eq_true. Qed.

Lemma copied_user l u : copied l (User u) ->
  exists n, (u, Copied n) ∈ triggered (w_rt broadcast_end.2) /\ copied l (Copied n).
Proof.
  intros Hu. rewrite broadcast_triggers.
  destruct u as [|[|[|[|u]]]]; [exists 1%nat|exists 0%nat|exists 2%nat|exists 3%nat|discriminate Hu];
    (split; [repeat first [by left | right]|exact Hu]).
Qed.

Lemma copied_pre l i c : (0%nat ∈ l -> 1%nat ∈ l) -> (3%nat ∈ l -> 2%nat ∈ l) ->
  w_copies broadcast_end.2 !! i = Some c -> i ∈ l -> copied l (cp_pre c).
Proof.
  intros H0 H3 Hc Hi.
  assert (Hp : (cp_pre <$> w_copies broadcast_end.2) !! i = Some (cp_pre c))
    by (by rewrite list_lookup_fmap, Hc).
  rewrite broadcast_pres in Hp. generalize dependent (cp_pre c). intros pre Hp.
  destruct i as [|[|[|[|i]]]]; [..|discriminate Hp]; injection Hp as <-; unfold copied;
    cbn [fires_all]; rewrite ?andb_true_iff, ?bool_decide_eq_true; auto.
Qed.

Lemma copied_possible l : (0%nat ∈ l -> 1%nat ∈ l) -> (3%nat ∈ l -> 2%nat ∈ l) ->
  possible_state (copied l) broadcast_end.
Proof.
  intros H0 H3. split_and!.
  - intros u Hu. destruct (copied_user l u Hu) as (n & Hn & Hf). by exists (Copied n).
  - intros b g Hf. discriminate Hf.
  - intros i c Hc Hf. apply copied_done in Hf. by apply (copied_pre l i c).
Qed.

Lemma example_respects : respects broadcast_end example_order.
Proof.
  intros k n Hk.
  assert (Hrun : forall l pre, (cp_pre <$> w_copies broadcast_end.2) !! n = Some pre ->
    (0%nat ∈ l -> 1%nat ∈ l) -> (3%nat ∈ l -> 2%nat ∈ l) -> copied l pre ->
    may_run broadcast_end l n).
  { intros l pre Hc H0 H3 Hp. rewrite list_lookup_fmap in Hc.
    apply fmap_Some in Hc as (c & Hc & ->). exists c, (copied l).
    split_and!; [done|apply _|by apply copied_possible|apply copied_done|done]. }
  rewrite broadcast_pres in Hrun.
  destruct k as [|[|[|[|k]]]]; cbn in Hk; try discriminate Hk; injection Hk as <-;
    (eapply Hrun; [reflexivity|apply (bool_decide_unpack _); vm_compute; exact I..|reflexivity]).
Qed.

#[local] Instance Ret_inj {A} : Inj (=) (=) (@Ret A).
Proof. by intros ?? [= ->]. Qed.

(** What the managers return. *)
Definition broadcast_log : list (Step * @Event example_events) :=
  combine broadcast_schedule
    [User 0; User 1; Copied 0; Copied 1; User 2; User 3; Copied 2; Copied 3]%nat.

Lemma broadcast_run :
  run example_machine (fun _ => None) broadcast_schedule broadcast_state = (Ret broadcast_log, broadcast_end).
Proof. vm_compute. reflexivity. Qed.

(** The participants are the processors 0 to 5. *)
Lemma example_participant g : participant example_from example_to g <-> 0 <= g < 6.
Proof.
  unfold participant, source_shard, target_shard. cbn. split.
  - intros [(i & Hi & ->)|(j & Hj & ->)]; lia.
  - intros Hg. destruct (decide (g < 2)); [left; exists g|right; exists (g - 2)]; lia.
Qed.

Lemma example_takes_part g : 0 <= g < 6 ->
  takes_part (mkUniqueId 0 (devices example_from)) (mkUniqueId 1 (devices example_to)) (fun _ => None)
    cpu example_A example_B example_heap broadcast_log g (example_part g).
Proof.
  intros Hg. assert (g = 0 \/ g = 1 \/ g = 2 \/ g = 3 \/ g = 4 \/ g = 5) as Hcases by lia.
  destruct Hcases as [->|[->|[->|[->|[->| ->]]]]];
    (split; [reflexivity|eexists; split; reflexivity..|vm_compute; reflexivity]).
Qed.

Lemma example_together :
  together (fun _ => None) cpu example_A example_B example_heap 0 1 example_from example_to
    broadcast_log example_part.
Proof.
  split.
  - intros g Hg%example_participant. by apply example_takes_part.
  - intros r e Hin _. apply example_participant.
    assert (Hall : Forall (fun x => match request_of x.1 with
        | Some r => bool_decide (0 <= global_id_ (request_proc r) < 6) = true
        | None => True end) broadcast_log) by (repeat constructor).
    rewrite Forall_forall in Hall. specialize (Hall _ Hin).
    apply (bool_decide_eq_true _). by destruct r.
Qed.

Lemma source_instance i : source_shard example_from i ->
  tile_instance (array_ (example_A (start_ (devices example_from) + i))) = Some (Z.to_nat (10 + i)).
Proof. intros Hi. unfold example_A, source_shard in *. cbn in *. by rewrite decide_True by lia. Qed.

Lemma target_instance j : target_shard example_to j ->
  tile_instance (array_ (example_B (start_ (devices example_to) + j))) = Some (Z.to_nat (20 + j)).
Proof.
  intros Hj. unfold example_B, target_shard in *. cbn in *. rewrite decide_True by lia. cbn.
  f_equal. lia.
Qed.

Lemma example_alone : alone example_A example_B example_heap 0 1 example_from example_to [] broadcast_schedule.
Proof.
  split.
  - intros i j Hi Hj. rewrite (source_instance i Hi), (target_instance j Hj). intros [= E].
    unfold source_shard, target_shard in Hi, Hj. cbn in Hi, Hj. lia.
  - intros j j' Hj Hj'. rewrite (target_instance j Hj), (target_instance j' Hj'). intros [= E].
    unfold target_shard in Hj, Hj'. cbn in Hj, Hj'. lia.
  - by intros c g ?%not_elem_of_nil.
  - intros t g Ht Hk. exfalso.
    assert (Hall : Forall (fun st => match st with
        | DoTarget t => in_reshard (mkUniqueId 0 (devices example_from)) (mkUniqueId 1 (devices example_to)) (t_key t) = true
        | _ => True end) broadcast_schedule) by (repeat constructor).
    rewrite Forall_forall in Hall. specialize (Hall _ Ht). cbn beta iota in Hall. congruence.
Qed.

(** When all copies are over, the triggers of the processor 3 are honoured. *)
Lemma example_honoured : honoured (copied example_order) (triggered (w_rt (part_world' (example_part 3)))).
Proof.
  intros u e Hin. assert (Hu : Forall (fun x => (100 <= x.1)%nat) (triggered (w_rt (part_world' (example_part 3)))))
    by (vm_compute; repeat constructor).
  rewrite Forall_forall in Hu. specialize (Hu _ Hin). cbn in Hu. intros Hf.
  do 4 (destruct u as [|u]; [lia|]). discriminate Hf.
Qed.

(** The shard 1 of the target, which the shard 0 forwards to, has what the shard 0 of the
    source had. *)
Lemma reshard_fills_targets_witness :
  perform_all (w_copies broadcast_end.2) example_order
    (fun inst pt => if bool_decide (inst = Some 10 \/ inst = Some 11)%nat then pt else []) (Some 21%nat) [3] = [3].
Proof.
  destruct (reshard_fills_targets (X := list Z) example_machine (fun _ => None) broadcast_place cpu
    example_A example_B 0 1 (mkShape F32 example_from) (mkShape F32 example_to) broadcast_state
    broadcast_schedule (fun _ => eq_refl) example_from_wf example_to_wf (proj1 example_ranks)
    (proj2 example_ranks) eq_refl broadcast_fits example_A_placed example_B_placed)
    as (log & s & E & _ & Hall).
  - split_and!; [done|done| |]; cbn; intros; by eapply not_elem_of_nil in H.
  - exact broadcast_valid.
  - exact example_alone.
  - rewrite broadcast_run in E. apply pair_eq in E as [E <-].
    assert (log = broadcast_log) as -> by (by apply Ret_inj).
    apply (Hall example_part example_together (fun pt => pt) _ example_order (copied example_order) 1)
      with (rect := mkRect [0] [3]).
    + intros i Hi. assert (i = 0 \/ i = 1) as [-> | ->] by (cbn in Hi; lia); intros rect pt _ _; reflexivity.
    + exact example_respects.
    + apply _.
    + apply copied_possible; intros _; repeat first [by left | right].
    + apply copied_done.
    + cbn. lia.
    + exact example_honoured.
    + vm_compute. reflexivity.
    + reflexivity.
    + apply (bool_decide_unpack _). exact I.
Defined.
