(* ===== verification/Progress.v ===== *)
(** The processors of a reshard never wait for each other in a circle.  A receive waits
    for the send with its key, a send of the source for nothing but the source store, and a
    forward for the receives of its own shard; a relay goes to a greater shard, so the
    calls end one shard after the other. *)
From stdpp Require Import base tactics list list_numbers numbers option strings sets gmap.
From Stdlib Require Import ZArith Zwf Lia.
From S2P Require Import Prelude Events Mesh Shape Processor TileIndex Tiles ScatterGather Broadcast.
From S2P Require Import ReshardConfig Handles Arrays ReshardManager Rendezvous Pairing Matching Reshard.
From S2P Require Import ReshardPlan ReshardFollows PlanPattern PlanMatch PlanCompletes Contents Collective.
Open Scope Z_scope.

(** ** The calls of a log *)
Section Logs.
Context `{RealmMemory} (cells : nat -> option nat) (h : list ShardedArray).

Lemma sends_logged k log c e : (DoSource c, e) ∈ log -> s_key c = k ->
  source_end cells h c e ∈ sends cells h k log.
Proof.
  intros Hin Hk. apply list_elem_of_omap. exists (DoSource c, e).
  split; [done|]. by rewrite bool_decide_true.
Qed.

Lemma receives_logged k log c e : (DoTarget c, e) ∈ log -> t_key c = k ->
  target_end h c e ∈ receives h k log.
Proof.
  intros Hin Hk. apply list_elem_of_omap. exists (DoTarget c, e).
  split; [done|]. by rewrite bool_decide_true.
Qed.

(** The only call with its key. *)
Lemma sole_send k log c e : (DoSource c, e) ∈ log -> source_steps k log.*1 = [c] ->
  sends cells h k log = [source_end cells h c e].
Proof.
  intros Hin Hc. destruct (one_send cells h k log c Hc) as (e' & _ & E). rewrite E.
  assert (Hk : s_key c = k).
  { assert (Hs : c ∈ source_steps k log.*1) by (rewrite Hc; by left). by apply elem_of_source_calls in Hs as [_ Hs]. }
  pose proof (sends_logged k log c e Hin Hk) as Hs. rewrite E in Hs.
  apply list_elem_of_singleton in Hs. by rewrite Hs.
Qed.

Lemma sole_receive k log c e : (DoTarget c, e) ∈ log -> target_steps k log.*1 = [c] ->
  receives h k log = [target_end h c e].
Proof.
  intros Hin Hc. destruct (one_receive h k log c Hc) as (e' & _ & E). rewrite E.
  assert (Hk : t_key c = k).
  { assert (Hs : c ∈ target_steps k log.*1) by (rewrite Hc; by left). by apply elem_of_target_calls in Hs as [_ Hs]. }
  pose proof (receives_logged k log c e Hin Hk) as Hs. rewrite E in Hs.
  apply list_elem_of_singleton in Hs. by rewrite Hs.
Qed.
End Logs.

(** ** A settled moment of a reshard *)
Section Settled.
Context `{RealmMemory} `{!RealmOps} `{!RealmMachine} `{!RealmLimits}.
Context (cells : nat -> option nat) (place : ReshardKey -> Placement).
Context (procs : Z -> Processor) (A B : Z -> ShardedArray) (h : list ShardedArray).
Context (us ud : Z) (ss sd : ShardedShape) (pat : Pattern).
Let src := ss_sharding ss.
Let dst := ss_sharding sd.
Context (Hprocs : forall g, global_id_ (procs g) = g).
Context (Hsrc : ShardingOps.wf src) (Hdst : ShardingOps.wf dst).
Context (Hrs : rank_supported src) (Hrd : rank_supported dst).
Context (HA : placed procs us ss A) (HB : placed procs ud sd B) (Hpat : moves ss sd pat).
Context (log : list (Step * Event)) (P : Z -> Part).
Context (Htog : together cells procs A B h us ud src dst log P).

Let ua := mkUniqueId us (devices src).
Let ub := mkUniqueId ud (devices dst).
Let key := hop_key ua ub.

Context {older : list Copy} (G : ReshardKey -> KeyGhost) (o : Owners older) (s : Comm * World).
Context (I : Inv place h G o s) (Hg : grows_by cells h log (fun _ => no_ghost) G).
Context (fired : Event -> Prop) `{!Moment fired} (Hset : settled_state fired s).
Context (Hmsg : forall m, m ∈ c_messages s.1 -> in_reshard ua ub (msg_key m.2) = false).
Context (Hready : forall g, participant src dst g ->
  fired (Store_Precondition (part_src (P g))) /\ fired (Store_Precondition (part_dst (P g)))).


Abbreviation answers := (answers_of procs A B us ud ss sd log P).

Let planned := planned_answer cells procs A B h us ud ss sd pat Hprocs Hsrc Hdst HA HB Hpat log P Htog.
Let sent := send_request cells procs A B h us ud ss sd pat Hprocs Hsrc Hdst HA HB Hpat log P Htog.
Let got := recv_request cells procs A B h us ud ss sd pat Hprocs Hsrc Hdst HA HB Hpat log P Htog.
Let reshards := asked_in_reshard procs A B us ud ss sd pat Hprocs Hsrc Hdst HA HB Hpat.

Lemma answer_in_log g cs ans x : answers g cs ans -> x ∈ ans ->
  (request_step (a_request x), a_event x) ∈ log.
Proof.
  intros Ha Hx. destruct (answer_own procs A B us ud ss sd log P g cs ans x Ha Hx) as [Hin _].
  by apply elem_of_own in Hin as [Hin _].
Qed.

Lemma answer_asks g cs ans x : answers g cs ans -> 0 <= g <= i64_max -> x ∈ ans ->
  asks procs A B g (manager_call (a_call x)).
Proof.
  intros Ha Hg' Hx. destruct (answer_own procs A B us ud ss sd log P g cs ans x Ha Hx) as (_ & Hc & _).
  split; [done|]. exists cs. split; [by apply Ha|]. by apply list_elem_of_fmap_2.
Qed.

Lemma answer_waits g cs ans x : answers g cs ans -> x ∈ ans ->
  waits_as_planned (writes_of (part_src (P g))) (accesses_of (part_dst (P g)))
    (writes_of (part_dst (P g))) ans x.
Proof. intros (_ & _ & _ & _ & Hw & _) Hx. rewrite Forall_forall in Hw. by apply Hw. Qed.

(** The send and the receive with a key end when neither has to wait any more. *)
Lemma pair_over g cs ans x g' cs' ans' y :
  answers g cs ans -> 0 <= g <= i64_max -> x ∈ ans -> call_role (a_call x) <> ToTarget ->
  answers g' cs' ans' -> 0 <= g' <= i64_max -> y ∈ ans' -> call_role (a_call y) = ToTarget ->
  call_key (a_call x) = call_key (a_call y) ->
  fired (a_ask x).1 -> fired (a_ask y).1 -> fired (a_event x) /\ fired (a_event y).
Proof.
  intros Ha Hb Hx Hr Ha' Hb' Hy Hr' Hk Hfx Hfy.
  pose proof (reshards g' _ (answer_asks _ _ _ _ Ha' Hb' Hy)) as Hres.
  assert (Hm : forall m, m ∈ c_messages s.1 -> msg_key m.2 <> call_key (a_call y)).
  { intros m Hm E. specialize (Hmsg m Hm). unfold manager_call in Hres. rewrite Hr' in Hres. cbn in Hres.
    rewrite E in Hmsg. unfold ua, ub, src, dst in Hmsg. by rewrite Hres in Hmsg. }
  destruct (sent g cs ans x Ha Hb Hx Hr) as (c & Ec & _ & Hc).
  destruct (got g' cs' ans' y Ha' Hb' Hy Hr') as (t & Et & _ & Ht).
  pose proof (answer_in_log _ _ _ _ Ha Hx) as Hlx. pose proof (answer_in_log _ _ _ _ Ha' Hy) as Hly.
  unfold a_ask in Hfx, Hfy. rewrite Ec in Hlx, Hfx. rewrite Et in Hly, Hfy. rewrite Hk in Hc.
  destruct (Hg (call_key (a_call y))) as [Es Er]. cbn in Es, Er.
  rewrite (sole_send cells h _ log c _ Hlx Hc) in Es. rewrite (sole_receive h _ log t _ Hly Ht) in Er.
  apply (live_pair cells place h G o s I (call_key (a_call y)) fired 0 (source_end cells h c (a_event x))
    (target_end h t (a_event y))); [done..|by rewrite Es|by rewrite Er|].
  intros i' x' t' Hi. assert (i' = 0%nat) as -> by lia. rewrite Es, Er. by intros [= <-] [= <-].
Qed.

Lemma send_ready g cs ans x : answers g cs ans -> participant src dst g -> x ∈ ans ->
  call_role (a_call x) <> ToTarget ->
  (call_role (a_call x) = Forward -> covers fired receives_data ans) -> fired (a_ask x).1.
Proof.
  intros Ha Hp Hx Hr Hcov. pose proof (answer_waits _ _ _ _ Ha Hx) as Hw. destruct (Hready g Hp) as [Hs Hd].
  unfold waits_as_planned in Hw. destruct (call_role (a_call x)); [|done|].
  - rewrite Hw. by apply fired_precondition in Hs as [_ Hs].
  - apply Hw; [done|]. split; [|by apply Hcov]. by apply fired_precondition in Hd as [_ Hd].
Qed.

Lemma receive_ready g cs ans y : answers g cs ans -> participant src dst g -> y ∈ ans ->
  call_role (a_call y) = ToTarget -> fired (a_ask y).1.
Proof.
  intros Ha Hp Hy Hr. pose proof (answer_waits _ _ _ _ Ha Hy) as Hw. unfold waits_as_planned in Hw.
  rewrite Hr in Hw. rewrite Hw. by apply Hready.
Qed.

(** The receives of a target shard end, after those of the shards that forward to it. *)
Lemma receives_over j : target_shard dst j -> forall cs ans, answers (start_ (devices dst) + j) cs ans ->
  covers fired receives_data ans.
Proof.
  pose proof (proj1 Hpat) as Hag. fold src dst in Hag.
  induction j as [j IH] using (well_founded_induction (Zwf_well_founded 0)). intros Hj cs ans Ha.
  apply Forall_forall. intros y Hy Hr. pose proof (in_range_i64 dst j Hdst Hj) as Hgj.
  pose proof (answer_asks _ _ _ _ Ha Hgj Hy) as Hask. unfold manager_call in Hask. rewrite Hr in Hask.
  apply (asks_recv procs A B us ud ss sd pat) in Hask; try done.
  destruct Hask as (hp & i & j' & Ej & Hj' & Hin & Hk). assert (j' = j) as -> by (fold dst in Ej; lia).
  assert (Hpy : participant src dst (start_ (devices dst) + j)) by (right; by exists j).
  pose proof (receive_ready _ _ _ _ Ha Hpy Hy Hr) as Hfy. destruct hp.
  - apply (ins_direct _ _ _ Hag) in Hin as [Hi Hout]; [|done]. pose proof (in_range_i64 src i Hsrc Hi) as Hgi.
    destruct (planned_out procs A B us ud ss sd pat Hprocs Hsrc HA HB Hpat i j _ Hi Hout) as (cs' & Ep & Hc).
    destruct (planned _ _ _ Hgi Ep Hc) as (ans' & x & Ha' & Hx & Ex & _).
    apply (pair_over (start_ (devices src) + i) cs' ans' x (start_ (devices dst) + j) cs ans y); try done; rewrite ?Ex; try done.
    apply (send_ready (start_ (devices src) + i) cs' ans'); rewrite ?Ex; try done. left. by exists i.
  - apply (ins_relay _ _ _ Hag) in Hin as [Hi Hrel]; [|done]. pose proof (in_range_i64 dst i Hdst Hi) as Hgi.
    destruct (planned_relay procs A B us ud ss sd pat Hprocs Hdst HA HB Hpat i j _ Hi Hrel) as (cs' & Ep & Hc).
    destruct (planned _ _ _ Hgi Ep Hc) as (ans' & x & Ha' & Hx & Ex & _).
    apply (pair_over (start_ (devices dst) + i) cs' ans' x (start_ (devices dst) + j) cs ans y); try done; rewrite ?Ex; try done.
    apply (send_ready (start_ (devices dst) + i) cs' ans'); rewrite ?Ex; try done; [right; by exists i|]. intros _.
    destruct (relays_range _ _ _ Hag i j _ Hi Hrel) as [Hlt _].
    apply (IH i) with (cs := cs'); [unfold Zwf, target_shard in *; lia|done..].
Qed.

(** A send of the reshard has its receive. *)
Lemma send_received g shape k : asks procs A B g (CallSend shape k) ->
  exists hp i j, target_shard dst j /\ (hp, i, shape) ∈ ins pat j /\ k = key hp i j.
Proof.
  pose proof (proj1 Hpat) as Hag. fold src dst in Hag. intros Hask.
  apply (asks_send procs A B us ud ss sd pat) in Hask; try done.
  destruct Hask as [(i & j & _ & Hi & Hin & ->)|(i & j & _ & Hi & Hin & ->)].
  - exists Direct, i, j. split_and!; [by apply (outs_range _ _ _ Hag i j shape)|by apply (outs_ins _ _ _ Hag)|done].
  - exists Relay, i, j. split_and!; [by apply (relays_range _ _ _ Hag i j shape)|by apply (relays_ins _ _ _ Hag)|done].
Qed.

(** Every call of a participant ends. *)
Lemma receives_done g cs ans : participant src dst g -> answers g cs ans -> covers fired receives_data ans.
Proof.
  intros Hp Ha. apply Forall_forall. intros y Hy Hr.
  pose proof (answer_asks _ _ _ _ Ha (participant_range ss sd Hsrc Hdst g Hp) Hy) as Hask.
  unfold manager_call in Hask. rewrite Hr in Hask. apply (asks_recv procs A B us ud ss sd pat) in Hask; try done.
  destruct Hask as (_ & _ & j & -> & Hj & _). pose proof (receives_over j Hj cs ans Ha) as Hc.
  unfold covers in Hc. rewrite Forall_forall in Hc. by apply Hc.
Qed.

Lemma calls_over g cs ans : participant src dst g -> answers g cs ans -> all_done fired ans.
Proof.
  intros Hp Ha. pose proof (participant_range ss sd Hsrc Hdst g Hp) as Hgr.
  pose proof (receives_done g cs ans Hp Ha) as Hcov.
  apply Forall_forall. intros x Hx. destruct (decide (call_role (a_call x) = ToTarget)) as [Hr|Hr].
  { unfold covers in Hcov. rewrite Forall_forall in Hcov. by apply Hcov. }
  pose proof (answer_asks _ _ _ _ Ha Hgr Hx) as Hask.
  assert (Hm : manager_call (a_call x) = CallSend (call_shape (a_call x)) (call_key (a_call x)))
    by (unfold manager_call; by destruct (call_role _)).
  rewrite Hm in Hask. destruct (send_received _ _ _ Hask) as (hp & i & j & Hj & Hin & Hk).
  pose proof (in_range_i64 dst j Hdst Hj) as Hgj.
  destruct (planned_in procs A B us ud ss sd pat Hprocs Hdst HA HB Hpat hp i j _ Hj Hin) as (cs' & Ep & Hc).
  destruct (planned _ _ _ Hgj Ep Hc) as (ans' & y & Ha' & Hy & Ey & _).
  apply (pair_over g cs ans x (start_ (devices dst) + j) cs' ans' y); try done; rewrite ?Ey; try done.
  - by apply (send_ready g cs ans).
  - apply (receive_ready (start_ (devices dst) + j) cs' ans'); rewrite ?Ey; try done. right. by exists j.
Qed.

(** Hence every call of the reshard in the log, and then the stores are ready. *)
Lemma log_over r e : (request_step r, e) ∈ log -> in_reshard ua ub (request_key r) = true -> fired e.
Proof.
  intros Hin Hk. pose proof (tg_only _ _ _ _ _ _ _ _ _ _ _ Htog r e Hin Hk) as Hp.
  destruct (participant_answers cells procs A B h us ud ss sd pat Hprocs Hsrc Hdst HA HB Hpat log P Htog _ Hp)
    as (cs & ans & Ha).
  destruct (answer_of_own procs A B us ud ss sd log P _ cs ans r e Ha) as (x & Hx & _ & <- & _).
  { apply elem_of_own. split; [done|]. by apply own_true. }
  pose proof (calls_over _ cs ans Hp Ha) as Hall. unfold all_done in Hall. rewrite Forall_forall in Hall.
  by apply Hall.
Qed.

Lemma stores_over g : participant src dst g -> prompt fired (triggered (w_rt (part_world' (P g)))) ->
  fired (Store_Precondition (part_src' (P g))) /\ fired (Store_Precondition (part_dst' (P g))).
Proof.
  intros Hp Hpr.
  destruct (participant_answers cells procs A B h us ud ss sd pat Hprocs Hsrc Hdst HA HB Hpat log P Htog _ Hp)
    as (cs & ans & Ha).
  pose proof Ha as (_ & _ & _ & _ & _ & _ & Hl). destruct (Hl fired _ Hpr (calls_over g cs ans Hp Ha)) as [Hls Hld].
  destruct (Hready g Hp). split; [by apply Hls|by apply Hld].
Qed.
End Settled.

(** ** Messages

    The task of a message sends no other, so the messages in flight can be delivered,
    and then none is left. *)
Section Drain.
Context `{RealmMemory} `{!RealmOps} `{!RealmMachine} (machine : ProcState).
Context (cells : nat -> option nat) (place : ReshardKey -> Placement) (h : list ShardedArray) {older : list Copy}.

Abbreviation State := (Comm * World)%type.

Definition sends_nothing {A} (m : SM State A) : Prop :=
  forall c w, c_messages (m (c, w)).2.1 = c_messages c.

Lemma sends_nothing_bind {A B} (m : SM State A) (k : A -> SM State B) :
  sends_nothing m -> (forall x, sends_nothing (k x)) -> sends_nothing (m ≫= k).
Proof.
  intros Hm Hk c w. specialize (Hm c w). unfold mbind, sm_bind.
  destruct (m (c, w)) as [[x|e|u|] [c' w']]; try done. rewrite <- Hm. apply Hk.
Qed.

Lemma IssueCopy_sends_nothing shape fs a b pre : sends_nothing (IssueCopy shape fs a b pre).
Proof. intros c w. by destruct shape. Qed.
Lemma trigger_sends_nothing u e : sends_nothing (trigger_event u e).
Proof. intros c w. by destruct u. Qed.

Lemma copy_sends_nothing r a b e1 e2 : sends_nothing (RemoteCopyNextPendingToTarget r a b e1 e2).
Proof.
  apply sends_nothing_bind; [apply IssueCopy_sends_nothing|]. intros post.
  destruct (ack_done_barrier r); [|done]. by apply sends_nothing_bind.
Qed.

Lemma ack_sends_nothing l : forall b, sends_nothing (ack_pending b l).
Proof.
  induction l as [|op l IH]; intros b; [done|].
  apply sends_nothing_bind; [apply trigger_sends_nothing|]. intros _. apply IH.
Qed.

Lemma handler_sends_nothing target args : sends_nothing (PointToPointNameHandler target args).
Proof.
  apply sends_nothing_bind; [done|]. intros r. destruct (msg_instance args), (msg_barrier args); try done.
  - destruct (pending_source_reshards r); [done|].
    apply sends_nothing_bind; [apply copy_sends_nothing|]. intros [post r'].
    apply sends_nothing_bind; [apply trigger_sends_nothing|]. done.
  - by apply sends_nothing_bind; [apply ack_sends_nothing|].
Qed.

Definition delivery (st : Step) : Prop := if st is Deliver _ _ then True else False.

(** The first message is delivered. *)
Lemma deliver_first m l c w : c_messages c = m :: l ->
  c_messages (do_step machine cells (Deliver (msg_key m.2) (is_name m.2)) (c, w)).2.1 = l.
Proof.
  intros Hm. cbn [do_step fst]. rewrite Hm. cbn [take_message]. unfold selects.
  rewrite bool_decide_true, eqb_reflx by done. cbn. destruct m as [target args].
  assert (Hs : sends_nothing (_ ← PointToPointNameHandler target args; mret NO_EVENT))
    by (apply sends_nothing_bind; [apply handler_sends_nothing|done]).
  apply Hs.
Qed.

Lemma drained G (o : Owners older) s : Inv place h G o s ->
  exists l log s', Forall delivery l /\ run machine cells l s = (Ret log, s') /\ c_messages s'.1 = [].
Proof.
  remember (c_messages s.1) as msgs eqn:Hm. revert G o s Hm.
  induction msgs as [|m msgs IH]; intros G o [c w] Hm I.
  - by exists [], [], (c, w).
  - pose proof (deliver_first m msgs c w (eq_sym Hm)) as Hd.
    destruct (deliver_step machine cells place h G o (msg_key m.2) (is_name m.2) c w I)
      as (e & s' & G' & o' & E & I' & _). rewrite E in Hd.
    destruct (IH G' o' s' (eq_sym Hd) I') as (l & log & s2 & Hl & El & Hs2).
    exists (Deliver (msg_key m.2) (is_name m.2) :: l), ((Deliver (msg_key m.2) (is_name m.2), e) :: log), s2.
    split_and!; [by constructor| |done]. cbn [run].
    erewrite sm_bind_ret by exact E. by erewrite sm_bind_ret by exact El.
Qed.
End Drain.

(** ** Property *)

(** C4: a reshard never gets stuck.  Take two well-formed shardings of one array that
    fit, and a reshard between them that its processors execute together, in any
    interleaving of their calls and of the messages.  The messages that are in
    flight can be delivered, and then none is left; and once no message of the reshard is
    in flight, in every moment in which Realm has nothing left to do (the copies, triggers
    and barriers whose preconditions have triggered are over) and the stores of the
    processors were ready, every call of the reshard is over, and all the stores are ready
    again: sends, receives and forwards never wait for each other in a circle. *)
Theorem reshard_never_stuck `{RealmMemory} `{!RealmOps} `{!RealmMachine} `{!RealmLimits}
    (machine : ProcState) (cells : nat -> option nat) (place : ReshardKey -> Placement)
    (procs : Z -> Processor) (A B : Z -> ShardedArray) (us ud : Z) (ss sd : ShardedShape)
    (s0 : Comm * World) (schedule : list Step)
    (Hprocs : forall g, global_id_ (procs g) = g)
    (Hsrc : ShardingOps.wf (ss_sharding ss)) (Hdst : ShardingOps.wf (ss_sharding sd))
    (Hrs : rank_supported (ss_sharding ss)) (Hrd : rank_supported (ss_sharding sd))
    (Hsame : array_rect (ss_sharding ss) = array_rect (ss_sharding sd))
    (Hfits : fits (ss_sharding ss) (ss_sharding sd))
    (HA : placed procs us ss A) (HB : placed procs ud sd B) (Hquiet : quiet s0)
    (Hvalid : Forall (valid_step machine cells place (w_heap s0.2)) schedule) :
  let ua := mkUniqueId us (devices (ss_sharding ss)) in
  let ub := mkUniqueId ud (devices (ss_sharding sd)) in
  exists log s, run machine cells schedule s0 = (Ret log, s) /\ log.*1 = schedule /\
    (exists deliveries log' s', Forall delivery deliveries /\
       run machine cells deliveries s = (Ret log', s') /\ c_messages s'.1 = []) /\
    forall P, together cells procs A B (w_heap s0.2) us ud (ss_sharding ss) (ss_sharding sd) log P ->
    (forall m, m ∈ c_messages s.1 -> in_reshard ua ub (msg_key m.2) = false) ->
    forall fired, Moment fired -> settled_state fired s ->
      (forall g, participant (ss_sharding ss) (ss_sharding sd) g ->
         fired (Store_Precondition (part_src (P g))) /\ fired (Store_Precondition (part_dst (P g))) /\
         prompt fired (triggered (w_rt (part_world' (P g))))) ->
      (forall r e, (request_step r, e) ∈ log -> in_reshard ua ub (request_key r) = true -> fired e) /\
      (forall g, participant (ss_sharding ss) (ss_sharding sd) g ->
         fired (Store_Precondition (part_src' (P g))) /\ fired (Store_Precondition (part_dst' (P g)))).
Proof.
  intros ua ub. destruct (fits_moves ss sd Hsrc Hdst Hrs Hrd Hsame Hfits) as [pat Hpat].
  destruct (run_ok machine cells place (w_heap s0.2) schedule (fun _ => no_ghost) (no_owners (w_copies s0.2)) s0)
    as (log & s & G & o & E & Hlog & I & Hg); [by apply quiet_Inv|done|].
  exists log, s. split; [done|]. split; [done|].
  split; [by apply (drained machine cells place (w_heap s0.2) G o s I)|].
  intros P Htog Hmsg fired HM Hset Hstores.
  assert (Hready : forall g, participant (ss_sharding ss) (ss_sharding sd) g ->
    fired (Store_Precondition (part_src (P g))) /\ fired (Store_Precondition (part_dst (P g))))
    by (intros g Hp; by destruct (Hstores g Hp) as (? & ? & _)).
  split.
  - exact (log_over cells place procs A B (w_heap s0.2) us ud ss sd pat Hprocs Hsrc Hdst HA HB Hpat
      log P Htog G o s I Hg fired Hset Hmsg Hready).
  - intros g Hp. destruct (Hstores g Hp) as (_ & _ & Hpr).
    exact (stores_over cells place procs A B (w_heap s0.2) us ud ss sd pat Hprocs Hsrc Hdst HA HB Hpat
      log P Htog G o s I Hg fired Hset Hmsg Hready g Hp Hpr).
Qed.

(** ** The broadcast of [reshard_fills_targets_witness] ends *)
#[local] Existing Instance Matching.example_memory.
#[local] Existing Instance six_processors.
#[local] Instance three_dims : RealmLimits := 3.

(** The moment at which the four copies are over, and every trigger carried out. *)
Definition ended : @Event example_events -> Prop := fun e =>
  fires_all (fun _ => true) (fun u => (u <? 4)%nat || (100 <=? u)%nat) (fun c => (c <? 4)%nat)
    (fun _ _ => false) e = true.

#[local] Instance ended_moment : Moment ended.
Proof. apply fires_all_moment. Qed.

Lemma ended_user u : (u < 4)%nat \/ (100 <= u)%nat -> ended (User u).
Proof.
  intros Hu. change ((u <? 4)%nat || (100 <=? u)%nat = true). apply orb_true_iff.
  by rewrite Nat.ltb_lt, Nat.leb_le.
Qed.

Lemma ended_settled : settled_state ended broadcast_end.
Proof.
  split_and!.
  - intros u e Hin _. assert (Hu : Forall (fun x => (x.1 < 4)%nat) (triggered (w_rt broadcast_end.2)))
      by (rewrite broadcast_triggers; repeat constructor).
    rewrite Forall_forall in Hu. specialize (Hu _ Hin). apply (ended_user u). by left.
  - intros b g Hall. destruct (Hall g (le_n g)) as (e & Hin & _).
    assert (Hno : c_arrivals broadcast_end.1 = []) by (vm_compute; reflexivity).
    rewrite Hno in Hin. exfalso. exact (not_elem_of_nil _ Hin).
  - intros i c Hc _. apply lookup_lt_Some in Hc.
    assert (Hl : length (w_copies broadcast_end.2) = 4%nat) by (vm_compute; reflexivity).
    rewrite Hl in Hc. by apply Nat.ltb_lt.
Qed.

Lemma ended_part g : 0 <= g < 6 ->
  ended (Store_Precondition (part_src (example_part g))) /\
  ended (Store_Precondition (part_dst (example_part g))) /\
  prompt ended (triggered (w_rt (part_world' (example_part g)))).
Proof.
  intros Hg. assert (g = 0 \/ g = 1 \/ g = 2 \/ g = 3 \/ g = 4 \/ g = 5) as Hcases by lia.
  assert (Hpr : forall l : list (nat * @Event example_events), forallb (fun x => 100 <=? x.1)%nat l = true -> prompt ended l).
  { intros l Hl u e Hin _. rewrite forallb_forall in Hl. apply list_elem_of_In in Hin.
    specialize (Hl _ Hin). apply Nat.leb_le in Hl. apply (ended_user u). by right. }
  destruct Hcases as [->|[->|[->|[->|[->| ->]]]]];
    (split; [|split]; [vm_compute; reflexivity..|apply Hpr; vm_compute; reflexivity]).
Qed.

(** The receive of the processor 5, at the end of the second tree, is over, and its store
    ready. *)
Lemma reshard_never_stuck_witness :
  ended (Copied 3) /\ ended (Store_Precondition (part_dst' (example_part 5))).
Proof.
  destruct (reshard_never_stuck example_machine (fun _ => None) broadcast_place cpu
    example_A example_B 0 1 (mkShape F32 example_from) (mkShape F32 example_to) broadcast_state
    broadcast_schedule (fun _ => eq_refl) example_from_wf example_to_wf (proj1 example_ranks)
    (proj2 example_ranks) eq_refl broadcast_fits example_A_placed example_B_placed)
    as (log & s & E & _ & _ & Hall).
  - split_and!; [done|done| |]; cbn; intros; by eapply not_elem_of_nil in H.
  - exact broadcast_valid.
  - rewrite broadcast_run in E. apply pair_eq in E as [E <-].
    assert (log = broadcast_log) as -> by congruence.
    destruct (Hall example_part example_together) with (fired := ended) as [Hcalls Hstores].
    + assert (Hno : c_messages broadcast_end.1 = []) by (vm_compute; reflexivity).
      rewrite Hno. intros m Hm. exfalso. exact (not_elem_of_nil _ Hm).
    + apply _.
    + exact ended_settled.
    + intros g Hg%example_participant. by apply ended_part.
    + split; [|by apply Hstores, example_participant].
      assert (Hlast : exists t, broadcast_log !! 7%nat = Some (DoTarget t, Copied 3) /\
        in_reshard (mkUniqueId 0 (devices example_from)) (mkUniqueId 1 (devices example_to)) (t_key t) = true)
        by (eexists; split; reflexivity).
      destruct Hlast as (t & Hin%list_elem_of_lookup_2 & Hk). by apply (Hcalls (ReqRecv t) (Copied 3)).
Defined.
